(* ===== verification/_CoqProject ===== *)
-Q . S2P
Prelude.v
Utils.v
Node.v
Routing.v
BucketProps.v
RoutingProps.v
RoutingSpec.v
Topology.v
Storage.v
StorageProps.v
StorageConc.v
Fragmentation.v
FragmentationProps.v
Messages.v
Retransmit.v
Crypto.v
AuthHandler.v
AuthProps.v
KeyManager.v
DidRecord.v
Crawling.v
QuorumProps.v
CrawlProps.v
SearchProps.v
GoodLookups.v
Effects.v
Protocol.v
Transport.v
Client.v
Handlers.v
NodeExample.v
ProtocolProps.v
HandlersProps.v
StoreCheckProps.v
TransportProps.v
Interleaving.v
CallProps.v
ContactsProps.v
Admission.v
Publish.v
Network.v
ApiProps.v
NetworkProps.v
NodeProps.v
Workers.v
Testbed.v
PyBindings.v
Counters.v
Text.v
OwnerProps.v
Sniffer.v
Phases.v
Attacker.v
Resilience.v
DhtNode.v
Control.v
CacheBench.v
TopologyRun.v
ResilienceRun.v
NodeRun.v
Measures.v
Wire.v
Cluster.v
ClusterCalls.v
ClusterProps.v
ClusterSet.v
Hashes.v
UnitTests.v
LookupTests.v
ProtocolTests.v
