(* ===== verification/Prelude.v ===== *)
(** * Verification of AuthKademlia-RS

    AuthKademlia-RS is a Kademlia distributed hash table for self-signed DID
    documents: a UDP node that keeps a routing table of contacts, looks up nodes
    and values iteratively, stores records only after verifying them for their
    key, and offers SET, GET and UPDATE to its application. This library models
    the node from its data structures up to that API, and proves what each part
    promises. Sources are under src/src/.

    ** Parts, and the files that model them

    - Identifiers, nodes, the shortlist of a lookup (utils.rs, node.rs): Utils,
      Node. [ident] is [[u8; 20]], [NodeHeap] the bounded sorted list.
    - Routing table (routing.rs): Routing ([KBucket], [RoutingTable]), its
      invariant in BucketProps and RoutingProps, its promises in RoutingSpec.
    - Record store (storage.rs): Storage (the class [IStorage] with its laws
      [IStorageLaws], and [ForgetfulStorage]), StorageProps, and StorageConc,
      where an operation is a sequence of atomic actions that interleave.
    - Fragmentation (fragmentation.rs, the receive path of
      protocol/transport.rs): Fragmentation, FragmentationProps.
    - Messages and resends (protocol/messages.rs, retransmit.rs): Messages,
      Retransmit.
    - Signatures and records (crypto/, auth_handler.rs, signature_cache.rs):
      Crypto, AuthHandler (the interface [SignatureVerifierHandler], the DID rule
      [did_handler], [verify_record], [verify_rotation], [SignatureCache]),
      AuthProps. The key managers (crypto/key_manager.rs) are in KeyManager.
    - Iterative lookups (crawling.rs): Crawling, over the interface
      [SpiderProtocol]; QuorumProps, CrawlProps, SearchProps.
    - The protocol (protocol/): Effects gives the monad of its methods; Protocol
      the state of a node and what it does with its contacts (mod.rs,
      contacts.rs, welcome.rs); Transport a call (transport.rs); Client the
      requests (client.rs) and the instance of [SpiderProtocol]; Handlers the
      answers (handlers.rs, store_check.rs) and [handle_datagram].
      ProtocolProps, HandlersProps, StoreCheckProps, TransportProps, CallProps
      and ContactsProps hold their theorems, NodeExample a node that runs.
      Interleaving closes the world of a call: its other tasks are the activities
      of the node. Admission is the accesses of several threads to the count of
      lookups and the queue of replications, one atomic step each.
    - The API (network/): Publish (reports and replicas), Network (listen, SET,
      GET, UPDATE, bootstrap, stop, the background loops), ApiProps (what its
      operations preserve, and that they end), NetworkProps. Workers is the
      receive loop of [listen] and its workers; NodeProps the whole life of a
      node, any sequence of all of this.
    - Several nodes: Cluster makes the environment of a node out of other nodes
      that run the same code, and delivers the datagrams they send each other;
      Wire says what they rely on in the serialization, with one that has it;
      GoodLookups is lookups in which everybody answers, ClusterCalls a call
      between two nodes, ClusterProps the STORE check on such a network,
      ClusterSet SET and GET on it.
    - Around the node: DidRecord builds the records programs publish
      (examples/publish_did.rs, testbed/did.rs), Testbed the identity a testbed
      node publishes and rotates, Control the lines of its control socket and its
      other commands, NodeRun its life until it is stopped (testbed/node.rs),
      PyBindings the Python classes
      (py_bindings.rs), Counters the traffic counters (counters.rs), Topology the
      checks of a cluster and TopologyRun the run they are part of
      (examples/topology_analysis.rs), DhtNode the program of a container and the
      example of two nodes (scripts/dht_node.rs, examples/publish_did.rs),
      CacheBench the micro-benchmark of the cache and Measures its throughput phase
      and the percentiles programs report (examples/cache_bench.rs). Text
      is what they use of [str]: numbers, separators, white space.
    - Attacks: OwnerProps says what a node keeps when anybody sends it anything;
      Sniffer and Attacker are the attacker of the testbed (testbed/attacker.rs),
      which forges records for the DIDs it sees; Phases, Resilience and
      ResilienceRun the test that floods a node with valid and tampered records
      (scripts/resilience_attacker.rs, scripts/resilience_victim.rs).
    - Tests: UnitTests, LookupTests and ProtocolTests run the unit tests of the
      sources on the model, with SHA-1 as its standard defines it (Hashes): the
      tests of the data structures; those of lookups, on scripted
      protocols; and those of the protocol, in a laboratory where scripted peers
      answer the datagrams of the node while it waits.

    How they interact: Network calls the lookups of Crawling over the requests
    of Client; a request is a [call] of Transport, which waits until
    [handle_datagram] of Handlers, in another task, hands it the answer;
    [handle_datagram] gives requests to the handlers, which verify records
    through AuthHandler, write them through [IStorage], and tell Protocol about
    their sender, which changes the routing table and queues replications.

    ** How the code is translated

    A record is a [Record], an enum an [Inductive], a method a [Definition] with
    the name of the source; where one method has several stages, each is a
    definition that the method composes. A map is a [gmap], a [Vec] a list. Bytes
    are [byte]; 160-bit ids and machine integers are in [Z], with wrapping and
    bounds written where the code has them ([wrap32], [USIZE]). Times are in
    nanoseconds, and read from the environment.

    The methods of the protocol run in the state monad [M] over a world: the
    shared state of the node and its environment (clocks, random numbers,
    socket, scheduler). At each [await] stands [pause], where the other tasks of
    the node may change the shared state in any way ([others]); between two
    awaits a method runs alone. A theorem that needs the other tasks to respect
    an invariant says so ([stable]), and the theorems on [Activity] show that
    datagrams, pings, replications and pending STOREs do. [join_all] and [for_each_concurrent] run their futures
    one after the other, with the other tasks at each await. [F] adds the fuel
    of lookups to [M].

    ** What the theorems show

    - The life of a node (NodeProps): over any sequence of datagrams, tasks, API
      calls, background loops, stops and restarts, every operation ends, every
      record the node serves was verified for its key
      ([records_stay_authentic]), and its tables and buffers stay within their
      limits ([node_stays_bounded]). Under every interleaving of its threads the
      places for lookups are never exceeded, and the queue of replications by
      fewer nodes than there are threads ([admission_bounded]). Datagrams reach
      exactly one worker each, in order (Workers).
    - Several nodes (ClusterSet): on a network of nodes that respond, a SET of a
      record that nobody holds is complete and every replica it counts has
      stored the record by its own check ([set_publishes]), and a GET finds a
      record that a contact asked first holds ([get_finds]). The datagrams are
      fragmented, reassembled and matched to their calls by the code itself.
    - Records: an empty replica stores a record only if the
      peers it must ask all agree (StoreCheckProps); verification accepts
      exactly the records bound to their key and signed, a rotation needs the
      replaced key, the cache does not change the verdicts of DID records, and
      keeps those of the Status List at most an hour (AuthProps); GET returns
      only verified values (NetworkProps). Nodes accept the records the programs
      build and the rotations of their versions (DidRecord), and a testbed node
      always sends such a record and such a rotation (Testbed). Stored keys
      are read back and sign (KeyManager).
    - Attacks: once a node serves a record of the owner of a DID, no request of
      anybody else replaces it ([only_owner_replaces]), so that it refuses the
      forged records that the attacker sends to it, although they verify
      ([forged_stores_are_refused]), and a tampered record is never accepted
      ([tampered_records_are_rejected]). The attacker attacks each replica of a
      record once per window and, in the mode persist, every DID on every node
      seen (Attacker); its sniffer reports each request once (Sniffer).
    - Programs: a container tries as often as it says and shows only what is
      vouched for ([dht_node_runs]);
      a watch ends in its time ([watch_ends]); the phases of the resilience test,
      and its metrics count how its requests ended ([phases_count_exactly],
      [attacker_run_metrics]), and the verdict of the topology analysis says
      exactly what the cluster holds and answers ([verdict_is_exact]); a
      testbed node leaves no task when it stops ([run_ends]); seeds and commands are read
      back (Text, Control); the passes of the cache benchmark read every record,
      the second without a signature check (CacheBench); a percentile has as many
      samples below it as its name says (Measures).
    - Tests: the model passes the unit tests of the sources, one Boolean
      definition for each test (the lemmas whose name ends in [tests_pass]), which
      checks the translation itself on the inputs the authors chose.
    - Routing: the table stays well formed over every history, insertion
      terminates and loses no live primary contact, lookups start from exactly the closest
      eligible contacts, failures and eviction follow the rules (RoutingSpec);
      the structural checks of a cluster always pass (Topology);
      forged messages neither move nor remove a contact (ContactsProps).
    - Store: accounting and budget under every interleaving, first writer wins,
      refinement of a map with expiry (StorageProps, StorageConc).
    - Transport: messages are reassembled in any order within bounded memory
      (FragmentationProps); calls only get the answers they wait for, and are
      transmitted at most three times (TransportProps, Interleaving, CallProps).
    - Lookups and API: lookups end and their outcomes mean what they say
      (CrawlProps, SearchProps, QuorumProps); replicas are the closest nodes and
      the outcomes of publications mean what they say, updates commit on majorities, and every
      operation ends (Publish, NetworkProps). The counters are exact (Counters),
      and Python sees the outcomes exactly (PyBindings).

    Some theorems record defects: [largest_messages_are_discarded], messages of
    261801 to 262144 bytes are sent and always discarded by their receiver;
    [overlap_not_reported], the topology analysis does not notice two buckets for
    the whole key space; [parse_udp_exact], a frame with too short a total length
    ends the sniffer of the testbed attacker; [single_replica_degraded], with
    [ksize] = 1 a publication that stored its only replica is reported as
    degraded; [queue_over_limit], two threads can queue a replication more than
    the limit; [ex_verdicts], a changed issuer key is not used for a Status List
    that was verified within the hour.

    ** Fuel and bounds

    [RoutingTable.insert] recurses after a split with fuel [INSERT_FUEL] = 161,
    one more than the 160 bits of an id: a bucket can be split 160 times. A lookup
    asks each id once, and between two rounds that ask somebody there is at most
    one that asks nobody: 2 n + 2 rounds are enough for a network of n ids, and
    [operations_end] uses that ids are finite. The lookup of an empty replica has
    a deadline instead: the environment says how many rounds fit in it. A call
    runs over the list of events that wake it until its deadline. The loops of
    the programs have the bounds of the code (8 and 10 attempts); a watch of [ms]
    milliseconds has at most [ms / 5 + 2] turns, one per pause of 5 ms, which
    [watch_ends] shows to be enough. The environment of a network of nodes serves
    a number of nested waits: one for a request that its receiver answers by
    itself, two for a STORE, whose receiver asks others before it answers.

    ** Parameters

    SHA-1, SHA-256, signature libraries, key generation, JSON, base64, UUIDs,
    bincode, the moka cache, the file system, the syntax of IPv6 addresses and
    the iteration order of a [HashMap] are arguments (classes [Sha1], [Sha256],
    [SignatureLibraries], [KeyGeneration], [Bincode], [MokaCache], [FileSystem],
    [Ipv6Syntax], [HashOrder], [Json], [JsonWrite], [Base64], [Base64Encode],
    [UuidSyntax], [Hex], [JsonPretty], [Timer]). The servers of the topology
    analysis are seen through their API ([Cluster]). What is relied on is in their laws: a cache returns only
    what was inserted, for no longer than its time to live, keys have the sizes
    that the signature libraries document, a hash order is a permutation, parsing inverts printing, a
    signature verifies under its key, the files of a directory are independent,
    bincode reads back what it wrote in little more room ([BincodeLaws]).
    Each hypothesis is met by a concrete instance in the witnesses.

    ** Not modelled

    Log lines and reports as they are printed; the floating-point averages,
    rates and heuristics; the JSON text and the file of [save_state]; the calls
    that feed the counters (no method reads them); the packet, TCP and UDP
    sockets, signals and processes; tasks that panic; the interleavings of the
    futures of a [join_all] with each other. Of the tests, those left out need what the
    model does not have: real cryptography, several threads or requests at the
    same time, the cancelling of a call, the polling of a lock, a count of the
    calls of the handler; and the integration tests run processes on sockets. On
    the network of Cluster clocks stand still and nothing is lost or reordered;
    losses, late answers and hostile peers are in the theorems on a single node,
    whose environment is arbitrary. *)

From stdpp Require Export base tactics numbers list gmap strings sorting.
From Corelib Require Export Init.Byte.
From Stdlib Require Strings.Byte.
From Stdlib Require Export Lia.

#[export] Set Warnings "-clear-no-such-hyp,-level-tolerance".

(** ** Scope and notations of the development *)

Declare Scope kad_scope.
Delimit Scope kad_scope with kad.
Open Scope kad_scope.

Abbreviation bytes := (list byte).

Create HintDb kad.
Create Rewrite HintDb kad.

(** ** Tactics *)

(** Split the conjunctions of the context and the goal, then try the hint
    database of the development and linear arithmetic. *)
Ltac kad_crush :=
  repeat match goal with
  | H : _ ∧ _ |- _ => destruct H
  | H : ∃ _, _ |- _ => destruct H
  | |- _ ∧ _ => split
  end; simplify_eq/=; try done; try lia; eauto with kad.

(** Case analysis on the scrutinee of the outermost [match] or [if] of the
    goal, remembering the equation. *)
Ltac case_goal :=
  match goal with
  | |- context [match ?x with _ => _ end] => destruct x eqn:?
  end.

(** Reflect the boolean comparisons of the context. *)
Ltac bool_facts :=
  repeat match goal with
  | H : (_ <=? _)%Z = true |- _ => apply Z.leb_le in H
  | H : (_ <=? _)%Z = false |- _ => apply Z.leb_gt in H
  | H : (_ <? _)%Z = true |- _ => apply Z.ltb_lt in H
  | H : (_ <? _)%Z = false |- _ => apply Z.ltb_ge in H
  | H : (_ =? _)%Z = true |- _ => apply Z.eqb_eq in H
  | H : (_ =? _)%Z = false |- _ => apply Z.eqb_neq in H
  | H : (_ <=? _)%nat = true |- _ => apply Nat.leb_le in H
  | H : (_ <=? _)%nat = false |- _ => apply Nat.leb_gt in H
  | H : (_ <? _)%nat = true |- _ => apply Nat.ltb_lt in H
  | H : (_ <? _)%nat = false |- _ => apply Nat.ltb_ge in H
  | H : (_ =? _)%nat = true |- _ => apply Nat.eqb_eq in H
  | H : (_ =? _)%nat = false |- _ => apply Nat.eqb_neq in H
  | H : bool_decide _ = true |- _ => apply bool_decide_eq_true in H
  | H : bool_decide _ = false |- _ => apply bool_decide_eq_false in H
  | H : negb _ = true |- _ => apply negb_true_iff in H
  | H : negb _ = false |- _ => apply negb_false_iff in H
  | H : _ && _ = true |- _ => apply andb_true_iff in H; destruct H
  | H : _ || _ = false |- _ => apply orb_false_iff in H; destruct H
  end.

(** ** Results ([Result<A, E>] and the [?] operator) *)

Inductive Result (E A : Type) := Ok (a : A) | Err (e : E).
Arguments Ok {E A} a.
Arguments Err {E A} e.

#[global] Instance Result_ret E : MRet (Result E) := λ A a, Ok a.
#[global] Instance Result_bind E : MBind (Result E) := λ A B f m,
  match m with Ok a => f a | Err e => Err e end.

(** [map_err], the conversion of [?], [ok_or] and [unwrap_or]. *)
Definition map_err {E F A} (f : E → F) (r : Result E A) : Result F A :=
  match r with Ok a => Ok a | Err e => Err (f e) end.
Definition ok_or {E A} (o : option A) (e : E) : Result E A :=
  match o with Some a => Ok a | None => Err e end.
Definition unwrap_or {E A} (r : Result E A) (d : A) : A :=
  match r with Ok a => a | Err _ => d end.

Lemma bind_Ok {E A B} (f : A → Result E B) (m : Result E A) b :
  m ≫= f = Ok b ↔ ∃ a, m = Ok a ∧ f a = Ok b.
Proof. destruct m; simpl; naive_solver. Qed.

Lemma map_err_Ok {E F A} (f : E → F) (r : Result E A) a : map_err f r = Ok a ↔ r = Ok a.
Proof. destruct r; simpl; naive_solver. Qed.

Lemma ok_or_Ok {E A} (o : option A) (e : E) a : ok_or o e = Ok a ↔ o = Some a.
Proof. destruct o; simpl; naive_solver. Qed.

Lemma unwrap_or_true {E} (r : Result E bool) : unwrap_or r false = true ↔ r = Ok true.
Proof. destruct r; simpl; naive_solver. Qed.

#[export] Hint Rewrite @bind_Ok @map_err_Ok @ok_or_Ok @unwrap_or_true : kad.

(** ** Bytes *)

#[global] Instance byte_eq_dec : EqDecision byte := Byte.byte_eq_dec.

#[global] Program Instance byte_countable : Countable byte :=
  inj_countable Byte.to_N Byte.of_N _.
Next Obligation. intros x. apply Byte.of_to_N. Qed.

(** The value of a [u8]. *)
Definition byte_val (b : byte) : Z := Z.of_N (Byte.to_N b).

Lemma byte_val_range b : (0 ≤ byte_val b < 256)%Z.
Proof. unfold byte_val. pose proof (Byte.to_N_bounded b). lia. Qed.

Lemma byte_val_inj a b : byte_val a = byte_val b → a = b.
Proof.
  unfold byte_val. intros H.
  assert (Byte.to_N a = Byte.to_N b) as E by lia.
  apply (f_equal Byte.of_N) in E. rewrite !Byte.of_to_N in E. congruence.
Qed.

(** [x as u8]. *)
Definition byte_of_Z (x : Z) : byte :=
  default x00 (Byte.of_N (Z.to_N (x `mod` 256))).

Lemma byte_val_of_Z x : byte_val (byte_of_Z x) = (x `mod` 256)%Z.
Proof.
  unfold byte_val, byte_of_Z.
  pose proof (Z.mod_pos_bound x 256 ltac:(lia)).
  destruct (Byte.of_N (Z.to_N (x `mod` 256))) as [b|] eqn:E; simpl.
  - apply Byte.to_of_N in E. lia.
  - apply Byte.of_N_None_iff in E. lia.
Qed.

(** ** Computations that may panic *)

Inductive Run (A : Type) := Panic | Done (a : A).
Arguments Panic {A}.
Arguments Done {A} a.

#[global] Instance Run_ret : MRet Run := λ A a, Done a.
#[global] Instance Run_bind : MBind Run := λ A B f m,
  match m with Done a => f a | Panic => Panic end.

(** [l[i]]. *)
Definition index_at (l : bytes) (i : nat) : Run byte :=
  match l !! i with Some b => Done b | None => Panic end.

Lemma index_at_lt l i : i < length l → ∃ b, index_at l i = Done b ∧ l !! i = Some b.
Proof. intros Hi. unfold index_at. destruct (lookup_lt_is_Some_2 l i Hi) as [b ->]. eauto. Qed.

Lemma index_at_ge l i : length l ≤ i → index_at l i = Panic.
Proof. intros Hi. unfold index_at. by rewrite lookup_ge_None_2. Qed.

(** ** Big-endian integers ([from_be_bytes], [to_be_bytes], U256) *)

Definition be_value (l : bytes) : Z :=
  foldl (λ acc b, acc * 256 + byte_val b)%Z 0%Z l.

Fixpoint be_bytes (n : nat) (x : Z) : bytes :=
  match n with
  | O => []
  | S m => be_bytes m (x `div` 256) ++ [byte_of_Z x]
  end.

Lemma be_value_snoc l b : be_value (l ++ [b]) = (be_value l * 256 + byte_val b)%Z.
Proof. unfold be_value. by rewrite foldl_app. Qed.

Lemma be_value_range l : (0 ≤ be_value l < 256 ^ Z.of_nat (length l))%Z.
Proof.
  induction l as [|b l IH] using rev_ind; [done|].
  rewrite be_value_snoc, length_app. simpl.
  pose proof (byte_val_range b).
  rewrite Nat2Z.inj_add, Z.pow_add_r by lia.
  change (256 ^ Z.of_nat 1)%Z with 256%Z. nia.
Qed.

Lemma be_value_inj l1 l2 :
  length l1 = length l2 → be_value l1 = be_value l2 → l1 = l2.
Proof.
  revert l2. induction l1 as [|b l1 IH] using rev_ind; intros l2 Hlen Hv.
  { symmetry in Hlen. by apply nil_length_inv in Hlen. }
  destruct l2 as [|c l2 _] using rev_ind; rewrite !length_app in Hlen; simpl in *; [lia|].
  rewrite !be_value_snoc in Hv.
  pose proof (byte_val_range b). pose proof (byte_val_range c).
  assert (byte_val b = byte_val c) as Hbc by lia.
  apply byte_val_inj in Hbc as ->.
  rewrite (IH l2) by lia. done.
Qed.

Lemma length_be_bytes n x : length (be_bytes n x) = n.
Proof.
  revert x; induction n as [|n IH]; intros x; simpl; [done|].
  rewrite length_app, IH. simpl. lia.
Qed.

Lemma be_value_be_bytes n x : be_value (be_bytes n x) = (x `mod` 256 ^ Z.of_nat n)%Z.
Proof.
  revert x; induction n as [|n IH]; intros x; simpl.
  { by rewrite Z.mod_1_r. }
  rewrite be_value_snoc, IH, byte_val_of_Z.
  replace (Z.of_nat (S n)) with (1 + Z.of_nat n)%Z by lia.
  rewrite Z.pow_add_r, Z.pow_1_r by lia.
  rewrite Z.rem_mul_r by lia. lia.
Qed.

Lemma be_bytes_be_value l : be_bytes (length l) (be_value l) = l.
Proof.
  apply be_value_inj; [apply length_be_bytes|].
  rewrite be_value_be_bytes. apply Z.mod_small, be_value_range.
Qed.

#[export] Hint Rewrite length_be_bytes be_value_be_bytes : kad.

(** ** Sorting by a key ([sort_by_key], [sort_unstable_by_key])

    The keys of the program (U256 distances, instants) are ordered like [Z].
    [sort_by_key] is the stable sort. An unstable sort may order elements of
    equal key either way; [sort_by_key_unique] shows that there is only one
    result when the keys are distinct. *)

Section sorting.
Context {A : Type} (key : A → Z).

Fixpoint insert_by_key (x : A) (l : list A) : list A :=
  match l with
  | [] => [x]
  | y :: l' => if (key x <=? key y)%Z then x :: y :: l' else y :: insert_by_key x l'
  end.

Definition sort_by_key (l : list A) : list A := foldr insert_by_key [] l.

Definition key_le (a b : A) : Prop := (key a ≤ key b)%Z.
Definition key_lt (a b : A) : Prop := (key a < key b)%Z.

#[local] Instance key_le_trans : Transitive key_le.
Proof. unfold key_le. intros ???. lia. Qed.

Lemma insert_by_key_perm x l : insert_by_key x l ≡ₚ x :: l.
Proof.
  induction l as [|y l IH]; simpl; [done|].
  case_match; [done|]. rewrite IH. apply Permutation_swap.
Qed.

Lemma sort_by_key_perm l : sort_by_key l ≡ₚ l.
Proof.
  induction l as [|x l IH]; simpl; [done|].
  by rewrite insert_by_key_perm, IH.
Qed.

Lemma insert_by_key_sorted x l :
  StronglySorted key_le l → StronglySorted key_le (insert_by_key x l).
Proof.
  induction 1 as [|y l Hs IH Hall]; simpl; [by repeat constructor|].
  case_match; bool_facts.
  - constructor; [by constructor|]. constructor; [done|].
    eapply Forall_impl; [done|]. unfold key_le. intros z ?. lia.
  - constructor; [done|].
    rewrite insert_by_key_perm. constructor; [unfold key_le; lia|done].
Qed.

Lemma sort_by_key_sorted l : StronglySorted key_le (sort_by_key l).
Proof. induction l; simpl; [constructor|]. by apply insert_by_key_sorted. Qed.

Lemma length_sort_by_key l : length (sort_by_key l) = length l.
Proof. apply Permutation_length, sort_by_key_perm. Qed.

Lemma elem_of_sort_by_key x l : x ∈ sort_by_key l ↔ x ∈ l.
Proof. by rewrite sort_by_key_perm. Qed.

(** A sorted list with distinct keys is strictly sorted. *)
Lemma sorted_strict l :
  StronglySorted key_le l → NoDup (key <$> l) → StronglySorted key_lt l.
Proof.
  induction 1 as [|y l Hs IH Hall]; simpl; intros Hnd; [constructor|].
  apply NoDup_cons in Hnd as [Hy Hnd]. constructor; [by apply IH|].
  rewrite Forall_forall in Hall |- *. intros z Hz. specialize (Hall z Hz).
  unfold key_le, key_lt in *. assert (key y ≠ key z); [|lia].
  intros E. apply Hy. rewrite E. by apply list_elem_of_fmap_2.
Qed.

Lemma strict_sorted_weaken l : StronglySorted key_lt l → StronglySorted key_le l.
Proof.
  induction 1 as [|y l Hs IH Hall]; constructor; [done|].
  eapply Forall_impl; [done|]. unfold key_le, key_lt. intros; lia.
Qed.

Lemma strict_sorted_nodup l : StronglySorted key_lt l → NoDup l.
Proof.
  induction 1 as [|y l Hs IH Hall]; constructor; [|done].
  rewrite Forall_forall in Hall. intros Hy. specialize (Hall y Hy).
  unfold key_lt in Hall. lia.
Qed.

Lemma strict_sorted_unique l1 l2 :
  StronglySorted key_lt l1 → StronglySorted key_lt l2 → l1 ≡ₚ l2 → l1 = l2.
Proof.
  intros H1 H2 Hp. eapply (StronglySorted_unique_strong key_le); eauto using strict_sorted_weaken.
  intros x1 x2 Hx1 Hx2 Hle1 Hle2.
  destruct (decide (key x1 = key x2)) as [E|]; [|unfold key_le in *; lia].
  clear -H1 Hp Hx1 Hx2 E. rewrite <-Hp in Hx2. clear l2 Hp.
  induction H1 as [|y l Hs IH Hall]; [by apply not_elem_of_nil in Hx1|].
  rewrite Forall_forall in Hall. unfold key_lt in Hall.
  apply elem_of_cons in Hx1 as [->|Hx1]; apply elem_of_cons in Hx2 as [->|Hx2]; auto.
  - specialize (Hall x2 Hx2). lia.
  - specialize (Hall x1 Hx1). lia.
Qed.

(** Any ascending rearrangement of elements with distinct keys is the
    result of [sort_by_key]: this covers [sort_unstable_by_key]. *)
Lemma sort_by_key_unique l l' :
  NoDup (key <$> l) → l' ≡ₚ l → StronglySorted key_le l' → l' = sort_by_key l.
Proof.
  intros Hnd Hp Hs. apply strict_sorted_unique.
  - apply sorted_strict; [done|]. by rewrite Hp.
  - apply sorted_strict; [apply sort_by_key_sorted|]. by rewrite sort_by_key_perm.
  - by rewrite Hp, sort_by_key_perm.
Qed.

(** ** The [k] elements of least key *)

Record top_k (k : nat) (l r : list A) : Prop := {
  top_k_sorted : StronglySorted key_lt r;
  top_k_incl : r ⊆ l;
  top_k_length : length r = k `min` length l;
  top_k_closest : ∀ x y, x ∈ l → x ∉ r → y ∈ r → (key y < key x)%Z
}.

Lemma sorted_app_lt l1 l2 x y :
  StronglySorted key_lt (l1 ++ l2) → x ∈ l1 → y ∈ l2 → (key x < key y)%Z.
Proof. intros Hs Hx Hy. by eapply (StronglySorted_app_1_elem_of key_lt). Qed.

Lemma take_sort_top_k k l :
  NoDup (key <$> l) → top_k k l (take k (sort_by_key l)).
Proof.
  intros Hnd.
  assert (StronglySorted key_lt (sort_by_key l)) as Hs.
  { apply sorted_strict; [apply sort_by_key_sorted|]. by rewrite sort_by_key_perm. }
  rewrite <-(take_drop k (sort_by_key l)) in Hs.
  split.
  - by eapply (StronglySorted_app_1_l key_lt).
  - intros x Hx. apply elem_of_sort_by_key. by eapply elem_of_take in Hx as (i & ? & ?); eapply list_elem_of_lookup_2.
  - by rewrite length_take, length_sort_by_key.
  - intros x y Hx Hnx Hy. eapply sorted_app_lt; [done|done|].
    apply elem_of_sort_by_key in Hx. rewrite <-(take_drop k (sort_by_key l)) in Hx.
    apply elem_of_app in Hx as [|]; done.
Qed.

End sorting.

#[export] Hint Resolve sort_by_key_sorted : kad.

(** ** Lists *)

Lemma NoDup_fmap_inj_on {A B} (f : A → B) (l : list A) x y :
  NoDup (f <$> l) → x ∈ l → y ∈ l → f x = f y → x = y.
Proof.
  induction l as [|z l IH]; simpl; intros Hnd Hx Hy E; [by apply not_elem_of_nil in Hx|].
  apply NoDup_cons in Hnd as [Hz Hnd].
  apply elem_of_cons in Hx as [->|Hx]; apply elem_of_cons in Hy as [->|Hy]; auto.
  - destruct Hz. apply list_elem_of_fmap. eauto.
  - destruct Hz. apply list_elem_of_fmap. eauto.
Qed.

Lemma NoDup_fmap_filter {A B} (f : A → B) (P : A → Prop) `{!∀ x, Decision (P x)} (l : list A) :
  NoDup (f <$> l) → NoDup (f <$> filter P l).
Proof.
  induction l as [|x l IH]; simpl; intros Hnd; [done|].
  apply NoDup_cons in Hnd as [Hx Hnd]. rewrite filter_cons. case_decide; [|by apply IH].
  simpl. apply NoDup_cons. split; [|by apply IH].
  intros (y & E & Hy)%list_elem_of_fmap. apply list_elem_of_filter in Hy as [_ Hy].
  apply Hx. apply list_elem_of_fmap. eauto.
Qed.

Lemma list_filter_all {A} (P : A → Prop) `{!∀ x, Decision (P x)} (l : list A) :
  Forall P l → filter P l = l.
Proof.
  induction 1 as [|x l Hx Hl IH]; [done|]. rewrite filter_cons, decide_True by done. by rewrite IH.
Qed.

Lemma NoDup_fmap_of_inj {A B C} (f : A → B) (g : A → C) (l : list A) :
  (∀ x y, g x = g y → f x = f y) → NoDup (f <$> l) → NoDup (g <$> l).
Proof.
  intros Hinj. induction l as [|x l IH]; simpl; intros Hnd; [constructor|].
  apply NoDup_cons in Hnd as [Hx Hnd]. apply NoDup_cons. split; [|by apply IH].
  intros (y & E & Hy)%list_elem_of_fmap. apply Hx. apply list_elem_of_fmap. exists y; auto.
Qed.

Lemma elem_of_take_incl {A} (l : list A) k x : x ∈ take k l → x ∈ l.
Proof. intros (i & ? & ?)%elem_of_take. by eapply list_elem_of_lookup_2. Qed.

Lemma NoDup_incl_perm {A} (l1 l2 : list A) :
  NoDup l1 → l1 ⊆ l2 → length l2 ≤ length l1 → l1 ≡ₚ l2.
Proof.
  intros Hnd Hsub Hlen. apply submseteq_length_Permutation; [|done].
  by apply NoDup_submseteq.
Qed.

Lemma NoDup_incl_length {A} (l1 l2 : list A) :
  NoDup l1 → l1 ⊆ l2 → length l1 ≤ length l2.
Proof. intros Hnd Hsub. by apply submseteq_length, NoDup_submseteq. Qed.

(** ** The [k] elements of least key are determined by the candidates *)

Section top_k_facts.
Context {A : Type} `{!EqDecision A} (key : A → Z).
Implicit Types l m u lu r : list A.

Lemma top_k_nodup k l r : top_k key k l r → NoDup r.
Proof. intros []. by eapply strict_sorted_nodup. Qed.

Lemma top_k_unique k l l' r r' :
  length l = length l' → (∀ x, x ∈ l ↔ x ∈ l') →
  top_k key k l r → top_k key k l' r' → r = r'.
Proof.
  intros Hlen Hl Hr Hr'.
  pose proof (top_k_nodup _ _ _ Hr) as Hn. pose proof (top_k_nodup _ _ _ Hr') as Hn'.
  destruct Hr as [Hs Hi Hk Hc], Hr' as [Hs' Hi' Hk' Hc'].
  eapply strict_sorted_unique; [done..|].
  apply NoDup_incl_perm; [done| |lia]. intros x Hx.
  destruct (decide (x ∈ r')) as [|Hnx]; [done|exfalso].
  assert (¬ r' ⊆ r) as Hno.
  { intros Hsub. apply Hnx. by rewrite (NoDup_incl_perm r' r) by (done || lia). }
  apply Hno. intros y Hy. destruct (decide (y ∈ r)) as [|Hny]; [done|exfalso].
  specialize (Hc' x y (proj1 (Hl x) (Hi _ Hx)) Hnx Hy).
  specialize (Hc y x (proj2 (Hl y) (Hi' _ Hy)) Hny Hx). lia.
Qed.

(** Selecting from a selection and fresh candidates selects from all the
    candidates: nothing dropped earlier could have been kept. *)
Lemma top_k_absorb k l m u lu r r' :
  (∀ x, x ∈ m ↔ x ∈ r ∨ x ∈ u) → NoDup m →
  (∀ x, x ∈ lu ↔ x ∈ l ∨ x ∈ u) → NoDup lu →
  top_k key k l r → top_k key k m r' → top_k key k lu r'.
Proof.
  intros Hm Hnm Hlu Hnlu Hr Hr'.
  pose proof (top_k_nodup _ _ _ Hr) as Hn.
  destruct Hr as [Hs Hi Hk Hc], Hr' as [Hs' Hi' Hk' Hc'].
  assert (Hmlu : m ⊆ lu).
  { intros x [Hx|Hx]%Hm; apply Hlu; auto. }
  assert (Hle : length m ≤ length lu) by (by apply NoDup_incl_length).
  assert (Hcase : (∀ x, x ∈ lu → x ∈ m) ∨ k = length r).
  { destruct (decide (k = length r)) as [|Hne]; [by right|left].
    intros x [Hx|Hx]%Hlu; apply Hm; [left|by right].
    rewrite (NoDup_incl_perm r l) by (done || lia). done. }
  assert (Hrm : length r ≤ length m).
  { apply NoDup_incl_length; [done|]. intros x Hx. apply Hm. by left. }
  split; [done|by intros x Hx; apply Hmlu, Hi'| |].
  - destruct Hcase as [Hall|]; [|lia].
    assert (length lu ≤ length m) by (by apply NoDup_incl_length). lia.
  - intros x y Hx Hnx Hy. destruct (decide (x ∈ m)) as [|Hxm]; [by apply Hc'|].
    destruct Hcase as [Hall|Hkr]; [by apply Hall in Hx|].
    assert (x ∈ l ∧ x ∉ r) as [Hxl Hxr].
    { apply Hlu in Hx as [|]; [|destruct Hxm; apply Hm; by right].
      split; [done|]. intros ?. destruct Hxm. apply Hm. by left. }
    (* every [z ∈ r] is closer than [x]; [r'] has [k] members, so its members
       are no further than the furthest of [r] *)
    destruct (decide (y ∈ r)) as [|Hyr]; [by apply Hc|].
    assert (∃ z, z ∈ r ∧ z ∉ r') as (z & Hz & Hzr').
    { destruct (decide (Forall (λ z, z ∈ r') r)) as [HF|HF].
      - rewrite Forall_forall in HF. exfalso. apply Hyr.
        assert (r ≡ₚ r') as Hp by (apply NoDup_incl_perm; [done|exact HF|lia]).
        by rewrite Hp.
      - apply not_Forall_Exists in HF; [|apply _]. by apply Exists_exists in HF. }
    specialize (Hc' z y (proj2 (Hm z) (or_introl Hz)) Hzr' Hy).
    specialize (Hc x z Hxl Hxr Hz). lia.
Qed.
End top_k_facts.

Lemma NoDup_fmap_submseteq {A B} (f : A → B) (l k : list A) :
  l ⊆+ k → NoDup (f <$> k) → NoDup (f <$> l).
Proof.
  intros (m & Hp)%submseteq_Permutation. rewrite Hp, fmap_app.
  by intros [? _]%NoDup_app.
Qed.

Lemma StronglySorted_sublist {A} (R : relation A) (l k : list A) :
  l `sublist_of` k → StronglySorted R k → StronglySorted R l.
Proof.
  induction 1 as [|x l k Hsub IH|x l k Hsub IH]; intros Hs; [done| |].
  - inversion_clear Hs as [|?? Hk Hall]. constructor; [by apply IH|].
    rewrite Forall_forall in Hall |- *. intros y Hy. apply Hall.
    by eapply elem_of_submseteq, sublist_submseteq.
  - inversion_clear Hs. by apply IH.
Qed.

Lemma StronglySorted_fmap_in {A B} (f : A → B) (R1 : relation A) (R2 : relation B) (l : list A) :
  (∀ x y, x ∈ l → y ∈ l → R1 x y → R2 (f x) (f y)) →
  StronglySorted R1 l → StronglySorted R2 (f <$> l).
Proof.
  intros Hf Hs. induction Hs as [|x l Hs IH Hall]; simpl; [constructor|].
  constructor.
  - apply IH. intros y z Hy Hz. apply Hf; by right.
  - rewrite Forall_fmap, Forall_forall. rewrite Forall_forall in Hall.
    intros y Hy. apply Hf; [left|by right|by apply Hall].
Qed.

(** Sorting pairs of a key and an element by the key is sorting the elements. *)
Lemma sort_by_key_decorate {A} (key : A → Z) (l : list A) :
  sort_by_key fst ((λ x, (key x, x)) <$> l) = (λ x, (key x, x)) <$> sort_by_key key l.
Proof.
  assert (Hins : ∀ x l', insert_by_key fst (key x, x) ((λ x, (key x, x)) <$> l') =
    (λ x, (key x, x)) <$> insert_by_key key x l').
  { intros x l'. induction l' as [|y l' IH]; csimpl; [done|].
    case_match; csimpl; [done|]. by rewrite IH. }
  induction l as [|x l IH]; csimpl; [done|]. by rewrite IH, Hins.
Qed.

Lemma take_sort_decorate {A} (key : A → Z) k (l : list A) :
  snd <$> take k (sort_by_key fst ((λ x, (key x, x)) <$> l)) = take k (sort_by_key key l).
Proof.
  rewrite sort_by_key_decorate, <-fmap_take, <-list_fmap_compose. apply list_fmap_id.
Qed.
