(* ===== verification/Utils.v ===== *)
(** * Identifiers (src/src/utils.rs)

    Node ids and DHT keys are arrays [[u8; ID_LEN]]: a list of bytes together
    with the proof of its length. SHA-1 is a parameter ([Sha1]). *)

From S2P Require Import Prelude.

(** [ID_LEN]. *)
Definition ID_LEN : nat := 20.

(** [[u8; ID_LEN]]. *)
Definition ident : Type := { l : bytes | length l = ID_LEN }.

Definition ident_bytes (i : ident) : bytes := `i.

#[global] Instance ident_eq_dec : EqDecision ident.
Proof. unfold ident. apply _. Defined.

#[global] Instance ident_countable : Countable ident.
Proof. unfold ident. apply _. Defined.

Lemma ident_eq (i j : ident) : ident_bytes i = ident_bytes j → i = j.
Proof. apply (sig_eq_pi _). Qed.

Lemma length_ident_bytes (i : ident) : length (ident_bytes i) = ID_LEN.
Proof. exact (proj2_sig i). Qed.

#[export] Hint Rewrite length_ident_bytes : kad.

(** The conversion of a [Vec<u8>] to an id, as the code writes it: a length
    test, then [copy_from_slice]. *)
Definition ident_of_bytes (l : bytes) : option ident :=
  match decide (length l = ID_LEN) with
  | left H => Some (l ↾ H)
  | right _ => None
  end.

Lemma ident_of_bytes_ident i : ident_of_bytes (ident_bytes i) = Some i.
Proof.
  unfold ident_of_bytes. destruct (decide _) as [H|H].
  - f_equal. by apply ident_eq.
  - by destruct H, i.
Qed.

(** [[b; ID_LEN]]. *)
Definition ident_repeat (b : byte) : ident :=
  replicate ID_LEN b ↾ length_replicate ID_LEN b.

(** An id whose first byte is [first] and whose last byte is [last], zeroes
    between: the ids of the concrete examples. *)
Definition ident_ends (first last : byte) : ident :=
  (first :: replicate 18 x00 ++ [last]) ↾ eq_refl.

(** SHA-1 ([Sha1::new], [update], [finalize]): a third-party hash of arbitrary
    bytes to 20 bytes. *)
Class Sha1 := sha1 : bytes → ident.

(** [digest_bytes]. *)
Definition digest_bytes `{Sha1} (data : bytes) : ident := sha1 data.

(** The bytes of a Rust [str]; literals are ASCII. *)
Definition str_bytes (s : string) : bytes :=
  (λ a, byte_of_Z (Z.of_N (Ascii.N_of_ascii a))) <$> String.list_ascii_of_string s.

(** [digest]. *)
Definition digest `{Sha1} (s : bytes) : ident := digest_bytes s.

(** [STATUS_LIST_KEY]. *)
Definition STATUS_LIST_KEY : bytes := str_bytes "status-list".

(** There are finitely many ids. *)
Fixpoint all_lists (n : nat) : list bytes :=
  match n with
  | O => [[]]
  | S m => flat_map (λ b, cons (byte_of_Z (Z.of_nat b)) <$> all_lists m) (seq 0 256)
  end.

Lemma elem_of_all_lists l : l ∈ all_lists (length l).
Proof.
  induction l as [|b l IH]; cbn [all_lists length]; [by left|].
  apply list_elem_of_In, in_flat_map. exists (Z.to_nat (byte_val b)).
  pose proof (byte_val_range b). split; [apply in_seq; lia|].
  apply list_elem_of_In, list_elem_of_fmap. exists l. split; [|done]. f_equal.
  apply byte_val_inj. rewrite byte_val_of_Z, Z2Nat.id, Z.mod_small by lia. done.
Qed.

Lemma finitely_many_ids : ∃ U : gset ident, ∀ i, i ∈ U.
Proof.
  exists (list_to_set (omap ident_of_bytes (all_lists ID_LEN))). intros i.
  apply elem_of_list_to_set, list_elem_of_omap. exists (ident_bytes i).
  split; [|apply ident_of_bytes_ident]. rewrite <-(length_ident_bytes i). apply elem_of_all_lists.
Qed.
