(* ===== verification/Node.v ===== *)
(** * Nodes and the bounded shortlist of a lookup (src/src/node.rs)

    [Node] is a peer; its distance to another is the XOR of the two ids read
    as 160-bit big-endian integers. [NodeHeap] keeps the [maxsize] known nodes
    closest to a pivot, in ascending distance. *)

From S2P Require Import Prelude Utils.
From Stdlib Require ZArith.Zbitwise.

Open Scope Z_scope.

(** [Node::id_to_u256]: [U256::from_big_endian]. A [U256] is an integer of
    [0, 2^256); ids only reach [0, 2^160). *)
Definition id_to_u256 (i : ident) : Z := be_value (ident_bytes i).

(** [Node]. The fields are public, but every [Node] of the program is built by
    [Node::new] and none is mutated, so [long_id] always is the integer of
    [id]; the last component records it. *)
Record Node := mkNode {
  id : ident;
  ip : option string;
  port : option Z;
  long_id : Z;
  long_id_ok : long_id = id_to_u256 id
}.

(** [Node::new]. *)
Definition Node_new (i : ident) (a : option string) (p : option Z) : Node :=
  mkNode i a p (id_to_u256 i) eq_refl.

(** [Node::from_id]. *)
Definition Node_from_id (i : ident) : Node := Node_new i None None.

(** [Node::distance_to]. *)
Definition distance_to (n other : Node) : Z := Z.lxor (long_id n) (long_id other).

(** [Node::same_home_as]. *)
Definition same_home_as (n other : Node) : bool :=
  bool_decide (ip n = ip other) && bool_decide (port n = port other).

(** [Node::address]. *)
Definition address (n : Node) : option (string * Z) :=
  match ip n, port n with
  | Some a, Some p => Some (a, p)
  | _, _ => None
  end.

(** ** Equality of nodes ([derive(PartialEq, Eq)]) *)

Lemma Node_eq (a b : Node) : id a = id b → ip a = ip b → port a = port b → a = b.
Proof.
  destruct a as [i a p l E], b as [i' a' p' l' E']; simpl. intros -> -> ->.
  subst l l'. done.
Qed.

Lemma Node_eta n : n = Node_new (id n) (ip n) (port n).
Proof. by apply Node_eq. Qed.

#[global] Instance Node_eq_dec : EqDecision Node.
Proof.
  refine (λ a b, cast_if (decide (id a = id b ∧ ip a = ip b ∧ port a = port b))).
  - abstract (destruct_and!; by apply Node_eq).
  - abstract naive_solver.
Defined.

(** ** The XOR metric *)

Lemma id_to_u256_range i : 0 ≤ id_to_u256 i < 2 ^ 160.
Proof.
  unfold id_to_u256. pose proof (be_value_range (ident_bytes i)) as H.
  rewrite length_ident_bytes in H. exact H.
Qed.

Lemma id_to_u256_inj i j : id_to_u256 i = id_to_u256 j → i = j.
Proof.
  intros H. apply ident_eq, be_value_inj; [|done].
  by rewrite !length_ident_bytes.
Qed.

Lemma long_id_range n : 0 ≤ long_id n < 2 ^ 160.
Proof. rewrite long_id_ok. apply id_to_u256_range. Qed.

Lemma long_id_inj a b : long_id a = long_id b → id a = id b.
Proof. rewrite !long_id_ok. apply id_to_u256_inj. Qed.

Lemma lxor_lt_pow2 a b n : 0 ≤ n → 0 ≤ a < 2 ^ n → 0 ≤ b < 2 ^ n → 0 ≤ Z.lxor a b < 2 ^ n.
Proof.
  intros Hn Ha Hb. assert (0 ≤ Z.lxor a b) as H0 by (apply Z.lxor_nonneg; lia).
  split; [done|]. apply Z.bounded_iff_bits_nonneg; [done..|].
  intros l Hl. rewrite Z.lxor_spec.
  rewrite (proj1 (Z.bounded_iff_bits_nonneg n a ltac:(lia) ltac:(lia)) ltac:(lia) l Hl).
  rewrite (proj1 (Z.bounded_iff_bits_nonneg n b ltac:(lia) ltac:(lia)) ltac:(lia) l Hl).
  done.
Qed.

Lemma distance_to_range a b : 0 ≤ distance_to a b < 2 ^ 160.
Proof. apply lxor_lt_pow2; [lia|apply long_id_range..]. Qed.

Lemma distance_to_sym a b : distance_to a b = distance_to b a.
Proof. apply Z.lxor_comm. Qed.

Lemma distance_to_zero a b : distance_to a b = 0 ↔ id a = id b.
Proof.
  unfold distance_to. rewrite Z.lxor_eq_0_iff. split; [apply long_id_inj|].
  intros E. by rewrite !long_id_ok, E.
Qed.

Lemma distance_to_inj p a b : distance_to p a = distance_to p b → id a = id b.
Proof.
  unfold distance_to. intros E. apply (f_equal (Z.lxor (long_id p))) in E.
  rewrite <-!Z.lxor_assoc, Z.lxor_nilpotent, !Z.lxor_0_l in E. by apply long_id_inj.
Qed.

Lemma distance_to_triangle a b c : distance_to a c ≤ distance_to a b + distance_to b c.
Proof.
  unfold distance_to.
  replace (Z.lxor (long_id a) (long_id c))
    with (Z.lxor (Z.lxor (long_id a) (long_id b)) (Z.lxor (long_id b) (long_id c))).
  - pose proof (Zbitwise.Z.add_lxor_2land (Z.lxor (long_id a) (long_id b))
      (Z.lxor (long_id b) (long_id c))).
    assert (0 ≤ Z.land (Z.lxor (long_id a) (long_id b)) (Z.lxor (long_id b) (long_id c)));
      [|lia].
    apply Z.land_nonneg. left. apply (distance_to_range a b).
  - rewrite Z.lxor_assoc, <-(Z.lxor_assoc (long_id b)), Z.lxor_nilpotent.
    by rewrite Z.lxor_0_l.
Qed.

Close Scope Z_scope.

(** ** [NodeHeap] *)

Module NodeHeap.

(** [HeapEntry]. *)
Record HeapEntry := mkEntry { distance : Z; entry_node : Node }.

(** [NodeHeap]. *)
Record t := mk {
  node : Node;
  entries : list HeapEntry;
  contacted : gset ident;
  maxsize : nat
}.

Definition entry_id (e : HeapEntry) : ident := id (entry_node e).

(** [NodeHeap::new]. *)
Definition new (n : Node) (size : nat) : t := mk n [] ∅ size.

(** The test of [NodeHeap::contains], on the entries. *)
Definition entries_contain (es : list HeapEntry) (n : Node) : bool :=
  existsb (λ e, bool_decide (entry_id e = id n)) es.

(** [NodeHeap::contains]. *)
Definition contains (h : t) (n : Node) : bool := entries_contain (entries h) n.

(** The loop of [NodeHeap::push]: it appends the nodes not yet present and
    tells whether it appended any. *)
Fixpoint push_loop (pivot : Node) (es : list HeapEntry) (added : bool) (nodes : list Node)
    : list HeapEntry * bool :=
  match nodes with
  | [] => (es, added)
  | n :: rest =>
      if entries_contain es n then push_loop pivot es added rest
      else push_loop pivot (es ++ [mkEntry (distance_to pivot n) n]) true rest
  end.

(** [NodeHeap::push]. *)
Definition push (h : t) (nodes : list Node) : t :=
  let '(es, added) := push_loop (node h) (entries h) false nodes in
  let es' := if added then take (maxsize h) (sort_by_key distance es) else es in
  mk (node h) es' (contacted h) (maxsize h).

(** [NodeHeap::push_one]. *)
Definition push_one (h : t) (n : Node) : t := push h [n].

(** [NodeHeap::remove]: the peers are collected into a set and the entries
    whose id is in it are dropped. *)
Definition remove (h : t) (peers : list ident) : t :=
  match peers with
  | [] => h
  | _ =>
      let peer_set : gset ident := list_to_set peers in
      mk (node h) (filter (λ e, entry_id e ∉ peer_set) (entries h)) (contacted h) (maxsize h)
  end.

(** [NodeHeap::popleft]. *)
Definition popleft (h : t) : option Node * t :=
  match entries h with
  | [] => (None, h)
  | e :: es => (Some (entry_node e), mk (node h) es (contacted h) (maxsize h))
  end.

(** [NodeHeap::get_node]. *)
Definition get_node (h : t) (i : ident) : option Node :=
  entry_node <$> List.find (λ e, bool_decide (entry_id e = i)) (entries h).

(** [NodeHeap::iter] and [NodeHeap::to_vec]. *)
Definition iter (h : t) : list Node := entry_node <$> take (maxsize h) (entries h).

Definition to_vec (h : t) : list Node := iter h.

(** [NodeHeap::get_ids]. *)
Definition get_ids (h : t) : list ident := id <$> iter h.

(** [NodeHeap::len] and [NodeHeap::is_empty]. *)
Definition len (h : t) : nat := length (entries h) `min` maxsize h.

Definition is_empty (h : t) : bool := match entries h with [] => true | _ => false end.

(** [NodeHeap::mark_contacted]. *)
Definition mark_contacted (h : t) (n : Node) : t :=
  mk (node h) (entries h) ({[ id n ]} ∪ contacted h) (maxsize h).

(** [NodeHeap::get_uncontacted]. *)
Definition get_uncontacted (h : t) : list Node :=
  filter (λ n, id n ∉ contacted h) (iter h).

(** [NodeHeap::have_contacted_all]. *)
Definition have_contacted_all (h : t) : bool :=
  match get_uncontacted h with [] => true | _ => false end.

(** ** Invariant *)

(** The XOR distance of an id to a pivot. *)
Definition id_distance (pivot : Node) (i : ident) : Z :=
  Z.lxor (long_id pivot) (id_to_u256 i).

Record entries_ok (pivot : Node) (es : list HeapEntry) : Prop := {
  ok_distance : Forall (λ e, distance e = distance_to pivot (entry_node e)) es;
  ok_nodup : NoDup (entry_id <$> es)
}.

Record wf (h : t) : Prop := {
  wf_entries : entries_ok (node h) (entries h);
  wf_sorted : StronglySorted (key_lt distance) (entries h);
  wf_size : length (entries h) ≤ maxsize h
}.

Lemma entries_contain_true es n : entries_contain es n = true ↔ id n ∈ entry_id <$> es.
Proof.
  unfold entries_contain. rewrite existsb_exists, list_elem_of_fmap.
  split.
  - intros (e & He & Heq%bool_decide_eq_true). exists e. rewrite list_elem_of_In. auto.
  - intros (e & Heq & He). exists e. rewrite <-list_elem_of_In.
    split; [done|]. by apply bool_decide_eq_true.
Qed.

Lemma entries_contain_false es n : entries_contain es n = false ↔ id n ∉ entry_id <$> es.
Proof. rewrite <-entries_contain_true. by destruct (entries_contain es n). Qed.

Lemma entry_distance_id pivot es :
  entries_ok pivot es → distance <$> es = id_distance pivot <$> (entry_id <$> es).
Proof.
  intros [Hd _]. rewrite <-list_fmap_compose. apply list_fmap_ext. intros i e He.
  rewrite Forall_forall in Hd. rewrite (Hd e) by (by eapply list_elem_of_lookup_2).
  unfold distance_to, id_distance, entry_id, compose. by rewrite (long_id_ok (entry_node e)).
Qed.

Lemma id_distance_inj pivot i j : id_distance pivot i = id_distance pivot j → i = j.
Proof. apply (distance_to_inj pivot (Node_from_id i) (Node_from_id j)). Qed.

Lemma entries_ok_keys pivot es : entries_ok pivot es → NoDup (distance <$> es).
Proof.
  intros H. rewrite (entry_distance_id pivot) by done.
  apply (NoDup_fmap_of_inj (λ i, i)); [apply id_distance_inj|].
  rewrite list_fmap_id. apply H.
Qed.

Lemma push_loop_spec pivot es added nodes es' added' :
  entries_ok pivot es →
  push_loop pivot es added nodes = (es', added') →
  entries_ok pivot es' ∧
  (∀ i, i ∈ entry_id <$> es' ↔ i ∈ entry_id <$> es ∨ i ∈ id <$> nodes) ∧
  (added' = added ∧ es' = es ∨ added' = true).
Proof.
  revert es added. induction nodes as [|n nodes IH]; intros es added Hok; simpl.
  { intros [= <- <-]. split; [done|]. split; [|by left].
    intros i. rewrite elem_of_nil. tauto. }
  destruct (entries_contain es n) eqn:Hc; intros Hl.
  - apply IH in Hl as (Hok' & Hids & Hadd); [|done]. split; [done|]. split; [|done].
    intros i. rewrite Hids, elem_of_cons. apply entries_contain_true in Hc.
    split; [tauto|]. intros [?|[->|?]]; auto.
  - apply entries_contain_false in Hc.
    apply IH in Hl as (Hok' & Hids & Hadd).
    + split; [done|]. split; [|right; by destruct Hadd as [[-> _]|]].
      intros i. rewrite Hids, fmap_app, elem_of_app, elem_of_cons. simpl.
      rewrite list_elem_of_singleton. tauto.
    + destruct Hok as [Hd Hnd]. split.
      * apply Forall_app. split; [done|]. by repeat constructor.
      * rewrite fmap_app. apply NoDup_app. split; [done|]. split; [|apply NoDup_singleton].
        intros i Hi Hi'. simpl in Hi'. apply list_elem_of_singleton in Hi' as ->. done.
Qed.

Lemma entries_ok_incl pivot es es' :
  es' ⊆+ es → entries_ok pivot es → entries_ok pivot es'.
Proof.
  intros Hsub [Hd Hnd]. split.
  - rewrite Forall_forall in Hd |- *. intros e He. apply Hd.
    by eapply elem_of_submseteq.
  - by eapply NoDup_fmap_submseteq.
Qed.

Lemma heap_wf_new n k : wf (new n k).
Proof. repeat constructor; simpl; lia. Qed.

Lemma wf_iter h : wf h → iter h = entry_node <$> entries h.
Proof. intros []. unfold iter. by rewrite take_ge. Qed.

Lemma wf_get_ids h : wf h → get_ids h = entry_id <$> entries h.
Proof. intros H. unfold get_ids. by rewrite wf_iter, <-list_fmap_compose. Qed.

(** Ids of the shortlist and of a batch of nodes. *)
Definition known_ids (h : t) (nodes : list Node) : gset ident :=
  list_to_set (get_ids h) ∪ list_to_set (id <$> nodes).

Lemma wf_push h nodes : wf h → wf (push h nodes).
Proof.
  intros [Hok Hs Hsz]. unfold push.
  destruct (push_loop _ _ _ _) as [es added] eqn:Hl.
  apply push_loop_spec in Hl as (Hok' & _ & Hadd); [|done].
  destruct added; [|destruct Hadd as [[_ ->]|?]; [done|done]].
  pose proof (take_sort_top_k distance (maxsize h) es (entries_ok_keys _ _ Hok')) as [Hs' _ Hlen _].
  split; simpl; [|done|rewrite length_take; lia].
  eapply entries_ok_incl; [|done]. by rewrite submseteq_take, sort_by_key_perm.
Qed.

Lemma entries_top_k pivot k es r :
  entries_ok pivot es → r ⊆+ es → top_k distance k es r →
  top_k (id_distance pivot) k (entry_id <$> es) (entry_id <$> r).
Proof.
  intros Hok Hsub [Hs Hi Hlen Hc].
  assert (Hd : ∀ e, e ∈ es → distance e = id_distance pivot (entry_id e)).
  { intros e He. destruct Hok as [Hd _]. rewrite Forall_forall in Hd. rewrite (Hd e He).
    unfold distance_to, id_distance, entry_id. by rewrite (long_id_ok (entry_node e)). }
  split.
  - eapply StronglySorted_fmap_in; [|exact Hs]. intros a b Ha Hb. unfold key_lt.
    rewrite !Hd by auto. done.
  - intros i (e & -> & He)%list_elem_of_fmap. apply list_elem_of_fmap_2. auto.
  - by rewrite !length_fmap.
  - intros i j (e & -> & He)%list_elem_of_fmap Hn (e' & -> & He')%list_elem_of_fmap.
    rewrite <-!Hd by auto. apply Hc; [done| |done].
    intros Her. apply Hn. by apply list_elem_of_fmap_2.
Qed.

Lemma nodup_elements_of (l : list ident) (X : gset ident) :
  NoDup l → (∀ i, i ∈ l ↔ i ∈ X) → l ≡ₚ elements X.
Proof.
  intros Hnd Hl. apply NoDup_Permutation; [done|apply NoDup_elements|].
  intros i. by rewrite Hl, elem_of_elements.
Qed.

Lemma top_k_perm_l {A} (key : A → Z) k l l' r :
  l ≡ₚ l' → top_k key k l r → top_k key k l' r.
Proof.
  intros Hp [Hs Hi Hlen Hc]. split; [done| |by rewrite <-Hp|].
  - intros x Hx. rewrite <-Hp. by apply Hi.
  - intros x y Hx. rewrite <-Hp in Hx. by apply Hc.
Qed.

(** A shortlist that already satisfies the invariant is its own selection. *)
Lemma wf_top_k h :
  wf h → top_k (id_distance (node h)) (maxsize h) (get_ids h) (get_ids h).
Proof.
  intros Hwf. rewrite wf_get_ids by done. destruct Hwf as [Hok Hs Hsz].
  apply entries_top_k; [done|done|]. split; [done|done|lia|done].
Qed.

Lemma elem_of_known_ids h nodes i :
  i ∈ known_ids h nodes ↔ i ∈ get_ids h ∨ i ∈ id <$> nodes.
Proof. unfold known_ids. by rewrite elem_of_union, !elem_of_list_to_set. Qed.

Lemma push_keeps_closest_aux h nodes :
  wf h →
  top_k (id_distance (node h)) (maxsize h) (elements (known_ids h nodes)) (get_ids (push h nodes)).
Proof.
  intros Hwf. rewrite (wf_get_ids (push h nodes)) by (by apply wf_push).
  pose proof (wf_top_k h Hwf) as Hself. pose proof (wf_get_ids h Hwf) as Hids.
  destruct Hwf as [Hok Hs Hsz]. unfold push.
  destruct (push_loop _ _ _ _) as [es added] eqn:Hl.
  apply push_loop_spec in Hl as (Hok' & Hmem & Hadd); [|done].
  assert (Hp : entry_id <$> es ≡ₚ elements (known_ids h nodes)).
  { apply nodup_elements_of; [apply Hok'|]. intros i. rewrite Hmem, elem_of_known_ids. by rewrite Hids. }
  apply (top_k_perm_l _ _ _ _ _ Hp). simpl.
  destruct added.
  - apply entries_top_k; [done| |].
    + by rewrite submseteq_take, sort_by_key_perm.
    + apply take_sort_top_k. by eapply entries_ok_keys.
  - destruct Hadd as [[_ ->]|]; [|done]. by rewrite <-Hids at 1; rewrite <-Hids.
Qed.

Lemma wf_remove h peers : wf h → wf (remove h peers).
Proof.
  intros Hwf. unfold remove. destruct peers as [|p ps]; [done|]. destruct Hwf as [Hok Hs Hsz].
  pose proof (sublist_filter (λ e, entry_id e ∉@{gset ident} list_to_set (p :: ps)) (entries h)) as Hsub.
  split; cbn [node entries maxsize].
  - eapply entries_ok_incl; [|done]. by apply sublist_submseteq.
  - by eapply StronglySorted_sublist.
  - etrans; [|done]. apply submseteq_length. by apply sublist_submseteq.
Qed.

Lemma wf_popleft h : wf h → wf (popleft h).2.
Proof.
  intros Hwf. unfold popleft. destruct (entries h) as [|e es] eqn:E; [done|].
  destruct Hwf as [Hok Hs Hsz]. rewrite E in *. simpl in *.
  assert (es `sublist_of` e :: es) as Hsub by (by constructor).
  split; simpl; [|by eapply StronglySorted_sublist|lia].
  eapply entries_ok_incl; [|done]. by apply sublist_submseteq.
Qed.

Lemma wf_mark_contacted h n : wf h → wf (mark_contacted h n).
Proof. by intros []. Qed.

#[export] Hint Resolve heap_wf_new wf_push wf_remove wf_popleft wf_mark_contacted : kad.

(** ** Histories of a shortlist *)

(** The operations a lookup performs on its shortlist. *)
Inductive op :=
  | Push (nodes : list Node)
  | Remove (peers : list ident)
  | PopLeft
  | MarkContacted (n : Node).

Definition apply_op (h : t) (o : op) : t :=
  match o with
  | Push nodes => push h nodes
  | Remove peers => remove h peers
  | PopLeft => (popleft h).2
  | MarkContacted n => mark_contacted h n
  end.

Definition run (h : t) (ops : list op) : t := foldl apply_op h ops.

Lemma heap_wf_run h ops : wf h → wf (run h ops).
Proof.
  revert h. induction ops as [|o ops IH]; intros h Hwf; simpl; [done|].
  apply IH. destruct o; simpl; auto with kad.
Qed.

Lemma node_maxsize_push h nodes :
  node (push h nodes) = node h ∧ maxsize (push h nodes) = maxsize h.
Proof. unfold push. by destruct (push_loop _ _ _ _). Qed.

(** ** Theorems *)

(** The XOR distance between nodes is a metric on ids that fits 160 bits:
    it is bounded, symmetric, zero exactly between nodes of the same id,
    satisfies the triangle inequality, and two nodes at the same distance from
    a pivot have the same id (the order of a lookup is total). *)
Lemma xor_metric (p a b c : Node) :
  (0 ≤ distance_to a b < 2 ^ 160)%Z ∧
  distance_to a b = distance_to b a ∧
  (distance_to a b = 0%Z ↔ id a = id b) ∧
  (distance_to a c ≤ distance_to a b + distance_to b c)%Z ∧
  (distance_to p a = distance_to p b ↔ id a = id b).
Proof.
  split; [apply distance_to_range|]. split; [apply distance_to_sym|].
  split; [apply distance_to_zero|]. split; [apply distance_to_triangle|].
  split; [apply distance_to_inj|]. intros E. unfold distance_to. by rewrite !long_id_ok, E.
Qed.

(** Whatever a lookup pushes, removes, pops and marks, its shortlist is in
    strictly ascending distance of its pivot, holds no id twice, holds at most
    [maxsize] nodes, and stores the true distance of each. *)
Lemma heap_invariant (n : Node) (k : nat) (ops : list op) : wf (run (new n k) ops).
Proof. apply heap_wf_run, heap_wf_new. Qed.

(** After [push] the shortlist is exactly the [maxsize] ids closest to the
    pivot among those it held and those pushed, in ascending distance. *)
Lemma push_keeps_closest (h : t) (nodes : list Node) (Hwf : wf h) :
  top_k (id_distance (node h)) (maxsize h) (elements (known_ids h nodes)) (get_ids (push h nodes)).
Proof. by apply push_keeps_closest_aux. Qed.

(** Pushing two batches one after the other leaves the same shortlist of
    ids as pushing them together, although nodes beyond [maxsize] are forgotten
    in between: answers may be merged in any grouping. *)
Lemma push_batches (h : t) (xs ys : list Node) (Hwf : wf h) :
  get_ids (push (push h xs) ys) = get_ids (push h (xs ++ ys)).
Proof.
  pose proof (wf_push _ xs Hwf) as Hwf1.
  pose proof (push_keeps_closest_aux h xs Hwf) as H1.
  pose proof (push_keeps_closest_aux (push h xs) ys Hwf1) as H2.
  pose proof (push_keeps_closest_aux h (xs ++ ys) Hwf) as H3.
  destruct (node_maxsize_push h xs) as [En Em]. rewrite En, Em in H2.
  eapply top_k_unique; [reflexivity|reflexivity| |exact H3].
  apply (top_k_absorb (id_distance (node h)) (maxsize h) (elements (known_ids h xs))
    (elements (known_ids (push h xs) ys)) (id <$> ys) _ (get_ids (push h xs)));
    [|apply NoDup_elements| |apply NoDup_elements|exact H1|exact H2].
  - intros i. by rewrite elem_of_elements, elem_of_known_ids.
  - intros i. rewrite !elem_of_elements, !elem_of_known_ids, fmap_app, elem_of_app. tauto.
Qed.

(** [popleft] takes the node closest to the pivot, and only it: the ids
    left are the ids before without the first, and the node returned is
    strictly closer than every node left. *)
Lemma popleft_closest (h : t) (Hwf : wf h) :
  match popleft h with
  | (None, h') => get_ids h = [] ∧ h' = h
  | (Some n, h') =>
      get_ids h = id n :: get_ids h' ∧
      ∀ m, m ∈ to_vec h' → (distance_to (node h) n < distance_to (node h) m)%Z
  end.
Proof.
  pose proof (wf_popleft h Hwf) as Hwf'. pose proof (wf_get_ids h Hwf) as Hids.
  pose proof (wf_get_ids _ Hwf') as Hids'.
  assert (Hsame : iter (popleft h).2 = entry_node <$> entries (popleft h).2) by (by apply wf_iter).
  unfold popleft, to_vec in *. destruct (entries h) as [|e es] eqn:E; simpl in *.
  { by rewrite Hids. }
  rewrite Hids, Hids'. split; [done|].
  intros m. rewrite Hsame. intros (e' & -> & He')%list_elem_of_fmap.
  destruct Hwf as [[Hd _] Hs _]. rewrite E in Hd, Hs.
  apply Forall_cons in Hd as [Hd0 Hd]. rewrite Forall_forall in Hd.
  inversion_clear Hs as [|?? _ Hall]. rewrite Forall_forall in Hall.
  rewrite <-Hd0, <-Hd by done. by apply Hall.
Qed.

(** ** Concrete shortlists *)

(** A pivot, and a shortlist of two places that has met three nodes. *)
Definition example_pivot : Node := Node_from_id (ident_ends x00 x00).
Definition example_node (b : byte) : Node :=
  Node_new (ident_ends b x01) (Some "10.0.0.1"%string) (Some 4000%Z).
Definition example_heap : t :=
  push (new example_pivot 2) [example_node x40; example_node x10; example_node x80].

Lemma example_heap_wf : wf example_heap.
Proof. apply wf_push, heap_wf_new. Defined.

Example example_heap_ids : get_ids example_heap = [ident_ends x10 x01; ident_ends x40 x01].
Proof. reflexivity. Qed.

End NodeHeap.
