(* ===== verification/Routing.v ===== *)
(** * Routing table (src/src/routing.rs)

    k-buckets over the 160-bit key space, binary splitting, replacement lists,
    and the health of contacts that stop responding. Times are parameters of
    the operations: [now] in seconds for [last_updated], in nanoseconds for
    [Instant]. A random draw is a parameter too ([jit]). *)

From S2P Require Import Prelude Utils Node.

(** ** Constants, in nanoseconds *)

Definition SECOND : Z := 1000000000.

(** [STALE_AFTER_FAILURES]. *)
Definition STALE_AFTER_FAILURES : Z := 5.

(** [BACKOFF_BASE] and [BACKOFF_MAX]. *)
Definition BACKOFF_BASE : Z := 5 * SECOND.
Definition BACKOFF_MAX : Z := 300 * SECOND.

(** [DEFAULT_MIN_LOOKUP_CONTACTS]. *)
Definition DEFAULT_MIN_LOOKUP_CONTACTS : nat := 2.

(** [with_jitter]: [jit d] stands for [d.mul_f64(gen_range(0.0..0.25))]. *)
Definition with_jitter (jit : Z → Z) (delay : Z) : Z := (delay + jit delay)%Z.

(** [backoff]. The shift is at most 16 and the product is capped before it
    reaches the bounds of [Duration]. *)
Definition backoff (jit : Z → Z) (failures : Z) : Z :=
  let doublings := Z.min (Z.max 0 (failures - 1)) 16 in
  with_jitter jit (Z.min (BACKOFF_BASE * Z.shiftl 1 doublings) BACKOFF_MAX).

(** [ContactHealth]. *)
Record ContactHealth := mkHealth {
  failures : Z;
  first_failure : Z;
  retry_after : Z
}.

(** [full_keyspace]. *)
Definition full_keyspace : Z * Z := (0, Z.shiftl 1 160 - 1)%Z.

(** ** [KBucket] *)

Module KBucket.

Record t := mk {
  range : Z * Z;
  nodes : list Node;
  replacement_nodes : list Node;
  ksize : nat;
  max_replacement_nodes : nat;
  last_updated : Z
}.

(** [KBucket::new]. *)
Definition new (now : Z) (r : Z * Z) (k : nat) : t := mk r [] [] k (k * 5) now.

(** [KBucket::touch_last_updated]. *)
Definition touch_last_updated (now : Z) (b : t) : t :=
  mk (range b) (nodes b) (replacement_nodes b) (ksize b) (max_replacement_nodes b) now.

(** [iter().position(|n| n.id == node.id)]. *)
Definition position (n : Node) (l : list Node) : option nat :=
  fst <$> list_find (λ m, id m = id n) l.

(** [while replacement_nodes.len() > max { pop_front() }]. *)
Fixpoint pop_front_while (max : nat) (l : list Node) : list Node :=
  match l with
  | [] => []
  | _ :: l' => if max <? length l then pop_front_while max l' else l
  end.

Definition with_nodes (b : t) (ns rs : list Node) : t :=
  mk (range b) ns rs (ksize b) (max_replacement_nodes b) (last_updated b).

(** [KBucket::add_node]. *)
Definition add_node (b : t) (n : Node) : t * bool :=
  match position n (nodes b) with
  | Some pos => (with_nodes b (delete pos (nodes b) ++ [n]) (replacement_nodes b), true)
  | None =>
      if length (nodes b) <? ksize b then
        (with_nodes b (nodes b ++ [n]) (replacement_nodes b), true)
      else
        let rs := match position n (replacement_nodes b) with
                  | Some pos => delete pos (replacement_nodes b)
                  | None => replacement_nodes b
                  end in
        (with_nodes b (nodes b) (pop_front_while (max_replacement_nodes b) (rs ++ [n])), false)
  end.

(** [VecDeque::pop_back]. *)
Definition pop_back (l : list Node) : option (Node * list Node) :=
  match last l with
  | Some x => Some (x, take (length l - 1) l)
  | None => None
  end.

(** [KBucket::remove_node]. *)
Definition remove_node (b : t) (n : Node) : t :=
  let rs := filter (λ m, id m ≠ id n) (replacement_nodes b) in
  match position n (nodes b) with
  | Some pos =>
      let ns := delete pos (nodes b) in
      match pop_back rs with
      | Some (r, rs') => with_nodes b (ns ++ [r]) rs'
      | None => with_nodes b ns rs
      end
  | None => with_nodes b (nodes b) rs
  end.

(** [KBucket::contains]. *)
Definition contains (b : t) (n : Node) : bool :=
  existsb (λ m, bool_decide (id m = id n)) (nodes b).

(** The loop of [KBucket::split]. *)
Fixpoint distribute (mid : Z) (low high : t) (l : list Node) : t * t :=
  match l with
  | [] => (low, high)
  | n :: l' =>
      if (long_id n <=? mid)%Z then distribute mid (add_node low n).1 high l'
      else distribute mid low (add_node high n).1 l'
  end.

(** [KBucket::split]. *)
Definition split (now : Z) (b : t) : t * t :=
  let '(lo, hi) := range b in
  let mid := (lo + (hi - lo) `div` 2)%Z in
  distribute mid (new now (lo, mid) (ksize b)) (new now (mid + 1, hi)%Z (ksize b))
    (nodes b ++ replacement_nodes b).

(** [(byte >> shift) & 1] of the byte at [byte_idx]. *)
Definition id_bit (i : ident) (byte_idx shift : nat) : Z :=
  Z.land (Z.shiftr (byte_val (nth byte_idx (ident_bytes i) x00)) (Z.of_nat shift)) 1.

(** The positions the two outer loops of [KBucket::depth] visit, in order. *)
Definition bit_positions : list (nat * nat) :=
  flat_map (λ byte_idx, (λ shift, (byte_idx, shift)) <$> reverse (seq 0 8)) (seq 0 ID_LEN).

Fixpoint depth_loop (first : ident) (rest : list Node) (ps : list (nat * nat)) (prefix_len : nat)
    : nat :=
  match ps with
  | [] => prefix_len
  | (byte_idx, shift) :: ps' =>
      if existsb (λ n, negb (id_bit (id n) byte_idx shift =? id_bit first byte_idx shift)%Z) rest
      then prefix_len
      else depth_loop first rest ps' (S prefix_len)
  end.

(** [KBucket::depth]. *)
Definition depth (b : t) : nat :=
  match nodes b with
  | [] => 0
  | [n] => length (ident_bytes (id n)) * 8
  | first :: rest => depth_loop (id first) rest bit_positions 0
  end.

(** [KBucket::is_lonely]: [saturating_sub] on [u64]. *)
Definition is_lonely (now : Z) (b : t) : bool := (3600 <? Z.max 0 (now - last_updated b))%Z.

(** [KBucket::head], [len], [has_replacement], [is_empty], [covers]. *)
Definition head (b : t) : option Node := hd_error (nodes b).
Definition len (b : t) : nat := length (nodes b).
Definition has_replacement (b : t) : bool :=
  match replacement_nodes b with [] => false | _ => true end.
Definition is_empty (b : t) : bool := match nodes b with [] => true | _ => false end.
Definition covers (b : t) (x : Z) : bool :=
  ((range b).1 <=? x)%Z && (x <=? (range b).2)%Z.

End KBucket.

(** ** [RoutingTable] *)

Module RoutingTable.

Record t := mk {
  node : Node;
  ksize : nat;
  buckets : list KBucket.t;
  health : gmap ident ContactHealth;
  min_lookup_contacts : nat
}.

Definition with_buckets (rt : t) (bs : list KBucket.t) : t :=
  mk (node rt) (ksize rt) bs (health rt) (min_lookup_contacts rt).

Definition with_health (rt : t) (h : gmap ident ContactHealth) : t :=
  mk (node rt) (ksize rt) (buckets rt) h (min_lookup_contacts rt).

(** [RoutingTable::new]. *)
Definition new (now : Z) (n : Node) (k : nat) : t :=
  mk n k [KBucket.new now full_keyspace k] ∅ DEFAULT_MIN_LOOKUP_CONTACTS.

(** [RoutingTable::set_min_lookup_contacts]. *)
Definition set_min_lookup_contacts (rt : t) (count : nat) : t :=
  mk (node rt) (ksize rt) (buckets rt) (health rt) count.

(** [RoutingTable::bucket_index_for]. *)
Definition bucket_index_for (rt : t) (x : Z) : nat :=
  match list_find (λ b, KBucket.covers b x = true) (buckets rt) with
  | Some (i, _) => i
  | None => length (buckets rt) - 1
  end.

(** [RoutingTable::has_failures]. *)
Definition has_failures (rt : t) (i : ident) : bool := bool_decide (is_Some (health rt !! i)).

(** [RoutingTable::is_stale]. *)
Definition is_stale (rt : t) (i : ident) : bool :=
  match health rt !! i with
  | Some h => (STALE_AFTER_FAILURES <=? failures h)%Z
  | None => false
  end.

(** [self.buckets[idx]] read, then replaced by [f] of it. [bucket_index_for]
    only yields indices of the vector ([bucket_index_lt]). *)
Definition update_bucket (rt : t) (idx : nat) (f : KBucket.t → KBucket.t) : t :=
  with_buckets rt (alter f idx (buckets rt)).

(** [RoutingTable::remove_contact]. *)
Definition remove_contact (rt : t) (n : Node) : t :=
  let idx := bucket_index_for rt (long_id n) in
  let rt' := update_bucket rt idx (λ b, KBucket.remove_node b n) in
  with_health rt' (delete (id n) (health rt')).

(** [RoutingTable::replace_stale_if_full]. *)
Definition replace_stale_if_full (rt : t) (idx : nat) (n : Node) : t :=
  match buckets rt !! idx with
  | None => rt
  | Some b =>
      if (KBucket.len b <? ksize rt) || KBucket.contains b n then rt
      else
        match List.find (λ m, is_stale rt (id m)) (KBucket.nodes b) with
        | Some stale => remove_contact rt stale
        | None => rt
        end
  end.

(** [RoutingTable::split_bucket]: [remove(idx)], then [insert(idx, high)] and
    [insert(idx, low)]. *)
Definition split_bucket (now : Z) (rt : t) (idx : nat) : t :=
  match buckets rt !! idx with
  | None => rt
  | Some b =>
      let '(low, high) := KBucket.split now b in
      with_buckets rt (take idx (buckets rt) ++ low :: high :: drop (S idx) (buckets rt))
  end.

(** [RoutingTable::insert]. The recursion is on the table after a split, so it
    carries fuel; [None] means that the fuel ran out, which
    [insert_terminates] excludes for [INSERT_FUEL]. *)
Fixpoint insert (fuel : nat) (now : Z) (rt : t) (n : Node) : option (t * option Node) :=
  match fuel with
  | O => None
  | S fuel' =>
      let idx := bucket_index_for rt (long_id n) in
      let rt1 := replace_stale_if_full rt idx n in
      b ← buckets rt1 !! idx;
      let '(b', added) := KBucket.add_node b n in
      let rt2 := with_buckets rt1 (<[idx := b']> (buckets rt1)) in
      if added then Some (rt2, None)
      else if KBucket.covers b' (long_id (node rt2)) || negb (KBucket.depth b' mod 5 =? 0)
      then insert fuel' now (split_bucket now rt2 idx) n
      else Some (rt2, KBucket.head b')
  end.

(** One level of recursion per halving of the 160-bit key space, and one. *)
Definition INSERT_FUEL : nat := 161.

(** [RoutingTable::add_contact]. *)
Definition add_contact (now : Z) (rt : t) (n : Node) : option (t * option Node) :=
  if bool_decide (id n = id (node rt)) then Some (rt, None)
  else insert INSERT_FUEL now rt n.

(** The [match self.health.get_mut(..)] of [record_failure_at]: [None] inside the
    backoff window, where nothing is counted. *)
Definition count_failure (jit : Z → Z) (health : option ContactHealth) (now : Z)
    : option ContactHealth :=
  match health with
  | Some h =>
      if (now <? retry_after h)%Z then None
      else Some (mkHealth (failures h + 1) (first_failure h) (now + backoff jit (failures h + 1)))
  | None => Some (mkHealth 1 now (now + backoff jit 1))
  end.

(** [RoutingTable::record_failure_at]; [record_failure] passes the current
    instant. [failures] is a [u32] that grows at most once per backoff window
    of 5 s or more. *)
Definition record_failure_at (jit : Z → Z) (rt : t) (n : Node) (now : Z) : t :=
  let idx := bucket_index_for rt (long_id n) in
  match buckets rt !! idx with
  | None => rt
  | Some b =>
      if negb (KBucket.contains b n) then update_bucket rt idx (λ b, KBucket.remove_node b n)
      else
        match count_failure jit (health rt !! id n) now with
        | None => rt
        | Some h =>
            let rt' := with_health rt (<[id n := h]> (health rt)) in
            if (STALE_AFTER_FAILURES <=? failures h)%Z && KBucket.has_replacement b
            then remove_contact rt' n else rt'
        end
  end.

(** [RoutingTable::record_success]. *)
Definition record_success (rt : t) (i : ident) (now : Z) : t * option Z :=
  (with_health rt (delete i (health rt)),
   (λ h, Z.max 0 (now - first_failure h)) <$> health rt !! i).

(** [buckets.iter().flat_map(|bucket| bucket.nodes().iter())]. *)
Definition primaries (rt : t) : list Node := flat_map KBucket.nodes (buckets rt).

(** [RoutingTable::contacts_due_for_probe]. *)
Definition contacts_due_for_probe (rt : t) (limit : nat) (now : Z) : list Node :=
  let due := omap (λ n, h ← health rt !! id n;
                        if (retry_after h <=? now)%Z then Some (retry_after h, n) else None)
                  (primaries rt) in
  snd <$> take limit (sort_by_key fst due).

(** [RoutingTable::live_contacts] and [has_contacts]. *)
Definition live_contacts (rt : t) : nat :=
  length (filter (λ n, has_failures rt (id n) = false) (primaries rt)).

Definition has_contacts (rt : t) : bool :=
  existsb (λ b, negb (KBucket.is_empty b)) (buckets rt).

(** [RoutingTable::is_new_node]. *)
Definition is_new_node (rt : t) (n : Node) : bool :=
  match buckets rt !! bucket_index_for rt (long_id n) with
  | Some b => negb (KBucket.contains b n)
  | None => true
  end.

(** [RoutingTable::get_contact]. *)
Definition get_contact (rt : t) (i : ident) : option Node :=
  List.find (λ n, bool_decide (id n = i))
    (flat_map (λ b, KBucket.nodes b ++ KBucket.replacement_nodes b) (buckets rt)).

(** The filter of [RoutingTable::closest]. *)
Definition eligible (target : Node) (exclude : option Node) (keep : Node → bool) (n : Node) : bool :=
  negb (bool_decide (id n = id target)) &&
  match exclude with Some e => negb (bool_decide (id n = id e)) | None => true end &&
  keep n.

(** [RoutingTable::closest]: the contacts, and the table with the bucket of
    the target touched. *)
Definition closest (now : Z) (rt : t) (target : Node) (exclude : option Node)
    (keep : Node → bool) : list Node * t :=
  let rt' := update_bucket rt (bucket_index_for rt (long_id target))
               (KBucket.touch_last_updated now) in
  let ns := (λ n, (distance_to n target, n)) <$>
              filter (λ n, eligible target exclude keep n = true) (primaries rt') in
  (snd <$> take (ksize rt') (sort_by_key fst ns), rt').

(** [RoutingTable::find_neighbors]. *)
Definition find_neighbors (now : Z) (rt : t) (target : Node) (exclude : option Node)
    : list Node * t :=
  let '(healthy, rt1) := closest now rt target exclude (λ n, negb (has_failures rt (id n))) in
  if min_lookup_contacts rt1 <=? length healthy then (healthy, rt1)
  else
    let '(not_stale, rt2) := closest now rt1 target exclude (λ n, negb (is_stale rt1 (id n))) in
    match not_stale with
    | [] => closest now rt2 target exclude (λ _, true)
    | _ => (not_stale, rt2)
    end.

(** [RoutingTable::find_neighbors_to_advertise]. *)
Definition find_neighbors_to_advertise (now : Z) (rt : t) (target : Node) (exclude : option Node)
    : list Node * t :=
  closest now rt target exclude (λ n, negb (is_stale rt (id n))).

(** [RoutingTable::lonely_buckets]. *)
Definition lonely_buckets (now : Z) (rt : t) : list KBucket.t :=
  filter (λ b, KBucket.is_lonely now b = true) (buckets rt).

End RoutingTable.
