(* ===== verification/BucketProps.v ===== *)
(** * Invariant of a k-bucket (src/src/routing.rs, [KBucket])

    Size bounds, distinct ids over the primary and the replacement list, ids
    within the range, and the rule that a replacement list is only used by a
    full bucket; every operation keeps them, and splitting a bucket keeps every
    primary contact primary. *)

From S2P Require Import Prelude Utils Node Routing.

Import KBucket.

Definition ids (l : list Node) : list ident := id <$> l.

Definition in_range (r : Z * Z) (n : Node) : Prop := (r.1 ≤ long_id n ≤ r.2)%Z.

Record bucket_wf (k : nat) (b : t) : Prop := {
  bw_ksize : ksize b = k;
  bw_max : max_replacement_nodes b = k * 5;
  bw_len : length (nodes b) ≤ k;
  bw_rep_len : length (replacement_nodes b) ≤ k * 5;
  bw_full : replacement_nodes b ≠ [] → length (nodes b) = k;
  bw_nodup : NoDup (ids (nodes b ++ replacement_nodes b));
  bw_in_range : Forall (in_range (range b)) (nodes b ++ replacement_nodes b)
}.

(** ** Positions and membership by id *)

Lemma elem_of_ids n l : n ∈ l → id n ∈ ids l.
Proof. apply list_elem_of_fmap_2. Qed.

Lemma position_Some n l pos :
  position n l = Some pos → ∃ m, l !! pos = Some m ∧ id m = id n.
Proof.
  unfold position. destruct (list_find _ l) as [[i m]|] eqn:Hf; simpl; [|done].
  intros [= <-]. apply list_find_Some in Hf as (Hm & E & _). eauto.
Qed.

Lemma position_None n l : position n l = None ↔ id n ∉ ids l.
Proof.
  unfold position. rewrite fmap_None, list_find_None, Forall_forall.
  unfold ids. rewrite list_elem_of_fmap. split.
  - intros H (m & E & Hm). by apply (H m Hm).
  - intros H m Hm E. apply H. eauto.
Qed.

Lemma contains_true b n : contains b n = true ↔ id n ∈ ids (nodes b).
Proof.
  unfold contains, ids. rewrite existsb_exists, list_elem_of_fmap. split.
  - intros (m & Hm & E%bool_decide_eq_true). exists m. by rewrite list_elem_of_In.
  - intros (m & E & Hm). exists m. rewrite <-list_elem_of_In. split; [done|].
    by apply bool_decide_eq_true.
Qed.

Lemma contains_false b n : contains b n = false ↔ id n ∉ ids (nodes b).
Proof. rewrite <-contains_true. by destruct (contains b n). Qed.

(** Moving the element at a position to the back keeps the ids. *)
Lemma delete_position_perm n l pos :
  position n l = Some pos → ids l ≡ₚ ids (delete pos l) ++ [id n].
Proof.
  intros (m & Hm & E)%position_Some. unfold ids.
  rewrite (delete_Permutation l pos m) at 1 by done. simpl.
  by rewrite E, Permutation_app_comm.
Qed.

Lemma length_delete_position n l pos :
  position n l = Some pos → S (length (delete pos l)) = length l.
Proof.
  intros (m & Hm & E)%position_Some.
  apply delete_Permutation, Permutation_length in Hm. done.
Qed.

Lemma pop_front_while_suffix max l : ∃ k, l = k ++ pop_front_while max l.
Proof.
  induction l as [|x l IH]; simpl; [by exists []|].
  case_match; [|by exists []]. destruct IH as [k IH]. exists (x :: k). simpl. by rewrite <-IH.
Qed.

Lemma pop_front_while_length max l :
  length (pop_front_while max l) = max `min` length l.
Proof.
  induction l as [|x l IH]; [simpl; lia|].
  cbn [pop_front_while]. case_match; bool_facts; simpl in *; lia.
Qed.

Lemma pop_front_while_sublist max l : pop_front_while max l `sublist_of` l.
Proof.
  destruct (pop_front_while_suffix max l) as [k E]. rewrite E at 2.
  by apply sublist_inserts_l.
Qed.

Lemma pop_back_Some l x l' : pop_back l = Some (x, l') ↔ l = l' ++ [x].
Proof.
  unfold pop_back. split.
  - destruct (last l) as [y|] eqn:E; [|done]. intros [= -> <-].
    apply last_Some in E as [l0 ->]. rewrite length_app. simpl.
    by rewrite Nat.add_sub, take_app_length.
  - intros ->. rewrite last_snoc, length_app. simpl.
    by rewrite Nat.add_sub, take_app_length.
Qed.

Lemma pop_back_None l : pop_back l = None ↔ l = [].
Proof. unfold pop_back. destruct (last l) eqn:E; [|by rewrite last_None in E].
  split; [done|]. intros ->. done. Qed.

(** ** Building well-formed buckets *)

Lemma bucket_wf_with_nodes k b ns rs :
  bucket_wf k b → length ns ≤ k → length rs ≤ k * 5 → (rs ≠ [] → length ns = k) →
  NoDup (ids (ns ++ rs)) → Forall (in_range (range b)) (ns ++ rs) →
  bucket_wf k (with_nodes b ns rs).
Proof. by intros []; split. Qed.

Lemma bucket_wf_new k now r : bucket_wf k (new now r k).
Proof. split; simpl; try done; try lia. constructor. Qed.

Lemma bucket_wf_touch k now b : bucket_wf k b → bucket_wf k (touch_last_updated now b).
Proof. by intros []. Qed.

Lemma nodup_submseteq_ids l l' : ids l ⊆+ ids l' → NoDup (ids l') → NoDup (ids l).
Proof.
  intros (m & Hp)%submseteq_Permutation. rewrite Hp. by intros [? _]%NoDup_app.
Qed.

Lemma Forall_submseteq {A} (P : A → Prop) l l' : l ⊆+ l' → Forall P l' → Forall P l.
Proof.
  intros Hs. rewrite !Forall_forall. intros H x Hx. apply H. by eapply elem_of_submseteq.
Qed.

Section add_node.
Context (k : nat) (b : t) (n : Node).
Context (Hwf : bucket_wf k b) (Hin : in_range (range b) n).

Lemma add_node_range : range (add_node b n).1 = range b.
Proof. unfold add_node. by repeat case_match. Qed.

Lemma add_node_known pos :
  position n (nodes b) = Some pos → bucket_wf k (add_node b n).1.
Proof.
  intros Hp. unfold add_node. rewrite Hp. cbn [fst].
  pose proof (delete_position_perm _ _ _ Hp) as Hperm.
  pose proof (length_delete_position _ _ _ Hp) as Hlen.
  destruct Hwf. apply bucket_wf_with_nodes; [done|..].
  - rewrite length_app. simpl. lia.
  - done.
  - intros Hr. rewrite length_app. simpl. specialize (bw_full0 Hr). lia.
  - unfold ids in *. rewrite !fmap_app in *. simpl. by rewrite <-Hperm.
  - rewrite !Forall_app in *. destruct bw_in_range0 as [Hns Hrs]. split; [|done].
    split; [|by apply Forall_singleton]. eapply Forall_submseteq; [|exact Hns].
    apply submseteq_delete.
Qed.

Lemma add_node_room :
  position n (nodes b) = None → length (nodes b) < k → bucket_wf k (add_node b n).1.
Proof.
  intros Hp Hl. unfold add_node. rewrite Hp. destruct Hwf.
  assert ((length (nodes b) <? ksize b) = true) as -> by (apply Nat.ltb_lt; lia).
  apply position_None in Hp.
  assert (replacement_nodes b = []) as Hr.
  { destruct (replacement_nodes b); [done|]. specialize (bw_full0 ltac:(done)). lia. }
  cbn [fst]. apply bucket_wf_with_nodes; [done|..]; rewrite ?Hr in *; rewrite ?app_nil_r in *.
  - rewrite length_app. simpl. lia.
  - simpl. lia.
  - done.
  - unfold ids in *. rewrite fmap_app, NoDup_app. split; [done|]. split; [|apply NoDup_singleton].
    intros i Hi Hi'. simpl in Hi'. apply list_elem_of_singleton in Hi' as ->. done.
  - apply Forall_app. split; [done|]. by apply Forall_singleton.
Qed.
End add_node.

Section add_node_full.
Context (k : nat) (b : t) (n : Node).
Context (Hwf : bucket_wf k b) (Hin : in_range (range b) n).
Context (Hp : position n (nodes b) = None) (Hl : length (nodes b) = k).

(** The replacement list before trimming: [n] at the back, once. *)
Definition refreshed : list Node :=
  match position n (replacement_nodes b) with
  | Some pos => delete pos (replacement_nodes b)
  | None => replacement_nodes b
  end ++ [n].

Lemma add_node_full_eq :
  add_node b n = (with_nodes b (nodes b) (pop_front_while (k * 5) refreshed), false).
Proof.
  unfold add_node. rewrite Hp. destruct Hwf as [-> ->].
  assert ((length (nodes b) <? k) = false) as -> by (apply Nat.ltb_ge; lia).
  done.
Qed.

Lemma refreshed_nodup : NoDup (ids (nodes b ++ refreshed)).
Proof.
  pose proof (bw_nodup _ _ Hwf) as Hnd. apply position_None in Hp.
  unfold ids in *. rewrite fmap_app in *. apply NoDup_app in Hnd as (Hn & Hx & Hr).
  rewrite NoDup_app. unfold refreshed. rewrite fmap_app. simpl.
  split; [done|]. destruct (position n (replacement_nodes b)) as [pos|] eqn:E.
  - pose proof (delete_position_perm _ _ _ E) as Hperm. unfold ids in Hperm.
    split; [|by rewrite <-Hperm]. intros i Hi. rewrite <-Hperm. by apply Hx.
  - apply position_None in E. split.
    + intros i Hi [Hi'|Hi']%elem_of_app; [by apply (Hx i)|].
      apply list_elem_of_singleton in Hi' as ->. done.
    + apply NoDup_app. split; [done|]. split; [|apply NoDup_singleton].
      intros i Hi Hi'. apply list_elem_of_singleton in Hi' as ->. done.
Qed.

Lemma refreshed_in_range : Forall (in_range (range b)) refreshed.
Proof.
  pose proof (bw_in_range _ _ Hwf) as [_ Hr]%Forall_app. unfold refreshed.
  apply Forall_app. split; [|by apply Forall_singleton].
  case_match; [|done]. eapply Forall_submseteq; [|done]. apply submseteq_delete.
Qed.

Lemma add_node_full : bucket_wf k (add_node b n).1.
Proof.
  rewrite add_node_full_eq. cbn [fst].
  pose proof (pop_front_while_sublist (k * 5) refreshed) as Hsub%sublist_submseteq.
  pose proof (bw_in_range _ _ Hwf) as [Hr _]%Forall_app.
  apply bucket_wf_with_nodes; [done|lia|rewrite pop_front_while_length; lia|done|..].
  - eapply nodup_submseteq_ids; [|apply refreshed_nodup]. unfold ids.
    apply fmap_submseteq. by apply submseteq_skips_l.
  - apply Forall_app. split; [done|].
    eapply Forall_submseteq; [done|]. apply refreshed_in_range.
Qed.
End add_node_full.

Lemma bucket_wf_add_node k b n :
  bucket_wf k b → in_range (range b) n → bucket_wf k (add_node b n).1.
Proof.
  intros Hwf Hin. destruct (position n (nodes b)) as [pos|] eqn:Hp.
  - by eapply add_node_known.
  - pose proof (bw_len _ _ Hwf). destruct (decide (length (nodes b) = k)).
    + by apply add_node_full.
    + apply add_node_room; [done..|lia].
Qed.

(** What [add_node] does, case by case. *)
Lemma add_node_spec k b n b' added :
  bucket_wf k b → add_node b n = (b', added) →
  range b' = range b ∧
  if added then
    id n ∈ ids (nodes b') ∧ last (nodes b') = Some n ∧
    (∀ i, i ∈ ids (nodes b') ↔ i = id n ∨ i ∈ ids (nodes b))
  else
    nodes b' = nodes b ∧ id n ∉ ids (nodes b) ∧ length (nodes b) = k ∧
    (0 < k → last (replacement_nodes b') = Some n).
Proof.
  intros Hwf Ha. destruct (position n (nodes b)) as [pos|] eqn:Hp.
  { unfold add_node in Ha. rewrite Hp in Ha. simplify_eq/=.
    pose proof (delete_position_perm _ _ _ Hp) as Hperm. unfold ids in *.
    split; [done|]. rewrite fmap_app. simpl. split; [set_solver|].
    split; [by rewrite last_snoc|]. intros i. rewrite Hperm. set_solver. }
  pose proof (bw_len _ _ Hwf). destruct (decide (length (nodes b) = k)) as [Hk|Hk].
  - rewrite (add_node_full_eq k) in Ha by done. simplify_eq/=. split; [done|].
    apply position_None in Hp. split; [done|]. split; [done|]. split; [done|]. intros H0.
    destruct (pop_front_while_suffix (length (nodes b) * 5) (refreshed b n)) as [pre E].
    pose proof (pop_front_while_length (length (nodes b) * 5) (refreshed b n)) as Hlen.
    assert (last (refreshed b n) = Some n) as Hlast by (unfold refreshed; apply last_snoc).
    destruct (pop_front_while _ _) as [|x l] eqn:Ep.
    + assert (0 < length (refreshed b n)) by (unfold refreshed; rewrite length_app; simpl; lia).
      simpl in Hlen. lia.
    + rewrite E, last_app in Hlast. destruct (last (x :: l)) eqn:El; [done|].
      by apply last_None in El.
  - unfold add_node in Ha. rewrite Hp in Ha. destruct Hwf.
    assert ((length (nodes b) <? ksize b) = true) as E by (apply Nat.ltb_lt; lia).
    rewrite E in Ha. simplify_eq/=. split; [done|]. unfold ids. rewrite fmap_app. simpl.
    split; [set_solver|]. split; [by rewrite last_snoc|]. set_solver.
Qed.

(** ** The ids a bucket knows, primary or replacement *)

Definition all_ids (b : t) : list ident := ids (nodes b ++ replacement_nodes b).

Lemma elem_of_all_ids b i :
  i ∈ all_ids b ↔ i ∈ ids (nodes b) ∨ i ∈ ids (replacement_nodes b).
Proof. unfold all_ids, ids. by rewrite fmap_app, elem_of_app. Qed.

Lemma add_node_all_ids b n i : i ∈ all_ids (add_node b n).1 → i = id n ∨ i ∈ all_ids b.
Proof.
  rewrite !elem_of_all_ids. unfold add_node.
  destruct (position n (nodes b)) as [pos|] eqn:Hp.
  { pose proof (delete_position_perm _ _ _ Hp) as Hperm. cbn [fst with_nodes nodes replacement_nodes].
    unfold ids in *. rewrite fmap_app. simpl. rewrite <-Hperm. tauto. }
  case_match; cbn [fst with_nodes nodes replacement_nodes]; unfold ids; rewrite ?fmap_app; simpl.
  { rewrite elem_of_app, list_elem_of_singleton. tauto. }
  intros [Hi|(m & -> & Hm)%list_elem_of_fmap]; [tauto|].
  eapply elem_of_submseteq in Hm; [|apply sublist_submseteq, pop_front_while_sublist].
  apply elem_of_app in Hm as [Hm|Hm%list_elem_of_singleton]; [|naive_solver].
  right; right. apply list_elem_of_fmap_2. case_match; [|done].
  eapply elem_of_submseteq; [exact Hm|]. apply submseteq_delete.
Qed.

Lemma add_node_keeps_primaries k b n i :
  bucket_wf k b → i ∈ ids (nodes b) → i ∈ ids (nodes (add_node b n).1).
Proof.
  intros Hwf Hi. destruct (add_node b n) as [b' added] eqn:E.
  apply (add_node_spec k) in E as (_ & E); [|done]. destruct added; cbn [fst].
  - destruct E as (_ & _ & E). apply E. by right.
  - destruct E as (-> & _). done.
Qed.

Lemma add_node_primary k b n :
  bucket_wf k b → length (nodes b) < k → id n ∈ ids (nodes (add_node b n).1).
Proof.
  intros Hwf Hl. destruct (add_node b n) as [b' added] eqn:E.
  apply (add_node_spec k) in E as (_ & E); [|done]. destruct added; [by destruct E|].
  destruct E as (_ & _ & ? & _). lia.
Qed.

Lemma add_node_length k b n :
  bucket_wf k b → length (nodes (add_node b n).1) ≤ S (length (nodes b)).
Proof.
  intros Hwf. unfold add_node. destruct (position n (nodes b)) as [pos|] eqn:Hp; simpl.
  { pose proof (length_delete_position _ _ _ Hp). rewrite length_app. simpl. lia. }
  case_match; simpl; rewrite ?length_app; simpl; lia.
Qed.

(** ** [remove_node] *)

Record removed (n : Node) (b b' : t) : Prop := {
  rm_range : range b' = range b;
  rm_all : ∀ i, i ∈ all_ids b' ↔ i ∈ all_ids b ∧ i ≠ id n;
  rm_gone : id n ∉ ids (nodes b');
  rm_keep : ∀ i, i ∈ ids (nodes b) → i ≠ id n → i ∈ ids (nodes b')
}.

Lemma filter_ids n l i :
  i ∈ ids (filter (λ m, id m ≠ id n) l) ↔ i ∈ ids l ∧ i ≠ id n.
Proof.
  unfold ids. rewrite !list_elem_of_fmap. split.
  - intros (m & -> & [? ?]%list_elem_of_filter). eauto.
  - intros [(m & -> & ?) ?]. exists m. split; [done|]. by apply list_elem_of_filter.
Qed.

Lemma delete_position_ids n l pos i :
  NoDup (ids l) → position n l = Some pos →
  i ∈ ids (delete pos l) ↔ i ∈ ids l ∧ i ≠ id n.
Proof.
  intros Hnd Hp. pose proof (delete_position_perm _ _ _ Hp) as Hperm.
  rewrite Hperm in Hnd |- *. rewrite elem_of_app, list_elem_of_singleton.
  apply NoDup_app in Hnd as (_ & Hx & _). split; [|tauto].
  intros Hi. split; [by left|]. intros ->. apply (Hx (id n)); [done|].
  by apply list_elem_of_singleton.
Qed.

Section remove_node.
Context (k : nat) (b : t) (n : Node) (Hwf : bucket_wf k b).

Let rs := filter (λ m, id m ≠ id n) (replacement_nodes b).

Lemma rs_sub : rs ⊆+ replacement_nodes b.
Proof. apply sublist_submseteq, sublist_filter. Qed.

Lemma nodes_nodup : NoDup (ids (nodes b)).
Proof.
  pose proof (bw_nodup _ _ Hwf) as H. unfold ids in *. rewrite fmap_app in H.
  by apply NoDup_app in H as [? _].
Qed.

Lemma all_sub ns :
  ns ⊆+ nodes b → NoDup (ids (ns ++ rs)) ∧ Forall (in_range (range b)) (ns ++ rs).
Proof.
  intros Hns. assert (ns ++ rs ⊆+ nodes b ++ replacement_nodes b) as Hs
    by (apply submseteq_app; [done|apply rs_sub]).
  split; [eapply nodup_submseteq_ids; [by apply fmap_submseteq|apply (bw_nodup _ _ Hwf)]|].
  eapply Forall_submseteq; [done|apply (bw_in_range _ _ Hwf)].
Qed.

Lemma rs_length : length rs ≤ k * 5.
Proof.
  pose proof (submseteq_length _ _ rs_sub). pose proof (bw_rep_len _ _ Hwf). lia.
Qed.

Lemma rs_full : rs ≠ [] → length (nodes b) = k.
Proof.
  intros Hne. apply (bw_full _ _ Hwf). intros E. pose proof rs_sub as H. rewrite E in H.
  by apply submseteq_nil_r in H.
Qed.

Lemma remove_node_absent :
  id n ∉ ids (nodes b) →
  bucket_wf k (with_nodes b (nodes b) rs) ∧ removed n b (with_nodes b (nodes b) rs).
Proof.
  intros Hp. destruct (all_sub (nodes b)) as [Hnd Hir]; [done|]. split.
  - apply bucket_wf_with_nodes; auto using rs_length, rs_full. apply (bw_len _ _ Hwf).
  - split; cbn [with_nodes nodes range]; [done| |done|done].
    intros i. rewrite !elem_of_all_ids. cbn [with_nodes nodes replacement_nodes].
    unfold rs. rewrite filter_ids. split; [|tauto].
    intros [?|?]; [|tauto]. split; [tauto|]. by intros ->.
Qed.

Context (pos : nat) (Hp : position n (nodes b) = Some pos).

Lemma deleted_ids i : i ∈ ids (delete pos (nodes b)) ↔ i ∈ ids (nodes b) ∧ i ≠ id n.
Proof. apply delete_position_ids; [apply nodes_nodup|done]. Qed.

(** Membership facts of a bucket whose primary list is the old one without
    [n] followed by [promoted], and whose replacements are [rest]. *)
Lemma removed_by promoted rest :
  promoted ++ rest ≡ₚ rs →
  removed n b (with_nodes b (delete pos (nodes b) ++ promoted) rest).
Proof.
  intros Hperm.
  assert (Hr : ∀ i, i ∈ ids promoted ∨ i ∈ ids rest ↔ i ∈ ids (replacement_nodes b) ∧ i ≠ id n).
  { intros i. rewrite <-(filter_ids n). fold rs. unfold ids. rewrite <-Hperm, fmap_app.
    by rewrite elem_of_app. }
  split; cbn [with_nodes nodes range]; [done|intros i|specialize (Hr (id n))|intros i Hi Hne].
  - rewrite !elem_of_all_ids. cbn [with_nodes nodes replacement_nodes]. specialize (Hr i).
    pose proof (deleted_ids i). unfold ids in *. rewrite fmap_app, elem_of_app. tauto.
  - pose proof (deleted_ids (id n)). unfold ids in *. rewrite fmap_app, elem_of_app. tauto.
  - pose proof (deleted_ids i). unfold ids in *. rewrite fmap_app, elem_of_app. tauto.
Qed.

Lemma wf_removed_by promoted rest :
  promoted ++ rest ≡ₚ rs → length promoted ≤ 1 → (rest ≠ [] → promoted ≠ []) →
  bucket_wf k (with_nodes b (delete pos (nodes b) ++ promoted) rest).
Proof.
  intros Hperm Hone Hne. pose proof (length_delete_position _ _ _ Hp) as Hdl.
  pose proof (bw_len _ _ Hwf). pose proof rs_length as Hrl.
  rewrite <-Hperm, length_app in Hrl.
  destruct (all_sub (delete pos (nodes b)) ltac:(apply submseteq_delete)) as [Hnd Hir].
  assert (Hcomb : (delete pos (nodes b) ++ promoted) ++ rest ≡ₚ delete pos (nodes b) ++ rs)
    by (by rewrite <-app_assoc, Hperm).
  apply bucket_wf_with_nodes; [done|rewrite length_app; lia|lia| | |].
  - intros Hr. specialize (Hne Hr). rewrite length_app.
    assert (length (nodes b) = k) as Hk.
    { apply rs_full. intros E. rewrite E in Hperm. apply Permutation_nil_r in Hperm.
      apply app_nil in Hperm as [? ?]. done. }
    destruct promoted as [|? [|]]; simpl in *; try done; lia.
  - unfold ids in *. by rewrite Hcomb.
  - by rewrite Hcomb.
Qed.
End remove_node.

Lemma remove_node_spec k b n :
  bucket_wf k b → bucket_wf k (remove_node b n) ∧ removed n b (remove_node b n).
Proof.
  intros Hwf. unfold remove_node. destruct (position n (nodes b)) as [pos|] eqn:Hp.
  2: { apply position_None in Hp. by apply remove_node_absent. }
  destruct (pop_back _) as [[r rs']|] eqn:Hpop.
  - apply pop_back_Some in Hpop.
    assert ([r] ++ rs' ≡ₚ filter (λ m, id m ≠ id n) (replacement_nodes b)) as Hperm
      by (by rewrite Hpop, (Permutation_app_comm [r])).
    split; [by apply (wf_removed_by k b n)|by apply (removed_by k)].
  - apply pop_back_None in Hpop. rewrite <-(app_nil_r (delete pos (nodes b))).
    split; [apply (wf_removed_by k b n)|apply (removed_by k)]; rewrite ?Hpop; simpl; auto.
Qed.

(** ** [split] *)

Lemma distribute_app mid low high l1 l2 :
  distribute mid low high (l1 ++ l2) =
  let '(low', high') := distribute mid low high l1 in distribute mid low' high' l2.
Proof.
  revert low high. induction l1 as [|n l1 IH]; intros low high; simpl; [done|].
  case_match; apply IH.
Qed.

(** Both halves under construction, with every pending node in its half. *)
Record halves (k : nat) (mid : Z) (rl rh : Z * Z) (low high : t) (l : list Node) : Prop := {
  hv_low : bucket_wf k low;
  hv_high : bucket_wf k high;
  hv_low_range : range low = rl;
  hv_high_range : range high = rh;
  hv_side : ∀ n, n ∈ l → if (long_id n <=? mid)%Z then in_range rl n else in_range rh n
}.

Lemma halves_step k mid rl rh low high n l :
  halves k mid rl rh low high (n :: l) →
  if (long_id n <=? mid)%Z then halves k mid rl rh (add_node low n).1 high l
  else halves k mid rl rh low (add_node high n).1 l.
Proof.
  intros [Hl Hh El Eh Hs]. pose proof (Hs n ltac:(left)) as Hn.
  assert (∀ m, m ∈ l → if (long_id m <=? mid)%Z then in_range rl m else in_range rh m) as Hs'
    by (intros m Hm; apply Hs; by right).
  case_match; split; try done; rewrite ?add_node_range; try done;
    apply bucket_wf_add_node; congruence.
Qed.

Lemma distribute_halves k mid rl rh low high l low' high' :
  halves k mid rl rh low high l → distribute mid low high l = (low', high') →
  halves k mid rl rh low' high' [] ∧
  (∀ i, i ∈ ids (nodes low) → i ∈ ids (nodes low')) ∧
  (∀ i, i ∈ ids (nodes high) → i ∈ ids (nodes high')) ∧
  (∀ i, i ∈ all_ids low' ∨ i ∈ all_ids high' → i ∈ all_ids low ∨ i ∈ all_ids high ∨ i ∈ ids l).
Proof.
  revert low high. induction l as [|n l IH]; intros low high Hhv Hd.
  { simpl in Hd. simplify_eq. split; [done|]. naive_solver. }
  pose proof (halves_step _ _ _ _ _ _ _ _ Hhv) as Hstep. simpl in Hd.
  pose proof (hv_low _ _ _ _ _ _ _ Hhv) as Hl. pose proof (hv_high _ _ _ _ _ _ _ Hhv) as Hh.
  destruct (long_id n <=? mid)%Z; apply IH in Hd as (Hres & Hlo & Hhi & Hall); try done;
    (split; [done|]; split; [|split]).
  - intros i Hi. by eapply Hlo, add_node_keeps_primaries.
  - done.
  - intros i [Hi|[Hi|Hi]]%Hall; [apply add_node_all_ids in Hi as [->|]; auto|auto|].
    + right; right. apply list_elem_of_here.
    + right; right. by apply list_elem_of_further.
  - done.
  - intros i Hi. by eapply Hhi, add_node_keeps_primaries.
  - intros i [Hi|[Hi|Hi]]%Hall; [auto|apply add_node_all_ids in Hi as [->|]; auto|].
    + right; right. apply list_elem_of_here.
    + right; right. by apply list_elem_of_further.
Qed.

(** Nodes distributed while both halves have room become primary. *)
Lemma distribute_primary k mid rl rh low high l low' high' n :
  halves k mid rl rh low high l → distribute mid low high l = (low', high') →
  length (nodes low) + length l ≤ k → length (nodes high) + length l ≤ k → n ∈ l →
  id n ∈ ids (nodes (if (long_id n <=? mid)%Z then low' else high')).
Proof.
  revert low high. induction l as [|m l IH]; intros low high Hhv Hd Hkl Hkh Hn.
  { by apply not_elem_of_nil in Hn. }
  pose proof (halves_step _ _ _ _ _ _ _ _ Hhv) as Hstep. simpl in *.
  pose proof (hv_low _ _ _ _ _ _ _ Hhv) as Hl. pose proof (hv_high _ _ _ _ _ _ _ Hhv) as Hh.
  pose proof (add_node_length k low m Hl). pose proof (add_node_length k high m Hh).
  apply elem_of_cons in Hn as [->|Hn].
  - destruct (long_id m <=? mid)%Z;
      eapply distribute_halves in Hd as (_ & Hlo & Hhi & _); eauto;
      [apply Hlo|apply Hhi]; apply (add_node_primary k); (done || lia).
  - destruct (long_id m <=? mid)%Z; eapply IH; eauto; lia.
Qed.

Section split.
Context (k : nat) (now : Z) (b : t) (Hwf : bucket_wf k b).
Context (low high : t) (Hsplit : split now b = (low, high)).

Definition mid_of (r : Z * Z) : Z := (r.1 + (r.2 - r.1) `div` 2)%Z.

Lemma split_eq :
  distribute (mid_of (range b)) (new now ((range b).1, mid_of (range b)) k)
    (new now (mid_of (range b) + 1, (range b).2)%Z k) (nodes b ++ replacement_nodes b) = (low, high).
Proof.
  unfold split, mid_of in *. destruct (range b) as [lo hi]. simpl.
  by rewrite <-(bw_ksize _ _ Hwf).
Qed.

Lemma split_halves l :
  l ⊆+ nodes b ++ replacement_nodes b →
  halves k (mid_of (range b)) ((range b).1, mid_of (range b))
    (mid_of (range b) + 1, (range b).2)%Z
    (new now ((range b).1, mid_of (range b)) k)
    (new now (mid_of (range b) + 1, (range b).2)%Z k) l.
Proof.
  intros Hsub. split; try apply bucket_wf_new; try done.
  intros n Hn. pose proof (bw_in_range _ _ Hwf) as Hr. rewrite Forall_forall in Hr.
  specialize (Hr n (elem_of_submseteq _ _ _ Hn Hsub)). unfold in_range in *.
  case_match; bool_facts; simpl; lia.
Qed.

Lemma split_spec :
  bucket_wf k low ∧ bucket_wf k high ∧
  range low = ((range b).1, mid_of (range b)) ∧
  range high = (mid_of (range b) + 1, (range b).2)%Z ∧
  (∀ i, i ∈ all_ids low ∨ i ∈ all_ids high → i ∈ all_ids b).
Proof.
  pose proof (split_halves _ (reflexivity _)) as Hhv.
  eapply distribute_halves in Hhv as ([? ? ? ? _] & _ & _ & Hall); [|apply split_eq].
  repeat (split; [done|]). intros i Hi. apply Hall in Hi as [Hi|[Hi|Hi]]; [..|done];
    by apply not_elem_of_nil in Hi.
Qed.

(** Every primary contact stays primary, in the half of its id. *)
Lemma split_primary n :
  n ∈ nodes b →
  id n ∈ ids (nodes (if (long_id n <=? mid_of (range b))%Z then low else high)).
Proof.
  intros Hn. pose proof split_eq as Hd. rewrite distribute_app in Hd.
  destruct (distribute _ _ _ (nodes b)) as [l1 h1] eqn:H1.
  pose proof (bw_len _ _ Hwf).
  pose proof (split_halves (nodes b) ltac:(by apply submseteq_inserts_r)) as Hhv.
  pose proof (distribute_primary _ _ _ _ _ _ _ _ _ n Hhv H1) as Hp.
  apply distribute_halves with (1 := Hhv) in H1 as (Hhv1 & _).
  assert (halves k (mid_of (range b)) ((range b).1, mid_of (range b))
    (mid_of (range b) + 1, (range b).2)%Z l1 h1 (replacement_nodes b)) as Hhv2.
  { destruct Hhv1. split; try done.
    apply (hv_side _ _ _ _ _ _ _ (split_halves (replacement_nodes b) ltac:(by apply submseteq_inserts_l))). }
  apply distribute_halves with (1 := Hhv2) in Hd as (_ & Hlo & Hhi & _).
  specialize (Hp ltac:(simpl; lia) ltac:(simpl; lia) Hn). case_match; auto.
Qed.
End split.
