(* ===== verification/RoutingProps.v ===== *)
(** * Invariant of the routing table (src/src/routing.rs, [RoutingTable])

    The buckets partition the key space, each is well formed, health is kept
    only for primary contacts, and the local node is never its own contact.
    Every operation keeps this, [insert] terminates, and the neighbours found
    are exactly the closest eligible contacts. *)

From S2P Require Import Prelude Utils Node Routing BucketProps.

Import RoutingTable.

(** ** Partition of the key space *)

Fixpoint contiguous (lo : Z) (bs : list KBucket.t) (hi : Z) : Prop :=
  match bs with
  | [] => lo = (hi + 1)%Z
  | b :: bs' =>
      (KBucket.range b).1 = lo ∧ (lo ≤ (KBucket.range b).2)%Z ∧
      contiguous ((KBucket.range b).2 + 1) bs' hi
  end.

Definition KEY_MAX : Z := 2 ^ 160 - 1.

Lemma covers_true b x :
  KBucket.covers b x = true ↔ ((KBucket.range b).1 ≤ x ≤ (KBucket.range b).2)%Z.
Proof. unfold KBucket.covers. rewrite andb_true_iff, !Z.leb_le. done. Qed.

Lemma contiguous_lower lo bs hi b :
  contiguous lo bs hi → b ∈ bs → (lo ≤ (KBucket.range b).1)%Z.
Proof.
  revert lo. induction bs as [|b' bs IH]; simpl; intros lo Hc Hb; [by apply not_elem_of_nil in Hb|].
  destruct Hc as (E & Hle & Hc). apply elem_of_cons in Hb as [->|Hb]; [lia|].
  specialize (IH _ Hc Hb). lia.
Qed.

Lemma contiguous_le lo bs hi : contiguous lo bs hi → (lo ≤ hi + 1)%Z.
Proof.
  revert lo. induction bs as [|b bs IH]; simpl; intros lo Hc; [lia|].
  destruct Hc as (_ & ? & Hc%IH). lia.
Qed.

Lemma contiguous_bounds lo bs hi b :
  contiguous lo bs hi → b ∈ bs →
  (lo ≤ (KBucket.range b).1 ≤ (KBucket.range b).2)%Z ∧ ((KBucket.range b).2 ≤ hi)%Z.
Proof.
  revert lo. induction bs as [|b' bs IH]; simpl; intros lo Hc Hb; [by apply not_elem_of_nil in Hb|].
  destruct Hc as (E & Hle & Hc). apply elem_of_cons in Hb as [->|Hb].
  - apply contiguous_le in Hc. lia.
  - specialize (IH _ Hc Hb). lia.
Qed.

(** Exactly one bucket covers a key. *)
Lemma contiguous_find lo bs hi x :
  contiguous lo bs hi → (lo ≤ x ≤ hi)%Z →
  ∃ i b, list_find (λ b, KBucket.covers b x = true) bs = Some (i, b).
Proof.
  revert lo. induction bs as [|b bs IH]; simpl; intros lo Hc Hx; [lia|].
  destruct Hc as (E & Hle & Hc). case_decide as Hcov; [eauto|].
  destruct (IH _ Hc) as (i & b' & ->); [|simpl; eauto].
  rewrite covers_true in Hcov. lia.
Qed.

Lemma contiguous_unique lo bs hi x i j b b' :
  contiguous lo bs hi → bs !! i = Some b → bs !! j = Some b' →
  KBucket.covers b x = true → KBucket.covers b' x = true → i = j.
Proof.
  revert lo i j. induction bs as [|c bs IH]; simpl; intros lo i j Hc Hi Hj Hx Hx'; [done|].
  destruct Hc as (E & Hle & Hc). rewrite covers_true in Hx, Hx'.
  destruct i as [|i], j as [|j]; simpl in *; simplify_eq.
  - done.
  - apply list_elem_of_lookup_2 in Hj. apply contiguous_lower with (1 := Hc) in Hj. lia.
  - apply list_elem_of_lookup_2 in Hi. apply contiguous_lower with (1 := Hc) in Hi. lia.
  - f_equal. eapply IH; eauto; by apply covers_true.
Qed.

Lemma contiguous_insert lo bs hi i b b' :
  contiguous lo bs hi → bs !! i = Some b → KBucket.range b' = KBucket.range b →
  contiguous lo (<[i := b']> bs) hi.
Proof.
  revert lo i. induction bs as [|c bs IH]; simpl; intros lo i Hc Hi Hr; [done|].
  destruct Hc as (E & Hle & Hc). destruct i as [|i]; simpl in *; simplify_eq.
  - by rewrite Hr.
  - split; [done|]. split; [done|]. by apply IH.
Qed.

Lemma contiguous_split lo bs hi i b low high :
  contiguous lo bs hi → bs !! i = Some b →
  KBucket.range low = ((KBucket.range b).1, mid_of (KBucket.range b)) →
  KBucket.range high = (mid_of (KBucket.range b) + 1, (KBucket.range b).2)%Z →
  ((KBucket.range b).1 < (KBucket.range b).2)%Z →
  contiguous lo (take i bs ++ low :: high :: drop (S i) bs) hi.
Proof.
  revert lo i. induction bs as [|c bs IH]; simpl; intros lo i Hc Hi Hl Hh Hlt; [done|].
  destruct Hc as (E & Hle & Hc). destruct i as [|i]; simpl in *; simplify_eq.
  - rewrite Hl, Hh. simpl. unfold mid_of.
    pose proof (Z.div_lt_upper_bound ((KBucket.range b).2 - (KBucket.range b).1) 2
      ((KBucket.range b).2 - (KBucket.range b).1) ltac:(lia) ltac:(lia)).
    pose proof (Z.div_pos ((KBucket.range b).2 - (KBucket.range b).1) 2 ltac:(lia) ltac:(lia)).
    rewrite drop_0. kad_crush.
  - split; [done|]. split; [done|]. by apply IH.
Qed.

(** ** The invariant *)

(** The primary contacts of a list of buckets, by id. *)
Definition primary_in (bs : list KBucket.t) (i : ident) : Prop :=
  ∃ b, b ∈ bs ∧ i ∈ ids (KBucket.nodes b).

Record wf (rt : t) : Prop := {
  wf_part : contiguous 0 (buckets rt) KEY_MAX;
  wf_buckets : Forall (bucket_wf (ksize rt)) (buckets rt);
  wf_health : ∀ i, is_Some (health rt !! i) → primary_in (buckets rt) i;
  wf_self : ∀ b, b ∈ buckets rt → id (node rt) ∉ all_ids b
}.

Lemma primaries_ids rt i : i ∈ ids (primaries rt) ↔ primary_in (buckets rt) i.
Proof.
  unfold ids, primaries, primary_in. rewrite list_elem_of_fmap. split.
  - intros (n & -> & Hn). rewrite list_elem_of_In in Hn. apply in_flat_map in Hn as (b & Hb & Hn).
    apply list_elem_of_In in Hb, Hn. exists b. split; [done|]. by apply elem_of_ids.
  - intros (b & Hb & (n & -> & Hn)%list_elem_of_fmap). exists n. split; [done|].
    apply list_elem_of_In, in_flat_map. exists b. split; by apply list_elem_of_In.
Qed.

Lemma wf_bucket rt i b : wf rt → buckets rt !! i = Some b → bucket_wf (ksize rt) b.
Proof. intros Hwf Hb. eapply Forall_lookup_1; [apply (wf_buckets _ Hwf)|done]. Qed.

(** The index computed for an id is the index of the bucket covering it: the
    fallback of [bucket_index_for] is never used and no index is out of range. *)
Lemma bucket_index_covers rt n :
  wf rt →
  ∃ b, buckets rt !! bucket_index_for rt (long_id n) = Some b ∧
       KBucket.covers b (long_id n) = true.
Proof.
  intros Hwf. unfold bucket_index_for.
  destruct (contiguous_find _ _ _ (long_id n) (wf_part _ Hwf)) as (i & b & Hf).
  { pose proof (long_id_range n). unfold KEY_MAX. lia. }
  rewrite Hf. apply list_find_Some in Hf as (? & ? & _). eauto.
Qed.

Lemma bucket_index_eq rt n i b :
  wf rt → buckets rt !! i = Some b → KBucket.covers b (long_id n) = true →
  bucket_index_for rt (long_id n) = i.
Proof.
  intros Hwf Hi Hc. destruct (bucket_index_covers rt n Hwf) as (b' & Hb' & Hc').
  by eapply contiguous_unique; [apply (wf_part _ Hwf)|..].
Qed.

Lemma ids_inv i l : i ∈ ids l → ∃ m, m ∈ l ∧ id m = i.
Proof. intros (m & -> & Hm)%list_elem_of_fmap. eauto. Qed.

Lemma long_id_of_id n m : id n = id m → long_id n = long_id m.
Proof. intros E. by rewrite !long_id_ok, E. Qed.

Lemma in_bucket_covers k b n : bucket_wf k b → id n ∈ all_ids b → KBucket.covers b (long_id n) = true.
Proof.
  intros Hwf (m & Hm & E)%ids_inv. apply covers_true.
  rewrite <-(long_id_of_id m n E). pose proof (bw_in_range _ _ Hwf) as Hr.
  rewrite Forall_forall in Hr. by apply Hr.
Qed.

(** A contact is primary exactly when the bucket of its id holds it. *)
Lemma primary_in_bucket rt n b :
  wf rt → buckets rt !! bucket_index_for rt (long_id n) = Some b →
  primary_in (buckets rt) (id n) ↔ id n ∈ ids (KBucket.nodes b).
Proof.
  intros Hwf Hb. split.
  - intros (b' & Hb' & Hn). apply list_elem_of_lookup_1 in Hb' as [j Hj].
    assert (bucket_index_for rt (long_id n) = j) as Hj'.
    { eapply bucket_index_eq; [done..|]. eapply in_bucket_covers; [by eapply wf_bucket|].
      apply elem_of_all_ids. by left. }
    rewrite <-Hj' in Hj. congruence.
  - intros Hn. exists b. split; [by eapply list_elem_of_lookup_2|done].
Qed.

Lemma is_new_node_primary rt n :
  wf rt → is_new_node rt n = false ↔ primary_in (buckets rt) (id n).
Proof.
  intros Hwf. destruct (bucket_index_covers rt n Hwf) as (b & Hb & _).
  rewrite (primary_in_bucket rt n b) by done. unfold is_new_node. rewrite Hb.
  rewrite negb_false_iff. apply contains_true.
Qed.

(** ** Changing one bucket *)

Lemma alter_insert_lookup {A} (f : A → A) (l : list A) i x :
  l !! i = Some x → alter f i l = <[i := f x]> l.
Proof.
  revert i. induction l as [|y l IH]; intros [|i] H; simplify_eq/=; [done..|].
  f_equal. by apply IH.
Qed.

Lemma elem_of_insert {A} (l : list A) i x y z :
  l !! i = Some x → z ∈ <[i := y]> l → z = y ∨ z ∈ l.
Proof.
  revert i. induction l as [|w l IH]; intros [|i] H Hz; simplify_eq/=.
  - apply elem_of_cons in Hz as [->|]; [by left|right; by right].
  - apply elem_of_cons in Hz as [->|Hz]; [right; by left|].
    destruct (IH i H Hz); [by left|right; by right].
Qed.

Lemma primary_in_insert bs i b b' j :
  bs !! i = Some b → primary_in bs j →
  (j ∈ ids (KBucket.nodes b) → j ∈ ids (KBucket.nodes b')) →
  primary_in (<[i := b']> bs) j.
Proof.
  intros Hi (c & Hc & Hj) Hkeep. apply list_elem_of_lookup_1 in Hc as [m Hm].
  destruct (decide (m = i)) as [->|Hne].
  - simplify_eq. exists b'. split; [|auto]. eapply list_elem_of_lookup_2.
    apply list_lookup_insert_eq. by eapply lookup_lt_Some.
  - exists c. split; [|done]. apply (list_elem_of_lookup_2 _ m).
    by rewrite list_lookup_insert_ne.
Qed.

(** A change of one bucket that keeps its range, and of the health map. *)
Lemma wf_change rt i b b' h :
  wf rt → buckets rt !! i = Some b → bucket_wf (ksize rt) b' →
  KBucket.range b' = KBucket.range b → id (node rt) ∉ all_ids b' →
  (∀ j, is_Some (h !! j) → is_Some (health rt !! j) ∧
        (j ∈ ids (KBucket.nodes b) → j ∈ ids (KBucket.nodes b'))
        ∨ j ∈ ids (KBucket.nodes b')) →
  wf (with_health (with_buckets rt (<[i := b']> (buckets rt))) h).
Proof.
  intros Hwf Hi Hb' Hr Hself Hh. split; simpl.
  - by eapply contiguous_insert; [apply (wf_part _ Hwf)|..].
  - apply Forall_insert; [apply (wf_buckets _ Hwf)|done].
  - intros j [[Hj Hk]|Hj]%Hh.
    + eapply primary_in_insert; [done|by apply (wf_health _ Hwf)|done].
    + exists b'. split; [|done]. eapply list_elem_of_lookup_2, list_lookup_insert_eq.
      by eapply lookup_lt_Some.
  - intros c Hc. eapply elem_of_insert in Hc as [->|Hc]; [done| |done]. by apply (wf_self _ Hwf).
Qed.

Lemma with_health_id rt : with_health rt (health rt) = rt.
Proof. by destruct rt. Qed.

Lemma table_wf_new now n k : wf (new now n k).
Proof.
  split; simpl.
  - done.
  - constructor; [apply bucket_wf_new|constructor].
  - intros i [h Hh]. by rewrite lookup_empty in Hh.
  - intros b ->%list_elem_of_singleton. apply not_elem_of_nil.
Qed.

Lemma wf_set_min_lookup_contacts rt c : wf rt → wf (set_min_lookup_contacts rt c).
Proof. by intros []. Qed.

Lemma wf_record_success rt i now : wf rt → wf (record_success rt i now).1.
Proof.
  intros []. split; try done. simpl. intros j [h Hh]. apply wf_health0.
  rewrite lookup_delete_Some in Hh. destruct Hh. eauto.
Qed.

(** ** What an insertion may change *)

(** The ids a table knows, primary or replacement. *)
Definition known_in (bs : list KBucket.t) (i : ident) : Prop := ∃ b, b ∈ bs ∧ i ∈ all_ids b.

(** [grown n rt rt']: [rt'] is well formed, comes from the same node, has lost
    no contact that is not stale and has met nobody but [n]. *)
Record grown (n : Node) (rt rt' : t) : Prop := {
  g_wf : wf rt';
  g_node : node rt' = node rt;
  g_ksize : ksize rt' = ksize rt;
  g_min : min_lookup_contacts rt' = min_lookup_contacts rt;
  g_health : health rt' ⊆ health rt;
  g_keep : ∀ i, primary_in (buckets rt) i → is_stale rt i = false → primary_in (buckets rt') i;
  g_only : ∀ i, known_in (buckets rt') i → known_in (buckets rt) i ∨ i = id n
}.

Lemma is_stale_mono rt rt' i :
  health rt' ⊆ health rt → is_stale rt i = false → is_stale rt' i = false.
Proof.
  unfold is_stale. intros Hs. destruct (health rt' !! i) as [h|] eqn:E; [|done].
  by rewrite (lookup_weaken _ _ _ _ E Hs).
Qed.

Lemma grown_refl n rt : wf rt → grown n rt rt.
Proof. intros. split; auto. Qed.

Lemma grown_trans n rt1 rt2 rt3 : grown n rt1 rt2 → grown n rt2 rt3 → grown n rt1 rt3.
Proof.
  intros [] []. split; try congruence.
  - by etrans.
  - intros i Hi Hs. apply g_keep1; [by apply g_keep0|]. by eapply is_stale_mono.
  - intros i [Hi|]%g_only1; [by apply g_only0|by right].
Qed.

Lemma known_in_insert bs i b b' j :
  bs !! i = Some b → known_in (<[i := b']> bs) j → j ∈ all_ids b' ∨ known_in bs j.
Proof.
  intros Hi (c & Hc & Hj). eapply elem_of_insert in Hc as [->|Hc]; [by left| |done].
  right. exists c. done.
Qed.

(** ** [remove_contact] *)

Lemma remove_contact_eq rt n b :
  buckets rt !! bucket_index_for rt (long_id n) = Some b →
  remove_contact rt n =
  with_health (with_buckets rt (<[bucket_index_for rt (long_id n) := KBucket.remove_node b n]>
    (buckets rt))) (delete (id n) (health rt)).
Proof.
  intros Hb. unfold remove_contact, update_bucket. by rewrite (alter_insert_lookup _ _ _ _ Hb).
Qed.

Lemma wf_remove_contact rt n : wf rt → wf (remove_contact rt n).
Proof.
  intros Hwf. destruct (bucket_index_covers rt n Hwf) as (b & Hb & _).
  rewrite (remove_contact_eq _ _ _ Hb).
  destruct (remove_node_spec (ksize rt) b n) as [Hb' [Hr Hall Hgone Hkeep]]; [by eapply wf_bucket|].
  eapply wf_change; try done.
  - rewrite Hall. intros [Hin _]. revert Hin. apply (wf_self _ Hwf).
    by eapply list_elem_of_lookup_2.
  - intros j [h [Hne Hh]%lookup_delete_Some]. left. split; [eauto|]. intros Hj. by apply Hkeep.
Qed.

Lemma remove_contact_gone rt n : wf rt → ¬ known_in (buckets (remove_contact rt n)) (id n).
Proof.
  intros Hwf (c & Hc & Hn).
  pose proof (wf_remove_contact rt n Hwf) as Hwf'.
  apply list_elem_of_lookup_1 in Hc as [j Hj].
  pose proof (in_bucket_covers _ _ _ (wf_bucket _ _ _ Hwf' Hj) Hn) as Hcov.
  destruct (bucket_index_covers rt n Hwf) as (b & Hb & Hcb).
  destruct (remove_node_spec (ksize rt) b n) as [Hb' [Hr Hall _ _]]; [by eapply wf_bucket|].
  rewrite (remove_contact_eq _ _ _ Hb) in Hj. simpl in Hj.
  destruct (decide (j = bucket_index_for rt (long_id n))) as [->|Hne].
  - rewrite list_lookup_insert_eq in Hj by (by eapply lookup_lt_Some). simplify_eq.
    by apply Hall in Hn as [_ ?].
  - rewrite list_lookup_insert_ne in Hj by done.
    destruct Hne. eapply contiguous_unique; [apply (wf_part _ Hwf)|..]; eauto.
Qed.

Lemma remove_contact_keeps rt n i :
  wf rt → i ≠ id n → primary_in (buckets rt) i → primary_in (buckets (remove_contact rt n)) i.
Proof.
  intros Hwf Hne Hi. destruct (bucket_index_covers rt n Hwf) as (b & Hb & _).
  rewrite (remove_contact_eq _ _ _ Hb). simpl.
  destruct (remove_node_spec (ksize rt) b n) as [_ [_ _ _ Hkeep]]; [by eapply wf_bucket|].
  eapply primary_in_insert; [done|done|]. intros Hj. by apply Hkeep.
Qed.

Lemma remove_contact_known rt n i :
  wf rt → known_in (buckets (remove_contact rt n)) i → known_in (buckets rt) i.
Proof.
  intros Hwf. destruct (bucket_index_covers rt n Hwf) as (b & Hb & _).
  rewrite (remove_contact_eq _ _ _ Hb). simpl.
  destruct (remove_node_spec (ksize rt) b n) as [_ [_ Hall _ _]]; [by eapply wf_bucket|].
  intros [Hi|Hi]%(known_in_insert _ _ b); [|done|done].
  apply Hall in Hi as [Hi _]. exists b. split; [by eapply list_elem_of_lookup_2|done].
Qed.

Lemma find_elem {A} (f : A → bool) l x : List.find f l = Some x → x ∈ l ∧ f x = true.
Proof. intros [Hin Hf]%List.find_some. by rewrite list_elem_of_In. Qed.

Lemma grown_replace_stale rt idx n : wf rt → grown n rt (replace_stale_if_full rt idx n).
Proof.
  intros Hwf. unfold replace_stale_if_full.
  destruct (buckets rt !! idx) as [b|] eqn:Hb; [|by apply grown_refl].
  case_match; [by apply grown_refl|].
  destruct (List.find _ _) as [s|] eqn:Hf; [|by apply grown_refl].
  apply find_elem in Hf as [Hs Hst]. split; try done.
  - by apply wf_remove_contact.
  - simpl. apply delete_subseteq.
  - intros i Hi Hns. apply remove_contact_keeps; [done| |done]. intros ->. congruence.
  - intros i Hi. left. by eapply remove_contact_known.
Qed.

(** The bucket at the index of [n] keeps its range. *)
Lemma replace_stale_bucket rt idx n b :
  wf rt → buckets rt !! idx = Some b →
  ∃ b', buckets (replace_stale_if_full rt idx n) !! idx = Some b' ∧
        KBucket.range b' = KBucket.range b.
Proof.
  intros Hwf Hb. unfold replace_stale_if_full. rewrite Hb.
  case_match; [eauto|]. destruct (List.find _ _) as [s|] eqn:Hf; [|eauto].
  apply find_elem in Hf as [Hs _].
  assert (bucket_index_for rt (long_id s) = idx) as Hidx.
  { eapply bucket_index_eq; [done..|]. eapply in_bucket_covers; [by eapply wf_bucket|].
    apply elem_of_all_ids. left. by apply elem_of_ids. }
  rewrite (remove_contact_eq _ _ b) by (by rewrite Hidx). rewrite Hidx. simpl.
  rewrite list_lookup_insert_eq by (by eapply lookup_lt_Some). eexists; split; [done|].
  by destruct (remove_node_spec (ksize rt) b s) as [_ []]; [by eapply wf_bucket|].
Qed.

(** ** Adding to a bucket *)

Lemma grown_add_node rt idx b n b' added :
  wf rt → id n ≠ id (node rt) → buckets rt !! idx = Some b →
  KBucket.covers b (long_id n) = true → KBucket.add_node b n = (b', added) →
  grown n rt (with_buckets rt (<[idx := b']> (buckets rt))).
Proof.
  intros Hwf Hne Hb Hcov Ha. pose proof (wf_bucket _ _ _ Hwf Hb) as Hbw.
  apply covers_true in Hcov.
  pose proof (bucket_wf_add_node _ _ n Hbw Hcov) as Hbw'.
  pose proof (add_node_range b n) as Hr. pose proof (add_node_all_ids b n) as Hall.
  pose proof (λ i, add_node_keeps_primaries _ b n i Hbw) as Hkeep.
  rewrite Ha in Hbw', Hr, Hall, Hkeep. simpl in *.
  assert (Hmem : ∀ i, i ∈ all_ids b → known_in (buckets rt) i).
  { intros i Hi. exists b. split; [by eapply list_elem_of_lookup_2|done]. }
  split; try done.
  - apply (wf_change rt idx b b' (health rt)); try done.
    + intros [?|Hi]%Hall; [congruence|]. revert Hi. apply (wf_self _ Hwf).
      by eapply list_elem_of_lookup_2.
    + intros j Hj. left. split; [done|apply Hkeep].
  - intros i Hi _. eapply primary_in_insert; [done|done|apply Hkeep].
  - intros i [Hi|Hi]%(known_in_insert _ _ b); [|by left|done].
    apply Hall in Hi as [->|Hi]; [by right|left; by apply Hmem].
Qed.

(** ** Splitting a bucket *)

Lemma elem_of_split {A} (l : list A) i x y z w :
  l !! i = Some x → w ∈ take i l ++ y :: z :: drop (S i) l → w = y ∨ w = z ∨ w ∈ l.
Proof.
  intros Hi. rewrite elem_of_app, !elem_of_cons.
  intros [Hw|[->|[->|Hw]]]; [right; right; by eapply elem_of_take_incl|auto|auto|].
  right; right. rewrite <-(take_drop (S i) l). apply elem_of_app. by right.
Qed.

Lemma grown_split now rt idx b n :
  wf rt → buckets rt !! idx = Some b →
  ((KBucket.range b).1 < (KBucket.range b).2)%Z →
  grown n rt (split_bucket now rt idx).
Proof.
  intros Hwf Hb Hlt. unfold split_bucket. rewrite Hb.
  destruct (KBucket.split now b) as [low high] eqn:Hs.
  pose proof (wf_bucket _ _ _ Hwf Hb) as Hbw.
  pose proof (split_spec _ _ _ Hbw _ _ Hs) as (Hl & Hh & Rl & Rh & Hall).
  pose proof (split_primary _ _ _ Hbw _ _ Hs) as Hprim.
  assert (Hb_in : b ∈ buckets rt) by (by eapply list_elem_of_lookup_2).
  assert (Hkeep : ∀ i, primary_in (buckets rt) i →
    primary_in (take idx (buckets rt) ++ low :: high :: drop (S idx) (buckets rt)) i).
  { intros i (c & Hc & Hi).
    rewrite <-(take_drop_middle _ _ _ Hb) in Hc.
    apply elem_of_app in Hc as [Hc|[->|Hc]%elem_of_cons].
    - exists c. split; [apply elem_of_app; by left|done].
    - apply ids_inv in Hi as (m & Hm & <-). specialize (Hprim m Hm).
      eexists. split; [|exact Hprim]. apply elem_of_app. right.
      case_match; [left|right; left].
    - exists c. split; [apply elem_of_app; right; by do 2 right|done]. }
  split; simpl; try done; [|by auto|].
  - split; simpl.
    + by eapply contiguous_split; [apply (wf_part _ Hwf)|..].
    + pose proof (wf_buckets _ Hwf) as HF.
      apply Forall_app. split; [by apply Forall_take|].
      constructor; [done|]. constructor; [done|]. by apply Forall_drop.
    + intros i Hi. apply Hkeep. by apply (wf_health _ Hwf).
    + intros c Hc Hi. eapply elem_of_split in Hc as [->|[->|Hc]]; [..|done];
        [| |by eapply (wf_self _ Hwf)]; eapply (wf_self _ Hwf b); auto.
  - intros i (c & Hc & Hi). left.
    eapply elem_of_split in Hc as [->|[->|Hc]]; [| |by exists c|done]; exists b; auto.
Qed.

(** After a split the bucket of [n] spans at most half the ids. *)
Lemma split_bucket_halves now rt idx b n j :
  wf rt → buckets rt !! idx = Some b → KBucket.covers b (long_id n) = true →
  ((KBucket.range b).1 < (KBucket.range b).2)%Z →
  ((KBucket.range b).2 - (KBucket.range b).1 < 2 ^ (Z.of_nat (S j)))%Z →
  ∃ b', buckets (split_bucket now rt idx) !!
          bucket_index_for (split_bucket now rt idx) (long_id n) = Some b' ∧
        ((KBucket.range b').2 - (KBucket.range b').1 < 2 ^ Z.of_nat j)%Z.
Proof.
  intros Hwf Hb Hcov Hlt Hsz.
  pose proof (g_wf _ _ _ (grown_split now rt idx b n Hwf Hb Hlt)) as Hwf'.
  unfold split_bucket in *. rewrite Hb in *.
  destruct (KBucket.split now b) as [low high] eqn:Hs.
  pose proof (split_spec _ _ _ (wf_bucket _ _ _ Hwf Hb) _ _ Hs) as (_ & _ & Rl & Rh & _).
  apply covers_true in Hcov.
  assert (Hlen : length (take idx (buckets rt)) = idx)
    by (apply length_take_le; apply lookup_lt_Some in Hb; lia).
  rewrite Nat2Z.inj_succ, Z.pow_succ_r in Hsz by lia.
  pose proof (Z.div_lt_upper_bound ((KBucket.range b).2 - (KBucket.range b).1) 2
    (2 ^ Z.of_nat j) ltac:(lia) ltac:(lia)) as Hhalf.
  pose proof (Z.div_mod ((KBucket.range b).2 - (KBucket.range b).1) 2 ltac:(lia)) as Hdm.
  pose proof (Z.mod_pos_bound ((KBucket.range b).2 - (KBucket.range b).1) 2 ltac:(lia)).
  destruct (decide (long_id n ≤ mid_of (KBucket.range b))%Z) as [Hle|Hgt].
  - exists low. erewrite bucket_index_eq; [|exact Hwf'| |].
    + split; [by apply list_lookup_middle|]. rewrite Rl. unfold mid_of. simpl. lia.
    + simpl. by apply list_lookup_middle.
    + apply covers_true. rewrite Rl. simpl. lia.
  - exists high. erewrite (bucket_index_eq _ _ (S idx)); [|exact Hwf'| |].
    + split; [|rewrite Rh; unfold mid_of in *; simpl; lia]. simpl.
      by rewrite lookup_app_r, Hlen, Nat.sub_succ_l, Nat.sub_diag by lia.
    + simpl. by rewrite lookup_app_r, Hlen, Nat.sub_succ_l, Nat.sub_diag by lia.
    + apply covers_true. rewrite Rh. simpl. lia.
Qed.

(** ** [insert] *)

(** Where [n] ends up. With no contact to ping it is primary (when buckets have
    room at all); otherwise its bucket is full and may not be split, [n] is its
    most recent replacement, and the contact to ping is the oldest one. *)
Definition settled (rt' : t) (n : Node) (r : option Node) : Prop :=
  match r with
  | None => 0 < ksize rt' → primary_in (buckets rt') (id n)
  | Some lru =>
      ∃ b, buckets rt' !! bucket_index_for rt' (long_id n) = Some b ∧
        KBucket.head b = Some lru ∧ KBucket.len b = ksize rt' ∧
        id n ∉ ids (KBucket.nodes b) ∧ last (KBucket.replacement_nodes b) = Some n ∧
        KBucket.covers b (long_id (node rt')) = false ∧ KBucket.depth b mod 5 = 0
  end.

(** A bucket that refuses [n] and may be split spans at least two ids. *)
Lemma splittable_range k b n local :
  bucket_wf k b → id n ≠ id local → KBucket.covers b (long_id n) = true →
  id n ∉ ids (KBucket.nodes b) →
  KBucket.covers b (long_id local) || negb (KBucket.depth b mod 5 =? 0) = true →
  ((KBucket.range b).1 < (KBucket.range b).2)%Z.
Proof.
  intros Hwf Hne Hn%covers_true Hnot [Hl|Hd]%orb_true_iff.
  - apply covers_true in Hl. assert (long_id n ≠ long_id local); [|lia].
    intros E. by apply Hne, long_id_inj.
  - unfold KBucket.depth in Hd. destruct (KBucket.nodes b) as [|m ms] eqn:Hns; [done|].
    pose proof (bw_in_range _ _ Hwf) as Hr. rewrite Hns in Hr. apply Forall_cons in Hr as [Hm _].
    unfold in_range in Hm. assert (long_id n ≠ long_id m); [|lia].
    intros E%long_id_inj. apply Hnot. rewrite E. left.
Qed.

(** One pass of [insert] up to the decision to split: the bucket of [n], a
    stale contact replaced and [n] added. *)
Record inserted (rt : t) (n : Node) (b b2 : KBucket.t) (added : bool) (rt2 : t) : Prop := {
  in_grown : grown n rt rt2;
  in_bucket : buckets rt2 !! bucket_index_for rt (long_id n) = Some b2;
  in_index : bucket_index_for rt2 (long_id n) = bucket_index_for rt (long_id n);
  in_covers : KBucket.covers b2 (long_id n) = true;
  in_same_range : KBucket.range b2 = KBucket.range b;
  in_added : added = true → id n ∈ ids (KBucket.nodes b2);
  in_refused : added = false →
    id n ∉ ids (KBucket.nodes b2) ∧ length (KBucket.nodes b2) = ksize rt2 ∧
    (0 < ksize rt2 → last (KBucket.replacement_nodes b2) = Some n)
}.

Lemma insert_pass rt n b :
  wf rt → id n ≠ id (node rt) →
  buckets rt !! bucket_index_for rt (long_id n) = Some b →
  ∃ b1 b2 added,
    buckets (replace_stale_if_full rt (bucket_index_for rt (long_id n)) n)
      !! bucket_index_for rt (long_id n) = Some b1 ∧
    KBucket.add_node b1 n = (b2, added) ∧
    inserted rt n b b2 added
      (with_buckets (replace_stale_if_full rt (bucket_index_for rt (long_id n)) n)
        (<[bucket_index_for rt (long_id n) := b2]>
          (buckets (replace_stale_if_full rt (bucket_index_for rt (long_id n)) n)))).
Proof.
  intros Hwf Hne Hb. set (idx := bucket_index_for rt (long_id n)) in *.
  pose proof (grown_replace_stale rt idx n Hwf) as Hg1.
  destruct (replace_stale_bucket rt idx n b Hwf Hb) as (b1 & Hb1 & Hr1).
  set (rt1 := replace_stale_if_full rt idx n) in *.
  destruct (KBucket.add_node b1 n) as [b2 added] eqn:Ha.
  pose proof (g_wf _ _ _ Hg1) as Hwf1. pose proof (wf_bucket _ _ _ Hwf1 Hb1) as Hbw1.
  assert (Hcov1 : KBucket.covers b1 (long_id n) = true).
  { apply covers_true. rewrite Hr1. apply covers_true.
    destruct (bucket_index_covers rt n Hwf) as (c & Hc & Hcc). unfold idx in Hb. congruence. }
  assert (Hne1 : id n ≠ id (node rt1)) by (by rewrite (g_node _ _ _ Hg1)).
  pose proof (grown_add_node rt1 idx b1 n b2 added Hwf1 Hne1 Hb1 Hcov1 Ha) as Hg2.
  pose proof (add_node_spec _ _ _ _ _ Hbw1 Ha) as [Hr2 Hspec].
  set (rt2 := with_buckets rt1 (<[idx := b2]> (buckets rt1))) in *.
  assert (Hb2 : buckets rt2 !! idx = Some b2).
  { simpl. apply list_lookup_insert_eq. by eapply lookup_lt_Some. }
  assert (Hcov2 : KBucket.covers b2 (long_id n) = true).
  { apply covers_true. rewrite Hr2. by apply covers_true. }
  exists b1, b2, added. split; [done|]. split; [done|]. split; try done.
  - by eapply grown_trans.
  - eapply bucket_index_eq; [apply (g_wf _ _ _ Hg2)|done|done].
  - congruence.
  - intros ->. by destruct Hspec.
  - intros ->. destruct Hspec as (-> & ? & ? & ?). done.
Qed.

Lemma settled_refused rt n b b2 rt2 :
  inserted rt n b b2 false rt2 →
  KBucket.covers b2 (long_id (node rt2)) || negb (KBucket.depth b2 mod 5 =? 0) = false →
  settled rt2 n (KBucket.head b2).
Proof.
  intros [_ Hb2 Hidx _ _ _ Href] Hcond. destruct (Href eq_refl) as (Hnot & Hfull & Hlast).
  apply orb_false_iff in Hcond as [Hc1 Hc2]. bool_facts.
  unfold settled, KBucket.head. destruct (KBucket.nodes b2) as [|m ms] eqn:Hns; cbn [hd_error].
  - intros H0. exfalso. simpl in Hfull. lia.
  - exists b2. rewrite Hidx. unfold KBucket.len. rewrite Hns.
    repeat (split; [done|]). split; [|done]. apply Hlast. rewrite <-Hfull. simpl. lia.
Qed.

Lemma insert_spec fuel now rt n j b :
  wf rt → id n ≠ id (node rt) →
  buckets rt !! bucket_index_for rt (long_id n) = Some b →
  ((KBucket.range b).2 - (KBucket.range b).1 < 2 ^ Z.of_nat j)%Z → j < fuel →
  ∃ rt' r, insert fuel now rt n = Some (rt', r) ∧ grown n rt rt' ∧ settled rt' n r.
Proof.
  revert rt j b. induction fuel as [|fuel IH]; intros rt j b Hwf Hne Hb Hsz Hj; [lia|].
  cbn [insert]. destruct (insert_pass rt n b Hwf Hne Hb) as (b1 & b2 & added & -> & Ha & Hin).
  cbn [mbind option_bind]. rewrite Ha. set (rt2 := with_buckets _ _) in *.
  set (idx := bucket_index_for rt (long_id n)) in *.
  pose proof Hin as [Hg Hb2 Hidx Hcov Hr Hadd Href]. pose proof (g_wf _ _ _ Hg) as Hwf2.
  destruct added.
  { exists rt2, None. split; [done|]. split; [done|]. intros _.
    exists b2. split; [by eapply list_elem_of_lookup_2|auto]. }
  destruct (_ || _) eqn:Hcond.
  2: { exists rt2, (KBucket.head b2). split; [done|]. split; [done|].
       by eapply settled_refused. }
  assert (Hlt : ((KBucket.range b2).1 < (KBucket.range b2).2)%Z).
  { apply (splittable_range (ksize rt2) b2 n (node rt2)); try done; [by eapply wf_bucket| |].
    - by rewrite (g_node _ _ _ Hg).
    - by destruct (Href eq_refl). }
  destruct j as [|j]; [rewrite Hr in Hlt; simpl in Hsz; lia|]. rewrite <-Hr in Hsz.
  destruct (split_bucket_halves now rt2 idx b2 n j Hwf2 Hb2 Hcov Hlt Hsz) as (b3 & Hb3 & Hsz3).
  pose proof (grown_split now rt2 idx b2 n Hwf2 Hb2 Hlt) as Hg3.
  destruct (IH (split_bucket now rt2 idx) j b3) as (rt' & r & Hins & Hg4 & Hset);
    [apply (g_wf _ _ _ Hg3)| |done|done|lia|].
  { by rewrite (g_node _ _ _ Hg3), (g_node _ _ _ Hg). }
  exists rt', r. split; [done|]. split; [|done].
  by eapply grown_trans; [|eapply grown_trans].
Qed.

(** ** Other operations keep the invariant *)

Lemma wf_touch rt i now : wf rt → wf (update_bucket rt i (KBucket.touch_last_updated now)).
Proof.
  intros Hwf. unfold update_bucket. destruct (buckets rt !! i) as [b|] eqn:Hb.
  - rewrite (alter_insert_lookup _ _ _ _ Hb).
    apply (wf_change rt i b _ (health rt)); try done.
    + apply bucket_wf_touch. by eapply wf_bucket.
    + apply (wf_self _ Hwf b). by eapply list_elem_of_lookup_2.
    + intros j Hj. by left.
  - assert (alter (KBucket.touch_last_updated now) i (buckets rt) = buckets rt) as ->.
    { apply list_eq. intros j. destruct (decide (i = j)) as [<-|Hne].
      - by rewrite list_lookup_alter_eq, Hb.
      - by rewrite list_lookup_alter_ne. }
    by destruct rt.
Qed.

Lemma wf_drop_replacement rt n b :
  wf rt → buckets rt !! bucket_index_for rt (long_id n) = Some b → KBucket.contains b n = false →
  wf (update_bucket rt (bucket_index_for rt (long_id n)) (λ b, KBucket.remove_node b n)).
Proof.
  intros Hwf Hb Hc%contains_false. unfold update_bucket. rewrite (alter_insert_lookup _ _ _ _ Hb).
  destruct (remove_node_spec (ksize rt) b n) as [Hb' [Hr Hall _ Hkeep]]; [by eapply wf_bucket|].
  apply (wf_change rt _ b _ (health rt)); try done.
  - rewrite Hall. intros [Hin _]. revert Hin. apply (wf_self _ Hwf). by eapply list_elem_of_lookup_2.
  - intros j Hj. left. split; [done|]. intros Hjb. apply Hkeep; [done|]. by intros ->.
Qed.

Lemma wf_insert_health rt n h :
  wf rt → primary_in (buckets rt) (id n) → wf (with_health rt (<[id n := h]> (health rt))).
Proof.
  intros [] Hp. split; try done. simpl. intros i [h' Hh]. rewrite lookup_insert in Hh.
  case_decide; [by subst|]. eauto.
Qed.

Lemma wf_record_failure_at jit rt n now : wf rt → wf (record_failure_at jit rt n now).
Proof.
  intros Hwf. unfold record_failure_at.
  destruct (bucket_index_covers rt n Hwf) as (b & Hb & _). rewrite Hb.
  destruct (KBucket.contains b n) eqn:Hc; simpl; [|by eapply wf_drop_replacement].
  apply contains_true in Hc. destruct (count_failure _ _ _) as [h|]; [|done].
  assert (wf (with_health rt (<[id n := h]> (health rt)))) as Hwf'.
  { apply wf_insert_health; [done|]. by apply (primary_in_bucket rt n b). }
  case_match; [by apply wf_remove_contact|done].
Qed.

Lemma wf_closest now rt target exclude keep : wf rt → wf (closest now rt target exclude keep).2.
Proof. apply wf_touch. Qed.

Lemma wf_add_contact now rt n :
  wf rt → ∃ rt' r, add_contact now rt n = Some (rt', r) ∧ grown n rt rt' ∧
    (id n ≠ id (node rt) → settled rt' n r) ∧ (id n = id (node rt) → r = None ∧ rt' = rt).
Proof.
  intros Hwf. unfold add_contact. case_bool_decide as E.
  { exists rt, None. split; [done|]. split; [by apply grown_refl|]. done. }
  destruct (bucket_index_covers rt n Hwf) as (b & Hb & _).
  assert (((KBucket.range b).2 - (KBucket.range b).1 < 2 ^ Z.of_nat 160)%Z) as Hsz.
  { pose proof (contiguous_bounds _ _ _ b (wf_part _ Hwf)
      (list_elem_of_lookup_2 _ _ _ Hb)) as [[? ?] ?]. unfold KEY_MAX in *. lia. }
  destruct (insert_spec INSERT_FUEL now rt n 160 b Hwf E Hb Hsz) as (rt' & r & Hi & Hg & Hs).
  { unfold INSERT_FUEL. lia. }
  exists rt', r. split; [done|]. split; [done|]. split; [done|]. done.
Qed.

(** ** The closest contacts *)

Lemma touch_primaries rt i now :
  primaries (update_bucket rt i (KBucket.touch_last_updated now)) = primaries rt.
Proof.
  unfold primaries, update_bucket. simpl. generalize (buckets rt) as bs.
  intros bs. revert i. induction bs as [|b bs IH]; intros [|i]; simpl; try done.
  f_equal. apply IH.
Qed.

Lemma primaries_nodup rt : wf rt → NoDup (ids (primaries rt)).
Proof.
  intros [Hc Hb _ _]. unfold primaries. revert Hc. generalize 0%Z.
  induction (buckets rt) as [|b bs IH]; intros lo Hc; simpl; [constructor|].
  apply Forall_cons in Hb as [Hwb Hb]. destruct Hc as (E & Hle & Hc).
  unfold ids in *. rewrite fmap_app, NoDup_app. split; [by apply (nodes_nodup (ksize rt))|].
  split; [|by eapply IH].
  intros i (n & -> & Hn)%list_elem_of_fmap (m & Em & Hm)%list_elem_of_fmap.
  apply list_elem_of_In, in_flat_map in Hm as (b' & Hb' & Hm).
  apply list_elem_of_In in Hb', Hm.
  pose proof (contiguous_lower _ _ _ _ Hc Hb') as Hlow.
  rewrite Forall_forall in Hb. specialize (Hb b' Hb').
  pose proof (bw_in_range _ _ Hwb) as Hr. pose proof (bw_in_range _ _ Hb) as Hr'.
  rewrite Forall_forall in Hr, Hr'.
  specialize (Hr n ltac:(apply elem_of_app; by left)).
  specialize (Hr' m ltac:(apply elem_of_app; by left)). unfold in_range in *.
  rewrite (long_id_of_id n m Em) in Hr. lia.
Qed.

(** The candidates a selection considers, and their distance to the target. *)
Definition candidates (rt : t) (target : Node) (exclude : option Node) (keep : Node → bool)
    : list Node :=
  filter (λ n, eligible target exclude keep n = true) (primaries rt).

Definition distance_from (target n : Node) : Z := distance_to n target.

Lemma closest_eq now rt target exclude keep :
  (closest now rt target exclude keep).1 =
  take (ksize rt) (sort_by_key (distance_from target) (candidates rt target exclude keep)).
Proof.
  unfold closest, candidates. cbn [fst]. rewrite touch_primaries. cbn [ksize update_bucket with_buckets].
  apply (take_sort_decorate (distance_from target)).
Qed.

Lemma closest_top_k now rt target exclude keep :
  wf rt →
  top_k (distance_from target) (ksize rt) (candidates rt target exclude keep)
    (closest now rt target exclude keep).1.
Proof.
  intros Hwf. rewrite closest_eq. apply take_sort_top_k.
  apply (NoDup_fmap_of_inj id).
  - intros x y. unfold distance_from. rewrite !(distance_to_sym _ target). apply distance_to_inj.
  - apply NoDup_fmap_filter. by apply primaries_nodup.
Qed.

Lemma touch_twice rt i now :
  update_bucket (update_bucket rt i (KBucket.touch_last_updated now)) i
    (KBucket.touch_last_updated now) = update_bucket rt i (KBucket.touch_last_updated now).
Proof.
  unfold update_bucket, with_buckets. simpl. f_equal. generalize (buckets rt) as bs. intros bs.
  revert i. induction bs as [|b bs IH]; intros [|i]; simpl; try done. f_equal. apply IH.
Qed.

Lemma touch_index rt i now x :
  bucket_index_for (update_bucket rt i (KBucket.touch_last_updated now)) x = bucket_index_for rt x.
Proof.
  unfold bucket_index_for, update_bucket. simpl.
  assert (H : ∀ bs i, fst <$> list_find (λ b, KBucket.covers b x = true)
      (alter (KBucket.touch_last_updated now) i bs) =
    fst <$> list_find (λ b, KBucket.covers b x = true) bs).
  { induction bs as [|b bs IH]; intros [|j]; simpl; try done.
    - change (KBucket.covers (KBucket.touch_last_updated now b) x) with (KBucket.covers b x).
      case_decide; [done|]. by destruct (list_find _ bs) as [[]|].
    - case_decide; [done|]. specialize (IH j). unfold alter in *.
      destruct (list_find _ (list_alter _ j bs)) as [[]|], (list_find _ bs) as [[]|];
        simplify_eq/=; done. }
  specialize (H (buckets rt) i). rewrite length_alter.
  destruct (list_find _ (alter _ _ _)) as [[]|], (list_find _ (buckets rt)) as [[]|];
    simplify_eq/=; done.
Qed.

Lemma closest_table now rt target exclude keep :
  (closest now rt target exclude keep).2 =
  update_bucket rt (bucket_index_for rt (long_id target)) (KBucket.touch_last_updated now).
Proof. done. Qed.

Lemma candidates_touch rt i now target exclude keep :
  candidates (update_bucket rt i (KBucket.touch_last_updated now)) target exclude keep =
  candidates rt target exclude keep.
Proof. unfold candidates. by rewrite touch_primaries. Qed.

Lemma closest_closest now rt target exclude keep keep' :
  closest now (closest now rt target exclude keep).2 target exclude keep' =
  closest now rt target exclude keep'.
Proof.
  rewrite (surjective_pairing (closest now _ target exclude keep')).
  rewrite (surjective_pairing (closest now rt target exclude keep')).
  rewrite !closest_eq, !closest_table, candidates_touch, touch_index, touch_twice. done.
Qed.

(** ** Histories of a table *)

Inductive op :=
  | AddContact (now : Z) (n : Node)
  | RemoveContact (n : Node)
  | RecordFailure (jit : Z → Z) (n : Node) (now : Z)
  | RecordSuccess (i : ident) (now : Z)
  | FindNeighbors (now : Z) (target : Node) (exclude : option Node)
  | Advertise (now : Z) (target : Node) (exclude : option Node)
  | SetMinLookupContacts (count : nat).

Definition apply_op (rt : t) (o : op) : option t :=
  match o with
  | AddContact now n => fst <$> add_contact now rt n
  | RemoveContact n => Some (remove_contact rt n)
  | RecordFailure jit n now => Some (record_failure_at jit rt n now)
  | RecordSuccess i now => Some (record_success rt i now).1
  | FindNeighbors now target exclude => Some (find_neighbors now rt target exclude).2
  | Advertise now target exclude => Some (find_neighbors_to_advertise now rt target exclude).2
  | SetMinLookupContacts c => Some (set_min_lookup_contacts rt c)
  end.

Fixpoint run (rt : t) (ops : list op) : option t :=
  match ops with
  | [] => Some rt
  | o :: ops' => rt' ← apply_op rt o; run rt' ops'
  end.

Lemma find_neighbors_cases now rt target exclude :
  ∃ keep, find_neighbors now rt target exclude = closest now rt target exclude keep.
Proof.
  unfold find_neighbors.
  destruct (closest now rt target exclude _) as [healthy rt1] eqn:E1.
  case_match; [rewrite <-E1; eauto|].
  replace rt1 with (closest now rt target exclude (λ n, negb (has_failures rt (id n)))).2
    by (by rewrite E1).
  rewrite closest_closest.
  destruct (closest now rt target exclude (λ n, negb (is_stale _ _))) as [ns rt2] eqn:E2.
  destruct ns as [|n ns]; [|rewrite <-E2; eauto].
  replace rt2 with (closest now rt target exclude (λ n, negb (is_stale
    (closest now rt target exclude (λ n, negb (has_failures rt (id n)))).2 (id n)))).2
    by (by rewrite E2).
  rewrite closest_closest. eauto.
Qed.

Lemma wf_find_neighbors now rt target exclude :
  wf rt → wf (find_neighbors now rt target exclude).2.
Proof.
  destruct (find_neighbors_cases now rt target exclude) as [keep ->]. apply wf_closest.
Qed.

Lemma table_wf_apply_op rt o : wf rt → ∃ rt', apply_op rt o = Some rt' ∧ wf rt'.
Proof.
  intros Hwf. destruct o; simpl; try (eexists; split; [reflexivity|]).
  - destruct (wf_add_contact now rt n Hwf) as (rt' & r & -> & Hg & _). simpl.
    exists rt'. split; [done|]. apply Hg.
  - by apply wf_remove_contact.
  - by apply wf_record_failure_at.
  - by apply (wf_record_success rt i now).
  - by apply (wf_find_neighbors now rt target exclude).
  - by apply (wf_closest now rt target exclude (λ n, negb (is_stale rt (id n)))).
  - by apply wf_set_min_lookup_contacts.
Qed.

Lemma table_wf_run rt ops : wf rt → ∃ rt', run rt ops = Some rt' ∧ wf rt'.
Proof.
  revert rt. induction ops as [|o ops IH]; intros rt Hwf; simpl; [eauto|].
  destruct (table_wf_apply_op rt o Hwf) as (rt' & -> & Hwf'). by apply IH.
Qed.
