(* ===== verification/RoutingSpec.v ===== *)
(** * What the routing table promises (src/src/routing.rs)

    The theorems of the table, over the invariant of RoutingProps, and the
    concrete tables that witness them. *)

From S2P Require Import Prelude Utils Node Routing BucketProps RoutingProps.

Import RoutingTable.

(** ** Auxiliary facts *)

Lemma elem_of_candidates rt target exclude keep n :
  n ∈ candidates rt target exclude keep ↔
  n ∈ primaries rt ∧ id n ≠ id target ∧ (∀ e, exclude = Some e → id n ≠ id e) ∧ keep n = true.
Proof.
  unfold candidates. rewrite list_elem_of_filter. unfold eligible.
  rewrite !andb_true_iff, negb_true_iff, bool_decide_eq_false.
  assert ((match exclude with Some e => negb (bool_decide (id n = id e)) | None => true end = true)
    ↔ ∀ e, exclude = Some e → id n ≠ id e) as ->; [|tauto].
  destruct exclude as [e|]; [|naive_solver].
  rewrite negb_true_iff, bool_decide_eq_false. naive_solver.
Qed.

Lemma length_closest now rt target exclude keep :
  length (closest now rt target exclude keep).1 =
  ksize rt `min` length (candidates rt target exclude keep).
Proof. by rewrite closest_eq, length_take, length_sort_by_key. Qed.

(** The contacts a lookup starts from: those without failures if there are
    enough, otherwise those not stale, otherwise all. *)
Definition lookup_candidates (rt : t) (target : Node) (exclude : option Node) : list Node :=
  let healthy := candidates rt target exclude (λ n, negb (has_failures rt (id n))) in
  let not_stale := candidates rt target exclude (λ n, negb (is_stale rt (id n))) in
  if min_lookup_contacts rt <=? ksize rt `min` length healthy then healthy
  else match not_stale with
       | [] => candidates rt target exclude (λ _, true)
       | _ => not_stale
       end.

Lemma is_stale_closest now rt target exclude keep i :
  is_stale (closest now rt target exclude keep).2 i = is_stale rt i.
Proof. done. Qed.

Lemma closest_top_k' now rt target exclude keep ns rt' :
  wf rt → closest now rt target exclude keep = (ns, rt') →
  top_k (distance_from target) (ksize rt) (candidates rt target exclude keep) ns.
Proof.
  intros Hwf E. pose proof (closest_top_k now rt target exclude keep Hwf) as H. by rewrite E in H.
Qed.

Lemma top_k_zero {A} (key : A → Z) l l' r : top_k key 0 l r → top_k key 0 l' r.
Proof.
  intros [Hs Hi Hl Hc]. simpl in Hl. apply nil_length_inv in Hl as ->.
  split; [constructor|apply list_subseteq_nil|done|].
  intros x y _ _ []%not_elem_of_nil.
Qed.

Lemma find_neighbors_top_k now rt target exclude :
  wf rt →
  top_k (distance_from target) (ksize rt) (lookup_candidates rt target exclude)
    (find_neighbors now rt target exclude).1.
Proof.
  intros Hwf. unfold find_neighbors, lookup_candidates.
  set (k1 := λ n, negb (has_failures rt (id n))). set (k2 := λ n, negb (is_stale rt (id n))).
  pose proof (length_closest now rt target exclude k1) as Hlen.
  destruct (closest now rt target exclude k1) as [healthy rt1] eqn:E1. simpl in Hlen.
  assert (min_lookup_contacts rt1 = min_lookup_contacts rt) as -> by
    (replace rt1 with (closest now rt target exclude k1).2 by (by rewrite E1); done).
  rewrite Hlen. case_match; [by eapply closest_top_k'|].
  replace rt1 with (closest now rt target exclude k1).2 by (by rewrite E1).
  rewrite closest_closest. change (λ n, negb (is_stale _ (id n))) with k2.
  pose proof (length_closest now rt target exclude k2) as Hlen2.
  destruct (closest now rt target exclude k2) as [ns rt2] eqn:E2. simpl in Hlen2.
  pose proof (closest_top_k' _ _ _ _ _ _ _ Hwf E2) as H2.
  destruct ns as [|n ns].
  - replace rt2 with (closest now rt target exclude k2).2 by (by rewrite E2).
    rewrite closest_closest.
    pose proof (closest_top_k now rt target exclude (λ _, true) Hwf) as H3.
    destruct (candidates rt target exclude k2) as [|c cs] eqn:Ec; [done|].
    destruct (ksize rt) as [|k] eqn:Ek; [|simpl in Hlen2; lia]. by eapply top_k_zero.
  - destruct (candidates rt target exclude k2) as [|c cs] eqn:Ec; [|done].
    simpl in Hlen2. lia.
Qed.

(** ** Theorems *)

(** C7: whatever contacts a node meets, loses, fails to reach and looks up,
    from an empty table and for any bucket size, every operation terminates
    (the splitting insertion needs at most one pass per bit of the key space
    and one) and leaves a table whose buckets partition the 160-bit key space
    in order, hold at most [ksize] primary and [5 * ksize] replacement contacts
    of distinct ids inside their range, use replacements only when full, never
    hold the local node, and record failures of primary contacts only. *)
Theorem table_invariant (now : Z) (n : Node) (k : nat) (ops : list op) :
  ∃ rt, run (new now n k) ops = Some rt ∧ wf rt.
Proof. apply table_wf_run, table_wf_new. Qed.

(** [bucket_index_for] finds the bucket that covers an id, and no other
    bucket of the table covers it. *)
Lemma one_bucket_per_id (rt : t) (n : Node) (Hwf : wf rt) :
  ∃ b, buckets rt !! bucket_index_for rt (long_id n) = Some b ∧
    KBucket.covers b (long_id n) = true ∧
    ∀ j b', buckets rt !! j = Some b' → KBucket.covers b' (long_id n) = true →
      j = bucket_index_for rt (long_id n).
Proof.
  destruct (bucket_index_covers rt n Hwf) as (b & Hb & Hc). exists b.
  split; [done|]. split; [done|]. intros j b' Hj Hcj.
  eapply contiguous_unique; [apply (wf_part _ Hwf)|..]; eauto.
Qed.

(** C24: adding a contact always returns. The local node is ignored; any other
    node is either a primary contact of the new table, or its bucket is full
    and may not be split (it is not on the local path and its depth is a
    multiple of five), the node is that bucket's newest replacement and the
    contact returned for a liveness check is its least recently seen one. In
    both cases no primary contact that is not stale has been lost, nobody else
    has entered, and the invariant holds. *)
Theorem add_contact_spec (now : Z) (rt : t) (n : Node) (Hwf : wf rt) :
  ∃ rt' r, add_contact now rt n = Some (rt', r) ∧ grown n rt rt' ∧
    (id n ≠ id (node rt) → settled rt' n r) ∧ (id n = id (node rt) → r = None ∧ rt' = rt).
Proof. by apply wf_add_contact. Qed.

(** C17: [find_neighbors] returns exactly the [ksize] contacts closest to the
    target, in ascending distance, of the contacts a lookup may start from:
    the healthy ones when there are at least [min_lookup_contacts] of them,
    otherwise those not stale when there is one, otherwise every primary
    contact; the target and the excluded node are never among them. *)
Theorem find_neighbors_spec (now : Z) (rt : t) (target : Node) (exclude : option Node)
    (Hwf : wf rt) :
  let r := (find_neighbors now rt target exclude).1 in
  top_k (distance_from target) (ksize rt) (lookup_candidates rt target exclude) r ∧
  ∀ n, n ∈ r → n ∈ primaries rt ∧ id n ≠ id target ∧ ∀ e, exclude = Some e → id n ≠ id e.
Proof.
  intros r. pose proof (find_neighbors_top_k now rt target exclude Hwf) as Ht.
  split; [done|]. intros n Hn. apply (top_k_incl _ _ _ _ Ht) in Hn. unfold lookup_candidates in Hn.
  assert (∃ keep, n ∈ candidates rt target exclude keep) as [keep Hk].
  { case_match; [eauto|].
    destruct (candidates rt target exclude (λ n, negb (is_stale rt (id n)))) eqn:Ec; [eauto|].
    rewrite <-Ec in Hn. eauto. }
  apply elem_of_candidates in Hk. tauto.
Qed.

(** A response never advertises a stale contact: the contacts advertised
    are exactly the [ksize] closest primary contacts that are neither stale,
    nor the target, nor the requester. *)
Lemma advertise_spec (now : Z) (rt : t) (target : Node) (exclude : option Node) (Hwf : wf rt) :
  let r := (find_neighbors_to_advertise now rt target exclude).1 in
  top_k (distance_from target) (ksize rt)
    (candidates rt target exclude (λ n, negb (is_stale rt (id n)))) r ∧
  ∀ n, n ∈ r → is_stale rt (id n) = false.
Proof.
  intros r. pose proof (closest_top_k now rt target exclude
    (λ n, negb (is_stale rt (id n))) Hwf) as Ht.
  split; [done|]. intros n Hn. apply (top_k_incl _ _ _ _ Ht), elem_of_candidates in Hn.
  by apply negb_true_iff, Hn.
Qed.

(** ** Failures *)

Lemma shiftl_1_pow d : (0 ≤ d)%Z → Z.shiftl 1 d = (2 ^ d)%Z.
Proof. intros. by rewrite Z.shiftl_1_l. Qed.

(** The delay of [backoff] before jitter. *)
Definition base_backoff (f : Z) : Z :=
  Z.min (BACKOFF_BASE * 2 ^ Z.min (Z.max 0 (f - 1)) 16)%Z BACKOFF_MAX.

Lemma backoff_eq jit f : backoff jit f = (base_backoff f + jit (base_backoff f))%Z.
Proof. unfold backoff, with_jitter, base_backoff. by rewrite shiftl_1_pow by lia. Qed.

Lemma base_backoff_range f : (BACKOFF_BASE ≤ base_backoff f ≤ BACKOFF_MAX)%Z.
Proof.
  unfold base_backoff, BACKOFF_BASE, BACKOFF_MAX, SECOND.
  pose proof (Z.pow_pos_nonneg 2 (Z.min (Z.max 0 (f - 1)) 16) ltac:(lia) ltac:(lia)). lia.
Qed.

Lemma base_backoff_mono f g : (f ≤ g)%Z → (base_backoff f ≤ base_backoff g)%Z.
Proof.
  intros Hfg. unfold base_backoff.
  pose proof (Z.pow_le_mono_r 2 (Z.min (Z.max 0 (f - 1)) 16) (Z.min (Z.max 0 (g - 1)) 16)
    ltac:(lia) ltac:(lia)).
  unfold BACKOFF_BASE, SECOND. lia.
Qed.

(** Drop [n] from the replacement list of its bucket: nobody knows it then. *)
Lemma forget_replacement rt n b :
  wf rt → buckets rt !! bucket_index_for rt (long_id n) = Some b → KBucket.contains b n = false →
  ¬ known_in (buckets (update_bucket rt (bucket_index_for rt (long_id n))
      (λ b, KBucket.remove_node b n))) (id n).
Proof.
  intros Hwf Hb Hc (c & Hin & Hn). apply (remove_contact_gone rt n Hwf). exists c. done.
Qed.

Lemma known_not_new rt n : wf rt → is_Some (health rt !! id n) → is_new_node rt n = false.
Proof.
  intros Hwf Hh. destruct (is_new_node rt n) eqn:E; [|done].
  pose proof (is_new_node_primary rt n Hwf) as Hp. rewrite E in Hp.
  pose proof (wf_health _ Hwf _ Hh). naive_solver.
Qed.

(** What a failure does to the health of a primary contact: the failure count
    and the first failure of the entry it had, or of a fresh one. *)
Definition failures_before (rt : t) (i : ident) (now : Z) : Z * Z :=
  match health rt !! i with
  | Some h => (failures h, first_failure h)
  | None => (0, now)%Z
  end.

(** The waiting time after a failure doubles from 5 s to at most 300 s
    before jitter, never shrinks when failures accumulate, and with a jitter of
    at most a quarter stays between 5 s and 375 s. *)
Lemma backoff_bounds (jit : Z → Z) (f g : Z)
    (Hjit : ∀ d, (0 ≤ d)%Z → (0 ≤ jit d ≤ d `div` 4)%Z) (Hfg : (1 ≤ f ≤ g)%Z) :
  (5 * SECOND ≤ backoff jit f ≤ 375 * SECOND)%Z ∧
  ((f ≤ 6)%Z → (5 * 2 ^ (f - 1) * SECOND ≤ backoff jit f)%Z) ∧
  (backoff (λ _, 0%Z) f ≤ backoff (λ _, 0%Z) g)%Z ∧
  ((7 ≤ f)%Z → backoff (λ _, 0%Z) f = BACKOFF_MAX).
Proof.
  rewrite !backoff_eq. pose proof (base_backoff_range f) as Hr.
  assert (0 ≤ jit (base_backoff f) ≤ base_backoff f `div` 4)%Z as Hj.
  { apply Hjit. unfold BACKOFF_BASE, SECOND in Hr. lia. }
  pose proof (base_backoff_mono f g ltac:(lia)).
  assert (base_backoff f `div` 4 ≤ BACKOFF_MAX `div` 4)%Z as Hq by (apply Z.div_le_mono; lia).
  change (BACKOFF_MAX `div` 4)%Z with (75 * SECOND)%Z in Hq.
  unfold BACKOFF_BASE, BACKOFF_MAX in *. unfold SECOND in *.
  split; [lia|]. split; [|split; [lia|]].
  - intros Hf. assert (5 * 2 ^ (f - 1) * 1000000000 ≤ base_backoff f)%Z; [|lia].
    unfold base_backoff, BACKOFF_BASE, BACKOFF_MAX, SECOND.
    replace (Z.min (Z.max 0 (f - 1)) 16) with (f - 1)%Z by lia.
    pose proof (Z.pow_le_mono_r 2 (f - 1) 5 ltac:(lia) ltac:(lia)). lia.
  - intros Hf. unfold base_backoff, BACKOFF_BASE, BACKOFF_MAX, SECOND.
    pose proof (Z.pow_le_mono_r 2 6 (Z.min (Z.max 0 (f - 1)) 16) ltac:(lia) ltac:(lia)). lia.
Qed.

(** A failed request to a node that is no primary contact only drops it
    from the replacements; to a primary contact still inside its backoff window
    it changes nothing; otherwise it adds one failure and opens the next
    window, and a contact that reaches five failures is evicted exactly when
    its bucket has a replacement for it. *)
Lemma record_failure_spec (jit : Z → Z) (rt : t) (n : Node) (now : Z) (Hwf : wf rt) :
  let rt' := record_failure_at jit rt n now in
  let '(c, first) := failures_before rt (id n) now in
  let h' := mkHealth (c + 1) first (now + backoff jit (c + 1)) in
  (is_new_node rt n = true → ¬ known_in (buckets rt') (id n) ∧ health rt' = health rt) ∧
  ((∃ h, health rt !! id n = Some h ∧ (now < retry_after h)%Z) → rt' = rt) ∧
  (is_new_node rt n = false → (∀ h, health rt !! id n = Some h → (retry_after h ≤ now)%Z) →
   ∃ b, buckets rt !! bucket_index_for rt (long_id n) = Some b ∧
     if (STALE_AFTER_FAILURES <=? c + 1)%Z && KBucket.has_replacement b
     then ¬ known_in (buckets rt') (id n) ∧ health rt' = delete (id n) (health rt)
     else rt' = with_health rt (<[id n := h']> (health rt))).
Proof.
  intros rt'. destruct (failures_before rt (id n) now) as [c first] eqn:Ef. intros h'.
  pose proof (known_not_new rt n Hwf) as Hold.
  subst rt'. unfold record_failure_at, is_new_node in *.
  destruct (bucket_index_covers rt n Hwf) as (b & Hb & _). rewrite Hb in *.
  unfold failures_before in Ef. split; [|split].
  - intros Hc%negb_true_iff. rewrite Hc. split; [by eapply forget_replacement|done].
  - intros (h & Hh & Hlt). rewrite (Hold ltac:(eauto)), Hh. simpl.
    by rewrite (proj2 (Z.ltb_lt _ _)) by done.
  - intros Hc%negb_false_iff Hdue. exists b. split; [done|]. rewrite Hc. cbn [negb].
    assert (count_failure jit (health rt !! id n) now = Some h') as ->.
    { unfold count_failure. destruct (health rt !! id n) as [h|]; simplify_eq; [|done].
      by rewrite (proj2 (Z.ltb_ge _ _)) by (by apply Hdue). }
    change (failures h') with (c + 1)%Z. clear Ef. case_match; [|done]. split.
    + apply (remove_contact_gone (with_health rt _)). apply wf_insert_health; [done|].
      apply (primary_in_bucket rt n b); [done..|]. by apply contains_true.
    + simpl. by rewrite delete_insert_eq.
Qed.

(** A removed contact is gone from the table, with its failures; every
    other primary contact stays, nobody enters, and when the contact was
    primary the newest replacement of its bucket is promoted. *)
Lemma remove_contact_spec (rt : t) (n : Node) (Hwf : wf rt) :
  let rt' := remove_contact rt n in
  wf rt' ∧ ¬ known_in (buckets rt') (id n) ∧ has_failures rt' (id n) = false ∧
  (∀ i, known_in (buckets rt') i → known_in (buckets rt) i) ∧
  (∀ i, i ≠ id n → primary_in (buckets rt) i → primary_in (buckets rt') i) ∧
  (∀ b rs r, buckets rt !! bucket_index_for rt (long_id n) = Some b →
     KBucket.contains b n = true → KBucket.replacement_nodes b = rs ++ [r] →
     primary_in (buckets rt') (id r)).
Proof.
  intros rt'. split; [by apply wf_remove_contact|]. split; [by apply remove_contact_gone|].
  split.
  { unfold has_failures, rt'. apply bool_decide_eq_false. simpl. rewrite lookup_delete_eq.
    by intros []. }
  split; [by intros i; apply remove_contact_known|].
  split; [by intros i Hne; apply remove_contact_keeps|].
  intros b rs r Hb Hc Hr. unfold rt'. rewrite (remove_contact_eq _ _ _ Hb). simpl.
  eexists. split; [by eapply list_elem_of_lookup_2, list_lookup_insert_eq, lookup_lt_Some|].
  pose proof (bw_nodup _ _ (wf_bucket _ _ _ Hwf Hb)) as Hnd.
  apply contains_true in Hc. unfold KBucket.remove_node.
  destruct (KBucket.position n (KBucket.nodes b)) as [pos|] eqn:Hp;
    [|by apply position_None in Hp].
  rewrite (list_filter_all (λ m, id m ≠ id n)).
  2: { apply Forall_forall. intros m Hm E. unfold ids in Hnd. rewrite fmap_app, NoDup_app in Hnd.
       destruct Hnd as (_ & Hd & _). apply (Hd (id n)); [done|]. rewrite <-E.
       by apply list_elem_of_fmap_2. }
  rewrite Hr, (proj2 (pop_back_Some _ r rs)) by done. simpl. unfold ids.
  rewrite fmap_app. apply elem_of_app. right. simpl. by apply list_elem_of_singleton.
Qed.

(** ** Concrete tables *)

(** A table of buckets of two that has met four peers of the upper half of the
    key space, then failed to reach the first of them. *)
Definition example_self : Node := Node_from_id (ident_ends x00 x00).
Definition example_peer (first last : byte) : Node :=
  Node_new (ident_ends first last) (Some "10.0.0.1"%string) (Some 4000%Z).
Definition example_history : list op :=
  [AddContact 0 (example_peer x80 x01); AddContact 1 (example_peer x84 x01);
   AddContact 2 (example_peer x90 x01); AddContact 3 (example_peer x01 x01);
   RecordFailure (λ _, 0%Z) (example_peer x80 x01) 4].
Definition example_table : t := default (new 0 example_self 2) (run (new 0 example_self 2) example_history).

Lemma example_table_wf : wf example_table.
Proof.
  unfold example_table.
  destruct (table_wf_run (new 0 example_self 2) example_history (table_wf_new _ _ _))
    as (rt & -> & Hwf).
  exact Hwf.
Defined.

(** The history ends: the table is not the default one. *)
Example example_table_contacts :
  length (primaries example_table) = 3 ∧ has_failures example_table (ident_ends x80 x01) = true ∧
  length (buckets example_table) = 2 ∧
  (KBucket.replacement_nodes <$> buckets example_table !! 1) = Some [example_peer x90 x01].
Proof. repeat split. Qed.

Lemma add_contact_spec_witness :
  ∃ rt' r, add_contact 5 example_table (example_peer x88 x01) = Some (rt', r) ∧
    grown (example_peer x88 x01) example_table rt' ∧
    (id (example_peer x88 x01) ≠ id (node example_table) → settled rt' (example_peer x88 x01) r) ∧
    (id (example_peer x88 x01) = id (node example_table) → r = None ∧ rt' = example_table).
Proof. exact (add_contact_spec 5 example_table (example_peer x88 x01) example_table_wf). Defined.

Lemma find_neighbors_spec_witness :
  let r := (find_neighbors 5 example_table (example_peer x82 x01) None).1 in
  top_k (distance_from (example_peer x82 x01)) 2
    (lookup_candidates example_table (example_peer x82 x01) None) r ∧
  ∀ n, n ∈ r → n ∈ primaries example_table ∧ id n ≠ id (example_peer x82 x01) ∧
    ∀ e, None = Some e → id n ≠ id e.
Proof. exact (find_neighbors_spec 5 example_table (example_peer x82 x01) None example_table_wf). Defined.

