(* ===== verification/Topology.v ===== *)
(** * The checks of a cluster (src/examples/topology_analysis.rs)

    The example starts a cluster, publishes records, and inspects its nodes: the
    structure of the buckets, the neighbours found locally, the number and the
    place of the copies. The checks read routing tables and stores; their
    output, latencies and the floating-point averages are left out. *)

From S2P Require Import Prelude Utils Node Routing BucketProps RoutingProps RoutingSpec.

Import RoutingTable.

(** ** Reports *)

Inductive CheckStatus := Pass | Warn | Fail_.

Record ReplicationReport := mkReplication {
  rr_records : nat; zero_copies : nat; under_replicated : nat; exact_replicas : nat;
  over_replicated : nat; min_copies : nat; max_copies : nat
}.

Record PlacementReport := mkPlacement {
  pr_records : nat; full : nat; partial : nat; none : nat; with_extras : nat
}.

Record LocalTopKReport := mkTopK { queries : nat; mismatches : nat }.

Record BucketReport := mkBuckets {
  br_nodes : nat; br_buckets : nat; br_peers : nat; violations : nat
}.

(** [report.x += 1] under a condition. *)
Definition incr (b : bool) (n : nat) : nat := if b then S n else n.

(** ** The structure of the buckets *)

Definition keyspace_max : Z := Z.shiftl 1 160 - 1.

(** The checks of a primary contact: the ids seen, and the violations. *)
Definition check_peer (own : ident) (b : KBucket.t) (st : gset ident * nat) (peer : Node) : gset ident * nat :=
  let '(seen, v) := st in
  let v := incr (negb (KBucket.covers b (long_id peer))) v in
  let v := incr (bool_decide (id peer = own)) v in
  let v := incr (bool_decide (id peer ∈ seen)) v in
  ({[id peer]} ∪ seen, v).

(** The checks of a bucket: the start expected of the next one, too. *)
Definition check_bucket (k : nat) (own : ident) (st : Z * gset ident * nat) (b : KBucket.t)
    : Z * gset ident * nat :=
  let '(expected_start, seen, v) := st in
  let '(lo, hi) := KBucket.range b in
  let v := incr (negb (lo =? expected_start)%Z) v in
  let v := incr (hi <? lo)%Z v in
  let v := incr (k <? KBucket.len b) v in
  let '(seen, v) := foldl (check_peer own b) (seen, v) (KBucket.nodes b) in
  ((if (hi <? keyspace_max)%Z then hi + 1 else expected_start)%Z, seen, v).

(** The violations of a routing table. *)
Definition check_table (k : nat) (rt : t) : nat :=
  match last (buckets rt) with
  | None => 1
  | Some b =>
      let '(_, _, v) := foldl (check_bucket k (id (node rt))) (0%Z, ∅, 0) (buckets rt) in
      incr (negb ((KBucket.range b).2 =? keyspace_max)%Z) v
  end.

(** [inspect_bucket_structure]; [None] is a node that is not started. *)
Definition inspect_node (k : nat) (r : BucketReport) (router : option t) : BucketReport :=
  match router with
  | None => mkBuckets (br_nodes r) (br_buckets r) (br_peers r) (S (violations r))
  | Some rt =>
      mkBuckets (S (br_nodes r)) (br_buckets r + length (buckets rt))
        (br_peers r + foldr Nat.add 0 (KBucket.len <$> buckets rt)) (violations r + check_table k rt)
  end.

Definition inspect_bucket_structure (k : nat) (routers : list (option t)) : BucketReport :=
  foldl (inspect_node k) (mkBuckets 0 0 0 0) routers.

(** ** Local neighbours *)

(** The [ksize] closest of all primary contacts, by exhaustion. *)
Definition expected_neighbors (k : nat) (rt : t) (target : Node) : list Node :=
  take k (snd <$> sort_by_key fst ((λ p, (distance_to p target, p)) <$>
    filter (λ p, id p ≠ id target) (primaries rt))).

(** The queries to one node. The clock is read at each. *)
Definition check_target (k : nat) (st : t * LocalTopKReport) (q : Z * Node) : t * LocalTopKReport :=
  let '(rt, r) := st in
  let expected := expected_neighbors k rt q.2 in
  let '(actual, rt') := find_neighbors q.1 rt q.2 None in
  (rt', mkTopK (S (queries r)) (incr (negb (bool_decide (ids actual = ids expected))) (mismatches r))).

Definition check_router (k : nat) (targets : list (Z * Node)) (r : LocalTopKReport) (router : option t)
    : LocalTopKReport :=
  match router with
  | None => r
  | Some rt => (foldl (check_target k) (rt, r) targets).2
  end.

(** [verify_local_top_k]. *)
Definition verify_local_top_k (k : nat) (routers : list (option t)) (targets : list (Z * Node)) : LocalTopKReport :=
  foldl (check_router k targets) (mkTopK 0 0) routers.

(** ** Copies *)

(** [collect_storage_layout]: the ports of the holders of each key, from the keys
    each node stores. Keys are bytes here, their hexadecimal text there. *)
Definition collect_storage_layout (nodes : list (list bytes * Z)) : gmap bytes (list Z) :=
  foldl (λ m e, foldl (λ m key, partial_alter (λ o, Some (default [] o ++ [e.2])) key m) m e.1) ∅ nodes.

(** [print_replication_summary], without the distribution it prints; [usize_max]
    is [usize::MAX]. *)
Definition count_copies (k : nat) (holders : gmap bytes (list Z)) (r : ReplicationReport) (key : bytes)
    : ReplicationReport :=
  let copies := length (default [] (holders !! key)) in
  mkReplication (rr_records r)
    (incr ((copies <? k) && (copies =? 0)) (zero_copies r)) (incr (copies <? k) (under_replicated r))
    (incr (copies =? k) (exact_replicas r)) (incr (k <? copies) (over_replicated r))
    (min_copies r `min` copies) (max_copies r `max` copies).

Definition replication_summary (usize_max k : nat) (holders : gmap bytes (list Z)) (keys : list bytes)
    : ReplicationReport :=
  let r := foldl (count_copies k holders) (mkReplication (length keys) 0 0 0 0 usize_max 0) keys in
  if length keys =? 0 then mkReplication (rr_records r) (zero_copies r) (under_replicated r)
    (exact_replicas r) (over_replicated r) 0 (max_copies r)
  else r.

(** The ports of the [ksize] nodes closest to a key. *)
Definition closest_ports (k : nat) (node_ids : list (ident * Z)) (dkey : ident) : list Z :=
  let target := Node_from_id dkey in
  take k (snd <$> sort_by_key fst ((λ e, (distance_to (Node_from_id e.1) target, e.2)) <$> node_ids)).

(** [verify_global_replica_placement]. *)
Definition check_placement (k : nat) (node_ids : list (ident * Z)) (holders : gmap bytes (list Z))
    (r : PlacementReport) (dkey : ident) : PlacementReport :=
  let held := default [] (holders !! ident_bytes dkey) in
  let closest := closest_ports k node_ids dkey in
  let holding := filter (λ p, p ∈ held) closest in
  let missing := filter (λ p, p ∉ held) closest in
  let extras := filter (λ p, p ∉ closest) held in
  let all := bool_decide (missing = []) in
  let nobody := negb all && bool_decide (holding = []) in
  mkPlacement (pr_records r) (incr all (full r)) (incr (negb all && negb (bool_decide (holding = []))) (partial r))
    (incr nobody (none r)) (incr (negb (bool_decide (extras = []))) (with_extras r)).

Definition verify_global_replica_placement (k : nat) (node_ids : list (ident * Z))
    (holders : gmap bytes (list Z)) (keys : list ident) : PlacementReport :=
  foldl (check_placement k node_ids holders) (mkPlacement (length keys) 0 0 0 0) keys.

(** ** The final table *)

Definition replication_status (r : ReplicationReport) : CheckStatus :=
  if 0 <? zero_copies r then Fail_
  else if (0 <? under_replicated r) || (0 <? over_replicated r) then Warn else Pass.
Definition placement_status (r : PlacementReport) : CheckStatus :=
  if 0 <? none r then Fail_
  else if (0 <? partial r) || (0 <? with_extras r) then Warn else Pass.
Definition bucket_status (r : BucketReport) : CheckStatus := if violations r =? 0 then Pass else Fail_.
Definition local_top_k_status (r : LocalTopKReport) : CheckStatus := if mismatches r =? 0 then Pass else Fail_.

(** ** Facts on the checks *)

Lemma keyspace_max_eq : keyspace_max = KEY_MAX.
Proof. reflexivity. Qed.

Lemma incr_le b n : n ≤ incr b n.
Proof. destruct b; simpl; lia. Qed.

Lemma incr_eq b n m : m ≤ n → incr b n = m ↔ b = false ∧ n = m.
Proof. destruct b; simpl; naive_solver lia. Qed.

(** What the contacts of a bucket are checked for, given the ids seen before. *)
Record peers_ok (own : ident) (b : KBucket.t) (seen : gset ident) (l : list Node) : Prop := {
  po_covered : Forall (λ p, KBucket.covers b (long_id p) = true) l;
  po_not_own : own ∉ ids l;
  po_nodup : NoDup (ids l);
  po_new : ∀ i, i ∈ ids l → i ∉ seen
}.

Lemma peers_ok_cons own b seen p l :
  peers_ok own b seen (p :: l) ↔
  KBucket.covers b (long_id p) = true ∧ id p ≠ own ∧ id p ∉ seen ∧ peers_ok own b ({[id p]} ∪ seen) l.
Proof.
  split.
  - intros [Hc Ho Hn Hs]. unfold ids in *. simpl in *. apply Forall_cons in Hc as [Hc Hl].
    apply not_elem_of_cons in Ho as [Ho Hol]. apply NoDup_cons in Hn as [Hp Hn].
    split_and!; [done|done|apply Hs; left|]. split; [done..|]. intros i Hi Hin.
    apply elem_of_union in Hin as [->%elem_of_singleton|Hin]; [done|]. apply (Hs i); [by right|done].
  - intros (Hc & Ho & Hs & [Hl Hol Hn Hsl]). unfold ids in *. split; simpl.
    + by constructor.
    + apply not_elem_of_cons. split; [done|done].
    + constructor; [|done]. intros Hp. apply (Hsl _ Hp). set_solver.
    + intros i [->|Hi]%elem_of_cons; [done|]. intros Hin. apply (Hsl i Hi). set_solver.
Qed.

Lemma check_peers own b seen v l :
  let '(seen', v') := foldl (check_peer own b) (seen, v) l in
  v ≤ v' ∧ seen' = seen ∪ list_to_set (ids l) ∧ (v' = v ↔ peers_ok own b seen l).
Proof.
  revert seen v. induction l as [|p l IH]; intros seen v; simpl.
  - split_and!; [done|set_solver|]. split; [|done]. intros _.
    split; [constructor|apply not_elem_of_nil|constructor|]. intros i Hi. by apply elem_of_nil in Hi.
  - set (v1 := incr (negb (KBucket.covers b (long_id p))) v).
    set (v2 := incr (bool_decide (id p = own)) v1). set (v3 := incr (bool_decide (id p ∈ seen)) v2).
    specialize (IH ({[id p]} ∪ seen) v3). destruct (foldl _ _ l) as [seen' v'].
    destruct IH as (Hle & -> & Hiff). pose proof (incr_le (negb (KBucket.covers b (long_id p))) v).
    pose proof (incr_le (bool_decide (id p = own)) v1). pose proof (incr_le (bool_decide (id p ∈ seen)) v2).
    fold v1 in H. fold v2 in H0. fold v3 in H1. split_and!; [lia|set_solver|].
    rewrite peers_ok_cons, <- Hiff. split.
    + intros ->. assert (v3 = v) as E3 by lia. unfold v3 in E3. apply incr_eq in E3 as [Hs E2]; [|lia].
      unfold v2 in E2. apply incr_eq in E2 as [Ho E1]; [|lia]. unfold v1 in E1. apply incr_eq in E1 as [Hc _]; [|lia].
      apply negb_false_iff in Hc. apply bool_decide_eq_false in Hs, Ho. split_and!; [done..|lia].
    + intros (Hc & Ho & Hs & ->). unfold v3, v2, v1. rewrite Hc, !bool_decide_eq_false_2 by done. done.
Qed.

(** What the buckets are checked for. *)
Fixpoint buckets_ok (k : nat) (own : ident) (start : Z) (seen : gset ident) (bs : list KBucket.t) : Prop :=
  match bs with
  | [] => True
  | b :: bs' =>
      let '(lo, hi) := KBucket.range b in
      lo = start ∧ (lo ≤ hi)%Z ∧ KBucket.len b ≤ k ∧ peers_ok own b seen (KBucket.nodes b) ∧
      buckets_ok k own (if (hi <? keyspace_max)%Z then hi + 1 else start)%Z
        (seen ∪ list_to_set (ids (KBucket.nodes b))) bs'
  end.

Lemma check_buckets k own start seen v bs :
  let '(_, _, v') := foldl (check_bucket k own) (start, seen, v) bs in
  v ≤ v' ∧ (v' = v ↔ buckets_ok k own start seen bs).
Proof.
  revert start seen v. induction bs as [|b bs IH]; intros start seen v; simpl; [done|].
  destruct (KBucket.range b) as [lo hi]. set (v1 := incr (negb (lo =? start)%Z) v).
  set (v2 := incr (hi <? lo)%Z v1). set (v3 := incr (k <? KBucket.len b) v2).
  pose proof (check_peers own b seen v3 (KBucket.nodes b)) as Hp.
  destruct (foldl (check_peer own b) (seen, v3) (KBucket.nodes b)) as [seen1 v4]. destruct Hp as (Hle4 & -> & Hpeers).
  specialize (IH (if (hi <? keyspace_max)%Z then hi + 1 else start)%Z (seen ∪ list_to_set (ids (KBucket.nodes b))) v4).
  destruct (foldl _ _ bs) as [[start' seen'] v']. destruct IH as [Hle Hiff].
  pose proof (incr_le (negb (lo =? start)%Z) v) as L1. pose proof (incr_le (hi <? lo)%Z v1) as L2.
  pose proof (incr_le (k <? KBucket.len b) v2) as L3. fold v1 in L1. fold v2 in L2. fold v3 in L3.
  split; [lia|]. rewrite <- Hiff, <- Hpeers. split.
  - intros ->. assert (v3 = v) as E3 by lia. unfold v3 in E3. apply incr_eq in E3 as [Hk E2]; [|lia].
    unfold v2 in E2. apply incr_eq in E2 as [Hlo E1]; [|lia]. unfold v1 in E1. apply incr_eq in E1 as [Hs _]; [|lia].
    apply negb_false_iff, Z.eqb_eq in Hs. apply Z.ltb_ge in Hlo. apply Nat.ltb_ge in Hk. split_and!; lia.
  - intros (-> & Hlo & Hk & E4 & ->). rewrite E4. unfold v3, v2, v1.
    rewrite Z.eqb_refl, (proj2 (Z.ltb_ge _ _) Hlo), (proj2 (Nat.ltb_ge _ _) Hk). done.
Qed.

Lemma check_table_zero k rt :
  check_table k rt = 0 ↔
  buckets_ok k (id (node rt)) 0 ∅ (buckets rt) ∧
  ∃ b, last (buckets rt) = Some b ∧ (KBucket.range b).2 = keyspace_max.
Proof.
  unfold check_table. destruct (last (buckets rt)) as [b|]; [|naive_solver].
  pose proof (check_buckets k (id (node rt)) 0 ∅ 0 (buckets rt)) as Hc.
  destruct (foldl _ _ _) as [[start seen] v]. destruct Hc as [_ Hiff].
  rewrite incr_eq by lia. rewrite negb_false_iff, Z.eqb_eq, Hiff. naive_solver.
Qed.

(** *** Well-formed tables pass *)

Lemma contiguous_buckets_ok k own start seen bs :
  contiguous start bs KEY_MAX → Forall (bucket_wf k) bs → own ∉ ids (flat_map KBucket.nodes bs) →
  NoDup (ids (flat_map KBucket.nodes bs)) → (∀ i, i ∈ ids (flat_map KBucket.nodes bs) → i ∉ seen) →
  buckets_ok k own start seen bs.
Proof.
  revert start seen. induction bs as [|b bs IH]; intros start seen Hc Hwf Ho Hnd Hs; simpl; [done|].
  simpl in Hc. destruct (KBucket.range b) as [lo hi] eqn:Er. destruct Hc as (El & Hle & Hc). simpl in *.
  apply Forall_cons in Hwf as [Hb Hwf]. unfold ids in *. rewrite fmap_app in *.
  apply NoDup_app in Hnd as (Hnd1 & Hdis & Hnd2). rewrite not_elem_of_app in Ho. destruct Ho as [Ho1 Ho2].
  split_and!; [done|lia|apply (bw_len _ _ Hb)| |].
  - split; [|done|done|].
    + apply Forall_forall. intros p Hp. apply covers_true.
      pose proof (bw_in_range _ _ Hb) as Hr. rewrite Forall_forall in Hr.
      apply (Hr p). apply elem_of_app. by left.
    + intros i Hi. apply Hs, elem_of_app. by left.
  - destruct bs as [|b' bs]; [done|].
    assert (hi < keyspace_max)%Z as Hlt.
    { destruct Hc as (E' & Hle' & Hc%contiguous_le). rewrite keyspace_max_eq. lia. }
    rewrite (proj2 (Z.ltb_lt _ _) Hlt). apply IH; try done.
    intros i Hi [Hin|Hin%elem_of_list_to_set]%elem_of_union.
    + apply (Hs i); [apply elem_of_app; by right|done].
    + by apply (Hdis i).
Qed.

Lemma contiguous_last start bs hi b :
  contiguous start bs hi → last bs = Some b → (KBucket.range b).2 = hi.
Proof.
  revert start. induction bs as [|c bs IH]; intros start Hc Hl; [done|].
  destruct Hc as (_ & _ & Hc). destruct bs as [|c' bs].
  - simpl in Hc. injection Hl as <-. lia.
  - by apply (IH _ Hc).
Qed.

Lemma wf_table_passes rt : wf rt → check_table (ksize rt) rt = 0.
Proof.
  intros Hwf. apply check_table_zero. split.
  - apply contiguous_buckets_ok; [apply (wf_part _ Hwf)|apply (wf_buckets _ Hwf)| |by apply primaries_nodup|].
    + fold (primaries rt). rewrite primaries_ids. intros (b & Hb & Hi).
      apply (wf_self _ Hwf b Hb). unfold all_ids, ids in *. rewrite fmap_app. apply elem_of_app. by left.
    + intros i _. set_solver.
  - destruct (last (buckets rt)) as [b|] eqn:El.
    + exists b. split; [done|]. rewrite keyspace_max_eq. by apply (contiguous_last _ _ _ _ (wf_part _ Hwf)).
    + apply last_None in El. pose proof (wf_part _ Hwf) as Hc. rewrite El in Hc. by simpl in Hc.
Qed.

(** *** What passing means *)

Lemma buckets_ok_contiguous k own start seen bs b :
  buckets_ok k own start seen bs → last bs = Some b → (KBucket.range b).2 = keyspace_max →
  Forall (λ c, (KBucket.range c).2 < keyspace_max)%Z (take (length bs - 1) bs) →
  contiguous start bs KEY_MAX.
Proof.
  revert start seen. induction bs as [|c bs IH]; intros start seen Hok Hl He Hi; [done|].
  simpl in Hok |- *. destruct (KBucket.range c) as [lo hi] eqn:Er. destruct Hok as (-> & Hle & _ & _ & Hok).
  simpl. split_and!; [done|done|]. destruct bs as [|c' bs].
  - injection Hl as ->. rewrite Er in He. simpl in *. rewrite He, keyspace_max_eq. done.
  - replace (length (c :: c' :: bs) - 1) with (S (length (c' :: bs) - 1)) in Hi by (simpl; lia).
    simpl take in Hi. apply Forall_cons in Hi as [Hc Hi]. rewrite Er in Hc. simpl in Hc.
    rewrite (proj2 (Z.ltb_lt _ _) Hc) in Hok. eapply IH; try done.
Qed.

Lemma buckets_ok_peers k own start seen bs :
  buckets_ok k own start seen bs →
  Forall (λ b, KBucket.len b ≤ k ∧ Forall (λ p, KBucket.covers b (long_id p) = true) (KBucket.nodes b)) bs ∧
  own ∉ ids (flat_map KBucket.nodes bs) ∧ NoDup (ids (flat_map KBucket.nodes bs)) ∧
  ∀ i, i ∈ ids (flat_map KBucket.nodes bs) → i ∉ seen.
Proof.
  revert start seen. induction bs as [|b bs IH]; intros start seen Hok; simpl in *.
  { split_and!; [constructor|apply not_elem_of_nil|constructor|]. intros i Hi. by apply elem_of_nil in Hi. }
  destruct (KBucket.range b) as [lo hi]. destruct Hok as (_ & _ & Hk & [Hc Ho Hn Hs] & Hok).
  apply IH in Hok as (Hf & Ho' & Hn' & Hs'). unfold ids in *. rewrite fmap_app, not_elem_of_app, NoDup_app.
  split_and!; [by constructor|done|done|done| |done|].
  - intros i Hi Hi'. apply (Hs' i Hi'), elem_of_union_r. by apply elem_of_list_to_set.
  - intros i [Hi|Hi]%elem_of_app; [by apply Hs|]. intros Hin. apply (Hs' i Hi). by apply elem_of_union_l.
Qed.

(** A table without violations whose buckets but the last end before the last
    key is a partition, with at most [k] contacts of its range in each bucket,
    all distinct and none the local node. *)
Lemma passing_table k rt :
  check_table k rt = 0 →
  Forall (λ b, (KBucket.range b).2 < keyspace_max)%Z (take (length (buckets rt) - 1) (buckets rt)) →
  contiguous 0 (buckets rt) KEY_MAX ∧ NoDup (ids (primaries rt)) ∧ id (node rt) ∉ ids (primaries rt) ∧
  Forall (λ b, KBucket.len b ≤ k ∧ Forall (λ p, KBucket.covers b (long_id p) = true) (KBucket.nodes b)) (buckets rt).
Proof.
  intros (Hok & b & Hl & He)%check_table_zero Hi.
  destruct (buckets_ok_peers _ _ _ _ _ Hok) as (Hf & Ho & Hn & _).
  split_and!; [by eapply buckets_ok_contiguous|done..].
Qed.

(** The check of overlaps has a gap: the start expected after a bucket that
    reaches the last key is its own, so a second bucket for the whole key space
    goes unnoticed. *)
Lemma overlap_not_reported (now : Z) (n : Node) (k : nat) :
  let whole := KBucket.new now (0, KEY_MAX)%Z k in
  let rt := mk n k [whole; whole] ∅ 1 in
  check_table k rt = 0 ∧ ¬ contiguous 0 (buckets rt) KEY_MAX.
Proof.
  split; [reflexivity|]. simpl. intros (_ & _ & E & _). unfold KEY_MAX in E. lia.
Qed.

(** *** Local neighbours *)

(** No contact has failures. *)
Definition all_healthy (rt : t) : Prop := health rt = ∅.

Lemma healthy_candidates rt target keep :
  (∀ p, keep p = true) →
  candidates rt target None keep = filter (λ p, id p ≠ id target) (primaries rt).
Proof.
  intros Hk. unfold candidates. apply list_filter_iff. intros p. unfold eligible. rewrite Hk.
  case_bool_decide; simpl; naive_solver.
Qed.

Lemma expected_closest now rt target keep :
  (∀ p, keep p = true) → (closest now rt target None keep).1 = expected_neighbors (ksize rt) rt target.
Proof.
  intros Hk. rewrite closest_eq, healthy_candidates by done. unfold expected_neighbors.
  rewrite <- fmap_take. symmetry. apply (take_sort_decorate (distance_from target)).
Qed.

(** While no contact fails, [find_neighbors] finds what an exhaustive search does. *)
Lemma find_neighbors_expected now rt target :
  all_healthy rt → (find_neighbors now rt target None).1 = expected_neighbors (ksize rt) rt target.
Proof.
  intros Hh. assert (∀ p : Node, negb (has_failures rt (id p)) = true ∧ negb (is_stale rt (id p)) = true) as Hok.
  { intros p. unfold has_failures, is_stale. by rewrite Hh, lookup_empty. }
  unfold find_neighbors. set (k1 := λ n, negb (has_failures rt (id n))).
  pose proof (expected_closest now rt target k1 (λ p, proj1 (Hok p))) as H1.
  destruct (closest now rt target None k1) as [healthy rt1] eqn:E1. simpl in H1.
  case_match; [done|]. replace rt1 with (closest now rt target None k1).2 by (by rewrite E1).
  rewrite closest_closest. set (k2 := λ n, negb (is_stale _ (id n))).
  assert (∀ p, k2 p = true) as Hk2 by (intros p; apply (proj2 (Hok p))).
  pose proof (expected_closest now rt target k2 Hk2) as H2.
  destruct (closest now rt target None k2) as [ns rt2] eqn:E2. simpl in H2.
  destruct ns as [|n ns]; [|done].
  replace rt2 with (closest now rt target None k2).2 by (by rewrite E2). rewrite closest_closest.
  by apply expected_closest.
Qed.

Lemma find_neighbors_same now rt target exclude :
  let rt' := (find_neighbors now rt target exclude).2 in ksize rt' = ksize rt ∧ health rt' = health rt.
Proof. intros rt'. subst rt'. by destruct (find_neighbors_cases now rt target exclude) as [keep ->]. Qed.

Lemma check_targets k rt targets r :
  ksize rt = k → all_healthy rt → mismatches (foldl (check_target k) (rt, r) targets).2 = mismatches r.
Proof.
  revert rt r. induction targets as [|[now target] targets IH]; intros rt r Hk Hh; [done|]. simpl.
  pose proof (find_neighbors_expected now rt target Hh) as He.
  destruct (find_neighbors_same now rt target None) as [Hk' Hh'].
  destruct (find_neighbors now rt target None) as [actual rt']. simpl in *. subst k.
  rewrite IH; [|done|by unfold all_healthy; rewrite Hh']. simpl. by rewrite He, bool_decide_eq_true_2.
Qed.

(** *** The counts add up *)

Lemma replication_adds_up usize_max k holders keys :
  let r := replication_summary usize_max k holders keys in
  under_replicated r + exact_replicas r + over_replicated r = length keys ∧ zero_copies r ≤ under_replicated r.
Proof.
  assert (∀ r, let r' := foldl (count_copies k holders) r keys in
    under_replicated r' + exact_replicas r' + over_replicated r' =
      under_replicated r + exact_replicas r + over_replicated r + length keys ∧
    zero_copies r' + under_replicated r ≤ under_replicated r' + zero_copies r) as Hfold.
  { induction keys as [|key keys IH]; intros r; cbn [foldl length]; [lia|].
    destruct (IH (count_copies k holders r key)) as [IH1 IH2]. cbn zeta in *.
    rewrite IH1. revert IH2. unfold count_copies. cbn [under_replicated exact_replicas over_replicated zero_copies].
    set (c := length _). destruct (Nat.ltb_spec c k), (Nat.eqb_spec c k), (Nat.ltb_spec k c), (Nat.eqb_spec c 0);
      simpl; lia. }
  specialize (Hfold (mkReplication (length keys) 0 0 0 0 usize_max 0)). unfold replication_summary.
  destruct (length keys =? 0); simpl in *; lia.
Qed.

Lemma placement_adds_up k node_ids holders keys :
  let r := verify_global_replica_placement k node_ids holders keys in
  full r + partial r + none r = length keys.
Proof.
  assert (∀ r, let r' := foldl (check_placement k node_ids holders) r keys in
    full r' + partial r' + none r' = full r + partial r + none r + length keys) as Hfold.
  { induction keys as [|key keys IH]; intros r; cbn [foldl length]; [lia|].
    cbn zeta in *. rewrite IH. unfold check_placement. cbn [full partial none].
    destruct (bool_decide (filter _ _ = [])); simpl; [lia|].
    destruct (bool_decide (filter _ _ = [])); simpl; lia. }
  apply (Hfold (mkPlacement (length keys) 0 0 0 0)).
Qed.

(** *** Operations keep the bucket size *)

Lemma record_failure_ksize jit rt n now : ksize (record_failure_at jit rt n now) = ksize rt.
Proof. unfold record_failure_at. repeat (case_match; try done). Qed.

Lemma run_ksize rt ops rt' : wf rt → run rt ops = Some rt' → wf rt' ∧ ksize rt' = ksize rt.
Proof.
  revert rt. induction ops as [|o ops IH]; intros rt Hwf Hr; [by simplify_eq/=|]. simpl in Hr.
  destruct (table_wf_apply_op rt o Hwf) as (rt1 & E & Hwf1). rewrite E in Hr. simpl in Hr.
  destruct (IH _ Hwf1 Hr) as [Hwf' Hk]. split; [done|]. rewrite Hk. clear -E Hwf.
  destruct o; simpl in E; simplify_eq; try done.
  - destruct (wf_add_contact now rt n Hwf) as (rt' & r & Ea & Hg & _). rewrite Ea in E.
    simpl in E. simplify_eq. apply Hg.
  - apply record_failure_ksize.
  - apply find_neighbors_same.
Qed.

(** ** Theorem *)

(** C25: the structural checks of a running cluster pass. Whatever the history of
    the routing table of each node, the inspection of the buckets reports no
    violation (ranges in order from the first key to the last, at most [k]
    primary contacts per bucket, inside its range, never the local node and
    never twice); and while no contact is failing, every local search finds
    exactly the contacts an exhaustive search does. *)
Theorem cluster_checks_pass (k : nat) (cluster : list (Z * Node * list op)) (routers : list t)
    (targets : list (Z * Node))
    (Hrun : Forall2 (λ h rt, run (new h.1.1 h.1.2 k) h.2 = Some rt) cluster routers) :
  bucket_status (inspect_bucket_structure k (Some <$> routers)) = Pass ∧
  br_nodes (inspect_bucket_structure k (Some <$> routers)) = length cluster ∧
  (Forall all_healthy routers →
   local_top_k_status (verify_local_top_k k (Some <$> routers) targets) = Pass).
Proof.
  assert (Forall (λ rt, wf rt ∧ ksize rt = k) routers) as Hwf.
  { induction Hrun as [|[[now n] ops] rt cluster routers Hr _ IH]; constructor; [|done].
    by destruct (run_ksize _ _ _ (table_wf_new now n k) Hr). }
  assert (∀ r, violations (foldl (inspect_node k) r (Some <$> routers)) = violations r ∧
    br_nodes (foldl (inspect_node k) r (Some <$> routers)) = br_nodes r + length routers) as Hv.
  { clear Hrun. induction Hwf as [|rt routers [Hw Hk] _ IH]; intros r; [simpl; lia|].
    rewrite fmap_cons. cbn [foldl length]. destruct (IH (inspect_node k r (Some rt))) as [-> ->].
    cbn [inspect_node violations br_nodes]. rewrite <- Hk, wf_table_passes by done. lia. }
  pose proof (Forall2_length _ _ _ Hrun) as Hlen. destruct (Hv (mkBuckets 0 0 0 0)) as [Hv0 Hn0].
  unfold bucket_status, inspect_bucket_structure. rewrite Hv0, Hn0. split_and!; [done|simpl; lia|].
  intros Hh. unfold local_top_k_status, verify_local_top_k.
  enough (∀ r, mismatches (foldl (check_router k targets) r (Some <$> routers)) = mismatches r) as -> by done.
  clear -Hwf Hh. induction Hwf as [|rt routers [Hw Hk] _ IH]; intros r; [done|].
  apply Forall_cons in Hh as [Hh1 Hh]. rewrite fmap_cons. cbn [foldl]. rewrite IH by done. by apply check_targets.
Qed.

(** ** A cluster *)

Definition example_cluster : list (Z * Node * list op) :=
  [(0, example_peer x01 x01, [AddContact 1 (example_peer x80 x01); AddContact 2 (example_peer x02 x01)]);
   (0, example_peer x80 x01, [AddContact 1 (example_peer x01 x01)])]%Z.

Definition example_routers : list t :=
  omap (λ h, run (new h.1.1 h.1.2 2) h.2) example_cluster.

Definition example_targets : list (Z * Node) := [(5%Z, Node_from_id (ident_ends x03 x00))].

Lemma cluster_checks_pass_witness :
  bucket_status (inspect_bucket_structure 2 (Some <$> example_routers)) = Pass ∧
  br_nodes (inspect_bucket_structure 2 (Some <$> example_routers)) = 2 ∧
  (Forall all_healthy example_routers →
   local_top_k_status (verify_local_top_k 2 (Some <$> example_routers) example_targets) = Pass).
Proof.
  apply (cluster_checks_pass 2 example_cluster example_routers example_targets).
  repeat constructor; vm_compute; reflexivity.
Defined.
