(* ===== verification/Storage.v ===== *)
(** * Record store (src/src/storage.rs)

    [IStorage] is the interface the protocol layer uses, with the laws its
    clients rely on; [ForgetfulStorage] is the implementation, a map from keys
    to values and insertion instants with lazy expiry and a byte budget. Times
    are nanoseconds; every operation reads the clock once ([now]). *)

From S2P Require Import Prelude.

(** [usize] and [u64] of the 64-bit targets the program runs on. *)
Definition USIZE : Z := 2 ^ 64.

Definition wrap64 (x : Z) : Z := (x `mod` USIZE)%Z.

(** [Duration::from_secs], in nanoseconds. *)
Definition from_secs (s : Z) : Z := (s * 1000000000)%Z.

(** [DEFAULT_TTL] and [DEFAULT_MAX_STORAGE_BYTES]. *)
Definition DEFAULT_TTL : Z := 14 * 24 * 60 * 60.
Definition DEFAULT_MAX_STORAGE_BYTES : Z := 512 * 1024 * 1024.

(** [StorageWriteStatus]. *)
Inductive StorageWriteStatus := Stored | AlreadyStored | Conflict | CapacityExceeded.

#[global] Instance StorageWriteStatus_eq_dec : EqDecision StorageWriteStatus.
Proof. solve_decision. Defined.

(** ** The interface *)

(** The trait [IStorage], with the store passed explicitly. *)
Class IStorage (St : Type) := {
  set : Z → St → bytes → bytes → St * StorageWriteStatus;
  insert_if_absent : Z → St → bytes → bytes → St * StorageWriteStatus;
  get_default : Z → St → bytes → option bytes → option bytes;
  iter_older_than : Z → St → Z → list (bytes * bytes);
  iter_all : Z → St → list (bytes * bytes)
}.

(** The provided method [IStorage::get]. *)
Definition get `{IStorage St} (now : Z) (s : St) (key : bytes) : option bytes :=
  get_default now s key None.

(** What a store promises, over the map of the records it serves at an
    instant: reads are lookups; [set] overwrites; the first writer of a key
    wins against [insert_if_absent]; a refused write changes nothing. *)
Class IStorageLaws (St : Type) `{IStorage St} := {
  live : Z → St → gmap bytes bytes;
  law_get now s k d :
    get_default now s k d = match live now s !! k with Some v => Some v | None => d end;
  law_set now s k v :
    match set now s k v with
    | (s', Stored) | (s', AlreadyStored) => live now s' = <[k := v]> (live now s)
    | (s', CapacityExceeded) => s' = s
    | (_, Conflict) => False
    end;
  law_insert now s k v :
    match insert_if_absent now s k v with
    | (s', Stored) => live now s !! k = None ∧ live now s' = <[k := v]> (live now s)
    | (s', AlreadyStored) =>
        (live now s !! k = None ∨ live now s !! k = Some v) ∧
        live now s' = <[k := v]> (live now s)
    | (s', Conflict) => s' = s ∧ ∃ w, live now s !! k = Some w ∧ w ≠ v
    | (s', CapacityExceeded) => s' = s ∧ live now s !! k = None
    end;
  law_iter_all now s k v : (k, v) ∈ iter_all now s ↔ live now s !! k = Some v;
  law_iter_older now s age k v : (k, v) ∈ iter_older_than now s age → live now s !! k = Some v;
  law_expiry now now' s : (now ≤ now')%Z → live now' s ⊆ live now s
}.

(** ** [ForgetfulStorage] *)

Module ForgetfulStorage.

Record t := mk {
  data : gmap bytes (bytes * Z);
  ttl : Z;
  current_storage_bytes : Z;
  max_storage_bytes : Z
}.

(** [ForgetfulStorage::with_max_storage_bytes] and [new]. *)
Definition with_max_storage_bytes (ttl max : Z) : t := mk ∅ ttl 0 max.

Definition new (ttl : Z) : t := with_max_storage_bytes ttl DEFAULT_MAX_STORAGE_BYTES.

Definition with_data (s : t) (d : gmap bytes (bytes * Z)) : t :=
  mk d (ttl s) (current_storage_bytes s) (max_storage_bytes s).

Definition with_current (s : t) (c : Z) : t :=
  mk (data s) (ttl s) c (max_storage_bytes s).

Definition size (l : bytes) : Z := Z.of_nat (length l).

(** [ForgetfulStorage::reserve_bytes]: the counter, when the reservation
    succeeds. [checked_add] fails at the width of [usize]. *)
Definition reserve_bytes (s : t) (additional : Z) : option t :=
  if (additional =? 0)%Z then Some s
  else
    let next := (current_storage_bytes s + additional)%Z in
    if (next <? USIZE)%Z && (next <=? max_storage_bytes s)%Z
    then Some (with_current s next) else None.

(** [ForgetfulStorage::release_bytes]: [fetch_sub] wraps around. *)
Definition release_bytes (s : t) (released : Z) : t :=
  if (released =? 0)%Z then s
  else with_current s (wrap64 (current_storage_bytes s - released)).

(** [ForgetfulStorage::replace_value], on the slot of [key], whose value is
    [slot]. *)
Definition replace_value (now : Z) (s : t) (key slot value : bytes) : t * StorageWriteStatus :=
  if bool_decide (slot = value) then
    (with_data s (<[key := (slot, now)]> (data s)), AlreadyStored)
  else
    let reserved :=
      if (size slot <? size value)%Z then reserve_bytes s (size value - size slot) else Some s in
    match reserved with
    | None => (s, CapacityExceeded)
    | Some s1 =>
        let s2 := with_data s1 (<[key := (value, now)]> (data s1)) in
        let s3 := if (size value <? size slot)%Z
                  then release_bytes s2 (size slot - size value) else s2 in
        (s3, Stored)
    end.

(** [ForgetfulStorage::is_expired]: [elapsed] saturates at zero and
    [self.ttl as u64] wraps a negative [ttl]. *)
Definition is_expired (now : Z) (s : t) (inserted_at : Z) : bool :=
  if (ttl s =? -1)%Z then false
  else (from_secs (wrap64 (ttl s)) <? Z.max 0 (now - inserted_at))%Z.

(** [ForgetfulStorage::prune_expired]: the store and the number of records
    reclaimed; the two counters of the pass wrap around. *)
Definition prune_expired (now : Z) (s : t) : t * Z :=
  if (ttl s =? -1)%Z then (s, 0%Z)
  else
    let gone := filter (λ kv, is_expired now s kv.2.2 = true) (data s) in
    let reclaimed_bytes :=
      map_fold (λ k v acc, wrap64 (acc + (size k + size v.1))) 0%Z gone in
    let kept := filter (λ kv, is_expired now s kv.2.2 = false) (data s) in
    (release_bytes (with_data s kept) reclaimed_bytes, wrap64 (Z.of_nat (base.size gone))).

(** The [Vacant] branch of [set] and [insert_if_absent]. *)
Definition insert_vacant (now : Z) (s : t) (key value : bytes) : t * StorageWriteStatus :=
  match reserve_bytes s (size key + size value) with
  | None => (s, CapacityExceeded)
  | Some s' => (with_data s' (<[key := (value, now)]> (data s')), Stored)
  end.

(** [ForgetfulStorage::set]. *)
Definition fs_set (now : Z) (s : t) (key value : bytes) : t * StorageWriteStatus :=
  match data s !! key with
  | None => insert_vacant now s key value
  | Some (slot, _) => replace_value now s key slot value
  end.

(** [ForgetfulStorage::insert_if_absent]. *)
Definition fs_insert_if_absent (now : Z) (s : t) (key value : bytes) : t * StorageWriteStatus :=
  match data s !! key with
  | None => insert_vacant now s key value
  | Some (slot, inserted_at) =>
      if is_expired now s inserted_at then replace_value now s key slot value
      else if bool_decide (slot = value) then
        (with_data s (<[key := (slot, now)]> (data s)), AlreadyStored)
      else (s, Conflict)
  end.

(** [ForgetfulStorage::get_default]. *)
Definition fs_get_default (now : Z) (s : t) (key : bytes) (default : option bytes)
    : option bytes :=
  match data s !! key with
  | Some (value, inserted_at) => if is_expired now s inserted_at then default else Some value
  | None => default
  end.

(** [ForgetfulStorage::iter_older_than] and [iter_all]. The order of a
    [DashMap] iteration is unspecified; only membership is used. *)
Definition fs_iter_older_than (now : Z) (s : t) (seconds_old : Z) : list (bytes * bytes) :=
  (λ kv, (kv.1, kv.2.1)) <$>
    filter (λ kv, (from_secs seconds_old <=? Z.max 0 (now - kv.2.2))%Z &&
                  negb (is_expired now s kv.2.2) = true) (map_to_list (data s)).

Definition fs_iter_all (now : Z) (s : t) : list (bytes * bytes) :=
  (λ kv, (kv.1, kv.2.1)) <$>
    filter (λ kv, is_expired now s kv.2.2 = false) (map_to_list (data s)).

#[global] Instance forgetful_storage : IStorage t := {|
  set := fs_set;
  insert_if_absent := fs_insert_if_absent;
  get_default := fs_get_default;
  iter_older_than := fs_iter_older_than;
  iter_all := fs_iter_all
|}.

End ForgetfulStorage.
