(* ===== verification/StorageProps.v ===== *)
(** * What the record store promises (src/src/storage.rs)

    Byte accounting over every history and every interleaving of concurrent
    writers, refinement of the interface by [ForgetfulStorage], first writer
    wins until expiry, and the effect of pruning. *)

From S2P Require Import Prelude Storage.

Import ForgetfulStorage.

(** ** Bytes used by a map of records *)

Definition record_size (k : bytes) (v : bytes * Z) : Z := (size k + size v.1)%Z.

Definition used (d : gmap bytes (bytes * Z)) : Z :=
  map_fold (λ k v acc, acc + record_size k v)%Z 0%Z d.

Lemma size_nonneg l : (0 ≤ size l)%Z.
Proof. unfold size. lia. Qed.

Lemma record_size_nonneg k v : (0 ≤ record_size k v)%Z.
Proof. unfold record_size. pose proof (size_nonneg k). pose proof (size_nonneg v.1). lia. Qed.

#[export] Hint Resolve size_nonneg record_size_nonneg : kad.

Lemma used_insert d k v : d !! k = None → used (<[k := v]> d) = (record_size k v + used d)%Z.
Proof.
  intros Hk. unfold used. rewrite map_fold_insert_L; [lia| |done].
  intros. lia.
Qed.

Lemma used_delete d k v : d !! k = Some v → used d = (record_size k v + used (delete k d))%Z.
Proof.
  intros Hk. rewrite <-(insert_delete_id d k v) at 1 by done.
  apply used_insert. apply lookup_delete_eq.
Qed.

Lemma used_replace d k v w :
  d !! k = Some v → used (<[k := w]> d) = (used d - size v.1 + size w.1)%Z.
Proof.
  intros Hk. rewrite <-insert_delete_eq, used_insert by apply lookup_delete_eq.
  rewrite (used_delete d k v Hk). unfold record_size. lia.
Qed.

Lemma used_nonneg d : (0 ≤ used d)%Z.
Proof.
  induction d as [|k v d Hk IH] using map_ind; [done|].
  rewrite used_insert by done. pose proof (record_size_nonneg k v). lia.
Qed.

Lemma used_record d k v : d !! k = Some v → (record_size k v ≤ used d)%Z.
Proof. intros Hk. rewrite (used_delete d k v Hk). pose proof (used_nonneg (delete k d)). lia. Qed.

(** The records that satisfy a test and those that do not make up the map. *)
Lemma partition_ind (P : bytes * (bytes * Z) → bool)
    (R : gmap bytes (bytes * Z) → gmap bytes (bytes * Z) → gmap bytes (bytes * Z) → Prop) :
  R ∅ ∅ ∅ →
  (∀ d x y k v, d !! k = None → x !! k = None → y !! k = None → R d x y →
     R (<[k := v]> d) (<[k := v]> x) y ∧ R (<[k := v]> d) x (<[k := v]> y)) →
  ∀ d, R d (filter (λ kv, P kv = true) d) (filter (λ kv, P kv = false) d).
Proof.
  intros H0 HS d. induction d as [|k v d Hk IH] using map_ind; [done|].
  assert (∀ b, filter (λ kv, P kv = b) d !! k = None) as Hn
    by (intros b; apply map_lookup_filter_None; naive_solver).
  destruct (P (k, v)) eqn:E.
  - rewrite map_filter_insert_True, (map_filter_insert_not' _ d) by (simpl; congruence || naive_solver).
    by apply HS.
  - rewrite (map_filter_insert_not' (λ kv, P kv = true) d), map_filter_insert_True
      by (simpl; congruence || naive_solver).
    by apply HS.
Qed.

Lemma used_partition (P : bytes * (bytes * Z) → bool) d :
  used d = (used (filter (λ kv, P kv = true) d) + used (filter (λ kv, P kv = false) d))%Z.
Proof.
  apply (partition_ind P (λ d x y, used d = used x + used y)%Z); [done|].
  intros ????? Hd Hx Hy IH. rewrite !used_insert by done. lia.
Qed.

Lemma size_partition (P : bytes * (bytes * Z) → bool) (d : gmap bytes (bytes * Z)) :
  base.size d = base.size (filter (λ kv, P kv = true) d) + base.size (filter (λ kv, P kv = false) d).
Proof.
  apply (partition_ind P (λ d x y, base.size d = base.size x + base.size y)); [done|].
  intros ????? Hd Hx Hy IH. rewrite !map_size_insert_None by done. lia.
Qed.

Lemma used_wrapped d :
  map_fold (λ k v acc, wrap64 (acc + (size k + size v.1))) 0%Z d = wrap64 (used d).
Proof.
  induction d as [|k v d Hk IH] using map_ind; [done|].
  rewrite map_fold_insert_L; [rewrite IH, used_insert by done| |done].
  - unfold wrap64, record_size. rewrite Z.add_mod_idemp_l by done. f_equal. lia.
  - intros. unfold wrap64. rewrite !Z.add_mod_idemp_l by done. f_equal. lia.
Qed.

(** ** The accounting invariant *)

Record accounted (s : t) : Prop := {
  acc_exact : current_storage_bytes s = used (data s);
  acc_bound : (current_storage_bytes s ≤ max_storage_bytes s)%Z;
  acc_width : (0 ≤ max_storage_bytes s < USIZE)%Z
}.

Lemma wrap64_small x : (0 ≤ x < USIZE)%Z → wrap64 x = x.
Proof. apply Z.mod_small. Qed.

Lemma accounted_new ttl max : (0 ≤ max < USIZE)%Z → accounted (with_max_storage_bytes ttl max).
Proof. intros. split; simpl; [done|lia|done]. Qed.

Lemma reserve_bytes_spec s n s' :
  reserve_bytes s n = Some s' → (0 ≤ n)%Z → (current_storage_bytes s ≤ max_storage_bytes s)%Z →
  s' = with_current s (current_storage_bytes s + n) ∧
  (current_storage_bytes s + n ≤ max_storage_bytes s)%Z.
Proof.
  unfold reserve_bytes. intros H Hn Hc. repeat case_match; bool_facts; simplify_eq.
  - destruct s'; simpl in *. rewrite Z.add_0_r. done.
  - done.
Qed.

Lemma accounted_insert_vacant now s k v :
  accounted s → data s !! k = None → accounted (insert_vacant now s k v).1.
Proof.
  intros [He Hb Hw] Hk. unfold insert_vacant. case_match eqn:E; [|done].
  apply reserve_bytes_spec in E as [-> Hle]; auto with kad.
  - split; simpl; [|lia|done]. rewrite used_insert by done. unfold record_size. simpl. lia.
  - pose proof (size_nonneg k). pose proof (size_nonneg v). lia.
Qed.

Lemma accounted_touch s k v now0 now :
  accounted s → data s !! k = Some (v, now0) → accounted (with_data s (<[k := (v, now)]> (data s))).
Proof.
  intros [He Hb Hw] Hk. split; simpl; [|done|done].
  rewrite (used_replace _ _ _ _ Hk). simpl. lia.
Qed.

Lemma accounted_replace_value now s k slot at0 v :
  accounted s → data s !! k = Some (slot, at0) → accounted (replace_value now s k slot v).1.
Proof.
  intros Hacc Hk. unfold replace_value. case_bool_decide as Ev; [by eapply accounted_touch|].
  pose proof (used_replace _ _ _ (v, now) Hk) as Hu. simpl in Hu.
  pose proof (used_record _ _ _ Hk) as Hr. unfold record_size in Hr. simpl in Hr.
  pose proof (size_nonneg k). pose proof (size_nonneg slot). pose proof (size_nonneg v).
  pose proof (used_nonneg (<[k := (v, now)]> (data s))).
  destruct Hacc as [He Hb Hw].
  destruct (size slot <? size v)%Z eqn:El; bool_facts.
  - destruct (reserve_bytes _ _) as [s1|] eqn:E; [|done].
    apply reserve_bytes_spec in E as [-> Hle]; [|lia|done].
    rewrite (proj2 (Z.ltb_ge _ _)) by lia. split; simpl; lia.
  - destruct (size v <? size slot)%Z eqn:El2; bool_facts; [|split; simpl; lia].
    unfold release_bytes. rewrite (proj2 (Z.eqb_neq _ _)) by lia.
    split; simpl; rewrite ?wrap64_small; lia.
Qed.

Lemma accounted_set now s k v : accounted s → accounted (fs_set now s k v).1.
Proof.
  intros Hacc. unfold fs_set. destruct (data s !! k) as [[slot at0]|] eqn:Hk.
  - by eapply accounted_replace_value.
  - by apply accounted_insert_vacant.
Qed.

Lemma accounted_insert now s k v : accounted s → accounted (fs_insert_if_absent now s k v).1.
Proof.
  intros Hacc. unfold fs_insert_if_absent. destruct (data s !! k) as [[slot at0]|] eqn:Hk;
    [|by apply accounted_insert_vacant].
  repeat case_match; simpl; [by eapply accounted_replace_value|by eapply accounted_touch|done].
Qed.

Lemma accounted_prune now s : accounted s → accounted (prune_expired now s).1.
Proof.
  intros [He Hb Hw]. unfold prune_expired. case_match; [done|]. cbn [fst].
  rewrite used_wrapped.
  pose proof (used_partition (λ kv, is_expired now s kv.2.2) (data s)) as Hp.
  cbv beta in Hp.
  set (gone := filter (λ kv, is_expired now s kv.2.2 = true) (data s)) in *.
  set (kept := filter (λ kv, is_expired now s kv.2.2 = false) (data s)) in *.
  pose proof (used_nonneg gone). pose proof (used_nonneg kept).
  rewrite wrap64_small by lia. unfold release_bytes.
  case_match; bool_facts; split; simpl; rewrite ?wrap64_small by lia; lia.
Qed.

#[export] Hint Resolve accounted_set accounted_insert accounted_prune : kad.

(** ** Histories *)

Inductive op :=
  | Set_ (k v : bytes)
  | InsertIfAbsent (k v : bytes)
  | PruneExpired.

Definition apply_op (s : t) (o : Z * op) : t :=
  match o.2 with
  | Set_ k v => (set o.1 s k v).1
  | InsertIfAbsent k v => (insert_if_absent o.1 s k v).1
  | PruneExpired => (prune_expired o.1 s).1
  end.

Definition run (s : t) (ops : list (Z * op)) : t := foldl apply_op s ops.

Lemma accounted_run s ops : accounted s → accounted (run s ops).
Proof.
  revert s. induction ops as [|[now o] ops IH]; intros s Hs; simpl; [done|].
  apply IH. destruct o;
    [by apply accounted_set|by apply accounted_insert|by apply accounted_prune].
Qed.

(** ** The records served at an instant *)

Definition fs_live (now : Z) (s : t) : gmap bytes bytes :=
  omap (λ v, if is_expired now s v.2 then None else Some v.1) (data s).

Lemma lookup_fs_live now s k :
  fs_live now s !! k = v ← data s !! k; if is_expired now s v.2 then None else Some v.1.
Proof. apply lookup_omap. Qed.

(** A record just written is served. *)
Lemma is_expired_now now s : is_expired now s now = false.
Proof.
  unfold is_expired. case_match; [done|]. apply Z.ltb_ge. rewrite Z.sub_diag.
  unfold from_secs, wrap64. pose proof (Z.mod_pos_bound (ttl s) USIZE ltac:(done)). lia.
Qed.

Lemma fs_live_write now s s' k v :
  ttl s' = ttl s → data s' = <[k := (v, now)]> (data s) → fs_live now s' = <[k := v]> (fs_live now s).
Proof.
  intros Ht Hd. apply map_eq. intros j. rewrite lookup_fs_live, Hd.
  assert (∀ a, is_expired now s' a = is_expired now s a) as He
    by (intros; unfold is_expired; by rewrite Ht).
  destruct (decide (k = j)) as [<-|Hne].
  - rewrite !lookup_insert_eq. simpl. by rewrite He, is_expired_now.
  - rewrite !lookup_insert_ne, lookup_fs_live by done.
    destruct (data s !! j) as [[w a]|]; simpl; [by rewrite He|done].
Qed.

(** A successful reservation and a release only move the counter. *)
Lemma reserve_bytes_frame s n s' :
  reserve_bytes s n = Some s' → data s' = data s ∧ ttl s' = ttl s.
Proof. unfold reserve_bytes. intros. repeat case_match; by simplify_eq. Qed.

Lemma release_bytes_frame s n : data (release_bytes s n) = data s ∧ ttl (release_bytes s n) = ttl s.
Proof. unfold release_bytes. by case_match. Qed.

Definition written (now : Z) (s s' : t) (k v : bytes) : Prop :=
  ttl s' = ttl s ∧ data s' = <[k := (v, now)]> (data s).

Lemma insert_vacant_cases now s k v :
  match insert_vacant now s k v with
  | (s', Stored) => written now s s' k v
  | (s', CapacityExceeded) => s' = s
  | _ => False
  end.
Proof.
  unfold insert_vacant. destruct (reserve_bytes _ _) as [s'|] eqn:E; [|done].
  apply reserve_bytes_frame in E as [Hd Ht]. split; simpl; [done|]. by rewrite Hd.
Qed.

Lemma replace_value_cases now s k slot v :
  match replace_value now s k slot v with
  | (s', AlreadyStored) => slot = v ∧ written now s s' k v
  | (s', Stored) => slot ≠ v ∧ written now s s' k v
  | (s', CapacityExceeded) => slot ≠ v ∧ s' = s
  | (_, Conflict) => False
  end.
Proof.
  unfold replace_value. case_bool_decide as Ev; [by subst|].
  assert (∀ s1, (data s1 = data s ∧ ttl s1 = ttl s) →
    written now s (if (size v <? size slot)%Z
      then release_bytes (with_data s1 (<[k := (v, now)]> (data s1))) (size slot - size v)
      else with_data s1 (<[k := (v, now)]> (data s1))) k v) as Hw.
  { intros s1 [Hd Ht]. unfold written. case_match; rewrite <-Hd, <-Ht;
      [|done]. by destruct (release_bytes_frame (with_data s1 (<[k := (v, now)]> (data s1)))
        (size slot - size v)) as [-> ->]. }
  destruct (size slot <? size v)%Z; [|by split; [|apply Hw]].
  destruct (reserve_bytes _ _) as [s1|] eqn:E; [|done].
  split; [done|]. apply Hw. by eapply reserve_bytes_frame.
Qed.

(** [ForgetfulStorage] implements the interface. *)
#[global] Instance forgetful_storage_laws : IStorageLaws t.
Proof.
  refine {| live := fs_live |}; simpl.
  - intros now s k d. rewrite lookup_fs_live. unfold fs_get_default.
    destruct (data s !! k) as [[v a]|]; simpl; [by destruct (is_expired now s a)|done].
  - intros now s k v. unfold fs_set. destruct (data s !! k) as [[slot a]|] eqn:Hk.
    + pose proof (replace_value_cases now s k slot v) as H.
      destruct (replace_value _ _ _ _ _) as [s' []]; try done; try (by apply H);
        destruct H as [_ [??]]; by apply fs_live_write.
    + pose proof (insert_vacant_cases now s k v) as H.
      destruct (insert_vacant _ _ _ _) as [s' []]; try done. destruct H. by apply fs_live_write.
  - intros now s k v. rewrite lookup_fs_live. unfold fs_insert_if_absent.
    destruct (data s !! k) as [[slot a]|] eqn:Hk; simpl.
    + destruct (is_expired now s a).
      * pose proof (replace_value_cases now s k slot v) as H.
        destruct (replace_value _ _ _ _ _) as [s' []]; [..|done|by destruct H];
          destruct H as [? [??]]; (split; [by auto|by apply fs_live_write]).
      * case_bool_decide as E; [|naive_solver]. subst. split; [by right|].
        by apply fs_live_write.
    + pose proof (insert_vacant_cases now s k v) as H.
      destruct (insert_vacant _ _ _ _) as [s' []]; try done. destruct H.
      split; [done|]. by apply fs_live_write.
  - intros now s k v. rewrite lookup_fs_live. unfold fs_iter_all.
    rewrite list_elem_of_fmap. split.
    + intros ([k' [v' a]] & E & [He Hin]%list_elem_of_filter). simplify_eq/=.
      apply elem_of_map_to_list in Hin. rewrite Hin. simpl in *. by rewrite He.
    + destruct (data s !! k) as [[v' a]|] eqn:Hk; [|done]. simpl.
      destruct (is_expired now s a) eqn:He; intros ?; simplify_eq. exists (k, (v, a)). split; [done|].
      apply list_elem_of_filter. split; [done|]. by apply elem_of_map_to_list.
  - intros now s age k v. rewrite lookup_fs_live. unfold fs_iter_older_than.
    intros ([k' [v' a]] & E & [He Hin]%list_elem_of_filter)%list_elem_of_fmap. simplify_eq/=.
    apply elem_of_map_to_list in Hin. rewrite Hin. simpl in *. bool_facts. by case_match.
  - intros now now' s Hle. apply map_subseteq_spec. intros k v. rewrite !lookup_fs_live.
    destruct (data s !! k) as [[v' a]|] eqn:Hk; [|done]. simpl.
    unfold is_expired. case_match; [done|]. repeat case_match; bool_facts; try done. lia.
Defined.

(** ** Auxiliary facts for the theorems *)

(** The record of [k] is [v], written no earlier than [since]. *)
Definition holds (ttl0 since : Z) (k v : bytes) (s : t) : Prop :=
  ttl s = ttl0 ∧ ∃ a, data s !! k = Some (v, a) ∧ (since ≤ a)%Z.

(** [now] is within the lifetime of a record written at [since]. *)
Definition within_ttl (ttl0 since now : Z) : Prop :=
  (since ≤ now)%Z ∧ (ttl0 = -1 ∨ now ≤ since + from_secs (wrap64 ttl0))%Z.

Lemma holds_not_expired ttl0 since s a now :
  ttl s = ttl0 → (since ≤ a)%Z → within_ttl ttl0 since now → is_expired now s a = false.
Proof.
  intros Ht Ha [Hs Hn]. unfold is_expired. rewrite Ht.
  destruct (ttl0 =? -1)%Z eqn:E; bool_facts; [done|]. apply Z.ltb_ge.
  unfold from_secs, wrap64 in *. pose proof (Z.mod_pos_bound ttl0 USIZE ltac:(done)).
  destruct Hn; lia.
Qed.

Lemma holds_written ttl0 since k v s s' now j w :
  holds ttl0 since k v s → written now s s' j w → j ≠ k → holds ttl0 since k v s'.
Proof.
  intros (Ht & a & Hk & Ha) [Ht' Hd] Hne. split; [congruence|]. exists a.
  by rewrite Hd, lookup_insert_ne.
Qed.

Lemma holds_other ttl0 since k v s s' now j w st :
  holds ttl0 since k v s → j ≠ k →
  (set now s j w = (s', st) ∨ insert_if_absent now s j w = (s', st)) →
  holds ttl0 since k v s'.
Proof.
  intros Hh Hne Hop.
  assert (s' = s ∨ written now s s' j w) as [->|Hw]; [|done|by eapply holds_written].
  simpl in Hop. unfold fs_set, fs_insert_if_absent in Hop.
  destruct (data s !! j) as [[slot a]|] eqn:Hj.
  - pose proof (replace_value_cases now s j slot w) as H.
    destruct (replace_value now s j slot w) as [s1 st1].
    assert (s1 = s ∨ written now s s1 j w) by (destruct st1; naive_solver).
    destruct Hop as [Hop|Hop]; [naive_solver|].
    destruct (is_expired now s a); [naive_solver|].
    case_bool_decide; simplify_eq; [right|by left]. by split.
  - pose proof (insert_vacant_cases now s j w) as H.
    destruct (insert_vacant now s j w) as [s1 st1].
    destruct Hop as [Hop|Hop]; simplify_eq; destruct st; naive_solver.
Qed.

Lemma holds_insert ttl0 since k v s now w :
  holds ttl0 since k v s → within_ttl ttl0 since now →
  holds ttl0 since k v (insert_if_absent now s k w).1 ∧
  (insert_if_absent now s k w).2 = (if bool_decide (w = v) then AlreadyStored else Conflict).
Proof.
  intros (Ht & a & Hk & Ha) Hw. simpl. unfold fs_insert_if_absent. rewrite Hk.
  rewrite (holds_not_expired ttl0 since s a now) by done.
  rewrite (bool_decide_ext (v = w) (w = v)) by naive_solver.
  case_bool_decide; simpl; [|by split; [split; eauto|]].
  split; [|done]. split; [done|]. exists now. simpl. rewrite lookup_insert_eq.
  destruct Hw. done.
Qed.

Lemma holds_prune ttl0 since k v s now :
  holds ttl0 since k v s → within_ttl ttl0 since now → holds ttl0 since k v (prune_expired now s).1.
Proof.
  intros (Ht & a & Hk & Ha) Hw. unfold prune_expired. case_match; [by split; eauto|]. cbn [fst].
  unfold holds. edestruct release_bytes_frame as [-> ->]. simpl. split; [done|]. exists a.
  split; [|done]. apply map_lookup_filter_Some. split; [done|]. simpl.
  by eapply holds_not_expired.
Qed.

(** An operation that neither overwrites [k] nor happens after its lifetime. *)
Definition harmless (ttl0 since : Z) (k : bytes) (o : Z * op) : Prop :=
  within_ttl ttl0 since o.1 ∧ match o.2 with Set_ j _ => j ≠ k | _ => True end.

Lemma holds_run ttl0 since k v s ops :
  holds ttl0 since k v s → Forall (harmless ttl0 since k) ops → holds ttl0 since k v (run s ops).
Proof.
  intros Hh Hf. revert s Hh. induction Hf as [|[now o] ops [Hw Ho] _ IH]; intros s Hh; [done|].
  simpl. apply IH. unfold apply_op. simpl in *. destruct o as [j w|j w|].
  - destruct (fs_set now s j w) as [s' st] eqn:E. eapply holds_other; [done|done|]. by left.
  - destruct (decide (j = k)) as [->|Hne]; [by apply (holds_insert _ _ _ _ _ now w)|].
    destruct (fs_insert_if_absent now s j w) as [s' st] eqn:E. eapply holds_other; [done|done|].
    by right.
  - by apply holds_prune.
Qed.

Lemma insert_holds now s k v s' st :
  insert_if_absent now s k v = (s', st) → st = Stored ∨ st = AlreadyStored →
  holds (ttl s) now k v s'.
Proof.
  simpl. unfold fs_insert_if_absent. intros Hi Hst.
  assert (written now s s' k v) as [Ht Hd].
  { destruct (data s !! k) as [[slot a]|] eqn:Hk.
    - pose proof (replace_value_cases now s k slot v) as H.
      destruct (replace_value now s k slot v) as [s1 st1].
      destruct (is_expired now s a); [destruct st1; naive_solver|].
      case_bool_decide; simplify_eq; [by split|naive_solver].
    - pose proof (insert_vacant_cases now s k v) as H. rewrite Hi in H. naive_solver. }
  split; [done|]. exists now. by rewrite Hd, lookup_insert_eq.
Qed.

(** What a caller of [insert_if_absent] and of [set] may observe, over the map
    of records served before and after. *)
Inductive insert_outcome (m : gmap bytes bytes) (k v : bytes)
    : StorageWriteStatus → gmap bytes bytes → Prop :=
  | InsertFresh : m !! k = None → insert_outcome m k v Stored (<[k := v]> m)
  | InsertRenewed : m !! k = None ∨ m !! k = Some v →
      insert_outcome m k v AlreadyStored (<[k := v]> m)
  | InsertConflict w : m !! k = Some w → w ≠ v → insert_outcome m k v Conflict m
  | InsertFull : m !! k = None → insert_outcome m k v CapacityExceeded m.

Inductive set_outcome (m : gmap bytes bytes) (k v : bytes)
    : StorageWriteStatus → gmap bytes bytes → Prop :=
  | SetNew : set_outcome m k v Stored (<[k := v]> m)
  | SetSame : set_outcome m k v AlreadyStored (<[k := v]> m)
  | SetFull : set_outcome m k v CapacityExceeded m.

Lemma accounted_refused now s k v :
  accounted s →
  insert_if_absent now s k v = (s, CapacityExceeded) ∨ set now s k v = (s, CapacityExceeded) →
  (max_storage_bytes s < used (<[k := (v, now)]> (data s)))%Z.
Proof.
  intros [He Hb Hw] Hop. simpl in Hop. unfold fs_insert_if_absent, fs_set in Hop.
  assert (∀ n, reserve_bytes s n = None →
    (max_storage_bytes s < current_storage_bytes s + n)%Z) as Hres.
  { intros n. unfold reserve_bytes. destruct (n =? 0)%Z; [done|].
    destruct (_ && _) eqn:E; [done|]. intros _. apply andb_false_iff in E as [|]; bool_facts; lia. }
  destruct (data s !! k) as [[slot a]|] eqn:Hk.
  - rewrite (used_replace _ _ _ _ Hk). simpl.
    assert (replace_value now s k slot v = (s, CapacityExceeded)) as Hr.
    { destruct Hop as [Hop|Hop]; [|done]. destruct (is_expired now s a); [done|].
      by case_bool_decide. }
    unfold replace_value in Hr. case_bool_decide; [done|].
    destruct (size slot <? size v)%Z; [|done].
    destruct (reserve_bytes s _) eqn:E; [done|]. apply Hres in E. lia.
  - rewrite used_insert by done. unfold record_size. simpl.
    assert (insert_vacant now s k v = (s, CapacityExceeded)) as Hr by (by destruct Hop).
    unfold insert_vacant in Hr. destruct (reserve_bytes s _) eqn:E; [done|]. apply Hres in E. lia.
Qed.

(** ** Theorems *)

(** Whatever is written and pruned, at whatever instants, the byte counter
    of the store equals the bytes of the keys and values it holds and never
    exceeds the budget; in particular no counter ever wraps around. *)
Lemma storage_accounting (ttl max : Z) (ops : list (Z * op)) (Hmax : (0 ≤ max < USIZE)%Z) :
  accounted (run (with_max_storage_bytes ttl max) ops).
Proof. by apply accounted_run, accounted_new. Qed.

(** A write is refused for lack of space only when the record really would
    not fit, that is when the records after the write would exceed the budget;
    a refused write leaves the store as it was. *)
Lemma refused_only_when_full (now : Z) (s s' : t) (k v : bytes) (Hacc : accounted s)
    (Hop : insert_if_absent now s k v = (s', CapacityExceeded) ∨
           set now s k v = (s', CapacityExceeded)) :
  s' = s ∧ (max_storage_bytes s < used (<[k := (v, now)]> (data s)))%Z.
Proof.
  assert (s' = s) as ->.
  { destruct Hop as [Hop|Hop].
    - pose proof (law_insert now s k v) as Hl. rewrite Hop in Hl. apply Hl.
    - pose proof (law_set now s k v) as Hl. by rewrite Hop in Hl. }
  split; [done|]. by eapply accounted_refused.
Qed.

(** C26: [ForgetfulStorage] refines a map of records with expiry: at every
    instant [insert_if_absent] and [set] act on the served records as the
    interface promises, one outcome per status, a read returns the served
    record, and the full iteration lists exactly the served records. *)
Theorem storage_refines (now : Z) (s : t) (k v : bytes) (d : option bytes) :
  insert_outcome (fs_live now s) k v (insert_if_absent now s k v).2
    (fs_live now (insert_if_absent now s k v).1) ∧
  set_outcome (fs_live now s) k v (set now s k v).2 (fs_live now (set now s k v).1) ∧
  get_default now s k d = match fs_live now s !! k with Some w => Some w | None => d end ∧
  (∀ j w, (j, w) ∈ iter_all now s ↔ fs_live now s !! j = Some w).
Proof.
  pose proof (law_insert now s k v) as Hi. pose proof (law_set now s k v) as Hs.
  split; [|split; [|split; [exact (law_get now s k d)|exact (law_iter_all now s)]]].
  - destruct (insert_if_absent now s k v) as [s' []]; cbn [live forgetful_storage_laws fst snd] in *.
    + destruct Hi as [? ->]. by constructor.
    + destruct Hi as [? ->]. by constructor.
    + destruct Hi as [-> (w & ? & ?)]. by econstructor.
    + destruct Hi as [-> ?]. by constructor.
  - destruct (set now s k v) as [s' []]; cbn [live forgetful_storage_laws fst snd] in *;
      try done; subst; try rewrite Hs; constructor.
Qed.

(** C19: the first accepted writer of a key wins for the lifetime of its record:
    until the ttl runs out (for ever when it is -1), after any sequence of
    writes, prunings and competing insertions that does not [set] that key,
    reads return its value and a competing [insert_if_absent] of another value
    is a conflict. *)
Theorem first_writer_wins (now0 now : Z) (s s' : t) (k v w : bytes) (st : StorageWriteStatus)
    (ops : list (Z * op))
    (Hi : insert_if_absent now0 s k v = (s', st)) (Hst : st = Stored ∨ st = AlreadyStored)
    (Hops : Forall (harmless (ttl s) now0 k) ops) (Hnow : within_ttl (ttl s) now0 now) :
  get now (run s' ops) k = Some v ∧
  (insert_if_absent now (run s' ops) k w).2 =
    (if bool_decide (w = v) then AlreadyStored else Conflict).
Proof.
  pose proof (holds_run _ _ _ _ _ ops (insert_holds _ _ _ _ _ _ Hi Hst) Hops) as Hh.
  split; [|by eapply holds_insert].
  destruct Hh as (Ht & a & Hk & Ha). unfold get. simpl. unfold fs_get_default. rewrite Hk.
  by rewrite (holds_not_expired (ttl s) now0 _ a now).
Qed.

(** Pruning removes exactly the expired records and reports how many: what
    is served does not change, at that instant or later, and no expired record
    is left. *)
Lemma prune_expired_spec (now now' : Z) (s : t) (Hle : (now ≤ now')%Z) :
  let '(s', n) := prune_expired now s in
  fs_live now' s' = fs_live now' s ∧
  (∀ k v a, data s' !! k = Some (v, a) ↔ data s !! k = Some (v, a) ∧ is_expired now s a = false) ∧
  n = wrap64 (Z.of_nat (base.size (data s)) - Z.of_nat (base.size (data s'))).
Proof.
  destruct (prune_expired now s) as [s' n] eqn:E. unfold prune_expired in E.
  destruct (ttl s =? -1)%Z eqn:Et.
  { simplify_eq. split; [done|]. split; [|by rewrite Z.sub_diag].
    intros k v a. unfold is_expired. rewrite Et. naive_solver. }
  set (gone := filter (λ kv, is_expired now s kv.2.2 = true) (data s)) in *.
  set (kept := filter (λ kv, is_expired now s kv.2.2 = false) (data s)) in *.
  assert (data s' = kept ∧ ttl s' = ttl s ∧ n = wrap64 (Z.of_nat (base.size gone))) as (Hd & Ht & ->).
  { injection E as <- <-. by destruct (release_bytes_frame (with_data s kept)
      (map_fold (λ k v acc, wrap64 (acc + (size k + size v.1))) 0%Z gone)) as [-> ->]. }
  clear E. assert (∀ k v a, data s' !! k = Some (v, a) ↔
    data s !! k = Some (v, a) ∧ is_expired now s a = false) as Hlook.
  { intros k v a. rewrite Hd. unfold kept. by rewrite map_lookup_filter_Some. }
  split; [|split; [done|]].
  - apply map_eq. intros k. rewrite !lookup_fs_live.
    assert (∀ a, is_expired now' s' a = is_expired now' s a) as Hexp
      by (intros; unfold is_expired; by rewrite Ht).
    assert (∀ a, is_expired now s a = true → is_expired now' s a = true) as Hmono.
    { intros a. unfold is_expired. rewrite Et, !Z.ltb_lt. lia. }
    destruct (data s' !! k) as [[v a]|] eqn:E'; simpl.
    + apply Hlook in E' as [E' _]. rewrite E'. simpl. by rewrite Hexp.
    + destruct (data s !! k) as [[v a]|] eqn:E''; [|done]. simpl.
      destruct (is_expired now s a) eqn:Ha; [by rewrite Hmono|].
      assert (data s' !! k = Some (v, a)) by (by apply Hlook). congruence.
  - f_equal. rewrite Hd. unfold gone, kept.
    rewrite (size_partition (λ kv, is_expired now s kv.2.2) (data s)). lia.
Qed.

(** ** Concrete stores *)

(** One minute of ttl, forty bytes, two records. *)
Definition example_ops : list (Z * op) :=
  [(0%Z, InsertIfAbsent [x01] [x02; x03]); (1%Z, InsertIfAbsent [x04] (replicate 30 x05));
   (2%Z, Set_ [x04] (replicate 20 x05)); (from_secs 30, PruneExpired)].
Definition example_store : t := run (with_max_storage_bytes 60 40) example_ops.

Lemma first_writer_wins_witness :
  get (from_secs 50) (run (insert_if_absent 5 example_store [x06] [x07]).1
      [(from_secs 10, InsertIfAbsent [x06] [x08]); (from_secs 20, PruneExpired)]) [x06] = Some [x07] ∧
  (insert_if_absent (from_secs 50) (run (insert_if_absent 5 example_store [x06] [x07]).1
      [(from_secs 10, InsertIfAbsent [x06] [x08]); (from_secs 20, PruneExpired)]) [x06] [x08]).2 =
    (if bool_decide ([x08] = [x07]) then AlreadyStored else Conflict).
Proof.
  apply (first_writer_wins 5 (from_secs 50) example_store
    (insert_if_absent 5 example_store [x06] [x07]).1 [x06] [x07] [x08] Stored).
  - vm_compute. reflexivity.
  - by left.
  - repeat constructor; simpl; try done; right; vm_compute; congruence.
  - split; [done|]. right. vm_compute. congruence.
Defined.

