(* ===== verification/StorageConc.v ===== *)
(** * Concurrent writers of the record store (src/src/storage.rs)

    The methods of [ForgetfulStorage] take [&self] and run on several threads.
    [DashMap::entry] locks the entry for the duration of a write, while the
    byte counter is a separate atomic: an operation is a sequence of atomic
    actions, and other operations run between them. Locks are modelled per key
    (the code's are per shard, hence coarser: every interleaving of the code
    is one of the model). *)

From S2P Require Import Prelude Storage StorageProps.

Import ForgetfulStorage.

(** What a thread still has to do. *)
Inductive pending :=
  (** bytes reserved for a vacant entry, which is locked *)
  | PInsert (k v : bytes)
  (** the bytes by which [v] is longer reserved for the locked entry of [k] *)
  | PReplace (k slot v : bytes)
  (** a pruning pass, with the bytes it has reclaimed *)
  | PPrune (reclaimed : Z)
  (** bytes to give back to the counter *)
  | PRelease (n : Z).

Definition locked_key (p : pending) : option bytes :=
  match p with
  | PInsert k _ | PReplace k _ _ => Some k
  | _ => None
  end.

(** Bytes charged to the counter on behalf of a pending action. *)
Definition charge (p : pending) : Z :=
  match p with
  | PInsert k v => size k + size v
  | PReplace _ slot v => Z.max 0 (size v - size slot)
  | PPrune n | PRelease n => n
  end.

Record cstate := mkC { store : t; threads : list pending }.

Definition charges (ps : list pending) : Z := foldr (λ p acc, charge p + acc)%Z 0%Z ps.

Definition locks (ps : list pending) : list bytes := omap locked_key ps.

(** The atomic actions. [now] is the clock of the action. *)
Inductive step : cstate → cstate → Prop :=
  (** [set] or [insert_if_absent] finds no entry and reserves its bytes *)
  | StepReserveInsert s ps k v s' :
      k ∉ locks ps → data s !! k = None →
      reserve_bytes s (size k + size v) = Some s' →
      step (mkC s ps) (mkC s' (PInsert k v :: ps))
  (** it inserts the record and unlocks the entry *)
  | StepInsert s ps1 ps2 k v now :
      step (mkC s (ps1 ++ PInsert k v :: ps2))
           (mkC (with_data s (<[k := (v, now)]> (data s))) (ps1 ++ ps2))
  (** an identical value renews the instant of the record *)
  | StepTouch s ps k v a now :
      k ∉ locks ps → data s !! k = Some (v, a) →
      step (mkC s ps) (mkC (with_data s (<[k := (v, now)]> (data s))) ps)
  (** [replace_value] reserves what a longer value needs *)
  | StepReserveReplace s ps k slot v a s' :
      k ∉ locks ps → data s !! k = Some (slot, a) → slot ≠ v →
      (if (size slot <? size v)%Z then reserve_bytes s (size v - size slot) else Some s) = Some s' →
      step (mkC s ps) (mkC s' (PReplace k slot v :: ps))
  (** it writes the value; a shorter one leaves bytes to release *)
  | StepReplace s ps1 ps2 k slot v now :
      step (mkC s (ps1 ++ PReplace k slot v :: ps2))
           (mkC (with_data s (<[k := (v, now)]> (data s)))
              (ps1 ++ PRelease (Z.max 0 (size slot - size v)) :: ps2))
  (** [prune_expired] starts, *)
  | StepPruneStart s ps : step (mkC s ps) (mkC s (PPrune 0 :: ps))
  (** drops one expired record that nobody has locked, *)
  | StepPruneDrop s ps1 ps2 n k v a now :
      k ∉ locks (ps1 ++ ps2) → data s !! k = Some (v, a) → is_expired now s a = true →
      step (mkC s (ps1 ++ PPrune n :: ps2))
           (mkC (with_data s (delete k (data s))) (ps1 ++ PPrune (wrap64 (n + (size k + size v))) :: ps2))
  (** and ends by releasing the bytes it has reclaimed *)
  | StepPruneEnd s ps1 ps2 n :
      step (mkC s (ps1 ++ PPrune n :: ps2)) (mkC s (ps1 ++ PRelease n :: ps2))
  | StepRelease s ps1 ps2 n :
      step (mkC s (ps1 ++ PRelease n :: ps2)) (mkC (release_bytes s n) (ps1 ++ ps2)).

(** ** The invariant *)

(** What a pending action relies on: the entry it has locked is as it saw it. *)
Definition pending_ok (d : gmap bytes (bytes * Z)) (p : pending) : Prop :=
  match p with
  | PInsert k _ => d !! k = None
  | PReplace k slot _ => ∃ a, d !! k = Some (slot, a)
  | PPrune n | PRelease n => (0 ≤ n)%Z
  end.

Record cwf (c : cstate) : Prop := {
  c_exact : current_storage_bytes (store c) = (used (data (store c)) + charges (threads c))%Z;
  c_bound : (current_storage_bytes (store c) ≤ max_storage_bytes (store c) < USIZE)%Z;
  c_locks : NoDup (locks (threads c));
  c_pending : Forall (pending_ok (data (store c))) (threads c)
}.

Lemma charges_app ps1 ps2 : charges (ps1 ++ ps2) = (charges ps1 + charges ps2)%Z.
Proof. induction ps1 as [|p ps1 IH]; simpl; [done|]. lia. Qed.

Lemma locks_app ps1 ps2 : locks (ps1 ++ ps2) = locks ps1 ++ locks ps2.
Proof. apply omap_app. Qed.

Lemma charge_nonneg d p : pending_ok d p → (0 ≤ charge p)%Z.
Proof.
  destruct p as [k v|k slot v|n|n]; simpl; intros; try lia.
  pose proof (size_nonneg k). pose proof (size_nonneg v). lia.
Qed.

Lemma charges_nonneg d ps : Forall (pending_ok d) ps → (0 ≤ charges ps)%Z.
Proof. induction 1 as [|p ps Hp _ IH]; simpl; [done|]. apply charge_nonneg in Hp. lia. Qed.

(** Writing an entry that a pending action has not locked keeps what it
    relies on. *)
Lemma pending_ok_other d d' ps k :
  (∀ j, j ≠ k → d' !! j = d !! j) → k ∉ locks ps →
  Forall (pending_ok d) ps → Forall (pending_ok d') ps.
Proof.
  intros Hd Hk Hf. induction Hf as [|p ps Hp Hf IH]; [done|]. constructor.
  - destruct p as [j v|j slot v|n|n]; simpl in *; try done; rewrite Hd; try done;
      intros ->; apply Hk; by left.
  - apply IH. unfold locks in *. simpl in Hk. destruct (locked_key p); [|done].
    by apply not_elem_of_cons in Hk as [_ ?].
Qed.

Lemma insert_other {A} (d : gmap bytes A) k v j : j ≠ k → <[k := v]> d !! j = d !! j.
Proof. intros. by apply lookup_insert_ne. Qed.

Lemma delete_other {A} (d : gmap bytes A) k j : j ≠ k → delete k d !! j = d !! j.
Proof. intros. by apply lookup_delete_ne. Qed.

(** The pending action under focus, and the others. *)
Lemma cwf_focus s ps1 p ps2 :
  cwf (mkC s (ps1 ++ p :: ps2)) →
  current_storage_bytes s = (used (data s) + charge p + charges (ps1 ++ ps2))%Z ∧
  (current_storage_bytes s ≤ max_storage_bytes s < USIZE)%Z ∧
  NoDup (locks (ps1 ++ ps2)) ∧ (∀ k, locked_key p = Some k → k ∉ locks (ps1 ++ ps2)) ∧
  Forall (pending_ok (data s)) (ps1 ++ ps2) ∧ pending_ok (data s) p ∧
  (0 ≤ charges (ps1 ++ ps2))%Z.
Proof.
  intros [He Hb Hl Hp]. simpl in *. rewrite charges_app in He. simpl in He.
  rewrite locks_app in Hl. unfold locks in Hl at 2. simpl in Hl.
  apply Forall_app in Hp as [Hp1 [Hp0 Hp2]%Forall_cons].
  assert (Forall (pending_ok (data s)) (ps1 ++ ps2)) as Hp by (by apply Forall_app).
  rewrite charges_app, locks_app. pose proof (charges_nonneg _ _ Hp) as Hn.
  rewrite charges_app in Hn. destruct (locked_key p) as [k|]; simpl in Hl.
  - rewrite <-Permutation_middle in Hl. apply NoDup_cons in Hl as [Hk Hl].
    repeat split; try done; try lia. naive_solver.
  - repeat split; try done; lia.
Qed.

(** Replacing the action under focus. *)
Lemma cwf_refocus s ps1 p ps2 :
  current_storage_bytes s = (used (data s) + charge p + charges (ps1 ++ ps2))%Z →
  (current_storage_bytes s ≤ max_storage_bytes s < USIZE)%Z →
  NoDup (locks (ps1 ++ ps2)) → locked_key p = None →
  Forall (pending_ok (data s)) (ps1 ++ ps2) → pending_ok (data s) p →
  cwf (mkC s (ps1 ++ p :: ps2)).
Proof.
  intros He Hb Hl Hk Hp Hp0. split; simpl.
  - rewrite charges_app in *. simpl. lia.
  - done.
  - rewrite locks_app in *. unfold locks at 2. simpl. by rewrite Hk.
  - apply Forall_app in Hp as []. apply Forall_app. auto.
Qed.

Lemma cwf_new ttl max : (0 ≤ max < USIZE)%Z → cwf (mkC (with_max_storage_bytes ttl max) []).
Proof. intros. split; simpl; [done|lia|constructor|done]. Qed.

Lemma cwf_reserve_insert s ps k v s' :
  cwf (mkC s ps) → k ∉ locks ps → data s !! k = None →
  reserve_bytes s (size k + size v) = Some s' → cwf (mkC s' (PInsert k v :: ps)).
Proof.
  intros [He Hb Hl Hp] Hk Hd Hr. simpl in *.
  pose proof (size_nonneg k). pose proof (size_nonneg v).
  apply reserve_bytes_spec in Hr as [-> Hle]; [|lia..].
  split; simpl; [lia|lia|by constructor|by constructor].
Qed.

Lemma cwf_reserve_replace s ps k slot v a s' :
  cwf (mkC s ps) → k ∉ locks ps → data s !! k = Some (slot, a) →
  (if (size slot <? size v)%Z then reserve_bytes s (size v - size slot) else Some s) = Some s' →
  cwf (mkC s' (PReplace k slot v :: ps)).
Proof.
  intros [He Hb Hl Hp] Hk Hd Hr. simpl in *.
  assert (s' = with_current s (current_storage_bytes s + Z.max 0 (size v - size slot)) ∧
    (current_storage_bytes s + Z.max 0 (size v - size slot) ≤ max_storage_bytes s)%Z) as [-> Hle].
  { case_match; bool_facts.
    - apply reserve_bytes_spec in Hr as [-> Hle]; [|lia..]. rewrite Z.max_r by lia. done.
    - simplify_eq. rewrite Z.max_l by lia. rewrite Z.add_0_r. split; [by destruct s'|lia]. }
  split; simpl; [lia|lia|by constructor|constructor; [by exists a|done]].
Qed.

Lemma cwf_step c c' : step c c' → cwf c → cwf c'.
Proof.
  intros Hs Hwf. destruct Hs as
    [s ps k v s' Hk Hd Hr|s ps1 ps2 k v now|s ps k v a now Hk Hd|s ps k slot v a s' Hk Hd Hne Hr
    |s ps1 ps2 k slot v now|s ps|s ps1 ps2 n k v a now Hk Hd Hx|s ps1 ps2 n|s ps1 ps2 n].
  - by eapply cwf_reserve_insert.
  - apply cwf_focus in Hwf as (He & Hb & Hl & Hk & Hp & Hp0 & Hn). simpl in *.
    split; simpl; [|done|done|].
    + rewrite used_insert by done. unfold record_size. simpl. lia.
    + eapply pending_ok_other; [apply insert_other|by apply Hk|done].
  - destruct Hwf as [He Hb Hl Hp]. simpl in *. split; simpl; [|done|done|].
    + rewrite (used_replace _ _ _ _ Hd). simpl. lia.
    + eapply pending_ok_other; [apply insert_other|done..].
  - by eapply cwf_reserve_replace.
  - apply cwf_focus in Hwf as (He & Hb & Hl & Hk & Hp & [a Hd] & Hn). simpl in *.
    apply cwf_refocus; simpl; try done; [| |lia].
    + rewrite (used_replace _ _ _ _ Hd). simpl. lia.
    + eapply pending_ok_other; [apply insert_other|by apply Hk|done].
  - destruct Hwf as [He Hb Hl Hp]. simpl in *. by split; simpl; [lia|..|constructor].
  - apply cwf_focus in Hwf as (He & Hb & Hl & _ & Hp & Hp0 & Hn). simpl in *.
    pose proof (used_delete _ _ _ Hd) as Hu. unfold record_size in Hu. simpl in Hu.
    pose proof (used_nonneg (delete k (data s))).
    pose proof (size_nonneg k). pose proof (size_nonneg v).
    rewrite wrap64_small by lia. apply cwf_refocus; simpl; try done; [lia| |lia].
    eapply pending_ok_other; [apply delete_other|done..].
  - apply cwf_focus in Hwf as (He & Hb & Hl & _ & Hp & Hp0 & Hn).
    apply cwf_refocus; done.
  - apply cwf_focus in Hwf as (He & Hb & Hl & _ & Hp & Hp0 & Hn). simpl in *.
    pose proof (used_nonneg (data s)).
    unfold release_bytes. case_match; bool_facts; split; simpl; rewrite ?wrap64_small; try done; lia.
Qed.

(** ** Every operation is a sequence of its actions *)

Lemma steps_insert_vacant now s ps k v :
  k ∉ locks ps → data s !! k = None → rtc step (mkC s ps) (mkC (insert_vacant now s k v).1 ps).
Proof.
  intros Hk Hd. unfold insert_vacant. destruct (reserve_bytes s _) as [s'|] eqn:Hr; simpl; [|done].
  eapply rtc_l; [by eapply StepReserveInsert|]. apply rtc_once.
  apply (StepInsert s' [] ps k v now).
Qed.

Lemma steps_replace_value now s ps k slot a v :
  k ∉ locks ps → data s !! k = Some (slot, a) →
  rtc step (mkC s ps) (mkC (replace_value now s k slot v).1 ps).
Proof.
  intros Hk Hd. unfold replace_value. case_bool_decide as E.
  { apply rtc_once. subst. by eapply StepTouch. }
  destruct (if (size slot <? size v)%Z then _ else _) as [s1|] eqn:Hr; [|done]. cbn [fst].
  eapply rtc_l; [by eapply StepReserveReplace|].
  eapply rtc_l; [apply (StepReplace s1 [] ps k slot v now)|]. apply rtc_once. simpl.
  set (s2 := with_data s1 (<[k := (v, now)]> (data s1))).
  replace (if (size v <? size slot)%Z then release_bytes s2 (size slot - size v) else s2)
    with (release_bytes s2 (Z.max 0 (size slot - size v))).
  { apply (StepRelease s2 [] ps). }
  clear Hr. destruct (size v <? size slot)%Z eqn:El; bool_facts;
    [by rewrite Z.max_r by lia|by rewrite Z.max_l by lia].
Qed.

Lemma steps_prune_drops now gone s n ps :
  gone ⊆ data s → (∀ k v a, gone !! k = Some (v, a) → is_expired now s a = true ∧ k ∉ locks ps) →
  (0 ≤ n < USIZE)%Z →
  rtc step (mkC s (PPrune n :: ps))
    (mkC (with_data s (data s ∖ gone)) (PPrune (wrap64 (n + used gone)) :: ps)).
Proof.
  revert s n. induction gone as [|k [v a] gone Hk IH] using map_ind; intros s n Hsub Hx Hn.
  { rewrite map_difference_empty. change (used ∅) with 0%Z.
    rewrite Z.add_0_r, wrap64_small by done. by destruct s. }
  destruct (Hx k v a) as [Hxk Hlk]; [by rewrite lookup_insert_eq|].
  assert (data s !! k = Some (v, a)) as Hd
    by (eapply lookup_weaken; [|done]; by rewrite lookup_insert_eq).
  eapply rtc_l; [by apply (StepPruneDrop s [] ps n k v a now)|]. simpl.
  set (s1 := with_data s (delete k (data s))).
  replace (with_data s (data s ∖ <[k := (v, a)]> gone)) with (with_data s1 (data s1 ∖ gone)).
  2: { unfold s1, with_data. simpl. f_equal. rewrite <-delete_difference.
       apply map_eq. intros j. rewrite lookup_difference. destruct (decide (j = k)) as [->|Hne].
       - by rewrite lookup_delete_eq, Hk, lookup_delete_eq.
       - rewrite !lookup_delete_ne, lookup_difference by done. done. }
  rewrite used_insert by done.
  replace (wrap64 (n + (record_size k (v, a) + used gone)))
    with (wrap64 (wrap64 (n + (size k + size v)) + used gone)).
  2: { unfold wrap64, record_size. rewrite Z.add_mod_idemp_l by done. simpl. f_equal. lia. }
  apply IH.
  - simpl. apply map_subseteq_spec. intros j w Hj. rewrite lookup_delete_ne by (by intros <-; congruence).
    eapply lookup_weaken; [|done]. rewrite lookup_insert_ne; [done|]. by intros <-; congruence.
  - intros j w b Hj. apply (Hx j w b). rewrite lookup_insert_ne; [done|]. by intros <-; congruence.
  - apply Z.mod_pos_bound. done.
Qed.

Lemma difference_filter (P : bytes * (bytes * Z) → bool) (d : gmap bytes (bytes * Z)) :
  d ∖ filter (λ kv, P kv = true) d = filter (λ kv, P kv = false) d.
Proof.
  apply map_eq. intros k. rewrite lookup_difference, !map_lookup_filter.
  destruct (d !! k) as [v|]; simpl; [|done]. by destruct (P (k, v)).
Qed.

Lemma steps_prune_expired now s ps :
  locks ps = [] → rtc step (mkC s ps) (mkC (prune_expired now s).1 ps).
Proof.
  intros Hl. unfold prune_expired. destruct (ttl s =? -1)%Z eqn:Et; [done|]. cbn [fst].
  rewrite used_wrapped.
  set (gone := filter (λ kv, is_expired now s kv.2.2 = true) (data s)).
  rewrite <-(difference_filter (λ kv, is_expired now s kv.2.2)). fold gone.
  eapply rtc_l; [apply StepPruneStart|].
  etrans; [apply (steps_prune_drops now gone)|].
  - apply map_filter_subseteq.
  - intros k v a [_ Hx]%map_lookup_filter_Some. rewrite Hl. split; [done|apply not_elem_of_nil].
  - unfold USIZE. lia.
  - eapply rtc_l; [apply (StepPruneEnd _ [] ps)|]. apply rtc_once. apply (StepRelease _ [] ps).
Qed.

(** ** Theorems *)

(** C9: in every interleaving of the atomic actions of concurrent writers and
    pruning passes, the records held never exceed the byte counter and the
    counter never exceeds the budget (so an in-flight release never wraps it);
    whenever no operation is in flight, the counter is exact. *)
Theorem concurrent_accounting (ttl max : Z) (c : cstate) (Hmax : (0 ≤ max < USIZE)%Z)
    (Hreach : rtc step (mkC (with_max_storage_bytes ttl max) []) c) :
  (used (data (store c)) ≤ current_storage_bytes (store c) ≤ max_storage_bytes (store c))%Z ∧
  (∀ n, PRelease n ∈ threads c → (n ≤ current_storage_bytes (store c))%Z) ∧
  (threads c = [] → current_storage_bytes (store c) = used (data (store c))).
Proof.
  assert (cwf c) as [He [Hb1 Hb2] Hl Hp].
  { eapply (rtc_ind_r (λ c, cwf c)); [by apply cwf_new| |exact Hreach]. intros c1 c2 _ Hst Hc.
    by eapply cwf_step. }
  pose proof (used_nonneg (data (store c))) as Hu. pose proof (charges_nonneg _ _ Hp) as Hc.
  split; [lia|]. split; [|intros E; rewrite E in He; simpl in He; lia].
  intros n Hn. apply list_elem_of_split in Hn as (ps1 & ps2 & E). rewrite E in *.
  rewrite charges_app in He. apply Forall_app in Hp as [Hp1 [_ Hp2]%Forall_cons].
  pose proof (charges_nonneg _ _ Hp1). pose proof (charges_nonneg _ _ Hp2). simpl in He. lia.
Qed.

(** The sequential operations of the store are interleavings of the
    concurrent model: run without interference, the atomic actions of [set],
    [insert_if_absent] and [prune_expired] reach exactly the store the
    sequential definitions compute, whatever other threads have pending on
    other keys. *)
Lemma operations_are_steps (now : Z) (s : t) (ps : list pending) (k v : bytes)
    (Hk : k ∉ locks ps) :
  rtc step (mkC s ps) (mkC (set now s k v).1 ps) ∧
  rtc step (mkC s ps) (mkC (insert_if_absent now s k v).1 ps) ∧
  (locks ps = [] → rtc step (mkC s ps) (mkC (prune_expired now s).1 ps)).
Proof.
  simpl. unfold fs_set, fs_insert_if_absent. split; [|split; [|apply steps_prune_expired]].
  - destruct (data s !! k) as [[slot a]|] eqn:Hd;
      [by eapply steps_replace_value|by apply steps_insert_vacant].
  - destruct (data s !! k) as [[slot a]|] eqn:Hd; [|by apply steps_insert_vacant].
    destruct (is_expired now s a); [by eapply steps_replace_value|].
    case_bool_decide; [|done]. subst. apply rtc_once. by eapply StepTouch.
Qed.

(** ** A concrete interleaving *)

(** Two writers of a store of ten bytes: the second reserves before the first
    has inserted. *)
Definition example_interleaving : cstate :=
  mkC (mk {[ [x01] := ([x02; x03], 7%Z) ]} 60 5 10) [PInsert [x04] [x05]].

Lemma example_interleaving_reachable :
  rtc step (mkC (with_max_storage_bytes 60 10) []) example_interleaving.
Proof.
  eapply rtc_l; [by apply (StepReserveInsert _ [] [x01] [x02; x03]); [apply not_elem_of_nil|..]|].
  eapply rtc_l.
  { apply (StepReserveInsert _ _ [x04] [x05]); [|done|done].
    simpl. unfold locks. simpl. by rewrite list_elem_of_singleton. }
  apply rtc_once. exact (StepInsert (mk ∅ 60 5 10) [PInsert [x04] [x05]] [] [x01] [x02; x03] 7).
Defined.

Lemma concurrent_accounting_witness :
  (used (data (store example_interleaving)) ≤ 5 ≤ 10)%Z ∧
  (∀ n, PRelease n ∈ threads example_interleaving → (n ≤ 5)%Z) ∧
  (threads example_interleaving = [] → 5%Z = used (data (store example_interleaving))).
Proof.
  apply (concurrent_accounting 60 10 example_interleaving); [unfold USIZE; lia|].
  exact example_interleaving_reachable.
Defined.

