(* ===== verification/Fragmentation.v ===== *)
(** * Application-level fragmentation (src/src/fragmentation.rs)

    The wire format of a datagram, the splitting of a message, and the
    reassembly buffers of the receiver. *)

From S2P Require Import Prelude Storage.

(** [SocketAddr], by the text of its IP address and its port. *)
Record SocketAddr := mkAddr { addr_ip : string; addr_port : Z }.

#[global] Instance SocketAddr_eq_dec : EqDecision SocketAddr.
Proof. solve_decision. Defined.

#[global] Program Instance SocketAddr_countable : Countable SocketAddr :=
  inj_countable' (λ a, (addr_ip a, addr_port a)) (λ p, mkAddr p.1 p.2) _.
Next Obligation. by intros []. Qed.

(** ** Constants *)

Definition FRAG_MAGIC : Z := 0x4B414446.
Definition FRAG_HEADER_LEN : nat := 4 + 4 + 2 + 2.
Definition FRAG_CHUNK_SIZE : nat := 1400.
Definition REASSEMBLY_TTL : Z := from_secs 10.
Definition REASSEMBLY_GC_INTERVAL : Z := from_secs 1.
Definition MAX_MESSAGE_SIZE : Z := 256 * 1024.
Definition MAX_REASSEMBLY_ENTRIES : nat := 64.
Definition MAX_REASSEMBLY_ENTRIES_PER_PEER : nat := 8.

(** [x as u16]. *)
Definition as_u16 (x : Z) : Z := (x `mod` 65536)%Z.

(** ** [ReassemblyEntry] *)

Module ReassemblyEntry.

Record t := mk {
  total : Z;
  received : Z;
  chunks : list (option bytes);
  created_at : Z
}.

(** [ReassemblyEntry::new]. *)
Definition new (now : Z) (total : Z) : t := mk total 0 (replicate (Z.to_nat total) None) now.

(** [ReassemblyEntry::insert]. The counter is a [u16]; it counts the chunks
    present, of which there are at most [total]. *)
Definition insert (e : t) (index : Z) (payload : bytes) : t * bool :=
  let idx := Z.to_nat index in
  match chunks e !! idx with
  | None => (e, false)
  | Some slot =>
      let e' :=
        match slot with
        | None => mk (total e) (received e + 1) (<[idx := Some payload]> (chunks e)) (created_at e)
        | Some _ => e
        end in
      (e', (received e' =? total e')%Z)
  end.

(** [ReassemblyEntry::assemble]. *)
Definition assemble (e : t) : option bytes := mjoin <$> mapM (λ c, c) (chunks e).

End ReassemblyEntry.

(** [ReassemblyMap]. *)
Abbreviation ReassemblyMap := (gmap (SocketAddr * Z) ReassemblyEntry.t).

(** ** Splitting *)

(** [slice::chunks], by fuel on the length of the slice. *)
Fixpoint chunks_fuel (fuel n : nat) (l : bytes) : list bytes :=
  match fuel, l with
  | _, [] => []
  | O, _ => []
  | S fuel', _ => take n l :: chunks_fuel fuel' n (drop n l)
  end.

Definition chunks (n : nat) (l : bytes) : list bytes := chunks_fuel (length l) n l.

(** The header of a datagram. *)
Definition frag_header (frag_id index total : Z) : bytes :=
  be_bytes 4 FRAG_MAGIC ++ be_bytes 4 frag_id ++ be_bytes 2 index ++ be_bytes 2 total.

(** [usize::div_ceil]. *)
Definition div_ceil (a b : Z) : Z := ((a + b - 1) `div` b)%Z.

(** [encode_fragments]. *)
Definition encode_fragments (frag_id : Z) (payload : bytes) : list bytes :=
  match payload with
  | [] => [frag_header frag_id 0 1]
  | _ =>
      let total := as_u16 (div_ceil (Z.of_nat (length payload)) (Z.of_nat FRAG_CHUNK_SIZE)) in
      imap (λ i chunk, frag_header frag_id (as_u16 (Z.of_nat i)) total ++ chunk)
        (chunks FRAG_CHUNK_SIZE payload)
  end.

(** [FragHeader]. *)
Record FragHeader := mkHeader { frag_id : Z; index : Z; total : Z }.

(** [data[a..b]]. *)
Definition slice (a b : nat) (l : bytes) : bytes := take (b - a) (drop a l).

(** [parse_fragment]. *)
Definition parse_fragment (data : bytes) : option (FragHeader * bytes) :=
  if negb ((FRAG_HEADER_LEN <=? length data) &&
           (length data <=? FRAG_HEADER_LEN + FRAG_CHUNK_SIZE)) then None
  else if negb (be_value (slice 0 4 data) =? FRAG_MAGIC)%Z then None
  else
    let frag_id := be_value (slice 4 8 data) in
    let index := be_value (slice 8 10 data) in
    let total := be_value (slice 10 12 data) in
    if (total =? 0)%Z || (total <=? index)%Z then None
    else Some (mkHeader frag_id index total, drop FRAG_HEADER_LEN data).

(** ** Reassembly *)

(** Keys of the map that belong to [peer]. *)
Definition peer_entries (m : ReassemblyMap) (peer : SocketAddr) : nat :=
  length (filter (λ k, k.1 = peer) (map_to_list m).*1).

(** [accept_fragment]: the map, and the message once it is complete. *)
Definition accept_fragment (now : Z) (m : ReassemblyMap) (peer : SocketAddr) (h : FragHeader)
    (chunk : bytes) : ReassemblyMap * option bytes :=
  let key := (peer, frag_id h) in
  let opened :=
    match m !! key with
    | Some _ => Some m
    | None =>
        if MAX_REASSEMBLY_ENTRIES <=? size m then None
        else if MAX_REASSEMBLY_ENTRIES_PER_PEER <=? peer_entries m peer then None
        else Some (<[key := ReassemblyEntry.new now (total h)]> m)
    end in
  match opened with
  | None => (m, None)
  | Some m1 =>
      match m1 !! key with
      | None => (m1, None)
      | Some entry =>
          if negb (ReassemblyEntry.total entry =? total h)%Z then (delete key m1, None)
          else
            let '(entry', complete) := ReassemblyEntry.insert entry (index h) chunk in
            if negb complete then (<[key := entry']> m1, None)
            else (delete key m1, ReassemblyEntry.assemble entry')
      end
  end.

(** The sweep of [gc_reassembly] (src/src/protocol/transport.rs). *)
Definition gc_sweep (now : Z) (m : ReassemblyMap) : ReassemblyMap :=
  filter (λ kv, (Z.max 0 (now - ReassemblyEntry.created_at kv.2) < REASSEMBLY_TTL)%Z) m.

(** ** The receive path up to a message (src/src/protocol/transport.rs) *)

(** The fields [reassembly] and [last_reassembly_gc] of [KademliaProtocol]. *)
Record Reassembler := mkR { reassembly : ReassemblyMap; last_reassembly_gc : Z }.

(** [KademliaProtocol::gc_reassembly]. *)
Definition gc_reassembly (now : Z) (r : Reassembler) : Reassembler :=
  if (Z.max 0 (now - last_reassembly_gc r) <? REASSEMBLY_GC_INTERVAL)%Z then r
  else mkR (gc_sweep now (reassembly r)) now.

(** The first part of [KademliaProtocol::handle_datagram]: from a datagram to
    the serialized frame it completes, if any. The product of a [u16] and 1400
    does not saturate. *)
Definition receive_payload (now : Z) (r : Reassembler) (peer : SocketAddr) (data : bytes)
    : Reassembler * option bytes :=
  match parse_fragment data with
  | None => (r, None)
  | Some (header, chunk) =>
      if (total header =? 1)%Z then (r, Some chunk)
      else if (MAX_MESSAGE_SIZE <? total header * Z.of_nat FRAG_CHUNK_SIZE)%Z then (r, None)
      else
        let r1 := gc_reassembly now r in
        let '(m, payload) := accept_fragment now (reassembly r1) peer header chunk in
        (mkR m (last_reassembly_gc r1), payload)
  end.

(** The sender: [KademliaProtocol::encode_frame] after serialization. The
    fragment id is the counter's, a [u32] that wraps around. *)
Definition encode_message (next_frag_id : Z) (message : bytes) : option (list bytes) :=
  if (MAX_MESSAGE_SIZE <? Z.of_nat (length message))%Z then None
  else Some (encode_fragments (next_frag_id `mod` 2 ^ 32) message).
