(* ===== verification/FragmentationProps.v ===== *)
(** * What fragmentation promises (src/src/fragmentation.rs, the receive path of
    src/src/protocol/transport.rs)

    Every datagram parses back to the header and chunk it was built from;
    a message is reassembled from its fragments in any order, with duplicates
    and between the fragments of other messages; the buffers are bounded. *)

From S2P Require Import Prelude Storage Fragmentation.

(** ** Chunks *)

Lemma chunks_fuel_nil fuel n : chunks_fuel fuel n [] = [].
Proof. by destruct fuel. Qed.

Lemma chunks_fuel_cons fuel n x l :
  chunks_fuel (S fuel) n (x :: l) = take n (x :: l) :: chunks_fuel fuel n (drop n (x :: l)).
Proof. done. Qed.

Lemma chunks_fuel_join fuel n l : 0 < n → length l ≤ fuel → mjoin (chunks_fuel fuel n l) = l.
Proof.
  intros Hn. revert l. induction fuel as [|fuel IH]; intros [|x l] Hl; try done; simpl in Hl; [lia|].
  rewrite chunks_fuel_cons. change (mjoin (?c :: ?cs)) with (c ++ mjoin cs).
  rewrite IH; [apply take_drop|]. rewrite length_drop. simpl. lia.
Qed.

Lemma chunks_fuel_length fuel n l :
  0 < n → length l ≤ fuel →
  Z.of_nat (length (chunks_fuel fuel n l)) = div_ceil (Z.of_nat (length l)) (Z.of_nat n).
Proof.
  intros Hn. unfold div_ceil. revert l. induction fuel as [|fuel IH]; intros l Hl.
  - destruct l; [|simpl in Hl; lia]. simpl. rewrite Z.div_small; lia.
  - destruct l as [|x l]. { simpl. rewrite Z.div_small; lia. }
    rewrite chunks_fuel_cons. assert (0 < length (x :: l)) by (simpl; lia).
    set (l' := x :: l) in *. clearbody l'. cbn [length].
    rewrite Nat2Z.inj_succ, IH by (rewrite length_drop; lia). rewrite length_drop.
    destruct (decide (n ≤ length l')).
    + rewrite Nat2Z.inj_sub by done.
      replace (Z.of_nat (length l') + Z.of_nat n - 1)%Z
        with ((Z.of_nat (length l') - Z.of_nat n + Z.of_nat n - 1) + 1 * Z.of_nat n)%Z by lia.
      rewrite Z.div_add by lia. lia.
    + replace (length l' - n) with 0 by lia. rewrite Z.div_small by lia.
      symmetry. rewrite <-(Z.div_unique_pos _ _ 1 (Z.of_nat (length l') - 1)); lia.
Qed.

Lemma chunks_fuel_size fuel n l c : c ∈ chunks_fuel fuel n l → length c ≤ n.
Proof.
  revert l. induction fuel as [|fuel IH]; intros [|x l]; try by intros ?%not_elem_of_nil.
  rewrite chunks_fuel_cons. intros [->|Hc]%elem_of_cons; [rewrite length_take; lia|by eapply IH].
Qed.

Lemma chunks_join n l : 0 < n → mjoin (chunks n l) = l.
Proof. intros. by apply chunks_fuel_join. Qed.

Lemma chunks_length n l :
  0 < n → Z.of_nat (length (chunks n l)) = div_ceil (Z.of_nat (length l)) (Z.of_nat n).
Proof. intros. by apply chunks_fuel_length. Qed.

(** ** Datagrams *)

Lemma length_frag_header f i t : length (frag_header f i t) = FRAG_HEADER_LEN.
Proof. unfold frag_header. rewrite !length_app, !length_be_bytes. done. Qed.

Lemma slice_app_l a b (l1 l2 : bytes) : b ≤ length l1 → slice a b (l1 ++ l2) = slice a b l1.
Proof.
  intros. unfold slice. destruct (decide (a ≤ b)).
  - rewrite drop_app_le by lia. rewrite take_app_le; [done|]. rewrite length_drop. lia.
  - replace (b - a) with 0 by lia. done.
Qed.

Lemma be_value_field n x : (0 ≤ x < 256 ^ Z.of_nat n)%Z → be_value (be_bytes n x) = x.
Proof. intros. rewrite be_value_be_bytes. by apply Z.mod_small. Qed.

(** The four fields of a header. *)
Lemma header_fields (a b c d : bytes) :
  length a = 4 → length b = 4 → length c = 2 → length d = 2 →
  slice 0 4 (a ++ b ++ c ++ d) = a ∧ slice 4 8 (a ++ b ++ c ++ d) = b ∧
  slice 8 10 (a ++ b ++ c ++ d) = c ∧ slice 10 12 (a ++ b ++ c ++ d) = d.
Proof.
  intros. do 5 (destruct a as [|? a]; try done). do 5 (destruct b as [|? b]; try done).
  do 3 (destruct c as [|? c]; try done). by do 3 (destruct d as [|? d]; try done).
Qed.

Lemma parse_frag_header f i t chunk :
  (0 ≤ f < 2 ^ 32)%Z → (0 ≤ i < t)%Z → (t < 65536)%Z → length chunk ≤ FRAG_CHUNK_SIZE →
  parse_fragment (frag_header f i t ++ chunk) = Some (mkHeader f i t, chunk).
Proof.
  intros Hf Hi Ht Hc. unfold parse_fragment. rewrite length_app, length_frag_header.
  rewrite (proj2 (Nat.leb_le _ _)) by lia. rewrite (proj2 (Nat.leb_le _ _)) by lia. cbn [negb andb].
  rewrite !slice_app_l by (rewrite length_frag_header; unfold FRAG_HEADER_LEN; lia).
  rewrite <-(length_frag_header f i t) at 1. rewrite drop_app_length. unfold frag_header.
  destruct (header_fields (be_bytes 4 FRAG_MAGIC) (be_bytes 4 f) (be_bytes 2 i) (be_bytes 2 t))
    as (-> & -> & -> & ->); [apply length_be_bytes..|].
  rewrite !be_value_field by (simpl; unfold FRAG_MAGIC; lia). simpl.
  rewrite (proj2 (Z.eqb_neq _ _)), (proj2 (Z.leb_gt _ _)) by lia. done.
Qed.

(** The fragments of a message, as the receiver parses them. *)
Definition fragment_of (f : Z) (cs : list bytes) (h : FragHeader) (chunk : bytes) : Prop :=
  frag_id h = f ∧ total h = Z.of_nat (length cs) ∧ (0 ≤ index h)%Z ∧
  cs !! Z.to_nat (index h) = Some chunk.

(** The chunks of a message. *)
Definition message_chunks (payload : bytes) : list bytes :=
  match payload with
  | [] => [[]]
  | _ => chunks FRAG_CHUNK_SIZE payload
  end.

Lemma message_chunks_join payload : mjoin (message_chunks payload) = payload.
Proof.
  destruct payload as [|x l]; [done|]. apply chunks_join. unfold FRAG_CHUNK_SIZE. lia.
Qed.

Lemma message_chunks_size payload c : c ∈ message_chunks payload → length c ≤ FRAG_CHUNK_SIZE.
Proof.
  destruct payload as [|x l]; [|apply chunks_fuel_size].
  intros ->%list_elem_of_singleton. simpl. lia.
Qed.

(** Payloads whose fragment count fits the header. *)
Definition fits (payload : bytes) : Prop :=
  (Z.of_nat (length payload) ≤ 65535 * Z.of_nat FRAG_CHUNK_SIZE)%Z.

Lemma message_chunks_count payload : fits payload → (1 ≤ Z.of_nat (length (message_chunks payload)) < 65536)%Z.
Proof.
  intros Hf. destruct payload as [|x l]; [simpl; lia|]. unfold message_chunks.
  rewrite chunks_length by (unfold FRAG_CHUNK_SIZE; lia). unfold fits in Hf.
  unfold div_ceil. unfold FRAG_CHUNK_SIZE in *.
  assert (0 < length (x :: l)) by (simpl; lia). set (n := Z.of_nat (length (x :: l))) in *.
  assert (1 ≤ n)%Z by lia. clearbody n.
  pose proof (Z.div_mod (n + Z.of_nat 1400 - 1) (Z.of_nat 1400) ltac:(lia)).
  pose proof (Z.mod_pos_bound (n + Z.of_nat 1400 - 1) (Z.of_nat 1400) ltac:(lia)). lia.
Qed.

Lemma encode_fragments_eq f payload :
  fits payload →
  encode_fragments f payload =
  imap (λ i c, frag_header f (Z.of_nat i) (Z.of_nat (length (message_chunks payload))) ++ c)
    (message_chunks payload).
Proof.
  intros Hf. pose proof (message_chunks_count payload Hf) as Hn.
  destruct payload as [|x l]; [done|]. unfold encode_fragments, message_chunks in *.
  rewrite <-chunks_length by (unfold FRAG_CHUNK_SIZE; lia).
  set (cs := chunks FRAG_CHUNK_SIZE (x :: l)) in *.
  apply imap_ext. intros i c Hi. apply lookup_lt_Some in Hi. f_equal.
  unfold as_u16. rewrite !Z.mod_small by lia. done.
Qed.

Lemma encode_fragments_parse f payload d :
  fits payload → (0 ≤ f < 2 ^ 32)%Z → d ∈ encode_fragments f payload →
  ∃ h chunk, parse_fragment d = Some (h, chunk) ∧ fragment_of f (message_chunks payload) h chunk.
Proof.
  intros Hfit Hf. rewrite encode_fragments_eq by done. pose proof (message_chunks_count payload Hfit).
  intros (i & Hi)%list_elem_of_lookup. rewrite list_lookup_imap in Hi.
  destruct (message_chunks payload !! i) as [c|] eqn:Hc; [|done]. simpl in Hi. injection Hi as <-.
  pose proof (lookup_lt_Some _ _ _ Hc).
  eexists _, c. split.
  - apply parse_frag_header; [done|lia|lia|]. eapply message_chunks_size, list_elem_of_lookup_2, Hc.
  - split; [done|]. split; [done|]. simpl. split; [lia|]. by rewrite Nat2Z.id.
Qed.

(** ** Reassembly of one message *)

(** The buffer of a message of chunks [cs] that has received the indices [I]. *)
Record holds_chunks (cs : list bytes) (I : gset nat) (e : ReassemblyEntry.t) : Prop := {
  hc_total : ReassemblyEntry.total e = Z.of_nat (length cs);
  hc_received : ReassemblyEntry.received e = Z.of_nat (size I);
  hc_chunks : ReassemblyEntry.chunks e = imap (λ i c, if decide (i ∈ I) then Some c else None) cs;
  hc_indices : I ⊆ set_seq 0 (length cs)
}.

Lemma holds_chunks_new now cs :
  holds_chunks cs ∅ (ReassemblyEntry.new now (Z.of_nat (length cs))).
Proof.
  split; simpl; [done|done| |set_solver]. rewrite Nat2Z.id. apply list_eq. intros i.
  rewrite list_lookup_imap. destruct (cs !! i) as [c|] eqn:Hi; simpl.
  - rewrite decide_False by set_solver. apply lookup_replicate. split; [done|].
    by eapply lookup_lt_Some.
  - apply lookup_ge_None in Hi. apply lookup_ge_None. by rewrite length_replicate.
Qed.

Lemma holds_chunks_insert cs I e i c :
  holds_chunks cs I e → cs !! i = Some c →
  ∃ e', ReassemblyEntry.insert e (Z.of_nat i) c =
      (e', bool_decide (size ({[i]} ∪ I) = length cs)) ∧
    holds_chunks cs ({[i]} ∪ I) e' ∧ ReassemblyEntry.created_at e' = ReassemblyEntry.created_at e.
Proof.
  intros [Ht Hr Hc Hi] Hci. unfold ReassemblyEntry.insert. rewrite Nat2Z.id, Hc, list_lookup_imap, Hci.
  simpl. pose proof (lookup_lt_Some _ _ _ Hci) as Hlt.
  assert ({[i]} ∪ I ⊆ set_seq 0 (length cs)) as Hi'.
  { apply union_subseteq. split; [|done]. apply singleton_subseteq_l, elem_of_set_seq. lia. }
  destruct (decide (i ∈ I)) as [Hin|Hin].
  - assert ({[i]} ∪ I = I) as -> by set_solver.
    eexists; split; [|split; [by split|done]]. f_equal. rewrite Hr, Ht.
    destruct (Z.eqb_spec (Z.of_nat (size I)) (Z.of_nat (length cs))); symmetry;
      [apply bool_decide_eq_true|apply bool_decide_eq_false]; lia.
  - assert (size ({[i]} ∪ I) = S (size I)) as Hsz.
    { rewrite size_union by set_solver. by rewrite size_singleton. }
    eexists; split; [apply f_equal2; [reflexivity|]|split; [split|]]; simpl; [|done| | |done|done].
    + rewrite Hr, Ht, Hsz.
      destruct (Z.eqb_spec (Z.of_nat (size I) + 1) (Z.of_nat (length cs))); symmetry;
        [apply bool_decide_eq_true|apply bool_decide_eq_false]; lia.
    + rewrite Hsz, Hr. lia.
    + apply list_eq. intros j. rewrite list_lookup_imap. destruct (decide (i = j)) as [<-|Hne].
      * rewrite list_lookup_insert_eq by (by rewrite length_imap). rewrite Hci. simpl.
        by rewrite decide_True by set_solver.
      * rewrite list_lookup_insert_ne, list_lookup_imap by done. destruct (cs !! j) as [d|]; [|done].
        simpl. f_equal. by destruct (decide (j ∈ I)), (decide (j ∈ {[i]} ∪ I)); try done; set_solver.
Qed.

Lemma full_indices (cs : list bytes) (I : gset nat) :
  I ⊆ set_seq 0 (length cs) → size I = length cs → I = set_seq 0 (length cs).
Proof. intros Hsub Hsz. apply set_subseteq_size_eq; [done|]. rewrite size_set_seq. lia. Qed.

Lemma assemble_full cs e :
  holds_chunks cs (set_seq 0 (length cs)) e → ReassemblyEntry.assemble e = Some (mjoin cs).
Proof.
  intros [_ _ Hc _]. unfold ReassemblyEntry.assemble. rewrite Hc.
  assert (mapM (λ c, c) (imap (λ i c, if decide (i ∈ set_seq (C := gset nat) 0 (length cs))
    then Some c else None) cs) = Some cs) as ->; [|done].
  apply mapM_Some, Forall2_same_length_lookup. rewrite length_imap. split; [done|].
  intros i x y Hx Hy. rewrite list_lookup_imap, Hy in Hx. simpl in Hx. injection Hx as <-.
  rewrite decide_True; [done|]. apply elem_of_set_seq. apply lookup_lt_Some in Hy. lia.
Qed.

(** ** Frame of [accept_fragment] *)

Lemma accept_other now m peer h chunk k :
  k ≠ (peer, frag_id h) → (accept_fragment now m peer h chunk).1 !! k = m !! k.
Proof.
  intros Hne. unfold accept_fragment.
  destruct (m !! (peer, frag_id h)) as [e|] eqn:Hm.
  - rewrite Hm. destruct (negb _); cbn [fst negb]; [by rewrite lookup_delete_ne|].
    destruct (ReassemblyEntry.insert _ (index h) chunk) as [e' []]; cbn [fst negb];
      [by rewrite lookup_delete_ne|by rewrite lookup_insert_ne].
  - destruct (_ <=? size m); [done|]. destruct (_ <=? _); [done|]. rewrite lookup_insert_eq.
    destruct (negb _); cbn [fst negb]; [by rewrite lookup_delete_ne, lookup_insert_ne|].
    destruct (ReassemblyEntry.insert _ (index h) chunk) as [e' []]; cbn [fst negb];
      [by rewrite lookup_delete_ne, lookup_insert_ne|by rewrite !lookup_insert_ne].
Qed.

Lemma gc_sweep_lookup now m k e :
  m !! k = Some e → (now < ReassemblyEntry.created_at e + REASSEMBLY_TTL)%Z → gc_sweep now m !! k = Some e.
Proof.
  intros Hk Hn. apply map_lookup_filter_Some. split; [done|]. simpl.
  unfold REASSEMBLY_TTL, from_secs in *. lia.
Qed.

Lemma gc_reassembly_lookup now r k e :
  reassembly r !! k = Some e → (now < ReassemblyEntry.created_at e + REASSEMBLY_TTL)%Z →
  reassembly (gc_reassembly now r) !! k = Some e.
Proof. unfold gc_reassembly. case_match; [done|]. apply gc_sweep_lookup. Qed.

Lemma filter_keys_le (P : (SocketAddr * Z) * ReassemblyEntry.t → Prop) `{!∀ x, Decision (P x)}
    (m : ReassemblyMap) peer : peer_entries (filter P m) peer ≤ peer_entries m peer.
Proof.
  unfold peer_entries. apply NoDup_incl_length.
  - apply NoDup_filter, NoDup_fst_map_to_list.
  - intros k [Hk Hin]%list_elem_of_filter. apply list_elem_of_filter. split; [done|].
    apply list_elem_of_fmap in Hin as ([k' e] & -> & Hin). apply elem_of_map_to_list in Hin.
    apply map_lookup_filter_Some in Hin as [Hin _]. apply list_elem_of_fmap. exists (k', e).
    by rewrite elem_of_map_to_list.
Qed.

(** The map has room for a message of [peer]. *)
Definition has_room (m : ReassemblyMap) (peer : SocketAddr) : Prop :=
  size m < MAX_REASSEMBLY_ENTRIES ∧ peer_entries m peer < MAX_REASSEMBLY_ENTRIES_PER_PEER.

Lemma gc_reassembly_incl now r : reassembly (gc_reassembly now r) ⊆ reassembly r.
Proof. unfold gc_reassembly. case_match; [done|]. apply map_filter_subseteq. Qed.

Lemma gc_reassembly_room now r peer :
  has_room (reassembly r) peer → has_room (reassembly (gc_reassembly now r)) peer.
Proof.
  unfold gc_reassembly. case_match; [done|]. intros [H1 H2]. split; simpl.
  - eapply Nat.le_lt_trans; [|exact H1]. apply map_subseteq_size, map_filter_subseteq.
  - eapply Nat.le_lt_trans; [|exact H2]. apply filter_keys_le.
Qed.

(** What one more fragment of a message does to its buffer. *)
Definition buffer_after (now : Z) (cs : list bytes) (I : gset nat) (e : ReassemblyEntry.t)
    (m : ReassemblyMap) (key : SocketAddr * Z) (res : ReassemblyMap * option bytes) : Prop :=
  if bool_decide (size I = length cs) then res.1 !! key = None ∧ res.2 = Some (mjoin cs)
  else res.2 = None ∧ ∃ e', res.1 !! key = Some e' ∧ holds_chunks cs I e' ∧
    ReassemblyEntry.created_at e' = ReassemblyEntry.created_at e.

Lemma accept_step now m peer h chunk cs I e f :
  m !! (peer, f) = Some e → holds_chunks cs I e → fragment_of f cs h chunk →
  buffer_after now cs ({[Z.to_nat (index h)]} ∪ I) e m (peer, f)
    (accept_fragment now m peer h chunk).
Proof.
  intros Hm He (Hf & Ht & Hi & Hc). unfold accept_fragment. rewrite Hf, Hm, Hm.
  rewrite (hc_total _ _ _ He), Ht, Z.eqb_refl. cbn [negb].
  destruct (holds_chunks_insert cs I e _ chunk He Hc) as (e' & Hins & He' & Hcr).
  rewrite Z2Nat.id in Hins by done. rewrite Hins. unfold buffer_after.
  case_bool_decide as Hfull; simpl.
  - rewrite lookup_delete_eq. split; [done|]. apply assemble_full.
    by rewrite <-(full_indices cs _ (hc_indices _ _ _ He') Hfull).
  - rewrite lookup_insert_eq. eauto.
Qed.

Lemma accept_first now m peer h chunk cs f :
  m !! (peer, f) = None → has_room m peer → fragment_of f cs h chunk →
  buffer_after now cs {[Z.to_nat (index h)]} (ReassemblyEntry.new now (Z.of_nat (length cs)))
    m (peer, f) (accept_fragment now m peer h chunk).
Proof.
  intros Hm [H1 H2] Hfr.
  set (e0 := ReassemblyEntry.new now (Z.of_nat (length cs))).
  assert (accept_fragment now m peer h chunk =
    accept_fragment now (<[(peer, f) := e0]> m) peer h chunk) as ->.
  { destruct Hfr as (Hf & Ht & _). unfold accept_fragment. rewrite Hf, Hm, lookup_insert_eq.
    rewrite (proj2 (Nat.leb_gt _ _)) by done. rewrite (proj2 (Nat.leb_gt _ _)) by done.
    rewrite Ht. done. }
  rewrite <-(union_empty_r_L {[Z.to_nat (index h)]}).
  apply accept_step; [by rewrite lookup_insert_eq|apply holds_chunks_new|done].
Qed.

(** ** Deliveries *)

(** A datagram handed to the receiver. *)
Record delivery := mkD { d_now : Z; d_peer : SocketAddr; d_data : bytes }.

Fixpoint deliver (r : Reassembler) (ds : list delivery) : Reassembler * list (option bytes) :=
  match ds with
  | [] => (r, [])
  | d :: ds' =>
      let '(r1, o) := receive_payload (d_now d) r (d_peer d) (d_data d) in
      let '(r2, os) := deliver r1 ds' in
      (r2, o :: os)
  end.

Section message.
Context (peer : SocketAddr) (f : Z) (payload : bytes) (t0 : Z).

Let cs := message_chunks payload.

(** A fragment of the message, from its sender. *)
Definition own (d : delivery) : Prop := d_peer d = peer ∧ d_data d ∈ encode_fragments f payload.

(** Any datagram that does not claim to belong to the message. *)
Definition foreign (d : delivery) : Prop :=
  ∀ h c, parse_fragment (d_data d) = Some (h, c) → (d_peer d, frag_id h) ≠ (peer, f).

(** The index of the fragment of the message in a datagram. *)
Definition own_index (d : delivery) : option nat :=
  '(h, _) ← parse_fragment (d_data d);
  if decide ((d_peer d, frag_id h) = (peer, f)) then Some (Z.to_nat (index h)) else None.

Definition indices (ds : list delivery) : gset nat := list_to_set (omap own_index ds).

Context (Hf : (0 ≤ f < 2 ^ 32)%Z).
Context (Hsize : (1 < length cs)%nat ∧ (Z.of_nat (length cs) * Z.of_nat FRAG_CHUNK_SIZE ≤ MAX_MESSAGE_SIZE)%Z).

Lemma message_fits : fits payload.
Proof using Hsize.
  unfold fits. unfold cs, message_chunks in Hsize. destruct payload as [|x l]; [simpl in *; lia|].
  rewrite chunks_length in Hsize by (unfold FRAG_CHUNK_SIZE; lia).
  unfold div_ceil, MAX_MESSAGE_SIZE, FRAG_CHUNK_SIZE in *. set (n := Z.of_nat (length (x :: l))) in *.
  clearbody n. destruct Hsize as [_ H].
  pose proof (Z.div_mod (n + Z.of_nat 1400 - 1) (Z.of_nat 1400) ltac:(lia)).
  pose proof (Z.mod_pos_bound (n + Z.of_nat 1400 - 1) (Z.of_nat 1400) ltac:(lia)). lia.
Qed.

(** A fragment of the message reaches [accept_fragment]. *)
Lemma own_received r d :
  own d →
  ∃ h chunk, fragment_of f cs h chunk ∧ own_index d = Some (Z.to_nat (index h)) ∧
    receive_payload (d_now d) r (d_peer d) (d_data d) =
      let r1 := gc_reassembly (d_now d) r in
      let '(m, o) := accept_fragment (d_now d) (reassembly r1) peer h chunk in
      (mkR m (last_reassembly_gc r1), o).
Proof using Hf Hsize.
  intros [Hp Hd]. destruct (encode_fragments_parse f payload _ message_fits Hf Hd)
    as (h & chunk & Hparse & Hfr). exists h, chunk. split; [done|].
  unfold own_index, receive_payload. rewrite Hparse, Hp. simpl.
  destruct Hfr as (Hid & Ht & Hi & Hc). rewrite Hid, decide_True by done. split; [done|].
  rewrite Ht. fold cs. rewrite (proj2 (Z.eqb_neq _ _)), (proj2 (Z.ltb_ge _ _)) by lia. done.
Qed.

Lemma foreign_received r d e :
  foreign d → reassembly r !! (peer, f) = Some e →
  (d_now d < ReassemblyEntry.created_at e + REASSEMBLY_TTL)%Z →
  own_index d = None ∧
  reassembly (receive_payload (d_now d) r (d_peer d) (d_data d)).1 !! (peer, f) = Some e.
Proof using.
  intros Hfor Hr Hn. unfold own_index, receive_payload.
  destruct (parse_fragment (d_data d)) as [[h chunk]|] eqn:Hparse; [|done]. simpl.
  pose proof (Hfor _ _ Hparse) as Hne. rewrite decide_False by done. split; [done|].
  case_match; [done|]. case_match; [done|].
  pose proof (accept_other (d_now d) (reassembly (gc_reassembly (d_now d) r)) (d_peer d) h chunk
    (peer, f)) as Ho.
  destruct (accept_fragment _ _ _ _ _) as [m o]. cbn [fst reassembly] in *. rewrite Ho by done.
  by apply gc_reassembly_lookup.
Qed.

(** The buffer of the message after the indices [I], not all of them. *)
Definition buffered (I : gset nat) (r : Reassembler) : Prop :=
  ∃ e, reassembly r !! (peer, f) = Some e ∧ holds_chunks cs I e ∧ ReassemblyEntry.created_at e = t0.

Definition in_time (d : delivery) : Prop := (t0 ≤ d_now d < t0 + REASSEMBLY_TTL)%Z.

Lemma own_step r d I j :
  buffered I r → own d → in_time d → own_index d = Some j →
  let res := receive_payload (d_now d) r (d_peer d) (d_data d) in
  if bool_decide (size ({[j]} ∪ I) = length cs)
  then reassembly res.1 !! (peer, f) = None ∧ res.2 = Some payload
  else res.2 = None ∧ buffered ({[j]} ∪ I) res.1.
Proof using Hf Hsize.
  intros (e & Hr & He & Ht) Hown [_ Htime] Hj. destruct (own_received r d Hown) as (h & chunk & Hfr & Hi & ->).
  cbn zeta. rewrite Hi in Hj. injection Hj as <-.
  pose proof (accept_step (d_now d) (reassembly (gc_reassembly (d_now d) r)) peer h chunk cs I e f)
    as Hs. unfold buffer_after in Hs.
  specialize (Hs (gc_reassembly_lookup _ _ _ _ Hr ltac:(rewrite Ht; done)) He Hfr).
  destruct (accept_fragment _ _ _ _ _) as [m o]. cbn [fst snd reassembly] in *.
  case_bool_decide; [unfold cs in Hs; by rewrite message_chunks_join in Hs|].
  destruct Hs as (Ho & e' & Hm & He' & Hcr). split; [done|]. exists e'. split; [done|].
  split; [done|]. congruence.
Qed.

Lemma own_first r d j :
  reassembly r !! (peer, f) = None → has_room (reassembly r) peer → own d → d_now d = t0 →
  own_index d = Some j →
  let res := receive_payload (d_now d) r (d_peer d) (d_data d) in
  res.2 = None ∧ buffered {[j]} res.1.
Proof using Hf Hsize.
  intros Hr Hroom Hown Ht Hj. destruct (own_received r d Hown) as (h & chunk & Hfr & Hi & ->).
  cbn zeta. rewrite Hi in Hj. injection Hj as <-.
  assert (reassembly (gc_reassembly (d_now d) r) !! (peer, f) = None) as Hr'.
  { eapply lookup_weaken_None; [exact Hr|]. apply gc_reassembly_incl. }
  pose proof (accept_first (d_now d) _ peer h chunk cs f Hr' (gc_reassembly_room _ _ _ Hroom) Hfr) as Hs.
  unfold buffer_after in Hs.
  destruct (accept_fragment _ _ _ _ _) as [m o]. cbn [fst snd reassembly] in *.
  rewrite bool_decide_eq_false_2 in Hs by (rewrite size_singleton; lia).
  destruct Hs as (Ho & e' & Hm & He' & Hcr). split; [done|]. exists e'. split; [done|].
  split; [done|]. simpl in Hcr. congruence.
Qed.

Lemma indices_cons d ds :
  indices (d :: ds) = match own_index d with Some j => {[j]} ∪ indices ds | None => indices ds end.
Proof using. unfold indices. simpl. by destruct (own_index d). Qed.

Lemma own_index_range d j : own d → own_index d = Some j → j < length cs.
Proof using Hf Hsize.
  intros Hown Hj. destruct (own_received (mkR ∅ 0) d Hown) as (h & chunk & Hfr & Hi & _).
  rewrite Hi in Hj. injection Hj as <-. destruct Hfr as (_ & _ & _ & Hc). by eapply lookup_lt_Some.
Qed.

Lemma foreign_index d : foreign d → own_index d = None.
Proof using.
  intros Hfor. unfold own_index. destruct (parse_fragment (d_data d)) as [[h c]|] eqn:E; [|done].
  simpl. by rewrite decide_False by (by eapply Hfor).
Qed.

Lemma indices_range ds : Forall (λ d, own d ∨ foreign d) ds → indices ds ⊆ set_seq 0 (length cs).
Proof using Hf Hsize.
  induction 1 as [|d ds [Hd|Hd] _ IH]; [set_solver| |].
  - rewrite indices_cons. destruct (own_index d) as [j|] eqn:Hj; [|done].
    pose proof (own_index_range d j Hd Hj). apply union_subseteq. split; [|done].
    apply singleton_subseteq_l, elem_of_set_seq. lia.
  - by rewrite indices_cons, foreign_index.
Qed.

(** Indices of which some already are all of them are all of them. *)
Lemma full_absorb (I J : gset nat) :
  I ⊆ J → J ⊆ set_seq 0 (length cs) → size I = length cs → size J = length cs.
Proof using Hsize.
  intros H1 H2 H3. apply subseteq_size in H1, H2. rewrite size_set_seq in H2. lia.
Qed.

(** The fragments of the message that arrive before it is complete yield no
    message, and are buffered. *)
Lemma deliver_partial r ds I :
  buffered I r → Forall (λ d, (own d ∨ foreign d) ∧ in_time d) ds →
  size (indices ds ∪ I) ≠ length cs →
  buffered (indices ds ∪ I) (deliver r ds).1 ∧
  Forall2 (λ d o, own d → o = None) ds (deliver r ds).2.
Proof using Hf Hsize.
  revert r I. induction ds as [|d ds IH]; intros r I Hb Hall Hne; simpl.
  { unfold indices. simpl. rewrite union_empty_l_L. auto. }
  apply Forall_cons in Hall as [[Hd Hin] Hall]. rewrite indices_cons in *.
  destruct (receive_payload (d_now d) r (d_peer d) (d_data d)) as [r1 o] eqn:Er.
  assert (∃ I', buffered I' r1 ∧ (own d → o = None) ∧
    match own_index d with Some j => {[j]} ∪ indices ds | None => indices ds end ∪ I =
    indices ds ∪ I') as (I' & Hb' & Ho & EI).
  { destruct Hd as [Hown|Hfor].
    - destruct (own_received r d Hown) as (h & chunk & _ & Hj & _). rewrite Hj in *.
      pose proof (own_step r d I _ Hb Hown Hin Hj) as Hs. cbn zeta in Hs. rewrite Er in Hs.
      assert ({[Z.to_nat (index h)]} ∪ I ⊆ {[Z.to_nat (index h)]} ∪ indices ds ∪ I) as Hsub by set_solver.
      rewrite bool_decide_eq_false_2 in Hs.
      + destruct Hs as [Ho Hb']. eexists; split; [exact Hb'|]. split; [done|]. set_solver.
      + intros Hfull. apply Hne. eapply full_absorb; [exact Hsub| |done].
        destruct Hb as (e & _ & [_ _ _ HI] & _). apply union_subseteq. split; [|done].
        rewrite union_subseteq. split; [|by apply indices_range, (Forall_impl _ _ _ Hall); intros ? []].
        apply singleton_subseteq_l, elem_of_set_seq. pose proof (own_index_range d _ Hown Hj). lia.
    - destruct Hb as (e & Hr & He & Ht). destruct Hin as [_ Hin].
      pose proof (foreign_received r d e Hfor Hr) as [Hj Hr']; [by rewrite Ht|].
      rewrite Er in Hr'. simpl in Hr'. exists I. rewrite Hj. split; [by exists e|]. split; [|done].
      intros Hown. destruct (own_received r d Hown) as (h & chunk & _ & Hj' & _). congruence. }
  rewrite EI in *. destruct (IH r1 I' Hb' Hall Hne) as [H1 H2].
  destruct (deliver r1 ds) as [r2 os]. simpl in *. split; [done|]. by constructor.
Qed.

Lemma deliver_snoc r ds d :
  deliver r (ds ++ [d]) =
  let '(r1, os) := deliver r ds in
  let '(r2, o) := receive_payload (d_now d) r1 (d_peer d) (d_data d) in (r2, os ++ [o]).
Proof using.
  revert r. induction ds as [|d' ds IH]; intros r; simpl.
  { by destruct (receive_payload _ _ _ _). }
  destruct (receive_payload (d_now d') _ _ _) as [r1 o]. rewrite IH.
  destruct (deliver r1 ds) as [r2 os]. by destruct (receive_payload _ _ _ _).
Qed.

Lemma deliver_message r d0 ds d :
  reassembly r !! (peer, f) = None → has_room (reassembly r) peer →
  own d0 → d_now d0 = t0 → Forall (λ d, (own d ∨ foreign d) ∧ in_time d) ds →
  own d → in_time d →
  indices (d0 :: ds) ≠ set_seq 0 (length cs) →
  indices (d0 :: ds ++ [d]) = set_seq 0 (length cs) →
  ∃ r' os, deliver r (d0 :: ds ++ [d]) = (r', os ++ [Some payload]) ∧
    Forall2 (λ d o, own d → o = None) (d0 :: ds) os ∧ reassembly r' !! (peer, f) = None.
Proof using Hf Hsize.
  intros Hr Hroom Hown0 Ht Hall Hown Hin Hne Hfull.
  destruct (own_received r d0 Hown0) as (h & chunk & _ & Hj0 & _). set (j0 := Z.to_nat (index h)) in *.
  destruct (own_received r d Hown) as (h' & chunk' & _ & Hj & _). set (j := Z.to_nat (index h')) in *.
  pose proof (own_first r d0 j0 Hr Hroom Hown0 Ht Hj0) as [Ho0 Hb0].
  change (d0 :: ds ++ [d]) with ((d0 :: ds) ++ [d]). rewrite deliver_snoc. cbn [deliver].
  destruct (receive_payload (d_now d0) r (d_peer d0) (d_data d0)) as [r1 o0]. simpl in Ho0, Hb0. subst o0.
  rewrite indices_cons, Hj0 in Hne, Hfull.
  assert (Forall (λ d, own d ∨ foreign d) ds) as Hall' by (apply (Forall_impl _ _ _ Hall); intros ? []; done).
  assert ({[j0]} ∪ indices ds ⊆ set_seq 0 (length cs)) as Hrange.
  { apply union_subseteq. split; [|by apply indices_range]. apply singleton_subseteq_l, elem_of_set_seq.
    pose proof (own_index_range d0 _ Hown0 Hj0). lia. }
  destruct (deliver_partial r1 ds {[j0]} Hb0 Hall) as [Hb Hos].
  { rewrite (union_comm_L (indices ds)). intros E. apply Hne, full_indices; done. }
  destruct (deliver r1 ds) as [r2 os]. simpl in Hb, Hos.
  pose proof (own_step r2 d _ j Hb Hown Hin Hj) as Hlast. cbn zeta in Hlast.
  rewrite bool_decide_eq_true_2 in Hlast.
  - destruct (receive_payload _ _ _ _) as [r3 o]. cbn [fst snd] in Hlast.
    destruct Hlast as [Hnone ->].
    exists r3, (None :: os). split; [done|]. split; [by constructor|done].
  - unfold indices in *. rewrite omap_app, list_to_set_app_L in Hfull. simpl in Hfull.
    rewrite Hj in Hfull. simpl in Hfull.
    assert ({[j]} ∪ (list_to_set (omap own_index ds) ∪ {[j0]}) = set_seq (C := gset nat) 0 (length cs))
      as -> by (rewrite <-Hfull; set_solver).
    apply size_set_seq.
Qed.

End message.

(** ** Bounds on the buffers *)

Definition present (l : list (option bytes)) : list bytes := omap (λ c, c) l.

(** Payload bytes of a buffer, and of all of them. *)
Definition entry_bytes (e : ReassemblyEntry.t) : Z :=
  Z.of_nat (length (mjoin (present (ReassemblyEntry.chunks e)))).

Definition buffered_bytes (m : ReassemblyMap) : Z :=
  map_fold (λ _ e acc, acc + entry_bytes e)%Z 0%Z m.

Record entry_ok (e : ReassemblyEntry.t) : Prop := {
  eo_length : Z.of_nat (length (ReassemblyEntry.chunks e)) = ReassemblyEntry.total e;
  eo_limit : (ReassemblyEntry.total e * Z.of_nat FRAG_CHUNK_SIZE ≤ MAX_MESSAGE_SIZE)%Z;
  eo_received : ReassemblyEntry.received e = Z.of_nat (length (present (ReassemblyEntry.chunks e)));
  eo_sizes : Forall (λ c, length c ≤ FRAG_CHUNK_SIZE) (present (ReassemblyEntry.chunks e))
}.

Record buffers_ok (m : ReassemblyMap) : Prop := {
  bo_size : size m ≤ MAX_REASSEMBLY_ENTRIES;
  bo_peer : ∀ peer, peer_entries m peer ≤ MAX_REASSEMBLY_ENTRIES_PER_PEER;
  bo_entries : map_Forall (λ _, entry_ok) m
}.

Lemma length_present l : length (present l) ≤ length l.
Proof. induction l as [|[c|] l IH]; simpl; lia. Qed.

Lemma present_insert l i c :
  l !! i = Some None → present (<[i := Some c]> l) ≡ₚ c :: present l.
Proof.
  revert i. induction l as [|x l IH]; intros [|i]; simpl; try done; intros H.
  - by injection H as ->.
  - destruct x as [d|]; simpl; rewrite (IH i) by done; [apply Permutation_swap|done].
Qed.

Lemma length_mjoin_bound (cs : list bytes) b :
  Forall (λ c, length c ≤ b) cs → length (mjoin cs) ≤ length cs * b.
Proof.
  induction 1 as [|c cs Hc _ IH]; [simpl; lia|].
  change (mjoin (c :: cs)) with (c ++ mjoin cs). rewrite length_app. simpl. lia.
Qed.

Lemma entry_bytes_bound e : entry_ok e → (0 ≤ entry_bytes e ≤ MAX_MESSAGE_SIZE)%Z.
Proof.
  intros [Hl Hm Hr Hs]. unfold entry_bytes. apply length_mjoin_bound in Hs.
  pose proof (length_present (ReassemblyEntry.chunks e)). nia.
Qed.

Lemma buffered_bytes_bound m :
  map_Forall (λ _, entry_ok) m → (buffered_bytes m ≤ Z.of_nat (size m) * MAX_MESSAGE_SIZE)%Z.
Proof.
  unfold buffered_bytes. induction m as [|k e m Hk IH] using map_ind; [done|].
  intros [He Hm]%map_Forall_insert; [|done].
  rewrite map_fold_insert_L, map_size_insert_None by (done || lia).
  apply entry_bytes_bound in He. specialize (IH Hm). lia.
Qed.

Lemma entry_ok_new now h :
  (0 ≤ total h)%Z → (total h * Z.of_nat FRAG_CHUNK_SIZE ≤ MAX_MESSAGE_SIZE)%Z →
  entry_ok (ReassemblyEntry.new now (total h)).
Proof.
  intros H1 H2. assert (∀ n, present (replicate n None) = []) as Hp by (by intros n; induction n).
  split; simpl; [|done|by rewrite Hp|by rewrite Hp]. rewrite length_replicate. lia.
Qed.

Lemma entry_ok_insert e i c :
  entry_ok e → length c ≤ FRAG_CHUNK_SIZE → entry_ok (ReassemblyEntry.insert e i c).1.
Proof.
  intros [Hl Hm Hr Hs] Hc. unfold ReassemblyEntry.insert.
  destruct (ReassemblyEntry.chunks e !! Z.to_nat i) as [[d|]|] eqn:Hi; try done. simpl.
  split; simpl; [by rewrite length_insert|done| |].
  - rewrite (present_insert _ _ _ Hi). simpl. lia.
  - rewrite (present_insert _ _ _ Hi). by constructor.
Qed.

(** A complete buffer assembles. *)
Lemma assemble_complete e i c e' :
  entry_ok e → length c ≤ FRAG_CHUNK_SIZE → ReassemblyEntry.insert e i c = (e', true) →
  is_Some (ReassemblyEntry.assemble e').
Proof.
  intros He Hc Hins. pose proof (entry_ok_insert e i c He Hc) as [Hl Hm Hr Hs]. rewrite Hins in *.
  simpl in *. unfold ReassemblyEntry.insert in Hins.
  assert (ReassemblyEntry.received e' = ReassemblyEntry.total e') as Hfull.
  { destruct (ReassemblyEntry.chunks e !! Z.to_nat i) as [slot|]; [|done].
    injection Hins as <- E. by apply Z.eqb_eq in E. }
  assert (length (present (ReassemblyEntry.chunks e')) = length (ReassemblyEntry.chunks e')) as Hp by lia.
  unfold ReassemblyEntry.assemble. apply fmap_is_Some, mapM_is_Some. clear -Hp.
  induction (ReassemblyEntry.chunks e') as [|[d|] l IH]; simpl in *; [done| |].
  - constructor; [by eexists|]. apply IH. lia.
  - pose proof (length_present l). lia.
Qed.

Lemma peer_entries_mono (m m' : ReassemblyMap) peer :
  dom m ⊆ dom m' → peer_entries m peer ≤ peer_entries m' peer.
Proof.
  intros Hd. unfold peer_entries. apply NoDup_incl_length.
  - apply NoDup_filter, NoDup_fst_map_to_list.
  - intros k [Hk Hin]%list_elem_of_filter. apply list_elem_of_filter. split; [done|].
    apply list_elem_of_fmap in Hin as ([k' e] & -> & Hin%elem_of_map_to_list).
    assert (k' ∈ dom m') as [e' He']%elem_of_dom by (apply Hd; by eapply elem_of_dom_2).
    apply list_elem_of_fmap. exists (k', e'). by rewrite elem_of_map_to_list.
Qed.

Lemma peer_entries_insert (m : ReassemblyMap) k e peer :
  m !! k = None →
  peer_entries (<[k := e]> m) peer = (if decide (k.1 = peer) then 1 else 0) + peer_entries m peer.
Proof.
  intros Hk. unfold peer_entries. rewrite map_to_list_insert by done. simpl.
  rewrite filter_cons. by case_decide.
Qed.

Lemma buffers_ok_sub m m' : buffers_ok m → m' ⊆ m → buffers_ok m'.
Proof.
  intros [H1 H2 H3] Hsub. split.
  - etrans; [by apply map_subseteq_size|done].
  - intros peer. etrans; [|apply H2]. apply peer_entries_mono. by apply subseteq_dom.
  - intros k e He. apply (H3 k e). by eapply lookup_weaken.
Qed.

Lemma buffers_ok_update m k e e' :
  buffers_ok m → m !! k = Some e → entry_ok e' → buffers_ok (<[k := e']> m).
Proof.
  intros [H1 H2 H3] Hk He. split.
  - by rewrite map_size_insert_Some.
  - intros peer. etrans; [|apply H2]. apply peer_entries_mono. rewrite dom_insert_L.
    apply union_subseteq. split; [|done]. apply singleton_subseteq_l.
    by eapply elem_of_dom_2.
  - by apply map_Forall_insert_2.
Qed.

Lemma buffers_ok_open m peer f e :
  buffers_ok m → m !! (peer, f) = None → has_room m peer → entry_ok e →
  buffers_ok (<[(peer, f) := e]> m).
Proof.
  intros [H1 H2 H3] Hk [Hr1 Hr2] He. split.
  - rewrite map_size_insert_None by done. lia.
  - intros p. rewrite peer_entries_insert by done. simpl. case_decide; [subst; lia|]. apply H2.
  - by apply map_Forall_insert_2.
Qed.

Lemma buffers_ok_accept now m peer h chunk :
  buffers_ok m → (0 ≤ total h)%Z → (total h * Z.of_nat FRAG_CHUNK_SIZE ≤ MAX_MESSAGE_SIZE)%Z →
  length chunk ≤ FRAG_CHUNK_SIZE → buffers_ok (accept_fragment now m peer h chunk).1.
Proof.
  intros Hm H0 Ht Hc. unfold accept_fragment.
  assert (∀ m1 e, buffers_ok m1 → m1 !! (peer, frag_id h) = Some e →
    buffers_ok (if negb (ReassemblyEntry.total e =? total h)%Z then (delete (peer, frag_id h) m1, None)
      else let '(entry', complete) := ReassemblyEntry.insert e (index h) chunk in
        if negb complete then (<[(peer, frag_id h) := entry']> m1, None)
        else (delete (peer, frag_id h) m1, ReassemblyEntry.assemble entry')).1) as Hgo.
  { intros m1 e Hm1 He. assert (buffers_ok (delete (peer, frag_id h) m1)) as Hdel
      by (eapply buffers_ok_sub; [done|apply delete_subseteq]).
    case_match; [done|]. pose proof (entry_ok_insert e (index h) chunk) as Hok.
    destruct (ReassemblyEntry.insert _ _ _) as [e' []]; [done|]. cbn [negb fst] in *.
    eapply buffers_ok_update; [done|done|]. apply Hok; [|done]. by apply (bo_entries _ Hm1 _ _ He). }
  destruct (m !! (peer, frag_id h)) as [e|] eqn:Hk.
  { rewrite Hk. by apply Hgo. }
  destruct (_ <=? size m) eqn:E1; [done|]. destruct (_ <=? peer_entries m peer) eqn:E2; [done|]. bool_facts.
  rewrite lookup_insert_eq. apply Hgo; [|by rewrite lookup_insert_eq].
  apply buffers_ok_open; [done..|]. by apply entry_ok_new.
Qed.

Lemma parse_fragment_inv data h chunk :
  parse_fragment data = Some (h, chunk) →
  (0 ≤ index h < total h)%Z ∧ (total h < 65536)%Z ∧ length chunk ≤ FRAG_CHUNK_SIZE.
Proof.
  unfold parse_fragment. intros H.
  destruct (negb (_ && _)) eqn:E1; [done|]. destruct (negb (_ =? _)%Z); [done|].
  destruct (_ || _) eqn:E2; [done|]. bool_facts. simplify_eq. simpl.
  pose proof (be_value_range (slice 8 10 data)) as [Hi _].
  pose proof (be_value_range (slice 10 12 data)) as [_ Ht].
  assert (length (slice 10 12 data) ≤ 2) as Hl by (unfold slice; rewrite length_take; lia).
  assert (256 ^ Z.of_nat (length (slice 10 12 data)) ≤ 256 ^ 2)%Z by (apply Z.pow_le_mono_r; lia).
  rewrite length_drop. lia.
Qed.

Lemma buffers_ok_receive now r peer data :
  buffers_ok (reassembly r) → buffers_ok (reassembly (receive_payload now r peer data).1).
Proof.
  intros Hr. unfold receive_payload. destruct (parse_fragment data) as [[h chunk]|] eqn:Hp; [|done].
  apply parse_fragment_inv in Hp as (Hi & Ht & Hc).
  destruct (total h =? 1)%Z; [done|]. destruct (MAX_MESSAGE_SIZE <? _)%Z eqn:E; [done|]. bool_facts.
  pose proof (buffers_ok_accept now (reassembly (gc_reassembly now r)) peer h chunk) as Ha.
  destruct (accept_fragment _ _ _ _ _) as [m o]. cbn [fst reassembly] in *. apply Ha; try done; [|lia].
  eapply buffers_ok_sub; [done|apply gc_reassembly_incl].
Qed.

Lemma buffers_ok_deliver r ds : buffers_ok (reassembly r) → buffers_ok (reassembly (deliver r ds).1).
Proof.
  revert r. induction ds as [|d ds IH]; intros r Hr; [done|]. simpl.
  pose proof (buffers_ok_receive (d_now d) r (d_peer d) (d_data d) Hr) as H1.
  destruct (receive_payload _ _ _ _) as [r1 o]. specialize (IH r1 H1).
  by destruct (deliver r1 ds).
Qed.

Lemma buffers_ok_empty : buffers_ok ∅.
Proof. split; [apply Nat.le_0_l|intros; apply Nat.le_0_l|apply map_Forall_empty]. Qed.

(** ** Theorems *)

(** Every datagram of a message is at most 1412 bytes long and parses back
    to a header with the message's fragment id, its fragment count and the
    position of the chunk, and to that chunk; the chunks in order are the
    message. This holds for every message whose fragment count fits 16 bits. *)
Lemma encode_parse_roundtrip (f : Z) (payload : bytes)
    (Hf : (0 ≤ f < 2 ^ 32)%Z) (Hfits : fits payload) :
  mapM parse_fragment (encode_fragments f payload) =
    Some (imap (λ i c, (mkHeader f (Z.of_nat i) (Z.of_nat (length (message_chunks payload))), c))
      (message_chunks payload)) ∧
  mjoin (message_chunks payload) = payload ∧
  Forall (λ d, length d ≤ FRAG_HEADER_LEN + FRAG_CHUNK_SIZE) (encode_fragments f payload).
Proof.
  pose proof (message_chunks_count payload Hfits) as Hn. rewrite encode_fragments_eq by done.
  split; [|split; [apply message_chunks_join|]].
  - apply mapM_Some, Forall2_same_length_lookup. rewrite !length_imap. split; [done|].
    intros i x y. rewrite !list_lookup_imap.
    destruct (message_chunks payload !! i) as [c|] eqn:Hc; [|done]. simpl. intros [= <-] [= <-].
    pose proof (lookup_lt_Some _ _ _ Hc).
    apply parse_frag_header; [done|lia|lia|]. eapply message_chunks_size, list_elem_of_lookup_2, Hc.
  - apply Forall_forall. intros d (i & Hi)%list_elem_of_lookup. rewrite list_lookup_imap in Hi.
    destruct (message_chunks payload !! i) as [c|] eqn:Hc; [|done].
    apply (inj Some) in Hi as <-. rewrite length_app, length_frag_header.
    pose proof (message_chunks_size payload c ltac:(by eapply list_elem_of_lookup_2)). lia.
Qed.

(** C10: a fragmented message is delivered exactly once all its fragments have
    arrived, whatever their order, however many copies of each arrive, and
    whatever other datagrams arrive between them, from the same peer or others:
    the earlier fragments yield nothing, the last missing one yields the
    message, and its buffer is gone. The receiver must have a free buffer when
    the first fragment arrives and all arrive within [REASSEMBLY_TTL]. *)
Theorem reassembly_any_order (peer : SocketAddr) (f : Z) (payload : bytes) (r : Reassembler)
    (d0 d : delivery) (ds : list delivery)
    (Hf : (0 ≤ f < 2 ^ 32)%Z)
    (Hsize : 1 < length (message_chunks payload) ∧
      (Z.of_nat (length (message_chunks payload)) * Z.of_nat FRAG_CHUNK_SIZE ≤ MAX_MESSAGE_SIZE)%Z)
    (Hnew : reassembly r !! (peer, f) = None) (Hroom : has_room (reassembly r) peer)
    (Hd0 : own peer f payload d0)
    (Hds : Forall (λ d, (own peer f payload d ∨ foreign peer f d) ∧ in_time (d_now d0) d) ds)
    (Hd : own peer f payload d) (Htime : in_time (d_now d0) d)
    (Hmissing : indices peer f (d0 :: ds) ≠ set_seq 0 (length (message_chunks payload)))
    (Hall : indices peer f (d0 :: ds ++ [d]) = set_seq 0 (length (message_chunks payload))) :
  ∃ r' os, deliver r (d0 :: ds ++ [d]) = (r', os ++ [Some payload]) ∧
    Forall2 (λ d o, own peer f payload d → o = None) (d0 :: ds) os ∧
    reassembly r' !! (peer, f) = None.
Proof. by apply (deliver_message peer f payload (d_now d0)). Qed.

(** Whatever datagrams arrive, from whatever peers, there are never more
    than 64 messages in reassembly nor more than 8 of one peer, their payloads
    never take more than 16 MiB together, and every buffer has one slot per
    announced fragment and an exact count of those received. *)
Lemma reassembly_bounded (now : Z) (ds : list delivery) :
  let m := reassembly (deliver (mkR ∅ now) ds).1 in
  size m ≤ MAX_REASSEMBLY_ENTRIES ∧
  (∀ peer, peer_entries m peer ≤ MAX_REASSEMBLY_ENTRIES_PER_PEER) ∧
  (buffered_bytes m ≤ 16 * 1024 * 1024)%Z ∧ map_Forall (λ _, entry_ok) m.
Proof.
  intros m. destruct (buffers_ok_deliver (mkR ∅ now) ds buffers_ok_empty) as [H1 H2 H3].
  fold m in H1, H2, H3. split; [done|]. split; [done|]. split; [|done].
  pose proof (buffered_bytes_bound m H3). unfold MAX_MESSAGE_SIZE, MAX_REASSEMBLY_ENTRIES in *. lia.
Qed.

Lemma largest_chunks message :
  (187 * 1400 < Z.of_nat (length message) ≤ MAX_MESSAGE_SIZE)%Z →
  fits message ∧ length (message_chunks message) = 188.
Proof.
  intros Hlen. split; [unfold fits, MAX_MESSAGE_SIZE, FRAG_CHUNK_SIZE in *; lia|]. apply Nat2Z.inj.
  destruct message as [|x l]; [simpl in Hlen; lia|]. unfold message_chunks.
  rewrite chunks_length by (unfold FRAG_CHUNK_SIZE; lia).
  set (n := Z.of_nat (length (x :: l))) in *. clearbody n.
  unfold div_ceil, FRAG_CHUNK_SIZE, MAX_MESSAGE_SIZE in *.
  symmetry. apply (Z.div_unique_pos _ _ _ (n - 187 * 1400 - 1)); lia.
Qed.

(** C39: every message of 261 801 to 262 144 bytes is lost. The sender accepts
    it (it does not exceed [MAX_MESSAGE_SIZE]) and cuts it in 188 fragments, but
    the receiver's bound counts whole chunks, so any receiver, in any state,
    discards every one of those fragments and changes nothing. *)
Theorem largest_messages_are_discarded (f : Z) (message : bytes)
    (Hlen : (261800 < Z.of_nat (length message) ≤ 262144)%Z) :
  ∃ ds, encode_message f message = Some ds ∧ length ds = 188 ∧
    ∀ now r peer d, d ∈ ds → receive_payload now r peer d = (r, None).
Proof.
  destruct (largest_chunks message Hlen) as [Hfits Hn]. unfold encode_message.
  rewrite (proj2 (Z.ltb_ge _ _)) by (unfold MAX_MESSAGE_SIZE; lia). eexists. split; [done|]. split.
  { by rewrite encode_fragments_eq, length_imap. }
  intros now r peer d Hd.
  destruct (encode_fragments_parse _ _ _ Hfits (Z.mod_pos_bound f (2 ^ 32) ltac:(done)) Hd)
    as (h & chunk & Hp & (_ & Ht & _)).
  unfold receive_payload. by rewrite Hp, Ht, Hn.
Qed.

(** ** Concrete deliveries *)

(** A message of two fragments; the second arrives first, then a copy of it and
    a datagram of another peer. *)
Definition example_peer : SocketAddr := mkAddr "10.0.0.7" 4000.
Definition example_message : bytes := replicate 1403 x05.
Definition example_fragment (i : nat) : bytes := nth i (encode_fragments 7 example_message) [].
Definition example_first : delivery := mkD 100 example_peer (example_fragment 1).
Definition example_between : list delivery :=
  [mkD 200 example_peer (example_fragment 1);
   mkD 300 (mkAddr "10.0.0.8" 4000) (example_fragment 0)].
Definition example_last : delivery := mkD 400 example_peer (example_fragment 0).

Lemma example_own i now :
  i < 2 → own example_peer 7 example_message (mkD now example_peer (example_fragment i)).
Proof.
  intros Hi. split; [done|]. cbn [d_data]. unfold example_fragment.
  apply list_elem_of_In, nth_In. assert (length (encode_fragments 7 example_message) = 2) as ->; [|lia].
  vm_compute. reflexivity.
Qed.

Lemma reassembly_any_order_witness :
  ∃ r' os, deliver (mkR ∅ 0) (example_first :: example_between ++ [example_last]) =
      (r', os ++ [Some example_message]) ∧
    Forall2 (λ d o, own example_peer 7 example_message d → o = None)
      (example_first :: example_between) os ∧
    reassembly r' !! (example_peer, 7%Z) = None.
Proof.
  apply (reassembly_any_order example_peer 7 example_message (mkR ∅ 0) example_first example_last
    example_between).
  - lia.
  - split; [vm_compute; lia|vm_compute; congruence].
  - reflexivity.
  - split; vm_compute; lia.
  - apply example_own. lia.
  - apply Forall_cons. split; [|apply Forall_singleton]; (split; [|split; vm_compute; congruence]).
    + left. apply example_own. lia.
    + right. intros h c _ E. vm_compute in E. congruence.
  - apply example_own. lia.
  - split; vm_compute; congruence.
  - apply (bool_decide_unpack _). vm_compute. exact I.
  - apply (bool_decide_unpack _). vm_compute. exact I.
Defined.

Lemma largest_messages_are_discarded_witness :
  ∃ ds, encode_message 7 (replicate (Z.to_nat 262000) x05) = Some ds ∧ length ds = 188 ∧
    ∀ now r peer d, d ∈ ds → receive_payload now r peer d = (r, None).
Proof.
  apply (largest_messages_are_discarded 7 (replicate (Z.to_nat 262000) x05)).
  rewrite length_replicate, Z2Nat.id; lia.
Defined.
