(* ===== verification/Messages.v ===== *)
(** * Messages (src/src/protocol/messages.rs)

    The messages nodes exchange, the answer each request expects, and the
    record a request carries. SHA-256 is a parameter ([Sha256]). *)

From S2P Require Import Prelude Utils Node Storage.

(** SHA-256: a third-party hash of arbitrary bytes. *)
Class Sha256 := sha256 : bytes → bytes.

(** [StoreStatus]. *)
Inductive StoreStatus :=
  | SStored | SAlreadyStored | SConflict | SCapacityExceeded | SInvalidRecord.

#[global] Instance StoreStatus_eq_dec : EqDecision StoreStatus.
Proof. solve_decision. Defined.

(** [impl From<StorageWriteStatus> for StoreStatus]. *)
Definition store_status_from (s : StorageWriteStatus) : StoreStatus :=
  match s with
  | Stored => SStored
  | AlreadyStored => SAlreadyStored
  | Conflict => SConflict
  | CapacityExceeded => SCapacityExceeded
  end.

(** [WireNode]. *)
Record WireNode := mkWire { wire_id : ident; wire_ip : option string; wire_port : option Z }.

(** [impl From<&Node> for WireNode] and [impl From<WireNode> for Node]. *)
Definition wire_from_node (n : Node) : WireNode := mkWire (id n) (ip n) (port n).
Definition node_from_wire (w : WireNode) : Node := Node_new (wire_id w) (wire_ip w) (wire_port w).

(** [RpcMessage], the variants in wire order. *)
Inductive RpcMessage :=
  | Ping (sender_id : ident)
  | Pong (sender_id : ident)
  | Store (sender_id key : ident) (value : bytes)
  | StoreResult (status : StoreStatus)
  | Update (sender_id key : ident) (value auth_signature : bytes)
  | UpdateResult (ok : bool)
  | UpdateStatusList (sender_id key : ident) (value : bytes)
  | UpdateStatusListResult (ok : bool)
  | FindNode (sender_id key : ident)
  | FindNodeResult (nodes : list WireNode)
  | FindValue (sender_id key : ident)
  | FindValueNodes (nodes : list WireNode)
  | FindValueHit (value : bytes)
  | Leave (sender_id : ident)
  | FindHash (sender_id key : ident)
  | FindHashHit (hash : bytes)
  | Received.

(** [RECORD_HASH_LEN] and [record_hash]. *)
Definition RECORD_HASH_LEN : nat := 32.

Definition record_hash `{Sha256} (record : bytes) : bytes := sha256 record.

(** [Frame]. *)
Record Frame := mkFrame { msg_id : Z; is_request : bool; message : RpcMessage }.

(** [ExpectedResponse]. *)
Inductive ExpectedResponse :=
  | EPong | EStoreResult | EUpdateResult | EUpdateStatusListResult
  | EFindNodeResult | EFindValueResult | EFindHashResult | ENoResponse.

#[global] Instance ExpectedResponse_eq_dec : EqDecision ExpectedResponse.
Proof. solve_decision. Defined.

(** [ExpectedResponse::for_request]. *)
Definition for_request (m : RpcMessage) : ExpectedResponse :=
  match m with
  | Ping _ => EPong
  | Store _ _ _ => EStoreResult
  | Update _ _ _ _ => EUpdateResult
  | UpdateStatusList _ _ _ => EUpdateStatusListResult
  | FindNode _ _ => EFindNodeResult
  | FindValue _ _ => EFindValueResult
  | FindHash _ _ => EFindHashResult
  | Leave _ => ENoResponse
  | Pong _ | StoreResult _ | UpdateResult _ | UpdateStatusListResult _ | FindNodeResult _
  | FindValueNodes _ | FindValueHit _ | FindHashHit _ | Received => ENoResponse
  end.

(** [ExpectedResponse::accepts]. *)
Definition accepts (e : ExpectedResponse) (m : RpcMessage) : bool :=
  match e, m with
  | EPong, Pong _ => true
  | EStoreResult, StoreResult _ => true
  | EUpdateResult, UpdateResult _ => true
  | EUpdateStatusListResult, UpdateStatusListResult _ => true
  | EFindNodeResult, FindNodeResult _ => true
  | EFindValueResult, (FindValueHit _ | FindValueNodes _) => true
  | EFindHashResult, (FindHashHit _ | FindValueNodes _) => true
  | _, _ => false
  end.

(** [ExpectedResponse::after_receipt]. *)
Definition after_receipt (e : ExpectedResponse) : bool :=
  match e with
  | EStoreResult | EUpdateResult | EUpdateStatusListResult => true
  | _ => false
  end.

(** [ExpectedResponse::name]. *)
Definition expected_name (e : ExpectedResponse) : string :=
  match e with
  | EPong => "Pong"
  | EStoreResult => "StoreResult"
  | EUpdateResult => "UpdateResult"
  | EUpdateStatusListResult => "UpdateStatusListResult"
  | EFindNodeResult => "FindNodeResult"
  | EFindValueResult => "FindValueHit|FindValueNodes"
  | EFindHashResult => "FindHashHit|FindValueNodes"
  | ENoResponse => "no response"
  end.

(** [rpc_message_name]. *)
Definition rpc_message_name (m : RpcMessage) : string :=
  match m with
  | Ping _ => "Ping"
  | Pong _ => "Pong"
  | Store _ _ _ => "Store"
  | StoreResult _ => "StoreResult"
  | Update _ _ _ _ => "Update"
  | UpdateResult _ => "UpdateResult"
  | UpdateStatusList _ _ _ => "UpdateStatusList"
  | UpdateStatusListResult _ => "UpdateStatusListResult"
  | FindNode _ _ => "FindNode"
  | FindNodeResult _ => "FindNodeResult"
  | FindValue _ _ => "FindValue"
  | FindValueHit _ => "FindValueHit"
  | FindValueNodes _ => "FindValueNodes"
  | Leave _ => "Leave"
  | FindHash _ _ => "FindHash"
  | FindHashHit _ => "FindHashHit"
  | Received => "Received"
  end.

(** [carried_record]. *)
Definition carried_record (m : RpcMessage) : option bytes :=
  match m with
  | Store _ _ value | Update _ _ value _ | UpdateStatusList _ _ value => Some value
  | Ping _ | Pong _ | StoreResult _ | UpdateResult _ | UpdateStatusListResult _ | FindNode _ _
  | FindNodeResult _ | FindValue _ _ | FindValueNodes _ | FindValueHit _ | Leave _ | FindHash _ _
  | FindHashHit _ | Received => None
  end.

(** ** Properties shared by the transport and the handlers *)

(** The messages a peer sends as requests. *)
Definition is_request_message (m : RpcMessage) : bool :=
  match m with
  | Ping _ | Store _ _ _ | Update _ _ _ _ | UpdateStatusList _ _ _ | FindNode _ _ | FindValue _ _
  | FindHash _ _ | Leave _ => true
  | _ => false
  end.

Lemma node_from_wire_from_node n : node_from_wire (wire_from_node n) = n.
Proof. symmetry. apply Node_eta. Qed.

Lemma wire_from_node_from_wire w : wire_from_node (node_from_wire w) = w.
Proof. by destruct w. Qed.

(** A request gets a receipt exactly when it carries a record. *)
Lemma receipt_iff_record m : after_receipt (for_request m) = true ↔ is_Some (carried_record m).
Proof. destruct m; simpl; split; try done; by intros []. Qed.

(** No message is accepted as the answer of two kinds of request, except the
    closer nodes that answer a search. *)
Lemma accepts_unique e e' m :
  accepts e m = true → accepts e' m = true → e ≠ e' → ∃ ns, m = FindValueNodes ns.
Proof. destruct e, e', m; simpl; try done; eauto. Qed.

Lemma accepts_not_request e m : accepts e m = true → is_request_message m = false ∧ m ≠ Received.
Proof. by destruct e, m. Qed.
