(* ===== verification/Retransmit.v ===== *)
(** * Round trips and resends (src/src/retransmit.rs)

    A smoothed round trip per peer address decides how long a caller waits
    before it sends a request again. Durations are nanoseconds. *)

From S2P Require Import Prelude Storage Fragmentation.

Definition from_millis (ms : Z) : Z := (ms * 1000000)%Z.

(** The constants of the module. *)
Definition MAX_RESENDS : Z := 2.
Definition INITIAL_RESEND_AFTER : Z := from_millis 500.
Definition MIN_RESEND_AFTER : Z := from_millis 20.
Definition MAX_RESEND_AFTER : Z := from_secs 1.
Definition MAX_PEERS : nat := 4096.
Definition FORGET_AFTER : Z := from_secs 600.

Module RoundTrips.

(** [RoundTrip]. *)
Record RoundTrip := mkRT { smoothed : Z; variation : Z; updated : Z }.

(** [RoundTrips]. *)
Record t := mk { peers : gmap SocketAddr RoundTrip; capacity : nat }.

(** [RoundTrips::with_capacity] and [default]. *)
Definition with_capacity (capacity : nat) : t := mk ∅ capacity.
Definition default_ : t := with_capacity MAX_PEERS.

(** [Duration::clamp]. *)
Definition clamp (x lo hi : Z) : Z := Z.min (Z.max x lo) hi.

(** [RoundTrips::resend_after]. *)
Definition resend_after (r : t) (peer : SocketAddr) : Z :=
  match peers r !! peer with
  | None => INITIAL_RESEND_AFTER
  | Some rt =>
      let wait := Z.max (smoothed rt * 3) (smoothed rt + variation rt * 4) in
      clamp wait MIN_RESEND_AFTER MAX_RESEND_AFTER
  end.

(** [RoundTrips::is_measured]. *)
Definition is_measured (r : t) (peer : SocketAddr) : bool := bool_decide (is_Some (peers r !! peer)).

(** The update of a known round trip in [record]. *)
Definition smooth (now : Z) (rt : RoundTrip) (sample : Z) : RoundTrip :=
  let deviation := Z.abs (smoothed rt - sample) in
  mkRT ((smoothed rt * 7) `div` 8 + sample `div` 8)
       ((variation rt * 3) `div` 4 + deviation `div` 4) now.

(** [RoundTrips::record]. *)
Definition record (now : Z) (r : t) (peer : SocketAddr) (sample : Z) : t :=
  match peers r !! peer with
  | Some rt => mk (<[peer := smooth now rt sample]> (peers r)) (capacity r)
  | None =>
      let first := mkRT sample (sample `div` 2) now in
      if capacity r <=? size (peers r) then
        let kept := filter (λ kv, (Z.max 0 (now - updated kv.2) < FORGET_AFTER)%Z) (peers r) in
        if capacity r <=? size kept then mk kept (capacity r)
        else mk (<[peer := first]> kept) (capacity r)
      else mk (<[peer := first]> (peers r)) (capacity r)
  end.

(** ** Invariant *)

(** Samples in [lo, hi] keep every estimate within their envelope, up to the
    nanoseconds the integer divisions lose. *)
Definition slack : Z := 14.

Record estimate_ok (lo hi : Z) (rt : RoundTrip) : Prop := {
  eo_smoothed : (lo - slack ≤ smoothed rt ≤ hi)%Z;
  eo_variation : (0 ≤ variation rt ≤ Z.max (hi - lo + slack) (hi `div` 2))%Z
}.

Record wf (lo hi : Z) (r : t) : Prop := {
  wf_capacity : size (peers r) ≤ capacity r;
  wf_estimates : map_Forall (λ _, estimate_ok lo hi) (peers r)
}.

Lemma smooth_ok lo hi now rt sample :
  (0 ≤ lo)%Z → estimate_ok lo hi rt → (lo ≤ sample ≤ hi)%Z → estimate_ok lo hi (smooth now rt sample).
Proof.
  intros Hlo [Hs Hv] Hx. unfold slack in *. split; simpl; unfold slack in *.
  - pose proof (Z.div_mod (smoothed rt * 7) 8 ltac:(lia)).
    pose proof (Z.mod_pos_bound (smoothed rt * 7) 8 ltac:(lia)).
    pose proof (Z.div_mod sample 8 ltac:(lia)). pose proof (Z.mod_pos_bound sample 8 ltac:(lia)). lia.
  - pose proof (Z.div_mod (variation rt * 3) 4 ltac:(lia)).
    pose proof (Z.mod_pos_bound (variation rt * 3) 4 ltac:(lia)).
    pose proof (Z.div_mod (Z.abs (smoothed rt - sample)) 4 ltac:(lia)).
    pose proof (Z.mod_pos_bound (Z.abs (smoothed rt - sample)) 4 ltac:(lia)). lia.
Qed.

Lemma first_ok lo hi now sample :
  (0 ≤ lo)%Z → (lo ≤ sample ≤ hi)%Z → estimate_ok lo hi (mkRT sample (sample `div` 2) now).
Proof.
  intros Hlo Hx. assert (sample `div` 2 ≤ hi `div` 2)%Z by (apply Z.div_le_mono; lia).
  assert (0 ≤ sample `div` 2)%Z by (apply Z.div_pos; lia).
  split; simpl; unfold slack; lia.
Qed.

Lemma wf_record lo hi now r peer sample :
  (0 ≤ lo)%Z → wf lo hi r → (lo ≤ sample ≤ hi)%Z → wf lo hi (record now r peer sample).
Proof.
  intros Hlo [Hc He] Hx. unfold record. destruct (peers r !! peer) as [rt|] eqn:Hp.
  { split; simpl; [by rewrite map_size_insert_Some|]. apply map_Forall_insert_2; [|done].
    apply smooth_ok; [done| |done]. by apply (He peer). }
  pose proof (first_ok lo hi now sample Hlo Hx) as Hf.
  set (kept := filter _ _).
  assert (map_Forall (λ _, estimate_ok lo hi) kept) as Hk.
  { intros k e [Hke _]%map_lookup_filter_Some. by apply (He k). }
  assert (kept !! peer = None) as Hkp by (apply map_lookup_filter_None; by left).
  destruct (_ <=? size (peers r)) eqn:E1; [destruct (_ <=? size kept) eqn:E2|]; bool_facts.
  - split; simpl; [|done]. etrans; [|exact Hc]. apply map_subseteq_size, map_filter_subseteq.
  - split; simpl; [rewrite map_size_insert_None by done; lia|]. by apply map_Forall_insert_2.
  - split; simpl; [rewrite map_size_insert_None by done; lia|]. by apply map_Forall_insert_2.
Qed.

(** Measurements, in order: clock, peer, sample. *)
Definition record_all (r : t) (ms : list (Z * SocketAddr * Z)) : t :=
  foldl (λ r m, record m.1.1 r m.1.2 m.2) r ms.

Lemma wf_record_all lo hi r ms :
  (0 ≤ lo)%Z → wf lo hi r → Forall (λ m, (lo ≤ m.2 ≤ hi)%Z) ms → wf lo hi (record_all r ms).
Proof.
  intros Hlo Hr Hms. revert r Hr. induction Hms as [|m ms Hm _ IH]; intros r Hr; [done|].
  simpl. apply IH. by apply wf_record.
Qed.

Lemma resend_after_range r peer :
  (MIN_RESEND_AFTER ≤ resend_after r peer ≤ MAX_RESEND_AFTER)%Z.
Proof.
  unfold resend_after, clamp, INITIAL_RESEND_AFTER, MIN_RESEND_AFTER, MAX_RESEND_AFTER, from_millis, from_secs.
  case_match; lia.
Qed.

(** ** Theorem *)

(** Whatever round trips are measured, the wait before a resend stays
    between 20 ms and 1 s, the table never holds more peers than its capacity,
    and when every sample lies in [lo, hi] every smoothed round trip lies in
    that interval too (short of it by at most 14 ns of integer division) and a
    measured peer waits for at least three of its smoothed round trips unless
    the upper bound is reached. *)
Lemma resend_wait_bounds (lo hi : Z) (cap : nat) (ms : list (Z * SocketAddr * Z)) (peer : SocketAddr)
    (Hlo : (0 ≤ lo)%Z) (Hms : Forall (λ m, (lo ≤ m.2 ≤ hi)%Z) ms) :
  let r := record_all (with_capacity cap) ms in
  (MIN_RESEND_AFTER ≤ resend_after r peer ≤ MAX_RESEND_AFTER)%Z ∧
  size (peers r) ≤ capacity r ∧
  ∀ rt, peers r !! peer = Some rt →
    (lo - slack ≤ smoothed rt ≤ hi)%Z ∧
    (Z.min (3 * smoothed rt) MAX_RESEND_AFTER ≤ resend_after r peer)%Z.
Proof.
  intros r. destruct (wf_record_all lo hi (with_capacity cap) ms) as [Hc He]; [done| |done|].
  { split; [apply Nat.le_0_l|apply map_Forall_empty]. }
  fold r in Hc, He. split; [apply resend_after_range|]. split; [done|].
  intros rt Hrt. split; [by apply (He peer)|]. unfold resend_after. rewrite Hrt. unfold clamp. lia.
Qed.

Definition example_samples : list (Z * SocketAddr * Z) :=
  [(0%Z, mkAddr "10.0.0.2" 1, from_millis 30); (1%Z, mkAddr "10.0.0.2" 1, from_millis 50)].

End RoundTrips.
