(* ===== verification/Crypto.v ===== *)
(** * Signature algorithms (src/src/crypto/)

    The algorithm names of a record header, the length of each signature, the
    choice of a verifier, and the checks each verifier makes before it calls
    its library. A Rust [str] is its UTF-8 bytes. The libraries (ed25519-dalek,
    pqcrypto-dilithium, rsa) are parameters ([SignatureLibraries]). *)

From S2P Require Import Prelude Utils.

(** ** Strings *)

(** A continuation byte, [10xxxxxx]. *)
Definition is_cont (b : byte) : bool := ((128 <=? byte_val b) && (byte_val b <=? 191))%Z.

Definition in_byte_range (lo hi : Z) (b : byte) : bool := ((lo <=? byte_val b) && (byte_val b <=? hi))%Z.

(** [std::str::from_utf8]: well-formed UTF-8 (Unicode, table 3-7). *)
Fixpoint utf8_valid (l : bytes) : bool :=
  match l with
  | [] => true
  | a :: l1 =>
      if in_byte_range 0 127 a then utf8_valid l1
      else if in_byte_range 194 223 a then
        match l1 with b :: l2 => is_cont b && utf8_valid l2 | _ => false end
      else if in_byte_range 224 239 a then
        match l1 with
        | b :: c :: l3 =>
            in_byte_range (if (byte_val a =? 224)%Z then 160 else 128)
              (if (byte_val a =? 237)%Z then 159 else 191) b && is_cont c && utf8_valid l3
        | _ => false
        end
      else if in_byte_range 240 244 a then
        match l1 with
        | b :: c :: d :: l4 =>
            in_byte_range (if (byte_val a =? 240)%Z then 144 else 128)
              (if (byte_val a =? 244)%Z then 143 else 191) b && is_cont c && is_cont d && utf8_valid l4
        | _ => false
        end
      else false
  end.

(** [str::strip_prefix]. *)
Fixpoint strip_prefix (p l : bytes) : option bytes :=
  match p, l with
  | [], _ => Some l
  | a :: p', b :: l' => if bool_decide (a = b) then strip_prefix p' l' else None
  | _ :: _, [] => None
  end.

(** [split('-').next()]: the bytes before the first occurrence of [sep]. *)
Fixpoint before (sep : byte) (l : bytes) : bytes :=
  match l with
  | [] => []
  | b :: l' => if bool_decide (b = sep) then [] else b :: before sep l'
  end.

(** The encodings of the characters [str::trim] removes (White_Space). *)
Definition whitespace : list bytes :=
  [[x09]; [x0a]; [x0b]; [x0c]; [x0d]; [x20]; [xc2; x85]; [xc2; xa0]; [xe1; x9a; x80];
   [xe2; x80; x80]; [xe2; x80; x81]; [xe2; x80; x82]; [xe2; x80; x83]; [xe2; x80; x84];
   [xe2; x80; x85]; [xe2; x80; x86]; [xe2; x80; x87]; [xe2; x80; x88]; [xe2; x80; x89];
   [xe2; x80; x8a]; [xe2; x80; xa8]; [xe2; x80; xa9]; [xe2; x80; xaf]; [xe2; x81; x9f];
   [xe3; x80; x80]].

(** Remove one leading character of a set of encodings. *)
Definition strip_one (set : list bytes) (l : bytes) : option bytes :=
  foldr (λ w acc, match strip_prefix w l with Some l' => Some l' | None => acc end) None set.

Fixpoint strip_all (fuel : nat) (set : list bytes) (l : bytes) : bytes :=
  match fuel with
  | O => l
  | S fuel' => match strip_one set l with Some l' => strip_all fuel' set l' | None => l end
  end.

(** [str::trim]. *)
Definition trim (l : bytes) : bytes :=
  let l1 := strip_all (length l) whitespace l in
  reverse (strip_all (length l1) (reverse <$> whitespace) (reverse l1)).

(** [str::trim_end_matches] of one ASCII character. *)
Definition trim_end_matches (c : byte) (l : bytes) : bytes :=
  reverse (strip_all (length l) [[c]] (reverse l)).

(** ** src/src/crypto/signature_verifier.rs *)

(** [VerifierError], without the text of the message. *)
Inductive VerifierError :=
  | UnsupportedAlgorithm (name : bytes)
  | InvalidKeyLength (len : nat)
  | VerificationFailed.

(** [resolve_alg_and_length]. *)
Definition resolve_alg_and_length (algorithm : bytes) : Result VerifierError (bytes * nat) :=
  if bool_decide (algorithm = str_bytes "RSA") then Ok (str_bytes "RSA", 256)
  else if bool_decide (algorithm = str_bytes "Ed25519") then Ok (str_bytes "Ed25519", 64)
  else if bool_decide (algorithm = str_bytes "Dilithium-2") then Ok (str_bytes "Dilithium", 2420)
  else if bool_decide (algorithm = str_bytes "Dilithium-3") then Ok (str_bytes "Dilithium", 3293)
  else if bool_decide (algorithm = str_bytes "Dilithium-5") then Ok (str_bytes "Dilithium", 4595)
  else Err (UnsupportedAlgorithm algorithm).

(** [dilithium_level_from_pubkey_len] and [dilithium_level_from_privkey_len]. *)
Definition dilithium_level_from_pubkey_len (len : nat) : option nat :=
  if len =? 1312 then Some 2 else if len =? 1952 then Some 3
  else if len =? 2592 then Some 5 else None.

Definition dilithium_level_from_privkey_len (len : nat) : option nat :=
  if len =? 2560 then Some 2 else if len =? 4032 then Some 3
  else if len =? 4896 then Some 5 else None.

(** ** The signature libraries *)

(** What the verifiers and signers call: key and signature parsing, and the
    verification itself. Dilithium is indexed by its level. The signers of
    Dilithium and RSA draw randomness, their first argument of type [bytes]. *)
Class SignatureLibraries := {
  ed25519_key : bytes → bool;
  ed25519_verify : bytes → bytes → bytes → bool;
  ed25519_sign : bytes → bytes → bytes;
  dilithium_key : nat → bytes → bool;
  dilithium_signature : nat → bytes → bool;
  dilithium_verify : nat → bytes → bytes → bytes → bool;
  dilithium_secret : nat → bytes → bool;
  dilithium_sign : nat → bytes → bytes → bytes → bytes;
  RsaKey : Type;
  rsa_from_der : bytes → option RsaKey;
  rsa_from_pem : bytes → option RsaKey;
  rsa_signature : bytes → bool;
  rsa_verify : RsaKey → bytes → bytes → bool;
  RsaSecret : Type;
  rsa_secret_from_der : bytes → option RsaSecret;
  rsa_secret_from_pem : bytes → option RsaSecret;
  rsa_sign : bytes → RsaSecret → bytes → bytes
}.

Section verifiers.
Context `{SignatureLibraries}.

(** [Ed25519SignatureVerifier::verify]. *)
Definition ed25519_verifier (public_key signature message : bytes) : Result VerifierError bool :=
  if negb (length public_key =? 32) then Err (InvalidKeyLength (length public_key))
  else if negb (length signature =? 64) then Err VerificationFailed
  else if negb (ed25519_key public_key) then Err VerificationFailed
  else Ok (ed25519_verify public_key message signature).

(** [Ed25519Signer::sign]. *)
Definition ed25519_signer (private_key message : bytes) : Result VerifierError bytes :=
  if negb (length private_key =? 32) then Err (InvalidKeyLength (length private_key))
  else Ok (ed25519_sign private_key message).

(** [verify_d2], [verify_d3] and [verify_d5]. *)
Definition verify_d (level : nat) (pk sig msg : bytes) : Result VerifierError bool :=
  if negb (dilithium_key level pk) then Err (InvalidKeyLength (length pk))
  else if negb (dilithium_signature level sig) then Err VerificationFailed
  else Ok (dilithium_verify level sig msg pk).

(** [DilithiumSignatureVerifier::verify]. *)
Definition dilithium_verifier (public_key signature message : bytes) : Result VerifierError bool :=
  level ← ok_or (dilithium_level_from_pubkey_len (length public_key))
    (InvalidKeyLength (length public_key));
  verify_d level public_key signature message.

(** [load_public_key]. *)
Definition load_public_key (key : bytes) : Result VerifierError RsaKey :=
  match rsa_from_der key with
  | Some pk => Ok pk
  | None =>
      if negb (utf8_valid key) then Err VerificationFailed
      else ok_or (rsa_from_pem key) VerificationFailed
  end.

(** [RSASignatureVerifier::verify]. *)
Definition rsa_verifier (public_key signature message : bytes) : Result VerifierError bool :=
  rsa_pub ← load_public_key public_key;
  if negb (rsa_signature signature) then Err VerificationFailed
  else Ok (rsa_verify rsa_pub message signature).

(** [SignatureVerifierFactory::get_verifier]. *)
Definition get_verifier (algorithm : bytes)
    : Result VerifierError (bytes → bytes → bytes → Result VerifierError bool) :=
  let base := trim (before x2d algorithm) in
  if bool_decide (base = str_bytes "RSA") then Ok rsa_verifier
  else if bool_decide (base = str_bytes "Ed25519") then Ok ed25519_verifier
  else if bool_decide (base = str_bytes "Dilithium") then Ok dilithium_verifier
  else Err (UnsupportedAlgorithm base).

(** [sign_d2], [sign_d3] and [sign_d5]. *)
Definition sign_d (rng : bytes) (level : nat) (sk msg : bytes) : Result VerifierError bytes :=
  if negb (dilithium_secret level sk) then Err (InvalidKeyLength (length sk))
  else Ok (dilithium_sign level rng msg sk).

(** [DilithiumSigner::sign]. *)
Definition dilithium_signer (rng private_key message : bytes) : Result VerifierError bytes :=
  level ← ok_or (dilithium_level_from_privkey_len (length private_key))
    (InvalidKeyLength (length private_key));
  sign_d rng level private_key message.

(** [load_private_key]. *)
Definition load_private_key (key : bytes) : Result VerifierError RsaSecret :=
  match rsa_secret_from_der key with
  | Some sk => Ok sk
  | None =>
      if negb (utf8_valid key) then Err VerificationFailed
      else ok_or (rsa_secret_from_pem key) VerificationFailed
  end.

(** [RSASigner::sign]. *)
Definition rsa_signer (rng private_key message : bytes) : Result VerifierError bytes :=
  rsa_priv ← load_private_key private_key;
  Ok (rsa_sign rng rsa_priv message).

(** [SignerFactory::get_signer]. *)
Definition get_signer (rng algorithm : bytes)
    : Result VerifierError (bytes → bytes → Result VerifierError bytes) :=
  let base := trim (before x2d algorithm) in
  if bool_decide (base = str_bytes "RSA") then Ok (rsa_signer rng)
  else if bool_decide (base = str_bytes "Ed25519") then Ok ed25519_signer
  else if bool_decide (base = str_bytes "Dilithium") then Ok (dilithium_signer rng)
  else Err (UnsupportedAlgorithm base).

End verifiers.

(** ** Facts *)

(** The names a record header may carry. *)
Definition algorithm_names : list bytes :=
  [str_bytes "RSA"; str_bytes "Ed25519"; str_bytes "Dilithium-2"; str_bytes "Dilithium-3";
   str_bytes "Dilithium-5"].

Lemma resolve_alg_Ok alg base n :
  resolve_alg_and_length alg = Ok (base, n) → alg ∈ algorithm_names.
Proof.
  unfold resolve_alg_and_length, algorithm_names. intros Hr.
  repeat (case_bool_decide; [subst; set_solver|]). done.
Qed.

(** The factory selects, for each name a header may carry, the verifier of the
    base algorithm the name resolves to. *)
Lemma get_verifier_names `{SignatureLibraries} alg :
  alg ∈ algorithm_names →
  ∃ n, resolve_alg_and_length alg = Ok (before x2d alg, n) ∧
    get_verifier alg = Ok (if bool_decide (before x2d alg = str_bytes "RSA") then rsa_verifier
      else if bool_decide (before x2d alg = str_bytes "Ed25519") then ed25519_verifier
      else dilithium_verifier).
Proof.
  unfold algorithm_names. intros Ha.
  repeat (apply elem_of_cons in Ha as [->|Ha]; [eexists; split; vm_compute; reflexivity|]).
  by apply not_elem_of_nil in Ha.
Qed.
