(* ===== verification/AuthHandler.v ===== *)
(** * Verification of records (src/src/auth_handler.rs, src/src/signature_cache.rs)

    [SignatureVerifierHandler] is the interface of a verification rule, with
    the DID-document rule as its instance; [verify_record] and
    [verify_rotation] are how a node runs a rule, with the signature cache.
    JSON, base64, UUID parsing, SHA-256 and the cache library are parameters. *)

From S2P Require Import Prelude Utils Messages Crypto.

(** ** Libraries *)

(** serde_json: parsing, indexing ([value["k"]], [value[0]]) and [as_str]. *)
Class Json := {
  Value : Type;
  json_from_slice : bytes → option Value;
  json_field : Value → bytes → Value;
  json_item : Value → nat → Value;
  json_as_str : Value → option bytes
}.

(** [URL_SAFE_NO_PAD.decode] and [Uuid::parse_str]. *)
Class Base64 := b64_decode : bytes → option bytes.
Class UuidSyntax := uuid_parse : bytes → bool.

(** [AuthHandlerError], without the payload of library errors. *)
Inductive AuthHandlerError :=
  | ECrypto (e : VerifierError)
  | EJson | EBase64 | EIo
  | EMissingField (name : string)
  | EUtf8 | EInvalidFormat | EInvalidDid.

(** ** The interface *)

(** The trait [SignatureVerifierHandler]. *)
Class SignatureVerifierHandler := {
  handle_key_binding_verification : ident → bytes → Result AuthHandlerError bool;
  handle_signature_verification : bytes → Result AuthHandlerError bool;
  handle_update_verification : bytes → bytes → bytes → Result AuthHandlerError bool;
  handle_issuer_node_signature_verification : bytes → Result AuthHandlerError bool
}.

(** ** The format of a record *)

(** [raw.iter().position(|&b| b == 0).unwrap_or(raw.len())]. *)
Definition first_null (raw : bytes) : nat :=
  match list_find (λ b, b = x00) raw with Some (i, _) => i | None => length raw end.

(** [get_alg_string]. *)
Definition get_alg_string (value : bytes) : Result AuthHandlerError bytes :=
  if length value <? 12 then Err EInvalidFormat
  else
    let raw := take 12 value in
    let end_ := first_null raw in
    if existsb (λ b, negb (bool_decide (b = x00))) (drop end_ raw) then Err EInvalidFormat
    else if utf8_valid (take end_ raw) then Ok (take end_ raw) else Err EUtf8.

(** [extract_sig_and_data]. *)
Definition extract_sig_and_data (value : bytes) (sig_length : nat)
    : Result AuthHandlerError (bytes * bytes) :=
  let data_start := 12 + sig_length in
  if length value <? data_start then Err EInvalidFormat
  else Ok (take (data_start - 12) (drop 12 value), drop data_start value).

Section did.
Context `{Sha1, SignatureLibraries, Json, Base64, UuidSyntax}.

(** [decode_b64url]. *)
Definition decode_b64url (key : bytes) : Result AuthHandlerError bytes :=
  ok_or (b64_decode (trim_end_matches x3d key)) EBase64.

(** [public_key_from_did_doc]. *)
Definition public_key_from_did_doc (data : bytes) : Result AuthHandlerError bytes :=
  doc ← ok_or (json_from_slice data) EJson;
  x ← ok_or (json_as_str (json_field (json_field (json_item
        (json_field doc (str_bytes "verificationMethod")) 0) (str_bytes "publicKeyJwk"))
        (str_bytes "x"))) (EMissingField "verificationMethod[0].publicKeyJwk.x");
  decode_b64url x.

(** [did_document_matches_key]. *)
Definition did_document_matches_key (value : bytes) (key : ident) : Result AuthHandlerError bool :=
  alg ← get_alg_string value;
  '(_, sig_len) ← map_err ECrypto (resolve_alg_and_length alg);
  '(_, data) ← extract_sig_and_data value sig_len;
  doc ← ok_or (json_from_slice data) EJson;
  did ← ok_or (json_as_str (json_field doc (str_bytes "id"))) (EMissingField "id");
  uuid ← ok_or (strip_prefix (str_bytes "did:iiot:") did) EInvalidDid;
  if uuid_parse uuid then Ok (bool_decide (digest uuid = key)) else Err EInvalidDid.

(** [DIDSignatureVerifierHandler::verify_self_signed]. *)
Definition verify_self_signed (value : bytes) : Result AuthHandlerError bool :=
  alg ← get_alg_string value;
  '(_, sig_len) ← map_err ECrypto (resolve_alg_and_length alg);
  '(signature, data) ← extract_sig_and_data value sig_len;
  pub_key ← public_key_from_did_doc data;
  verifier ← map_err ECrypto (get_verifier alg);
  map_err ECrypto (verifier pub_key signature data).

(** [DIDSignatureVerifierHandler::verify_key_rotation]. *)
Definition verify_key_rotation (new_value old_value auth_signature : bytes)
    : Result AuthHandlerError bool :=
  old_alg ← get_alg_string old_value;
  '(_, old_sig_len) ← map_err ECrypto (resolve_alg_and_length old_alg);
  '(_, old_data) ← extract_sig_and_data old_value old_sig_len;
  old_pub_key ← public_key_from_did_doc old_data;
  verifier ← map_err ECrypto (get_verifier old_alg);
  ok ← map_err ECrypto (verifier old_pub_key auth_signature new_value);
  if negb ok then Ok false else verify_self_signed new_value.

(** [handle_issuer_node_signature_verification]; [issuer_file] is the result of
    [load_issuer_pub_key], which reads the key file at each call. *)
Definition verify_issuer (issuer_file : option bytes) (value : bytes) : Result AuthHandlerError bool :=
  alg ← get_alg_string value;
  '(_, sig_len) ← map_err ECrypto (resolve_alg_and_length alg);
  '(signature, data) ← extract_sig_and_data value sig_len;
  issuer_pub_key ← ok_or issuer_file EIo;
  verifier ← map_err ECrypto (get_verifier alg);
  map_err ECrypto (verifier issuer_pub_key signature data).

(** [impl SignatureVerifierHandler for DIDSignatureVerifierHandler]. The code reads
    the file at each call: a handler is one call, or a span of time in which the
    file does not change; AuthProps treats histories in which it does. *)
Definition did_handler (issuer_file : option bytes) : SignatureVerifierHandler := {|
  handle_key_binding_verification := λ key value, did_document_matches_key value key;
  handle_signature_verification := verify_self_signed;
  handle_update_verification := λ value old_value sig, verify_key_rotation value old_value sig;
  handle_issuer_node_signature_verification := verify_issuer issuer_file
|}.

End did.

(** ** The signature cache *)

(** [VerificationDomain] and its discriminant. *)
Inductive VerificationDomain := SelfSigned | IssuerSigned.

#[global] Instance VerificationDomain_eq_dec : EqDecision VerificationDomain.
Proof. solve_decision. Defined.

Definition domain_byte (d : VerificationDomain) : byte :=
  match d with SelfSigned => x00 | IssuerSigned => x01 end.

(** [SignatureCache::compute_key]. *)
Definition compute_key `{Sha256} (domain : VerificationDomain) (value : bytes) : bytes :=
  sha256 (domain_byte domain :: value).

(** moka's [Cache<[u8; 32], bool>]: a bounded cache that evicts and expires
    entries when it likes. [cache_get now c k] is the lookup at an instant. *)
Class MokaCache (C : Type) := {
  cache_get : Z → C → bytes → option bool;
  cache_insert : Z → C → bytes → bool → C
}.

(** What the program relies on: entries only disappear, and an insertion adds
    nothing but its entry. *)
Class MokaCacheLaws (C : Type) `{MokaCache C} := {
  cache_ages now now' c k b :
    (now ≤ now')%Z → cache_get now' c k = Some b → cache_get now c k = Some b;
  cache_inserted now c k b k' b' :
    cache_get now (cache_insert now c k b) k' = Some b' →
    k' = k ∧ b' = b ∨ cache_get now c k' = Some b'
}.

(** [SignatureCache]: the lookups and insertions, by key and by record. *)
Module SignatureCache.
Section cache.
Context `{Sha256, MokaCache C}.

Definition get_by_key (now : Z) (c : C) (key : bytes) : option bool := cache_get now c key.
Definition insert_by_key (now : Z) (c : C) (key : bytes) (result : bool) : C := cache_insert now c key result.
Definition get (now : Z) (c : C) (domain : VerificationDomain) (value : bytes) : option bool :=
  cache_get now c (compute_key domain value).
Definition insert (now : Z) (c : C) (domain : VerificationDomain) (value : bytes) (result : bool) : C :=
  cache_insert now c (compute_key domain value) result.

End cache.
End SignatureCache.

(** ** Running a rule *)

Section verify.
Context `{Sha1, Sha256, MokaCache C} (handler : SignatureVerifierHandler).

(** [is_bound_to_key]. *)
Definition is_bound_to_key (key : ident) (value : bytes) : bool :=
  bool_decide (key = digest STATUS_LIST_KEY) ||
  unwrap_or (handle_key_binding_verification key value) false.

(** The check that runs on a blocking thread in [verify_record]. *)
Definition check_signature (is_status : bool) (value : bytes) : bool :=
  if is_status then unwrap_or (handle_issuer_node_signature_verification value) false
  else unwrap_or (handle_signature_verification value) false.

(** [verify_record]: the result and the cache. [None] is a disabled cache. *)
Definition verify_record (now : Z) (cache : option C) (key : ident) (value : bytes)
    : bool * option C :=
  let is_status := bool_decide (key = digest STATUS_LIST_KEY) in
  if negb (is_bound_to_key key value) then (false, cache)
  else
    let domain := if is_status then IssuerSigned else SelfSigned in
    match cache with
    | None => (check_signature is_status value, None)
    | Some c =>
        let ck := compute_key domain value in
        match cache_get now c ck with
        | Some cached => (cached, cache)
        | None =>
            let result := check_signature is_status value in
            (result, Some (cache_insert now c ck result))
        end
    end.

(** [verify_rotation]. *)
Definition verify_rotation (key : ident) (new old auth_signature : bytes) : bool :=
  unwrap_or (handle_key_binding_verification key old) false &&
  unwrap_or (handle_key_binding_verification key new) false &&
  unwrap_or (handle_update_verification new old auth_signature) false.

(** [verify_issuer_signed]. *)
Definition verify_issuer_signed (value : bytes) : bool :=
  unwrap_or (handle_issuer_node_signature_verification value) false.

End verify.
