(* ===== verification/AuthProps.v ===== *)
(** * What record verification promises (src/src/auth_handler.rs)

    The format of a record is parsed without ambiguity; a record is accepted
    exactly when it is bound to its key and signed; a rotation needs the key of
    the record it replaces; the cache never changes a verdict. *)

From S2P Require Import Prelude Utils Messages Crypto AuthHandler.

(** ** The record format *)

(** The 12-byte algorithm field. *)
Definition pad12 (alg : bytes) : bytes := alg ++ replicate (12 - length alg) x00.

(** A record with its parts. *)
Record record_parts (value alg sig doc : bytes) : Prop := {
  rp_alg : alg ∈ algorithm_names;
  rp_sig : resolve_alg_and_length alg = Ok (before x2d alg, length sig);
  rp_value : value = pad12 alg ++ sig ++ doc
}.

Lemma first_null_app alg n :
  x00 ∉ alg → first_null (alg ++ replicate n x00) = length alg.
Proof.
  intros Hnz. unfold first_null. rewrite list_find_app_r.
  2: { apply list_find_None, Forall_forall. intros b Hb ->. done. }
  destruct n as [|n]; simpl; [|lia]. by rewrite app_nil_r.
Qed.

Lemma first_null_le raw : first_null raw ≤ length raw.
Proof.
  unfold first_null. destruct (list_find _ raw) as [[i b]|] eqn:E; [|done].
  apply list_find_Some in E as (Hi & _). apply lookup_lt_Some in Hi. lia.
Qed.

Lemma first_null_none raw : x00 ∉ take (first_null raw) raw.
Proof.
  unfold first_null. destruct (list_find _ raw) as [[i b]|] eqn:E.
  - apply list_find_Some in E as (Hi & _ & Hmin). intros (j & Hj & Hlt)%elem_of_take.
    by apply (Hmin j x00).
  - rewrite take_ge by done. apply list_find_None in E. rewrite Forall_forall in E.
    intros Hin. by apply (E x00).
Qed.

Lemma all_null l : existsb (λ b, negb (bool_decide (b = x00))) l = false → l = replicate (length l) x00.
Proof.
  induction l as [|b l IH]; [done|]. simpl. intros [Hb Hl]%orb_false_iff.
  apply negb_false_iff, bool_decide_eq_true in Hb. subst. f_equal. by apply IH.
Qed.

Lemma existsb_null n : existsb (λ b, negb (bool_decide (b = x00))) (replicate n x00) = false.
Proof. induction n; [done|]. simpl. by rewrite IHn. Qed.

Lemma get_alg_string_Ok value alg :
  get_alg_string value = Ok alg ↔
  12 ≤ length value ∧ length alg ≤ 12 ∧ x00 ∉ alg ∧ utf8_valid alg = true ∧
  take 12 value = pad12 alg.
Proof.
  unfold get_alg_string. destruct (length value <? 12) eqn:El; bool_facts.
  { split; [done|]. lia. }
  set (raw := take 12 value). assert (length raw = 12) as Hraw by (unfold raw; rewrite length_take; lia).
  split.
  - destruct (existsb _ _) eqn:Ez; [done|]. destruct (utf8_valid _) eqn:Eu; [|done].
    intros [= <-]. apply all_null in Ez. rewrite length_drop, Hraw in Ez.
    pose proof (first_null_le raw). split; [done|]. split; [rewrite length_take; lia|].
    split; [apply first_null_none|]. split; [done|].
    rewrite <-(take_drop (first_null raw) raw) at 1. unfold pad12. rewrite Ez, length_take.
    by replace (12 - first_null raw `min` length raw) with (12 - first_null raw) by lia.
  - intros (_ & Hlen & Hnz & Hu & ->). unfold pad12.
    rewrite first_null_app by done. rewrite drop_app_length, take_app_length.
    by rewrite existsb_null, Hu.
Qed.

Lemma extract_sig_and_data_Ok value n sig data :
  extract_sig_and_data value n = Ok (sig, data) ↔
  length sig = n ∧ ∃ hd, length hd = 12 ∧ value = hd ++ sig ++ data.
Proof.
  unfold extract_sig_and_data. destruct (length value <? 12 + n) eqn:El; bool_facts.
  { split; [done|]. intros (<- & hd & Hhd & ->). rewrite !length_app in El. lia. }
  replace (12 + n - 12) with n by lia. split.
  - intros E. assert (take n (drop 12 value) = sig ∧ drop (12 + n) value = data) as [<- <-]
      by (split; congruence).
    rewrite length_take, length_drop. split; [lia|]. exists (take 12 value).
    rewrite length_take. split; [lia|]. rewrite <-(drop_drop value n 12). by rewrite !take_drop.
  - intros (<- & hd & Hhd & ->). rewrite <-Hhd. rewrite drop_app_length, take_app_length.
    rewrite <-drop_drop, !drop_app_length. done.
Qed.

Lemma names_ok alg :
  alg ∈ algorithm_names → length alg ≤ 12 ∧ x00 ∉ alg ∧ utf8_valid alg = true.
Proof.
  intros Ha. unfold algorithm_names in Ha.
  repeat (apply elem_of_cons in Ha as [->|Ha];
    [split; [vm_compute; lia|]; split; [|reflexivity]; apply (bool_decide_unpack _); exact I|]).
  by apply not_elem_of_nil in Ha.
Qed.

Lemma length_pad12 alg : length alg ≤ 12 → length (pad12 alg) = 12.
Proof. intros. unfold pad12. rewrite length_app, length_replicate. lia. Qed.

(** The three parsing steps of every check, together. *)
Lemma parts_parse value alg base n sig doc :
  get_alg_string value = Ok alg → resolve_alg_and_length alg = Ok (base, n) →
  extract_sig_and_data value n = Ok (sig, doc) → record_parts value alg sig doc ∧ length sig = n.
Proof.
  intros Ha Hr He. pose proof (resolve_alg_Ok _ _ _ Hr) as Hin.
  apply get_alg_string_Ok in Ha as (_ & Hlen & _ & _ & Ht).
  apply extract_sig_and_data_Ok in He as (Hs & hd & Hhd & ->). split; [|done].
  assert (base = before x2d alg) as ->.
  { clear -Hin Hr. unfold algorithm_names in Hin.
    repeat (apply elem_of_cons in Hin as [->|Hin]; [vm_compute in Hr |- *; congruence|]).
    by apply not_elem_of_nil in Hin. }
  split; [done|by subst|]. rewrite <-Hhd, take_app_length in Ht. by rewrite Ht.
Qed.

Lemma parts_unparse value alg sig doc :
  record_parts value alg sig doc →
  get_alg_string value = Ok alg ∧
  resolve_alg_and_length alg = Ok (before x2d alg, length sig) ∧
  extract_sig_and_data value (length sig) = Ok (sig, doc).
Proof.
  intros [Hin Hr ->]. destruct (names_ok alg Hin) as (Hlen & Hnz & Hu).
  pose proof (length_pad12 alg Hlen) as Hp. split; [|split; [done|]].
  - apply get_alg_string_Ok. rewrite length_app, Hp. split; [lia|].
    split; [done|]. split; [done|]. split; [done|]. by rewrite <-Hp, take_app_length.
  - apply extract_sig_and_data_Ok. eauto.
Qed.

Lemma parts_unique value alg sig doc alg' sig' doc' :
  record_parts value alg sig doc → record_parts value alg' sig' doc' →
  alg = alg' ∧ sig = sig' ∧ doc = doc'.
Proof.
  intros H1%parts_unparse H2%parts_unparse.
  destruct H1 as (Ha & Hr & He), H2 as (Ha' & Hr' & He').
  assert (alg = alg') as <- by congruence. rewrite Hr in Hr'.
  assert (length sig = length sig') as El by congruence. rewrite <-El, He in He'. naive_solver.
Qed.

(** ** Meaning of the checks of the DID rule *)

Section did_rule.
Context `{Sha1, Sha256, SignatureLibraries, Json, Base64, UuidSyntax}.

(** The document names the DID whose UUID hashes to [key]. *)
Definition names_key (doc : bytes) (key : ident) : Prop :=
  ∃ v did uuid, json_from_slice doc = Some v ∧ json_as_str (json_field v (str_bytes "id")) = Some did ∧
    strip_prefix (str_bytes "did:iiot:") did = Some uuid ∧ uuid_parse uuid = true ∧ digest uuid = key.

(** The verifier of an algorithm accepts. *)
Definition valid_signature (alg pub_key sig data : bytes) : Prop :=
  ∃ verifier, get_verifier alg = Ok verifier ∧ verifier pub_key sig data = Ok true.

(** The parts of a record, signed with the key of its own document. *)
Definition self_signed (value : bytes) : Prop :=
  ∃ alg sig doc pub_key, record_parts value alg sig doc ∧
    public_key_from_did_doc doc = Ok pub_key ∧ valid_signature alg pub_key sig doc.

Definition bound (value : bytes) (key : ident) : Prop :=
  ∃ alg sig doc, record_parts value alg sig doc ∧ names_key doc key.

Definition rotates (new old auth_signature : bytes) : Prop :=
  ∃ alg sig doc pub_key, record_parts old alg sig doc ∧
    public_key_from_did_doc doc = Ok pub_key ∧ valid_signature alg pub_key auth_signature new.

Definition issued (issuer_file : option bytes) (value : bytes) : Prop :=
  ∃ alg sig doc pub_key, record_parts value alg sig doc ∧
    issuer_file = Some pub_key ∧ valid_signature alg pub_key sig doc.

(** A check that parses a record and goes on with its parts. *)
Lemma with_parts {A} value (k : bytes → bytes → bytes → Result AuthHandlerError A) a :
  (alg ← get_alg_string value;
   '(_, sig_len) ← map_err ECrypto (resolve_alg_and_length alg);
   '(sig, doc) ← extract_sig_and_data value sig_len;
   k alg sig doc) = Ok a ↔
  ∃ alg sig doc, record_parts value alg sig doc ∧ k alg sig doc = Ok a.
Proof.
  split.
  - intros (alg & Ha & Hk)%bind_Ok. apply bind_Ok in Hk as ([base n] & Hr & Hk).
    apply map_err_Ok in Hr. apply bind_Ok in Hk as ([sig doc] & He & Hk).
    destruct (parts_parse _ _ _ _ _ _ Ha Hr He) as [Hp _]. eauto.
  - intros (alg & sig & doc & (Ha & Hr & He)%parts_unparse & Hk).
    rewrite Ha. simpl. rewrite Hr. simpl. rewrite He. done.
Qed.

Lemma check_valid_signature alg pub_key sig data :
  (verifier ← map_err ECrypto (get_verifier alg);
   map_err ECrypto (verifier pub_key sig data)) = Ok true ↔ valid_signature alg pub_key sig data.
Proof.
  rewrite bind_Ok. unfold valid_signature. split.
  - intros (v & Hv%map_err_Ok & Hs%map_err_Ok). eauto.
  - intros (v & Hv & Hs). exists v. rewrite !map_err_Ok. auto.
Qed.

Lemma verify_self_signed_iff value : verify_self_signed value = Ok true ↔ self_signed value.
Proof.
  unfold verify_self_signed, self_signed. rewrite with_parts. f_equiv; intros alg. f_equiv; intros sig.
  f_equiv; intros doc. rewrite bind_Ok. split.
  - intros (Hp & k & Hk & Hv%check_valid_signature). eauto.
  - intros (k & Hp & Hk & Hv). split; [done|]. exists k. by rewrite check_valid_signature.
Qed.

Lemma verify_issuer_iff file value : verify_issuer file value = Ok true ↔ issued file value.
Proof.
  unfold verify_issuer, issued. rewrite with_parts. f_equiv; intros alg. f_equiv; intros sig.
  f_equiv; intros doc. rewrite bind_Ok. split.
  - intros (Hp & k & Hk%ok_or_Ok & Hv%check_valid_signature). eauto.
  - intros (k & Hp & -> & Hv). split; [done|]. exists k. by rewrite check_valid_signature.
Qed.

Lemma did_document_matches_key_iff value key :
  did_document_matches_key value key = Ok true ↔ bound value key.
Proof.
  unfold did_document_matches_key, bound, names_key. rewrite with_parts.
  f_equiv; intros alg. f_equiv; intros sig. f_equiv; intros doc. f_equiv.
  rewrite bind_Ok. f_equiv; intros v. rewrite ok_or_Ok, bind_Ok. split.
  - intros (Hv & did & Hd%ok_or_Ok & (uuid & Hu%ok_or_Ok & Hk)%bind_Ok). exists did, uuid.
    destruct (uuid_parse uuid); [|done]. injection Hk as Hk%bool_decide_eq_true. auto.
  - intros (did & uuid & Hv & Hd & Hu & Hp & Hk). split; [done|]. exists did.
    rewrite ok_or_Ok, bind_Ok. split; [done|]. exists uuid. rewrite ok_or_Ok, Hp.
    split; [done|]. by rewrite bool_decide_eq_true_2.
Qed.

Lemma verify_key_rotation_iff new old auth_signature :
  verify_key_rotation new old auth_signature = Ok true ↔
  rotates new old auth_signature ∧ self_signed new.
Proof.
  unfold verify_key_rotation, rotates. rewrite (with_parts old (λ old_alg _ old_data,
    old_pub_key ← public_key_from_did_doc old_data;
    verifier ← map_err ECrypto (get_verifier old_alg);
    ok ← map_err ECrypto (verifier old_pub_key auth_signature new);
    if negb ok then Ok false else verify_self_signed new)).
  split.
  - intros (alg & sig & doc & Hp & Hk). apply bind_Ok in Hk as (k & Hk & Hv).
    apply bind_Ok in Hv as (v & Hv%map_err_Ok & Ho). apply bind_Ok in Ho as (ok & Hok%map_err_Ok & Hs).
    destruct ok; [|done]. simpl in Hs. apply verify_self_signed_iff in Hs. split; [|done].
    exists alg, sig, doc, k. split; [done|]. split; [done|]. by exists v.
  - intros [(alg & sig & doc & k & Hp & Hk & v & Hv & Ho) Hs]. exists alg, sig, doc.
    split; [done|]. rewrite Hk. simpl. rewrite Hv. simpl. rewrite Ho. simpl.
    by apply verify_self_signed_iff.
Qed.

(** ** Theorems on the DID rule *)

(** The record format is unambiguous: the parser of a record accepts
    exactly the byte strings made of a known algorithm name padded with nulls
    to 12 bytes, a signature of the length of that algorithm, and a document;
    it returns those parts, and no other parts give the same record (so the
    header cannot be rewritten without changing the record's meaning). *)
Lemma record_format_roundtrip (value alg sig doc : bytes) :
  ((alg' ← get_alg_string value;
    '(_, n) ← map_err ECrypto (resolve_alg_and_length alg');
    '(sig', doc') ← extract_sig_and_data value n;
    Ok (alg', sig', doc')) = Ok (alg, sig, doc) ↔ record_parts value alg sig doc) ∧
  (record_parts value alg sig doc → ∀ alg' sig' doc', record_parts value alg' sig' doc' →
     alg = alg' ∧ sig = sig' ∧ doc = doc').
Proof.
  split; [|intros; by eapply parts_unique].
  rewrite (with_parts value (λ a s d, Ok (a, s, d))). split.
  - intros (a & s & d & Hp & [= -> -> ->]). done.
  - intros Hp. eauto.
Qed.

(** C28: without cache, a node accepts a record for a DID key exactly when the
    record is made of a known algorithm, a signature and a document, the
    document names the DID whose UUID hashes to the key, and the signature over
    the document is valid under the public key the document carries. *)
Theorem did_record_accepted_iff `{MokaCache C} (issuer_file : option bytes) (now : Z) (key : ident)
    (value : bytes) :
  (verify_record (C := C) (did_handler issuer_file) now None key value).1 = true ↔
  if decide (key = digest STATUS_LIST_KEY) then issued issuer_file value
  else ∃ alg sig doc pub_key, record_parts value alg sig doc ∧ names_key doc key ∧
    public_key_from_did_doc doc = Ok pub_key ∧ valid_signature alg pub_key sig doc.
Proof.
  unfold verify_record, is_bound_to_key, check_signature. simpl. case_decide as Hs.
  - rewrite bool_decide_eq_true_2 by done. simpl. rewrite unwrap_or_true. apply verify_issuer_iff.
  - rewrite bool_decide_eq_false_2 by done. simpl.
    destruct (unwrap_or (did_document_matches_key value key) false) eqn:Hb; simpl.
    + apply unwrap_or_true, did_document_matches_key_iff in Hb as (alg & sig & doc & Hp & Hn).
      rewrite unwrap_or_true, verify_self_signed_iff. split.
      * intros (alg' & sig' & doc' & k & Hp' & Hk & Hv).
        destruct (parts_unique _ _ _ _ _ _ _ Hp Hp') as (<- & <- & <-). eauto 10.
      * intros (alg' & sig' & doc' & k & Hp' & _ & Hk & Hv). by exists alg', sig', doc', k.
    + split; [done|]. intros (alg & sig & doc & k & Hp & Hn & _).
      assert (did_document_matches_key value key = Ok true) as E
        by (apply did_document_matches_key_iff; by exists alg, sig, doc).
      by rewrite E in Hb.
Qed.

(** A record replaces another one exactly when both are bound to the key,
    the authorization is a signature of the whole new record, valid under the
    public key of the old document and the old record's algorithm, and the new
    record is signed with its own key. *)
Lemma rotation_accepted_iff (issuer_file : option bytes) (key : ident) (new old auth : bytes) :
  verify_rotation (did_handler issuer_file) key new old auth = true ↔
  bound old key ∧ bound new key ∧ rotates new old auth ∧ self_signed new.
Proof.
  unfold verify_rotation. simpl. rewrite !andb_true_iff, !unwrap_or_true.
  rewrite !did_document_matches_key_iff, verify_key_rotation_iff. tauto.
Qed.

End did_rule.

(** ** What clients rely on *)

(** A rule that approves an update also approves the new record by itself. *)
Class SignatureVerifierLaws (h : SignatureVerifierHandler) : Prop := {
  law_rotation new old auth_signature :
    @handle_update_verification h new old auth_signature = Ok true →
    @handle_signature_verification h new = Ok true
}.

#[global] Instance did_handler_laws `{Sha1, SignatureLibraries, Json, Base64, UuidSyntax}
    (issuer_file : option bytes) : SignatureVerifierLaws (did_handler issuer_file).
Proof.
  split. simpl. intros new old auth (_ & Hs)%verify_key_rotation_iff. by apply verify_self_signed_iff.
Qed.

(** ** The cache *)

(** A verdict of one domain is never an answer in the other, unless SHA-256
    collides on the two. *)
Lemma cache_domains `{Sha256, MokaCacheLaws C} now (c : C) d v b d' v' b' :
  (sha256 (domain_byte d' :: v') = sha256 (domain_byte d :: v) → domain_byte d' :: v' = domain_byte d :: v) →
  SignatureCache.get now (SignatureCache.insert now c d v b) d' v' = Some b' →
  d' = d ∧ v' = v ∧ b' = b ∨ SignatureCache.get now c d' v' = Some b'.
Proof.
  unfold SignatureCache.get, SignatureCache.insert, compute_key.
  intros Hh [[[= Hd ->]%Hh ->]|Hc]%cache_inserted; [left|by right]. by destruct d, d'.
Qed.

(** [time_to_live] of the cache (signature_cache.rs), in ns. *)
Definition CACHE_TTL : Z := 3600 * 10 ^ 9.

(** moka's [time_to_live]: an entry is not returned once that time has passed
    since it was inserted; entries only disappear, and an insertion adds nothing
    but its entry. *)
Class MokaCacheTtl (C : Type) `{MokaCache C} : Prop := cache_ttl now now' c k b k' b' :
  (now ≤ now')%Z → cache_get now' (cache_insert now c k b) k' = Some b' →
  k' = k ∧ b' = b ∧ (now' < now + CACHE_TTL)%Z ∨ cache_get now' c k' = Some b'.

Section cache.
Context `{Sha1, Sha256, SignatureLibraries, Json, Base64, UuidSyntax} `{MokaCacheTtl C}.

Definition is_status_key (key : ident) : bool := bool_decide (key = digest STATUS_LIST_KEY).

Definition domain_of (key : ident) : VerificationDomain :=
  if is_status_key key then IssuerSigned else SelfSigned.

(** A verification: its instant, what the issuer key file holds then ([None]
    when it cannot be read), and the record. *)
Record Check := mkCheck { chk_now : Z; chk_file : option bytes; chk_key : ident; chk_value : bytes }.

(** The bytes hashed for it. *)
Definition preimage (r : Check) : bytes := domain_byte (domain_of (chk_key r)) :: chk_value r.

(** The verdict on a record with the issuer key file [file], without cache. *)
Definition verdict (file : option bytes) (r : Check) : bool :=
  is_bound_to_key (did_handler file) (chk_key r) (chk_value r) &&
  check_signature (did_handler file) (is_status_key (chk_key r)) (chk_value r).

(** Verifications in order, through the cache; the file is read at each. *)
Fixpoint verify_all (cache : option C) (rs : list Check) : list bool :=
  match rs with
  | [] => []
  | r :: rs' =>
      let '(b, cache') := verify_record (did_handler (chk_file r)) (chk_now r) cache (chk_key r) (chk_value r) in
      b :: verify_all cache' rs'
  end.

(** What an entry of the cache is: the result of the signature check of an
    earlier verification of the same bytes, with the file it read, less than
    [CACHE_TTL] ago. *)
Definition cache_of (now : Z) (c : C) (seen : list Check) : Prop :=
  ∀ now' k b, (now ≤ now')%Z → cache_get now' c k = Some b →
    ∃ r, r ∈ seen ∧ k = sha256 (preimage r) ∧ (now' < chk_now r + CACHE_TTL)%Z ∧
      b = check_signature (did_handler (chk_file r)) (is_status_key (chk_key r)) (chk_value r).

(** [r] has the verdict of an earlier or the same verification [r'] of its bytes. *)
Definition answered_by (r r' : Check) (b : bool) : Prop :=
  preimage r' = preimage r ∧ (chk_now r < chk_now r' + CACHE_TTL)%Z ∧ b = verdict (chk_file r') r.

Lemma compute_key_preimage r :
  compute_key (if is_status_key (chk_key r) then IssuerSigned else SelfSigned) (chk_value r) = sha256 (preimage r).
Proof using. done. Qed.

Lemma domain_byte_inj d d' : domain_byte d = domain_byte d' → d = d'.
Proof using. by destruct d, d'. Qed.

Lemma preimage_inj r r' :
  preimage r = preimage r' → is_status_key (chk_key r) = is_status_key (chk_key r') ∧ chk_value r = chk_value r'.
Proof using.
  unfold preimage, domain_of. intros E. injection E as Ed ->. apply domain_byte_inj in Ed.
  by destruct (is_status_key (chk_key r)), (is_status_key (chk_key r')).
Qed.

(** Nothing but the check of an issuer signature depends on the file. *)
Lemma verdict_self_signed file file' r : is_status_key (chk_key r) = false → verdict file r = verdict file' r.
Proof using. intros Hs. unfold verdict. by rewrite Hs. Qed.

Lemma is_bound_file file file' key value :
  is_bound_to_key (did_handler file) key value = is_bound_to_key (did_handler file') key value.
Proof using. done. Qed.

Lemma verify_record_cached c seen r :
  cache_of (chk_now r) c seen →
  (∀ a b, a ∈ preimage <$> (r :: seen) → b ∈ preimage <$> (r :: seen) → sha256 a = sha256 b → a = b) →
  ∃ b c', verify_record (did_handler (chk_file r)) (chk_now r) (Some c) (chk_key r) (chk_value r) = (b, Some c') ∧
    cache_of (chk_now r) c' (r :: seen) ∧ ∃ r', r' ∈ r :: seen ∧ answered_by r r' b.
Proof using All.
  intros Hc Hcf.
  assert (cache_of (chk_now r) c (r :: seen)) as Hc'.
  { intros now' k b Hle Hk. destruct (Hc now' k b Hle Hk) as (r' & Hr & ?). exists r'. split; [by right|done]. }
  assert (∀ b, b = verdict (chk_file r) r → ∃ r', r' ∈ r :: seen ∧ answered_by r r' b) as Hself.
  { intros b ->. exists r. split; [by left|]. split; [done|]. split; [|done]. unfold CACHE_TTL. lia. }
  unfold verify_record. fold (is_status_key (chk_key r)).
  destruct (is_bound_to_key (did_handler (chk_file r)) (chk_key r) (chk_value r)) eqn:Hb; cbn [negb].
  2:{ exists false, c. split; [done|]. split; [done|]. apply Hself. unfold verdict. by rewrite Hb. }
  rewrite compute_key_preimage.
  destruct (cache_get (chk_now r) c (sha256 (preimage r))) as [b|] eqn:Hg.
  - exists b, c. split; [done|]. split; [done|].
    destruct (Hc _ _ _ (Z.le_refl _) Hg) as (r' & Hr & Hk & Ht & ->). exists r'. split; [by right|].
    assert (preimage r' = preimage r) as E.
    { symmetry. apply Hcf; [apply list_elem_of_fmap_2; by left|apply list_elem_of_fmap_2; by right|done]. }
    split; [done|]. split; [done|]. apply preimage_inj in E as [-> ->].
    unfold verdict. by rewrite (is_bound_file _ (chk_file r)), Hb.
  - eexists _, _. split; [done|]. split.
    + intros now' k b Hle [(-> & -> & Ht)|Hk]%cache_ttl; [| |done].
      * exists r. split; [by left|]. done.
      * by apply (Hc' now').
    + apply Hself. unfold verdict. by rewrite Hb.
Qed.

Lemma verify_all_cached c seen rs now0 :
  cache_of now0 c seen →
  (∀ a b, a ∈ preimage <$> (seen ++ rs) → b ∈ preimage <$> (seen ++ rs) → sha256 a = sha256 b → a = b) →
  Forall (λ r, now0 ≤ chk_now r)%Z rs → StronglySorted (λ a b, chk_now a ≤ chk_now b)%Z rs →
  ∀ i r, rs !! i = Some r → ∃ b r', verify_all (Some c) rs !! i = Some b ∧
    r' ∈ seen ++ take (S i) rs ∧ answered_by r r' b.
Proof using All.
  revert c seen now0. induction rs as [|r rs IH]; intros c seen now0 Hc Hcf Hle Hs i r0 Hi; [done|].
  apply Forall_cons in Hle as [Hle _]. apply StronglySorted_inv in Hs as [Hs Hall].
  destruct (verify_record_cached c seen r) as (b & c' & Hv & Hc' & r' & Hr' & Hans).
  - intros now' k b Hle' Hk. apply (Hc now' k b); [lia|done].
  - intros x y Hx Hy. apply Hcf; [revert Hx|revert Hy]; rewrite !list_elem_of_fmap; intros (q & -> & Hq);
      exists q; (split; [done|]); rewrite elem_of_app, elem_of_cons in *; tauto.
  - cbn [verify_all]. rewrite Hv. destruct i as [|i]; simpl in *.
    + injection Hi as <-. exists b, r'. split; [done|]. split; [|done].
      rewrite take_0, elem_of_app, list_elem_of_singleton. apply elem_of_cons in Hr' as [->|]; auto.
    + destruct (IH c' (r :: seen) (chk_now r) Hc') with (i := i) (r := r0) as (b1 & r1 & Hb1 & Hr1 & Hans1); try done.
      * intros x y Hx Hy. apply Hcf; [revert Hx|revert Hy]; rewrite !list_elem_of_fmap; intros (q & -> & Hq);
          exists q; (split; [done|]); simpl in Hq; rewrite elem_of_cons, !elem_of_app in *; rewrite elem_of_cons; tauto.
      * exists b1, r1. split; [done|]. split; [|done]. simpl in Hr1.
        rewrite elem_of_cons, !elem_of_app in *. rewrite elem_of_cons. tauto.
Qed.

Lemma verify_all_uncached rs : verify_all None rs = (λ r, verdict (chk_file r) r) <$> rs.
Proof using.
  induction rs as [|r rs IH]; [done|]. cbn [verify_all]. unfold verify_record. fold (is_status_key (chk_key r)).
  csimpl. unfold verdict at 1. destruct (is_bound_to_key _ _ _); simpl; by rewrite IH.
Qed.

(** C37: what the signature cache changes. Over any sequence of verifications at
    non-decreasing instants, each with what the issuer key file holds when it is
    made, started with an empty cache, whatever the cache evicts, and provided
    SHA-256 does not collide on the bytes hashed: a DID record gets the verdict
    it gets with the cache disabled; the Status List gets the verdict of the
    issuer key read by this or an earlier verification of the same record, less
    than an hour before, so the one without cache unless the file changed within
    that hour. The byte of the trust domain keeps a self-signed verdict from
    answering an issuer-signed request for the same record. *)
Theorem cache_transparent (c0 : C) (rs : list Check) (i : nat) (r : Check)
    (Hempty : ∀ now k, cache_get now c0 k = None)
    (Htimes : StronglySorted (λ a b, chk_now a ≤ chk_now b)%Z rs)
    (Hcf : ∀ a b, a ∈ preimage <$> rs → b ∈ preimage <$> rs → sha256 a = sha256 b → a = b)
    (Hr : rs !! i = Some r) :
  verify_all None rs !! i = Some (verdict (chk_file r) r) ∧
  (chk_key r ≠ digest STATUS_LIST_KEY → verify_all (Some c0) rs !! i = verify_all None rs !! i) ∧
  (∃ r', r' ∈ take (S i) rs ∧ chk_value r' = chk_value r ∧ (chk_now r < chk_now r' + CACHE_TTL)%Z ∧
     (chk_key r = digest STATUS_LIST_KEY → chk_key r' = digest STATUS_LIST_KEY) ∧
     verify_all (Some c0) rs !! i = Some (verdict (chk_file r') r)).
Proof using All.
  assert (verify_all None rs !! i = Some (verdict (chk_file r) r)) as Hnone
    by (by rewrite verify_all_uncached, list_lookup_fmap, Hr).
  assert (Forall (λ q, default 0 (chk_now <$> head rs) ≤ chk_now q)%Z rs) as Hle.
  { destruct rs as [|q rs]; [done|]. apply StronglySorted_inv in Htimes as [_ Ht]. by constructor. }
  destruct (verify_all_cached c0 [] rs (default 0 (chk_now <$> head rs))%Z) with (i := i) (r := r)
    as (b & r' & Hb & Hr' & Hpre & Ht & Hans); [|done|exact Hle|done|done|].
  { intros now' k b _ Hk. by rewrite Hempty in Hk. }
  apply preimage_inj in Hpre as [Es Ev]. unfold is_status_key in Es. split; [done|]. split.
  - intros Hk. rewrite Hb, Hnone, Hans. f_equal. apply verdict_self_signed. by apply bool_decide_eq_false.
  - exists r'. split; [done|]. split; [done|]. split; [done|]. split; [|by rewrite Hb, Hans].
    intros Hk. rewrite (bool_decide_eq_true_2 _ Hk) in Es. by apply bool_decide_eq_true in Es.
Qed.

End cache.

(** ** A concrete history *)

(** A cache of two entries that forgets the others, and libraries for which
    everything computes: an Ed25519 signature of a document is valid when it
    starts with the first byte of the key; a document is its own DID and key. *)
Module CacheExample.

#[local] Instance ex_sha1 : Sha1 := λ l, ident_ends (default x00 (head l)) x00.
#[local] Instance ex_sha256 : Sha256 := λ l, l.

#[local] Instance ex_moka : MokaCache (list (Z * bytes * bool)) := {|
  cache_get now c k := snd <$> List.find (λ e, bool_decide (e.1.2 = k) && (now <? e.1.1 + CACHE_TTL)%Z) c;
  cache_insert now c k b := take 2 ((now, k, b) :: c)
|}.

Lemma ex_moka_ttl : MokaCacheTtl (list (Z * bytes * bool)).
Proof.
  intros now now' c k b k' b' _. simpl. case_bool_decide as E; simpl; [destruct (now' <? now + CACHE_TTL)%Z eqn:Et|].
  - intros [= <-]. bool_facts. left. done.
  - right. destruct c as [|e c]; [done|]. simpl in *. by case_match.
  - right. destruct c as [|e c]; [done|]. simpl in *. by case_match.
Qed.

#[local] Instance ex_libraries : SignatureLibraries := {|
  ed25519_key _ := true; ed25519_verify k m s := bool_decide (head s = head k);
  ed25519_sign _ m := m;
  dilithium_key _ _ := false; dilithium_signature _ _ := false;
  dilithium_verify _ _ _ _ := false; dilithium_secret _ _ := false;
  dilithium_sign _ _ m _ := m;
  RsaKey := unit; rsa_from_der _ := None; rsa_from_pem _ := None; rsa_signature _ := false;
  rsa_verify _ _ _ := false; RsaSecret := unit; rsa_secret_from_der _ := None;
  rsa_secret_from_pem _ := None; rsa_sign _ _ m := m
|}.
#[local] Instance ex_json : Json := {|
  Value := bytes; json_from_slice := Some; json_field v _ := v; json_item v _ := v; json_as_str := Some
|}.
#[local] Instance ex_b64 : Base64 := λ k, Some (take 32 k).
#[local] Instance ex_uuid : UuidSyntax := λ _, true.

(** A record of 32 bytes of document, signed with the byte [by]. *)
Definition signed_with (by_ : byte) : bytes :=
  str_bytes "Ed25519" ++ replicate 5 x00 ++ replicate 64 by_ ++ str_bytes "did:iiot:" ++ replicate 32 x64.
Definition did_of : ident := digest (replicate 32 x64).
Definition old_key : option bytes := Some (replicate 32 x01).
Definition new_key : option bytes := Some (replicate 32 x02).

(** A DID record, the Status List, again after the issuer's key has changed, and
    again after an hour. *)
Definition ex_checks : list Check :=
  [mkCheck 0 old_key did_of (signed_with x64); mkCheck 1 old_key (digest STATUS_LIST_KEY) (signed_with x01);
   mkCheck 2 new_key (digest STATUS_LIST_KEY) (signed_with x01); mkCheck 3 new_key did_of (signed_with x64);
   mkCheck (CACHE_TTL + 1) new_key (digest STATUS_LIST_KEY) (signed_with x01)].

(** The changed key is not used for the record that was verified before. *)
Example ex_verdicts :
  verify_all (Some []) ex_checks = [true; true; true; true; false] ∧
  verify_all (C := list (Z * bytes * bool)) None ex_checks = [true; true; false; true; false].
Proof. split; vm_compute; reflexivity. Qed.

Lemma cache_transparent_witness :
  verify_all (Some []) ex_checks !! 3 = verify_all (C := list (Z * bytes * bool)) None ex_checks !! 3.
Proof.
  destruct (cache_transparent (H6 := ex_moka_ttl) [] ex_checks 3 (mkCheck 3 new_key did_of (signed_with x64)))
    as (_ & Hd & _).
  - reflexivity.
  - repeat constructor; simpl; unfold CACHE_TTL; lia.
  - intros a b _ _ E. exact E.
  - reflexivity.
  - apply Hd. intros E. apply (f_equal ident_bytes) in E. vm_compute in E. congruence.
Defined.

End CacheExample.
