(* ===== verification/KeyManager.v ===== *)
(** * Key managers (src/src/crypto/key_manager.rs)

    A key manager generates key pairs and keeps them in the files
    [<keys_dir>/<name>.public] and [<keys_dir>/<name>.private]. The trait is the
    class [KeyManager], with the managers of Dilithium, Kyber and Ed25519 as its
    instances. Key generation and the file system are parameters, a method that
    touches files passes the file system along. *)

From stdpp Require Import pretty.
From S2P Require Import Prelude Utils Crypto AuthHandler.

(** ** Libraries *)

(** [URL_SAFE_NO_PAD.encode]: decoding inverts it, it writes no padding, and its
    result is a Rust [String]. *)
Class Base64Encode := b64_encode : bytes → bytes.
Class Base64Laws `{Base64, Base64Encode} := {
  b64_decode_encode key : b64_decode (b64_encode key) = Some key;
  b64_no_pad key : x3d ∉ b64_encode key;
  b64_text key : utf8_valid (b64_encode key) = true
}.

(** The [keypair] functions of pqcrypto (indexed by level), and the verifying
    key and the signing key of an Ed25519 seed; the first argument is the
    randomness drawn. Keys come as (public, private). *)
Class KeyGeneration := {
  dilithium_keypair : nat → bytes → bytes * bytes;
  kyber_keypair : nat → bytes → bytes * bytes;
  ed25519_from_seed : bytes → bytes * bytes
}.

(** [public_key_bytes] and [secret_key_bytes] of pqcrypto-dilithium, by level. *)
Definition pqcrypto_key_bytes (level : nat) : nat * nat :=
  match level with 2 => (1312, 2560) | 3 => (1952, 4032) | _ => (2592, 4896) end.

(** The sizes of the keys of each level, and that a signature verifies under the
    key it was made for. *)
Class KeyGenerationLaws `{SignatureLibraries, KeyGeneration} := {
  dilithium_sizes level rng :
    level ∈ [2; 3; 5] →
    length (dilithium_keypair level rng).1 = (pqcrypto_key_bytes level).1 ∧
    length (dilithium_keypair level rng).2 = (pqcrypto_key_bytes level).2;
  dilithium_parses level rng :
    level ∈ [2; 3; 5] →
    dilithium_key level (dilithium_keypair level rng).1 = true ∧
    dilithium_secret level (dilithium_keypair level rng).2 = true;
  dilithium_signs level rng rng' msg :
    level ∈ [2; 3; 5] →
    let sig := dilithium_sign level rng' msg (dilithium_keypair level rng).2 in
    dilithium_signature level sig = true ∧
    dilithium_verify level sig msg (dilithium_keypair level rng).1 = true;
  ed25519_sizes seed :
    length seed = 32 →
    length (ed25519_from_seed seed).1 = 32 ∧ length (ed25519_from_seed seed).2 = 32 ∧
    ed25519_key (ed25519_from_seed seed).1 = true;
  ed25519_signs seed msg :
    length seed = 32 →
    let sig := ed25519_sign (ed25519_from_seed seed).2 msg in
    length sig = 64 ∧ ed25519_verify (ed25519_from_seed seed).1 msg sig = true
}.

(** The level the program infers from the length of a key is that of the key. *)
Lemma dilithium_levels `{KeyGenerationLaws} level rng :
  level ∈ [2; 3; 5] →
  dilithium_level_from_pubkey_len (length (dilithium_keypair level rng).1) = Some level ∧
  dilithium_level_from_privkey_len (length (dilithium_keypair level rng).2) = Some level.
Proof.
  intros Hl. destruct (dilithium_sizes level rng Hl) as [-> ->]. rewrite !elem_of_cons in Hl.
  destruct Hl as [-> | [-> | [-> | Hl]]]; [done..|by apply elem_of_nil in Hl].
Qed.

(** ** Files *)

(** [PathBuf::join] on a Unix system, on the bytes of the paths. *)
Definition join (dir path : bytes) : bytes :=
  if bool_decide (head path = Some x2f) then path
  else if bool_decide (dir = []) || bool_decide (last dir = Some x2f) then dir ++ path
  else dir ++ [x2f] ++ path.

(** The name of a file of a directory: no separator, no null. *)
Definition plain (name : bytes) : Prop :=
  name ∉ [[]; str_bytes "."; str_bytes ".."] ∧ Forall (λ b, b ≠ x2f ∧ b ≠ x00) name.

#[global] Instance plain_dec name : Decision (plain name).
Proof. apply _. Defined.

(** [std::fs]: [fs_write] says whether the write succeeded (a failed write may
    leave anything in its file). *)
Class FileSystem (Fs : Type) := {
  fs_create_dir_all : bytes → Fs → Fs;
  fs_write : bytes → bytes → Fs → Fs * bool;
  fs_read : bytes → Fs → option bytes
}.

(** A file holds what was written to it, the files of a directory are
    independent, and creating a directory loses no file. *)
Class FileSystemLaws (Fs : Type) `{FileSystem Fs} := {
  read_written p d s s' : fs_write p d s = (s', true) → fs_read p s' = Some d;
  other_files dir a b d s :
    plain a → plain b → a ≠ b →
    fs_read (join dir b) (fs_write (join dir a) d s).1 = fs_read (join dir b) s;
  directory_created dir p d s :
    fs_read p s = Some d → fs_read p (fs_create_dir_all dir s) = Some d
}.

(** ** Errors *)

(** [KeyManagerError], without the payload of I/O errors. *)
Inductive KeyManagerError :=
  | NotFound (name : bytes)
  | AlreadyExists (name : bytes)
  | InvalidSecurityLevel (level : Z)
  | KCrypto (e : VerifierError)
  | KIo.

(** [b64encode_key] and [b64decode_key]. *)
Definition b64encode_key `{Base64Encode} (key : bytes) : bytes := b64_encode key.
Definition b64decode_key `{Base64} (s : bytes) : option bytes := b64_decode s.

Section files.
Context {Fs : Type} `{FileSystem Fs}.

Definition write_key (path data : bytes) (fs : Fs) : Fs * Result KeyManagerError unit :=
  let '(fs', ok) := fs_write path data fs in (fs', if ok then Ok () else Err KIo).

Definition read_key (path key_name : bytes) (fs : Fs) : Result KeyManagerError bytes :=
  ok_or (fs_read path fs) (NotFound key_name).

End files.

(** [format!("{}.public", key_name)] and [format!("{}.private", key_name)]. *)
Definition public_file (key_name : bytes) : bytes := key_name ++ str_bytes ".public".
Definition private_file (key_name : bytes) : bytes := key_name ++ str_bytes ".private".

(** ** The trait [KeyManager] *)

Class KeyManager (Fs K : Type) := {
  generate_keypair : K → bytes → Result KeyManagerError (bytes * bytes);
  store_public_key : K → bytes → bytes → Fs → Fs * Result KeyManagerError unit;
  store_private_key : K → bytes → bytes → Fs → Fs * Result KeyManagerError unit;
  get_public_key : K → bytes → Fs → Result KeyManagerError bytes;
  get_private_key : K → bytes → Fs → Result KeyManagerError bytes;
  get_jose_format : K → bytes → gmap bytes bytes
}.

(** ** The managers *)

Record DilithiumKeyManager := mkDilithium { d_keys_dir : bytes; d_level : Z }.
Record KyberKeyManager := mkKyber { k_keys_dir : bytes; k_level : Z }.
Record Ed25519KeyManager := mkEd25519 { e_keys_dir : bytes }.

(** [format!("<name>{}", level)]. *)
Definition with_level (name : string) (level : Z) : bytes := str_bytes (name +:+ pretty level).

Section managers.
Context {Fs : Type} `{FileSystem Fs, SignatureLibraries, KeyGeneration, Base64Encode}.

(** [DilithiumKeyManager::new], [KyberKeyManager::new] and [Ed25519KeyManager::new]. *)
Definition dilithium_new (keys_dir : bytes) (level : Z) (fs : Fs) : Fs * DilithiumKeyManager :=
  (fs_create_dir_all keys_dir fs, mkDilithium keys_dir level).
Definition kyber_new (keys_dir : bytes) (level : Z) (fs : Fs) : Fs * KyberKeyManager :=
  (fs_create_dir_all keys_dir fs, mkKyber keys_dir level).
Definition ed25519_new (keys_dir : bytes) (fs : Fs) : Fs * Ed25519KeyManager :=
  (fs_create_dir_all keys_dir fs, mkEd25519 keys_dir).

(** [impl KeyManager for DilithiumKeyManager]. *)
#[global] Instance dilithium_key_manager : KeyManager Fs DilithiumKeyManager := {|
  generate_keypair km rng :=
    if (d_level km =? 2)%Z then Ok (dilithium_keypair 2 rng)
    else if (d_level km =? 3)%Z then Ok (dilithium_keypair 3 rng)
    else if (d_level km =? 5)%Z then Ok (dilithium_keypair 5 rng)
    else Err (InvalidSecurityLevel (d_level km));
  store_public_key km key_name key := write_key (join (d_keys_dir km) (public_file key_name)) key;
  store_private_key km key_name key := write_key (join (d_keys_dir km) (private_file key_name)) key;
  get_public_key km key_name := read_key (join (d_keys_dir km) (public_file key_name)) key_name;
  get_private_key km key_name := read_key (join (d_keys_dir km) (private_file key_name)) key_name;
  get_jose_format km key := list_to_map
    [(str_bytes "kty", str_bytes "MLWE"); (str_bytes "alg", with_level "CRYDI" (d_level km));
     (str_bytes "x", b64encode_key key)]
|}.

(** [impl KeyManager for KyberKeyManager]. *)
#[global] Instance kyber_key_manager : KeyManager Fs KyberKeyManager := {|
  generate_keypair km rng :=
    if (k_level km =? 512)%Z then Ok (kyber_keypair 512 rng)
    else if (k_level km =? 768)%Z then Ok (kyber_keypair 768 rng)
    else if (k_level km =? 1024)%Z then Ok (kyber_keypair 1024 rng)
    else Err (InvalidSecurityLevel (k_level km));
  store_public_key km key_name key := write_key (join (k_keys_dir km) (public_file key_name)) key;
  store_private_key km key_name key := write_key (join (k_keys_dir km) (private_file key_name)) key;
  get_public_key km key_name := read_key (join (k_keys_dir km) (public_file key_name)) key_name;
  get_private_key km key_name := read_key (join (k_keys_dir km) (private_file key_name)) key_name;
  get_jose_format km key := list_to_map
    [(str_bytes "kty", str_bytes "KEM"); (str_bytes "alg", with_level "KYBER" (k_level km));
     (str_bytes "x", b64encode_key key)]
|}.

(** [impl KeyManager for Ed25519KeyManager]; the seed is the 32 bytes of
    randomness that fill the array. *)
#[global] Instance ed25519_key_manager : KeyManager Fs Ed25519KeyManager := {|
  generate_keypair km rng := Ok (ed25519_from_seed (take 32 rng));
  store_public_key km key_name key := write_key (join (e_keys_dir km) (public_file key_name)) key;
  store_private_key km key_name key := write_key (join (e_keys_dir km) (private_file key_name)) key;
  get_public_key km key_name := read_key (join (e_keys_dir km) (public_file key_name)) key_name;
  get_private_key km key_name := read_key (join (e_keys_dir km) (private_file key_name)) key_name;
  get_jose_format km key := list_to_map
    [(str_bytes "kty", str_bytes "OKP"); (str_bytes "crv", str_bytes "Ed25519");
     (str_bytes "x", b64encode_key key)]
|}.

(** [DilithiumKeyManager::sign] and [DilithiumKeyManager::verify_signature]. *)
Definition dilithium_sign_with (km : DilithiumKeyManager) (rng private_key message : bytes)
    : Result KeyManagerError bytes := map_err KCrypto (dilithium_signer rng private_key message).
Definition dilithium_verify_with (km : DilithiumKeyManager) (public_key message signature : bytes)
    : Result KeyManagerError bool := map_err KCrypto (dilithium_verifier public_key signature message).

(** [Ed25519KeyManager::sign] and [Ed25519KeyManager::verify_signature]. *)
Definition ed25519_sign_with (km : Ed25519KeyManager) (private_key message : bytes)
    : Result KeyManagerError bytes := map_err KCrypto (ed25519_signer private_key message).
Definition ed25519_verify_with (km : Ed25519KeyManager) (public_key message signature : bytes)
    : Result KeyManagerError bool := map_err KCrypto (ed25519_verifier public_key signature message).

End managers.

(** ** Several managers on one directory *)

(** A manager of any kind. *)
Inductive AnyManager :=
  | MDilithium (km : DilithiumKeyManager)
  | MKyber (km : KyberKeyManager)
  | MEd25519 (km : Ed25519KeyManager).

Definition keys_dir (m : AnyManager) : bytes :=
  match m with
  | MDilithium km => d_keys_dir km
  | MKyber km => k_keys_dir km
  | MEd25519 km => e_keys_dir km
  end.

(** What is done to the files of a directory: a key of a kind is stored under a
    name, or a manager is created on a directory. *)
Inductive Kind := Public | Private.

#[global] Instance Kind_eq_dec : EqDecision Kind.
Proof. solve_decision. Defined.

Inductive KeyOp :=
  | Store (m : AnyManager) (kind : Kind) (name key : bytes)
  | Create (dir : bytes).

Definition key_file (kind : Kind) (name : bytes) : bytes :=
  match kind with Public => public_file name | Private => private_file name end.

Section directory.
Context {Fs : Type} `{FileSystem Fs, SignatureLibraries, KeyGeneration, Base64Encode}.

Definition store (m : AnyManager) (kind : Kind) (name key : bytes) (fs : Fs)
    : Fs * Result KeyManagerError unit :=
  match m, kind with
  | MDilithium km, Public => store_public_key km name key fs
  | MDilithium km, Private => store_private_key km name key fs
  | MKyber km, Public => store_public_key km name key fs
  | MKyber km, Private => store_private_key km name key fs
  | MEd25519 km, Public => store_public_key km name key fs
  | MEd25519 km, Private => store_private_key km name key fs
  end.

Definition get (m : AnyManager) (kind : Kind) (name : bytes) (fs : Fs) : Result KeyManagerError bytes :=
  match m, kind with
  | MDilithium km, Public => get_public_key km name fs
  | MDilithium km, Private => get_private_key km name fs
  | MKyber km, Public => get_public_key km name fs
  | MKyber km, Private => get_private_key km name fs
  | MEd25519 km, Public => get_public_key km name fs
  | MEd25519 km, Private => get_private_key km name fs
  end.

Definition run_op (fs : Fs) (o : KeyOp) : Fs :=
  match o with
  | Store m kind name key => (store m kind name key fs).1
  | Create dir => fs_create_dir_all dir fs
  end.

(** An operation that leaves the key of a kind and a name in [dir] alone: a
    store of another key of that directory, or the creation of a manager. *)
Definition spares (dir : bytes) (kind : Kind) (name : bytes) (o : KeyOp) : Prop :=
  match o with
  | Store m kind' name' _ => keys_dir m = dir ∧ plain name' ∧ (kind', name') ≠ (kind, name)
  | Create _ => True
  end.

(** *** Facts *)

Lemma store_eq m kind name key fs :
  store m kind name key fs = write_key (join (keys_dir m) (key_file kind name)) key fs.
Proof. by destruct m, kind. Qed.

Lemma get_eq m kind name fs :
  get m kind name fs = read_key (join (keys_dir m) (key_file kind name)) name fs.
Proof. by destruct m, kind. Qed.

Lemma write_key_fs path data fs : (write_key path data fs).1 = (fs_write path data fs).1.
Proof. unfold write_key. by destruct (fs_write path data fs). Qed.

End directory.

(** Different keys have different files. *)
Lemma key_file_inj kind kind' name name' :
  key_file kind name = key_file kind' name' → (kind, name) = (kind', name').
Proof.
  assert (∀ a b, public_file a ≠ private_file b) as Hd.
  { intros a b E. apply (f_equal last) in E. unfold public_file, private_file in E.
    rewrite !last_app in E. discriminate. }
  destruct kind, kind'; simpl; intros E; try (by apply Hd in E); try (by symmetry in E; apply Hd in E).
  - by apply app_inv_tail in E as ->.
  - by apply app_inv_tail in E as ->.
Qed.

Lemma key_file_plain kind name : plain name → plain (key_file kind name).
Proof.
  intros [_ Hf]. split.
  - intros Hin. assert (length (key_file kind name) ≤ 2) as Hl.
    { rewrite !elem_of_cons in Hin. destruct Hin as [-> | [-> | [-> | Hin]]]; [simpl; lia..|].
      by apply elem_of_nil in Hin. }
    destruct kind; revert Hl; cbn [key_file]; unfold public_file, private_file;
      rewrite length_app; simpl; lia.
  - destruct kind; cbn [key_file]; unfold public_file, private_file;
      apply Forall_app; (split; [done|]); vm_compute; repeat constructor; discriminate.
Qed.

Section laws.
Context {Fs : Type} `{FileSystemLaws Fs, SignatureLibraries, KeyGeneration, Base64Encode}.

(** A stored key is read back, by any manager of the directory, whatever is
    done to the other keys. *)
Lemma store_get m m' kind name key fs fs' ops :
  plain name → keys_dir m' = keys_dir m → store m kind name key fs = (fs', Ok ()) →
  Forall (spares (keys_dir m) kind name) ops →
  get m' kind name (foldl run_op fs' ops) = Ok key.
Proof.
  intros Hp Hm Hs Hops. rewrite get_eq, Hm. unfold read_key. rewrite store_eq in Hs. unfold write_key in Hs.
  destruct (fs_write _ key fs) as [fs1 [|]] eqn:Hw; simplify_eq/=. apply read_written in Hw.
  enough (fs_read (join (keys_dir m) (key_file kind name)) (foldl run_op fs' ops) = Some key) as -> by done.
  revert fs' Hw. induction Hops as [|o ops Ho _ IH]; intros fs1 Hr; [done|]. simpl. apply IH.
  destruct o as [m2 kind2 name2 key2|dir]; simpl in *; [|by apply directory_created].
  destruct Ho as (Hd & Hp2 & Hne). rewrite store_eq, write_key_fs, Hd, other_files; [done|..].
  - by apply key_file_plain.
  - by apply key_file_plain.
  - by intros E%key_file_inj.
Qed.

End laws.

Section sign.
Context `{KeyGenerationLaws}.

(** A generated pair signs and verifies: the level inferred from the length of
    a key is the one it was generated for. *)
Lemma dilithium_pair_signs km level rng rng' msg :
  level ∈ [2; 3; 5] →
  ∃ sig, dilithium_sign_with km rng' (dilithium_keypair level rng).2 msg = Ok sig ∧
    dilithium_verify_with km (dilithium_keypair level rng).1 msg sig = Ok true.
Proof.
  intros Hl. destruct (dilithium_levels level rng Hl) as [Hpk Hsk].
  destruct (dilithium_parses level rng Hl) as [Kpk Ksk].
  destruct (dilithium_signs level rng rng' msg Hl) as [Hsig Hv].
  exists (dilithium_sign level rng' msg (dilithium_keypair level rng).2).
  unfold dilithium_sign_with, dilithium_signer, dilithium_verify_with, dilithium_verifier, sign_d, verify_d.
  rewrite Hsk, Hpk. simpl. by rewrite Ksk, Kpk, Hsig, Hv.
Qed.

Lemma ed25519_pair_signs km rng msg :
  32 ≤ length rng →
  let pair := ed25519_from_seed (take 32 rng) in
  ∃ sig, ed25519_sign_with km pair.2 msg = Ok sig ∧ ed25519_verify_with km pair.1 msg sig = Ok true.
Proof.
  intros Hl pair. assert (length (take 32 rng) = 32) as Hs by (rewrite length_take; lia).
  destruct (ed25519_sizes _ Hs) as (Hpk & Hsk & Hkey). destruct (ed25519_signs _ msg Hs) as [Hsig Hv].
  exists (ed25519_sign pair.2 msg).
  unfold ed25519_sign_with, ed25519_signer, ed25519_verify_with, ed25519_verifier, pair.
  by rewrite Hsk, Hpk, Hsig, Hkey, Hv.
Qed.

End sign.

(** [generate_keypair] of a manager of any kind. *)
Definition generate {Fs} `{FileSystem Fs, SignatureLibraries, KeyGeneration, Base64Encode}
    (m : AnyManager) (rng : bytes) : Result KeyManagerError (bytes * bytes) :=
  match m with
  | MDilithium km => generate_keypair (Fs := Fs) km rng
  | MKyber km => generate_keypair (Fs := Fs) km rng
  | MEd25519 km => generate_keypair (Fs := Fs) km rng
  end.

(** Key generation fails exactly for a level the scheme does not have. *)
Lemma generate_fails {Fs} `{FileSystem Fs, SignatureLibraries, KeyGeneration, Base64Encode}
    (m : AnyManager) (rng : bytes) (e : KeyManagerError) :
  generate (Fs := Fs) m rng = Err e ↔
  match m with
  | MDilithium km => d_level km ∉ [2; 3; 5]%Z ∧ e = InvalidSecurityLevel (d_level km)
  | MKyber km => k_level km ∉ [512; 768; 1024]%Z ∧ e = InvalidSecurityLevel (k_level km)
  | MEd25519 _ => False
  end.
Proof.
  destruct m as [[dir l]|[dir l]|km]; simpl; [..|naive_solver];
    repeat case_match; rewrite ?Z.eqb_eq, ?Z.eqb_neq in *; subst; set_solver.
Qed.

(** The pair a signing manager generates is the one of its level. *)
Lemma generate_dilithium {Fs} `{FileSystem Fs, SignatureLibraries, KeyGeneration, Base64Encode} km rng pair :
  generate (Fs := Fs) (MDilithium km) rng = Ok pair →
  ∃ level, level ∈ [2; 3; 5] ∧ pair = dilithium_keypair level rng.
Proof.
  simpl. intros Hg. repeat case_match; simplify_eq; eexists; (split; [|done]); set_solver.
Qed.

(** ** Theorem *)

(** C31: a stored key pair works. A pair a manager generates and stores under a
    name (both writes succeeding) is what it reads back, whatever keys any
    managers of the directory store under other names afterwards and whatever
    managers are created; and what the private key read signs verifies under the
    public key read, at every Dilithium level and for Ed25519. *)
Theorem stored_pairs_sign {Fs : Type} `{FileSystemLaws Fs, KeyGenerationLaws, Base64Encode}
    (m : AnyManager) (name rng rng' msg pk sk : bytes) (fs fs1 fs2 : Fs) (ops : list KeyOp)
    (Hname : plain name) (Hrng : 32 ≤ length rng)
    (Hgen : generate (Fs := Fs) m rng = Ok (pk, sk))
    (Hpub : store m Public name pk fs = (fs1, Ok ())) (Hpriv : store m Private name sk fs1 = (fs2, Ok ()))
    (Hops : Forall (λ o, spares (keys_dir m) Public name o ∧ spares (keys_dir m) Private name o) ops) :
  ∃ pk' sk', get m Public name (foldl run_op fs2 ops) = Ok pk' ∧
    get m Private name (foldl run_op fs2 ops) = Ok sk' ∧ pk' = pk ∧ sk' = sk ∧
    match m with
    | MDilithium km => ∃ sig, dilithium_sign_with km rng' sk' msg = Ok sig ∧
        dilithium_verify_with km pk' msg sig = Ok true
    | MEd25519 km => ∃ sig, ed25519_sign_with km sk' msg = Ok sig ∧
        ed25519_verify_with km pk' msg sig = Ok true
    | MKyber _ => True
    end.
Proof.
  apply Forall_and in Hops as [Ho1 Ho2]. exists pk, sk. split_and!; [..|done|done|].
  - pose proof (store_get m m Public name pk fs fs1 (Store m Private name sk :: ops) Hname eq_refl Hpub) as Hg.
    simpl in Hg. rewrite Hpriv in Hg. apply Hg. constructor; [|done]. done.
  - by apply (store_get m m Private name sk fs1 fs2 ops).
  - destruct m as [km| |km]; [|done|].
    + apply generate_dilithium in Hgen as (level & Hl & E).
      destruct (dilithium_pair_signs km level rng rng' msg Hl) as (sig & Hs & Hv).
      rewrite <- E in Hs, Hv. by exists sig.
    + simpl in Hgen. injection Hgen as E. pose proof (ed25519_pair_signs km rng msg Hrng) as Hp.
      simpl in Hp. by rewrite E in Hp.
Qed.

(** ** A directory of keys *)

Module KeyExample.

(** Files by path; every write succeeds. *)
#[local] Instance ex_fs : FileSystem (gmap bytes bytes) := {|
  fs_create_dir_all _ s := s;
  fs_write p d s := (<[p := d]> s, true);
  fs_read p s := s !! p
|}.

Lemma join_inj dir a b : plain a → plain b → join dir a = join dir b → a = b.
Proof.
  assert (∀ a, plain a → bool_decide (head a = Some x2f) = false) as Hh.
  { intros c [_ Hc]. apply bool_decide_eq_false. destruct c; [done|]. inversion Hc. naive_solver. }
  intros Ha Hb. unfold join. rewrite !Hh by done.
  destruct (_ || _); intros E; by repeat apply app_inv_head in E.
Qed.

#[local] Instance ex_fs_laws : FileSystemLaws (gmap bytes bytes).
Proof.
  split; simpl; [|intros dir a b d s Ha Hb Hne|done].
  - intros. simplify_eq. by rewrite lookup_insert_eq.
  - rewrite lookup_insert_ne; [done|]. intros E. by apply Hne, (join_inj dir).
Defined.

(** A signature is a byte of the key and the message, cut or padded to the size of
    signatures. *)
Definition ex_pad (n : nat) (m : bytes) : bytes := take n (m ++ replicate n x00).

Lemma length_ex_pad n m : length (ex_pad n m) = n.
Proof. unfold ex_pad. rewrite length_take, length_app, length_replicate. lia. Qed.

(** The byte of the draw that both keys of a Dilithium pair hold. *)
Definition ex_mark (k : bytes) : bytes := take 1 (drop 1 k).

Lemma ex_mark_pad n a rng : 2 ≤ n → ex_mark (ex_pad n (a :: rng)) = take 1 (rng ++ [x00]).
Proof.
  intros Hn. destruct n as [|[|n]]; [lia..|]. unfold ex_mark, ex_pad. by destruct rng.
Qed.

#[local] Instance ex_signatures : SignatureLibraries := {|
  ed25519_key _ := true; ed25519_verify _ m s := bool_decide (ex_pad 64 m = s);
  ed25519_sign _ m := ex_pad 64 m;
  dilithium_key _ _ := true; dilithium_signature _ _ := true;
  dilithium_verify l s m k := bool_decide (s = ex_pad 2420 (ex_mark k ++ m)); dilithium_secret _ _ := true;
  dilithium_sign l _ m k := ex_pad 2420 (ex_mark k ++ m);
  RsaKey := unit; rsa_from_der _ := None; rsa_from_pem _ := None; rsa_signature _ := false;
  rsa_verify _ _ _ := false; RsaSecret := unit; rsa_secret_from_der _ := None;
  rsa_secret_from_pem _ := None; rsa_sign _ _ _ := []
|}.

#[local] Instance ex_generation : KeyGeneration := {|
  dilithium_keypair level rng := (ex_pad (pqcrypto_key_bytes level).1 (x01 :: rng), ex_pad (pqcrypto_key_bytes level).2 (x02 :: rng));
  kyber_keypair level rng := ([x03], [x04]);
  ed25519_from_seed seed := (seed, seed)
|}.

#[local] Instance ex_generation_laws : KeyGenerationLaws.
Proof.
  assert (∀ level, 2 ≤ (pqcrypto_key_bytes level).1 ∧ 2 ≤ (pqcrypto_key_bytes level).2) as Hs
    by (intros [|[|[|[|level]]]]; cbn [pqcrypto_key_bytes fst snd]; lia).
  split; cbn [dilithium_keypair ex_generation fst snd].
  3:{ intros level rng rng' msg Hl. split; [done|]. apply bool_decide_eq_true. cbn.
      by rewrite !ex_mark_pad by apply Hs. }
  - intros level rng Hl. by rewrite !length_ex_pad.
  - done.
  - done.
  - intros seed msg _. cbn. rewrite bool_decide_eq_true. split; [|done]. apply length_ex_pad.
Defined.

#[local] Instance ex_b64 : Base64Encode := λ k, k.

Definition ex_manager : AnyManager := MDilithium (mkDilithium (str_bytes "keys") 3).
Definition ex_pair : bytes * bytes := dilithium_keypair 3 [].
Definition alice : bytes := str_bytes "alice".
Definition ex_files : gmap bytes bytes :=
  (store ex_manager Private alice ex_pair.2 (store ex_manager Public alice ex_pair.1 ∅).1).1.
Definition ex_ops : list KeyOp :=
  [Create (str_bytes "keys"); Store (MKyber (mkKyber (str_bytes "keys") 512)) Public (str_bytes "bob") [x03]].

Lemma stored_pairs_sign_witness :
  ∃ pk' sk', get ex_manager Public alice (foldl run_op ex_files ex_ops) = Ok pk' ∧
    get ex_manager Private alice (foldl run_op ex_files ex_ops) = Ok sk' ∧ pk' = ex_pair.1 ∧ sk' = ex_pair.2 ∧
    ∃ sig, dilithium_sign_with (mkDilithium (str_bytes "keys") 3) [] sk' [x2a] = Ok sig ∧
      dilithium_verify_with (mkDilithium (str_bytes "keys") 3) pk' [x2a] sig = Ok true.
Proof.
  apply (stored_pairs_sign ex_manager alice (replicate 32 x00) [] [x2a] ex_pair.1 ex_pair.2 ∅
    (store ex_manager Public alice ex_pair.1 ∅).1 ex_files ex_ops).
  - apply (bool_decide_unpack _). vm_compute. exact I.
  - rewrite length_replicate. lia.
  - reflexivity.
  - reflexivity.
  - reflexivity.
  - repeat constructor; simpl; try done; apply (bool_decide_unpack _); vm_compute; exact I.
Defined.

End KeyExample.
