(* ===== verification/DidRecord.v ===== *)
(** * DID documents and the records that carry them
    (src/examples/publish_did.rs, src/testbed/did.rs)

    How the programs of the repository build what they publish: the document of
    a DID with its keys, its canonical JSON text, the record that signs it, and
    the authorization of a rotation. [records_are_accepted] ties them to the rule
    of AuthHandler: nodes accept what is built here. *)

From S2P Require Import Prelude Utils Messages Crypto AuthHandler AuthProps KeyManager.

(** ** JSON values *)

#[local] Set Warnings "-register-all".

(** [serde_json::Value]; a number is its text, an object the list of its
    entries in iteration order. *)
Inductive JValue :=
  | JNull
  | JBool (b : bool)
  | JNumber (text : bytes)
  | JString (s : bytes)
  | JArray (l : list JValue)
  | JObject (m : list (bytes * JValue)).

Section JValue_ind.
Context (P : JValue → Prop).
Context (Hnull : P JNull) (Hbool : ∀ b, P (JBool b)) (Hnumber : ∀ t, P (JNumber t)) (Hstring : ∀ s, P (JString s)).
Context (Harray : ∀ l, Forall P l → P (JArray l)) (Hobject : ∀ m, Forall (λ e, P e.2) m → P (JObject m)).

Fixpoint JValue_induction (v : JValue) : P v :=
  match v with
  | JNull => Hnull
  | JBool b => Hbool b
  | JNumber t => Hnumber t
  | JString s => Hstring s
  | JArray l => Harray l ((fix go (l : list JValue) : Forall P l :=
      match l with [] => Forall_nil_2 _ | v :: l' => Forall_cons_2 _ _ _ (JValue_induction v) (go l') end) l)
  | JObject m => Hobject m ((fix go (m : list (bytes * JValue)) : Forall (λ e, P e.2) m :=
      match m with
      | [] => Forall_nil_2 _
      | (k, v) :: m' => Forall_cons_2 _ (k, v) _ (JValue_induction v) (go m')
      end) m)
  end.

End JValue_ind.

(** The entry of a key. *)
Definition assoc {A} (k : bytes) (m : list (bytes * A)) : option A :=
  snd <$> List.find (λ e, bool_decide (e.1 = k)) m.

(** The values the library builds and reads back: strings are UTF-8, the keys of
    an object are distinct, the nesting is less deep than the limit of the
    parser. Numbers are left out: they may be printed in another way than they
    were written. *)
Fixpoint json_ok (depth : nat) (v : JValue) : bool :=
  match v with
  | JNull | JBool _ => true
  | JNumber _ => false
  | JString s => utf8_valid s
  | JArray l => match depth with O => false | S d => forallb (json_ok d) l end
  | JObject m => match depth with
      | O => false
      | S d => bool_decide (NoDup m.*1) && forallb (λ e, utf8_valid e.1 && json_ok d e.2) m
      end
  end.

Definition JSON_DEPTH : nat := 127.

(** [serde_json::to_vec], and the values of the library the trees stand for. *)
Class JsonWrite `{Json} := { json_value : JValue → Value; json_to_vec : JValue → bytes }.

(** Parsing inverts printing; indexing an object gives the entry of the key, an
    array the element at the position, [Null] when there is none. *)
Class JsonLaws `{JsonWrite} := {
  json_parse_printed v :
    json_ok JSON_DEPTH v = true → json_from_slice (json_to_vec v) = Some (json_value v);
  json_object_field m k : json_field (json_value (JObject m)) k = json_value (default JNull (assoc k m));
  json_array_item l i : json_item (json_value (JArray l)) i = json_value (default JNull (l !! i));
  json_string_as_str s : json_as_str (json_value (JString s)) = Some s
}.

(** ** Canonical documents *)

(** The order of [String]s: of their bytes. *)
Fixpoint bytes_compare (a b : bytes) : comparison :=
  match a, b with
  | [], [] => Eq
  | [], _ :: _ => Lt
  | _ :: _, [] => Gt
  | x :: a', y :: b' =>
      match (byte_val x ?= byte_val y)%Z with Eq => bytes_compare a' b' | c => c end
  end.

(** [BTreeMap], by its entries in ascending order. *)
Fixpoint btree_insert {A} (k : bytes) (v : A) (m : list (bytes * A)) : list (bytes * A) :=
  match m with
  | [] => [(k, v)]
  | (k', v') :: m' =>
      match bytes_compare k k' with
      | Lt => (k, v) :: m
      | Eq => (k, v) :: m'
      | Gt => (k', v') :: btree_insert k v m'
      end
  end.

(** [collect::<BTreeMap<_, _>>()]. *)
Definition btree_collect {A} (m : list (bytes * A)) : list (bytes * A) :=
  foldl (λ acc e, btree_insert e.1 e.2 acc) [] m.

(** [sort_json_keys]. *)
Fixpoint sort_json_keys (v : JValue) : JValue :=
  match v with
  | JObject m => JObject (btree_collect (map (λ e, (e.1, sort_json_keys e.2)) m))
  | JArray l => JArray (map sort_json_keys l)
  | other => other
  end.

(** ** Facts on the order *)

Lemma bytes_compare_eq a b : bytes_compare a b = Eq ↔ a = b.
Proof.
  revert b. induction a as [|x a IH]; intros [|y b]; simpl; try done.
  destruct (byte_val x ?= byte_val y)%Z eqn:E.
  - apply Z.compare_eq, byte_val_inj in E as ->. rewrite IH. naive_solver.
  - split; [done|]. intros [= -> ->]. by rewrite Z.compare_refl in E.
  - split; [done|]. intros [= -> ->]. by rewrite Z.compare_refl in E.
Qed.

Lemma bytes_compare_antisym a b : bytes_compare b a = CompOpp (bytes_compare a b).
Proof.
  revert b. induction a as [|x a IH]; intros [|y b]; simpl; try done.
  rewrite (Z.compare_antisym (byte_val x)). destruct (byte_val x ?= byte_val y)%Z; simpl; auto.
Qed.

Lemma bytes_compare_trans a b c : bytes_compare a b = Lt → bytes_compare b c = Lt → bytes_compare a c = Lt.
Proof.
  revert b c. induction a as [|x a IH]; intros [|y b] [|z c]; simpl; try done.
  destruct (Z.compare_spec (byte_val x) (byte_val y)), (Z.compare_spec (byte_val y) (byte_val z)),
    (Z.compare_spec (byte_val x) (byte_val z)); try done; try lia. apply IH.
Qed.

(** ** Facts on canonical documents *)

Section btree.
Context {A : Type}.
Implicit Types (m : list (bytes * A)) (k : bytes) (v : A).

Lemma btree_insert_perm k v m : k ∉ m.*1 → btree_insert k v m ≡ₚ (k, v) :: m.
Proof.
  induction m as [|[k' v'] m IH]; simpl; [done|]. intros [Hne Hk]%not_elem_of_cons.
  destruct (bytes_compare k k') eqn:E; [by apply bytes_compare_eq in E|done|].
  rewrite IH by done. apply Permutation_swap.
Qed.

Lemma btree_insert_comm k1 v1 k2 v2 m :
  k1 ≠ k2 → btree_insert k1 v1 (btree_insert k2 v2 m) = btree_insert k2 v2 (btree_insert k1 v1 m).
Proof.
  intros Hne.
  assert (∀ a b c, bytes_compare a c = Lt → bytes_compare b c = Gt → bytes_compare a b = Lt) as Hlg.
  { intros a b c Ha Hb. apply (bytes_compare_trans _ c); [done|]. by rewrite bytes_compare_antisym, Hb. }
  assert (∀ a b, bytes_compare a b = Lt → bytes_compare b a = Gt) as Hop
    by (intros a b E; by rewrite bytes_compare_antisym, E).
  assert (∀ a b, bytes_compare a b = Gt → bytes_compare b a = Lt) as Hop'
    by (intros a b E; by rewrite bytes_compare_antisym, E).
  induction m as [|[k v] m IH]; simpl.
  - destruct (bytes_compare k1 k2) eqn:E; [by apply bytes_compare_eq in E|..].
    + by rewrite (Hop _ _ E).
    + by rewrite (Hop' _ _ E).
  - destruct (bytes_compare k1 k) eqn:E1, (bytes_compare k2 k) eqn:E2; simpl; rewrite ?E1, ?E2.
    + apply bytes_compare_eq in E1, E2. congruence.
    + apply bytes_compare_eq in E1 as ->. by rewrite (Hop _ _ E2), E2.
    + apply bytes_compare_eq in E1 as ->. by rewrite E2.
    + apply bytes_compare_eq in E2 as ->. by rewrite (Hop _ _ E1), E1.
    + destruct (bytes_compare k1 k2) eqn:E; [by apply bytes_compare_eq in E|..]; simpl.
      * by rewrite (Hop _ _ E).
      * by rewrite (Hop' _ _ E).
    + pose proof (Hlg _ _ _ E1 E2) as E. by rewrite ?(Hop _ _ E), ?E2.
    + apply bytes_compare_eq in E2 as ->. by rewrite E1.
    + pose proof (Hlg _ _ _ E2 E1) as E. by rewrite ?(Hop _ _ E), ?E1.
    + by rewrite IH.
Qed.

Lemma btree_collect_from_perm acc m :
  NoDup (acc ++ m).*1 → foldl (λ acc e, btree_insert e.1 e.2 acc) acc m ≡ₚ acc ++ m.
Proof.
  revert acc. induction m as [|[k v] m IH]; intros acc; simpl; [by rewrite app_nil_r|].
  rewrite fmap_app, NoDup_app. simpl. intros (Ha & Hd & Hm).
  assert (k ∉ acc.*1) as Hk by (intros Hk; apply (Hd k Hk); left).
  assert (btree_insert k v acc ++ m ≡ₚ acc ++ (k, v) :: m) as Hp
    by (rewrite btree_insert_perm by done; simpl; by rewrite Permutation_middle).
  rewrite IH; [done|]. rewrite Hp, fmap_app, NoDup_app. done.
Qed.

Lemma btree_collect_perm m : NoDup m.*1 → btree_collect m ≡ₚ m.
Proof. apply (btree_collect_from_perm []). Qed.

(** The entries of a map are collected to the same sequence in whatever order
    they come. *)
Lemma btree_collect_order m m' : NoDup m.*1 → m ≡ₚ m' → btree_collect m = btree_collect m'.
Proof.
  unfold btree_collect. generalize (@nil (bytes * A)). intros acc Hnd Hp. revert acc Hnd.
  induction Hp as [|e m m' _ IH|[k1 v1] [k2 v2] m|m1 m2 m3 Hp1 IH1 Hp2 IH2]; intros acc Hnd; simpl.
  - done.
  - apply IH. simpl in Hnd. by apply NoDup_cons in Hnd as [_ Hnd].
  - f_equal. apply btree_insert_comm. simpl in Hnd. apply NoDup_cons in Hnd as [Hn _].
    apply not_elem_of_cons in Hn as [Hn _]. congruence.
  - rewrite IH1 by done. apply IH2. by rewrite <- Hp1.
Qed.

Lemma assoc_Some k m v : NoDup m.*1 → assoc k m = Some v ↔ (k, v) ∈ m.
Proof.
  unfold assoc. intros Hnd. induction m as [|[k' v'] m IH]; simpl in *.
  { split; [done|]. by intros ?%elem_of_nil. }
  apply NoDup_cons in Hnd as [Hk Hnd]. rewrite elem_of_cons. case_bool_decide as E; simpl in *.
  - subst. split; [intros [= ->]; by left|]. intros [[= ->]|Hin]; [done|].
    destruct Hk. apply list_elem_of_fmap. by exists (k, v).
  - rewrite IH by done. split; [by right|]. intros [[= -> ->]|?]; done.
Qed.

Lemma assoc_perm k m m' : NoDup m.*1 → m ≡ₚ m' → assoc k m = assoc k m'.
Proof.
  intros Hnd Hp. apply option_eq. intros v. rewrite !assoc_Some; [by rewrite Hp| |done].
  by rewrite <- Hp.
Qed.

Lemma assoc_map {B} (f : A → B) k m : assoc k (map (λ e, (e.1, f e.2)) m) = f <$> assoc k m.
Proof.
  unfold assoc. induction m as [|[k' v'] m IH]; simpl; [done|]. case_bool_decide; simpl; [done|apply IH].
Qed.

End btree.

Lemma map_keys {A B} (f : A → B) (m : list (bytes * A)) : (map (λ e, (e.1, f e.2)) m).*1 = m.*1.
Proof. induction m as [|[k v] m IH]; [done|]. cbn. f_equal. exact IH. Qed.

(** The text of a document does not depend on the order in which its maps are
    iterated. *)
Lemma sort_json_keys_order m m' :
  NoDup m.*1 → m ≡ₚ m' → sort_json_keys (JObject m) = sort_json_keys (JObject m').
Proof.
  intros Hnd Hp. simpl. f_equal. apply btree_collect_order; [by rewrite map_keys|]. by rewrite Hp.
Qed.

Lemma sort_json_keys_field k m :
  NoDup m.*1 → ∃ m', sort_json_keys (JObject m) = JObject m' ∧ assoc k m' = sort_json_keys <$> assoc k m.
Proof.
  intros Hnd. eexists. split; [reflexivity|]. rewrite <- assoc_map. symmetry. apply assoc_perm.
  - by rewrite map_keys.
  - symmetry. apply btree_collect_perm. by rewrite map_keys.
Qed.

Lemma json_ok_sorted d v : json_ok d v = true → json_ok d (sort_json_keys v) = true.
Proof.
  revert d. induction v as [| | | |l IH|m IH] using JValue_induction; intros d; try done.
  - destruct d as [|d]; [done|]. simpl. rewrite !forallb_forall. intros Hl v [v' [<- Hv]]%in_map_iff.
    rewrite Forall_forall in IH. apply IH; [by apply list_elem_of_In|]. by apply Hl.
  - destruct d as [|d]; [done|]. simpl.
    intros [Hnd Hm]%andb_true_iff. apply bool_decide_eq_true in Hnd.
    pose proof (btree_collect_perm (map (λ e, (e.1, sort_json_keys e.2)) m)) as Hp.
    rewrite map_keys in Hp. specialize (Hp Hnd).
    apply andb_true_iff. rewrite bool_decide_eq_true. split.
    { rewrite Hp, map_keys. done. }
    rewrite forallb_forall in Hm. apply forallb_forall. intros e He%list_elem_of_In. rewrite Hp in He.
    apply list_elem_of_In, in_map_iff in He as (e' & <- & He). simpl.
    specialize (Hm e' He). apply andb_true_iff in Hm as [Hk Hv]. rewrite Hk. simpl.
    rewrite Forall_forall in IH. apply IH; [by apply list_elem_of_In|done].
Qed.

(** ** Building records *)

(** [json!] objects and string literals. *)
Definition jobject (m : list (string * JValue)) : JValue := JObject ((λ e, (str_bytes e.1, e.2)) <$> m).
Definition jstr (s : string) : JValue := JString (str_bytes s).

Section documents.
Context `{JsonWrite, Base64Encode, SignatureLibraries, KeyGeneration}.

(** [base64url_encode]. *)
Definition base64url_encode (pk : bytes) : bytes := b64_encode pk.

(** [encode_did_document]. *)
Definition encode_did_document (doc : JValue) : bytes := json_to_vec (sort_json_keys doc).

(** [build_did_document]. *)
Definition build_did_document (did dilithium_pk kyber_pk : bytes) : JValue :=
  let dilithium_x := base64url_encode dilithium_pk in
  let kyber_x := base64url_encode kyber_pk in
  jobject [
    ("@context", JArray [jstr "https://www.w3.org/ns/did/v1"]);
    ("id", JString did);
    ("verificationMethod", JArray [
      jobject [("id", JString (did ++ str_bytes "#k0")); ("type", jstr "JsonWebKey2020");
               ("controller", JString did);
               ("publicKeyJwk", jobject [("kty", jstr "OKP"); ("crv", jstr "Dilithium2"); ("x", JString dilithium_x)])];
      jobject [("id", JString (did ++ str_bytes "#k1")); ("type", jstr "JsonWebKey2020");
               ("controller", JString did);
               ("publicKeyJwk", jobject [("kty", jstr "OKP"); ("crv", jstr "Kyber512"); ("x", JString kyber_x)])]]);
    ("authentication", JArray [JString (did ++ str_bytes "#k0")]);
    ("keyAgreement", JArray [JString (did ++ str_bytes "#k1")]);
    ("service", JArray [
      jobject [("id", JString (did ++ str_bytes "#device")); ("type", jstr "DeviceAgent");
               ("serviceEndpoint", jstr "http://example.com/device")]])].

(** [build_signed_record]; the signature draws [rng]. *)
Definition build_signed_record (rng : bytes) (doc : JValue) (secret_key algorithm : bytes) : bytes :=
  let doc_bytes := encode_did_document doc in
  let copy_len := length algorithm `min` 12 in
  let alg_field := take copy_len algorithm ++ drop copy_len (replicate 12 x00) in
  let signature := dilithium_sign 2 rng doc_bytes secret_key in
  alg_field ++ signature ++ doc_bytes.

(** [generate_did_iiot], with the text of the UUID drawn, and the key a DID is
    published under, [did.split(':').next_back()]. *)
Definition generate_did_iiot (uuid : bytes) : bytes := str_bytes "did:iiot:" ++ uuid.
Definition dht_key (did : bytes) : bytes := reverse (before x3a (reverse did)).

End documents.

(** ** The versions of a document (testbed/did.rs) *)

Class Hex := hex_encode : bytes → bytes.

Definition ALGORITHM : bytes := str_bytes "Dilithium-2".
Definition SIGNATURE_LEN : nat := 2420.

(** What a version draws: its keys and the randomness of its signature. *)
Record Draw := mkDraw { draw_signing : bytes; draw_agreement : bytes; draw_signature : bytes }.

Record Version := mkVersion { secret_key : bytes; record : bytes }.

(** What [describe] says of a record. *)
Inductive Description `{Json} :=
  | NotDidRecord (len : nat)
  | Described (did : Value) (signing_key agreement_key : option bytes) (len : nat).

Section versions.
Context `{Sha256, JsonWrite, Base64, Base64Encode, SignatureLibraries, KeyGeneration, Hex}.

(** [sorted] and [did_document]: the code of [sort_json_keys] and
    [build_did_document]. *)
Definition sorted (value : JValue) : JValue := sort_json_keys value.
Definition did_document (did signing agreement : bytes) : JValue := build_did_document did signing agreement.

(** [signed_record]. *)
Definition signed_record (rng : bytes) (document : JValue) (secret_key : bytes) : bytes :=
  let body := json_to_vec (sorted document) in
  ALGORITHM ++ drop (length ALGORITHM) (replicate 12 x00) ++ dilithium_sign 2 rng body secret_key ++ body.

(** [Version::generate]. *)
Definition generate_version (did : bytes) (d : Draw) : Version :=
  let '(signing, secret_key) := dilithium_keypair 2 (draw_signing d) in
  let '(agreement, _) := kyber_keypair 512 (draw_agreement d) in
  mkVersion secret_key (signed_record (draw_signature d) (did_document did signing agreement) secret_key).

(** [short_hash]. *)
Definition short_hash (b : bytes) : bytes := hex_encode (take 6 (sha256 b)).

(** [record.get(12 + SIGNATURE_LEN..)], parsed. *)
Definition document_of (record : bytes) : option Value :=
  if 12 + SIGNATURE_LEN <=? length record then json_from_slice (drop (12 + SIGNATURE_LEN) record) else None.

(** [describe]. *)
Definition describe (record : bytes) : Description :=
  match document_of record with
  | None => NotDidRecord (length record)
  | Some document =>
      let key (index : nat) : option bytes :=
        x ← json_as_str (json_field (json_field (json_item (json_field document
              (str_bytes "verificationMethod")) index) (str_bytes "publicKeyJwk")) (str_bytes "x"));
        short_hash <$> b64_decode x in
      Described (json_field document (str_bytes "id")) (key 0) (key 1) (length record)
  end.

(** [signing_key_of]. *)
Definition signing_key_of (record : bytes) : bytes :=
  match describe record with
  | NotDidRecord _ => str_bytes "?"
  | Described _ signing_key _ _ => default (str_bytes "?") signing_key
  end.

(** [did_of]. *)
Definition did_of (record : bytes) : option bytes :=
  document ← document_of record;
  json_as_str (json_field document (str_bytes "id")).

End versions.

(** ** Facts *)

Lemma utf8_valid_app a b : utf8_valid a = true → utf8_valid b = true → utf8_valid (a ++ b) = true.
Proof.
  intros Ha Hb. remember (length a) as n eqn:Hn. revert a Hn Ha.
  induction n as [n IH] using lt_wf_ind. intros a -> Ha.
  destruct a as [|x a]; [done|]. simpl in Ha |- *.
  destruct (in_byte_range 0 127 x); [eapply IH; [|done|done]; simpl; lia|].
  destruct (in_byte_range 194 223 x).
  { destruct a as [|y a]; [done|]. simpl. apply andb_true_iff in Ha as [-> Ha].
    eapply IH; [|done|done]. simpl. lia. }
  destruct (in_byte_range 224 239 x).
  { destruct a as [|y [|z a]]; try done. simpl. apply andb_true_iff in Ha as [-> Ha].
    eapply IH; [|done|done]. simpl. lia. }
  destruct (in_byte_range 240 244 x); [|done].
  destruct a as [|y [|z [|t a]]]; try done. simpl. apply andb_true_iff in Ha as [-> Ha].
  eapply IH; [|done|done]. simpl. lia.
Qed.

(** Nothing is trimmed from a text without the character. *)
Lemma trim_end_matches_none c l : c ∉ l → trim_end_matches c l = l.
Proof.
  intros Hc. unfold trim_end_matches. destruct l as [|b l]; [done|].
  assert (strip_all (length (b :: l)) [[c]] (reverse (b :: l)) = reverse (b :: l)) as ->;
    [|by rewrite reverse_involutive].
  rewrite <- elem_of_reverse in Hc. destruct (reverse (b :: l)) as [|a r]; [done|].
  simpl. rewrite bool_decide_eq_false_2 by set_solver. done.
Qed.

Lemma before_app sep a b : sep ∉ a → before sep (a ++ sep :: b) = a.
Proof.
  induction a as [|x a IH]; simpl; intros Hs.
  - by rewrite bool_decide_eq_true_2.
  - rewrite bool_decide_eq_false_2 by set_solver. f_equal. apply IH. set_solver.
Qed.

(** The key of a DID is its UUID. *)
Lemma dht_key_did uuid : x3a ∉ uuid → dht_key (generate_did_iiot uuid) = uuid.
Proof.
  intros Hu. unfold dht_key, generate_did_iiot. rewrite reverse_app.
  change (reverse (str_bytes "did:iiot:")) with (x3a :: reverse (str_bytes "did:iiot")).
  rewrite before_app by by rewrite elem_of_reverse. apply reverse_involutive.
Qed.

(** The example and the testbed build the same records. *)
Lemma signed_record_example `{JsonWrite, Base64, Base64Encode, SignatureLibraries, KeyGeneration}
    rng doc sk :
  signed_record rng doc sk = build_signed_record rng doc sk ALGORITHM.
Proof. unfold build_signed_record. by rewrite <- app_assoc. Qed.

(** The text of a UUID: it parses, is a Rust [String], and holds no colon. *)
Definition uuid_text `{UuidSyntax} (uuid : bytes) : Prop :=
  uuid_parse uuid = true ∧ utf8_valid uuid = true ∧ x3a ∉ uuid.

(** The size of a Dilithium-2 signature ([dilithium2::signature_bytes()]). *)
Class Dilithium2Size `{SignatureLibraries, KeyGeneration} :=
  dilithium2_size rng rng' msg :
    length (dilithium_sign 2 rng' msg (dilithium_keypair 2 rng).2) = SIGNATURE_LEN.

Section accepted.
Context `{Sha1, Sha256, JsonLaws, Base64Laws, KeyGenerationLaws, !Dilithium2Size, UuidSyntax, Hex}.

Lemma build_did_document_ok did pk kpk :
  utf8_valid did = true → json_ok JSON_DEPTH (build_did_document did pk kpk) = true.
Proof.
  intros Hd. pose proof (b64_text pk) as Hp. pose proof (b64_text kpk) as Hk.
  unfold build_did_document, jobject, jstr, base64url_encode, JSON_DEPTH.
  cbn [json_ok forallb fmap list_fmap fst snd].
  repeat (apply andb_true_intro; split);
    first [assumption | apply utf8_valid_app; [done|vm_compute; reflexivity] | vm_compute; reflexivity].
Qed.

(** Indexing a canonical value. *)
Lemma sorted_field m k :
  NoDup m.*1 → json_field (json_value (sort_json_keys (JObject m))) k =
    json_value (default JNull (sort_json_keys <$> assoc k m)).
Proof.
  intros Hnd. destruct (sort_json_keys_field k m Hnd) as (m' & -> & <-). apply json_object_field.
Qed.

Lemma sorted_item l i :
  json_item (json_value (sort_json_keys (JArray l))) i = json_value (default JNull (sort_json_keys <$> l !! i)).
Proof. simpl. rewrite json_array_item. by rewrite <- list_lookup_fmap. Qed.

(** What the verifier reads in a document. *)
Lemma document_parses did pk kpk :
  utf8_valid did = true →
  let doc := encode_did_document (build_did_document did pk kpk) in
  (∃ v, json_from_slice doc = Some v ∧ json_as_str (json_field v (str_bytes "id")) = Some did) ∧
  public_key_from_did_doc doc = Ok pk.
Proof.
  intros Hd doc. assert (json_from_slice doc =
    Some (json_value (sort_json_keys (build_did_document did pk kpk)))) as Hparse.
  { apply json_parse_printed, json_ok_sorted. by apply build_did_document_ok. }
  unfold build_did_document, jobject in Hparse.
  assert (∀ m k v, bool_decide (NoDup m.*1) = true → assoc k m = Some v →
    json_field (json_value (sort_json_keys (JObject m))) k = json_value (sort_json_keys v)) as Hf.
  { intros m k v Hnd%bool_decide_eq_true Hm. by rewrite sorted_field, Hm. }
  split.
  - eexists. split; [exact Hparse|].
    erewrite Hf; [|vm_compute; reflexivity|reflexivity]. apply json_string_as_str.
  - unfold public_key_from_did_doc. rewrite Hparse. cbn [ok_or mbind Result_bind].
    erewrite (Hf _ (str_bytes "verificationMethod")); [|vm_compute; reflexivity|reflexivity].
    cbn [snd]. rewrite sorted_item. cbn [lookup list_lookup fmap option_fmap option_map default from_option id].
    erewrite (Hf _ (str_bytes "publicKeyJwk")); [|vm_compute; reflexivity|reflexivity].
    cbn [snd]. erewrite (Hf _ (str_bytes "x")); [|vm_compute; reflexivity|reflexivity].
    cbn [snd sort_json_keys]. rewrite json_string_as_str. cbn [ok_or mbind Result_bind].
    unfold decode_b64url. rewrite trim_end_matches_none by apply b64_no_pad.
    unfold base64url_encode. by rewrite b64_decode_encode.
Qed.

(** A signature of a Dilithium-2 key made by the libraries is valid. *)
Lemma dilithium2_valid rng rng' msg :
  valid_signature ALGORITHM (dilithium_keypair 2 rng).1
    (dilithium_sign 2 rng' msg (dilithium_keypair 2 rng).2) msg.
Proof.
  exists dilithium_verifier. split; [reflexivity|].
  assert (2 ∈ [2; 3; 5]) as Hl by left.
  destruct (dilithium_levels 2 rng Hl) as [Hpk _]. destruct (dilithium_parses 2 rng Hl) as [Kpk _].
  destruct (dilithium_signs 2 rng rng' msg Hl) as [Hsig Hv].
  unfold dilithium_verifier, verify_d. rewrite Hpk. simpl. by rewrite Kpk, Hsig, Hv.
Qed.

(** The parts of a generated record, and what its document says. *)
Lemma version_parts did d :
  utf8_valid did = true →
  ∃ sig doc, record_parts (record (generate_version did d)) ALGORITHM sig doc ∧
    length sig = SIGNATURE_LEN ∧
    (∃ v, json_from_slice doc = Some v ∧ json_as_str (json_field v (str_bytes "id")) = Some did) ∧
    public_key_from_did_doc doc = Ok (dilithium_keypair 2 (draw_signing d)).1 ∧
    valid_signature ALGORITHM (dilithium_keypair 2 (draw_signing d)).1 sig doc.
Proof.
  intros Hd. pose proof (dilithium2_valid (draw_signing d) (draw_signature d)) as Hv.
  pose proof (dilithium2_size (draw_signing d) (draw_signature d)) as Hs.
  unfold generate_version. destruct (dilithium_keypair 2 (draw_signing d)) as [pk sk].
  destruct (kyber_keypair 512 (draw_agreement d)) as [kpk ksk]. simpl in *.
  destruct (document_parses did pk kpk Hd) as [Hid Hpk].
  set (doc := encode_did_document (build_did_document did pk kpk)) in *.
  exists (dilithium_sign 2 (draw_signature d) doc sk), doc. split_and!; try done.
  split; [by apply (bool_decide_unpack _)| |].
  - by rewrite Hs.
  - unfold signed_record. rewrite app_assoc. reflexivity.
Qed.

Lemma version_bound uuid d :
  uuid_text uuid → bound (record (generate_version (generate_did_iiot uuid) d)) (digest uuid).
Proof.
  intros (Hu & Ht & _). assert (utf8_valid (generate_did_iiot uuid) = true) as Hd
    by by apply utf8_valid_app.
  destruct (version_parts _ d Hd) as (sig & doc & Hp & _ & (v & Hv & Hid) & _).
  exists ALGORITHM, sig, doc. split; [done|]. exists v, (generate_did_iiot uuid), uuid. split_and!; done.
Qed.

Lemma version_self_signed uuid d :
  uuid_text uuid → self_signed (record (generate_version (generate_did_iiot uuid) d)).
Proof.
  intros (Hu & Ht & _). assert (utf8_valid (generate_did_iiot uuid) = true) as Hd
    by by apply utf8_valid_app.
  destruct (version_parts _ d Hd) as (sig & doc & Hp & _ & _ & Hk & Hv).
  exists ALGORITHM, sig, doc. eauto.
Qed.

(** A signature of a new record under the secret key of the current version. *)
Lemma version_rotates uuid d rng new :
  uuid_text uuid →
  let old := generate_version (generate_did_iiot uuid) d in
  rotates new (record old) (dilithium_sign 2 rng new (secret_key old)).
Proof.
  intros (Hu & Ht & _) old. assert (utf8_valid (generate_did_iiot uuid) = true) as Hd
    by by apply utf8_valid_app.
  destruct (version_parts _ d Hd) as (sig & doc & Hp & _ & _ & Hk & _).
  assert (secret_key old = (dilithium_keypair 2 (draw_signing d)).2) as ->.
  { unfold old, generate_version. destruct (dilithium_keypair 2 _), (kyber_keypair 512 _). done. }
  exists ALGORITHM, sig, doc, (dilithium_keypair 2 (draw_signing d)).1. split_and!; [done..|].
  apply dilithium2_valid.
Qed.

(** A record bound to a DID key and self-signed is verified. *)
Lemma did_verified {C : Type} `{MokaCache C} issuer_file now key value :
  key ≠ digest STATUS_LIST_KEY → bound value key → self_signed value →
  (verify_record (C := C) (did_handler issuer_file) now None key value).1 = true.
Proof.
  intros Hk Hb Hs. unfold verify_record, is_bound_to_key, check_signature.
  rewrite bool_decide_eq_false_2 by done. simpl.
  rewrite (proj2 (did_document_matches_key_iff _ _) Hb). simpl.
  by rewrite (proj2 (verify_self_signed_iff _) Hs).
Qed.

(** The testbed reads the DID of its records. *)
Lemma version_did uuid d :
  uuid_text uuid → did_of (record (generate_version (generate_did_iiot uuid) d)) = Some (generate_did_iiot uuid).
Proof.
  intros (Hu & Ht & _). assert (utf8_valid (generate_did_iiot uuid) = true) as Hd
    by by apply utf8_valid_app.
  destruct (version_parts _ d Hd) as (sig & doc & [_ _ ->] & Hs & (v & Hv & Hid) & _).
  unfold did_of, document_of. rewrite <- Hs.
  assert (length (pad12 ALGORITHM ++ sig) = 12 + length sig) as El by by rewrite length_app.
  rewrite app_assoc, <- El. rewrite drop_app_length, Hv.
  rewrite (proj2 (Nat.leb_le _ _)) by (rewrite (length_app (_ ++ _)); lia). done.
Qed.

End accepted.

(** ** Theorem *)

(** C29: nodes accept the records the programs publish, and their rotations. For a
    DID with the text of any UUID, the record of a fresh version, built either by
    the example or by the testbed, is accepted under the key the DID is published
    under, and so is its replacement by another version authorized by a
    signature under the secret key of the first; the DID is read back from the
    record. *)
Theorem records_are_accepted {C : Type} `{Sha1, Sha256, JsonLaws, Base64Laws, KeyGenerationLaws,
      !Dilithium2Size, UuidSyntax, Hex, MokaCache C}
    (issuer_file : option bytes) (now : Z) (uuid rng : bytes) (d d' : Draw)
    (Huuid : uuid_text uuid) (Hkey : digest uuid ≠ digest STATUS_LIST_KEY) :
  let did := generate_did_iiot uuid in
  let key := digest (dht_key did) in
  let v := generate_version did d in
  let v' := generate_version did d' in
  record v = build_signed_record (draw_signature d)
    (build_did_document did (dilithium_keypair 2 (draw_signing d)).1 (kyber_keypair 512 (draw_agreement d)).1)
    (dilithium_keypair 2 (draw_signing d)).2 ALGORITHM ∧
  (verify_record (C := C) (did_handler issuer_file) now None key (record v)).1 = true ∧
  verify_rotation (did_handler issuer_file) key (record v') (record v)
    (dilithium_sign 2 rng (record v') (secret_key v)) = true ∧
  did_of (record v) = Some did.
Proof.
  intros did key v v'. unfold key, did. rewrite dht_key_did by apply Huuid.
  split_and!.
  - rewrite <- signed_record_example. unfold v, generate_version.
    destruct (dilithium_keypair 2 _), (kyber_keypair 512 _). done.
  - apply did_verified; [done|by apply version_bound|by apply version_self_signed].
  - unfold verify_rotation. simpl. rewrite !andb_true_iff, !unwrap_or_true.
    rewrite !did_document_matches_key_iff, verify_key_rotation_iff. split_and!.
    + by apply version_bound.
    + by apply version_bound.
    + by apply version_rotates.
    + by apply version_self_signed.
  - by apply version_did.
Qed.

(** ** A published DID *)

Module DidExample.

#[local] Existing Instances KeyExample.ex_signatures KeyExample.ex_generation KeyExample.ex_generation_laws.

#[local] Instance ex_size : Dilithium2Size.
Proof. intros rng rng' msg. apply KeyExample.length_ex_pad. Defined.

(** A JSON text that can be read back: the bits of the code of the tree. *)
Fixpoint to_tree (v : JValue) : gen_tree (bytes + bool) :=
  match v with
  | JNull => GenNode 0 []
  | JBool b => GenLeaf (inr b)
  | JNumber t => GenNode 1 [GenLeaf (inl t)]
  | JString s => GenLeaf (inl s)
  | JArray l => GenNode 2 (map to_tree l)
  | JObject m => GenNode 3 (map (λ e, GenNode 4 [GenLeaf (inl e.1); to_tree e.2]) m)
  end.

Fixpoint of_tree (t : gen_tree (bytes + bool)) : JValue :=
  match t with
  | GenLeaf (inl s) => JString s
  | GenLeaf (inr b) => JBool b
  | GenNode 1 [GenLeaf (inl t)] => JNumber t
  | GenNode 2 l => JArray (map of_tree l)
  | GenNode 3 l => JObject (map (λ t, match t with
      | GenNode 4 [GenLeaf (inl k); t'] => (k, of_tree t') | _ => ([], JNull) end) l)
  | _ => JNull
  end.

Lemma of_to_tree v : of_tree (to_tree v) = v.
Proof.
  induction v as [| | | |l IH|m IH] using JValue_induction; try done; cbn; f_equal.
  - induction IH as [|v l Hv _ IH]; [done|]. cbn. congruence.
  - induction IH as [|[k v] m Hv _ IH]; [done|]. cbn in *. congruence.
Qed.

Fixpoint bits (p : positive) : bytes :=
  match p with xH => [] | xO p => x00 :: bits p | xI p => x01 :: bits p end.

Fixpoint of_bits (l : bytes) : positive :=
  match l with [] => xH | x00 :: l => xO (of_bits l) | _ :: l => xI (of_bits l) end.

Lemma of_bits_bits p : of_bits (bits p) = p.
Proof. induction p; cbn; congruence. Qed.

#[local] Instance ex_json : Json := {|
  Value := JValue;
  json_from_slice b := of_tree <$> decode (of_bits b);
  json_field v k := match v with JObject m => default JNull (assoc k m) | _ => JNull end;
  json_item v i := match v with JArray l => default JNull (l !! i) | _ => JNull end;
  json_as_str v := match v with JString s => Some s | _ => None end
|}.

#[local] Instance ex_json_write : JsonWrite := {|
  json_value v := v; json_to_vec v := bits (encode (to_tree v))
|}.

#[local] Instance ex_json_laws : JsonLaws.
Proof.
  split; try done. intros v _. cbn [json_from_slice json_to_vec json_value ex_json ex_json_write].
  rewrite of_bits_bits, decode_encode. cbn. by rewrite of_to_tree.
Defined.

(** Two letters per byte. *)
Fixpoint ex_encode (l : bytes) : bytes :=
  match l with
  | [] => []
  | b :: l' => byte_of_Z (65 + byte_val b `div` 16) :: byte_of_Z (65 + byte_val b `mod` 16) :: ex_encode l'
  end.

#[local] Instance ex_b64_encode : Base64Encode := ex_encode.

Fixpoint ex_decode (l : bytes) : option bytes :=
  match l with
  | [] => Some []
  | a :: b :: l' => cons (byte_of_Z ((byte_val a - 65) * 16 + (byte_val b - 65))) <$> ex_decode l'
  | _ => None
  end.

#[local] Instance ex_b64 : Base64 := ex_decode.

#[local] Instance ex_b64_laws : Base64Laws.
Proof.
  split; intros key; unfold b64_encode, b64_decode, ex_b64_encode, ex_b64.
  - induction key as [|b key IH]; [done|]. cbn. rewrite IH. by destruct b.
  - induction key as [|b key IH]; cbn; [by intros ?%elem_of_nil|].
    rewrite !not_elem_of_cons. split_and!; [by destruct b..|exact IH].
  - induction key as [|b key IH]; [done|]. cbn. destruct b; exact IH.
Defined.

#[local] Instance ex_uuid : UuidSyntax := λ u, length u =? 36.
#[local] Instance ex_hex : Hex := λ l, l.
#[local] Instance ex_sha1 : Sha1 := λ l, ident_ends (default x00 (head l)) x00.
#[local] Instance ex_sha256 : Sha256 := λ l, l.
#[local] Instance ex_moka : MokaCache unit := {| cache_get _ _ _ := None; cache_insert _ c _ _ := c |}.

Definition ex_uuid_text : bytes := str_bytes "123e4567-e89b-42d3-a456-426614174000".
Definition ex_did : bytes := generate_did_iiot ex_uuid_text.
Definition ex_version (b : byte) : Version := generate_version ex_did (mkDraw [b] [b] []).

Lemma records_are_accepted_witness :
  record (ex_version x01) = build_signed_record []
    (build_did_document ex_did (dilithium_keypair 2 [x01]).1 (kyber_keypair 512 [x01]).1)
    (dilithium_keypair 2 [x01]).2 ALGORITHM ∧
  (verify_record (C := unit) (did_handler None) 0 None (digest (dht_key ex_did)) (record (ex_version x01))).1 = true ∧
  verify_rotation (did_handler None) (digest (dht_key ex_did)) (record (ex_version x02)) (record (ex_version x01))
    (dilithium_sign 2 [] (record (ex_version x02)) (secret_key (ex_version x01))) = true ∧
  did_of (record (ex_version x01)) = Some ex_did.
Proof.
  apply (records_are_accepted (C := unit) None 0 ex_uuid_text [] (mkDraw [x01] [x01] []) (mkDraw [x02] [x02] [])).
  - split_and!; [reflexivity|reflexivity|]. apply (bool_decide_unpack _). vm_compute. exact I.
  - apply (bool_decide_unpack _). vm_compute. exact I.
Defined.

End DidExample.
