(* ===== verification/Crawling.v ===== *)
(** * Iterative lookups (src/src/crawling.rs)

    The crawl state, the rounds, and the lookups built on them. The network and
    the local protocol are the world [W] behind [SpiderProtocol]; every call
    passes it on. The order in which a [HashMap] of responses is iterated and
    the order in which answers arrive are chosen by the environment. Lookups
    are loops: they carry fuel, and [None] means it ran out. *)

From S2P Require Import Prelude Utils Node.

(** [SILENT_AFTER]. *)
Definition SILENT_AFTER : Z := 1000000000.

(** [FindPayload] and [RawResponse]. *)
Inductive FindPayload :=
  | PNodes (tuples : list (bytes * option string * option Z))
  | PValue (v : bytes)
  | PEmpty.

Record RawResponse := mkRaw { raw_happened : bool; raw_payload : FindPayload }.

(** ** [RPCFindResponse] *)

Definition happened (r : RawResponse) : bool := raw_happened r.

Definition has_value (r : RawResponse) : bool :=
  match raw_payload r with PValue _ => true | _ => false end.

Definition get_value (r : RawResponse) : option bytes :=
  match raw_payload r with PValue v => Some v | _ => None end.

(** [get_node_list]: tuples whose id is not 20 bytes long are left out. *)
Definition get_node_list (r : RawResponse) : list Node :=
  match raw_payload r with
  | PNodes tuples => omap (λ t, (λ i, Node_new i t.1.2 t.2) <$> ident_of_bytes t.1.1) tuples
  | _ => []
  end.

(** ** The interface to the protocol *)

(** The trait [SpiderProtocol]. *)
Class SpiderProtocol (W : Type) := {
  call_find_node : W → Node → Node → W * RawResponse;
  call_find_value : W → Node → Node → W * RawResponse;
  call_store : W → Node → ident → bytes → W * bool;
  failing_among : W → list Node → gset ident;
  note_no_answer : W → list Node → W
}.

(** The iteration order of a [HashMap] keyed by ids, which are distinct. *)
Class HashOrder := {
  hash_order : ∀ {A}, list (ident * A) → list (ident * A);
  hash_order_perm {A} (l : list (ident * A)) : hash_order l ≡ₚ l
}.

(** [ValueSearch] and [LookupNodes]. *)
Inductive ValueSearch := Found (v : bytes) | NotFound | Incomplete.

Record LookupNodes := mkLookup { nodes : list Node; unresponsive : nat }.

Definition LookupNodes_default : LookupNodes := mkLookup [] 0.

(** [usize::MAX]. *)
Definition USIZE_MAX : Z := 2 ^ 64 - 1.

(** ** [SpiderCrawl] *)

Module SpiderCrawl.

Record t := mk {
  ksize : nat;
  alpha : nat;
  node : Node;
  nearest : NodeHeap.t;
  last_ids_crawled : list ident;
  failed : gset ident;
  skipped : gset ident;
  ask_everyone : bool;
  rounds : nat
}.

(** [SpiderCrawl::new]. *)
Definition new (n : Node) (peers : list Node) (ksize alpha : nat) : t :=
  mk ksize alpha n (NodeHeap.push (NodeHeap.new n ksize) peers) [] ∅ ∅ false 0.

Definition with_nearest (s : t) (h : NodeHeap.t) : t :=
  mk (ksize s) (alpha s) (node s) h (last_ids_crawled s) (failed s) (skipped s) (ask_everyone s)
    (rounds s).

(** [SpiderCrawl::add_reported]. *)
Definition add_reported `{SpiderProtocol W} (w : W) (s : t) (ns : list Node) : t :=
  let known_failing := failing_among w ns in
  let usable := filter (λ n, id n ∉ failed s ∧ id n ∉ known_failing) ns in
  mk (ksize s) (alpha s) (node s) (NodeHeap.push (nearest s) usable) (last_ids_crawled s)
    (failed s) (skipped s ∪ known_failing) (ask_everyone s) (rounds s).

(** [SpiderCrawl::remove_failed]. *)
Definition remove_failed (s : t) (peers : list ident) : t :=
  mk (ksize s) (alpha s) (node s) (NodeHeap.remove (nearest s) peers) (last_ids_crawled s)
    (failed s ∪ list_to_set peers) (skipped s) (ask_everyone s) (rounds s).

(** [SpiderCrawl::lookup_nodes]. *)
Definition lookup_nodes (s : t) : LookupNodes :=
  mkLookup (NodeHeap.to_vec (nearest s)) (size (failed s ∪ skipped s)).

(** [SpiderCrawl::next_peers]. *)
Definition next_peers (s : t) (limit : Z) : list Node * t :=
  let current_ids := NodeHeap.get_ids (nearest s) in
  let count := Z.min (Z.of_nat
    (if ask_everyone s || bool_decide (current_ids = last_ids_crawled s)
     then NodeHeap.len (nearest s) else alpha s)) limit in
  let peers := take (Z.to_nat count) (NodeHeap.get_uncontacted (nearest s)) in
  let nearest' := foldl NodeHeap.mark_contacted (nearest s) peers in
  let rounds' := match peers with [] => rounds s | _ => S (rounds s) end in
  (peers, mk (ksize s) (alpha s) (node s) nearest' current_ids (failed s) (skipped s)
     (ask_everyone s) rounds').

Section rounds.
Context `{SpiderProtocol W, HashOrder}.

(** The concurrent calls of a round. *)
Fixpoint ask (rpc : W → Node → Node → W * RawResponse) (w : W) (target : Node) (peers : list Node)
    : W * list (ident * RawResponse) :=
  match peers with
  | [] => (w, [])
  | p :: ps =>
      let '(w1, r) := rpc w p target in
      let '(w2, rs) := ask rpc w1 target ps in
      (w2, (id p, r) :: rs)
  end.

(** [SpiderCrawl::find_round_limited] and [find_round]; the result is the
    [HashMap] in its iteration order. *)
Definition find_round_limited (w : W) (s : t) (limit : Z)
    (rpc : W → Node → Node → W * RawResponse) : W * t * list (ident * RawResponse) :=
  let '(peers, s') := next_peers s limit in
  let '(w', responses) := ask rpc w (node s') peers in
  (w', s', hash_order responses).

Definition find_round (w : W) (s : t) (rpc : W → Node → Node → W * RawResponse)
    : W * t * list (ident * RawResponse) :=
  find_round_limited w s USIZE_MAX rpc.

End rounds.

End SpiderCrawl.

(** ** [strict_quorum_value] *)

(** [*counts.entry(value).or_insert(0) += 1]. *)
Definition count_values (values : list bytes) : gmap bytes nat :=
  foldl (λ m v, <[v := S (default 0 (m !! v))]> m) ∅ values.

Definition strict_quorum_value (values : list bytes) (minimum_votes : nat) : option bytes :=
  let counts := count_values values in
  let required := minimum_votes `max` (length values `div` 2 + 1) in
  match (map_to_list counts).*2 with
  | [] => None
  | c :: cs =>
      let highest := foldr Nat.max c cs in
      if highest <? required then None
      else
        match filter (λ kv, kv.2 = highest) (map_to_list counts) with
        | [(winner, _)] => Some winner
        | _ => None
        end
  end.

(** ** [NodeSpiderCrawl] *)

Module NodeSpiderCrawl.
Import SpiderCrawl.

Section find.
Context `{SpiderProtocol W, HashOrder}.

(** The loop over the responses of a round: the peers to remove, and the state. *)
Definition handle_response (w : W) (acc : SpiderCrawl.t * list ident) (r : ident * RawResponse)
    : SpiderCrawl.t * list ident :=
  if negb (happened r.2) then (acc.1, acc.2 ++ [r.1])
  else (add_reported w acc.1 (get_node_list r.2), acc.2).

(** One turn of the loop of [find_lookup_nodes]. *)
Definition find_step (w : W) (s : SpiderCrawl.t) : W * SpiderCrawl.t :=
  let '(w1, s1, responses) := find_round w s call_find_node in
  let '(s2, to_remove) := foldl (handle_response w1) (s1, []) responses in
  (w1, remove_failed s2 to_remove).

(** [NodeSpiderCrawl::find_lookup_nodes] and [find]. *)
Fixpoint find_lookup_nodes (fuel : nat) (w : W) (s : SpiderCrawl.t) : option (W * LookupNodes) :=
  match fuel with
  | O => None
  | S fuel' =>
      let '(w', s') := find_step w s in
      if NodeHeap.have_contacted_all (nearest s') then Some (w', lookup_nodes s')
      else find_lookup_nodes fuel' w' s'
  end.

Definition find (fuel : nat) (w : W) (s : SpiderCrawl.t) : option (W * list Node) :=
  '(w', l) ← find_lookup_nodes fuel w s; Some (w', nodes l).

End find.

End NodeSpiderCrawl.

(** ** [ValueSpiderCrawl] *)

Module ValueSpiderCrawl.
Import SpiderCrawl.

Record t := mk { base : SpiderCrawl.t; nearest_without_value : NodeHeap.t }.

(** [ValueSpiderCrawl::new], [asking_everyone], [rounds]. *)
Definition new (n : Node) (peers : list Node) (ksize alpha : nat) : t :=
  mk (SpiderCrawl.new n peers ksize alpha) (NodeHeap.new n 1).

Definition asking_everyone (v : t) : t :=
  let s := base v in
  mk (SpiderCrawl.mk (ksize s) (alpha s) (node s) (nearest s) (last_ids_crawled s) (failed s)
        (skipped s) true (SpiderCrawl.rounds s)) (nearest_without_value v).

Definition rounds (v : t) : nat := SpiderCrawl.rounds (base v).

Section find.
Context `{SpiderProtocol W, HashOrder}.

(** The loop over the responses of a round of [find]. *)
Definition handle_response (w : W) (acc : t * list ident * list bytes) (r : ident * RawResponse)
    : t * list ident * list bytes :=
  let '(v, to_remove, found_values) := acc in
  if negb (happened r.2) then (v, to_remove ++ [r.1], found_values)
  else if has_value r.2 then
    match get_value r.2 with
    | Some x => (v, to_remove, found_values ++ [x])
    | None => (v, to_remove, found_values)
    end
  else
    let without :=
      match NodeHeap.get_node (nearest (base v)) r.1 with
      | Some peer => NodeHeap.push_one (nearest_without_value v) peer
      | None => nearest_without_value v
      end in
    (mk (add_reported w (base v) (get_node_list r.2)) without, to_remove, found_values).

(** [ValueSpiderCrawl::find]. *)
Fixpoint find (fuel : nat) (w : W) (v : t) : option (W * (option bytes * LookupNodes)) :=
  match fuel with
  | O => None
  | S fuel' =>
      let '(w1, s1, responses) := find_round w (base v) call_find_value in
      let '(v2, to_remove, found_values) :=
        foldl (handle_response w1) (mk s1 (nearest_without_value v), [], []) responses in
      let v3 := mk (remove_failed (base v2) to_remove) (nearest_without_value v2) in
      match found_values with
      | _ :: _ =>
          match strict_quorum_value found_values 1 with
          | None => Some (w1, (None, lookup_nodes (base v3)))
          | Some x =>
              let w2 := match NodeHeap.popleft (nearest_without_value v3) with
                        | (Some peer, _) => (call_store w1 peer (id (node (base v3))) x).1
                        | (None, _) => w1
                        end in
              Some (w2, (Some x, LookupNodes_default))
          end
      | [] =>
          if NodeHeap.have_contacted_all (nearest (base v3))
          then Some (w1, (None, lookup_nodes (base v3)))
          else find fuel' w1 v3
      end
  end.

(** The loop over the responses of a round of [find_quorum]. *)
Definition handle_vote (w : W) (acc : SpiderCrawl.t * list ident * list bytes)
    (r : ident * RawResponse) : SpiderCrawl.t * list ident * list bytes :=
  let '(s, to_remove, found_values) := acc in
  if negb (happened r.2) then (s, to_remove ++ [r.1], found_values)
  else match get_value r.2 with
       | Some x => (s, to_remove, found_values ++ [x])
       | None => (add_reported w s (get_node_list r.2), to_remove, found_values)
       end.

(** The loop of [ValueSpiderCrawl::find_quorum]. *)
Fixpoint quorum_loop (fuel : nat) (w : W) (s : SpiderCrawl.t) (found_values : list bytes)
    (minimum_votes maximum_votes : nat) : option (W * option bytes) :=
  match fuel with
  | O => None
  | S fuel' =>
      match strict_quorum_value found_values minimum_votes with
      | Some value => Some (w, Some value)
      | None =>
          let remaining_votes := maximum_votes - length found_values in
          if (remaining_votes =? 0) || NodeHeap.have_contacted_all (nearest s)
          then Some (w, None)
          else
            let '(w1, s1, responses) := find_round_limited w s (Z.of_nat remaining_votes) call_find_value in
            let '(s2, to_remove, found') := foldl (handle_vote w1) (s1, [], found_values) responses in
            quorum_loop fuel' w1 (remove_failed s2 to_remove) found' minimum_votes maximum_votes
      end
  end.

(** [ValueSpiderCrawl::find_quorum]. *)
Definition find_quorum (fuel : nat) (w : W) (v : t) (initial_values : list bytes)
    (minimum_votes maximum_votes : nat) : option (W * option bytes) :=
  quorum_loop fuel w (base v) initial_values minimum_votes maximum_votes.

(** What the environment decides in a round of [search]: whether the deadline
    has passed when the round starts, the order in which answers arrive, how
    many arrive before the deadline ([None]: all), and whether the peers still
    silent then were asked at least [SILENT_AFTER] earlier. *)
Record RoundEnv := mkEnv {
  env_late : bool;
  env_order : list (ident * RawResponse) → list (ident * RawResponse);
  env_cut : option nat;
  env_waited : bool
}.

(** The answers of a round, in order of arrival: a value that [accept] approves
    ends the lookup, otherwise the state, the peers to remove and whether a
    peer did not answer. *)
Fixpoint collect (w : W) (accept : W → bytes → W * option bytes) (s : SpiderCrawl.t)
    (to_remove : list ident) (incomplete : bool) (answers : list (ident * RawResponse))
    : W * ((SpiderCrawl.t * bytes) + (SpiderCrawl.t * list ident * bool)) :=
  match answers with
  | [] => (w, inr (s, to_remove, incomplete))
  | r :: rs =>
      if negb (happened r.2) then collect w accept s (to_remove ++ [r.1]) true rs
      else match get_value r.2 with
           | Some value =>
               match accept w value with
               | (w', Some accepted) => (w', inl (s, accepted))
               | (w', None) => collect w' accept s to_remove incomplete rs
               end
           | None => collect w accept (add_reported w s (get_node_list r.2)) to_remove incomplete rs
           end
  end.

(** [ValueSpiderCrawl::search], on the crawl it updates. [deadline] tells
    whether there is one; [env] gives the environment of each round. *)
Fixpoint search (fuel : nat) (env : nat → RoundEnv) (deadline : bool)
    (rpc : W → Node → Node → W * RawResponse) (accept : W → bytes → W * option bytes)
    (w : W) (s : SpiderCrawl.t) (incomplete : bool) : option (W * SpiderCrawl.t * ValueSearch) :=
  match fuel with
  | O => None
  | S fuel' =>
      if NodeHeap.have_contacted_all (nearest s) then
        Some (w, s, if incomplete then Incomplete else NotFound)
      else
        let e := env fuel' in
        if deadline && env_late e then Some (w, s, Incomplete)
        else
          let '(peers, s1) := next_peers s USIZE_MAX in
          let '(w1, responses) := ask rpc w (node s1) peers in
          let arrivals := env_order e responses in
          let cut :=
            if deadline then
              n ← env_cut e; if n <? length arrivals then Some n else None
            else None in
          let answers := match cut with Some n => take n arrivals | None => arrivals end in
          match collect w1 accept s1 [] incomplete answers with
          | (w2, inl (s2, accepted)) => Some (w2, s2, Found accepted)
          | (w2, inr (s2, to_remove, incomplete')) =>
              match cut with
              | Some _ =>
                  let waiting :=
                    filter (λ p, id p ∉ answers.*1) peers in
                  let silent := snd <$> hash_order ((λ p, (id p, p)) <$> waiting) in
                  Some (if env_waited e then note_no_answer w2 silent else w2, s2, Incomplete)
              | None => search fuel' env deadline rpc accept w2 (remove_failed s2 to_remove) incomplete'
              end
          end
  end.

(** [ValueSpiderCrawl::find_first_valid]. *)
Definition find_first_valid (fuel : nat) (env : nat → RoundEnv) (accept : W → bytes → W * option bytes)
    (w : W) (v : t) : option (W * option bytes) :=
  '(w', _, r) ← search fuel env false call_find_value accept w (base v) false;
  Some (w', match r with Found value => Some value | NotFound | Incomplete => None end).

End find.

End ValueSpiderCrawl.
