(* ===== verification/QuorumProps.v ===== *)
(** * Strict quorums (src/src/crawling.rs, [strict_quorum_value])

    The routine that counts votes in a map agrees with the definition of a
    strict quorum, whatever the order of the votes. *)

From S2P Require Import Prelude Utils Node Crawling.

Definition votes (v : bytes) (values : list bytes) : nat := length (filter (λ x, x = v) values).

Lemma votes_snoc v values x :
  votes v (values ++ [x]) = votes v values + (if decide (x = v) then 1 else 0).
Proof.
  unfold votes. rewrite filter_app, length_app, filter_cons. by case_decide.
Qed.

Lemma votes_perm v l l' : l ≡ₚ l' → votes v l = votes v l'.
Proof. intros Hp. unfold votes. by rewrite Hp. Qed.

Lemma votes_le v values : votes v values ≤ length values.
Proof. apply length_filter. Qed.

Lemma votes_disjoint v w values : v ≠ w → votes v values + votes w values ≤ length values.
Proof.
  intros Hne. induction values as [|x values IH] using rev_ind; [done|].
  rewrite !votes_snoc, length_app. simpl.
  destruct (decide (x = v)), (decide (x = w)); simplify_eq; simpl; lia.
Qed.

Lemma count_values_snoc values x :
  count_values (values ++ [x]) =
  <[x := S (default 0 (count_values values !! x))]> (count_values values).
Proof. unfold count_values. by rewrite foldl_app. Qed.

Lemma count_values_lookup values v :
  count_values values !! v = if decide (votes v values = 0) then None else Some (votes v values).
Proof.
  induction values as [|x values IH] using rev_ind; [done|].
  rewrite count_values_snoc, votes_snoc. destruct (decide (x = v)) as [->|Hne].
  - rewrite lookup_insert_eq, IH. repeat case_decide; simpl; try lia; f_equal; lia.
  - rewrite lookup_insert_ne, IH by done. by rewrite Nat.add_0_r.
Qed.

Lemma elem_of_counts values v c :
  (v, c) ∈ map_to_list (count_values values) ↔ c = votes v values ∧ 0 < c.
Proof.
  rewrite elem_of_map_to_list, count_values_lookup. case_decide; naive_solver lia.
Qed.

Lemma foldr_max_spec c cs :
  foldr Nat.max c cs ∈ c :: cs ∧ ∀ x, x ∈ c :: cs → x ≤ foldr Nat.max c cs.
Proof.
  induction cs as [|d cs [IH1 IH2]]; simpl.
  { split; [by left|]. intros x [->|?%not_elem_of_nil]%elem_of_cons; done. }
  split.
  - destruct (Nat.max_spec d (foldr Nat.max c cs)) as [[_ ->]|[_ ->]].
    + apply elem_of_cons in IH1 as [->|IH1]; [by left|by do 2 right].
    + right. by left.
  - intros x [->|[->|Hx]%elem_of_cons]%elem_of_cons; [|lia|].
    + assert (c ≤ foldr Nat.max c cs) by (apply IH2; by left). lia.
    + assert (x ≤ foldr Nat.max c cs) by (apply IH2; by right). lia.
Qed.

Lemma quorum_unique v w values :
  length values `div` 2 + 1 ≤ votes v values → votes v values ≤ votes w values → v = w.
Proof.
  intros Hv Hw. destruct (decide (v = w)) as [|Hne]; [done|].
  pose proof (votes_disjoint v w values Hne).
  pose proof (Nat.div_mod (length values) 2 ltac:(lia)).
  pose proof (Nat.mod_upper_bound (length values) 2 ltac:(lia)). lia.
Qed.

Lemma strict_quorum_iff values m v :
  strict_quorum_value values m = Some v ↔ m `max` (length values `div` 2 + 1) ≤ votes v values.
Proof.
  unfold strict_quorum_value. set (required := m `max` _).
  assert (Hreq : length values `div` 2 + 1 ≤ required) by lia.
  destruct ((map_to_list (count_values values)).*2) as [|c cs] eqn:Hcs.
  { split; [done|]. intros Hv. exfalso. apply fmap_nil_inv in Hcs.
    assert ((v, votes v values) ∈ map_to_list (count_values values)) as Hin
      by (apply elem_of_counts; lia).
    rewrite Hcs in Hin. by apply not_elem_of_nil in Hin. }
  destruct (foldr_max_spec c cs) as [Hmax Hle]. set (highest := foldr Nat.max c cs) in *.
  assert (Hge : ∀ x, 0 < votes x values → votes x values ≤ highest).
  { intros x Hx. apply Hle. rewrite <-Hcs. apply list_elem_of_fmap. exists (x, votes x values).
    by rewrite elem_of_counts. }
  assert (∃ w, (w, highest) ∈ map_to_list (count_values values)) as [w Hw].
  { rewrite <-Hcs in Hmax. apply list_elem_of_fmap in Hmax as ([w h] & -> & Hw). by exists w. }
  destruct (highest <? required) eqn:Hlt; bool_facts.
  { split; [done|]. intros Hv. specialize (Hge v ltac:(lia)). lia. }
  apply elem_of_counts in Hw as Hvw. destruct Hvw as [Hvw _].
  assert (Hall : ∀ x, x ∈ filter (λ kv, kv.2 = highest) (map_to_list (count_values values)) ↔
    x = (w, highest)).
  { intros [x h]. rewrite list_elem_of_filter, elem_of_counts. simpl. split.
    - intros (-> & Hx & _). f_equal. symmetry. apply (quorum_unique w x values); lia.
    - intros [= -> ->]. apply elem_of_counts in Hw. tauto. }
  assert (filter (λ kv, kv.2 = highest) (map_to_list (count_values values)) = [(w, highest)]) as ->.
  { apply Permutation_singleton_r, NoDup_Permutation.
    - apply NoDup_filter, NoDup_map_to_list.
    - apply NoDup_singleton.
    - intros x. by rewrite Hall, list_elem_of_singleton. }
  split; [intros [= <-]; lia|]. intros Hv. f_equal. symmetry.
  apply (quorum_unique v w values); [lia|]. rewrite <-Hvw. apply Hge. lia.
Qed.

(** The vote count of a quorum read agrees with the definition of a strict
    quorum: a value is selected exactly when it has at least [minimum_votes]
    votes and more than half of all votes. Hence at most one value can be, and
    the order of the votes does not matter. *)
Lemma strict_quorum_spec (values : list bytes) (minimum_votes : nat) :
  (∀ v, strict_quorum_value values minimum_votes = Some v ↔
     minimum_votes ≤ votes v values ∧ length values < 2 * votes v values) ∧
  (∀ values', values ≡ₚ values' →
     strict_quorum_value values minimum_votes = strict_quorum_value values' minimum_votes).
Proof.
  split.
  - intros v. rewrite strict_quorum_iff.
    pose proof (Nat.div_mod (length values) 2 ltac:(lia)).
    pose proof (Nat.mod_upper_bound (length values) 2 ltac:(lia)). lia.
  - intros values' Hp. apply option_eq. intros v. rewrite !strict_quorum_iff.
    by rewrite (votes_perm v _ _ Hp), (Permutation_length Hp).
Qed.
