(* ===== verification/CrawlProps.v ===== *)
(** * What an iterative lookup promises (src/src/crawling.rs)

    Over any network that reports ids of a finite set, a node lookup ends, and
    it returns the closest peers that answered it, in order of distance. *)

From S2P Require Import Prelude Utils Node Crawling.

Import SpiderCrawl.

(** ** The shortlist under the operations of a lookup *)

Lemma push_frame h ns :
  NodeHeap.contacted (NodeHeap.push h ns) = NodeHeap.contacted h ∧
  NodeHeap.node (NodeHeap.push h ns) = NodeHeap.node h ∧
  NodeHeap.maxsize (NodeHeap.push h ns) = NodeHeap.maxsize h.
Proof. unfold NodeHeap.push. by destruct (NodeHeap.push_loop _ _ _ _). Qed.

Lemma push_ids h ns i :
  NodeHeap.wf h → i ∈ NodeHeap.get_ids (NodeHeap.push h ns) → i ∈ NodeHeap.get_ids h ∨ i ∈ id <$> ns.
Proof.
  intros Hwf Hi. pose proof (NodeHeap.push_keeps_closest_aux h ns Hwf) as [_ Hsub _ _].
  apply Hsub, elem_of_elements, NodeHeap.elem_of_known_ids in Hi. done.
Qed.

Lemma remove_frame h l :
  NodeHeap.contacted (NodeHeap.remove h l) = NodeHeap.contacted h ∧
  NodeHeap.node (NodeHeap.remove h l) = NodeHeap.node h ∧
  NodeHeap.maxsize (NodeHeap.remove h l) = NodeHeap.maxsize h.
Proof. unfold NodeHeap.remove. by destruct l. Qed.

Lemma remove_ids h l i :
  NodeHeap.wf h → i ∈ NodeHeap.get_ids (NodeHeap.remove h l) ↔ i ∈ NodeHeap.get_ids h ∧ i ∉ l.
Proof.
  intros Hwf. rewrite (NodeHeap.wf_get_ids (NodeHeap.remove h l)) by (by apply NodeHeap.wf_remove).
  rewrite NodeHeap.wf_get_ids by done. unfold NodeHeap.remove. destruct l as [|p ps].
  { split; [|tauto]. intros Hi. split; [done|]. apply not_elem_of_nil. }
  cbn [NodeHeap.entries]. rewrite !list_elem_of_fmap. split.
  - intros (e & -> & [Hn He]%list_elem_of_filter). rewrite elem_of_list_to_set in Hn.
    split; [by exists e|done].
  - intros [(e & -> & He) Hn]. exists e. split; [done|]. apply list_elem_of_filter.
    by rewrite elem_of_list_to_set.
Qed.

Lemma mark_all_frame h ps :
  let h' := foldl NodeHeap.mark_contacted h ps in
  NodeHeap.entries h' = NodeHeap.entries h ∧ NodeHeap.node h' = NodeHeap.node h ∧
  NodeHeap.maxsize h' = NodeHeap.maxsize h ∧
  NodeHeap.contacted h' = list_to_set (id <$> ps) ∪ NodeHeap.contacted h.
Proof.
  revert h. induction ps as [|p ps IH]; intros h; simpl.
  { repeat split. set_solver. }
  destruct (IH (NodeHeap.mark_contacted h p)) as (-> & -> & -> & ->). simpl. repeat split. set_solver.
Qed.

Lemma mark_all_wf h ps : NodeHeap.wf h → NodeHeap.wf (foldl NodeHeap.mark_contacted h ps).
Proof.
  revert h. induction ps as [|p ps IH]; intros h Hwf; simpl; [done|].
  by apply IH, NodeHeap.wf_mark_contacted.
Qed.

Lemma mark_all_ids h ps :
  NodeHeap.get_ids (foldl NodeHeap.mark_contacted h ps) = NodeHeap.get_ids h.
Proof.
  unfold NodeHeap.get_ids, NodeHeap.iter.
  destruct (mark_all_frame h ps) as (-> & _ & -> & _). done.
Qed.

Lemma uncontacted_elem h n :
  n ∈ NodeHeap.get_uncontacted h → id n ∈ NodeHeap.get_ids h ∧ id n ∉ NodeHeap.contacted h.
Proof.
  unfold NodeHeap.get_uncontacted, NodeHeap.get_ids. intros [Hn Hin]%list_elem_of_filter.
  split; [|done]. by apply list_elem_of_fmap_2.
Qed.

Lemma have_contacted_all_iff h :
  NodeHeap.have_contacted_all h = true ↔ ∀ i, i ∈ NodeHeap.get_ids h → i ∈ NodeHeap.contacted h.
Proof.
  unfold NodeHeap.have_contacted_all, NodeHeap.get_ids. split.
  - intros Hu i (n & -> & Hn)%list_elem_of_fmap.
    destruct (decide (id n ∈ NodeHeap.contacted h)) as [|Hc]; [done|].
    assert (n ∈ NodeHeap.get_uncontacted h) as Hin by (by apply list_elem_of_filter).
    destruct (NodeHeap.get_uncontacted h); [by apply not_elem_of_nil in Hin|done].
  - intros Hall. destruct (NodeHeap.get_uncontacted h) as [|n l] eqn:E; [done|]. exfalso.
    assert (n ∈ NodeHeap.get_uncontacted h) as Hin by (rewrite E; by left).
    apply uncontacted_elem in Hin as [Hin Hc]. by apply Hc, Hall.
Qed.

(** ** The invariant of a lookup *)

(** [U] bounds the ids the lookup may meet; [R] are the peers that answered. *)
Record crawl_ok (U R : gset ident) (s : t) : Prop := {
  co_wf : NodeHeap.wf (nearest s);
  co_ids : ∀ i, i ∈ NodeHeap.get_ids (nearest s) → i ∈ U ∧ i ∉ failed s;
  co_contacted : NodeHeap.contacted (nearest s) ⊆ R ∪ failed s;
  co_universe : NodeHeap.contacted (nearest s) ⊆ U;
  co_pivot : NodeHeap.node (nearest s) = node s;
  co_size : NodeHeap.maxsize (nearest s) = ksize s
}.

Lemma crawl_ok_new U n peers k a :
  (∀ p, p ∈ peers → id p ∈ U) → crawl_ok U ∅ (new n peers k a).
Proof.
  intros Hp. pose proof (NodeHeap.heap_wf_new n k) as Hwf.
  destruct (push_frame (NodeHeap.new n k) peers) as (Hc & Hn & Hm).
  split; simpl; [by apply NodeHeap.wf_push| |rewrite Hc; set_solver|rewrite Hc; set_solver|done|done].
  intros i Hi. split; [|set_solver]. apply push_ids in Hi as [Hi|Hi]; [|..|done].
  - rewrite NodeHeap.wf_get_ids in Hi by done. by apply not_elem_of_nil in Hi.
  - apply list_elem_of_fmap in Hi as (p & -> & Hin). by apply Hp.
Qed.

(** The state inside a round: the peers [P] have been marked as contacted. *)
Record round_ok (U R P : gset ident) (s : t) : Prop := {
  ro_wf : NodeHeap.wf (nearest s);
  ro_ids : ∀ i, i ∈ NodeHeap.get_ids (nearest s) → i ∈ U ∧ i ∉ failed s;
  ro_contacted : NodeHeap.contacted (nearest s) ⊆ R ∪ failed s ∪ P;
  ro_universe : NodeHeap.contacted (nearest s) ⊆ U;
  ro_pivot : NodeHeap.node (nearest s) = node s;
  ro_size : NodeHeap.maxsize (nearest s) = ksize s
}.

Lemma next_peers_ok U R s limit peers s1 :
  crawl_ok U R s → next_peers s limit = (peers, s1) →
  round_ok U R (list_to_set (id <$> peers)) s1 ∧
  NodeHeap.contacted (nearest s1) = list_to_set (id <$> peers) ∪ NodeHeap.contacted (nearest s) ∧
  NodeHeap.get_ids (nearest s1) = NodeHeap.get_ids (nearest s) ∧
  last_ids_crawled s1 = NodeHeap.get_ids (nearest s) ∧
  (node s1 = node s ∧ failed s1 = failed s) ∧
  (∀ i, i ∈ id <$> peers → i ∈ NodeHeap.get_ids (nearest s) ∧ i ∉ NodeHeap.contacted (nearest s)) ∧
  NoDup (id <$> peers).
Proof.
  intros [Hwf Hids Hcon Huni Hpiv Hsz] Hn. unfold next_peers in Hn. injection Hn as Hpeers <-.
  destruct (mark_all_frame (nearest s) peers) as (_ & Hnode & Hmax & Hc).
  assert (Hin : ∀ i, i ∈ id <$> peers →
    i ∈ NodeHeap.get_ids (nearest s) ∧ i ∉ NodeHeap.contacted (nearest s)).
  { intros i (n & -> & Hn)%list_elem_of_fmap. apply uncontacted_elem. rewrite <-Hpeers in Hn.
    by eapply elem_of_take_incl. }
  rewrite Hpeers. simpl. split; [|split; [done|split; [apply mark_all_ids|split; [done|split; [done|split; [done|]]]]]].
  - split; simpl; [by apply mark_all_wf|by rewrite mark_all_ids| | |congruence|congruence].
    + rewrite Hc. set_solver.
    + rewrite Hc. apply union_subseteq. split; [|done]. intros i. rewrite elem_of_list_to_set.
      intros Hi. by apply Hids, Hin.
  - rewrite <-Hpeers. eapply (NoDup_fmap_submseteq id _ (NodeHeap.iter (nearest s))).
    + etrans; [apply submseteq_take|]. unfold NodeHeap.get_uncontacted.
      apply sublist_submseteq, sublist_filter.
    + fold (NodeHeap.get_ids (nearest s)). rewrite NodeHeap.wf_get_ids by done. apply Hwf.
Qed.

Section lookup.
Context `{SpiderProtocol W, HashOrder} (U : gset ident).

(** A response that reports only ids of [U]. *)
Definition reports_in (r : RawResponse) : Prop := ∀ n, n ∈ get_node_list r → id n ∈ U.

Lemma add_reported_ok R P w s ns :
  round_ok U R P s → (∀ n, n ∈ ns → id n ∈ U) → round_ok U R P (add_reported w s ns).
Proof using.
  intros [Hwf Hids Hcon Huni Hpiv Hsz] Hns. unfold add_reported.
  set (usable := filter _ ns). destruct (push_frame (nearest s) usable) as (Hc & Hn & Hm).
  split; simpl; [by apply NodeHeap.wf_push| |by rewrite Hc|by rewrite Hc|congruence|congruence].
  intros i [Hi|(n & -> & [[Hf _] Hin]%list_elem_of_filter)%list_elem_of_fmap]%push_ids; auto.
Qed.

Lemma add_reported_frame w s ns :
  NodeHeap.contacted (nearest (add_reported w s ns)) = NodeHeap.contacted (nearest s) ∧
  failed (add_reported w s ns) = failed s ∧ node (add_reported w s ns) = node s ∧
  last_ids_crawled (add_reported w s ns) = last_ids_crawled s.
Proof using. unfold add_reported. simpl. repeat split. by apply push_frame. Qed.

(** Ids of the responses that happened, and of those that did not. *)
Definition answered (rs : list (ident * RawResponse)) : gset ident :=
  list_to_set (filter (λ r, happened r.2 = true) rs).*1.

Definition silent (rs : list (ident * RawResponse)) : list ident :=
  (filter (λ r, happened r.2 = false) rs).*1.

Lemma elem_of_answered rs i : i ∈ answered rs ↔ ∃ r, (i, r) ∈ rs ∧ happened r = true.
Proof using.
  unfold answered. rewrite elem_of_list_to_set, list_elem_of_fmap. split.
  - intros ([j r] & -> & [Hh Hin]%list_elem_of_filter). eauto.
  - intros (r & Hin & Hh). exists (i, r). split; [done|]. by apply list_elem_of_filter.
Qed.

Lemma elem_of_silent rs i : i ∈ silent rs ↔ ∃ r, (i, r) ∈ rs ∧ happened r = false.
Proof using.
  unfold silent. rewrite list_elem_of_fmap. split.
  - intros ([j r] & -> & [Hh Hin]%list_elem_of_filter). eauto.
  - intros (r & Hin & Hh). exists (i, r). split; [done|]. by apply list_elem_of_filter.
Qed.

Lemma answered_or_silent rs i : i ∈ rs.*1 → i ∈ answered rs ∨ i ∈ silent rs.
Proof using.
  rewrite elem_of_answered, elem_of_silent. intros ([j r] & -> & Hin)%list_elem_of_fmap. simpl.
  destruct (happened r) eqn:E; eauto.
Qed.

(** Ending a round: the silent peers leave for good. *)
Lemma remove_failed_ok R P s rs :
  round_ok U R P s → (∀ i, i ∈ P → i ∈ rs.*1) →
  crawl_ok U (R ∪ answered rs) (remove_failed s (silent rs)).
Proof using.
  intros [Hwf Hids Hcon Huni Hpiv Hsz] HP.
  destruct (remove_frame (nearest s) (silent rs)) as (Hc & Hn & Hm).
  split; simpl; [by apply NodeHeap.wf_remove| | |by rewrite Hc|congruence|congruence].
  - intros i [Hi Hns]%remove_ids; [|done]. apply Hids in Hi as [HU Hf]. split; [done|].
    rewrite elem_of_union, elem_of_list_to_set. tauto.
  - rewrite Hc. intros i Hi. apply Hcon in Hi.
    apply elem_of_union in Hi as [[Hi|Hi]%elem_of_union|Hi]; [set_solver|set_solver|].
    apply HP, answered_or_silent in Hi as [Hi|Hi]; [set_solver|].
    apply elem_of_union. right. apply elem_of_union. right. by apply elem_of_list_to_set.
Qed.

Lemma ask_spec (rpc : W → Node → Node → W * RawResponse) w target peers w' rs :
  ask rpc w target peers = (w', rs) →
  rs.*1 = id <$> peers ∧
  (∀ i r, (i, r) ∈ rs → ∃ p w0, p ∈ peers ∧ id p = i ∧ r = (rpc w0 p target).2).
Proof using.
  revert w w' rs. induction peers as [|p ps IH]; intros w w' rs; simpl.
  { intros [= <- <-]. split; [done|]. intros i r []%not_elem_of_nil. }
  destruct (rpc w p target) as [w1 r] eqn:Er. destruct (ask rpc w1 target ps) as [w2 rs'] eqn:Ea.
  intros [= <- <-]. apply IH in Ea as [Hids Hin]. split; [csimpl; by rewrite Hids|].
  intros i r' [[= -> ->]|Hr]%elem_of_cons.
  - exists p, w. rewrite Er. split; [by left|done].
  - destruct (Hin i r' Hr) as (q & w0 & Hq & ? & ?). exists q, w0. split; [by right|done].
Qed.

Lemma ask_reports (rpc : W → Node → Node → W * RawResponse) w target peers w' rs :
  (∀ w p tgt, reports_in (rpc w p tgt).2) → ask rpc w target peers = (w', rs) →
  Forall (λ r, reports_in r.2) rs.
Proof using.
  intros Hrep Ha. apply ask_spec in Ha as [_ Ha]. apply Forall_forall. intros [i r] Hr.
  destruct (Ha i r Hr) as (p & w0 & _ & _ & ->). apply Hrep.
Qed.

(** One round of asking, for every lookup. *)
Lemma round_frame (rpc : W → Node → Node → W * RawResponse) R w s limit w1 s1 rs :
  crawl_ok U R s → find_round_limited w s limit rpc = (w1, s1, rs) →
  round_ok U R (list_to_set rs.*1) s1 ∧
  NodeHeap.contacted (nearest s1) = list_to_set rs.*1 ∪ NodeHeap.contacted (nearest s) ∧
  (∀ i, i ∈ rs.*1 → i ∈ NodeHeap.get_ids (nearest s) ∧ i ∉ NodeHeap.contacted (nearest s)) ∧
  NoDup rs.*1 ∧
  NodeHeap.get_ids (nearest s1) = NodeHeap.get_ids (nearest s) ∧
  last_ids_crawled s1 = NodeHeap.get_ids (nearest s).
Proof using.
  intros Hok. unfold find_round_limited.
  destruct (next_peers s limit) as [peers s'] eqn:Hn.
  destruct (ask rpc w (node s') peers) as [w' rs0] eqn:Ha. intros [= <- <- <-].
  destruct (next_peers_ok U R s limit peers s' Hok Hn) as (Hr & Hc & Hids & Hlast & _ & Hin & Hnd).
  apply ask_spec in Ha as [Hids' _].
  assert ((hash_order rs0).*1 ≡ₚ id <$> peers) as Hp by (by rewrite (hash_order_perm rs0), Hids').
  assert (list_to_set (hash_order rs0).*1 = list_to_set (C := gset ident) (id <$> peers)) as Es
    by (apply list_to_set_perm_L, Hp).
  rewrite Es. split; [done|]. split; [done|].
  split; [|split; [by rewrite Hp|done]]. intros i Hi. rewrite Hp in Hi. by apply Hin.
Qed.

Lemma round_spec (rpc : W → Node → Node → W * RawResponse) R w s limit w1 s1 rs :
  (∀ w p tgt, reports_in (rpc w p tgt).2) → crawl_ok U R s →
  find_round_limited w s limit rpc = (w1, s1, rs) →
  round_ok U R (list_to_set rs.*1) s1 ∧ Forall (λ r, reports_in r.2) rs ∧
  NodeHeap.contacted (nearest s1) = list_to_set rs.*1 ∪ NodeHeap.contacted (nearest s) ∧
  (∀ i, i ∈ rs.*1 → i ∈ NodeHeap.get_ids (nearest s) ∧ i ∉ NodeHeap.contacted (nearest s)) ∧
  NoDup rs.*1 ∧
  NodeHeap.get_ids (nearest s1) = NodeHeap.get_ids (nearest s) ∧
  last_ids_crawled s1 = NodeHeap.get_ids (nearest s).
Proof using.
  intros Hrep Hok Hr. destruct (round_frame rpc R w s limit w1 s1 rs Hok Hr) as [Hro Hrest].
  split; [done|]. split; [|done]. revert Hr. unfold find_round_limited.
  destruct (next_peers s limit) as [peers s']. destruct (ask rpc w (node s') peers) as [w' rs0] eqn:Ha.
  intros [= _ _ <-]. rewrite (hash_order_perm rs0). by eapply ask_reports.
Qed.

(** ** The node lookup *)

Lemma fold_responses_ok R P w s rs to_remove s2 l2 :
  round_ok U R P s → Forall (λ r, reports_in r.2) rs →
  foldl (NodeSpiderCrawl.handle_response w) (s, to_remove) rs = (s2, l2) →
  round_ok U R P s2 ∧ l2 = to_remove ++ silent rs ∧
  NodeHeap.contacted (nearest s2) = NodeHeap.contacted (nearest s) ∧
  last_ids_crawled s2 = last_ids_crawled s ∧ (rs = [] → s2 = s).
Proof using.
  revert s to_remove. induction rs as [|[i r] rs IH]; intros s to_remove Hr Hrep; simpl.
  { intros [= <- <-]. rewrite app_nil_r. done. }
  apply Forall_cons in Hrep as [Hi Hrep]. simpl in Hi.
  unfold NodeSpiderCrawl.handle_response at 2. cbn [fst snd].
  destruct (happened r) eqn:Hh; cbn [negb]; intros Hf.
  - destruct (add_reported_frame w s (get_node_list r)) as (Hc & _ & _ & Hl).
    apply IH in Hf as (Hr2 & -> & Hc2 & Hl2 & _); [|by apply add_reported_ok|done].
    rewrite Hc in Hc2. rewrite Hl in Hl2.
    unfold silent. rewrite filter_cons_False by (simpl; congruence). done.
  - apply IH in Hf as (Hr2 & -> & Hc2 & Hl2 & _); [|done|done].
    unfold silent. rewrite filter_cons_True by done. simpl. by rewrite <-(assoc_L (++)).
Qed.

Context (Hrep : ∀ w p tgt, reports_in (call_find_node w p tgt).2).

(** The responses of one turn of the lookup. *)
Definition step_responses (w : W) (s : t) : list (ident * RawResponse) :=
  (find_round w s call_find_node).2.

Lemma find_step_ok R w s :
  crawl_ok U R s →
  let s' := (NodeSpiderCrawl.find_step w s).2 in
  let rs := step_responses w s in
  crawl_ok U (R ∪ answered rs) s' ∧
  NodeHeap.contacted (nearest s') = list_to_set rs.*1 ∪ NodeHeap.contacted (nearest s) ∧
  (∀ i, i ∈ rs.*1 → i ∈ NodeHeap.get_ids (nearest s) ∧ i ∉ NodeHeap.contacted (nearest s)) ∧
  last_ids_crawled s' = NodeHeap.get_ids (nearest s) ∧
  (rs = [] → NodeHeap.get_ids (nearest s') = NodeHeap.get_ids (nearest s)).
Proof using Hrep.
  intros Hok. unfold step_responses, NodeSpiderCrawl.find_step, find_round.
  destruct (find_round_limited w s USIZE_MAX call_find_node) as [[w1 s1] rs] eqn:Hr.
  destruct (round_spec call_find_node R w s _ w1 s1 rs Hrep Hok Hr)
    as (Hro & Hreps & Hc & Hfresh & Hnd & Hids & Hlast).
  destruct (foldl (NodeSpiderCrawl.handle_response w1) (s1, []) rs) as [s2 l2] eqn:Hf.
  destruct (fold_responses_ok R _ w1 s1 rs [] s2 l2 Hro Hreps Hf) as (Hro2 & -> & Hc2 & Hl2 & Hnil).
  cbn [fst snd app]. split; [|split; [|split; [done|split]]].
  - eapply remove_failed_ok; [exact Hro2|]. intros i. by rewrite elem_of_list_to_set.
  - simpl. destruct (remove_frame (nearest s2) (silent rs)) as (-> & _). by rewrite Hc2, Hc.
  - simpl. by rewrite Hl2, Hlast.
  - intros ->. rewrite (Hnil eq_refl). simpl. done.
Qed.

Lemma find_step_frame w s :
  node (NodeSpiderCrawl.find_step w s).2 = node s ∧ ksize (NodeSpiderCrawl.find_step w s).2 = ksize s.
Proof using.
  unfold NodeSpiderCrawl.find_step, find_round, find_round_limited, next_peers.
  destruct (ask _ _ _ _) as [w' rs0]. generalize (hash_order rs0). intros rs.
  match goal with |- context [foldl _ (?s1, []) rs] => set (s1' := s1) end.
  assert (node s1' = node s ∧ ksize s1' = ksize s) as [<- <-] by done. clearbody s1'.
  generalize (@nil ident). revert s1'. induction rs as [|[i r] rs IH]; intros s1 l; [done|].
  cbn [foldl]. unfold NodeSpiderCrawl.handle_response at 2 4. cbn [fst snd].
  destruct (negb (happened r)); [apply IH|].
  destruct (IH (add_reported w' s1 (get_node_list r)) l) as [-> ->]. done.
Qed.

(** Rounds left: at most two per id not yet contacted. *)
Definition measure (s : t) : nat :=
  2 * (size U - size (NodeHeap.contacted (nearest s))) +
  (if bool_decide (NodeHeap.get_ids (nearest s) = last_ids_crawled s) then 0 else 1).

Lemma converged_asks s limit :
  NodeHeap.get_ids (nearest s) = last_ids_crawled s → NodeHeap.have_contacted_all (nearest s) = false →
  (0 < limit)%Z → (next_peers s limit).1 ≠ [].
Proof using.
  intros Hids Hall Hlim. unfold next_peers. cbn [fst]. rewrite bool_decide_eq_true_2 by done.
  rewrite orb_true_r. unfold NodeHeap.have_contacted_all in Hall.
  destruct (NodeHeap.get_uncontacted (nearest s)) as [|n l] eqn:E; [done|].
  assert (0 < NodeHeap.len (nearest s)) as Hlen.
  { assert (n ∈ NodeHeap.iter (nearest s)) as Hin.
    { assert (n ∈ NodeHeap.get_uncontacted (nearest s)) as Hn by (rewrite E; by left).
      by apply list_elem_of_filter in Hn as [_ ?]. }
    destruct (Nat.eq_0_gt_0_cases (NodeHeap.len (nearest s))) as [Hz|]; [|done].
    unfold NodeHeap.iter, NodeHeap.len in *.
    rewrite (nil_length_inv (take _ _)) in Hin; [by apply not_elem_of_nil in Hin|].
    rewrite length_take. lia. }
  destruct (Z.to_nat (Z.min (Z.of_nat (NodeHeap.len (nearest s))) limit)) eqn:Ec; [lia|done].
Qed.

(** Every round of every lookup makes progress. *)
Lemma measure_round R' s s' limit :
  NodeHeap.have_contacted_all (nearest s) = false → (0 < limit)%Z → crawl_ok U R' s' →
  let peers := (next_peers s limit).1 in
  NodeHeap.contacted (nearest s') = list_to_set (id <$> peers) ∪ NodeHeap.contacted (nearest s) →
  last_ids_crawled s' = NodeHeap.get_ids (nearest s) →
  (peers = [] → NodeHeap.get_ids (nearest s') = NodeHeap.get_ids (nearest s)) →
  measure s' < measure s.
Proof using.
  clear Hrep. intros Hall Hlim Hok' peers Hc Hlast Hnil. unfold measure.
  pose proof (subseteq_size _ _ (co_universe _ _ _ Hok')) as Hle.
  assert (∀ p, p ∈ peers → id p ∉ NodeHeap.contacted (nearest s)) as Hfresh.
  { intros p Hp. apply elem_of_take_incl in Hp. by apply uncontacted_elem in Hp as [_ ?]. }
  destruct peers as [|p ps] eqn:Ep.
  - assert (NodeHeap.contacted (nearest s') = NodeHeap.contacted (nearest s)) as ->
      by (rewrite Hc; set_solver).
    rewrite (Hnil eq_refl), Hlast, (bool_decide_eq_true_2 (_ = _)) by done.
    rewrite (bool_decide_eq_false_2 (NodeHeap.get_ids (nearest s) = last_ids_crawled s)); [lia|].
    intros Hconv. by apply (converged_asks s limit Hconv Hall Hlim).
  - assert (size (NodeHeap.contacted (nearest s)) < size (NodeHeap.contacted (nearest s'))) as Hlt.
    { apply subset_size. rewrite Hc. split; [set_solver|]. intros Hsub.
      apply (Hfresh p); [by left|]. apply Hsub. csimpl. set_solver. }
    repeat case_bool_decide; lia.
Qed.

(** The ids asked in a round are those of its responses. *)
Lemma round_peers (rpc : W → Node → Node → W * RawResponse) w s limit w1 s1 rs :
  find_round_limited w s limit rpc = (w1, s1, rs) → rs.*1 ≡ₚ id <$> (next_peers s limit).1.
Proof using.
  unfold find_round_limited. destruct (next_peers s limit) as [peers s'] eqn:Hn.
  destruct (ask rpc w (node s') peers) as [w' rs0] eqn:Ha. intros [= <- <- <-].
  apply ask_spec in Ha as [Hids _]. by rewrite (hash_order_perm rs0), Hids.
Qed.

Lemma measure_step R w s :
  crawl_ok U R s → NodeHeap.have_contacted_all (nearest s) = false →
  measure (NodeSpiderCrawl.find_step w s).2 < measure s.
Proof using Hrep.
  intros Hok Hall. destruct (find_step_ok R w s Hok) as (Hok' & Hc & _ & Hlast & Hnil).
  assert ((step_responses w s).*1 ≡ₚ id <$> (next_peers s USIZE_MAX).1) as Hp.
  { unfold step_responses, find_round.
    destruct (find_round_limited w s USIZE_MAX call_find_node) as [[w1 s1] rs] eqn:Hr.
    by eapply round_peers. }
  apply (measure_round _ s _ USIZE_MAX Hall ltac:(done) Hok').
  - rewrite Hc. f_equal. by apply list_to_set_perm_L.
  - done.
  - intros E. apply Hnil. rewrite E in Hp. by apply Permutation_nil_r, fmap_nil_inv in Hp.
Qed.

Lemma step_contacted R w s :
  crawl_ok U R s → NodeHeap.have_contacted_all (nearest s) = true →
  NodeHeap.have_contacted_all (nearest (NodeSpiderCrawl.find_step w s).2) = true.
Proof using Hrep.
  intros Hok Hall. destruct (find_step_ok R w s Hok) as (_ & Hc & Hfresh & _ & Hnil).
  rewrite have_contacted_all_iff in Hall |- *.
  assert (step_responses w s = []) as E.
  { destruct (step_responses w s) as [|r rs]; [done|]. destruct (Hfresh r.1) as [Hi Hn]; [by left|].
    by apply Hall in Hi. }
  rewrite (Hnil E), Hc. intros i Hi. apply elem_of_union. right. by apply Hall.
Qed.

(** Every response of a lookup, in order. *)
Fixpoint lookup_log (fuel : nat) (w : W) (s : t) : list (ident * RawResponse) :=
  match fuel with
  | O => []
  | S fuel' =>
      step_responses w s ++
      (let '(w', s') := NodeSpiderCrawl.find_step w s in
       if NodeHeap.have_contacted_all (nearest s') then [] else lookup_log fuel' w' s')
  end.

(** What a lookup for [target] returns, given the peers that answered it. *)
Record lookup_result (target : Node) (k : nat) (R : gset ident) (l : list Node) : Prop := {
  lr_sorted : StronglySorted (key_lt (λ n, distance_to target n)) l;
  lr_size : length l ≤ k;
  lr_answered : ∀ n, n ∈ l → id n ∈ R
}.

Lemma lookup_result_of R s :
  crawl_ok U R s → NodeHeap.have_contacted_all (nearest s) = true →
  lookup_result (node s) (ksize s) R (nodes (lookup_nodes s)).
Proof using All.
  intros [Hwf Hids Hcon Huni Hpiv Hsz] Hall. unfold lookup_nodes. simpl. unfold NodeHeap.to_vec.
  split.
  - rewrite NodeHeap.wf_iter by done. destruct Hwf as [[Hd _] Hs _].
    eapply StronglySorted_fmap_in; [|exact Hs]. intros a b Ha Hb. unfold key_lt.
    rewrite Forall_forall in Hd. rewrite (Hd a Ha), (Hd b Hb), Hpiv. done.
  - rewrite NodeHeap.wf_iter, length_fmap by done. rewrite <-Hsz. apply Hwf.
  - intros n Hn. assert (id n ∈ NodeHeap.get_ids (nearest s)) as Hi by (by apply list_elem_of_fmap_2).
    rewrite have_contacted_all_iff in Hall. pose proof (Hcon _ (Hall _ Hi)) as Hr.
    apply Hids in Hi as [_ Hf]. set_solver.
Qed.

Lemma find_lookup_nodes_spec fuel w s R :
  crawl_ok U R s → measure s < fuel →
  ∃ w' l, NodeSpiderCrawl.find_lookup_nodes fuel w s = Some (w', l) ∧
    lookup_result (node s) (ksize s) (R ∪ answered (lookup_log fuel w s)) (nodes l).
Proof using Hrep.
  revert w s R. induction fuel as [|fuel IH]; intros w s R Hok Hm; [lia|].
  cbn [NodeSpiderCrawl.find_lookup_nodes lookup_log].
  destruct (find_step_ok R w s Hok) as (Hok' & Hc & _).
  destruct (find_step_frame w s) as [Hn Hk]. pose proof (measure_step R w s Hok) as Hdec.
  pose proof (step_contacted R w s Hok) as Hall.
  destruct (NodeSpiderCrawl.find_step w s) as [w1 s1]. cbn [fst snd] in *. rewrite <-Hn, <-Hk.
  destruct (NodeHeap.have_contacted_all (nearest s1)) eqn:E1.
  - exists w1, (lookup_nodes s1). split; [done|]. rewrite app_nil_r. by apply lookup_result_of.
  - destruct (NodeHeap.have_contacted_all (nearest s)) eqn:E0; [by specialize (Hall eq_refl)|].
    specialize (Hdec eq_refl).
    destruct (IH w1 s1 _ Hok' ltac:(lia)) as (w' & l & Hl & Hres). exists w', l. split; [done|].
    assert (answered (step_responses w s ++ lookup_log fuel w1 s1) =
      answered (step_responses w s) ∪ answered (lookup_log fuel w1 s1)) as ->.
    { unfold answered. by rewrite filter_app, fmap_app, list_to_set_app_L. }
    by rewrite (assoc_L (∪)).
Qed.

End lookup.

(** ** Theorem on the node lookup *)

(** C27: a node lookup ends, after at most two rounds per id that any peer
    reports, whatever the peers answer and in whatever order their answers are
    handled; it returns at most [ksize] nodes, in strictly ascending distance
    of the target, and every one of them answered this lookup. *)
Theorem node_lookup_spec `{SpiderProtocol W, HashOrder} (U : gset ident) (n : Node)
    (peers : list Node) (k a : nat) (w : W) (fuel : nat)
    (Hrep : ∀ w p tgt, reports_in U (call_find_node w p tgt).2)
    (Hpeers : ∀ p, p ∈ peers → id p ∈ U) (Hfuel : 2 * size U + 1 < fuel) :
  ∃ w' l, NodeSpiderCrawl.find_lookup_nodes fuel w (new n peers k a) = Some (w', l) ∧
    lookup_result n k (answered (lookup_log fuel w (new n peers k a))) (nodes l).
Proof.
  pose proof (crawl_ok_new U n peers k a Hpeers) as Hok.
  destruct (find_lookup_nodes_spec U Hrep fuel w _ ∅ Hok) as (w' & l & Hl & Hres).
  { unfold measure. case_bool_decide; lia. }
  exists w', l. split; [done|]. by rewrite union_empty_l_L in Hres.
Qed.

(** A network of three peers: the first reports the other two, of which one
    never answers. *)
Module LookupExample.

Definition ex_id (b : byte) : ident := ident_ends b x01.
Definition ex_tuple (b : byte) : bytes * option string * option Z :=
  (ident_bytes (ex_id b), Some "10.0.0.1"%string, Some 4000%Z).

#[local] Instance ex_protocol : SpiderProtocol nat := {|
  call_find_node w p _ :=
    (S w, if bool_decide (id p = ex_id x10) then mkRaw true (PNodes [ex_tuple x20; ex_tuple x30])
          else if bool_decide (id p = ex_id x20) then mkRaw true (PNodes [ex_tuple x10])
          else mkRaw false PEmpty);
  call_find_value w p _ := (w, mkRaw false PEmpty);
  call_store w _ _ _ := (w, false);
  failing_among _ _ := ∅;
  note_no_answer w _ := w
|}.

#[local] Program Instance ex_order : HashOrder := {| hash_order A l := reverse l |}.
Next Obligation. intros A l. apply reverse_Permutation. Qed.

Definition ex_universe : gset ident := {[ex_id x10; ex_id x20; ex_id x30]}.
Definition ex_peer (b : byte) : Node := Node_new (ex_id b) (Some "10.0.0.1"%string) (Some 4000%Z).
Definition ex_target : Node := Node_from_id (ex_id x00).

Lemma lx_reports w p tgt : reports_in ex_universe (call_find_node w p tgt).2.
Proof.
  intros n Hn. simpl in Hn. unfold ex_universe.
  case_bool_decide; [|case_bool_decide]; simpl in Hn;
    repeat (apply elem_of_cons in Hn as [->|Hn]; [apply (bool_decide_unpack _); exact I|]);
    by apply not_elem_of_nil in Hn.
Qed.

Lemma node_lookup_spec_witness :
  ∃ w' l, NodeSpiderCrawl.find_lookup_nodes 8 0 (new ex_target [ex_peer x10] 2 1) = Some (w', l) ∧
    lookup_result ex_target 2 (answered (lookup_log 8 0 (new ex_target [ex_peer x10] 2 1))) (nodes l).
Proof.
  apply (node_lookup_spec ex_universe ex_target [ex_peer x10] 2 1 0 8).
  - exact lx_reports.
  - intros p ->%list_elem_of_singleton. apply (bool_decide_unpack _). exact I.
  - vm_compute. lia.
Defined.

Example ex_lookup :
  (λ r, id <$> nodes r.2) <$> NodeSpiderCrawl.find_lookup_nodes 8 0 (new ex_target [ex_peer x10] 2 1) =
  Some [ex_id x10; ex_id x20].
Proof. vm_compute. reflexivity. Qed.

End LookupExample.
