(* ===== verification/SearchProps.v ===== *)
(** * What a value search promises (src/src/crawling.rs, [search], [find_quorum])

    A search ends; it finds a value only if a peer it asked answered with one
    the caller approves; it reports that there is none only when every peer it
    asked answered and none had one. *)

From S2P Require Import Prelude Utils Node Crawling QuorumProps CrawlProps.

Import SpiderCrawl.
Import ValueSpiderCrawl.

Section search.
Context `{SpiderProtocol W, HashOrder} (U : gset ident).
Context (rpc : W → Node → Node → W * RawResponse) (accept : W → bytes → W * option bytes).

(** An answer whose value, if any, the caller rejects. *)
Definition unapproved (r : RawResponse) : Prop :=
  ∀ x, get_value r = Some x → ∃ w, (accept w x).2 = None.

Lemma collect_found w s tr inc rs w2 s2 v :
  collect w accept s tr inc rs = (w2, inl (s2, v)) →
  ∃ i r x, (i, r) ∈ rs ∧ happened r = true ∧ get_value r = Some x ∧ ∃ w0, (accept w0 x).2 = Some v.
Proof using.
  revert w s tr inc. induction rs as [|[i r] rs IH]; intros w s tr inc; simpl; [done|].
  destruct (happened r) eqn:Hh; simpl.
  - destruct (get_value r) as [x|] eqn:Hx.
    + destruct (accept w x) as [w' [y|]] eqn:Hy; [|intros Hc].
      * intros [= <- <- <-]. exists i, r, x. split; [by left|]. split; [done|]. split; [done|].
        exists w. by rewrite Hy.
      * destruct (IH _ _ _ _ Hc) as (j & q & z & ? & ?). exists j, q, z. split; [by right|done].
    + intros Hc. destruct (IH _ _ _ _ Hc) as (j & q & z & ? & ?). exists j, q, z. split; [by right|done].
  - intros Hc. destruct (IH _ _ _ _ Hc) as (j & q & z & ? & ?). exists j, q, z. split; [by right|done].
Qed.

Lemma collect_rest R P w s tr inc rs w2 s2 tr2 inc2 :
  round_ok U R P s → Forall (λ r, reports_in U r.2) rs →
  collect w accept s tr inc rs = (w2, inr (s2, tr2, inc2)) →
  round_ok U R P s2 ∧ tr2 = tr ++ silent rs ∧
  NodeHeap.contacted (nearest s2) = NodeHeap.contacted (nearest s) ∧
  last_ids_crawled s2 = last_ids_crawled s ∧ ask_everyone s2 = ask_everyone s ∧ (rs = [] → s2 = s) ∧
  (inc2 = false → inc = false ∧ Forall (λ r, happened r.2 = true ∧ unapproved r.2) rs).
Proof using.
  revert w s tr inc. induction rs as [|[i r] rs IH]; intros w s tr inc Hr Hrep; simpl.
  { intros [= <- <- <- <-]. rewrite app_nil_r. done. }
  apply Forall_cons in Hrep as [Hi Hrep]. simpl in Hi.
  destruct (happened r) eqn:Hh; simpl.
  - unfold silent. rewrite filter_cons_False by (simpl; congruence). fold (silent rs).
    destruct (get_value r) as [x|] eqn:Hx.
    + destruct (accept w x) as [w' [y|]] eqn:Hy; [done|].
      intros (Hr2 & -> & Hc & Hl & Ha & Hnil & Hinc)%IH; [|done|done].
      split; [done|]. split; [done|]. split; [done|]. split; [done|]. split; [done|]. split; [done|].
      intros E. apply Hinc in E as [-> Hall]. split; [done|]. constructor; [|done].
      split; [done|]. intros z. simpl. rewrite Hx. intros [= <-]. exists w. by rewrite Hy.
    + destruct (add_reported_frame w s (get_node_list r)) as (Hc0 & _ & _ & Hl0).
      intros (Hr2 & -> & Hc & Hl & Ha & _ & Hinc)%IH; [|by apply add_reported_ok|done].
      rewrite Hc0 in Hc. rewrite Hl0 in Hl.
      split; [done|]. split; [done|]. split; [done|]. split; [done|]. split; [done|]. split; [done|].
      intros E. apply Hinc in E as [-> Hall]. split; [done|]. constructor; [|done].
      split; [done|]. intros z. simpl. by rewrite Hx.
  - unfold silent. rewrite filter_cons_True by done. fold (silent rs). csimpl.
    intros (Hr2 & -> & Hc & Hl & Ha & _ & Hinc)%IH; [|done|done].
    rewrite <-(assoc_L (++)). split; [done|]. split; [done|]. split; [done|]. split; [done|].
    split; [done|]. split; [done|]. intros E. by apply Hinc in E as [].
Qed.

Context (Hrep : ∀ w p tgt, reports_in U (rpc w p tgt).2).
Context (env : nat → RoundEnv) (Henv : ∀ n l, env_order (env n) l ≡ₚ l).

(** The peers asked in each round of a search, with the answers it handled. *)
Fixpoint search_log (fuel : nat) (deadline : bool) (w : W) (s : SpiderCrawl.t) (incomplete : bool)
    : list (list Node * list (ident * RawResponse)) :=
  match fuel with
  | O => []
  | S fuel' =>
      if NodeHeap.have_contacted_all (nearest s) then []
      else
        let e := env fuel' in
        if deadline && env_late e then []
        else
          let '(peers, s1) := next_peers s USIZE_MAX in
          let '(w1, responses) := ask rpc w (node s1) peers in
          let arrivals := env_order e responses in
          let cut :=
            if deadline then n ← env_cut e; if n <? length arrivals then Some n else None
            else None in
          let answers := match cut with Some n => take n arrivals | None => arrivals end in
          (peers, answers) ::
          match collect w1 accept s1 [] incomplete answers with
          | (_, inl _) => []
          | (w2, inr (s2, to_remove, incomplete')) =>
              match cut with
              | Some _ => []
              | None => search_log fuel' deadline w2 (remove_failed s2 to_remove) incomplete'
              end
          end
  end.

(** A round in which every peer asked answered, none with an approved value. *)
Definition all_heard (round : list Node * list (ident * RawResponse)) : Prop :=
  round.2.*1 ≡ₚ id <$> round.1 ∧ Forall (λ r, happened r.2 = true ∧ unapproved r.2) round.2.

(** What the result of a search says about its rounds. *)
Definition search_means (log : list (list Node * list (ident * RawResponse))) (incomplete : bool)
    (s' : SpiderCrawl.t) (r : ValueSearch) : Prop :=
  match r with
  | Found v => ∃ round i a x, round ∈ log ∧ (i, a) ∈ round.2 ∧ happened a = true ∧
      get_value a = Some x ∧ ∃ w0, (accept w0 x).2 = Some v
  | NotFound => incomplete = false ∧ Forall all_heard log ∧
      ∀ i, i ∈ NodeHeap.get_ids (nearest s') → i ∈ NodeHeap.contacted (nearest s')
  | Incomplete => True
  end.

(** The state of a search after a round that was not cut short, whose answers
    report ids of [U]. *)
Lemma search_round_of R w s peers s1 w1 rs e inc w2 s2 tr inc' :
  crawl_ok U R s → NodeHeap.have_contacted_all (nearest s) = false →
  next_peers s USIZE_MAX = (peers, s1) → ask rpc w (node s1) peers = (w1, rs) →
  Forall (λ r, reports_in U r.2) rs →
  collect w1 accept s1 [] inc (env_order (env e) rs) = (w2, inr (s2, tr, inc')) →
  ∃ R', crawl_ok U R' (remove_failed s2 tr) ∧
    measure U (remove_failed s2 tr) < measure U s ∧
    (inc' = false → inc = false ∧ all_heard (peers, env_order (env e) rs)).
Proof using Henv.
  intros Hok Hall Hn Ha Hreps Hc.
  destruct (next_peers_ok U R s _ peers s1 Hok Hn) as (Hro & Hcon & Hids & Hlast & _ & Hin & Hnd).
  apply ask_spec in Ha as [Hrs _]. pose proof (Henv e rs) as Hp.
  rewrite <-Hp in Hreps.
  assert ((env_order (env e) rs).*1 ≡ₚ id <$> peers) as Hp1 by (by rewrite Hp, Hrs).
  destruct (collect_rest R _ w1 s1 [] inc _ w2 s2 tr inc' Hro Hreps Hc)
    as (Hro2 & -> & Hcon2 & Hlast2 & _ & Hnil & Hinc).
  exists (R ∪ answered (env_order (env e) rs)). cbn [app].
  assert (crawl_ok U (R ∪ answered (env_order (env e) rs))
    (remove_failed s2 (silent (env_order (env e) rs)))) as Hok'.
  { eapply remove_failed_ok; [exact Hro2|]. intros i. by rewrite elem_of_list_to_set, Hp1. }
  split; [done|]. split.
  - destruct (remove_frame (nearest s2) (silent (env_order (env e) rs))) as (Ec & _).
    apply (measure_round U _ s _ USIZE_MAX Hall ltac:(done) Hok'); rewrite ?Hn; cbn [fst].
    + simpl. by rewrite Ec, Hcon2, Hcon.
    + simpl. by rewrite Hlast2, Hlast.
    + intros ->. apply Permutation_nil_r, fmap_nil_inv in Hp1. rewrite Hp1 in *.
      by rewrite (Hnil eq_refl).
  - intros E. apply Hinc in E as [-> Hf]. split; [done|]. by split.
Qed.

(** The state of a search after a round that was not cut short. *)
Lemma search_round R w s peers s1 w1 rs e inc w2 s2 tr inc' :
  crawl_ok U R s → NodeHeap.have_contacted_all (nearest s) = false →
  next_peers s USIZE_MAX = (peers, s1) → ask rpc w (node s1) peers = (w1, rs) →
  collect w1 accept s1 [] inc (env_order (env e) rs) = (w2, inr (s2, tr, inc')) →
  ∃ R', crawl_ok U R' (remove_failed s2 tr) ∧
    measure U (remove_failed s2 tr) < measure U s ∧
    (inc' = false → inc = false ∧ all_heard (peers, env_order (env e) rs)).
Proof using Hrep Henv.
  intros Hok Hall Hn Ha. apply (search_round_of R w s); try done. by eapply ask_reports.
Qed.

Lemma search_terminates fuel deadline w s R inc :
  crawl_ok U R s → measure U s < fuel →
  ∃ w' s' r, search fuel env deadline rpc accept w s inc = Some (w', s', r).
Proof using Hrep Henv.
  revert w s R inc. induction fuel as [|fuel IH]; intros w s R inc Hok Hm; [lia|].
  cbn [search]. destruct (NodeHeap.have_contacted_all (nearest s)) eqn:Hall; [eauto|].
  destruct (deadline && env_late (env fuel)); [eauto|].
  destruct (next_peers s USIZE_MAX) as [peers s1] eqn:Hn.
  destruct (ask rpc w (node s1) peers) as [w1 rs] eqn:Ha.
  set (cut := if deadline then _ else None).
  destruct (collect w1 accept s1 [] inc _) as [w2 [[s2 v]|[[s2 tr] inc']]] eqn:Hc; [eauto|].
  destruct cut as [n|]; [eauto|].
  destruct (search_round R w s peers s1 w1 rs fuel inc w2 s2 tr inc' Hok Hall Hn Ha Hc)
    as (R' & Hok' & Hm' & _).
  apply (IH w2 _ R' inc' Hok'). lia.
Qed.

Lemma search_meaning fuel deadline w s R inc w' s' r :
  crawl_ok U R s → search fuel env deadline rpc accept w s inc = Some (w', s', r) →
  search_means (search_log fuel deadline w s inc) inc s' r.
Proof using Hrep Henv.
  revert w s R inc. induction fuel as [|fuel IH]; intros w s R inc Hok Hs; [done|].
  cbn [search search_log] in *. destruct (NodeHeap.have_contacted_all (nearest s)) eqn:Hall.
  { injection Hs as <- <- <-. destruct inc; simpl; [done|].
    split; [done|]. split; [done|]. by apply have_contacted_all_iff. }
  destruct (deadline && env_late (env fuel)); [by injection Hs as <- <- <-|].
  destruct (next_peers s USIZE_MAX) as [peers s1] eqn:Hn.
  destruct (ask rpc w (node s1) peers) as [w1 rs] eqn:Ha.
  set (cut := if deadline then _ else None) in *.
  destruct (collect w1 accept s1 [] inc _) as [w2 [[s2 v]|[[s2 tr] inc']]] eqn:Hc.
  { injection Hs as <- <- <-. apply collect_found in Hc as (i & a & x & Hin & ? & ? & ?).
    eexists _, i, a, x. split; [by left|]. done. }
  destruct cut as [n|]; [by injection Hs as <- <- <-|].
  destruct (search_round R w s peers s1 w1 rs fuel inc w2 s2 tr inc' Hok Hall Hn Ha Hc)
    as (R' & Hok' & _ & Hinc).
  specialize (IH w2 (remove_failed s2 tr) R' inc' Hok' Hs). destruct r as [v| |]; simpl in *; [|..|done].
  - destruct IH as (round & i & a & x & Hin & Hrest). exists round, i, a, x. split; [by right|done].
  - destruct IH as (-> & Hf & Hcon). destruct (Hinc eq_refl) as [-> Hheard]. split; [done|].
    split; [by constructor|done].
Qed.

(** A search whose last round starts after the deadline ends. *)
Lemma search_in_time fuel deadline w s inc :
  env_late (env 0) = true → deadline = true → fuel ≠ 0 →
  search fuel env deadline rpc accept w s inc ≠ None.
Proof using.
  intros Hlate Hd. revert w s inc. induction fuel as [|fuel IH]; intros w s inc Hf; [done|]. cbn [search].
  destruct (NodeHeap.have_contacted_all (nearest s)); [done|].
  destruct (deadline && env_late (env fuel)) eqn:El; [done|].
  destruct (next_peers s USIZE_MAX) as [peers s1]. destruct (ask rpc w (node s1) peers) as [w1 rs].
  set (cut := if deadline then _ else None). destruct (collect w1 accept s1 [] inc _) as [w2 [[]|[[s2 tr] inc']]]; [done|].
  destruct cut; [done|]. apply IH. intros ->. by rewrite Hlate, Hd in El.
Qed.

End search.

(** ** Theorems *)

Section theorems.
Context `{SpiderProtocol W, HashOrder}.

(** C12: a value search ends, after at most two rounds per id that any peer
    reports, whatever the order of the answers and wherever the deadline falls,
    and its outcome means what it says: [Found v] only if a peer answered with
    a value that the caller approved as [v]; [NotFound] only if every peer
    asked in every round answered, none with an approved value, and every peer
    of the final shortlist was asked. *)
Theorem search_sound (U : gset ident) (rpc : W → Node → Node → W * RawResponse)
    (accept : W → bytes → W * option bytes) (env : nat → RoundEnv) (deadline : bool)
    (n : Node) (peers : list Node) (k a : nat) (w : W) (fuel : nat)
    (Hrep : ∀ w p tgt, reports_in U (rpc w p tgt).2) (Henv : ∀ m l, env_order (env m) l ≡ₚ l)
    (Hpeers : ∀ p, p ∈ peers → id p ∈ U) (Hfuel : 2 * size U + 1 < fuel) :
  ∃ w' s' r,
    search fuel env deadline rpc accept w (base (ValueSpiderCrawl.new n peers k a)) false = Some (w', s', r) ∧
    search_means accept
      (search_log rpc accept env fuel deadline w (base (ValueSpiderCrawl.new n peers k a)) false) false s' r.
Proof.
  pose proof (crawl_ok_new U n peers k a Hpeers) as Hok.
  destruct (search_terminates U rpc accept Hrep env Henv fuel deadline w _ ∅ false Hok)
    as (w' & s' & r & Hs); [unfold measure; case_bool_decide; lia|].
  exists w', s', r. split; [done|]. by eapply (search_meaning U rpc accept Hrep env Henv).
Qed.

(** A search that reports that there is no value heard from everyone it asked,
    whichever ids the peers report. *)
Lemma not_found_heard (rpc : W → Node → Node → W * RawResponse)
    (accept : W → bytes → W * option bytes) (env : nat → RoundEnv) (deadline : bool) w w' s s' fuel R :
  (∀ m l, env_order (env m) l ≡ₚ l) → (∀ U, (∀ i, i ∈ U) → crawl_ok U R s) →
  search fuel env deadline rpc accept w s false = Some (w', s', NotFound) →
  Forall (all_heard accept) (search_log rpc accept env fuel deadline w s false).
Proof.
  intros Henv Hok Hs. destruct finitely_many_ids as [U HU].
  assert (∀ w p tgt, reports_in U (rpc w p tgt).2) as Hrep by (intros ???? _; apply HU).
  pose proof (search_meaning U rpc accept Hrep env Henv fuel deadline w s R false _ _ _ (Hok U HU) Hs) as Hm.
  apply Hm.
Qed.

(** The search of an empty replica ([asking_everyone]) asks the whole shortlist
    in its first round, unless it ends before it. *)
Lemma everyone_asked (rpc : W → Node → Node → W * RawResponse)
    (accept : W → bytes → W * option bytes) (env : nat → RoundEnv) (deadline : bool)
    (n : Node) (peers : list Node) (k a : nat) (w w' : W) (s' : SpiderCrawl.t) (fuel : nat)
    (Hk : (0 < Z.of_nat k ≤ USIZE_MAX)%Z) (Hpeers : peers ≠ [])
    (Hres : search fuel env deadline rpc accept w
      (base (asking_everyone (ValueSpiderCrawl.new n peers k a))) false = Some (w', s', NotFound)) :
  ∃ first rest, search_log rpc accept env fuel deadline w
      (base (asking_everyone (ValueSpiderCrawl.new n peers k a))) false = first :: rest ∧
    top_k (NodeHeap.id_distance n) k (elements (list_to_set (id <$> peers) : gset ident)) (id <$> first.1).
Proof.
  pose proof (NodeHeap.heap_wf_new n k) as Hwf0.
  pose proof (NodeHeap.push_keeps_closest (NodeHeap.new n k) peers Hwf0) as Htop.
  unfold NodeHeap.known_ids in Htop. rewrite (NodeHeap.wf_get_ids _ Hwf0) in Htop. cbn in Htop.
  rewrite union_empty_l_L in Htop. set (known := elements _) in *.
  set (s0 := base (asking_everyone (ValueSpiderCrawl.new n peers k a))) in *.
  change (NodeHeap.push _ peers) with (nearest s0) in Htop.
  assert (NodeHeap.contacted (nearest s0) = ∅) as Hnone by apply push_frame.
  assert (NodeHeap.get_uncontacted (nearest s0) = NodeHeap.iter (nearest s0)) as Hun.
  { unfold NodeHeap.get_uncontacted. apply list_filter_all, Forall_forall. intros x _.
    rewrite Hnone. set_solver. }
  assert (0 < length known) as Hknown.
  { destruct peers as [|p ps]; [done|]. assert (id p ∈ known) as Hp
      by (apply elem_of_elements, elem_of_list_to_set; by left). unfold known in *.
    destruct (elements _); [by apply not_elem_of_nil in Hp|simpl; lia]. }
  assert (length (NodeHeap.iter (nearest s0)) = k `min` length known) as Hlen.
  { rewrite <-(top_k_length _ _ _ _ Htop). unfold NodeHeap.get_ids. by rewrite length_fmap. }
  destruct fuel as [|fuel]; [done|]. cbn [search search_log] in Hres |- *.
  assert (NodeHeap.have_contacted_all (nearest s0) = false) as Hall.
  { unfold NodeHeap.have_contacted_all. rewrite Hun. destruct (NodeHeap.iter _); [simpl in Hlen; lia|done]. }
  rewrite Hall in Hres |- *. destruct (deadline && env_late (env fuel)) eqn:Hlate; [done|].
  assert ((next_peers s0 USIZE_MAX).1 = NodeHeap.iter (nearest s0)) as Hfirst.
  { assert (ask_everyone s0 = true) as Hev by done. unfold next_peers. rewrite Hev, Hun. cbn [orb fst].
    apply take_ge. unfold NodeHeap.len.
    assert (NodeHeap.maxsize (nearest s0) = k) as Em by apply NodeHeap.node_maxsize_push.
    unfold NodeHeap.iter in *. rewrite length_fmap, length_take in *. lia. }
  destruct (next_peers s0 USIZE_MAX) as [ps s1]. cbn [fst] in Hfirst. subst ps.
  destruct (ask rpc w (node s1) _) as [w1 rs]. eexists _, _. split; [reflexivity|]. exact Htop.
Qed.

End theorems.

(** ** Quorum reads *)

Section quorum.
Context `{SpiderProtocol W, HashOrder} (U : gset ident).
Context (Hrep : ∀ w p tgt, reports_in U (call_find_value w p tgt).2).

(** The votes among the responses of a round. *)
Definition vote_of (r : ident * RawResponse) : option (ident * bytes) :=
  if happened r.2 then pair r.1 <$> get_value r.2 else None.

Definition votes_in (rs : list (ident * RawResponse)) : list (ident * bytes) := omap vote_of rs.

Lemma votes_in_sublist rs : (votes_in rs).*1 `sublist_of` rs.*1.
Proof using.
  induction rs as [|[i r] rs IH]; [constructor|]. unfold votes_in. csimpl.
  unfold vote_of at 1. simpl. destruct (happened r); [|by constructor].
  destruct (get_value r); csimpl; by constructor.
Qed.

Lemma fold_votes_ok R P w s rs tr found s2 l2 found' :
  round_ok U R P s → Forall (λ r, reports_in U r.2) rs →
  foldl (handle_vote w) (s, tr, found) rs = (s2, l2, found') →
  round_ok U R P s2 ∧ l2 = tr ++ silent rs ∧ found' = found ++ (votes_in rs).*2 ∧
  NodeHeap.contacted (nearest s2) = NodeHeap.contacted (nearest s) ∧
  last_ids_crawled s2 = last_ids_crawled s ∧ node s2 = node s ∧ (rs = [] → s2 = s).
Proof using.
  revert s tr found. induction rs as [|[i r] rs IH]; intros s tr found Hr Hreps; simpl.
  { intros [= <- <- <-]. by rewrite !app_nil_r. }
  apply Forall_cons in Hreps as [Hi Hreps]. simpl in Hi.
  unfold votes_in, silent. csimpl. unfold vote_of at 1. cbn [fst snd].
  destruct (happened r) eqn:Hh; cbn [negb].
  - rewrite filter_cons_False by (simpl; congruence). fold (silent rs). destruct (get_value r) as [x|] eqn:Hx.
    + intros (Hr2 & -> & -> & Hc & Hl & Hno & _)%IH; [|done|done]. csimpl. by rewrite <-(assoc_L (++)).
    + destruct (add_reported_frame w s (get_node_list r)) as (Hc0 & _ & Hno0 & Hl0).
      intros (Hr2 & -> & -> & Hc & Hl & Hno & _)%IH; [|by apply add_reported_ok|done].
      rewrite Hc0 in Hc. rewrite Hl0 in Hl. done.
  - rewrite filter_cons_True by done. fold (silent rs). csimpl.
    intros (Hr2 & -> & -> & Hc & Hl & Hno & _)%IH; [|done|done]. by rewrite <-(assoc_L (++)).
Qed.

Lemma next_peers_limit s limit peers s1 :
  next_peers s limit = (peers, s1) → (0 ≤ limit)%Z →
  (Z.of_nat (length peers) ≤ limit)%Z ∧ node s1 = node s.
Proof using.
  unfold next_peers. intros [= <- <-] Hl. split; [|done]. rewrite length_take. lia.
Qed.

(** One round of a quorum read. *)
Lemma quorum_round R w s limit w1 s1 rs found s2 tr found' :
  crawl_ok U R s → NodeHeap.have_contacted_all (nearest s) = false → (0 < limit)%Z →
  find_round_limited w s limit call_find_value = (w1, s1, rs) →
  foldl (handle_vote w1) (s1, [], found) rs = (s2, tr, found') →
  ∃ R', crawl_ok U R' (remove_failed s2 tr) ∧ measure U (remove_failed s2 tr) < measure U s ∧
    found' = found ++ (votes_in rs).*2 ∧ rs.*1 ≡ₚ id <$> (next_peers s limit).1 ∧
    NoDup rs.*1 ∧ (Z.of_nat (length rs) ≤ limit)%Z ∧
    (∀ i, i ∈ rs.*1 → i ∉ NodeHeap.contacted (nearest s)) ∧
    NodeHeap.contacted (nearest s) ∪ list_to_set rs.*1 ⊆
      NodeHeap.contacted (nearest (remove_failed s2 tr)).
Proof using Hrep.
  intros Hok Hall Hlim Hr Hf.
  destruct (round_spec U call_find_value R w s limit w1 s1 rs Hrep Hok Hr)
    as (Hro & Hreps & Hcon & Hfresh & Hnd & Hids & Hlast).
  destruct (fold_votes_ok R _ w1 s1 rs [] found s2 tr found' Hro Hreps Hf)
    as (Hro2 & -> & -> & Hcon2 & Hlast2 & Hno2 & Hnil).
  pose proof (round_peers _ _ _ _ _ _ _ Hr) as Hpeers.
  destruct (next_peers s limit) as [peers s0] eqn:Hn. cbn [fst] in *.
  destruct (next_peers_limit s limit peers s0 Hn ltac:(lia)) as [Hlen _].
  exists (R ∪ answered rs). cbn [app].
  assert (crawl_ok U (R ∪ answered rs) (remove_failed s2 (silent rs))) as Hok'
    by (eapply remove_failed_ok; [exact Hro2|]; intros i; by rewrite elem_of_list_to_set).
  destruct (remove_frame (nearest s2) (silent rs)) as (Ec & _).
  split; [done|]. split; [|split; [done|split; [done|split; [done|split; [|split]]]]].
  - apply (measure_round U _ s _ limit Hall Hlim Hok'); rewrite ?Hn; cbn [fst]; simpl.
    + rewrite Ec, Hcon2, Hcon. f_equal. by apply list_to_set_perm_L.
    + by rewrite Hlast2, Hlast.
    + intros ->. apply Permutation_nil_r, fmap_nil_inv in Hpeers. rewrite Hpeers in *.
      by rewrite (Hnil eq_refl).
  - apply Permutation_length in Hpeers. rewrite !length_fmap in Hpeers. lia.
  - intros i Hi. by apply Hfresh.
  - simpl. rewrite Ec, Hcon2, Hcon. set_solver.
Qed.

(** The rounds of a quorum read, the peers asked in each with what each of them
    answered, and the crawl it ends with. *)
Fixpoint quorum_run (fuel : nat) (w : W) (s : SpiderCrawl.t) (found : list bytes) (m M : nat)
    : list (list Node * list (ident * RawResponse)) * SpiderCrawl.t :=
  match fuel with
  | O => ([], s)
  | S fuel' =>
      match strict_quorum_value found m with
      | Some _ => ([], s)
      | None =>
          let remaining := M - length found in
          if (remaining =? 0) || NodeHeap.have_contacted_all (nearest s) then ([], s)
          else
            let '(w1, s1, rs) := find_round_limited w s (Z.of_nat remaining) call_find_value in
            let '(s2, tr, found') := foldl (handle_vote w1) (s1, [], found) rs in
            let '(log, s') := quorum_run fuel' w1 (remove_failed s2 tr) found' m M in
            (((next_peers s (Z.of_nat remaining)).1, rs) :: log, s')
      end
  end.

(** What a quorum read returns, given the answers of its rounds: [votes] are
    the initial values and every value answered. *)
Definition quorum_means (initial : list bytes) (m M : nat) (answers : list (ident * RawResponse))
    (s' : SpiderCrawl.t) (r : option bytes) : Prop :=
  let all := initial ++ (votes_in answers).*2 in
  NoDup answers.*1 ∧ length all ≤ M `max` length initial ∧
  (∀ x, r = Some x ↔ m ≤ votes x all ∧ length all < 2 * votes x all) ∧
  (r = None → M ≤ length all ∨
     ∀ i, i ∈ NodeHeap.get_ids (nearest s') → i ∈ NodeHeap.contacted (nearest s')).

Definition round_asked (round : list Node * list (ident * RawResponse)) : Prop :=
  round.2.*1 ≡ₚ id <$> round.1.

Lemma votes_in_app rs rs' : votes_in (rs ++ rs') = votes_in rs ++ votes_in rs'.
Proof using. apply omap_app. Qed.

Lemma votes_in_length rs : length (votes_in rs) ≤ length rs.
Proof using.
  pose proof (sublist_length _ _ (votes_in_sublist rs)) as Hl. by rewrite !length_fmap in Hl.
Qed.

Lemma quorum_loop_spec fuel w s R initial past m M :
  crawl_ok U R s → measure U s < fuel → NoDup past.*1 →
  (∀ i, i ∈ past.*1 → i ∈ NodeHeap.contacted (nearest s)) →
  length (initial ++ (votes_in past).*2) ≤ M `max` length initial →
  ∃ w' r, quorum_loop fuel w s (initial ++ (votes_in past).*2) m M = Some (w', r) ∧
    let '(log, s') := quorum_run fuel w s (initial ++ (votes_in past).*2) m M in
    Forall round_asked log ∧ quorum_means initial m M (past ++ concat log.*2) s' r.
Proof using Hrep.
  revert w s R past. induction fuel as [|fuel IH]; intros w s R past Hok Hm Hnd Hsub Hlen; [lia|].
  cbn [quorum_loop quorum_run]. set (all := initial ++ _) in *.
  destruct (strict_quorum_value all m) as [x|] eqn:Hq; pose proof (proj1 (strict_quorum_spec all m)) as Hspec.
  { exists w, (Some x). split; [done|]. split; [constructor|]. csimpl. rewrite app_nil_r. unfold quorum_means. fold all. split; [done|].
    split; [done|]. split; [|done]. intros y. rewrite <-Hspec, Hq. done. }
  destruct (_ || _) eqn:Hstop.
  { exists w, None. split; [done|]. split; [constructor|]. csimpl. rewrite app_nil_r. unfold quorum_means. fold all. split; [done|].
    split; [done|]. split; [intros y; by rewrite <-Hspec, Hq|]. intros _.
    apply orb_true_iff in Hstop as [Hr|Hc]; [left; bool_facts; unfold all in *; lia|right].
    by apply have_contacted_all_iff. }
  bool_facts. set (limit := Z.of_nat (M - length all)) in *.
  destruct (find_round_limited w s limit call_find_value) as [[w1 s1] rs] eqn:Hr.
  destruct (foldl (handle_vote w1) (s1, [], all) rs) as [[s2 tr] found'] eqn:Hf.
  destruct (quorum_round R w s limit w1 s1 rs _ s2 tr found' Hok ltac:(done) ltac:(unfold limit; lia) Hr Hf)
    as (R' & Hok' & Hm' & -> & Hasked & Hnd' & Hlim & Hnew & Hcon).
  unfold all. rewrite <-(assoc_L (++)), <-fmap_app, <-votes_in_app.
  destruct (IH w1 (remove_failed s2 tr) R' (past ++ rs)) as (w' & r & Hl & Hrun); [done|lia|..].
  - rewrite fmap_app. apply NoDup_app. split; [done|]. split; [|done].
    intros i Hi Hi'. by apply (Hnew i Hi'), Hsub.
  - intros i. rewrite fmap_app, elem_of_app. intros [Hi|Hi]; apply Hcon, elem_of_union.
    + left. by apply Hsub.
    + right. by apply elem_of_list_to_set.
  - rewrite votes_in_app, fmap_app, (assoc_L (++)), length_app, length_fmap. fold all.
    pose proof (votes_in_length rs). unfold limit in Hlim. lia.
  - exists w', r. split; [done|]. destruct (quorum_run fuel _ _ _ _ _) as [log s'].
    destruct Hrun as [Hasks Hmeans]. split; [by constructor|]. csimpl. by rewrite (assoc_L (++)).
Qed.

End quorum.

(** C38: a quorum read ends, and its result is decided by all the votes of this
    read, the initial values and every value that a peer asked in one of its
    rounds answered with: it returns [x] exactly when [x] has at least
    [minimum_votes] of these votes and more than half of them. No peer votes
    twice, peers that only report closer nodes do not vote, there are at most
    [maximum_votes] votes, and the read gives up only when it has that many or
    has asked every peer of its shortlist. *)
Theorem quorum_read_spec `{SpiderProtocol W, HashOrder} (U : gset ident) (n : Node)
    (peers : list Node) (k a : nat) (initial : list bytes) (minimum_votes maximum_votes : nat)
    (w : W) (fuel : nat)
    (Hrep : ∀ w p tgt, reports_in U (call_find_value w p tgt).2)
    (Hpeers : ∀ p, p ∈ peers → id p ∈ U) (Hfuel : 2 * size U + 1 < fuel) :
  let v := ValueSpiderCrawl.new n peers k a in
  let '(log, s') := quorum_run fuel w (base v) initial minimum_votes maximum_votes in
  Forall round_asked log ∧
  ∃ w' r, find_quorum fuel w v initial minimum_votes maximum_votes = Some (w', r) ∧
    quorum_means initial minimum_votes maximum_votes (concat log.*2) s' r.
Proof.
  pose proof (crawl_ok_new U n peers k a Hpeers) as Hok. unfold find_quorum. cbn zeta.
  destruct (quorum_loop_spec U Hrep fuel w _ ∅ initial [] minimum_votes maximum_votes Hok)
    as (w' & r & Hl & Hq).
  - unfold measure. case_bool_decide; lia.
  - constructor.
  - intros i []%not_elem_of_nil.
  - rewrite app_nil_r. lia.
  - rewrite app_nil_r in Hl, Hq. destruct (quorum_run _ _ _ _ _ _) as [log s'].
    destruct Hq as [Hasks Hq]. eauto.
Qed.

(** ** Value lookups *)

Section value_lookup.
Context `{SpiderProtocol W, HashOrder} (U : gset ident).
Context (Hrep : ∀ w p tgt, reports_in U (call_find_value w p tgt).2).

Lemma fold_values_ok R P w v rs tr found v2 l2 found' :
  round_ok U R P (base v) → Forall (λ r, reports_in U r.2) rs →
  foldl (ValueSpiderCrawl.handle_response w) (v, tr, found) rs = (v2, l2, found') →
  round_ok U R P (base v2) ∧ l2 = tr ++ silent rs ∧
  NodeHeap.contacted (nearest (base v2)) = NodeHeap.contacted (nearest (base v)) ∧
  last_ids_crawled (base v2) = last_ids_crawled (base v) ∧ (rs = [] → v2 = v).
Proof using.
  revert v tr found. induction rs as [|[i r] rs IH]; intros v tr found Hr Hreps; simpl.
  { intros [= <- <- <-]. by rewrite app_nil_r. }
  apply Forall_cons in Hreps as [Hi Hreps]. simpl in Hi. unfold silent.
  destruct (happened r) eqn:Hh; cbn [negb].
  - rewrite filter_cons_False by (simpl; congruence). fold (silent rs).
    destruct (has_value r).
    + destruct (get_value r); intros (? & -> & ? & ? & _)%IH; done.
    + set (ns := get_node_list r) in *. destruct (add_reported_frame w (base v) ns) as (Hc0 & _ & _ & Hl0).
      intros (Hr2 & -> & Hc & Hl & _)%IH; [|by apply add_reported_ok|done]. cbn [base] in Hc, Hl.
      rewrite Hc0 in Hc. rewrite Hl0 in Hl. done.
  - rewrite filter_cons_True by done. fold (silent rs). csimpl.
    intros (Hr2 & -> & Hc & Hl & _)%IH; [|done|done]. by rewrite <-(assoc_L (++)).
Qed.

(** A round of [find] that does not end it makes progress. *)
Lemma find_progress R w v w1 s1 rs v2 tr found :
  crawl_ok U R (base v) → find_round_limited w (base v) USIZE_MAX call_find_value = (w1, s1, rs) →
  Forall (λ r, reports_in U r.2) rs →
  foldl (ValueSpiderCrawl.handle_response w1) (mk s1 (nearest_without_value v), [], []) rs = (v2, tr, found) →
  NodeHeap.have_contacted_all (nearest (remove_failed (base v2) tr)) = false →
  ∃ R', crawl_ok U R' (remove_failed (base v2) tr) ∧ measure U (remove_failed (base v2) tr) < measure U (base v).
Proof using.
  intros Hok Hr Hreps Hf Hall.
  destruct (round_frame U call_find_value R w (base v) _ w1 s1 rs Hok Hr) as (Hro & Hcon & Hfresh & _ & Hids & Hlast).
  destruct (fold_values_ok R _ w1 (mk s1 (nearest_without_value v)) rs [] [] v2 tr found Hro Hreps Hf) as (Hro2 & -> & Hcon2 & Hlast2 & Hnil).
  pose proof (round_peers _ _ _ _ _ _ _ Hr) as Hpeers. cbn [base app] in *.
  destruct (remove_frame (nearest (base v2)) (silent rs)) as (Ec & _).
  assert (crawl_ok U (R ∪ answered rs) (remove_failed (base v2) (silent rs))) as Hok'
    by (eapply remove_failed_ok; [exact Hro2|]; intros i; by rewrite elem_of_list_to_set).
  assert (NodeHeap.contacted (nearest (remove_failed (base v2) (silent rs))) =
    list_to_set rs.*1 ∪ NodeHeap.contacted (nearest (base v))) as Hc by (simpl; by rewrite Ec, Hcon2, Hcon).
  assert (rs = [] → NodeHeap.get_ids (nearest (remove_failed (base v2) (silent rs))) =
    NodeHeap.get_ids (nearest (base v))) as Hsame by (intros ->; by rewrite (Hnil eq_refl)).
  destruct (NodeHeap.have_contacted_all (nearest (base v))) eqn:Hall0.
  { exfalso. assert (rs = []) as E.
    { destruct rs as [|r0 rs']; [done|]. destruct (Hfresh r0.1) as [Hi Hn]; [by left|].
      by apply (proj1 (have_contacted_all_iff _) Hall0) in Hi. }
    apply not_true_iff_false in Hall. apply Hall, have_contacted_all_iff. intros i. rewrite (Hsame E), Hc.
    intros Hi. apply elem_of_union_r. by apply (proj1 (have_contacted_all_iff _) Hall0). }
  exists (R ∪ answered rs). split; [done|].
  apply (measure_round U _ (base v) _ USIZE_MAX Hall0 ltac:(done) Hok').
  - rewrite Hc. f_equal. by apply list_to_set_perm_L.
  - simpl. by rewrite Hlast2, Hlast.
  - intros E. rewrite E in Hpeers. apply Permutation_nil_r, fmap_nil_inv in Hpeers. by apply Hsame.
Qed.

Lemma find_terminates fuel w v R :
  crawl_ok U R (base v) → measure U (base v) < fuel → is_Some (ValueSpiderCrawl.find fuel w v).
Proof using Hrep.
  revert w v R. induction fuel as [|fuel IH]; intros w v R Hok Hm; [lia|].
  cbn [ValueSpiderCrawl.find]. unfold find_round.
  destruct (find_round_limited w (base v) USIZE_MAX call_find_value) as [[w1 s1] rs] eqn:Hr.
  destruct (foldl _ _ rs) as [[v2 tr] found] eqn:Hf. destruct found as [|x xs]; [|by destruct (strict_quorum_value _ _)].
  destruct (NodeHeap.have_contacted_all (nearest (base (mk (remove_failed (base v2) tr) _)))) eqn:Hall; [done|].
  destruct (round_spec U call_find_value R w (base v) _ w1 s1 rs Hrep Hok Hr) as (_ & Hreps & _).
  destruct (find_progress R w v w1 s1 rs v2 tr [] Hok Hr Hreps Hf Hall) as (R' & Hok' & Hm').
  apply (IH w1 (mk (remove_failed (base v2) tr) (nearest_without_value v2)) R' Hok'). cbn [base]. lia.
Qed.

End value_lookup.

(** ** A concrete network *)

(** Two peers hold the record [7], a third reports them. *)
Module SearchExample.

Definition ex_id (b : byte) : ident := ident_ends b x01.
Definition ex_tuple (b : byte) : bytes * option string * option Z :=
  (ident_bytes (ex_id b), Some "10.0.0.1"%string, Some 4000%Z).
Definition ex_answer (p : Node) : RawResponse :=
  if bool_decide (id p = ex_id x30) then mkRaw true (PNodes [ex_tuple x10; ex_tuple x20])
  else mkRaw true (PValue [x07]).

#[local] Instance ex_protocol : SpiderProtocol nat := {|
  call_find_node w p _ := (S w, mkRaw false PEmpty);
  call_find_value w p _ := (S w, ex_answer p);
  call_store w _ _ _ := (w, false);
  failing_among _ _ := ∅;
  note_no_answer w _ := w
|}.

#[local] Program Instance ex_order : HashOrder := {| hash_order A l := reverse l |}.
Next Obligation. intros A l. apply reverse_Permutation. Qed.

Definition ex_universe : gset ident := {[ex_id x10; ex_id x20; ex_id x30]}.
Definition ex_peer (b : byte) : Node := Node_new (ex_id b) (Some "10.0.0.1"%string) (Some 4000%Z).
Definition ex_target : Node := Node_from_id (ex_id x00).
Definition ex_env (n : nat) : RoundEnv := mkEnv false (λ l, reverse l) None false.
Definition ex_accept (w : nat) (x : bytes) : nat * option bytes :=
  (S w, if bool_decide (x = [x07]) then None else Some x).

Lemma ex_reports w p tgt : reports_in ex_universe (call_find_value w p tgt).2.
Proof.
  intros n Hn. simpl in Hn. unfold ex_universe, ex_answer in *. case_bool_decide; simpl in Hn;
    repeat (apply elem_of_cons in Hn as [->|Hn]; [apply (bool_decide_unpack _); exact I|]);
    by apply not_elem_of_nil in Hn.
Qed.

Lemma ex_start p : p ∈ [ex_peer x30] → id p ∈ ex_universe.
Proof. intros ->%list_elem_of_singleton. apply (bool_decide_unpack _). exact I. Qed.

Lemma search_sound_witness :
  ∃ w' s' r,
    search 8 ex_env true call_find_value ex_accept 0
      (base (ValueSpiderCrawl.new ex_target [ex_peer x30] 3 1)) false = Some (w', s', r) ∧
    search_means ex_accept (search_log call_find_value ex_accept ex_env 8 true 0
      (base (ValueSpiderCrawl.new ex_target [ex_peer x30] 3 1)) false) false s' r.
Proof.
  apply (search_sound ex_universe call_find_value ex_accept ex_env true ex_target [ex_peer x30] 3 1 0 8).
  - exact ex_reports.
  - intros m l. apply reverse_Permutation.
  - exact ex_start.
  - vm_compute. lia.
Defined.

Lemma quorum_read_spec_witness :
  let v := ValueSpiderCrawl.new ex_target [ex_peer x30] 3 2 in
  let '(log, s') := quorum_run 8 0 (base v) [] 2 3 in
  Forall round_asked log ∧
  ∃ w' r, find_quorum 8 0 v [] 2 3 = Some (w', r) ∧ quorum_means [] 2 3 (concat log.*2) s' r.
Proof.
  apply (quorum_read_spec ex_universe ex_target [ex_peer x30] 3 2 [] 2 3 0 8).
  - exact ex_reports.
  - exact ex_start.
  - vm_compute. lia.
Defined.

Example ex_quorum :
  snd <$> find_quorum 8 0 (ValueSpiderCrawl.new ex_target [ex_peer x30] 3 2) [] 2 3 = Some (Some [x07]).
Proof. vm_compute. reflexivity. Qed.

End SearchExample.
