(* ===== verification/GoodLookups.v ===== *)
(** * Lookups among nodes that answer

    When every contact a lookup meets answers, reports only such contacts, and
    says about the key what it should, the lookups of Crawling have the outcome
    one expects: [find] reports that nobody holds a record and counts nobody
    unresponsive, [search] finds nothing to object to, or finds the record. *)

From S2P Require Import Prelude Utils Node Crawling CrawlProps SearchProps.

Import SpiderCrawl.
Import ValueSpiderCrawl.

(** ** Shortlists *)

Section heaps.
Context (ok : Node → Prop).

(** Every entry of the shortlist is such a contact. *)
Definition heap_all (h : NodeHeap.t) : Prop := Forall (λ e, ok (NodeHeap.entry_node e)) (NodeHeap.entries h).

Lemma heap_all_new n k : heap_all (NodeHeap.new n k).
Proof using. constructor. Qed.

Lemma push_loop_all pivot es added ns es' added' :
  Forall (λ e, ok (NodeHeap.entry_node e)) es → Forall ok ns →
  NodeHeap.push_loop pivot es added ns = (es', added') →
  Forall (λ e, ok (NodeHeap.entry_node e)) es' ∧ length es ≤ length es'.
Proof using.
  intros He Hn. revert es added He. induction Hn as [|n ns Hn _ IH]; intros es added He; simpl.
  { by intros [= <- _]. }
  case_match; [by apply IH|]. intros Hl. apply IH in Hl as [Hl Hlen]; [|by apply Forall_app; split; [|repeat constructor]].
  split; [done|]. rewrite length_app in Hlen. simpl in Hlen. lia.
Qed.

Lemma heap_all_push h ns : heap_all h → Forall ok ns → heap_all (NodeHeap.push h ns).
Proof using.
  intros Hh Hn. unfold NodeHeap.push. destruct (NodeHeap.push_loop _ _ _ _) as [es added] eqn:E.
  apply push_loop_all in E as [He _]; [|done..]. unfold heap_all. simpl. destruct added; [|done].
  apply Forall_take. by rewrite sort_by_key_perm.
Qed.

(** A shortlist with room does not become empty. *)
Lemma push_nonempty h ns :
  0 < NodeHeap.maxsize h → heap_all h → Forall ok ns → NodeHeap.entries h ≠ [] →
  NodeHeap.entries (NodeHeap.push h ns) ≠ [].
Proof using.
  intros Hm Hh Hn Hne. unfold NodeHeap.push. destruct (NodeHeap.push_loop _ _ _ _) as [es added] eqn:E.
  apply push_loop_all in E as [_ Hlen]; [|done..]. destruct (NodeHeap.entries h); [done|]. simpl in *.
  intros E2. apply (f_equal length) in E2. destruct added; [rewrite length_take, length_sort_by_key in E2|];
    simpl in E2; lia.
Qed.

Lemma push_loop_true pivot es ns : (NodeHeap.push_loop pivot es true ns).2 = true.
Proof using. revert es. induction ns as [|n ns IH]; intros es; simpl; [done|]. case_match; apply IH. Qed.

Lemma push_first_nonempty n k ns :
  0 < k → Forall ok ns → ns ≠ [] → NodeHeap.entries (NodeHeap.push (NodeHeap.new n k) ns) ≠ [].
Proof using.
  intros Hk Hok Hns. destruct Hok as [|x ns Hx Hok]; [done|]. unfold NodeHeap.push. simpl.
  pose proof (push_loop_true n [NodeHeap.mkEntry (distance_to n x) x] ns) as Ha.
  destruct (NodeHeap.push_loop n _ true ns) as [es added] eqn:E. simpl in *. subst added.
  apply push_loop_all in E as [_ Hlen]; [|by repeat constructor|done].
  intros E2. apply (f_equal length) in E2. rewrite length_take, length_sort_by_key in E2. simpl in *. lia.
Qed.

Lemma heap_all_iter h : heap_all h → Forall ok (NodeHeap.iter h).
Proof using. intros Hh. unfold NodeHeap.iter. apply Forall_fmap. by apply Forall_take. Qed.

Lemma heap_all_mark h ps : heap_all h → heap_all (foldl NodeHeap.mark_contacted h ps).
Proof using. revert h. induction ps as [|p ps IH]; intros h Hh; [done|]. simpl. by apply IH. Qed.

Lemma mark_entries h ps :
  NodeHeap.entries (foldl NodeHeap.mark_contacted h ps) = NodeHeap.entries h ∧
  NodeHeap.maxsize (foldl NodeHeap.mark_contacted h ps) = NodeHeap.maxsize h.
Proof using. revert h. induction ps as [|p ps IH]; intros h; [done|]. simpl. by destruct (IH (NodeHeap.mark_contacted h p)) as [-> ->]. Qed.

End heaps.

(** ** Rounds in which everybody answers *)

Section good.
Context `{SpiderProtocol W, HashOrder} (I : W → Prop) (ok : Node → Prop).
Context (Hfailing : ∀ w ns, I w → Forall ok ns → failing_among w ns = ∅).

(** A lookup that has lost nobody, and has somebody to ask. *)
Record crawl_good (s : SpiderCrawl.t) : Prop := {
  cg_nodes : heap_all ok (nearest s);
  cg_failed : failed s = ∅;
  cg_skipped : skipped s = ∅;
  cg_room : 0 < NodeHeap.maxsize (nearest s);
  cg_some : NodeHeap.entries (nearest s) ≠ []
}.

Lemma crawl_good_new n peers k a : 0 < k → Forall ok peers → peers ≠ [] → crawl_good (SpiderCrawl.new n peers k a).
Proof using.
  intros Hk Hok Hne. split; simpl; [|done|done| |].
  - apply heap_all_push; [apply heap_all_new|done].
  - unfold NodeHeap.push. by destruct (NodeHeap.push_loop _ _ _ _).
  - by apply (push_first_nonempty ok).
Qed.

Lemma push_maxsize h ns : NodeHeap.maxsize (NodeHeap.push h ns) = NodeHeap.maxsize h.
Proof using. unfold NodeHeap.push. by destruct (NodeHeap.push_loop _ _ _ _). Qed.

Lemma add_reported_good w s ns : I w → crawl_good s → Forall ok ns → crawl_good (add_reported w s ns).
Proof using Hfailing.
  intros Hw [Hn Hf Hs Hr He] Hns. unfold add_reported. cbv zeta. set (usable := filter _ ns).
  assert (Forall ok usable) as Hok.
  { apply Forall_forall. rewrite Forall_forall in Hns. intros c [_ Hc]%list_elem_of_filter. by apply Hns. }
  split; simpl; [by apply heap_all_push|done| |by rewrite push_maxsize|].
  { by rewrite Hs, (Hfailing w ns Hw Hns), union_empty_l_L. }
  by apply (push_nonempty ok).
Qed.

Lemma next_peers_good s limit peers s1 :
  crawl_good s → next_peers s limit = (peers, s1) → crawl_good s1 ∧ Forall ok peers ∧ peers ⊆ NodeHeap.iter (nearest s) ∧ node s1 = node s.
Proof using.
  intros [Hn Hf Hs Hr He]. unfold next_peers. intros [= <- <-].
  set (ps := take _ _). assert (ps ⊆ NodeHeap.iter (nearest s)) as Hsub.
  { intros c Hc%elem_of_take_incl. by apply list_elem_of_filter in Hc as [_ ?]. }
  destruct (mark_entries (nearest s) ps) as [E1 E2].
  split; [split; simpl; [by apply heap_all_mark|done|done|by rewrite E2|by rewrite E1]|].
  split; [|done]. apply Forall_forall. intros c Hc%Hsub. pose proof (heap_all_iter ok _ Hn) as Hall.
  rewrite Forall_forall in Hall. by apply Hall.
Qed.

Lemma remove_nobody s : remove_failed s [] = s.
Proof using. destruct s. unfold remove_failed. simpl. by rewrite union_empty_r_L. Qed.

(** The requests of a round keep the invariant, and their answers satisfy [G]. *)
Lemma ask_good (rpc : W → Node → Node → W * RawResponse) (G : Node → RawResponse → Prop) w target peers w' rs :
  (∀ w p, I w → ok p → I (rpc w p target).1 ∧ G p (rpc w p target).2) → I w → Forall ok peers →
  ask rpc w target peers = (w', rs) →
  I w' ∧ Forall2 (λ p r, r.1 = id p ∧ G p r.2) peers rs.
Proof using.
  intros Hrpc Hw Hp. revert w w' rs Hw. induction Hp as [|p ps Hp _ IH]; intros w w' rs Hw; simpl.
  { by intros [= <- <-]. }
  destruct (Hrpc w p Hw Hp) as [Hw1 HG]. destruct (rpc w p target) as [w1 r].
  destruct (ask rpc w1 target ps) as [w2 rs'] eqn:Ea. intros [= <- <-].
  destruct (IH w1 w2 rs' Hw1 Ea) as [Hw2 Hrs]. split; [done|]. by constructor.
Qed.

(** ** Nobody holds a record *)

(** An answer of contacts only. *)
Definition only_contacts (r : RawResponse) : Prop :=
  happened r = true ∧ get_value r = None ∧ Forall ok (get_node_list r).

Lemma has_value_get r : has_value r = bool_decide (is_Some (get_value r)).
Proof using. unfold has_value, get_value. by destruct (raw_payload r). Qed.

Lemma fold_contacts w v tr found rs :
  I w → crawl_good (base v) → Forall (λ r, only_contacts r.2) rs →
  ∃ v2, foldl (ValueSpiderCrawl.handle_response w) (v, tr, found) rs = (v2, tr, found) ∧ crawl_good (base v2) ∧
    node (base v2) = node (base v).
Proof using Hfailing.
  intros Hw Hv Hrs. revert v Hv. induction Hrs as [|[i r] rs (Hh & Hx & Hn) _ IH]; intros v Hv; [eauto|].
  cbn [foldl snd] in *. unfold ValueSpiderCrawl.handle_response at 2. cbn [snd fst]. rewrite Hh, has_value_get, Hx. cbn [negb].
  rewrite bool_decide_eq_false_2 by (by intros []).
  match goal with |- ∃ v2, foldl _ (?v1, _, _) _ = _ ∧ _ => destruct (IH v1) as (v2 & Hf & Hv2 & Hnode) end;
    [by apply add_reported_good|].
  exists v2. split; [exact Hf|]. by split.
Qed.

Context (target : Node) (Hcontacts : ∀ w p, I w → ok p → I (call_find_value w p target).1 ∧
  only_contacts (call_find_value w p target).2).

(** The lookup of a SET for a key that nobody holds ends: no value, nobody
    unresponsive, and contacts to store at. *)
Lemma find_nothing (U : gset ident) fuel w v R :
  (∀ p, ok p → id p ∈ U) → I w → crawl_good (base v) → crawl_ok U R (base v) →
  node (base v) = target → measure U (base v) < fuel →
  ∃ w' r, ValueSpiderCrawl.find fuel w v = Some (w', r) ∧
    I w' ∧ r.1 = None ∧ unresponsive r.2 = 0 ∧ Forall ok (nodes r.2) ∧ nodes r.2 ≠ [].
Proof using Hfailing Hcontacts.
  intros HU. revert w v R. induction fuel as [|fuel IH]; intros w v R Hw Hv Hcok Ht Hm; [lia|]. cbn [ValueSpiderCrawl.find].
  unfold find_round. destruct (find_round_limited w (base v) USIZE_MAX call_find_value) as [[w1 s1] rs] eqn:Hr.
  pose proof Hr as Hr'. unfold find_round_limited in Hr'. destruct (next_peers (base v) USIZE_MAX) as [peers s1'] eqn:Hn.
  destruct (next_peers_good _ _ _ _ Hv Hn) as (Hs1 & Hok & _ & Hnode). rewrite Ht in Hnode.
  destruct (ask call_find_value w (node s1') peers) as [w1' rs0] eqn:Ha. injection Hr' as -> -> <-.
  rewrite Hnode in Ha.
  destruct (ask_good _ (λ _, only_contacts) _ _ _ _ _ Hcontacts Hw Hok Ha) as [Hw1 Hrs].
  assert (Forall (λ r, only_contacts r.2) (hash_order rs0)) as Hall.
  { rewrite hash_order_perm. apply Forall_forall. intros x (i & Hx)%list_elem_of_lookup.
    destruct (Forall2_lookup_r _ _ _ _ _ Hrs Hx) as (p & _ & _ & Hg). exact Hg. }
  destruct (fold_contacts w1 (mk s1 (nearest_without_value v)) [] [] (hash_order rs0) Hw1 Hs1 Hall) as (v2 & Ef & Hv2 & Hnode2).
  rewrite Ef, remove_nobody. destruct v2 as [s2 h2]. cbn [base nearest_without_value] in *.
  destruct (NodeHeap.have_contacted_all (nearest s2)) eqn:Eall.
  - eexists _, _. split; [reflexivity|]. simpl. split; [done|]. split; [done|]. destruct Hv2 as [Hnd Hf Hsk Hroom Hne].
    split; [by rewrite Hf, Hsk|]. split; [by apply heap_all_iter|].
    unfold NodeHeap.to_vec, NodeHeap.iter. destruct (NodeHeap.entries (nearest s2)); [done|].
    by destruct (NodeHeap.maxsize (nearest s2)); [lia|].
  - destruct (find_progress U R w v w1 s1 (hash_order rs0) (mk s2 h2) [] [] Hcok Hr) as (R' & Hcok' & Hm'); [|done|by rewrite remove_nobody|].
    + eapply Forall_impl; [exact Hall|]. intros r (_ & _ & Hns) c Hc. rewrite Forall_forall in Hns. by apply HU, Hns.
    + rewrite remove_nobody in Hcok', Hm'. cbn [base] in *. apply (IH w1 (mk s2 h2) R'); [done..|cbn [base]; congruence|cbn [base]; lia].
Qed.

End good.

(** ** Searches *)

Section searching.
Context `{SpiderProtocol W, HashOrder} (I : W → Prop) (ok : Node → Prop).
Context (Hfailing : ∀ w ns, I w → Forall ok ns → failing_among w ns = ∅).
Context (rpc : W → Node → Node → W * RawResponse) (accept : W → bytes → W * option bytes).
Context (target : Node) (G : Node → RawResponse → Prop).
Context (Hrpc : ∀ w p, I w → ok p → I (rpc w p target).1 ∧ G p (rpc w p target).2).

(** The rounds that fit before the deadline are neither late nor cut short. *)
Definition in_time_rounds (env : nat → RoundEnv) : Prop :=
  ∀ n, 0 < n → env_order (env n) = hash_order ∧ env_late (env n) = false ∧ env_cut (env n) = None.

(** An answer that brings contacts, or a value that is not accepted. *)
Definition unobjectionable (r : RawResponse) : Prop :=
  happened r = true ∧ Forall ok (get_node_list r) ∧ ∀ w x, get_value r = Some x → accept w x = (w, None).

Lemma collect_unobjectionable w s tr inc rs :
  I w → crawl_good ok s → Forall (λ r, unobjectionable r.2) rs →
  ∃ s2, collect w accept s tr inc rs = (w, inr (s2, tr, inc)) ∧ crawl_good ok s2 ∧ node s2 = node s.
Proof using Hfailing.
  intros Hw Hs Hrs. revert s Hs. induction Hrs as [|[i r] rs (Hh & Hn & Hx) _ IH]; intros s Hs; [eauto|].
  cbn [collect snd] in *. rewrite Hh. cbn [negb]. destruct (get_value r) as [x|] eqn:Ex.
  - rewrite (Hx w x eq_refl). by apply IH.
  - destruct (IH (add_reported w s (get_node_list r))) as (s2 & Hc & Hs2 & Hnode); [by eapply add_reported_good|].
    exists s2. split; [done|]. split; [done|]. by rewrite Hnode.
Qed.

Lemma answers_of peers rs (Q : RawResponse → Prop) :
  (∀ p r, G p r → Q r) → Forall2 (λ p r, r.1 = id p ∧ G p r.2) peers rs → Forall (λ r, Q r.2) rs.
Proof using.
  intros HQ Hrs. apply Forall_forall. intros x (i & Hx)%list_elem_of_lookup.
  destruct (Forall2_lookup_r _ _ _ _ _ Hrs Hx) as (p & _ & _ & Hg). by eapply HQ.
Qed.

(** A search with a deadline that gives it two rounds per contact, in which
    nobody objects, ends without an objection. *)
Lemma search_nothing (U : gset ident) (env : nat → RoundEnv) fuel w s R :
  in_time_rounds env → (∀ p r, G p r → unobjectionable r) → (∀ p, ok p → id p ∈ U) →
  I w → crawl_good ok s → crawl_ok U R s → node s = target → measure U s + 1 < fuel →
  ∃ w' s', search fuel env true rpc accept w s false = Some (w', s', NotFound) ∧ I w'.
Proof using Hfailing Hrpc.
  intros Henv HG HU. revert w s R. induction fuel as [|fuel IH]; intros w s R Hw Hs Hok Ht Hm; [lia|].
  cbn [search]. destruct (NodeHeap.have_contacted_all (nearest s)) eqn:Hall; [eauto|].
  destruct (Henv fuel ltac:(lia)) as (Horder & Hlate & Hcut). rewrite Hlate, Hcut. cbn [andb].
  destruct (next_peers s USIZE_MAX) as [peers s1] eqn:Hn.
  destruct (next_peers_good ok _ _ _ _ Hs Hn) as (Hs1 & Hpeers & _ & Hnode). rewrite Ht in Hnode.
  destruct (ask rpc w (node s1) peers) as [w1 rs] eqn:Ha. pose proof Ha as Ha'. rewrite Hnode in Ha'.
  destruct (ask_good I ok rpc G _ _ _ _ _ Hrpc Hw Hpeers Ha') as [Hw1 Hrs].
  pose proof (answers_of _ _ unobjectionable HG Hrs) as Hun. rewrite Horder. cbn [mbind option_bind].
  destruct (collect_unobjectionable w1 s1 [] false (hash_order rs) Hw1 Hs1) as (s2 & Hc & Hs2 & Hnode2);
    [by rewrite hash_order_perm|].
  rewrite Hc. pose proof (ask_spec rpc _ _ _ _ _ Ha) as _.
  assert (Forall (λ r, reports_in U r.2) rs) as Hreps.
  { apply Forall_forall. rewrite Forall_forall in Hun. intros r Hr c Hc'. destruct (Hun r Hr) as (_ & Hnodes & _).
    apply HU. rewrite Forall_forall in Hnodes. by apply Hnodes. }
  destruct (search_round_of U rpc accept (λ _, env fuel) ltac:(intros; cbn beta; rewrite Horder; apply hash_order_perm)
    R w s peers s1 w1 rs 0 false w1 s2 [] false Hok Hall Hn Ha Hreps) as (R' & Hok' & Hm' & _); [by rewrite Horder|].
  rewrite remove_nobody in Hok', Hm' |- *. apply (IH w1 s2 R'); [done|done|done|congruence|lia].
Qed.

(** A search without a deadline whose first round meets the value it looks for,
    and no other, finds it. *)
Definition offers (v : bytes) (r : RawResponse) : Prop :=
  happened r = true ∧ Forall ok (get_node_list r) ∧ (get_value r = Some v ∨ get_value r = None).

Lemma collect_offers v w s tr inc rs :
  (∀ w, I w → I (accept w v).1 ∧ (accept w v).2 = Some v) →
  I w → crawl_good ok s → Forall (λ r, offers v r.2) rs → Exists (λ r, get_value r.2 = Some v) rs →
  ∃ w2 s2, collect w accept s tr inc rs = (w2, inl (s2, v)) ∧ I w2.
Proof using Hfailing.
  intros Hacc Hw Hs Hrs. revert s Hs. induction Hrs as [|[i r] rs (Hh & Hn & Hx) _ IH]; intros s Hs Hex.
  { by apply Exists_nil in Hex. }
  cbn [collect snd] in *. rewrite Hh. cbn [negb]. destruct Hx as [Hx|Hx]; rewrite Hx.
  - destruct (Hacc w Hw) as [Hw2 Ha]. destruct (accept w v) as [w2 o]. simpl in *. subst o. eauto.
  - apply IH; [by eapply add_reported_good|]. apply Exists_cons in Hex as [E|]; [|done]. simpl in E. congruence.
Qed.

Lemma search_found v (env : nat → RoundEnv) fuel w s p0 :
  (∀ n, env_order (env n) = hash_order) → (∀ p r, G p r → offers v r) → (∀ r, G p0 r → get_value r = Some v) →
  (∀ w, I w → I (accept w v).1 ∧ (accept w v).2 = Some v) →
  I w → crawl_good ok s → node s = target → p0 ∈ (next_peers s USIZE_MAX).1 →
  ∃ w' s', search (S fuel) env false rpc accept w s false = Some (w', s', Found v) ∧ I w'.
Proof using Hfailing Hrpc.
  intros Henv HG Hp0 Hacc Hw Hs Ht Hin. cbn [search andb].
  destruct (next_peers s USIZE_MAX) as [peers s1] eqn:Hn. simpl in Hin.
  destruct (NodeHeap.have_contacted_all (nearest s)) eqn:Hall.
  { exfalso. unfold next_peers in Hn. injection Hn as Hps _. unfold NodeHeap.have_contacted_all in Hall.
    destruct (NodeHeap.get_uncontacted (nearest s)); [|done]. rewrite take_nil in Hps. subst peers. by apply not_elem_of_nil in Hin. }
  destruct (next_peers_good ok _ _ _ _ Hs Hn) as (Hs1 & Hpeers & _ & Hnode). rewrite Ht in Hnode.
  destruct (ask rpc w (node s1) peers) as [w1 rs] eqn:Ha. rewrite Hnode in Ha.
  destruct (ask_good I ok rpc G _ _ _ _ _ Hrpc Hw Hpeers Ha) as [Hw1 Hrs]. rewrite Henv.
  destruct (collect_offers v w1 s1 [] false (hash_order rs) Hacc Hw1 Hs1) as (w2 & s2 & -> & Hw2); [| |eauto].
  - rewrite hash_order_perm. by apply (answers_of peers).
  - rewrite hash_order_perm. apply Exists_exists. apply list_elem_of_lookup in Hin as [i Hi].
    destruct (Forall2_lookup_l _ _ _ _ _ Hrs Hi) as (r & Hr & _ & Hg). exists r.
    split; [by eapply list_elem_of_lookup_2|]. by apply Hp0.
Qed.

End searching.
