(* ===== verification/Effects.v ===== *)
(** * Effects of a node

    A method of the protocol runs in a world: the state [P] of its node, which
    the other tasks of the node share, and an environment [E], the clocks, the
    random numbers, the socket and the scheduler. [M] is the state monad over
    it. An [await] is [pause]: the other tasks of the node run, and may change
    the shared state in any way ([others]); a [pause] also stands between two
    accesses to a shared map or counter that other threads may come between. Specifications are triples over worlds. *)

From S2P Require Import Prelude Utils Fragmentation.

(** What ends the wait of [tokio::select!] in a call: its answer channel, its
    notification, or its timer. *)
Inductive Wakeup := OnAnswer | OnReceipt | OnTimer.

(** The operating system, the network and the scheduler, seen by one node. *)
Class Environment (E P : Type) := {
  instant : E → Z;                              (* [Instant::now], ns *)
  unix_time : E → Z;                            (* [SystemTime::now], s *)
  jitter : E → Z → Z;                           (* the random part of [with_jitter] *)
  random_id : E → E * ident;                    (* [fill_bytes] of [[u8; ID_LEN]] *)
  others : E → P → E * P;                       (* other tasks, while this one waits *)
  send_to : E → SocketAddr → bytes → E * bool;  (* [UdpSocket::send_to], false on error *)
  wakeups : E → list Wakeup                     (* what wakes a call until its deadline *)
}.

Record World (P E : Type) := mkW { proto : P; env : E }.
Arguments mkW {P E} proto env.
Arguments proto {P E} w.
Arguments env {P E} w.

Definition M (P E A : Type) : Type := World P E → World P E * A.

#[global] Instance M_ret P E : MRet (M P E) := λ A a w, (w, a).
#[global] Instance M_bind P E : MBind (M P E) := λ A B f m w, let '(w', a) := m w in f a w'.
#[global] Instance M_fmap P E : FMap (M P E) := λ A B f m w, let '(w', a) := m w in (w', f a).

Section primitives.
Context {P E : Type} `{Environment E P}.

(** [await]. *)
Definition pause : M P E unit := λ w,
  let '(e, p) := others (env w) (proto w) in (mkW p e, tt).

Definition gets {A} (f : P → A) : M P E A := λ w, (w, f (proto w)).

Definition modify (f : P → P) : M P E unit := λ w, (mkW (f (proto w)) (env w), tt).

(** A synchronous update of the state that returns a result. *)
Definition update {A} (f : P → P * A) : M P E A := λ w,
  let '(p, a) := f (proto w) in (mkW p (env w), a).

Definition asks {A} (f : E → A) : M P E A := λ w, (w, f (env w)).

Definition effect {A} (f : E → E * A) : M P E A := λ w,
  let '(e, a) := f (env w) in (mkW (proto w) e, a).

(** A loop, or the futures of a [join_all]: their steps run one after the other,
    with the other tasks at each await. Of the ways to interleave the futures of a
    [join_all] this is one; its results are in the order of the futures in all. *)
Fixpoint for_each {A B} (f : A → M P E B) (l : list A) : M P E (list B) :=
  match l with
  | [] => mret []
  | x :: l' => b ← f x; bs ← for_each f l'; mret (b :: bs)
  end.

End primitives.

(** ** Triples *)

Definition triple {P E A} (Pre : World P E → Prop) (m : M P E A) (Post : A → World P E → Prop) : Prop :=
  ∀ w, Pre w → Post (m w).2 (m w).1.

(** [m] keeps the invariant [I]. *)
Definition keeps {P E A} (I : World P E → Prop) (m : M P E A) : Prop := triple I m (λ _, I).

Section triples.
Context {P E : Type}.
Implicit Types I Pre : World P E → Prop.

Lemma triple_ret {A} (a : A) (Post : A → World P E → Prop) : triple (Post a) (mret a) Post.
Proof. by intros w. Qed.

Lemma triple_bind {A B} Pre (m : M P E A) Mid (f : A → M P E B) Post :
  triple Pre m Mid → (∀ a, triple (Mid a) (f a) Post) → triple Pre (m ≫= f) Post.
Proof.
  intros Hm Hf w Hw. unfold mbind, M_bind. specialize (Hm w Hw). destruct (m w) as [w' a].
  by apply Hf.
Qed.

Lemma triple_weaken {A} Pre Pre' (m : M P E A) Post Post' :
  triple Pre' m Post' → (∀ w, Pre w → Pre' w) → (∀ a w, Post' a w → Post a w) → triple Pre m Post.
Proof. intros Hm Hp Hq w Hw. by apply Hq, Hm, Hp. Qed.

Lemma triple_pre {A} Pre Pre' (m : M P E A) Post :
  triple Pre' m Post → (∀ w, Pre w → Pre' w) → triple Pre m Post.
Proof. intros Hm Hp w Hw. by apply Hm, Hp. Qed.

Lemma triple_run {A} Pre (m : M P E A) (Post : A → World P E → Prop) w :
  Pre w → triple Pre m Post → Post (m w).2 (m w).1.
Proof. intros Hw Hm. by apply Hm. Qed.

Lemma triple_pure {A} (Q : Prop) Pre (m : M P E A) Post :
  (Q → triple Pre m Post) → triple (λ w, Q ∧ Pre w) m Post.
Proof. intros Hm w [HQ Hw]. by apply Hm. Qed.

(** The result of a method that ends by a return. *)
Lemma bind_ret_result {A B} (m : M P E A) (f : A → B) w : ((m ≫= λ a, mret (f a)) w).2 = f (m w).2.
Proof. unfold mbind, M_bind. by destruct (m w). Qed.

Lemma fmap_result {A B} (m : M P E A) (f : A → B) w : ((f <$> m) w).2 = f (m w).2.
Proof. unfold fmap, M_fmap. by destruct (m w). Qed.

(** The turns of a loop: each item with the world it runs in. *)
Fixpoint turns {A B} (f : A → M P E B) (l : list A) (w : World P E) : list (A * World P E) :=
  match l with
  | [] => []
  | x :: l' => (x, w) :: turns f l' (f x w).1
  end.

Lemma turns_items {A B} (f : A → M P E B) l w : (turns f l w).*1 = l.
Proof. revert w. induction l as [|x l IH]; intros w; csimpl; [done|]. by rewrite IH. Qed.

(** The results of a loop are those of its body in the worlds of its turns. *)
Lemma for_each_turns {A B} (f : A → M P E B) l w :
  (for_each f l w).2 = (λ t, (f t.1 t.2).2) <$> turns f l w.
Proof.
  revert w. induction l as [|x l IH]; intros w; csimpl; [done|].
  unfold mbind, M_bind. rewrite <-IH. destruct (f x w) as [w1 b]. cbn [fst snd].
  by destruct (for_each f l w1).
Qed.

Lemma keeps_ret {A} I (a : A) : keeps I (mret a).
Proof. by intros w. Qed.

Lemma keeps_bind {A B} I (m : M P E A) (f : A → M P E B) :
  keeps I m → (∀ a, keeps I (f a)) → keeps I (m ≫= f).
Proof. apply triple_bind. Qed.

Lemma keeps_fmap {A B} I (f : A → B) (m : M P E A) : keeps I m → keeps I (f <$> m).
Proof.
  intros Hm w Hw. specialize (Hm w Hw). unfold fmap, M_fmap. by destruct (m w) as [w' a].
Qed.

Lemma keeps_for_each {A B} I (f : A → M P E B) l :
  (∀ a, keeps I (f a)) → keeps I (for_each f l).
Proof.
  intros Hf. induction l as [|x l IH]; simpl; [apply keeps_ret|].
  apply keeps_bind; [done|]. intros b. apply keeps_bind; [done|]. intros bs. apply keeps_ret.
Qed.

Lemma keeps_gets {A} I (f : P → A) : keeps I (gets f).
Proof. by intros w. Qed.

Lemma keeps_asks {A} I (f : E → A) : keeps I (asks f).
Proof. by intros w. Qed.

Lemma triple_gets {A} I (f : P → A) : triple I (gets f) (λ a w, I w ∧ a = f (proto w)).
Proof. by intros w Hw. Qed.

Lemma triple_asks {A} I (f : E → A) : triple I (asks f) (λ a w, I w ∧ a = f (env w)).
Proof. by intros w Hw. Qed.

End triples.

#[export] Hint Resolve keeps_ret keeps_bind keeps_fmap keeps_for_each keeps_gets keeps_asks : kad.

(** An invariant the environment respects: the other tasks, the random
    numbers and the socket do not break it. *)
Record stable {P E} `{Environment E P} (I : World P E → Prop) : Prop := {
  stable_others p e : I (mkW p e) → I (mkW (others e p).2 (others e p).1);
  stable_random p e : I (mkW p e) → I (mkW p (random_id e).1);
  stable_send p e a d : I (mkW p e) → I (mkW p (send_to e a d).1)
}.

Section stable.
Context {P E : Type} `{Environment E P} (I : World P E → Prop) (HI : stable I).

Lemma keeps_pause : keeps I pause.
Proof using HI.
  intros [p e] Hw. unfold pause. simpl. pose proof (stable_others I HI p e Hw) as Ho.
  by destruct (others e p).
Qed.

Lemma keeps_random : keeps I (effect random_id).
Proof using HI.
  intros [p e] Hw. unfold effect. simpl. pose proof (stable_random I HI p e Hw) as Ho.
  by destruct (random_id e).
Qed.

Lemma keeps_send a d : keeps I (effect (λ e, send_to e a d)).
Proof using HI.
  intros [p e] Hw. unfold effect. simpl. pose proof (stable_send I HI p e a d Hw) as Ho.
  by destruct (send_to e a d).
Qed.

End stable.

(** Walk through a method that keeps an invariant: binds, returns, reads and
    branches; awaits and what changes the state are left to the hints. *)
Ltac keeps_step :=
  match goal with
  | |- keeps _ (mret _) => apply keeps_ret
  | |- keeps _ (mbind _ _) => apply keeps_bind; [|intros ?]
  | |- keeps _ (fmap _ _) => apply keeps_fmap
  | |- keeps _ (for_each _ _) => apply keeps_for_each; intros ?
  | |- keeps _ (gets _) => apply keeps_gets
  | |- keeps _ (asks _) => apply keeps_asks
  | |- keeps _ (if ?b then _ else _) => destruct b eqn:?
  | |- keeps _ (match ?x with _ => _ end) => destruct x eqn:?
  end.

Ltac keeps_all := repeat (keeps_step; try assumption); eauto 4 with kad.
