(* ===== verification/Protocol.v ===== *)
(** * Protocol state, contacts and welcome (src/src/protocol/mod.rs,
    contacts.rs, welcome.rs)

    The state of a node, its tasks and seeds; how messages change what it knows
    of its contacts; and the nodes it welcomes. Traffic counters and log lines
    are left out: no method reads them. *)

From S2P Require Import Prelude Utils Node Routing Storage Fragmentation Messages Retransmit.
From S2P Require Import Crypto AuthHandler Effects.

(** [RPC_TIMEOUT] (transport.rs), [RETURNED_AFTER] (contacts.rs). *)
Definition RPC_TIMEOUT : Z := from_millis 2500.
Definition RETURNED_AFTER : Z := RPC_TIMEOUT.

(** The constants of welcome.rs. *)
Definition WELCOME_CONCURRENCY : nat := 1.
Definition MAX_WELCOME_QUEUE : nat := 256.
Definition WELCOME_SCAN_CHUNK : nat := 256.
Definition REPLICATION_CONCURRENCY : nat := 4.

(** ** State *)

(** [PendingCall] (transport.rs). The one-shot channel [reply] and the
    notification [received] belong to one call: both are its number. *)
Record PendingCall := mkPending {
  call_peer : SocketAddr;
  expected : ExpectedResponse;
  call_channel : N
}.

(** [RequestKey] (transport.rs). *)
Abbreviation RequestKey := (SocketAddr * bytes)%type.

(** What [spawn_task] runs after it returns: the ping of an oldest contact,
    the replication to a welcomed node, a STORE that waits for a lookup, and
    the endless loops [listen] starts. *)
Inductive Task :=
  | PingOldest (oldest : Node)
  | Replicate (node : Node)
  | HandleStore (peer : SocketAddr) (request : bytes) (id : Z) (m : RpcMessage)
  | Worker | Receiver | Refresh | Maintenance | StatsLog | SaveState.

(** The routing table and the nodes being pinged or welcomed. *)
Record Contacts := mkContacts {
  router : RoutingTable.t;
  welcome_in_flight : gset ident;
  welcome_permits : nat;
  oldest_pings_in_flight : gset ident
}.

(** The calls and requests under way. [delivered] holds the message sent on the
    channel of a call and not yet taken, [notified] the calls with a
    notification to take, [channels] the number of the next call. *)
Record Transport := mkTransport {
  pending : gmap Z PendingCall;
  delivered : gmap N RpcMessage;
  notified : gset N;
  channels : N;
  round_trips : RoundTrips.t;
  requests_in_progress : gset RequestKey;
  store_lookups : Z;
  next_msg_id : Z;
  next_frag_id : Z;
  reassembler : Reassembler
}.

Section protocol.
Context {St C E : Type}.

(** [KademliaProtocol]. *)
Record KademliaProtocol := mkProto {
  source_node : Node;
  ksize : nat;
  alpha : nat;
  contacts : Contacts;
  transport : Transport;
  storage : St;
  sig_cache : option C;
  tasks : option (list Task);
  seeds : list (string * Z)
}.

(** [KademliaProtocol::new]; the handler and the socket are the parameters
    [SignatureVerifierHandler] and [Environment]. *)
Definition new (now unix : Z) (source : Node) (st : St) (k a : nat) (cache : option C)
    : KademliaProtocol :=
  mkProto source k a
    (mkContacts (RoutingTable.new unix source k) ∅ WELCOME_CONCURRENCY ∅)
    (mkTransport ∅ ∅ ∅ 0 RoundTrips.default_ ∅ 0 0 0 (mkR ∅ now))
    st cache (Some []) [].

(** ** Updates of one field *)

Definition with_contacts (c : Contacts) (p : KademliaProtocol) : KademliaProtocol :=
  mkProto (source_node p) (ksize p) (alpha p) c (transport p) (storage p) (sig_cache p) (tasks p) (seeds p).
Definition with_transport (t : Transport) (p : KademliaProtocol) : KademliaProtocol :=
  mkProto (source_node p) (ksize p) (alpha p) (contacts p) t (storage p) (sig_cache p) (tasks p) (seeds p).
Definition with_storage (s : St) (p : KademliaProtocol) : KademliaProtocol :=
  mkProto (source_node p) (ksize p) (alpha p) (contacts p) (transport p) s (sig_cache p) (tasks p) (seeds p).
Definition with_cache (c : option C) (p : KademliaProtocol) : KademliaProtocol :=
  mkProto (source_node p) (ksize p) (alpha p) (contacts p) (transport p) (storage p) c (tasks p) (seeds p).
Definition with_tasks (t : option (list Task)) (p : KademliaProtocol) : KademliaProtocol :=
  mkProto (source_node p) (ksize p) (alpha p) (contacts p) (transport p) (storage p) (sig_cache p) t (seeds p).
Definition with_seeds (l : list (string * Z)) (p : KademliaProtocol) : KademliaProtocol :=
  mkProto (source_node p) (ksize p) (alpha p) (contacts p) (transport p) (storage p) (sig_cache p) (tasks p) l.

Definition with_router (rt : RoutingTable.t) (c : Contacts) : Contacts :=
  mkContacts rt (welcome_in_flight c) (welcome_permits c) (oldest_pings_in_flight c).
Definition with_welcome (s : gset ident) (c : Contacts) : Contacts :=
  mkContacts (router c) s (welcome_permits c) (oldest_pings_in_flight c).
Definition with_permits (n : nat) (c : Contacts) : Contacts :=
  mkContacts (router c) (welcome_in_flight c) n (oldest_pings_in_flight c).
Definition with_pings (s : gset ident) (c : Contacts) : Contacts :=
  mkContacts (router c) (welcome_in_flight c) (welcome_permits c) s.

Definition on_contacts (f : Contacts → Contacts) (p : KademliaProtocol) : KademliaProtocol :=
  with_contacts (f (contacts p)) p.
Definition on_transport (f : Transport → Transport) (p : KademliaProtocol) : KademliaProtocol :=
  with_transport (f (transport p)) p.
Definition router_of (p : KademliaProtocol) : RoutingTable.t := router (contacts p).
Definition set_router (rt : RoutingTable.t) (p : KademliaProtocol) : KademliaProtocol :=
  on_contacts (with_router rt) p.

(** ** Tasks and seeds (mod.rs) *)

(** [KademliaProtocol::spawn_task]; false when the node has stopped and the
    task is dropped. Finished tasks leave the set when they end. *)
Definition spawn_task (t : Task) (p : KademliaProtocol) : KademliaProtocol * bool :=
  match tasks p with
  | Some ts => (with_tasks (Some (ts ++ [t])) p, true)
  | None => (p, false)
  end.

(** [KademliaProtocol::remember_seeds]. *)
Definition remember_seed (l : list (string * Z)) (addr : string * Z) : list (string * Z) :=
  if bool_decide (addr ∈ l) then l else l ++ [addr].

Definition remember_seeds (addrs : list (string * Z)) (p : KademliaProtocol) : KademliaProtocol :=
  with_seeds (foldl remember_seed (seeds p) addrs) p.

(** [KademliaProtocol::take_tasks], and what [shutdown_tasks] and
    [abort_tasks] leave: no task, and none can start any more. *)
Definition take_tasks (p : KademliaProtocol) : KademliaProtocol * option (list Task) :=
  (with_tasks None p, tasks p).

Definition shutdown_tasks (p : KademliaProtocol) : KademliaProtocol := (take_tasks p).1.
Definition abort_tasks (p : KademliaProtocol) : KademliaProtocol := (take_tasks p).1.

(** ** Contacts (contacts.rs) *)

Context `{Environment E KademliaProtocol}.
Abbreviation M := (M KademliaProtocol E).

(** [self.router.read().await]. *)
Definition read_router : M RoutingTable.t := pause ;; gets router_of.

(** [self.router.read().await.find_neighbors(..)], which touches a bucket. *)
Definition find_neighbors (target : Node) (exclude : option Node) : M (list Node) :=
  pause ;; unix ← asks unix_time;
  update (λ p, let '(ns, rt) := RoutingTable.find_neighbors unix (router_of p) target exclude in
               (set_router rt p, ns)).

(** [find_neighbors_to_advertise]. *)
Definition find_neighbors_to_advertise (target : Node) (exclude : option Node) : M (list Node) :=
  pause ;; unix ← asks unix_time;
  update (λ p, let '(ns, rt) :=
                 RoutingTable.find_neighbors_to_advertise unix (router_of p) target exclude in
               (set_router rt p, ns)).

(** [KademliaProtocol::note_failure]. *)
Definition note_failure (peer : Node) : M unit :=
  pause ;; now ← asks instant; jit ← asks jitter;
  modify (λ p, set_router (RoutingTable.record_failure_at jit (router_of p) peer now) p).

(** [KademliaProtocol::note_alive]. *)
Definition note_alive (n : Node) : M (option Z) :=
  rt ← read_router;
  if negb (RoutingTable.has_failures rt (id n)) then mret None
  else
    let from_registered_endpoint :=
      match RoutingTable.get_contact rt (id n) with
      | Some contact => same_home_as contact n
      | None => false
      end in
    if negb from_registered_endpoint && negb (RoutingTable.is_stale rt (id n)) then mret None
    else
      pause ;; now ← asks instant;
      update (λ p, let '(rt', silent_for) := RoutingTable.record_success (router_of p) (id n) now in
                   (set_router rt' p, silent_for)).

(** The two shared-map steps of [KademliaProtocol::add_contact]: the routing
    table, and the ping of the oldest contact unless one is in flight. A table
    operation out of fuel leaves the table as it is, which
    [RoutingSpec.add_contact_spec] excludes for well-formed tables. *)
Definition add_to_table (unix : Z) (n : Node) (p : KademliaProtocol) : KademliaProtocol * option Node :=
  match RoutingTable.add_contact unix (router_of p) n with
  | Some (rt, oldest) => (set_router rt p, oldest)
  | None => (p, None)
  end.

Definition ping_oldest (oldest : Node) (p : KademliaProtocol) : KademliaProtocol :=
  if bool_decide (id oldest ∈ oldest_pings_in_flight (contacts p)) then p
  else
    let p1 := on_contacts (λ c, with_pings ({[id oldest]} ∪ oldest_pings_in_flight c) c) p in
    (spawn_task (PingOldest oldest) p1).1.

(** [KademliaProtocol::add_contact]. *)
Definition add_contact (n : Node) : M unit :=
  pause ;; unix ← asks unix_time;
  oldest ← update (add_to_table unix n);
  match oldest with
  | None => mret tt
  | Some oldest => modify (ping_oldest oldest)
  end.

(** [lo + (r % span)] as an id. *)
Definition refresh_id (b : KBucket.t) (r : ident) : ident :=
  let '(lo, hi) := KBucket.range b in
  be_bytes ID_LEN (lo + id_to_u256 r `mod` (hi - lo + 1)) ↾ length_be_bytes ID_LEN _.

(** [KademliaProtocol::get_refresh_ids]. *)
Definition get_refresh_ids : M (list ident) :=
  rt ← read_router; unix ← asks unix_time;
  for_each (λ b, refresh_id b <$> effect random_id) (RoutingTable.lonely_buckets unix rt).

(** ** Welcome (welcome.rs) *)

(** [insert] on [welcome_in_flight], and the task if the node was not there. *)
Definition queue_insert (n : Node) (p : KademliaProtocol) : KademliaProtocol :=
  let queue := welcome_in_flight (contacts p) in
  let p1 := on_contacts (with_welcome ({[id n]} ∪ queue)) p in
  if bool_decide (id n ∈ queue) then p1 else (spawn_task (Replicate n) p1).1.

(** The queue of nodes to replicate to: [contains_key], [len] and [insert] on
    [welcome_in_flight]. Each is atomic, but other threads may change the map
    between them. *)
Definition queue_replication (n : Node) : M unit :=
  waiting ← gets (λ p, bool_decide (id n ∈ welcome_in_flight (contacts p)));
  if (waiting : bool) then mret tt
  else
    pause ;; len ← gets (λ p, size (welcome_in_flight (contacts p)));
    if MAX_WELCOME_QUEUE <=? len then mret tt
    else pause ;; modify (queue_insert n).

(** [KademliaProtocol::schedule_welcome_if_new]. *)
Definition schedule_welcome_if_new (n : Node) : M unit :=
  silent ← note_alive n;
  let returned := match silent with
                  | Some silent_for => (RETURNED_AFTER <=? silent_for)%Z
                  | None => false
                  end in
  fresh ← (if returned then mret true
           else rt ← read_router; mret (RoutingTable.is_new_node rt n)) : M bool;
  if negb fresh then mret tt
  else add_contact n ;; queue_replication n.

(** Whether [replicate_to] sends the record at [key] to [n], given the
    neighbours of the key without [n]. *)
Definition should_replicate (self n key_node : Node) (neighbors : list Node) : bool :=
  match last neighbors with
  | Some far => (distance_to n key_node <? distance_to far key_node)%Z
  | None => true
  end &&
  match hd_error neighbors with
  | Some near => (distance_to self key_node <? distance_to near key_node)%Z
  | None => true
  end.

(** The chunks of the scan of [replicate_to]: one read lock per chunk. *)
Fixpoint scan_chunk (unix : Z) (self n : Node) (rt : RoutingTable.t) (entries : list (bytes * bytes))
    : RoutingTable.t * list (ident * bytes) :=
  match entries with
  | [] => (rt, [])
  | (key_vec, value) :: rest =>
      match ident_of_bytes key_vec with
      | None => scan_chunk unix self n rt rest
      | Some key =>
          let '(neighbors, rt1) :=
            RoutingTable.find_neighbors unix rt (Node_from_id key) (Some n) in
          let '(rt2, keys) := scan_chunk unix self n rt1 rest in
          (rt2, if should_replicate self n (Node_from_id key) neighbors
                then (key, value) :: keys else keys)
      end
  end.

(** The loop of [replicate_to] over the chunks. [fuel] bounds the number of
    chunks by the number of entries, each chunk taking at least one. *)
Fixpoint scan (fuel : nat) (n : Node) (entries : list (bytes * bytes)) : M (list (ident * bytes)) :=
  match fuel, entries with
  | _, [] => mret []
  | O, _ => mret []
  | S fuel', _ =>
      pause ;; unix ← asks unix_time;
      keys ← update (λ p,
        let '(rt, keys) := scan_chunk unix (source_node p) n (router_of p)
                             (take WELCOME_SCAN_CHUNK entries) in
        (set_router rt p, keys));
      rest ← scan fuel' n (drop WELCOME_SCAN_CHUNK entries);
      mret (keys ++ rest)
  end.

(** The records [replicate_to] sends to [n]. *)
Definition records_for `{IStorage St} (n : Node) : M (list (ident * bytes)) :=
  now ← asks instant;
  entries ← gets (λ p, iter_all now (storage p));
  scan (length entries) n entries.

End protocol.

Arguments KademliaProtocol : clear implicits.
