(* ===== verification/Transport.v ===== *)
(** * Sending requests (src/src/protocol/transport.rs)

    Frames become datagrams; [call] sends a request, sends it again when it
    seems lost, and waits for its answer. Serialization (bincode) is a
    parameter. *)

From S2P Require Import Prelude Utils Node Storage Fragmentation Messages Retransmit.
From S2P Require Import Crypto AuthHandler Effects Protocol.

(** bincode: [serialize] and [deserialize] of a frame. *)
Class Bincode := {
  serialize : Frame → option bytes;
  deserialize : bytes → option Frame
}.

Definition wrap32 (x : Z) : Z := (x `mod` 2 ^ 32)%Z.

(** ** Updates of the transport state *)

Definition with_pending (m : gmap Z PendingCall) (t : Transport) : Transport :=
  mkTransport m (delivered t) (notified t) (channels t) (round_trips t) (requests_in_progress t)
    (store_lookups t) (next_msg_id t) (next_frag_id t) (reassembler t).
Definition with_delivered (m : gmap N RpcMessage) (t : Transport) : Transport :=
  mkTransport (pending t) m (notified t) (channels t) (round_trips t) (requests_in_progress t)
    (store_lookups t) (next_msg_id t) (next_frag_id t) (reassembler t).
Definition with_notified (s : gset N) (t : Transport) : Transport :=
  mkTransport (pending t) (delivered t) s (channels t) (round_trips t) (requests_in_progress t)
    (store_lookups t) (next_msg_id t) (next_frag_id t) (reassembler t).
Definition with_round_trips (r : RoundTrips.t) (t : Transport) : Transport :=
  mkTransport (pending t) (delivered t) (notified t) (channels t) r (requests_in_progress t)
    (store_lookups t) (next_msg_id t) (next_frag_id t) (reassembler t).
Definition with_in_progress (s : gset RequestKey) (t : Transport) : Transport :=
  mkTransport (pending t) (delivered t) (notified t) (channels t) (round_trips t) s
    (store_lookups t) (next_msg_id t) (next_frag_id t) (reassembler t).
Definition with_lookups (n : Z) (t : Transport) : Transport :=
  mkTransport (pending t) (delivered t) (notified t) (channels t) (round_trips t)
    (requests_in_progress t) n (next_msg_id t) (next_frag_id t) (reassembler t).
Definition with_ids (msg frag : Z) (t : Transport) : Transport :=
  mkTransport (pending t) (delivered t) (notified t) (channels t) (round_trips t)
    (requests_in_progress t) (store_lookups t) msg frag (reassembler t).
Definition with_reassembler (r : Reassembler) (t : Transport) : Transport :=
  mkTransport (pending t) (delivered t) (notified t) (channels t) (round_trips t)
    (requests_in_progress t) (store_lookups t) (next_msg_id t) (next_frag_id t) r.

(** A new call: its entry under [msg_id], on a channel of its own. *)
Definition open_call (msg_id : Z) (addr : SocketAddr) (e : ExpectedResponse) (t : Transport)
    : Transport * N :=
  (mkTransport (<[msg_id := mkPending addr e (channels t)]> (pending t)) (delivered t) (notified t)
     (N.succ (channels t)) (round_trips t) (requests_in_progress t) (store_lookups t)
     (next_msg_id t) (next_frag_id t) (reassembler t), channels t).

(** The end of a call: [PendingGuard::drop] removes the entry of [msg_id], and
    the receiving ends of its channels go. *)
Definition close_call (msg_id : Z) (ch : N) (t : Transport) : Transport :=
  with_notified (notified t ∖ {[ch]})
    (with_delivered (delete ch (delivered t)) (with_pending (delete msg_id (pending t)) t)).

(** What polling the answer channel finds. The channel is closed when its
    sender is gone without having sent. *)
Inductive Polled := Answered (m : RpcMessage) | Closed | NotReady.

Definition poll_answer (ch : N) (t : Transport) : Transport * Polled :=
  match delivered t !! ch with
  | Some m => (with_delivered (delete ch (delivered t)) t, Answered m)
  | None =>
      if existsb (λ c, bool_decide (call_channel c = ch)) (map_to_list (pending t)).*2
      then (t, NotReady) else (t, Closed)
  end.

Definition poll_receipt (ch : N) (t : Transport) : Transport * bool :=
  if bool_decide (ch ∈ notified t) then (with_notified (notified t ∖ {[ch]}) t, true) else (t, false).

(** ** The waiting of a call *)

(** The variables of the loop of [call]. *)
Record CallLoop := mkLoop { wait : Z; next_send : Z; resends : Z; receipts : Z }.

(** Before the first turn of the loop; [resend_after] of the peer. *)
Definition first_loop (first_sent resend_after : Z) : CallLoop :=
  mkLoop resend_after (first_sent + resend_after) 0 0.

(** A receipt: the first one restarts the wait from the measured round trip,
    the others double it. [resend_after] is read after recording the sample. *)
Definition on_receipt (now resend_after : Z) (l : CallLoop) : CallLoop :=
  let n := (receipts l + 1)%Z in
  let wait' := if (n =? 1)%Z then (resend_after * 2)%Z else (wait l * 2)%Z in
  mkLoop wait' (now + wait') (resends l) n.

(** The timer: not due, the deadline, nothing more to send, or a resend. *)
Inductive TimerAction := NotDue | GiveUp | Idle (l : CallLoop) | Resend (l : CallLoop).

Definition on_timer (now deadline : Z) (l : CallLoop) : TimerAction :=
  if (now <? Z.min (next_send l) deadline)%Z then NotDue
  else if (deadline <=? now)%Z then GiveUp
  else if (resends l =? MAX_RESENDS)%Z then Idle (mkLoop (wait l) deadline (resends l) (receipts l))
  else Resend (mkLoop (wait l) (next_send l) (resends l + 1) (receipts l)).

(** After a resend at [now]. *)
Definition after_resend (now : Z) (l : CallLoop) : CallLoop :=
  mkLoop (wait l * 2) (now + wait l * 2) (resends l) (receipts l).

(** ** [StoreLookupSlot] (store_check.rs) and [InProgress] *)

(** [STORE_LOOKUP_TIMEOUT] and [MAX_STORE_LOOKUPS]. *)
Definition STORE_LOOKUP_TIMEOUT : Z := from_millis 2000.
Definition MAX_STORE_LOOKUPS : Z := 256.

(** [AtomicUsize::fetch_add(1)] and [fetch_sub(1)] on the count of places, which
    wrap around; [fetch_add] returns the count before it. *)
Definition USIZE_MOD : Z := 2 ^ 64.
Definition fetch_add_lookups (t : Transport) : Transport * Z :=
  (with_lookups ((store_lookups t + 1) `mod` USIZE_MOD) t, store_lookups t).
Definition fetch_sub_lookups (t : Transport) : Transport :=
  with_lookups ((store_lookups t - 1) `mod` USIZE_MOD) t.

(** [StoreLookupSlot::drop]. *)
Definition drop_slot (t : Transport) : Transport := fetch_sub_lookups t.

(** [InProgress::start] and [drop]. *)
Definition start_request (key : RequestKey) (t : Transport) : Transport * bool :=
  (with_in_progress ({[key]} ∪ requests_in_progress t) t,
   negb (bool_decide (key ∈ requests_in_progress t))).

Definition end_request (key : RequestKey) (t : Transport) : Transport :=
  with_in_progress (requests_in_progress t ∖ {[key]}) t.

Section transport.
Context {St C E : Type} `{Bincode}.
Abbreviation P := (KademliaProtocol St C).
Context `{Environment E P}.
Abbreviation M := (M P E).

(** An update of the transport state with a result. *)
Definition on_transport_r {A} (f : Transport → Transport * A) : M A :=
  update (λ p, let '(t, a) := f (Protocol.transport p) in (with_transport t p, a)).

(** [StoreLookupSlot::take]: [fetch_add], undone when the places are taken; other
    threads may come between the two. *)
Definition take_slot : M bool :=
  before ← on_transport_r fetch_add_lookups;
  if (MAX_STORE_LOOKUPS <=? before)%Z
  then pause ;; modify (on_transport fetch_sub_lookups) ;; mret false
  else mret true.

(** [KademliaProtocol::next_id]. *)
Definition next_id : M Z :=
  on_transport_r (λ t, (with_ids (wrap32 (next_msg_id t + 1)) (next_frag_id t) t, next_msg_id t)).

(** [KademliaProtocol::encode_frame], with [next_frag_id_val]. *)
Definition encode_frame (f : Frame) : M (option (list bytes)) :=
  match serialize f with
  | None => mret None
  | Some b =>
      on_transport_r (λ t,
        match encode_message (next_frag_id t) b with
        | None => (t, None)
        | Some datagrams => (with_ids (next_msg_id t) (wrap32 (next_frag_id t + 1)) t, Some datagrams)
        end)
  end.

(** [KademliaProtocol::send_datagrams]. *)
Fixpoint send_datagrams (addr : SocketAddr) (datagrams : list bytes) : M bool :=
  match datagrams with
  | [] => mret true
  | dg :: rest =>
      pause ;; ok ← effect (λ e, send_to e addr dg);
      if negb ok then mret false else send_datagrams addr rest
  end.

(** [KademliaProtocol::send_frame]. *)
Definition send_frame (addr : SocketAddr) (f : Frame) : M bool :=
  datagrams ← encode_frame f;
  match datagrams with
  | Some ds => send_datagrams addr ds
  | None => mret false
  end.

(** [KademliaProtocol::answer]. *)
Definition answer (peer : SocketAddr) (msg_id : Z) (response : option RpcMessage) : M unit :=
  match response with
  | Some m => send_frame peer (mkFrame msg_id false m) ;; mret tt
  | None => mret tt
  end.

(** [self.round_trips.record(addr, first_sent.elapsed())]. *)
Definition record_round_trip (addr : SocketAddr) (first_sent : Z) : M unit :=
  now ← asks instant;
  modify (on_transport (λ t, with_round_trips
    (RoundTrips.record now (round_trips t) addr (now - first_sent)) t)).

Definition resend_after (addr : SocketAddr) : M Z :=
  gets (λ p, RoundTrips.resend_after (round_trips (Protocol.transport p)) addr).

(** The loop of [call], until the deadline: [evs] are the branches of the
    [select!] the scheduler tries, in order; a branch that is not ready does
    nothing. When they are over the timer fires at the deadline. *)
Fixpoint call_loop (addr : SocketAddr) (datagrams : list bytes) (answer_measures : bool) (ch : N)
    (first_sent deadline : Z) (l : CallLoop) (evs : list Wakeup) : M (option RpcMessage) :=
  match evs with
  | [] => pause ;; mret None
  | ev :: evs' =>
      pause ;; now ← asks instant;
      match ev with
      | OnAnswer =>
          polled ← on_transport_r (poll_answer ch);
          match polled with
          | Answered m =>
              (if answer_measures && (resends l =? 0)%Z then record_round_trip addr first_sent
               else mret tt) ;;
              mret (Some m)
          | Closed => mret None
          | NotReady => call_loop addr datagrams answer_measures ch first_sent deadline l evs'
          end
      | OnReceipt =>
          received ← on_transport_r (poll_receipt ch);
          if negb received then call_loop addr datagrams answer_measures ch first_sent deadline l evs'
          else
            (if (receipts l =? 0)%Z && (resends l =? 0)%Z then record_round_trip addr first_sent
             else mret tt) ;;
            after ← resend_after addr;
            call_loop addr datagrams answer_measures ch first_sent deadline
              (on_receipt now after l) evs'
      | OnTimer =>
          match on_timer now deadline l with
          | NotDue => call_loop addr datagrams answer_measures ch first_sent deadline l evs'
          | GiveUp => mret None
          | Idle l' => call_loop addr datagrams answer_measures ch first_sent deadline l' evs'
          | Resend l' =>
              sent ← send_datagrams addr datagrams;
              if negb sent then mret None
              else
                now' ← asks instant;
                call_loop addr datagrams answer_measures ch first_sent deadline
                  (after_resend now' l') evs'
          end
      end
  end.

(** [KademliaProtocol::call]. *)
Definition call (addr : SocketAddr) (m : RpcMessage) : M (option RpcMessage) :=
  msg_id ← next_id;
  datagrams ← encode_frame (mkFrame msg_id true m);
  match datagrams with
  | None => mret None
  | Some datagrams =>
      pause ;; ch ← on_transport_r (open_call msg_id addr (for_request m));
      first_sent ← asks instant;
      sent ← send_datagrams addr datagrams;
      result ← (if negb sent then mret None
                else
                  after ← resend_after addr;
                  evs ← asks wakeups;
                  call_loop addr datagrams (negb (bool_decide (is_Some (carried_record m)))) ch
                    first_sent (first_sent + RPC_TIMEOUT) (first_loop first_sent after) evs)
               : M (option RpcMessage);
      modify (on_transport (close_call msg_id ch)) ;;
      mret result
  end.

End transport.
