(* ===== verification/Client.v ===== *)
(** * The requests a node sends (src/src/protocol/client.rs)

    [call_*], and the instance of [SpiderProtocol] that lookups use; the pings
    of contacts.rs and the replication of welcome.rs, which send requests. *)

From S2P Require Import Prelude Utils Node Routing Storage Fragmentation Messages Retransmit.
From S2P Require Import Crypto AuthHandler Crawling Effects Protocol Transport.

(** ** Addresses *)

(** A decimal number of an IPv4 address: one to three digits, no leading zero,
    at most 255. *)
Definition digit (a : Ascii.ascii) : option N :=
  let n := Ascii.N_of_ascii a in
  if (48 <=? n)%N && (n <=? 57)%N then Some (n - 48)%N else None.

Definition is_octet (l : list Ascii.ascii) : bool :=
  match mapM digit l with
  | None => false
  | Some ds =>
      let v := foldl (λ acc d, acc * 10 + d)%N 0%N ds in
      match ds with
      | [] => false
      | [_] => true
      | d :: _ => negb (d =? 0)%N && (length ds <=? 3) && (v <=? 255)%N
      end
  end.

(** The fields between dots. *)
Fixpoint split_dots (l : list Ascii.ascii) : list (list Ascii.ascii) :=
  match l with
  | [] => [[]]
  | a :: l' =>
      match split_dots l' with
      | [] => [[a]]
      | f :: fs => if (Ascii.N_of_ascii a =? 46)%N then [] :: f :: fs else (a :: f) :: fs
      end
  end.

Definition is_ipv4 (s : string) : bool :=
  let fields := split_dots (String.list_ascii_of_string s) in
  (length fields =? 4) && forallb is_octet fields.

(** A bracketed IPv6 address, in the standard library's text form. *)
Class Ipv6Syntax := parse_bracketed_ipv6 : string → option string.

(** [socket_addr]: [format!("{}:{}", ip, port).parse()]. The port has no colon,
    so the address ends at the last one. *)
Definition socket_addr `{Ipv6Syntax} (addr : string * Z) : option SocketAddr :=
  if is_ipv4 addr.1 then Some (mkAddr addr.1 addr.2)
  else (λ ip6, mkAddr ip6 addr.2) <$> parse_bracketed_ipv6 addr.1.

(** [socket_addr_of]. *)
Definition socket_addr_of `{Ipv6Syntax} (peer : Node) : option SocketAddr :=
  a ← address peer; socket_addr a.

Section client.
Context {St C E : Type} `{Bincode, Ipv6Syntax}.
Abbreviation P := (KademliaProtocol St C).
Context `{Environment E P}.
Abbreviation M := (M P E).

Definition source_id : M ident := gets (λ p, id (source_node p)).

(** The tuples of a [FindPayload::Nodes]. *)
Definition wire_tuples (ns : list WireNode) : list (bytes * option string * option Z) :=
  (λ w, (ident_bytes (wire_id w), wire_ip w, wire_port w)) <$> ns.

Definition no_answer : RawResponse := mkRaw false PEmpty.

(** [call_find_node]. *)
Definition proto_find_node (peer target : Node) : M RawResponse :=
  match socket_addr_of peer with
  | None => mret no_answer
  | Some addr =>
      me ← source_id;
      r ← call addr (FindNode me (id target));
      match r with
      | Some (FindNodeResult ns) =>
          schedule_welcome_if_new peer ;; mret (mkRaw true (PNodes (wire_tuples ns)))
      | _ => note_failure peer ;; mret no_answer
      end
  end.

(** [KademliaProtocol::call_find]. *)
Definition call_find (peer : Node) (request : RpcMessage) : M RawResponse :=
  match socket_addr_of peer with
  | None => mret no_answer
  | Some addr =>
      r ← call addr request;
      match r with
      | Some (FindValueHit value) => schedule_welcome_if_new peer ;; mret (mkRaw true (PValue value))
      | Some (FindHashHit hash) => schedule_welcome_if_new peer ;; mret (mkRaw true (PValue hash))
      | Some (FindValueNodes ns) =>
          schedule_welcome_if_new peer ;; mret (mkRaw true (PNodes (wire_tuples ns)))
      | _ => note_failure peer ;; mret no_answer
      end
  end.

(** [call_find_value] and [call_find_hash]. *)
Definition proto_find_value (peer target : Node) : M RawResponse :=
  me ← source_id; call_find peer (FindValue me (id target)).

Definition call_find_hash (peer target : Node) : M RawResponse :=
  me ← source_id; call_find peer (FindHash me (id target)).

(** [KademliaProtocol::call_ping_addr]. *)
Definition call_ping_addr (addr : string * Z) : M (bool * bytes) :=
  match socket_addr addr with
  | None => mret (false, [])
  | Some a =>
      me ← source_id;
      r ← call a (Ping me);
      match r with
      | Some (Pong sender_id) => mret (true, ident_bytes sender_id)
      | _ => mret (false, [])
      end
  end.

(** [KademliaProtocol::call_ping_node] (contacts.rs). *)
Definition call_ping_node (n : Node) : M unit :=
  match address n with
  | None => mret tt
  | Some addr =>
      r ← call_ping_addr addr;
      if negb (fst r) then note_failure n else mret tt
  end.

(** [KademliaProtocol::probe_failing_contacts] (contacts.rs). *)
Definition probe_failing_contacts (limit : nat) : M unit :=
  rt ← read_router; now ← asks instant;
  for_each call_ping_node (RoutingTable.contacts_due_for_probe rt limit now) ;; mret tt.

(** [KademliaProtocol::call_store_rpc]. *)
Definition call_store_rpc (peer : Node) (key : ident) (value : bytes) : M (option StoreStatus) :=
  match socket_addr_of peer with
  | None => mret None
  | Some addr =>
      me ← source_id;
      r ← call addr (Store me key value);
      match r with
      | Some (StoreResult status) => note_alive peer ;; mret (Some status)
      | _ => note_failure peer ;; mret None
      end
  end.

(** [matches!(status, Some(StoreStatus::Stored | StoreStatus::AlreadyStored))]. *)
Definition holds_record (status : option StoreStatus) : bool :=
  match status with Some (SStored | SAlreadyStored) => true | _ => false end.

(** [call_store]. *)
Definition proto_store (peer : Node) (key : ident) (value : bytes) : M bool :=
  holds_record <$> call_store_rpc peer key value.

(** [KademliaProtocol::call_update_rpc_answer] and [call_update_rpc]. *)
Definition call_update_rpc_answer (peer : Node) (key : ident) (value auth_signature : bytes)
    : M (option bool) :=
  match socket_addr_of peer with
  | None => mret None
  | Some addr =>
      me ← source_id;
      r ← call addr (Update me key value auth_signature);
      match r with
      | Some (UpdateResult ok) => note_alive peer ;; mret (Some ok)
      | _ => note_failure peer ;; mret None
      end
  end.

Definition call_update_rpc (peer : Node) (key : ident) (value auth_signature : bytes) : M bool :=
  default false <$> call_update_rpc_answer peer key value auth_signature.

(** [KademliaProtocol::call_status_list_update_rpc]. *)
Definition call_status_list_update_rpc (peer : Node) (key : ident) (value : bytes) : M bool :=
  match socket_addr_of peer with
  | None => mret false
  | Some addr =>
      me ← source_id;
      r ← call addr (UpdateStatusList me key value);
      match r with
      | Some (UpdateStatusListResult ok) => note_alive peer ;; mret ok
      | _ => note_failure peer ;; mret false
      end
  end.

(** [KademliaProtocol::call_leave_rpc]. *)
Definition call_leave_rpc (peer : Node) : M unit :=
  match socket_addr_of peer with
  | None => mret tt
  | Some addr =>
      msg_id ← next_id; me ← source_id;
      send_frame addr (mkFrame msg_id true (Leave me)) ;; mret tt
  end.

(** [failing_among] and [note_no_answer]. *)
Definition proto_failing (p : P) (ns : list Node) : gset ident :=
  list_to_set (id <$> filter (λ n, RoutingTable.has_failures (router_of p) (id n) = true) ns).

Definition proto_note_no_answer (ns : list Node) : M unit :=
  for_each note_failure ns ;; mret tt.

(** [impl SpiderProtocol for KademliaProtocol]. *)
#[global] Instance kademlia_protocol : SpiderProtocol (World P E) := {|
  call_find_node w peer target := proto_find_node peer target w;
  call_find_value w peer target := proto_find_value peer target w;
  call_store w peer key value := proto_store peer key value w;
  failing_among w ns := proto_failing (proto w) ns;
  note_no_answer w ns := (proto_note_no_answer ns w).1
|}.

(** [KademliaProtocol::replicate_to] (welcome.rs). *)
Definition replicate_to `{IStorage St} (n : Node) : M unit :=
  keys ← records_for n;
  for_each (λ kv, call_store_rpc n kv.1 kv.2) keys ;; mret tt.

(** The task [add_contact] spawns (contacts.rs). *)
Definition ping_task (oldest : Node) : M unit :=
  call_ping_node oldest ;;
  modify (on_contacts (λ c, with_pings (oldest_pings_in_flight c ∖ {[id oldest]}) c)).

(** The task [schedule_welcome_if_new] spawns (welcome.rs), from the moment it
    has a permit of the semaphore; [None] while there is none. *)
Definition welcome_task `{IStorage St} (n : Node) (w : World P E) : option (World P E) :=
  match welcome_permits (contacts (proto w)) with
  | O => None
  | S permits =>
      Some ((modify (on_contacts (with_permits permits)) ;;
             replicate_to n ;;
             modify (on_contacts (λ c, with_permits (S (welcome_permits c)) c)) ;;
             modify (on_contacts (λ c, with_welcome (welcome_in_flight c ∖ {[id n]}) c))) w).1
  end.

End client.
