(* ===== verification/Handlers.v ===== *)
(** * Requests a node answers (src/src/protocol/handlers.rs, store_check.rs,
    and the receive path of transport.rs)

    One method per request, the network check of an empty replica before a
    STORE, and [handle_datagram], which routes answers to the calls waiting for
    them and requests to their method. *)

From S2P Require Import Prelude Utils Node Routing Storage Fragmentation Messages Retransmit.
From S2P Require Import Crypto AuthHandler Crawling Effects Protocol Transport Client.
Import ValueSpiderCrawl.

(** [FindValueResult]. *)
Inductive FindValueResult := FNodes (ns : list Node) | FValue (v : bytes).

(** [NetworkCopy] (store_check.rs). *)
Inductive NetworkCopy := NoneOrSame | Other | Unknown.

(** The scheduling of a lookup with a deadline: each of its rounds, and how many
    of them start before the deadline. Answers arrive in any order. *)
Class LookupSchedule (E : Type) := {
  round_env : E → nat → RoundEnv;
  round_order e n l : env_order (round_env e n) l ≡ₚ l;
  rounds_in_time : E → nat
}.

(** The rounds of such a lookup, counted down: the last one starts late. *)
Definition late_round : RoundEnv := mkEnv true (λ l, l) None false.

Definition timed_rounds `{LookupSchedule E} (e : E) (n : nat) : RoundEnv :=
  match n with O => late_round | S m => round_env e m end.

(** ** The steps of [handle_datagram] on the calls waiting for an answer *)

(** A receipt: [notify_one] on the call it is for. *)
Definition note_receipt (msg_id : Z) (peer : SocketAddr) (t : Transport) : Transport :=
  match pending t !! msg_id with
  | Some c =>
      if bool_decide (call_peer c = peer) && after_receipt (expected c)
      then with_notified ({[call_channel c]} ∪ notified t) t else t
  | None => t
  end.

(** An answer: the entry of the call it is for is removed, and its channel
    returned. *)
Definition take_pending (msg_id : Z) (peer : SocketAddr) (m : RpcMessage) (t : Transport)
    : Transport * option N :=
  match pending t !! msg_id with
  | Some c =>
      if bool_decide (call_peer c = peer) && accepts (expected c) m
      then (with_pending (delete msg_id (pending t)) t, Some (call_channel c)) else (t, None)
  | None => (t, None)
  end.

(** [tx.send(message)]. *)
Definition deliver (ch : N) (m : RpcMessage) (t : Transport) : Transport :=
  with_delivered (<[ch := m]> (delivered t)) t.

Section handlers.
Context {St C E : Type} `{Sha1, Sha256, Bincode, Ipv6Syntax, HashOrder}.
Context `{IStorage St, MokaCache C} (handler : SignatureVerifierHandler).
Abbreviation P := (KademliaProtocol St C).
Context `{Environment E P, LookupSchedule E}.
Abbreviation M := (M P E).

(** ** Records *)

(** [self.storage.get], [set] and [insert_if_absent]. *)
Definition storage_get (key : ident) : M (option bytes) :=
  now ← asks instant; gets (λ p, get now (storage p) (ident_bytes key)).

Definition storage_set (key : ident) (value : bytes) : M StorageWriteStatus :=
  now ← asks instant;
  update (λ p, let '(s, status) := set now (storage p) (ident_bytes key) value in
               (with_storage s p, status)).

Definition storage_insert (key : ident) (value : bytes) : M StorageWriteStatus :=
  now ← asks instant;
  update (λ p, let '(s, status) := insert_if_absent now (storage p) (ident_bytes key) value in
               (with_storage s p, status)).

(** [KademliaProtocol::verify_for_key]. The signature is checked on a blocking
    thread; the verdict does not depend on what happens meanwhile. *)
Definition verify_for_key (key : ident) (value : bytes) : M bool :=
  pause ;; now ← asks instant;
  b ← update (λ p, let '(b, c) := verify_record handler now (sig_cache p) key value in
                   (with_cache c p, b));
  pause ;; mret b.

(** [KademliaProtocol::key_binding_is_valid]. *)
Definition key_binding_is_valid (key : ident) (value : bytes) : bool := is_bound_to_key handler key value.

Definition node_at (sender_id : ident) (sender_addr : string * Z) : Node :=
  Node_new sender_id (Some sender_addr.1) (Some sender_addr.2).

(** ** Requests other than STORE *)

(** [KademliaProtocol::rpc_ping]. *)
Definition rpc_ping (sender_id : ident) (sender_addr : string * Z) : M ident :=
  schedule_welcome_if_new (node_at sender_id sender_addr) ;; source_id.

(** [KademliaProtocol::rpc_update]. *)
Definition rpc_update (sender_id : ident) (sender_addr : string * Z) (key : ident)
    (value auth_signature : bytes) : M bool :=
  if bool_decide (key = digest STATUS_LIST_KEY) then mret false
  else
    old ← storage_get key;
    match old with
    | None => mret false
    | Some old_value =>
        if bool_decide (old_value = value) then mret true
        else
          pause ;;
          if negb (verify_rotation handler key value old_value auth_signature) then mret false
          else
            schedule_welcome_if_new (node_at sender_id sender_addr) ;;
            status ← storage_set key value;
            mret (negb (bool_decide (status = CapacityExceeded)))
    end.

(** [KademliaProtocol::rpc_update_status_list]. *)
Definition rpc_update_status_list (sender_id : ident) (sender_addr : string * Z) (key : ident)
    (value : bytes) : M bool :=
  if negb (bool_decide (key = digest STATUS_LIST_KEY)) then mret false
  else
    old ← storage_get key;
    match old with
    | None => mret false
    | Some _ =>
        pause ;;
        if negb (verify_issuer_signed handler value) then mret false
        else
          schedule_welcome_if_new (node_at sender_id sender_addr) ;;
          status ← storage_set key value;
          mret (negb (bool_decide (status = CapacityExceeded)))
    end.

(** [KademliaProtocol::rpc_find_node]. *)
Definition rpc_find_node (sender_id : ident) (sender_addr : string * Z) (key : ident) : M (list Node) :=
  schedule_welcome_if_new (node_at sender_id sender_addr) ;;
  find_neighbors_to_advertise (Node_from_id key) (Some (node_at sender_id sender_addr)).

(** [KademliaProtocol::rpc_find_value]. *)
Definition rpc_find_value (sender_id : ident) (sender_addr : string * Z) (key : ident)
    : M FindValueResult :=
  schedule_welcome_if_new (node_at sender_id sender_addr) ;;
  held ← storage_get key;
  let neighbours : M FindValueResult :=
    FNodes <$> find_neighbors_to_advertise (Node_from_id key) (Some (node_at sender_id sender_addr)) in
  match held with
  | Some value => if key_binding_is_valid key value then mret (FValue value) else neighbours
  | None => neighbours
  end.

(** [KademliaProtocol::rpc_find_hash]. *)
Definition rpc_find_hash (sender_id : ident) (sender_addr : string * Z) (key : ident) : M RpcMessage :=
  found ← rpc_find_value sender_id sender_addr key;
  mret (match found with
        | FValue v => FindHashHit (record_hash v)
        | FNodes ns => FindValueNodes (wire_from_node <$> ns)
        end).

(** [KademliaProtocol::rpc_leave]. *)
Definition rpc_leave (sender_id : ident) (sender_addr : string * Z) : M unit :=
  rt ← read_router;
  match RoutingTable.get_contact rt sender_id with
  | Some contact =>
      if same_home_as contact (node_at sender_id sender_addr) then
        pause ;; modify (λ p, set_router (RoutingTable.remove_contact (router_of p) contact) p)
      else mret tt
  | None => mret tt
  end.

(** ** STORE (store_check.rs) *)

(** [KademliaProtocol::store_needs_lookup]. *)
Definition store_needs_lookup (key : ident) : M bool :=
  if bool_decide (key = digest STATUS_LIST_KEY) then mret false
  else held ← storage_get key; mret (bool_decide (held = None)).

(** The peers [network_copy] asks, and whether this node is among the closest
    to the key by its own table: one read lock of the routing table. *)
Definition peers_to_ask (target : Node) : M (list Node * bool) :=
  pause ;; unix ← asks unix_time;
  update (λ p,
    let '(neighbors, rt) := RoutingTable.find_neighbors unix (router_of p) target None in
    let own_distance := distance_to (source_node p) target in
    let closer := length (filter (λ n, (distance_to n target < own_distance)%Z) neighbors) in
    let nearest := filter (λ n, RoutingTable.has_failures rt (id n) = false) neighbors in
    (set_router rt p, (nearest, closer <? Protocol.ksize p))).

(** The acceptance of [network_copy]: the hash of another record. *)
Definition other_hash (own found : bytes) : option bytes :=
  if bool_decide (found = own) then None else Some found.

Definition copy_of (r : ValueSearch) : NetworkCopy :=
  match r with Found _ => Other | NotFound => NoneOrSame | Incomplete => Unknown end.

(** The lookup of [network_copy]. It has a deadline, so it ends:
    [search_in_time] excludes the last case. *)
Definition copy_crawl (key : ident) (nearest : list Node) (among_closest : bool) (k a : nat)
    : ValueSpiderCrawl.t :=
  let crawl := ValueSpiderCrawl.new (Node_from_id key) nearest k a in
  if among_closest then asking_everyone crawl else crawl.

Definition copy_search (e : E) (value : bytes) (crawl : ValueSpiderCrawl.t) (w : World P E)
    : option (World P E * SpiderCrawl.t * ValueSearch) :=
  search (S (rounds_in_time e)) (timed_rounds e) true (λ w p t, call_find_hash p t w)
    (λ w found, (w, other_hash (record_hash value) found)) w (base crawl) false.

Definition copy_lookup (e : E) (value : bytes) (crawl : ValueSpiderCrawl.t) : M NetworkCopy := λ w,
  match copy_search e value crawl w with
  | Some (w', _, r) => (w', copy_of r)
  | None => (w, Unknown)
  end.

(** [KademliaProtocol::network_copy]. *)
Definition network_copy (key : ident) (value : bytes) : M NetworkCopy :=
  '(nearest, among_closest) ← peers_to_ask (Node_from_id key);
  if bool_decide (nearest = []) then mret Unknown
  else
    k ← gets Protocol.ksize; a ← gets Protocol.alpha; e ← asks (λ e, e);
    copy_lookup e value (copy_crawl key nearest among_closest k a).

(** The last part of [rpc_store]: verify, then insert. *)
Definition verify_and_insert (sender_id : ident) (sender_addr : string * Z) (key : ident)
    (value : bytes) : M (option StoreStatus) :=
  ok ← verify_for_key key value;
  if negb ok then mret (Some SInvalidRecord)
  else
    status ← storage_insert key value;
    (match status with
     | Stored | AlreadyStored => schedule_welcome_if_new (node_at sender_id sender_addr)
     | Conflict | CapacityExceeded => mret tt
     end) ;;
    mret (Some (store_status_from status)).

(** [KademliaProtocol::rpc_store]. *)
Definition rpc_store (sender_id : ident) (sender_addr : string * Z) (key : ident) (value : bytes)
    : M (option StoreStatus) :=
  empty ← store_needs_lookup key;
  if negb empty then verify_and_insert sender_id sender_addr key value
  else if negb (key_binding_is_valid key value) then mret (Some SInvalidRecord)
  else
    copy ← network_copy key value;
    match copy with
    | NoneOrSame => verify_and_insert sender_id sender_addr key value
    | Other => mret (Some SConflict)
    | Unknown => mret None
    end.

(** ** Dispatch *)

(** [KademliaProtocol::dispatch_request]. *)
Definition dispatch_request (m : RpcMessage) (peer : SocketAddr) : M (option RpcMessage) :=
  let sender_addr := (addr_ip peer, addr_port peer) in
  match m with
  | Ping sender_id => resp_id ← rpc_ping sender_id sender_addr; mret (Some (Pong resp_id))
  | Store sender_id key value =>
      status ← rpc_store sender_id sender_addr key value; mret (StoreResult <$> status)
  | Update sender_id key value auth_signature =>
      ok ← rpc_update sender_id sender_addr key value auth_signature; mret (Some (UpdateResult ok))
  | UpdateStatusList sender_id key value =>
      ok ← rpc_update_status_list sender_id sender_addr key value;
      mret (Some (UpdateStatusListResult ok))
  | FindNode sender_id key =>
      ns ← rpc_find_node sender_id sender_addr key;
      mret (Some (FindNodeResult (wire_from_node <$> ns)))
  | FindValue sender_id key =>
      result ← rpc_find_value sender_id sender_addr key;
      mret (Some (match result with
                  | FValue v => FindValueHit v
                  | FNodes ns => FindValueNodes (wire_from_node <$> ns)
                  end))
  | FindHash sender_id key => Some <$> rpc_find_hash sender_id sender_addr key
  | Leave sender_id => rpc_leave sender_id sender_addr ;; mret None
  | Pong _ | StoreResult _ | UpdateResult _ | UpdateStatusListResult _ | FindNodeResult _
  | FindValueNodes _ | FindValueHit _ | FindHashHit _ | Received => mret None
  end.

(** ** [handle_datagram] *)

(** An incoming answer. *)
Definition handle_response (f : Frame) (peer : SocketAddr) : M unit :=
  match message f with
  | Received => pause ;; modify (on_transport (note_receipt (msg_id f) peer))
  | m =>
      pause ;; tx ← on_transport_r (take_pending (msg_id f) peer m);
      match tx with
      | None => mret tt
      | Some ch =>
          (match m with
           | Pong sender_id => schedule_welcome_if_new (node_at sender_id (addr_ip peer, addr_port peer))
           | _ => mret tt
           end) ;;
          modify (on_transport (deliver ch m))
      end
  end.

Definition answer_request (peer : SocketAddr) (f : Frame) : M unit :=
  response ← dispatch_request (message f) peer; answer peer (msg_id f) response.

(** A STORE to an empty replica takes one of the places of the lookups. *)
Definition needs_slot (m : RpcMessage) : M bool :=
  match m with Store _ key _ => store_needs_lookup key | _ => mret false end.

(** An incoming request that carries a record. *)
Definition handle_record_request (payload : bytes) (f : Frame) (peer : SocketAddr) : M unit :=
  let request := (peer, record_hash payload) in
  started ← on_transport_r (start_request request);
  if negb started then answer peer (msg_id f) (Some Received)
  else
    slot ← needs_slot (message f);
    if negb slot then
      answer peer (msg_id f) (Some Received) ;;
      answer_request peer f ;;
      modify (on_transport (end_request request))
    else
      taken ← take_slot;
      if negb taken then modify (on_transport (end_request request))
      else
        answer peer (msg_id f) (Some Received) ;;
        spawned ← update (spawn_task (HandleStore peer (record_hash payload) (msg_id f) (message f)));
        if negb spawned then
          modify (on_transport drop_slot) ;; modify (on_transport (end_request request))
        else mret tt.

(** The task of such a STORE. *)
Definition store_task (peer : SocketAddr) (request : bytes) (i : Z) (m : RpcMessage) : M unit :=
  answer_request peer (mkFrame i true m) ;;
  modify (on_transport (end_request (peer, request))) ;; modify (on_transport drop_slot).

(** [KademliaProtocol::handle_datagram]. *)
Definition handle_datagram (data : bytes) (peer : SocketAddr) : M unit :=
  pause ;; now ← asks instant;
  complete ← on_transport_r (λ t,
    let '(r, payload) := receive_payload now (reassembler t) peer data in
    (with_reassembler r t, payload));
  match complete with
  | None => mret tt
  | Some payload =>
      match deserialize payload with
      | None => mret tt
      | Some f =>
          if negb (is_request f) then handle_response f peer
          else match carried_record (message f) with
               | None => answer_request peer f
               | Some _ => handle_record_request payload f peer
               end
      end
  end.

End handlers.
