(* ===== verification/NodeExample.v ===== *)
(** * A concrete node

    Libraries, a clock and a network simple enough to run: every call to
    the peer is answered with the friendliest answer. The witnesses of the
    theorems on requests run on it. *)

From S2P Require Import Prelude Utils Node Routing Storage StorageProps Fragmentation Messages Retransmit.
From S2P Require Import Crypto AuthHandler AuthProps Crawling Effects Protocol Transport Client Handlers.

Module NodeExample.

(** ** Libraries *)

#[global] Instance ex_sha1 : Sha1 := λ l, ident_ends x00 (byte_of_Z (Z.of_nat (length l))).
#[global] Instance ex_sha256 : Sha256 := λ l, l.
#[global] Instance ex_ipv6 : Ipv6Syntax := λ _, None.

#[global] Program Instance ex_order : HashOrder := {| hash_order A l := l |}.
Next Obligation. done. Qed.

(** A cache that never forgets. *)
Abbreviation Cache := (gmap bytes bool).

#[global] Instance ex_cache : MokaCache Cache := {|
  cache_get _ c k := c !! k;
  cache_insert _ c k b := <[k := b]> c
|}.

#[global] Instance ex_cache_laws : MokaCacheLaws Cache.
Proof.
  split; [done|]. simpl. intros now c k b k' b'. rewrite lookup_insert. case_decide as E.
  - intros [= <-]. by left.
  - by right.
Qed.

(** A record is bound to the key whose last byte it starts with, and signed
    when it ends with [7]. *)
Definition ex_bound (key : ident) (value : bytes) : bool :=
  bool_decide (last (ident_bytes key) = hd_error value).
Definition ex_signed (value : bytes) : bool := bool_decide (last value = Some x07).

Definition ex_handler : SignatureVerifierHandler := {|
  handle_key_binding_verification key value := Ok (ex_bound key value);
  handle_signature_verification value := Ok (ex_signed value);
  handle_update_verification new old auth := Ok (ex_signed new && bool_decide (auth = [x01]));
  handle_issuer_node_signature_verification value := Ok (ex_signed value)
|}.

#[global] Instance ex_handler_laws : SignatureVerifierLaws ex_handler.
Proof. split. simpl. intros new old auth [= H]. by apply andb_true_iff in H as [-> _]. Qed.

(** ** Messages *)

Definition me : ident := ident_ends x00 x01.
Definition peer_id : ident := ident_ends x10 x01.
Definition did_key : ident := ident_ends x00 x24.
Definition peer_addr : SocketAddr := mkAddr "10.0.0.2" 4000.
Definition peer_node : Node := Node_new peer_id (Some "10.0.0.2"%string) (Some 4000%Z).
Definition did_record : bytes := [x24; x07].
Definition forged_record : bytes := [x24; x06].
Definition status_record : bytes := [x0b; x07].

#[global] Instance ex_bincode : Bincode := {|
  serialize _ := Some [x00];
  deserialize b :=
    if bool_decide (b = [x01]) then
      Some (mkFrame 5 true (Messages.Store peer_id (digest STATUS_LIST_KEY) status_record))
    else if bool_decide (b = [x02]) then Some (mkFrame 6 true (Messages.Store peer_id did_key forged_record))
    else if bool_decide (b = [x03]) then Some (mkFrame 0 false (Pong peer_id))
    else None
|}.

(** A datagram of one fragment. *)
Definition datagram (b : byte) : bytes := frag_header 1 0 1 ++ [b].

(** ** Environment *)

(** The answer of a friendly peer. *)
Definition ex_reply (e : ExpectedResponse) : RpcMessage :=
  match e with
  | EPong => Pong peer_id
  | EStoreResult => StoreResult SStored
  | EUpdateResult => UpdateResult true
  | EUpdateStatusListResult => UpdateStatusListResult true
  | EFindNodeResult => FindNodeResult []
  | EFindValueResult | EFindHashResult => FindValueNodes []
  | ENoResponse => Received
  end.

Abbreviation ExP := (KademliaProtocol ForgetfulStorage.t Cache).

Definition answered (c : PendingCall) : bool :=
  bool_decide (call_peer c = peer_addr) && accepts (expected c) (ex_reply (expected c)).

Definition answer_one (c : PendingCall) (m : gmap N RpcMessage) : gmap N RpcMessage :=
  if answered c then <[call_channel c := ex_reply (expected c)]> m else m.

Definition answer_all (t : Transport) : Transport :=
  with_pending ∅ (with_delivered (foldr answer_one (delivered t) (map_to_list (pending t)).*2) t).

(** The environment is the clock, in ns; a pause takes a millisecond. *)
#[global] Instance ex_environment : Environment Z ExP := {|
  instant e := e;
  unix_time e := (e `div` 1000000000)%Z;
  jitter _ _ := 0%Z;
  random_id e := (e, me);
  others e p := ((e + 1000000)%Z, on_transport answer_all p);
  send_to e _ _ := (e, true);
  wakeups _ := [OnTimer; OnAnswer]
|}.

#[global] Program Instance ex_schedule : LookupSchedule Z := {|
  round_env _ _ := ValueSpiderCrawl.mkEnv false (λ l, l) None false;
  rounds_in_time _ := 8
|}.
Next Obligation. done. Qed.

(** ** The node, with one contact *)

Definition start : ExP :=
  Protocol.new 0 0 (Node_from_id me) (ForgetfulStorage.new DEFAULT_TTL) 2 1 (Some ∅).

Definition world : World ExP Z := (add_contact peer_node (mkW start 0%Z)).1.

Example store_status_list :
  get 1000000000 (storage (proto (handle_datagram ex_handler (datagram x01) peer_addr world).1))
    (ident_bytes (digest STATUS_LIST_KEY)) = Some status_record.
Proof. vm_compute. reflexivity. Qed.

Example store_did : (rpc_store ex_handler peer_id ("10.0.0.2"%string, 4000%Z) did_key did_record world).2 = Some SStored.
Proof. vm_compute. reflexivity. Qed.

End NodeExample.
