(* ===== verification/ProtocolProps.v ===== *)
(** * What the methods of a node leave alone

    Invariants of the records a node holds and of its signature cache survive
    everything the node does to find, keep and call its contacts; invariants of
    a lookup's world survive the lookup when they survive its requests. *)

From S2P Require Import Prelude Utils Node Routing BucketProps RoutingProps Storage Fragmentation.
From S2P Require Import Messages Retransmit.
From S2P Require Import Crypto AuthHandler Crawling Effects Protocol Transport Client Handlers.

(** ** Lookups *)

Section worlds.
Context `{SpiderProtocol W, HashOrder} (I : W → Prop).
Import SpiderCrawl.

(** A request keeps the invariant. *)
Definition rpc_keeps (rpc : W → Node → Node → W * RawResponse) : Prop :=
  ∀ w p t, I w → I (rpc w p t).1.

Lemma ask_keeps rpc w target peers w' rs :
  rpc_keeps rpc → I w → ask rpc w target peers = (w', rs) → I w'.
Proof.
  intros Hrpc. revert w w' rs. induction peers as [|p ps IH]; intros w w' rs Hw; simpl; [by intros [= <- _]|].
  destruct (rpc w p target) as [w1 r] eqn:Hr. destruct (ask rpc w1 target ps) as [w2 rs'] eqn:Ha.
  intros [= <- _]. eapply IH; [|exact Ha]. specialize (Hrpc w p target Hw). by rewrite Hr in Hrpc.
Qed.

(** An acceptance keeps the invariant and only approves what [Q] describes. *)
Definition accept_keeps (accept : W → bytes → W * option bytes) (Q : bytes → Prop) : Prop :=
  ∀ w x, I w → I (accept w x).1 ∧ ∀ v, (accept w x).2 = Some v → Q v.

Lemma collect_keeps accept Q w s tr inc rs w' r :
  accept_keeps accept Q → I w → ValueSpiderCrawl.collect w accept s tr inc rs = (w', r) →
  I w' ∧ ∀ s' v, r = inl (s', v) → Q v.
Proof.
  intros Hacc. revert w s tr inc. induction rs as [|[i a] rs IH]; intros w s tr inc Hw; simpl.
  { intros [= <- <-]. done. }
  destruct (negb (happened a)); [by apply IH|]. destruct (get_value a) as [x|]; [|by apply IH].
  destruct (Hacc w x Hw) as [Hw1 Hq]. destruct (accept w x) as [w1 [v|]]; [|by apply IH].
  intros [= <- <-]. split; [done|]. intros s' y [= _ <-]. by apply Hq.
Qed.

Lemma search_keeps fuel env deadline rpc accept Q w s inc w' s' r :
  rpc_keeps rpc → accept_keeps accept Q → (∀ w ns, I w → I (note_no_answer w ns)) → I w →
  ValueSpiderCrawl.search fuel env deadline rpc accept w s inc = Some (w', s', r) →
  I w' ∧ ∀ v, r = Found v → Q v.
Proof.
  intros Hrpc Hacc Hnote. revert w s inc. induction fuel as [|fuel IH]; intros w s inc Hw Hs; [done|].
  cbn [ValueSpiderCrawl.search] in Hs.
  destruct (NodeHeap.have_contacted_all (nearest s)); [injection Hs as <- _ <-; split; [done|by destruct inc]|].
  destruct (deadline && _); [injection Hs as <- _ <-; by split|].
  destruct (next_peers s USIZE_MAX) as [peers s1].
  destruct (ask rpc w (node s1) peers) as [w1 rs] eqn:Ha.
  assert (I w1) as Hw1 by (by eapply ask_keeps).
  set (cut := if deadline then _ else None) in Hs.
  destruct (ValueSpiderCrawl.collect w1 accept s1 [] inc _) as [w2 o] eqn:Hc.
  apply (collect_keeps accept Q) in Hc as [Hw2 Hq]; [|done..].
  destruct o as [[s2 v]|[[s2 tr] inc']].
  - injection Hs as <- _ <-. split; [done|]. intros y [= <-]. by eapply Hq.
  - destruct cut; [|eapply IH; [|exact Hs]; done]. injection Hs as <- _ <-. split; [|done]. by case_match; [apply Hnote|].
Qed.

Lemma round_keeps rpc w s limit w1 s1 rs :
  rpc_keeps rpc → I w → find_round_limited w s limit rpc = (w1, s1, rs) → I w1.
Proof.
  intros Hrpc Hw. unfold find_round_limited. destruct (next_peers s limit) as [peers s'].
  destruct (ask rpc w (node s') peers) as [w' rs'] eqn:Ha. intros [= <- _ _]. by eapply ask_keeps.
Qed.

Lemma quorum_keeps fuel w s found m n w' r :
  rpc_keeps call_find_value → I w →
  ValueSpiderCrawl.quorum_loop fuel w s found m n = Some (w', r) → I w'.
Proof.
  intros Hrpc. revert w s found. induction fuel as [|fuel IH]; intros w s found Hw; [done|].
  cbn [ValueSpiderCrawl.quorum_loop]. destruct (strict_quorum_value found m); [by intros [= <- _]|].
  destruct (_ || _); [by intros [= <- _]|].
  destruct (find_round_limited w s _ call_find_value) as [[w1 s1] rs] eqn:Hr.
  destruct (foldl _ _ rs) as [[s2 tr] found']. intros Hq. eapply IH; [|exact Hq]. by eapply round_keeps.
Qed.

Lemma lookup_keeps fuel w s w' l :
  rpc_keeps call_find_node → I w → NodeSpiderCrawl.find_lookup_nodes fuel w s = Some (w', l) → I w'.
Proof.
  intros Hrpc. revert w s. induction fuel as [|fuel IH]; intros w s Hw; [done|].
  cbn [NodeSpiderCrawl.find_lookup_nodes]. unfold NodeSpiderCrawl.find_step, find_round.
  destruct (find_round_limited w s _ call_find_node) as [[w1 s1] rs] eqn:Hr.
  assert (I w1) as Hw1 by (by eapply round_keeps). destruct (foldl _ _ rs) as [s2 tr].
  case_match; [by intros [= <- _]|]. by apply IH.
Qed.

Lemma find_keeps fuel w v w' r :
  rpc_keeps call_find_value → (∀ w p k x, I w → I (call_store w p k x).1) → I w →
  ValueSpiderCrawl.find fuel w v = Some (w', r) → I w'.
Proof.
  intros Hrpc Hstore. revert w v. induction fuel as [|fuel IH]; intros w v Hw; [done|].
  cbn [ValueSpiderCrawl.find]. unfold find_round.
  destruct (find_round_limited w _ _ call_find_value) as [[w1 s1] rs] eqn:Hr.
  assert (I w1) as Hw1 by (by eapply round_keeps). destruct (foldl _ _ rs) as [[v2 tr] found].
  destruct found as [|x xs].
  - case_match; [by intros [= <- _]|]. by apply IH.
  - destruct (strict_quorum_value _ _) as [y|]; [|by intros [= <- _]].
    destruct (NodeHeap.popleft _) as [[peer|] h]; intros [= <- _]; [by apply Hstore|done].
Qed.

End worlds.

(** ** Contacts and requests *)

(** The atomic changes a node makes to its calls and requests, other than
    handing an answer to a call ([deliver]). *)
Inductive transport_step (t : Transport) : Transport → Prop :=
  | ts_same : transport_step t t
  | ts_ids msg frag : transport_step t (with_ids msg frag t)
  | ts_open i addr e : transport_step t (open_call i addr e t).1
  | ts_close i ch : transport_step t (close_call i ch t)
  | ts_poll_answer ch : transport_step t (poll_answer ch t).1
  | ts_poll_receipt ch : transport_step t (poll_receipt ch t).1
  | ts_round_trips now addr d :
      transport_step t (with_round_trips (RoundTrips.record now (round_trips t) addr d) t)
  | ts_start key : transport_step t (start_request key t).1
  | ts_end key : transport_step t (end_request key t)
  | ts_take_slot : transport_step t (fetch_add_lookups t).1
  | ts_drop_slot : transport_step t (fetch_sub_lookups t)
  | ts_reassembler now peer data :
      transport_step t (with_reassembler (receive_payload now (reassembler t) peer data).1 t)
  | ts_receipt i peer : transport_step t (note_receipt i peer t)
  | ts_answer i peer m : transport_step t (take_pending i peer m t).1.

#[export] Hint Constructors transport_step : kad.

Section frame.
Context {St C E : Type} `{Bincode, Ipv6Syntax}.
Abbreviation P := (KademliaProtocol St C).
Context `{Environment E P}.

(** A change of the contacts, the tasks or the seeds: the table moves by its own
    operations, and nothing else changes. *)
Record contacts_step (p p' : P) : Prop := {
  cs_transport : transport p' = transport p;
  cs_storage : storage p' = storage p;
  cs_cache : sig_cache p' = sig_cache p;
  cs_router : ∃ ops, RoutingProps.run (router_of p) ops = Some (router_of p')
}.

Lemma cs_same p p' :
  transport p' = transport p → storage p' = storage p → sig_cache p' = sig_cache p →
  router_of p' = router_of p → contacts_step p p'.
Proof using. intros Ht Hs Hc Hr. split; [done..|]. exists []. by rewrite Hr. Qed.

Lemma cs_refl p : contacts_step p p.
Proof using. by apply cs_same. Qed.

Lemma cs_op p o rt : apply_op (router_of p) o = Some rt → contacts_step p (set_router rt p).
Proof using. intros Ho. split; [done..|]. exists [o]. cbn [RoutingProps.run]. by rewrite Ho. Qed.

(** An invariant that neither the environment, nor a change of contacts, tasks
    or seeds, nor a step of the transport breaks. *)
Record framed (I : World P E → Prop) : Prop := {
  framed_stable : stable I;
  framed_contacts p p' e : contacts_step p p' → I (mkW p e) → I (mkW p' e);
  framed_transport p e t : transport_step (transport p) t → I (mkW p e) → I (mkW (with_transport t p) e)
}.

Context (I : World P E → Prop) (HF : framed I).

Lemma fr_pause : keeps I pause.
Proof using HF. apply keeps_pause. apply HF. Qed.

Lemma fr_random : keeps I (effect random_id).
Proof using HF. apply keeps_random. apply HF. Qed.

Lemma fr_send a d : keeps I (effect (λ e, send_to e a d)).
Proof using HF. apply keeps_send. apply HF. Qed.

Lemma fr_modify (f : P → P) : (∀ p, contacts_step p (f p)) → keeps I (modify f).
Proof using HF. intros Hf [p e] Hw. simpl. by eapply (framed_contacts I HF). Qed.

Lemma fr_update {A} (f : P → P * A) : (∀ p, contacts_step p (f p).1) → keeps I (update f).
Proof using HF.
  intros Hf [p e] Hw. unfold update. simpl. specialize (Hf p). destruct (f p) as [p' a].
  by eapply (framed_contacts I HF).
Qed.

Lemma fr_transport {A} (f : Transport → Transport * A) :
  (∀ t, transport_step t (f t).1) → keeps I (on_transport_r f).
Proof using HF.
  intros Hf [p e] Hw. unfold on_transport_r, update. simpl. specialize (Hf (transport p)).
  destruct (f (transport p)) as [t a]. by apply (framed_transport I HF).
Qed.

Lemma fr_on_transport f : (∀ t, transport_step t (f t)) → keeps I (modify (on_transport f)).
Proof using HF. intros Hf [p e] Hw. by apply (framed_transport I HF). Qed.

Lemma fr_on_contacts f :
  (∀ c, router (f c) = router c) → keeps I (modify (on_contacts f)).
Proof using HF. intros Hf. apply fr_modify. intros p. by apply cs_same; try apply Hf. Qed.

#[local] Hint Resolve fr_pause fr_random fr_send : kad.
#[local] Hint Extern 2 (keeps I (modify (on_contacts _))) =>
  (by apply fr_on_contacts) : kad.
#[local] Hint Extern 2 (keeps I (on_transport_r _)) =>
  (apply fr_transport; intros t; cbn [fst]; auto with kad) : kad.
#[local] Hint Extern 2 (keeps I (modify (on_transport _))) =>
  (apply fr_on_transport; intros t; auto with kad) : kad.

Lemma fr_read_router : keeps I read_router.
Proof using HF. unfold read_router. keeps_all. Qed.

#[local] Hint Resolve fr_read_router : kad.

Lemma fr_find_neighbors target exclude : keeps I (find_neighbors target exclude).
Proof using HF.
  unfold find_neighbors. keeps_all. apply fr_update. intros p.
  rewrite (surjective_pairing (RoutingTable.find_neighbors _ _ _ _)). by eapply (cs_op p (FindNeighbors _ _ _)).
Qed.

Lemma fr_advertise target exclude : keeps I (find_neighbors_to_advertise target exclude).
Proof using HF.
  unfold find_neighbors_to_advertise. keeps_all. apply fr_update. intros p.
  rewrite (surjective_pairing (RoutingTable.find_neighbors_to_advertise _ _ _ _)).
  by eapply (cs_op p (Advertise _ _ _)).
Qed.

Lemma fr_note_failure peer : keeps I (note_failure peer).
Proof using HF.
  unfold note_failure. keeps_all. apply fr_modify. intros p. by eapply (cs_op p (RecordFailure _ _ _)).
Qed.

Lemma fr_note_alive n : keeps I (note_alive n).
Proof using HF.
  unfold note_alive. keeps_all. apply fr_update. intros p. by apply (cs_op p (RecordSuccess (id n) 0)).
Qed.

Lemma spawn_task_frame t (p p' : P) :
  transport p' = transport p → storage p' = storage p → sig_cache p' = sig_cache p →
  router_of p' = router_of p → contacts_step p (spawn_task t p').1.
Proof using. intros ????. unfold spawn_task. destruct (tasks p'); by apply cs_same. Qed.

Lemma fr_spawn t : keeps I (update (spawn_task t)).
Proof using HF. apply fr_update. intros p. by apply spawn_task_frame. Qed.

Lemma fr_add_contact n : keeps I (add_contact n).
Proof using HF.
  unfold add_contact. keeps_all.
  - apply fr_update. intros p. unfold add_to_table.
    destruct (RoutingTable.add_contact _ _ _) as [[rt r]|] eqn:Ha; [|apply cs_refl].
    eapply (cs_op p (AddContact _ _)). simpl. by rewrite Ha.
  - apply fr_modify. intros p. unfold ping_oldest. case_bool_decide; [apply cs_refl|].
    by apply spawn_task_frame.
Qed.

Lemma fr_schedule n : keeps I (schedule_welcome_if_new n).
Proof using HF.
  unfold schedule_welcome_if_new, queue_replication. keeps_all; try apply fr_note_alive;
    try apply fr_read_router; try apply fr_add_contact.
  apply fr_modify. intros p. unfold queue_insert. case_bool_decide; [by apply cs_same|].
  by apply spawn_task_frame.
Qed.

#[local] Hint Resolve fr_read_router fr_note_failure fr_note_alive fr_schedule : kad.

Lemma fr_next_id : keeps I next_id.
Proof using HF. unfold next_id. keeps_all. Qed.

Lemma fr_encode_frame f : keeps I (encode_frame f).
Proof using HF.
  unfold encode_frame. keeps_all. apply fr_transport. intros t. by destruct (encode_message _ _); constructor.
Qed.

Lemma fr_send_datagrams addr ds : keeps I (send_datagrams addr ds).
Proof using HF. induction ds as [|d ds IH]; simpl; keeps_all. Qed.

Lemma fr_take_slot : keeps I take_slot.
Proof using HF. unfold take_slot. keeps_all. Qed.

#[local] Hint Resolve fr_next_id fr_encode_frame fr_send_datagrams : kad.

Lemma fr_send_frame addr f : keeps I (send_frame addr f).
Proof using HF. unfold send_frame. keeps_all. Qed.

#[local] Hint Resolve fr_send_frame : kad.

Lemma fr_answer peer i r : keeps I (answer peer i r).
Proof using HF. unfold answer. keeps_all. Qed.

Lemma fr_round_trip addr first_sent : keeps I (record_round_trip addr first_sent).
Proof using HF. unfold record_round_trip. keeps_all. Qed.

#[local] Hint Resolve fr_answer fr_round_trip : kad.

Lemma fr_call_loop addr ds measures ch first_sent deadline l evs :
  keeps I (call_loop addr ds measures ch first_sent deadline l evs).
Proof using HF.
  revert l. induction evs as [|ev evs IH]; intros l; simpl; [keeps_all|].
  unfold resend_after. keeps_all.
Qed.

#[local] Hint Resolve fr_call_loop : kad.

Lemma fr_call addr m : keeps I (call addr m).
Proof using HF. unfold call, resend_after. keeps_all. Qed.

#[local] Hint Resolve fr_call : kad.

Lemma fr_call_find peer request : keeps I (call_find peer request).
Proof using HF. unfold call_find. keeps_all. Qed.

#[local] Hint Resolve fr_call_find : kad.

Lemma fr_find_node peer target : keeps I (proto_find_node peer target).
Proof using HF. unfold proto_find_node, source_id. keeps_all. Qed.

Lemma fr_find_value peer target : keeps I (proto_find_value peer target).
Proof using HF. unfold proto_find_value, source_id. keeps_all. Qed.

Lemma fr_find_hash peer target : keeps I (call_find_hash peer target).
Proof using HF. unfold call_find_hash, source_id. keeps_all. Qed.

Lemma fr_store_rpc peer key value : keeps I (call_store_rpc peer key value).
Proof using HF. unfold call_store_rpc, source_id. keeps_all. Qed.

Lemma fr_ping_addr addr : keeps I (call_ping_addr addr).
Proof using HF. unfold call_ping_addr, source_id. keeps_all. Qed.

#[local] Hint Resolve fr_find_node fr_find_value fr_find_hash fr_store_rpc fr_ping_addr : kad.

Lemma fr_ping_node n : keeps I (call_ping_node n).
Proof using HF. unfold call_ping_node. keeps_all. Qed.

Lemma fr_proto_store peer key value : keeps I (proto_store peer key value).
Proof using HF. unfold proto_store. keeps_all. Qed.

Lemma fr_note_no_answer ns : keeps I (proto_note_no_answer ns).
Proof using HF. unfold proto_note_no_answer. keeps_all. Qed.

Lemma fr_ping_task n : keeps I (ping_task n).
Proof using HF. unfold ping_task. keeps_all. apply fr_ping_node. Qed.

Lemma scan_chunk_ops unix self n rt entries :
  ∃ ops, RoutingProps.run rt ops = Some (scan_chunk unix self n rt entries).1.
Proof using.
  revert rt. induction entries as [|[kv value] entries IH]; intros rt; simpl; [by exists []|].
  destruct (ident_of_bytes kv) as [key|]; [|apply IH].
  destruct (RoutingTable.find_neighbors unix rt (Node_from_id key) (Some n)) as [ns rt1] eqn:Hn.
  destruct (IH rt1) as [ops Hops]. destruct (scan_chunk unix self n rt1 entries) as [rt2 keys].
  exists (FindNeighbors unix (Node_from_id key) (Some n) :: ops). simpl. by rewrite Hn.
Qed.

Lemma fr_scan fuel n entries : keeps I (scan fuel n entries).
Proof using HF.
  revert entries. induction fuel as [|fuel IH]; intros [|e entries]; cbn [scan]; keeps_all.
  apply fr_update. intros p. rewrite (surjective_pairing (scan_chunk _ _ _ _ _)).
  split; try done. apply scan_chunk_ops.
Qed.

Lemma fr_replicate `{IStorage St} n : keeps I (replicate_to n).
Proof using HF. unfold replicate_to, records_for. keeps_all. apply fr_scan. Qed.

End frame.

(** An invariant of the records, the cache and the environment. *)
Definition of_records {St C E} (J : St → option C → E → Prop) (w : World (KademliaProtocol St C) E)
    : Prop := J (storage (proto w)) (sig_cache (proto w)) (env w).

Lemma framed_records {St C E} `{Environment E (KademliaProtocol St C)} (J : St → option C → E → Prop) :
  stable (of_records J) → framed (of_records J).
Proof.
  intros HI. split; [done| |done]. unfold of_records. simpl. by intros p p' e [_ -> -> _].
Qed.

#[export] Hint Resolve fr_pause fr_random fr_send fr_read_router fr_find_neighbors
  fr_advertise fr_note_failure fr_note_alive fr_spawn fr_schedule fr_next_id fr_send_frame fr_answer
  fr_call fr_find_node fr_find_value fr_find_hash fr_store_rpc fr_ping_addr fr_ping_node
  fr_note_no_answer fr_take_slot fr_ping_task fr_replicate fr_proto_store : kad.
