(* ===== verification/HandlersProps.v ===== *)
(** * Requests: what a node ends up holding and answering

    No datagram makes a node hold a record that was not verified for its key;
    every answer is of the kind its request waits for. *)

From S2P Require Import Prelude Utils Node Routing BucketProps RoutingProps Storage Fragmentation Messages Retransmit.
From S2P Require Import Crypto AuthHandler AuthProps Crawling Effects Protocol Transport Client.
From S2P Require Import Handlers ProtocolProps StorageProps NodeExample.

(** ** Requests and invariants *)

Section requests.
Context {St C E : Type} `{Sha1, Sha256, Bincode, Ipv6Syntax, HashOrder}.
Context `{IStorage St, MokaCache C} (handler : SignatureVerifierHandler).
Abbreviation P := (KademliaProtocol St C).
Context `{Environment E P, LookupSchedule E}.

(** An invariant that allows the records [V] to be written, where every check a
    request makes before it writes a record establishes [V]; and that survives
    the answers that arrive from the addresses [Q]. *)
Record guarded (I : World P E → Prop) (V : ident → bytes → Prop) (Q : SocketAddr → Prop) : Prop := {
  gd_set key value : V key value → keeps I (storage_set key value);
  gd_insert key value : V key value → keeps I (storage_insert key value);
  gd_verify key value :
    triple I (verify_for_key handler key value) (λ b w, (b = true → V key value) ∧ I w);
  gd_rotation key new old auth_signature :
    key ≠ digest STATUS_LIST_KEY → verify_rotation handler key new old auth_signature = true → V key new;
  gd_issuer value : verify_issuer_signed handler value = true → V (digest STATUS_LIST_KEY) value;
  gd_response f peer : Q peer → keeps I (handle_response f peer)
}.

(** An invariant that the requests that write records preserve, of which only
    the updates in [U] arrive, and the answers from the addresses [Q]. *)
Record request_safe (I : World P E → Prop) (U : RpcMessage → Prop) (Q : SocketAddr → Prop) : Prop := {
  rs_update sender_id addr key value auth :
    U (Update sender_id key value auth) → keeps I (rpc_update handler sender_id addr key value auth);
  rs_status_list sender_id addr key value : keeps I (rpc_update_status_list handler sender_id addr key value);
  rs_insert sender_id addr key value : keeps I (verify_and_insert handler sender_id addr key value);
  rs_response f peer : Q peer → keeps I (handle_response f peer)
}.

Context (I : World P E → Prop) (HF : framed I) (V : ident → bytes → Prop) (Q : SocketAddr → Prop).

#[local] Hint Resolve fr_transport fr_on_transport : kad.
#[local] Hint Extern 2 (keeps I (modify (on_contacts _))) => (by apply (fr_on_contacts I HF)) : kad.
#[local] Hint Extern 2 (∀ t, transport_step t _) => (intros t; cbn [fst]; auto with kad) : kad.

Lemma rq_storage_get key : keeps I (storage_get key).
Proof using. unfold storage_get. keeps_all. Qed.

#[local] Hint Resolve rq_storage_get : kad.

Section guards.
Context (HG : guarded I V Q).

Lemma rq_update sender_id addr key value auth :
  keeps I (rpc_update handler sender_id addr key value auth).
Proof using HF HG.
  unfold rpc_update. case_bool_decide as Hk; [keeps_all|]. repeat keeps_step; try done; try apply rq_storage_get; try by apply fr_pause.
  - by apply fr_schedule.
  - bool_facts. apply (gd_set I V Q HG). by eapply (gd_rotation I V Q HG).
Qed.

Lemma rq_update_status_list sender_id addr key value :
  keeps I (rpc_update_status_list handler sender_id addr key value).
Proof using HF HG.
  unfold rpc_update_status_list. destruct (bool_decide _) eqn:Hk; simpl; [|keeps_all]. bool_facts. subst key.
  repeat keeps_step; try done; try apply rq_storage_get; try by apply fr_pause.
  - by apply fr_schedule.
  - bool_facts. apply (gd_set I V Q HG). by apply (gd_issuer I V Q HG).
Qed.

Lemma rq_verify_and_insert sender_id addr key value :
  keeps I (verify_and_insert handler sender_id addr key value).
Proof using HF HG.
  unfold verify_and_insert. eapply triple_bind; [apply (gd_verify I V Q HG)|]. intros ok.
  apply triple_pure. intros Hok. change (keeps I (if negb ok then mret (Some SInvalidRecord) else
    status ← storage_insert key value;
    match status with
    | Stored | AlreadyStored => schedule_welcome_if_new (node_at sender_id addr)
    | Conflict | CapacityExceeded => mret tt
    end;; mret (Some (store_status_from status)))).
  destruct ok; simpl; [|keeps_all]. repeat keeps_step; try (by apply fr_schedule).
  by apply (gd_insert I V Q HG), Hok.
Qed.

(** The checks of a node make its requests safe. *)
Lemma guarded_safe : request_safe I (λ _, True) Q.
Proof using HF HG.
  split; [intros; apply rq_update|apply rq_update_status_list|apply rq_verify_and_insert|apply (gd_response I V Q HG)].
Qed.

End guards.

Context (U : RpcMessage → Prop) (HS : request_safe I U Q).

Lemma rq_network_copy key value : keeps I (network_copy key value).
Proof using HF.
  unfold network_copy. keeps_all.
  - unfold peers_to_ask. keeps_all. apply fr_update; [done|]. intros p.
    rewrite (surjective_pairing (RoutingTable.find_neighbors _ _ _ _)).
    by eapply (cs_op p (FindNeighbors _ _ _)).
  - intros w Hw. unfold copy_lookup. destruct (copy_search _ _ _ w) as [[[w' s'] r]|] eqn:Hs; [|done].
    eapply (search_keeps I _ _ _ _ _ (λ _, True)); [..|exact Hw|exact Hs].
    + intros w0 p t Hw0. by apply (fr_find_hash I HF).
    + intros w0 x Hw0. done.
    + intros w0 ns Hw0. by apply (fr_note_no_answer I HF).
Qed.

Lemma rq_store_needs_lookup key : keeps I (store_needs_lookup key).
Proof using. unfold store_needs_lookup. keeps_all. Qed.

Lemma rq_store sender_id addr key value : keeps I (rpc_store handler sender_id addr key value).
Proof using HF HS.
  unfold rpc_store. repeat keeps_step; try apply rq_store_needs_lookup; try apply rq_network_copy;
    apply (rs_insert I U Q HS).
Qed.

Lemma rq_find_value sender_id addr key : keeps I (rpc_find_value handler sender_id addr key).
Proof using HF. unfold rpc_find_value. keeps_all. Qed.

Lemma rq_leave sender_id addr : keeps I (rpc_leave sender_id addr).
Proof using HF.
  unfold rpc_leave. keeps_all. apply fr_modify; [done|]. intros p. by eapply (cs_op p (RemoveContact _)).
Qed.

Lemma rq_dispatch m peer : U m → keeps I (dispatch_request handler m peer).
Proof using HF HS.
  intros HU. destruct m; simpl; repeat (keeps_step; try done); try (by apply (rs_update I U Q HS));
    try apply (rs_status_list I U Q HS); eauto using rq_store, rq_find_value, rq_leave with kad.
Qed.

(** From here on, any update may arrive. *)
Context (HU : ∀ m, U m).

Lemma rq_answer_request peer f : keeps I (answer_request handler peer f).
Proof using HF HS HU. unfold answer_request. keeps_all. by apply rq_dispatch. Qed.

Lemma rq_handle_record_request payload f peer : keeps I (handle_record_request handler payload f peer).
Proof using HF HS HU.
  unfold handle_record_request, needs_slot. repeat (keeps_step; try done);
    eauto using rq_answer_request, rq_store_needs_lookup with kad.
Qed.

Lemma rq_handle_datagram data peer : Q peer → keeps I (handle_datagram handler data peer).
Proof using HF HS HU.
  intros Hq. unfold handle_datagram. repeat (keeps_step; try done); try (by apply (rs_response I U Q HS));
    eauto using rq_answer_request, rq_handle_record_request with kad.
  apply fr_transport; [done|]. intros t.
  rewrite (surjective_pairing (receive_payload _ _ _ _)). apply ts_reassembler.
Qed.

Lemma rq_store_task peer request i m : keeps I (store_task handler peer request i m).
Proof using HF HS HU. unfold store_task. keeps_all. apply rq_answer_request. Qed.

Lemma rq_welcome_task n w w' : I w → welcome_task n w = Some w' → I w'.
Proof using HF.
  intros Hw. unfold welcome_task. destruct (welcome_permits _); [done|]. intros [= <-].
  revert w Hw. change (keeps I (modify (on_contacts (with_permits n0)) ;;
    replicate_to n ;;
    modify (on_contacts (λ c, with_permits (S (welcome_permits c)) c)) ;;
    modify (on_contacts (λ c, with_welcome (welcome_in_flight c ∖ {[id n]}) c)))). keeps_all.
Qed.

(** An answer that arrives only takes a pending call and fills its channel. *)
Lemma response_framed J f peer :
  framed J → (∀ ch m, keeps J (modify (on_transport (deliver ch m)))) → keeps J (handle_response f peer).
Proof using.
  clear HF HS HU. intros HJ Hd. unfold handle_response. repeat (keeps_step; try done); eauto with kad.
Qed.

(** What the node does with what arrives: a datagram, or one of its tasks. *)
Inductive Activity :=
  | OnDatagram (data : bytes) (peer : SocketAddr)
  | OnPing (oldest : Node)
  | OnWelcome (n : Node)
  | OnStore (peer : SocketAddr) (request : bytes) (i : Z) (m : RpcMessage).

Definition act (a : Activity) : M P E unit :=
  match a with
  | OnDatagram data peer => handle_datagram handler data peer
  | OnPing oldest => ping_task oldest
  | OnWelcome n => λ w, (default w (welcome_task n w), tt)
  | OnStore peer request i m => store_task handler peer request i m
  end.

(** Datagrams from the addresses [Q]. *)
Definition arrives_from (a : Activity) : Prop :=
  match a with OnDatagram _ peer => Q peer | _ => True end.

Lemma rq_act a : arrives_from a → keeps I (act a).
Proof using HF HS HU.
  destruct a; [by apply rq_handle_datagram|intros _..]; [by apply fr_ping_task| |apply rq_store_task].
  intros w Hw. simpl. destruct (welcome_task n w) as [w'|] eqn:Hn; [|done].
  by apply (rq_welcome_task n w).
Qed.

Lemma rq_acts acts : Forall arrives_from acts → keeps I (for_each act acts).
Proof using HF HS HU.
  induction 1 as [|a acts Ha _ IH]; simpl; [apply keeps_ret|]. keeps_all. by apply rq_act.
Qed.

End requests.

(** ** Verified records *)

Section authentic.
Context {St C E : Type} `{Sha1, Sha256, Bincode, Ipv6Syntax, HashOrder}.
Context `{IStorageLaws St, MokaCacheLaws C} (handler : SignatureVerifierHandler).
Context `{!SignatureVerifierLaws handler}.
Abbreviation P := (KademliaProtocol St C).
Context `{Environment E P, LookupSchedule E}.

(** The signature check of a trust domain. *)
Definition signed_in (d : VerificationDomain) (value : bytes) : bool :=
  check_signature handler (bool_decide (d = IssuerSigned)) value.

(** [value] belongs to [key], and its signature was found valid: the signature
    of [value] itself or, through the cache, of bytes with the same SHA-256. *)
Definition vouched (key : ident) (value : bytes) : Prop :=
  is_bound_to_key handler key value = true ∧
  ∃ d u, compute_key d u = compute_key (domain_of key) value ∧ signed_in d u = true.

(** Every record the node serves is vouched for; the cache holds verdicts. *)
Record authentic_records (s : St) (c : option C) (e : E) : Prop := {
  ar_records key value : live (instant e) s !! ident_bytes key = Some value → vouched key value;
  ar_cache cache k b : c = Some cache → cache_get (instant e) cache k = Some b →
    ∃ d u, k = compute_key d u ∧ b = signed_in d u
}.

Abbreviation I := (of_records authentic_records).

Lemma check_signature_domain key value :
  check_signature handler (bool_decide (key = digest STATUS_LIST_KEY)) value =
  signed_in (domain_of key) value.
Proof using. unfold signed_in, domain_of, is_status_key. by case_bool_decide. Qed.

Lemma vouched_signed key value :
  is_bound_to_key handler key value = true → signed_in (domain_of key) value = true → vouched key value.
Proof using. intros Hb Hs. split; [done|]. by exists (domain_of key), value. Qed.

(** [verify_record] vouches for what it accepts, and keeps the cache sound. *)
Lemma verify_record_vouches s c e key value b c' :
  authentic_records s c e → verify_record handler (instant e) c key value = (b, c') →
  authentic_records s c' e ∧ (b = true → vouched key value).
Proof using All.
  intros [Hr Hc]. unfold verify_record. rewrite check_signature_domain.
  change (if bool_decide (key = digest STATUS_LIST_KEY) then IssuerSigned else SelfSigned)
    with (domain_of key).
  destruct (is_bound_to_key handler key value) eqn:Hb; simpl; [|by intros [= <- <-]].
  destruct c as [c|]; [|intros [= <- <-]; split; [by split|by apply vouched_signed]].
  destruct (cache_get (instant e) c (compute_key (domain_of key) value)) as [b0|] eqn:Hg.
  - intros [= <- <-]. split; [by split|]. intros ->. destruct (Hc c _ _ eq_refl Hg) as (d & u & Hk & Hs).
    split; [done|]. by exists d, u.
  - intros [= <- <-]. split; [|by apply vouched_signed]. split; [done|].
    intros c1 k b1 [= <-] [[-> ->]|Hk]%cache_inserted; [by exists (domain_of key), value|].
    by apply (Hc c k b1 eq_refl).
Qed.

Lemma authentic_write s s' c e key value :
  authentic_records s c e → vouched key value →
  live (instant e) s' = <[ident_bytes key := value]> (live (instant e) s) ∨ s' = s →
  authentic_records s' c e.
Proof using.
  intros [Hr Hc] Hv Hs. split; [|done]. destruct Hs as [Hs| ->]; [|done]. intros key' value'. rewrite Hs.
  destruct (decide (key' = key)) as [->|Hne].
  - rewrite lookup_insert_eq. by intros [= <-].
  - rewrite lookup_insert_ne by (intros E1; by apply Hne, eq_sym, ident_eq). apply Hr.
Qed.

Lemma storage_set_authentic key value : vouched key value → keeps I (storage_set key value).
Proof using.
  intros Hv [p e] Hw. unfold storage_set, update, asks, of_records, mbind, M_bind in *. simpl in *.
  pose proof (law_set (instant e) (storage p) (ident_bytes key) value) as Hl.
  destruct (set _ _ _ _) as [s' st]. simpl in *. eapply authentic_write; [done..|].
  destruct st; naive_solver.
Qed.

Lemma storage_insert_authentic key value : vouched key value → keeps I (storage_insert key value).
Proof using.
  intros Hv [p e] Hw. unfold storage_insert, update, asks, of_records, mbind, M_bind in *. simpl in *.
  pose proof (law_insert (instant e) (storage p) (ident_bytes key) value) as Hl.
  destruct (insert_if_absent _ _ _ _) as [s' st]. simpl in *. eapply authentic_write; [done..|].
  destruct st; naive_solver.
Qed.

Context (HI : stable I).

Lemma verify_for_key_vouches key value :
  triple I (verify_for_key handler key value) (λ b w, (b = true → vouched key value) ∧ I w).
Proof using All.
  unfold verify_for_key. eapply triple_bind; [by apply keeps_pause|]. intros u.
  eapply triple_bind; [apply triple_asks|]. intros now.
  eapply (triple_bind _ _ (λ b w, (b = true → vouched key value) ∧ I w)).
  - intros [p e] [Hw ->]. unfold update, of_records in *. simpl in *.
    destruct (verify_record handler (instant e) (sig_cache p) key value) as [b c] eqn:Hv. simpl.
    apply (verify_record_vouches _ _ _ _ _ _ _ Hw) in Hv as [Hc Hb]. by split.
  - intros b. apply triple_pure. intros Hb. eapply triple_bind; [by apply keeps_pause|]. intros u1.
    by intros w Hw.
Qed.

Lemma rotation_vouches key new old auth_signature :
  key ≠ digest STATUS_LIST_KEY → verify_rotation handler key new old auth_signature = true →
  vouched key new.
Proof using All.
  intros Hk Hv. unfold verify_rotation in Hv. apply andb_true_iff in Hv as [Hv Hu].
  apply andb_true_iff in Hv as [_ Hn]. apply unwrap_or_true in Hu. apply vouched_signed.
  - unfold is_bound_to_key. by rewrite Hn, orb_true_r.
  - unfold domain_of, is_status_key, signed_in. rewrite (bool_decide_eq_false_2 (key = _)) by done. simpl.
    apply unwrap_or_true. by eapply law_rotation.
Qed.

Lemma issuer_vouches value :
  verify_issuer_signed handler value = true → vouched (digest STATUS_LIST_KEY) value.
Proof using All.
  intros Hv. apply vouched_signed.
  - unfold is_bound_to_key. by rewrite bool_decide_eq_true_2.
  - unfold domain_of, is_status_key, signed_in. by rewrite (bool_decide_eq_true_2 (digest _ = _)).
Qed.

(** The checks of a node guard its records. *)
Lemma authentic_guarded : guarded handler I vouched (λ _, True).
Proof using All.
  split; [apply storage_set_authentic|apply storage_insert_authentic|apply verify_for_key_vouches
    |apply rotation_vouches|apply issuer_vouches|].
  intros f peer _. apply response_framed; [by apply framed_records|]. by intros ch m [p e] Hw.
Qed.

End authentic.

(** ** Theorems *)

Section theorems.
Context {St C E : Type} `{Sha1, Sha256, Bincode, Ipv6Syntax, HashOrder}.
Context (handler : SignatureVerifierHandler).
Abbreviation P := (KademliaProtocol St C).
Context `{Environment E P, LookupSchedule E}.

(** C40: every answer is of the kind its sender waits for: whatever the state of
    the node, the answer to a request is accepted by the pending call of that
    request, every request but a STORE and a LEAVE is answered, and messages
    that are not requests are not. *)
Theorem answers_are_expected `{IStorage St, MokaCache C} (m : RpcMessage) (peer : SocketAddr)
    (w : World P E) :
  match (dispatch_request handler m peer w).2 with
  | Some a => is_request_message m = true ∧ accepts (for_request m) a = true
  | None => is_request_message m = false ∨ (∃ i k v, m = Store i k v) ∨ ∃ i, m = Leave i
  end.
Proof.
  destruct m as [i|i|i k v|st|i k v sig|ok|i k v|ok|i k|ns|i k|ns|v|i|i k|h|]; cbn [dispatch_request];
    try (by left).
  - rewrite (bind_ret_result (rpc_ping _ _)). done.
  - rewrite (bind_ret_result (rpc_store _ _ _ _ _)).
    destruct (rpc_store _ _ _ _ _ _).2; cbn; [done|]. right. left. by exists i, k, v.
  - by rewrite (bind_ret_result (rpc_update _ _ _ _ _ _)).
  - by rewrite (bind_ret_result (rpc_update_status_list _ _ _ _ _)).
  - by rewrite (bind_ret_result (rpc_find_node _ _ _)).
  - rewrite (bind_ret_result (rpc_find_value _ _ _ _)). by destruct (rpc_find_value _ _ _ _ _).2.
  - rewrite (bind_ret_result (rpc_leave _ _)). right. right. by exists i.
  - rewrite (fmap_result (rpc_find_hash _ _ _ _)). unfold rpc_find_hash.
    rewrite (bind_ret_result (rpc_find_value _ _ _ _)). by destruct (rpc_find_value _ _ _ _ _).2.
Qed.

End theorems.

(** ** On the concrete node *)

Module HandlersWitness.
Import NodeExample.

(** Invariants that survive the passing of time are stable there. *)
Lemma ex_stable (J : ForgetfulStorage.t → option Cache → Z → Prop) :
  (∀ s c e e', (e ≤ e')%Z → J s c e → J s c e') → stable (of_records J).
Proof.
  intros HJ. split; unfold of_records; simpl; intros; [|done..]. eapply HJ; [|done]. lia.
Qed.

Lemma ex_authentic_stable : stable (of_records (authentic_records (E := Z) ex_handler)).
Proof.
  apply ex_stable. intros s c e e' Hle [Hr Hc]. split; simpl in *.
  - intros key value Hl. apply Hr. exact (lookup_weaken _ _ _ _ Hl (law_expiry e e' s Hle)).
  - intros cache k b Ec Hk. by apply (Hc cache k b Ec).
Qed.

Lemma ex_authentic_start : of_records (authentic_records ex_handler) (mkW start 0%Z).
Proof.
  split; simpl.
  - intros key value. rewrite lookup_fs_live. simpl. by rewrite lookup_empty.
  - intros cache k b [= <-]. by rewrite lookup_empty.
Qed.

End HandlersWitness.
