(* ===== verification/StoreCheckProps.v ===== *)
(** * The network check of an empty replica (src/src/protocol/store_check.rs)

    A node that holds no record for a key takes one only after every node it
    asked has answered that it holds none or the same. *)

From S2P Require Import Prelude Utils Node Routing Storage Fragmentation Messages Retransmit.
From S2P Require Import Crypto AuthHandler Crawling CrawlProps SearchProps Effects Protocol Transport.
From S2P Require Import Client Handlers NodeExample.

Section store_check.
Context {St C E : Type} `{Sha1, Sha256, Bincode, Ipv6Syntax, HashOrder}.
Context `{IStorage St, MokaCache C} (handler : SignatureVerifierHandler).
Abbreviation P := (KademliaProtocol St C).
Context `{Environment E P, LookupSchedule E}.

Lemma timed_rounds_order (e : E) n l : ValueSpiderCrawl.env_order (timed_rounds e n) l ≡ₚ l.
Proof using. destruct n; simpl; [done|]. apply round_order. Qed.

(** The lookup ends within its deadline. *)
Lemma copy_search_ends e value crawl (w : World P E) :
  ∃ w' s' r, copy_search e value crawl w = Some (w', s', r).
Proof using.
  destruct (copy_search e value crawl w) as [[[w' s'] r]|] eqn:Hs; [eauto|]. exfalso. revert Hs.
  unfold copy_search. by apply search_in_time.
Qed.

(** What [NoneOrSame] means: each round of the lookup had an answer from every
    peer it asked, with no record or the one sent. *)
Definition agrees (value : bytes) (r : RawResponse) : Prop :=
  happened r = true ∧ ∀ h, get_value r = Some h → h = record_hash value.

Lemma unapproved_agrees value r :
  happened r = true → unapproved (λ (w : World P E) found, (w, other_hash (record_hash value) found)) r →
  agrees value r.
Proof using.
  intros Hh Hu. split; [done|]. intros h Hg. destruct (Hu h Hg) as [w0 Ha]. simpl in Ha. unfold other_hash in Ha.
  by case_bool_decide.
Qed.

(** The rounds of the lookup of [network_copy]: the peers asked in each, and
    the answers handled. *)
Definition copy_log (value : bytes) (crawl : ValueSpiderCrawl.t) (w : World P E)
    : list (list Node * list (ident * RawResponse)) :=
  search_log (λ w p t, call_find_hash p t w) (λ w found, (w, other_hash (record_hash value) found))
    (timed_rounds (env w)) (S (rounds_in_time (env w))) true w (ValueSpiderCrawl.base crawl) false.

(** Every peer of the round answered, with no record or the one sent. *)
Definition round_agrees (value : bytes) (round : list Node * list (ident * RawResponse)) : Prop :=
  round_asked round ∧ Forall (λ a, agrees value a.2) round.2.

Lemma copy_log_agrees value key nearest among k a (w w' : World P E) s' :
  copy_search (env w) value (copy_crawl key nearest among k a) w = Some (w', s', NotFound) →
  Forall (round_agrees value) (copy_log value (copy_crawl key nearest among k a) w).
Proof using.
  intros Hs. eapply Forall_impl; [eapply (not_found_heard _ _ _ _ w w' _ s' _ ∅ (timed_rounds_order _)); [|exact Hs]|].
  - intros U HU. destruct (crawl_ok_new U (Node_from_id key) nearest k a (λ p _, HU _)).
    by destruct among; split.
  - intros round [Hids Hall]. split; [done|]. eapply Forall_impl; [exact Hall|].
    intros r [Hh Hu]. by apply unapproved_agrees.
Qed.

(** What the network said of a record when [network_copy] found no other: [w]
    is the world it starts in. *)
Definition network_agrees (key : ident) (value : bytes) (w : World P E) : Prop :=
  let target := Node_from_id key in
  let w1 := (pause w).1 in
  let k := Protocol.ksize (proto w1) in
  let '(neighbors, rt) := RoutingTable.find_neighbors (unix_time (env w1)) (router_of (proto w1)) target None in
  let closer := filter (λ n, (distance_to n target < distance_to (source_node (proto w1)) target)%Z) neighbors in
  let nearest := filter (λ n, RoutingTable.has_failures rt (id n) = false) neighbors in
  let among := (length closer <? k)%nat in
  let log := copy_log value (copy_crawl key nearest among k (Protocol.alpha (proto w1)))
               (mkW (set_router rt (proto w1)) (env w1)) in
  nearest ≠ [] ∧ Forall (round_agrees value) log ∧
  (among = true → (0 < Z.of_nat k ≤ USIZE_MAX)%Z →
   ∃ first rest, log = first :: rest ∧
     top_k (NodeHeap.id_distance target) k (elements (list_to_set (id <$> nearest) : gset ident))
       (id <$> first.1)).

Lemma network_copy_agrees key value (w : World P E) :
  (network_copy key value w).2 = NoneOrSame → network_agrees key value w.
Proof using.
  unfold network_copy, network_agrees, peers_to_ask, mbind, M_bind. destruct (pause w) as [w1 []].
  unfold asks, update, gets. cbn [fst]. destruct (RoutingTable.find_neighbors _ _ _ None) as [neighbors rt].
  cbv beta iota zeta. case_bool_decide as Hn; [done|]. cbn [proto env].
  set (w2 := mkW (set_router rt (proto w1)) (env w1)) in *. change (env w1) with (env w2).
  change (Protocol.ksize (set_router rt (proto w1))) with (Protocol.ksize (proto w1)).
  change (Protocol.alpha (set_router rt (proto w1))) with (Protocol.alpha (proto w1)). unfold copy_lookup.
  destruct (copy_search (env w2) value _ w2) as [[[w' s'] r]|] eqn:Hs; [|done].
  destruct r; try done. intros _. split; [done|]. split; [by eapply copy_log_agrees|].
  intros Ha Hk. rewrite Ha in Hs |- *. by eapply everyone_asked.
Qed.

Lemma store_needs_lookup_empty key (w : World P E) :
  get (instant (env w)) (storage (proto w)) (ident_bytes key) = None → key ≠ digest STATUS_LIST_KEY →
  store_needs_lookup key w = (w, true).
Proof using.
  intros He Hk. unfold store_needs_lookup. rewrite bool_decide_eq_false_2 by done.
  unfold storage_get, mbind, M_bind, asks, gets. simpl. by rewrite He.
Qed.

(** C3: a node that holds no record for a DID stores one only if the record is
    bound to the key and the network does not contradict it. The peers asked
    are those of the contacts closest to the key in its own table, taken when
    the request is handled, that have no failures, and there is one; every peer
    asked in any round of this lookup answered, with no record or with the
    SHA-256 of the record sent; and when fewer than [ksize] of the contacts are
    closer to the key than the node itself, the first round asked exactly the
    [ksize] closest of those peers, all of them when there are no more. A peer
    that is silent or holds another record makes the answer None or Conflict. *)
Theorem empty_replica_stores (sender_id key : ident) (addr : string * Z) (value : bytes) (w : World P E)
    (Hempty : get (instant (env w)) (storage (proto w)) (ident_bytes key) = None)
    (Hkey : key ≠ digest STATUS_LIST_KEY)
    (Hstored : holds_record (rpc_store handler sender_id addr key value w).2 = true) :
  is_bound_to_key handler key value = true ∧ network_agrees key value w.
Proof.
  revert Hstored. unfold rpc_store, mbind at 1, M_bind. rewrite store_needs_lookup_empty by done.
  unfold key_binding_is_valid. cbn [negb]. destruct (is_bound_to_key handler key value); [|done].
  cbn [negb]. intros Hs. split; [done|]. apply network_copy_agrees. revert Hs. unfold mbind.
  destruct (network_copy key value w) as [w1 []]; done.
Qed.

End store_check.

Module StoreCheckExample.
Import NodeExample.

Lemma empty_replica_stores_witness :
  is_bound_to_key ex_handler did_key did_record = true ∧ network_agrees did_key did_record world.
Proof.
  apply (empty_replica_stores ex_handler peer_id did_key ("10.0.0.2"%string, 4000%Z) did_record world).
  - vm_compute. reflexivity.
  - intros E1. apply (f_equal ident_bytes) in E1. vm_compute in E1. congruence.
  - vm_compute. reflexivity.
Defined.

(** A forged record is refused with the same network. *)
Example forged_refused :
  (rpc_store ex_handler peer_id ("10.0.0.2"%string, 4000%Z) did_key forged_record world).2 = Some SInvalidRecord.
Proof. vm_compute. reflexivity. Qed.

(** A node that knows nobody does not answer. *)
Example nobody_to_ask :
  (rpc_store ex_handler peer_id ("10.0.0.2"%string, 4000%Z) did_key did_record (mkW start 0%Z)).2 = None.
Proof. vm_compute. reflexivity. Qed.

End StoreCheckExample.
