(* ===== verification/TransportProps.v ===== *)
(** * Calls and their answers

    A call only ever gets an answer of the kind it expects, from the address it
    was sent to, whatever else arrives meanwhile. *)

From S2P Require Import Prelude Utils Node Routing Storage Fragmentation Messages Retransmit.
From S2P Require Import Crypto AuthHandler Crawling Effects Protocol Transport Client Handlers.
From S2P Require Import ProtocolProps HandlersProps NodeExample.

(** ** The channels of calls *)

(** Calls and undelivered answers use channels that were opened. *)
Record channels_ok (t : Transport) : Prop := {
  ck_pending i c : pending t !! i = Some c → (call_channel c < channels t)%N;
  ck_delivered ch m : delivered t !! ch = Some m → (ch < channels t)%N
}.

(** The channel [ch] belongs to a call to [a] that expects [e]; datagrams come
    from the addresses [Q]. *)
Record own_call (Q : SocketAddr → Prop) (ch : N) (a : SocketAddr) (e : ExpectedResponse) (t : Transport) : Prop := {
  oc_pending i c : pending t !! i = Some c → call_channel c = ch → call_peer c = a ∧ expected c = e;
  oc_delivered m : delivered t !! ch = Some m → accepts e m = true ∧ Q a;
  oc_open : (ch < channels t)%N
}.

(** The invariant of a call in progress; [n] channels have been opened. *)
Record in_call (Q : SocketAddr → Prop) (n ch : N) (a : SocketAddr) (e : ExpectedResponse) (t : Transport) : Prop := {
  ic_ok : channels_ok t;
  ic_own : own_call Q ch a e t;
  ic_count : (n ≤ channels t)%N
}.

Lemma delete_entry {K V} `{Countable K} (m : gmap K V) i j v :
  delete i m !! j = Some v → m !! j = Some v.
Proof. by intros [_ ?]%lookup_delete_Some. Qed.

Lemma poll_answer_cases ch t :
  (poll_answer ch t).1 = t ∨ (poll_answer ch t).1 = with_delivered (delete ch (delivered t)) t.
Proof. unfold poll_answer. repeat case_match; auto. Qed.

Lemma take_pending_cases i peer m t :
  take_pending i peer m t = (t, None) ∨
  ∃ c, pending t !! i = Some c ∧ call_peer c = peer ∧ accepts (expected c) m = true ∧
    take_pending i peer m t = (with_pending (delete i (pending t)) t, Some (call_channel c)).
Proof.
  unfold take_pending. destruct (pending t !! i) as [c|]; [|by left].
  destruct (_ && _) eqn:E; [|by left]. bool_facts. right. by exists c.
Qed.

(** A step of the transport opens a call, or leaves the calls alone, closes
    some or drops answers. *)
Lemma transport_step_cases t t' :
  transport_step t t' →
  (∃ i a e, t' = (open_call i a e t).1) ∨
  (∀ i c, pending t' !! i = Some c → pending t !! i = Some c) ∧
  (∀ c m, delivered t' !! c = Some m → delivered t !! c = Some m) ∧ channels t' = channels t.
Proof.
  destruct 1 as [|msg frag|i addr x|i c|c|c|r|key|key| | |r|i peer|i peer m];
    try (by right; split); try (by left; eauto); right.
  - split; [|split; [|done]]; intros ??; apply delete_entry.
  - destruct (poll_answer_cases c t) as [-> | ->]; [done|].
    split; [done|split; [|done]]. intros ??. apply delete_entry.
  - unfold poll_receipt. by case_bool_decide.
  - unfold note_receipt. by repeat case_match.
  - destruct (take_pending_cases i peer m t) as [->|(c & _ & _ & _ & ->)]; [done|].
    split; [|done]. intros ??. apply delete_entry.
Qed.

Lemma channels_ok_step t t' : transport_step t t' → channels_ok t → channels_ok t'.
Proof.
  intros [(i & a & e & ->)|(Hp & Hd & Hc)]%transport_step_cases [Hp0 Hd0].
  - split; simpl.
    + intros j c [[_ <-]|[_ Hj]]%lookup_insert_Some; simpl; [lia|]. specialize (Hp0 _ _ Hj). lia.
    + intros c m Hm. specialize (Hd0 _ _ Hm). lia.
  - split; rewrite Hc; eauto.
Qed.

Lemma in_call_step Q n ch a e t t' : transport_step t t' → in_call Q n ch a e t → in_call Q n ch a e t'.
Proof.
  intros Hs [Hok [Hop Hod Hoo] Hn]. split; [by eapply channels_ok_step|..];
    apply transport_step_cases in Hs as [(i & b & x & ->)|(Hp & Hd & Hc)].
  - split; simpl; [|done|lia].
    intros j c [[_ <-]|[_ Hj]]%lookup_insert_Some; simpl; [lia|]. by apply (Hop j).
  - split; rewrite ?Hc; eauto.
  - simpl. lia.
  - by rewrite Hc.
Qed.

Lemma in_call_mono Q n n' ch a e t : (n ≤ n')%N → in_call Q n' ch a e t → in_call Q n ch a e t.
Proof. intros Hle [Ho Hw Hn]. split; [done..|lia]. Qed.

(** An answer taken from the pending calls is for the channel of its call. *)
Lemma take_pending_ok Q n ch a e i peer m t t' ch' :
  take_pending i peer m t = (t', Some ch') → in_call Q n ch a e t →
  (ch' = ch → peer = a ∧ accepts e m = true) ∧ in_call Q (n `max` N.succ ch') ch a e t'.
Proof.
  intros Ht Hi. pose proof (in_call_step Q n ch a e t t') as Hs.
  destruct (take_pending_cases i peer m t) as [E|(c & Hc & Hp & Ha & E)]; rewrite E in Ht; [done|].
  injection Ht as <- <-. destruct Hi as [Hok Ho Hn] eqn:Hi'. clear Hi'. split.
  - intros Ech. destruct (oc_pending Q ch a e t Ho i c Hc Ech) as [<- <-]. done.
  - destruct Hs as [Hok' Ho' Hn']; [|by split|].
    { replace (with_pending _ t) with ((take_pending i peer m t).1) by (by rewrite E). constructor. }
    split; [done..|]. simpl in *. pose proof (ck_pending t Hok i c Hc). lia.
Qed.

Lemma deliver_ok Q n ch a e ch' m t :
  (ch' = ch → accepts e m = true ∧ Q a) → (N.succ ch' ≤ n)%N → in_call Q n ch a e t →
  in_call Q n ch a e (deliver ch' m t).
Proof.
  intros Hm Hle [[Hp Hd] [Hop Hod Hoo] Hn]. split; [split|split|]; simpl; eauto.
  - intros c x [[<- _]|[_ Hx]]%lookup_insert_Some; [lia|by eapply Hd].
  - intros x [[<- <-]|[_ Hx]]%lookup_insert_Some; [by apply Hm|by apply Hod].
Qed.

(** ** Every activity of the node respects the calls in progress *)

Section calls.
Context {St C E : Type} `{Sha1, Sha256, Bincode, Ipv6Syntax, HashOrder}.
Context `{IStorage St, MokaCache C} (handler : SignatureVerifierHandler).
Abbreviation P := (KademliaProtocol St C).
Context `{Environment E P, LookupSchedule E}.

Definition on_calls (J : Transport → Prop) (w : World P E) : Prop := J (transport (proto w)).

Lemma framed_calls (J : Transport → Prop) :
  stable (on_calls J) → (∀ t t', transport_step t t' → J t → J t') → framed (on_calls J).
Proof using.
  intros HI HJ. split; [done| |]; unfold on_calls; simpl.
  - by intros p p' e [-> _ _ _].
  - intros p e t. apply HJ.
Qed.

(** An answer that arrives is handed to the call it is for. *)
Lemma response_keeps (J : N → Transport → Prop) (R : N → RpcMessage → Prop) f peer n :
  (∀ n, framed (on_calls (J n))) → (∀ n n' t, (n ≤ n')%N → J n' t → J n t) →
  (∀ n i m t t' ch, take_pending i peer m t = (t', Some ch) → J n t → R ch m ∧ J (n `max` N.succ ch)%N t') →
  (∀ n ch m t, R ch m → (N.succ ch ≤ n)%N → J n t → J n (deliver ch m t)) →
  keeps (on_calls (J n)) (handle_response f peer).
Proof using.
  intros HF Hmono Htake Hdel. unfold handle_response.
  assert (∀ m : RpcMessage, keeps (on_calls (J n)) (pause ;; tx ← on_transport_r (take_pending (msg_id f) peer m);
    match tx with
    | None => mret tt
    | Some ch => (match m with
                  | Pong i => schedule_welcome_if_new (node_at i (addr_ip peer, addr_port peer))
                  | _ => mret tt
                  end) ;; modify (on_transport (deliver ch m))
    end)) as Hm.
  { intros m. apply keeps_bind; [by apply fr_pause|]. intros u.
    eapply (triple_bind _ _ (λ tx w, match tx with
      | None => on_calls (J n) w
      | Some ch => R ch m ∧ on_calls (J (n `max` N.succ ch)%N) w
      end)).
    - intros [p e] Hw. unfold on_transport_r, update, on_calls in *. simpl in *.
      destruct (take_pending (msg_id f) peer m (transport p)) as [t' [ch|]] eqn:Ht; simpl.
      + by apply (Htake _ _ _ _ _ _ Ht).
      + destruct (take_pending_cases (msg_id f) peer m (transport p)) as [E1|(c & _ & _ & _ & E1)];
          rewrite E1 in Ht; by injection Ht as <-.
    - intros [ch|]; [|by intros w Hw]. apply triple_pure. intros HR.
      eapply (triple_bind _ _ (λ _, on_calls (J (n `max` N.succ ch)%N))).
      + destruct m; first [apply keeps_ret|by apply fr_schedule].
      + intros u' [p e] Hw. unfold on_calls in *. simpl in *. eapply Hmono; [|apply Hdel; [done| |exact Hw]]; lia. }
  destruct (message f); try apply Hm.
  apply keeps_bind; [by apply fr_pause|]. intros u. apply fr_on_transport; [done|]. intros t. constructor.
Qed.

Lemma storage_keeps_calls (J : Transport → Prop) key value :
  keeps (on_calls J) (storage_set key value) ∧ keeps (on_calls J) (storage_insert key value).
Proof using.
  unfold storage_set, storage_insert. split; (apply keeps_bind; [apply keeps_asks|]); intros now [p e] Hw;
    unfold update, on_calls in *; simpl in *; [by destruct (set _ _ _ _)|by destruct (insert_if_absent _ _ _ _)].
Qed.

Lemma verify_keeps_calls (J : Transport → Prop) key value :
  framed (on_calls J) → keeps (on_calls J) (verify_for_key handler key value).
Proof using.
  intros HF. unfold verify_for_key. keeps_all. intros [p e] Hw. unfold update, on_calls in *. simpl in *.
  by destruct (verify_record _ _ _ _ _).
Qed.

Lemma guarded_calls (J : Transport → Prop) (Q : SocketAddr → Prop) :
  framed (on_calls J) → (∀ f peer, Q peer → keeps (on_calls J) (handle_response f peer)) →
  guarded handler (on_calls J) (λ _ _, True) Q.
Proof using.
  intros HF HR. split; try done.
  - intros key value _. apply storage_keeps_calls.
  - intros key value _. apply storage_keeps_calls.
  - intros key value w Hw. split; [done|]. by apply verify_keeps_calls.
Qed.

(** The invariant of a call survives whatever the node does. *)
Lemma in_call_framed Q n ch a e :
  stable (on_calls (in_call Q n ch a e)) → framed (on_calls (in_call Q n ch a e)).
Proof using. intros HI. apply framed_calls; [done|]. intros t t'. apply in_call_step. Qed.

Lemma in_call_guarded (Q : SocketAddr → Prop) n ch a e :
  (∀ n, stable (on_calls (in_call Q n ch a e))) →
  guarded handler (on_calls (in_call Q n ch a e)) (λ _ _, True) Q.
Proof using.
  intros HI. apply guarded_calls; [by apply in_call_framed|]. intros f peer Hq.
  apply (response_keeps (λ n, in_call Q n ch a e) (λ c m, c = ch → accepts e m = true ∧ Q a)).
  - intros n'. by apply in_call_framed.
  - intros n1 n2 t. apply in_call_mono.
  - intros n1 i m t t' c Ht Hi. destruct (take_pending_ok Q n1 ch a e i peer m t t' c Ht Hi) as [Hc Hi'].
    split; [|done]. intros Ec. destruct (Hc Ec) as [<- ?]. done.
  - intros n1 c m t. apply deliver_ok.
Qed.

(** ** The result of a call *)

Lemma poll_answer_own Q n ch a e t t' m :
  in_call Q n ch a e t → poll_answer ch t = (t', Answered m) → accepts e m = true ∧ Q a.
Proof using.
  intros [_ Ho _]. unfold poll_answer. destruct (delivered t !! ch) as [x|] eqn:Hd; [|by case_match].
  intros [= _ <-]. by apply (oc_delivered Q ch a e t Ho).
Qed.

Definition good_answer (Q : SocketAddr → Prop) (a : SocketAddr) (e : ExpectedResponse)
    (r : option RpcMessage) (_ : World P E) : Prop :=
  ∀ m, r = Some m → accepts e m = true ∧ Q a.

Lemma call_loop_answer Q n ch a e ds measures first_sent deadline l evs :
  stable (on_calls (in_call Q n ch a e)) →
  triple (on_calls (in_call Q n ch a e))
    (call_loop a ds measures ch first_sent deadline l evs) (good_answer Q a e).
Proof using.
  intros HI. pose proof (in_call_framed Q n ch a e HI) as HF. revert l.
  assert (triple (P := P) (E := E) (on_calls (in_call Q n ch a e)) (mret None) (good_answer Q a e)) as Hnone
    by (intros w _ m [=]).
  induction evs as [|ev evs IH]; intros l; cbn [call_loop].
  { eapply triple_bind; [by apply fr_pause|]. intros u. apply Hnone. }
  eapply triple_bind; [by apply fr_pause|]. intros u.
  eapply triple_bind; [apply keeps_asks|]. intros now. destruct ev.
  - eapply (triple_bind _ _ (λ r w, on_calls (in_call Q n ch a e) w ∧
      ∀ m, r = Answered m → accepts e m = true ∧ Q a)).
    + intros [p x] Hw. split.
      * assert (keeps (on_calls (in_call Q n ch a e)) (on_transport_r (poll_answer ch))) as Hk; [|by apply Hk].
        apply fr_transport; [done|]. intros t. constructor.
      * intros m. unfold on_transport_r, update. simpl.
        destruct (poll_answer ch (transport p)) as [t' r] eqn:Hp. simpl. intros ->.
        by eapply poll_answer_own.
    + intros [m| |]; [|eapply triple_pre; [apply Hnone|by intros w [Hw _]]
        |eapply triple_pre; [apply IH|by intros w [Hw _]]].
      intros w [_ Hm] x Hx. rewrite (bind_ret_result _ (λ _ : unit, Some m)) in Hx. injection Hx as <-. by apply Hm.
  - eapply (triple_bind _ _ (λ _, on_calls (in_call Q n ch a e))).
    { apply (fr_transport _ HF). intros t. constructor. }
    intros [|]; cbn [negb]; [|apply IH]. eapply (triple_bind _ _ (λ _, on_calls (in_call Q n ch a e))).
    { case_match; [by apply (fr_round_trip _ HF)|apply keeps_ret]. }
    intros u'. eapply triple_bind; [apply keeps_gets|]. intros after. apply IH.
  - destruct (on_timer now deadline l) as [| |l'|l']; [apply IH|apply Hnone|apply IH|].
    eapply triple_bind; [by apply (fr_send_datagrams _ HF)|]. intros [|]; cbn [negb]; [|apply Hnone].
    eapply triple_bind; [apply keeps_asks|]. intros now'. apply IH.
Qed.

(** A new call owns its channel. *)
Lemma open_call_owns Q i a e t t' ch :
  channels_ok t → open_call i a e t = (t', ch) → in_call Q 0 ch a e t'.
Proof using.
  intros [Hp Hd] [= <- <-]. split; [split|split|]; simpl; try lia.
  - intros j c [[_ <-]|[_ Hj]]%lookup_insert_Some; simpl; [lia|]. specialize (Hp j c Hj). lia.
  - intros c m Hc. specialize (Hd c m Hc). lia.
  - intros j c [[_ <-]|[_ Hj]]%lookup_insert_Some; simpl; [done|]. intros Ec. specialize (Hp j c Hj). lia.
  - intros m Hm. specialize (Hd _ m Hm). lia.
Qed.

Lemma call_answer Q a m :
  stable (on_calls channels_ok) → (∀ ch, stable (on_calls (in_call Q 0 ch a (for_request m)))) →
  triple (on_calls channels_ok) (call a m) (good_answer Q a (for_request m)).
Proof using.
  intros Hok HI. pose proof (framed_calls _ Hok channels_ok_step) as HF. unfold call.
  eapply triple_bind; [by apply fr_next_id|]. intros i.
  eapply triple_bind; [by apply (fr_encode_frame _ HF)|]. intros [ds|]; [|by intros w _ x [=]].
  eapply triple_bind; [by apply fr_pause|]. intros u.
  eapply (triple_bind _ _ (λ ch, on_calls (in_call Q 0 ch a (for_request m)))).
  { intros [p e] Hw. unfold on_transport_r, update, on_calls in *. cbn [proto] in *.
    destruct (open_call i a (for_request m) (transport p)) as [t' ch] eqn:Ho. by eapply open_call_owns. }
  intros ch. eapply triple_bind; [apply keeps_asks|]. intros first_sent.
  pose proof (in_call_framed Q 0 ch a (for_request m) (HI ch)) as HF'.
  eapply triple_bind; [by apply (fr_send_datagrams _ HF')|]. intros sent.
  eapply (triple_bind _ _ (good_answer Q a (for_request m))).
  - destruct sent; cbn [negb]; [|by intros w _ x [=]]. eapply triple_bind; [apply keeps_gets|]. intros after.
    eapply triple_bind; [apply keeps_asks|]. intros evs. by apply call_loop_answer.
  - intros r w Hr. unfold good_answer in *. by rewrite (bind_ret_result _ (λ _ : unit, r)).
Qed.

End calls.

(** ** Theorems *)

Section theorems.
Context {St C E : Type} `{Sha1, Sha256, Bincode, Ipv6Syntax, HashOrder}.
Context `{IStorage St, MokaCache C} (handler : SignatureVerifierHandler).
Abbreviation P := (KademliaProtocol St C).
Context `{Environment E P, LookupSchedule E}.

(** C13: what a node does respects its calls in progress: over any sequence of
    datagrams from the addresses [Q], pings, replications and pending STOREs, the
    channel of a call to [a] only ever receives an answer of the kind the call
    expects, and only if [a] is one of those addresses; the entries of the
    pending calls that use the channel keep their peer and kind. *)
Theorem activities_respect_calls (Q : SocketAddr → Prop) (acts : list Activity) (n ch : N) (a : SocketAddr)
    (e : ExpectedResponse) (w : World P E) (Hacts : Forall (arrives_from Q) acts)
    (Hothers : ∀ n, stable (on_calls (in_call Q n ch a e)))
    (Hw : on_calls (in_call Q n ch a e) w) :
  on_calls (in_call Q n ch a e) (for_each (act handler) acts w).1.
Proof.
  revert w Hw. eapply rq_acts; [by apply in_call_framed|eapply guarded_safe; [by apply in_call_framed|by apply in_call_guarded]|done|done].
Qed.

End theorems.

(** ** On the concrete node *)

Module TransportWitness.
Import NodeExample.

Definition only_peer (a : SocketAddr) : Prop := a = peer_addr.

Lemma answer_all_delivered t ch m :
  delivered (answer_all t) !! ch = Some m →
  delivered t !! ch = Some m ∨ ∃ i c, pending t !! i = Some c ∧ call_channel c = ch ∧
    call_peer c = peer_addr ∧ m = ex_reply (expected c) ∧ accepts (expected c) m = true.
Proof.
  simpl. assert (∀ l, foldr answer_one (delivered t) l !! ch = Some m →
    delivered t !! ch = Some m ∨ ∃ c, c ∈ l ∧ call_channel c = ch ∧ call_peer c = peer_addr ∧
      m = ex_reply (expected c) ∧ accepts (expected c) m = true) as Hl.
  { induction l as [|c l IH]; simpl; [by left|]. unfold answer_one at 1. destruct (answered c) eqn:Ha.
    - unfold answered in Ha. bool_facts. intros [[<- <-]|[_ Hm]]%lookup_insert_Some.
      + right. exists c. split; [by left|]. done.
      + destruct (IH Hm) as [|(c' & ? & ?)]; [by left|]. right. exists c'. split; [by right|done].
    - intros Hm. destruct (IH Hm) as [|(c' & ? & ?)]; [by left|]. right. exists c'. split; [by right|done]. }
  intros [|(c & Hc & Hrest)]%Hl; [by left|right]. apply list_elem_of_fmap in Hc as ([i c'] & -> & Hic).
  apply elem_of_map_to_list in Hic. by exists i, c'.
Qed.

Lemma ex_channels_stable : stable (on_calls (St := ForgetfulStorage.t) (C := Cache) (E := Z) channels_ok).
Proof.
  split; [|done..]. intros p e [Hp Hd]. split; simpl; [by intros i c; rewrite lookup_empty|].
  intros ch m [Hm|(i & c & Hc & <- & _)]%answer_all_delivered; eauto.
Qed.

Lemma ex_calls_stable n ch a e : stable (on_calls (St := ForgetfulStorage.t) (C := Cache) (E := Z) (in_call only_peer n ch a e)).
Proof.
  split; [|done..]. intros p x [Hok [Hop Hod Hoo] Hn]. split; [by apply ex_channels_stable| |done].
  split; [by intros i c; simpl; rewrite lookup_empty| |done].
  intros m [Hm|(i & c & Hc & Hch & Hpeer & -> & Ha)]%answer_all_delivered; [by apply Hod|].
  destruct (Hop i c Hc Hch) as [<- <-]. done.
Qed.

Lemma ex_channels_start : on_calls channels_ok world.
Proof.
  apply (fr_add_contact _ (framed_calls _ ex_channels_stable channels_ok_step)).
  split; simpl; intros ??; by rewrite lookup_empty.
Qed.

(** A call to the peer has just been opened. *)
Definition calling : World ExP Z :=
  (on_transport_r (open_call 0 peer_addr EPong) world).1.

Lemma ex_calling : on_calls (in_call only_peer 0 0 peer_addr EPong) calling.
Proof.
  assert (channels (transport (proto world)) = 0%N) as E1 by (vm_compute; reflexivity).
  unfold calling. revert E1. generalize ex_channels_start. generalize world. intros [p e] Hok E1.
  eapply open_call_owns; [exact Hok|]. unfold open_call. by rewrite <-E1.
Qed.

Lemma activities_respect_calls_witness :
  on_calls (in_call only_peer 0 0 peer_addr EPong)
    (for_each (act ex_handler) [OnDatagram (datagram x03) peer_addr; OnPing peer_node] calling).1.
Proof.
  apply (activities_respect_calls ex_handler only_peer).
  - repeat constructor.
  - intros n. apply ex_calls_stable.
  - exact ex_calling.
Defined.

End TransportWitness.
