(* ===== verification/Interleaving.v ===== *)
(** * A node whose other tasks are its own

    The environment of a task, closed: while the task waits, the other tasks of
    the node run. They handle the datagrams that arrive and run the spawned
    tasks ([Activity]); they wait in turn, and others run then, to any depth.
    Nothing is assumed of them: what they respect follows from what they do. *)

From S2P Require Import Prelude Utils Node Routing Storage Fragmentation Messages Retransmit.
From S2P Require Import Crypto AuthHandler Crawling Effects Protocol Transport Client Handlers.
From S2P Require Import ProtocolProps HandlersProps TransportProps NodeExample.

(** What runs at each wait to come, and the rest of the environment: the clocks,
    the random numbers and the socket. *)
Record Interleaving (B : Type) := mkIv { schedule : list (list Activity); outside : B }.
Arguments mkIv {B}.
Arguments schedule {B}.
Arguments outside {B}.

Section interleaving.
Context {St C B : Type} `{Sha1, Sha256, Bincode, Ipv6Syntax, HashOrder}.
Context `{IStorage St, MokaCache C} (handler : SignatureVerifierHandler).
Abbreviation P := (KademliaProtocol St C).
Context `{Environment B unit, LookupSchedule B}.

(** The addresses that send datagrams to the node. *)
Context (senders : gset SocketAddr).

Definition from_senders (a : Activity) : bool :=
  match a with OnDatagram _ peer => bool_decide (peer ∈ senders) | _ => true end.

#[global] Program Instance interleaved_schedule : LookupSchedule (Interleaving B) := {|
  round_env e := round_env (outside e);
  rounds_in_time e := rounds_in_time (outside e)
|}.
Next Obligation. intros e n l. apply round_order. Qed.

(** Time passes, and the next batch of activities is the one to run. *)
Definition tick (e : Interleaving B) : Interleaving B :=
  mkIv (tail (schedule e)) (others (outside e) tt).1.

(** The environment: at a wait, the next batch of the schedule runs, in an
    environment one level down; at the bottom nothing else runs. *)
Fixpoint interleaved (depth : nat) : Environment (Interleaving B) P := {|
  instant e := instant (outside e);
  unix_time e := unix_time (outside e);
  jitter e := jitter (outside e);
  random_id e := let '(b, i) := random_id (outside e) in (mkIv (schedule e) b, i);
  others e p :=
    match depth with
    | O => (tick e, p)
    | S d =>
        let batch := filter (λ a, from_senders a = true) (hd [] (schedule e)) in
        let w := (for_each (@act St C (Interleaving B) _ _ _ _ _ _ _ handler (interleaved d) _)
                    batch (mkW p (tick e))).1 in
        (env w, proto w)
    end;
  send_to e a d := let '(b, ok) := send_to (outside e) a d in (mkIv (schedule e) b, ok);
  wakeups e := wakeups (outside e)
|}.

(** Invariants of the node that every activity keeps, in an environment that
    respects them, are respected at every depth. *)
Lemma interleaved_stable (J : N → P → Prop) :
  (∀ (env' : Environment (Interleaving B) P) acts n,
     (∀ n, @stable P (Interleaving B) env' (λ w, J n (proto w))) →
     Forall (arrives_from (λ a, a ∈ senders)) acts →
     keeps (λ w, J n (proto w)) (for_each (@act St C (Interleaving B) _ _ _ _ _ _ _ handler env' _) acts)) →
  ∀ depth n, @stable P (Interleaving B) (interleaved depth) (λ w, J n (proto w)).
Proof using.
  intros Hacts depth. induction depth as [|d IH]; intros n; split; simpl; intros p e; intros; try done;
    try (by case_match).
  apply (Hacts (interleaved d) _ n IH); [|done].
  apply Forall_forall. intros [] [Ha _]%list_elem_of_filter; simpl in *; [|done..]. by bool_facts.
Qed.

(** ** Calls *)

(** The channels are in order, and [n] of them have been opened. *)
Definition in_order (n : N) (t : Transport) : Prop := channels_ok t ∧ (n ≤ channels t)%N.

Lemma in_order_step n t t' : transport_step t t' → in_order n t → in_order n t'.
Proof using.
  intros Hs [Hok Hn]. split; [by eapply channels_ok_step|].
  apply transport_step_cases in Hs as [(i & a & e & ->)|(_ & _ & ->)]; simpl; lia.
Qed.

Lemma in_order_take peer n i m t t' ch :
  take_pending i peer m t = (t', Some ch) → in_order n t → True ∧ in_order (n `max` N.succ ch)%N t'.
Proof using.
  intros Ht [Hok Hn]. split; [done|].
  destruct (take_pending_cases i peer m t) as [E|(c & Hc & _ & _ & E)]; rewrite E in Ht; [done|].
  injection Ht as <- <-. split; [|pose proof (ck_pending t Hok i c Hc); simpl; lia].
  eapply channels_ok_step; [|exact Hok]. replace (with_pending _ t) with ((take_pending i peer m t).1) by (by rewrite E).
  constructor.
Qed.

Lemma in_order_deliver n ch m t : (N.succ ch ≤ n)%N → in_order n t → in_order n (deliver ch m t).
Proof using.
  intros Hle [[Hp Hd] Hn]. split; [split|]; simpl; eauto.
  intros c x [[<- _]|[_ Hx]]%lookup_insert_Some; [lia|by eapply Hd].
Qed.

Lemma in_order_acts (env' : Environment (Interleaving B) P) acts n :
  (∀ n, stable (on_calls (E := Interleaving B) (in_order n))) → Forall (arrives_from (λ a, a ∈ senders)) acts →
  keeps (on_calls (in_order n)) (for_each (act handler) acts).
Proof using.
  intros Hst Hacts.
  assert (∀ n, framed (on_calls (E := Interleaving B) (in_order n))) as HF
    by (intros n'; apply framed_calls; [done|]; intros t t'; apply in_order_step).
  assert (guarded handler (on_calls (in_order n)) (λ _ _, True) (λ a, a ∈ senders)) as HG.
  { apply guarded_calls; [done|]. intros f peer _. apply (response_keeps in_order (λ _ _, True)); [done|..].
    - intros n1 n2 t Hle [Hok Hn]. split; [done|lia].
    - intros n1 i m t t' ch. apply in_order_take.
    - intros n1 ch m t _. apply in_order_deliver. }
  eapply rq_acts; [done|by eapply guarded_safe|done|done].
Qed.

Lemma in_call_acts ch a x (env' : Environment (Interleaving B) P) acts n :
  (∀ n, stable (on_calls (E := Interleaving B) (in_call (λ b, b ∈ senders) n ch a x))) →
  Forall (arrives_from (λ b, b ∈ senders)) acts →
  keeps (on_calls (in_call (λ b, b ∈ senders) n ch a x)) (for_each (act handler) acts).
Proof using.
  intros Hst Hacts. eapply rq_acts; [by apply in_call_framed| |..];
    [eapply guarded_safe; [by apply in_call_framed|by apply in_call_guarded]|done|done].
Qed.

(** C14: a call returns only an answer of the kind its request expects, and only
    if the address it was sent to is one that sends datagrams to the node. The
    other tasks of the node are its own activities, run at the waits of the call
    and at their own: the handling of any datagrams from those addresses, pings,
    replications and pending STOREs. No other peer, no answer to another request
    and no request ends the call. *)
Theorem call_answer_expected (depth : nat) (a : SocketAddr) (m r : RpcMessage)
    (w : World P (Interleaving B)) (Hw : channels_ok (transport (proto w)))
    (Hr : (@call St C (Interleaving B) _ (interleaved depth) a m w).2 = Some r) :
  accepts (for_request m) r = true ∧ a ∈ senders.
Proof.
  pose proof (interleaved_stable (λ n p, in_order n (transport p)) in_order_acts depth) as Hch.
  assert (@stable P (Interleaving B) (interleaved depth) (on_calls channels_ok)) as Hok.
  { destruct (Hch 0%N) as [Ho _ _]. split; unfold on_calls, in_order in *; simpl in *; intros.
    - apply Ho. split; [done|lia].
    - done.
    - done. }
  assert (∀ ch, @stable P (Interleaving B) (interleaved depth)
    (on_calls (in_call (λ b, b ∈ senders) 0 ch a (for_request m)))) as Hin.
  { intros ch. apply (interleaved_stable (λ n p, in_call (λ b, b ∈ senders) n ch a (for_request m) (transport p))).
    intros env' acts n. apply in_call_acts. }
  exact (call_answer (λ b, b ∈ senders) a m Hok Hin w Hw r Hr).
Qed.

End interleaving.

(** ** On the concrete node *)

Module InterleavingExample.
Import NodeExample.

(** A clock, and wakeups that look at the answer channel. *)
#[local] Instance ex_outside : Environment Z unit := {|
  instant e := e;
  unix_time e := (e `div` 1000000000)%Z;
  jitter _ _ := 0%Z;
  random_id e := (e, me);
  others e u := ((e + 1000000)%Z, u);
  send_to e _ _ := (e, true);
  wakeups _ := [OnTimer; OnAnswer; OnAnswer; OnAnswer]
|}.

Definition quiet : ExP := Protocol.new 0 0 (Node_from_id me) (ForgetfulStorage.new DEFAULT_TTL) 2 1 (Some ∅ : option Cache).

(** Three waits before the answer arrives: a forged Pong from another address
    first, then the Pong of the peer. *)
Definition stranger : SocketAddr := mkAddr "10.0.0.66" 4000.
Definition busy_world : World ExP (Interleaving Z) :=
  mkW quiet (mkIv [[]; []; [OnDatagram (datagram x03) stranger]; [OnPing peer_node; OnDatagram (datagram x03) peer_addr]] 0%Z).

Lemma call_answer_expected_witness :
  accepts (for_request (Ping me)) (Pong peer_id) = true ∧ peer_addr ∈ ({[peer_addr; stranger]} : gset SocketAddr).
Proof.
  apply (call_answer_expected ex_handler {[peer_addr; stranger]} 3 peer_addr (Ping me) (Pong peer_id) busy_world).
  - split; simpl; intros ??; by rewrite lookup_empty.
  - vm_compute. reflexivity.
Defined.

(** With the forged Pong alone the call does not end. *)
Example forged_pong_ignored :
  (@call _ _ (Interleaving Z) _ (interleaved ex_handler {[peer_addr; stranger]} 3) peer_addr (Ping me)
     (mkW quiet (mkIv [[]; []; [OnDatagram (datagram x03) stranger]] 0%Z))).2 = None.
Proof. vm_compute. reflexivity. Qed.

End InterleavingExample.
