(* ===== verification/CallProps.v ===== *)
(** * What a call transmits

    Over any network and any scheduling, a call sends the datagrams of its
    request, and copies of them, to its peer and nothing else; at most
    [MAX_RESENDS] copies. The environment is given a log of what a method
    sends. *)

From S2P Require Import Prelude Utils Node Routing Storage Fragmentation Messages Retransmit.
From S2P Require Import Crypto AuthHandler Effects Protocol Transport NodeExample.

Section logged.
Context {St C E : Type} `{Bincode}.
Abbreviation P := (KademliaProtocol St C).
Context `{Environment E P}.

Definition Log : Type := list (SocketAddr * bytes).

(** The environment [E] with a log of what this method sends; what other tasks
    send is not logged. *)
#[local] Instance logged : Environment (E * Log) P := {|
  instant e := instant e.1;
  unix_time e := unix_time e.1;
  jitter e := jitter e.1;
  random_id e := let '(e', i) := random_id e.1 in ((e', e.2), i);
  others e p := let '(e', p') := others e.1 p in ((e', e.2), p');
  send_to e a d := let '(e', ok) := send_to e.1 a d in ((e', e.2 ++ [(a, d)]), ok);
  wakeups e := wakeups e.1
|}.

Abbreviation W := (World P (E * Log)).

Definition sent_is (l : Log) (w : W) : Prop := (env w).2 = l.

Lemma sent_pause l : keeps (sent_is l) pause.
Proof using. intros [p [e l']] Hw. unfold pause. simpl. by destruct (others e p). Qed.

Lemma sent_update {A} l (f : P → P * A) : keeps (sent_is l) (update f).
Proof using. intros [p e] Hw. unfold update. simpl. by destruct (f p). Qed.

Lemma sent_modify l (f : P → P) : keeps (sent_is l) (modify f).
Proof using. by intros [p e] Hw. Qed.

#[local] Hint Resolve sent_pause sent_update sent_modify : kad.

Lemma sent_transport {A} l (f : Transport → Transport * A) : keeps (sent_is l) (on_transport_r f).
Proof using. apply sent_update. Qed.

#[local] Hint Resolve sent_transport : kad.

(** Sending does not fail. *)
Definition sends_succeed : Prop := ∀ (e : E) a d, (send_to e a d).2 = true.

(** A prefix of [ds] is sent, all of it unless an error is reported. *)
Lemma sent_datagrams l addr ds :
  triple (sent_is l) (send_datagrams addr ds) (λ ok w, ∃ s,
    sent_is (l ++ s) w ∧ s `prefix_of` (pair addr <$> ds) ∧ (ok = true → s = pair addr <$> ds) ∧
    (sends_succeed → ok = true)).
Proof using.
  revert l. induction ds as [|d ds IH]; intros l; cbn [send_datagrams].
  { intros w Hw. exists []. by rewrite app_nil_r. }
  eapply triple_bind; [apply sent_pause|]. intros u.
  eapply (triple_bind _ _ (λ ok w, (sends_succeed → ok = true) ∧ sent_is (l ++ [(addr, d)]) w)).
  { intros [p [e l']] Hw. unfold effect, sent_is in *. simpl in *. subst l'.
    destruct (send_to e addr d) as [e' ok] eqn:Hd. split; [|done]. intros Hg. specialize (Hg e addr d). by rewrite Hd in Hg. }
  intros [|]; cbn [negb]; apply triple_pure; intros Hg.
  - eapply triple_weaken; [apply IH|done|]. intros ok w (s & Hs & Hp & Ho & Hk). exists ((addr, d) :: s).
    rewrite <-(assoc_L (++)) in Hs. split; [done|]. csimpl. split; [by apply prefix_cons|].
    split; [|done]. intros ->. by rewrite Ho.
  - intros w Hw. exists [(addr, d)]. split; [done|]. csimpl. split; [|done]. apply prefix_cons, prefix_nil.
Qed.

(** [k] copies of the datagrams. *)
Definition copies (addr : SocketAddr) (ds : list bytes) (k : nat) : Log :=
  mjoin (replicate k (pair addr <$> ds)).

Lemma copies_S addr ds k : copies addr ds (S k) = copies addr ds k ++ (pair addr <$> ds).
Proof using.
  unfold copies. induction k as [|k IH]; simpl in *; [by rewrite app_nil_r|].
  rewrite <-(assoc_L (++)). f_equal. exact IH.
Qed.

Lemma copies_prefix addr ds j k : j ≤ k → copies addr ds j `prefix_of` copies addr ds k.
Proof using.
  induction 1 as [|k Hle IH]; [done|]. rewrite copies_S. by apply prefix_app_r.
Qed.

(** The datagrams are sent, then copies of them; a send error cuts them short. *)
Definition transmission (addr : SocketAddr) (ds : list bytes) (s : Log) : Prop :=
  (sends_succeed → (pair addr <$> ds) `prefix_of` s) ∧
  s `prefix_of` copies addr ds (1 + Z.to_nat MAX_RESENDS).

Definition transmitted (l : Log) (addr : SocketAddr) (ds : list bytes) (w : W) : Prop :=
  ∃ s, sent_is (l ++ s) w ∧ transmission addr ds s.

Lemma first_copy addr ds k : (pair addr <$> ds) `prefix_of` copies addr ds (S k).
Proof using. unfold copies. simpl. by apply prefix_app_r. Qed.

Lemma transmitted_copies l addr ds k w :
  k < 3 → sent_is (l ++ copies addr ds (S k)) w → transmitted l addr ds w.
Proof using.
  intros Hk Hw. eexists. split; [done|]. split; [intros _; apply first_copy|]. by apply copies_prefix.
Qed.

Lemma sent_call_loop l addr ds measures ch first_sent deadline loop evs :
  (0 ≤ resends loop ≤ MAX_RESENDS)%Z →
  triple (sent_is (l ++ copies addr ds (S (Z.to_nat (resends loop)))))
    (call_loop addr ds measures ch first_sent deadline loop evs) (λ _, transmitted l addr ds).
Proof using.
  revert loop. induction evs as [|ev evs IH]; intros loop Hr; cbn [call_loop].
  all: assert (Z.to_nat (resends loop) < 3) as Hle by (unfold MAX_RESENDS in *; lia).
  all: eapply triple_bind; [apply sent_pause|]; intros u.
  { intros w Hw. by eapply transmitted_copies. }
  eapply triple_bind; [apply keeps_asks|]. intros now. destruct ev.
  - eapply triple_bind; [apply sent_transport|]. intros [m| |]; [|intros w Hw; by eapply transmitted_copies|by apply IH].
    eapply (triple_bind _ _ (λ _, sent_is (l ++ copies addr ds (S (Z.to_nat (resends loop)))))).
    { case_match; [|apply keeps_ret]. unfold record_round_trip. apply keeps_bind; [apply keeps_asks|]. eauto with kad. }
    intros u' w Hw. by eapply transmitted_copies.
  - eapply triple_bind; [apply sent_transport|]. intros [|]; cbn [negb]; [|by apply IH].
    eapply (triple_bind _ _ (λ _, sent_is (l ++ copies addr ds (S (Z.to_nat (resends loop)))))).
    { case_match; [|apply keeps_ret]. unfold record_round_trip. apply keeps_bind; [apply keeps_asks|]. eauto with kad. }
    intros u'. eapply triple_bind; [apply keeps_gets|]. intros after.
    apply (IH (on_receipt now after loop)). done.
  - destruct (on_timer now deadline loop) as [| |l'|l'] eqn:Ht; [by apply IH|intros w Hw; by eapply transmitted_copies|..].
    all: unfold on_timer in Ht; repeat case_match; simplify_eq; bool_facts.
    { by apply (IH (mkLoop (wait loop) deadline (resends loop) (receipts loop))). }
    eapply triple_bind; [apply sent_datagrams|]. intros ok. intros w (s & Hs & Hp & Ho & _).
    rewrite <-(assoc_L (++)) in Hs. destruct ok; cbn [negb].
    + rewrite (Ho eq_refl), <-copies_S in Hs. eapply (triple_run _ _ (λ _, transmitted l addr ds) w Hs). eapply triple_bind; [apply keeps_asks|]. intros now'.
      match goal with |- triple _ (call_loop _ _ _ _ _ _ ?l' _) _ =>
        eapply triple_pre; [apply (IH l'); simpl; lia|] end.
      intros w' Hw. simpl. by replace (S (Z.to_nat (resends loop + 1))) with (S (S (Z.to_nat (resends loop)))) by lia.
    + eexists. split; [exact Hs|]. split; [intros _; by apply prefix_app_r, first_copy|].
      etrans; [|apply (copies_prefix addr ds (S (S (Z.to_nat (resends loop)))))].
      * rewrite (copies_S addr ds (S (Z.to_nat (resends loop)))). by apply prefix_app.
      * unfold MAX_RESENDS in *. lia.
Qed.

(** The datagrams of a request. *)
Definition datagrams_of (m : RpcMessage) (ds : list bytes) : Prop :=
  ∃ i b frag, serialize (mkFrame i true m) = Some b ∧ encode_message frag b = Some ds.

(** Some encoding of the request fails. *)
Definition unencodable (m : RpcMessage) : Prop :=
  ∃ i frag, (serialize (mkFrame i true m) ≫= encode_message frag) = None.

Lemma sent_encode l i m :
  triple (sent_is l) (encode_frame (mkFrame i true m)) (λ r w,
    match r with Some ds => datagrams_of m ds | None => unencodable m end ∧ sent_is l w).
Proof using.
  intros [p e] Hw. unfold encode_frame. destruct (serialize (mkFrame i true m)) as [b|] eqn:Hs.
  2:{ split; [|done]. exists i, 0%Z. by rewrite Hs. }
  unfold on_transport_r, update. simpl. destruct (encode_message _ b) as [ds|] eqn:He; simpl; (split; [|done]).
  - by exists i, b, (next_frag_id (transport p)).
  - exists i, (next_frag_id (transport p)). by rewrite Hs.
Qed.

(** What a call sends. *)
Lemma sent_call l addr m :
  triple (sent_is l) (call addr m) (λ _ w,
    (unencodable m ∧ sent_is l w) ∨ ∃ ds, datagrams_of m ds ∧ transmitted l addr ds w).
Proof using.
  unfold call. eapply triple_bind; [apply sent_transport|]. intros i.
  eapply triple_bind; [apply sent_encode|]. intros [ds|]; apply triple_pure; intros Hds; [|by intros w' Hw; left].
  eapply (triple_weaken _ _ _ _ (λ _, transmitted l addr ds)); [|done|intros _ w' Ht; right; by exists ds].
  eapply triple_bind; [apply sent_pause|]. intros u. eapply triple_bind; [apply sent_transport|]. intros ch.
  eapply triple_bind; [apply keeps_asks|]. intros first_sent.
  eapply triple_bind; [apply sent_datagrams|]. intros ok.
  eapply (triple_bind _ _ (λ _, transmitted l addr ds)).
  - intros w' (s & Hs & Hp & Ho & Hg). destruct ok; cbn [negb].
    + rewrite (Ho eq_refl) in Hs. eapply (triple_run _ _ (λ _, transmitted l addr ds) w' Hs).
      eapply triple_bind; [apply keeps_gets|]. intros after.
      eapply triple_bind; [apply keeps_asks|]. intros evs.
      eapply triple_pre; [apply sent_call_loop; by vm_compute|]. intros w1 Hs1. unfold copies. simpl.
      by rewrite app_nil_r.
    + exists s. split; [done|]. split; [intros Hk; by apply Hg in Hk|]. etrans; [exact Hp|]. apply first_copy.
  - intros r w' Ht. exact Ht.
Qed.

(** C16: a call transmits its request and nothing else: whatever the network does
    and however tasks are scheduled, it sends the datagrams of one encoding of the
    request, in order, to its peer, followed by at most [MAX_RESENDS] copies of
    the same datagrams, or nothing if an encoding of the request fails. The end
    of the call cuts the copies short; the datagrams themselves are all sent if
    the socket reports no error. *)
Theorem call_transmits (addr : SocketAddr) (m : RpcMessage) (w : W) :
  let log := (env (call addr m w).1).2 in
  (log = (env w).2 ∧ unencodable m) ∨
  ∃ ds s, datagrams_of m ds ∧ log = (env w).2 ++ s ∧
    s `prefix_of` copies addr ds (1 + Z.to_nat MAX_RESENDS) ∧
    (sends_succeed → (pair addr <$> ds) `prefix_of` s).
Proof.
  pose proof (sent_call (env w).2 addr m w eq_refl) as Ht. destruct (call addr m w) as [w' r].
  destruct Ht as [[Hu Hn]|(ds & Hd & s & Hs & Hf & Hp)]; [by left|right]. by exists ds, s.
Qed.

End logged.
