(* ===== verification/ContactsProps.v ===== *)
(** * Contacts and forged messages (src/src/protocol/contacts.rs, welcome.rs)

    UDP source addresses can be forged. A message that claims to come from a
    contact does not move that contact to another address, nor remove it. *)

From S2P Require Import Prelude Utils Node Routing BucketProps RoutingProps Storage Fragmentation Messages.
From S2P Require Import Retransmit Crypto AuthHandler Crawling Effects Protocol Transport Client Handlers.
From S2P Require Import NodeExample.
Import RoutingTable.

(** ** Which nodes a table holds *)

Definition all_nodes (b : KBucket.t) : list Node := KBucket.nodes b ++ KBucket.replacement_nodes b.

Definition known_node (bs : list KBucket.t) (c : Node) : Prop := ∃ b, b ∈ bs ∧ c ∈ all_nodes b.

Lemma elem_of_all_nodes b c :
  c ∈ all_nodes b ↔ c ∈ KBucket.nodes b ∨ c ∈ KBucket.replacement_nodes b.
Proof. apply elem_of_app. Qed.

Lemma elem_of_delete {A} (l : list A) i x : x ∈ delete i l → x ∈ l.
Proof.
  revert i. induction l as [|y l IH]; intros [|i]; simpl; [done..| |].
  - intros Hx. by right.
  - intros [->|Hx]%elem_of_cons; [by left|right; by eapply IH].
Qed.

Lemma pop_front_while_sub max l x : x ∈ KBucket.pop_front_while max l → x ∈ l.
Proof.
  induction l as [|y l IH]; simpl; [done|]. case_match; [|done]. intros Hx. right. by apply IH.
Qed.

Lemma add_node_nodes b n c : c ∈ all_nodes (KBucket.add_node b n).1 → c ∈ all_nodes b ∨ c = n.
Proof.
  rewrite !elem_of_all_nodes. unfold KBucket.add_node. destruct (KBucket.position n (KBucket.nodes b)).
  { simpl. rewrite elem_of_app, list_elem_of_singleton. intros [[Hc%elem_of_delete|]|]; auto. }
  destruct (_ <? _); simpl; [rewrite elem_of_app, list_elem_of_singleton; tauto|].
  intros [|Hc%pop_front_while_sub]; [auto|]. revert Hc.
  rewrite elem_of_app, list_elem_of_singleton. case_match; [|tauto]. intros [Hc%elem_of_delete|]; auto.
Qed.

Lemma remove_node_nodes b n c : c ∈ all_nodes (KBucket.remove_node b n) → c ∈ all_nodes b.
Proof.
  rewrite !elem_of_all_nodes. unfold KBucket.remove_node, KBucket.pop_back.
  set (rs := filter _ _). assert (∀ x, x ∈ rs → x ∈ KBucket.replacement_nodes b) as Hrs.
  { intros x [_ Hx]%list_elem_of_filter. done. }
  destruct (KBucket.position n (KBucket.nodes b)); simpl; [|naive_solver].
  destruct (last rs) as [r|] eqn:Hl; simpl; intros [Hc|Hc]; auto.
  - apply elem_of_app in Hc as [Hc%elem_of_delete|Hc%list_elem_of_singleton]; [auto|]. subst.
    right. by apply Hrs, last_Some_elem_of.
  - right. apply Hrs. by eapply elem_of_take_incl.
  - left. by eapply elem_of_delete.
Qed.

Lemma distribute_nodes mid low high l low' high' c :
  KBucket.distribute mid low high l = (low', high') → c ∈ all_nodes low' ∨ c ∈ all_nodes high' →
  c ∈ all_nodes low ∨ c ∈ all_nodes high ∨ c ∈ l.
Proof.
  revert low high. induction l as [|n l IH]; intros low high; simpl; [intros [= <- <-]; tauto|].
  case_match; intros Hd Hc; apply (IH _ _ Hd) in Hc as [Hc|[Hc|Hc]];
    try apply add_node_nodes in Hc as [Hc|Hc]; rewrite elem_of_cons; tauto.
Qed.

Lemma split_nodes now b low high c :
  KBucket.split now b = (low, high) → c ∈ all_nodes low ∨ c ∈ all_nodes high → c ∈ all_nodes b.
Proof.
  unfold KBucket.split. destruct (KBucket.range b) as [lo hi]. intros Hd Hc.
  apply (distribute_nodes _ _ _ _ _ _ _ Hd) in Hc as [Hc|[Hc|Hc]]; [..|done];
    apply elem_of_all_nodes in Hc as [Hc|Hc]; by apply not_elem_of_nil in Hc.
Qed.

(** ** What an addition may change *)

Lemma known_node_insert bs i b b' c :
  bs !! i = Some b → known_node (<[i := b']> bs) c → c ∈ all_nodes b' ∨ known_node bs c.
Proof.
  intros Hi (d & Hd & Hc). eapply elem_of_insert in Hd as [->|Hd]; [by left| |done]. right. by exists d.
Qed.

Lemma remove_contact_nodes rt n c :
  known_node (buckets (remove_contact rt n)) c → known_node (buckets rt) c.
Proof.
  unfold remove_contact, update_bucket. simpl.
  destruct (buckets rt !! bucket_index_for rt (long_id n)) as [b|] eqn:Hb.
  - rewrite (alter_insert_lookup _ _ _ _ Hb). intros [Hc|]%(known_node_insert _ _ b); [|done|done].
    exists b. split; [by eapply list_elem_of_lookup_2|by eapply remove_node_nodes].
  - intros (d & Hd & Hc). exists d. split; [|done]. apply list_elem_of_lookup_1 in Hd as [j Hj].
    apply (list_elem_of_lookup_2 _ j). destruct (decide (bucket_index_for rt (long_id n) = j)) as [<-|Hne].
    + by rewrite list_lookup_alter_eq, Hb in Hj.
    + by rewrite list_lookup_alter_ne in Hj.
Qed.

Lemma replace_stale_nodes rt idx n c :
  known_node (buckets (replace_stale_if_full rt idx n)) c → known_node (buckets rt) c.
Proof.
  unfold replace_stale_if_full. destruct (buckets rt !! idx); [|done]. case_match; [done|].
  case_match; [apply remove_contact_nodes|done].
Qed.

Lemma insert_nodes fuel now rt n rt' r c :
  insert fuel now rt n = Some (rt', r) → known_node (buckets rt') c → known_node (buckets rt) c ∨ c = n.
Proof.
  revert rt. induction fuel as [|fuel IH]; intros rt; [done|]. cbn [insert].
  set (idx := bucket_index_for rt (long_id n)). set (rt1 := replace_stale_if_full rt idx n).
  destruct (buckets rt1 !! idx) as [b|] eqn:Hb; [|done]. cbn [mbind option_bind].
  pose proof (add_node_nodes b n) as Ha. destruct (KBucket.add_node b n) as [b' added]. simpl in Ha.
  set (rt2 := with_buckets rt1 _).
  assert (∀ c, known_node (buckets rt2) c → known_node (buckets rt) c ∨ c = n) as H2.
  { intros c' [Hc|Hc]%(known_node_insert _ _ b); [| |done].
    - apply Ha in Hc as [Hc|]; [left|by right]. apply (replace_stale_nodes rt idx n). exists b.
      split; [by eapply list_elem_of_lookup_2|done].
    - left. by eapply replace_stale_nodes. }
  destruct added; [by intros [= <- _]; apply H2|].
  case_match; [|by intros [= <- _]; apply H2].
  intros Hi Hc. destruct (IH _ Hi Hc) as [Hc'|]; [|by right]. apply H2. revert Hc'. unfold split_bucket.
  destruct (buckets rt2 !! idx) as [b2|] eqn:Hb2; [|done].
  destruct (KBucket.split now b2) as [low high] eqn:Hs. intros (d & Hd & Hcd).
  assert (known_node (buckets rt2) c ∨ c ∈ all_nodes low ∨ c ∈ all_nodes high) as [|Hc'].
  { eapply elem_of_split in Hd as [->|[->|Hd]]; [..|exact Hb2]; [auto..|]. left. by exists d. }
  - done.
  - exists b2. split; [by eapply list_elem_of_lookup_2|by eapply split_nodes].
Qed.

(** ** Contacts are unique *)

Lemma known_node_unique rt c d :
  wf rt → known_node (buckets rt) c → known_node (buckets rt) d → id c = id d → c = d.
Proof.
  intros Hwf (b & Hb & Hc) (b' & Hb' & Hd) E.
  apply list_elem_of_lookup_1 in Hb as [i Hi], Hb' as [j Hj].
  pose proof (wf_bucket _ _ _ Hwf Hi) as Hbi. pose proof (wf_bucket _ _ _ Hwf Hj) as Hbj.
  pose proof (in_bucket_covers _ _ c Hbi (elem_of_ids _ _ Hc)) as Hcov.
  assert (KBucket.covers b' (long_id c) = true) as Hcov'.
  { rewrite (long_id_of_id c d E). eapply in_bucket_covers; [done|]. by apply elem_of_ids. }
  assert (i = j) as <- by (by rewrite <-(bucket_index_eq rt c i b), <-(bucket_index_eq rt c j b')).
  simplify_eq. eapply (NoDup_fmap_inj_on id); [apply (bw_nodup _ _ Hbi)|done..].
Qed.

Lemma get_contact_known rt i c : get_contact rt i = Some c → known_node (buckets rt) c ∧ id c = i.
Proof.
  unfold get_contact. intros [Hin Hf]%find_elem. bool_facts. split; [|done].
  apply list_elem_of_In, in_flat_map in Hin as (b & Hb & Hc). exists b.
  split; by apply list_elem_of_In.
Qed.

(** [c] is a contact of the table, with its address, and is not stale. *)
Record registered (c : Node) (rt : t) : Prop := {
  rg_wf : wf rt;
  rg_contact : c ∈ primaries rt;
  rg_fresh : is_stale rt (id c) = false
}.

Lemma primaries_known rt c : c ∈ primaries rt → known_node (buckets rt) c.
Proof.
  intros Hc%list_elem_of_In. apply in_flat_map in Hc as (b & Hb & Hc). exists b.
  split; [by apply list_elem_of_In|]. apply elem_of_all_nodes. left. by apply list_elem_of_In.
Qed.

Lemma registered_not_new c rt n : registered c rt → id n = id c → is_new_node rt n = false.
Proof.
  intros [Hwf Hc _] E. apply is_new_node_primary; [done|]. apply primaries_ids. rewrite E.
  by apply elem_of_ids.
Qed.

(** Adding a node keeps [c], if the node is not [c] at another address. *)
Lemma registered_add c rt now n rt' r :
  registered c rt → (id n = id c → n = c) → add_contact now rt n = Some (rt', r) → registered c rt'.
Proof.
  intros [Hwf Hc Hf] Hn Ha. destruct (wf_add_contact now rt n Hwf) as (rt1 & r1 & Ha1 & Hg & _).
  rewrite Ha in Ha1. injection Ha1 as <- <-.
  split; [apply Hg| |eapply is_stale_mono; [apply Hg|done]].
  assert (id c ∈ ids (primaries rt')) as (d & Hd & Ed)%ids_inv.
  { apply primaries_ids. apply (g_keep _ _ _ Hg); [|done]. apply primaries_ids. by apply elem_of_ids. }
  replace c with d; [done|]. revert Ha. unfold add_contact. case_bool_decide as E.
  - intros [= <- _]. by apply (known_node_unique rt); [..|done]; auto using primaries_known.
  - intros [Hk| ->]%(insert_nodes _ _ _ _ _ _ d); [| |by apply primaries_known].
    + apply (known_node_unique rt); auto using primaries_known.
    + by apply Hn.
Qed.

Lemma registered_success c rt i now : registered c rt → registered c (record_success rt i now).1.
Proof.
  intros [Hwf Hc Hf]. split; [by apply wf_record_success|done|].
  eapply is_stale_mono; [|exact Hf]. simpl. apply delete_subseteq.
Qed.

(** ** Messages *)

Section messages.
Context {St C E : Type} `{Environment E (KademliaProtocol St C)}.
Abbreviation P := (KademliaProtocol St C).

Definition on_router (J : RoutingTable.t → Prop) (w : World P E) : Prop := J (router_of (proto w)).

Context (c : Node) (HI : stable (on_router (registered c))).
Abbreviation I := (on_router (registered c)).

Lemma read_registered : triple I read_router (λ rt w, registered c rt ∧ I w).
Proof using HI.
  unfold read_router. eapply triple_bind; [by apply keeps_pause|]. intros u. by intros [p e] Hw.
Qed.

(** A contact that a message declares alive is at its registered address. *)
Lemma note_alive_registered n :
  triple I (note_alive n) (λ r w, (∀ d, r = Some d → id n = id c → n = c) ∧ I w).
Proof using HI.
  unfold note_alive. eapply triple_bind; [apply read_registered|]. intros rt. apply triple_pure. intros Hrt.
  destruct (negb (has_failures rt (id n))); [by intros w Hw|].
  destruct (negb _ && negb _) eqn:Hguard; [by intros w Hw|].
  assert (id n = id c → n = c) as Hn.
  { intros E1. rewrite E1, (rg_fresh _ _ Hrt) in Hguard. simpl in Hguard. rewrite andb_true_r in Hguard.
    bool_facts. destruct (get_contact rt (id c)) as [d|] eqn:Hg; [|done].
    apply get_contact_known in Hg as [Hk Hid].
    assert (d = c) as ->.
    { apply (known_node_unique rt); [apply Hrt|done| |done]. by apply primaries_known, Hrt. }
    unfold same_home_as in Hguard. bool_facts. by apply Node_eq. }
  eapply triple_bind; [by apply keeps_pause|]. intros u. eapply triple_bind; [apply keeps_asks|]. intros now.
  intros [p e] Hw. unfold update. simpl. split; [done|]. unfold on_router in *. simpl.
  by apply (registered_success c _ (id n) now).
Qed.

Lemma add_contact_registered n : (id n = id c → n = c) → keeps I (Protocol.add_contact n).
Proof using HI.
  intros Hn. unfold Protocol.add_contact. apply keeps_bind; [by apply keeps_pause|]. intros u.
  apply keeps_bind; [apply keeps_asks|]. intros unix. apply keeps_bind.
  - intros [p e] Hw. unfold update, add_to_table, on_router in *. simpl in *.
    destruct (RoutingTable.add_contact unix (router_of p) n) as [[rt' r]|] eqn:Ha; simpl; [|done].
    by eapply registered_add.
  - intros [oldest|]; [|apply keeps_ret]. intros [p e] Hw. unfold modify, ping_oldest, on_router, router_of in *.
    simpl in *. case_bool_decide; [done|]. unfold spawn_task. by destruct (tasks _).
Qed.

Lemma queue_registered n : keeps I (queue_replication n).
Proof using HI.
  unfold queue_replication. keeps_all; try by apply keeps_pause. intros [p e] Hw.
  unfold modify, queue_insert, on_router, router_of in *. simpl in *.
  case_bool_decide; [done|]. unfold spawn_task. by destruct (tasks _).
Qed.

Lemma schedule_registered n : keeps I (schedule_welcome_if_new n).
Proof using HI.
  unfold schedule_welcome_if_new. eapply triple_bind; [apply note_alive_registered|]. intros silent.
  apply triple_pure. intros Hs.
  eapply (triple_bind _ _ (λ fresh w, (fresh = true → id n = id c → n = c) ∧ I w)).
  - destruct silent as [d|]; [destruct (_ <=? _)%Z|]; [by intros w Hw; split; [intros _; by eapply Hs|]|..].
    all: eapply triple_bind; [apply read_registered|]; intros rt; apply triple_pure; intros Hrt w Hw.
    all: split; [|done]; intros Hnew E1; by rewrite (registered_not_new c rt n Hrt E1) in Hnew.
  - intros fresh. apply triple_pure. intros Hf. destruct fresh; cbn [negb]; [|by intros w Hw].
    eapply triple_bind; [apply add_contact_registered; by apply Hf|]. intros u.
    apply queue_registered.
Qed.

End messages.

Lemma registered_remove c rt d :
  registered c rt → id d ≠ id c → registered c (remove_contact rt d).
Proof.
  intros [Hwf Hc Hf] Hne. pose proof (wf_remove_contact rt d Hwf) as Hwf'. split; [done| |].
  - assert (id c ∈ ids (primaries (remove_contact rt d))) as (c' & Hc' & E)%ids_inv.
    { apply primaries_ids, remove_contact_keeps; [done|congruence|]. apply primaries_ids. by apply elem_of_ids. }
    replace c with c'; [done|]. apply (known_node_unique rt); [done| |by apply primaries_known|done].
    by apply (remove_contact_nodes rt d), primaries_known.
  - eapply is_stale_mono; [|exact Hf]. simpl. apply delete_subseteq.
Qed.

Lemma registered_touch c rt i now :
  registered c rt → registered c (update_bucket rt i (KBucket.touch_last_updated now)).
Proof. intros [Hwf Hc Hf]. split; [by apply wf_touch|by rewrite touch_primaries|done]. Qed.

(** A failure noted of another node, or one that does not make [c] stale. *)
Lemma registered_failure c rt jit n now :
  registered c rt →
  (id n = id c → ∀ h, count_failure jit (health rt !! id c) now = Some h → (failures h < STALE_AFTER_FAILURES)%Z) →
  registered c (record_failure_at jit rt n now).
Proof.
  intros Hc Hfew. pose proof (rg_wf _ _ Hc) as Hwf.
  pose proof (wf_record_failure_at jit rt n now Hwf) as Hwf'. unfold record_failure_at in *.
  destruct (bucket_index_covers rt n Hwf) as (b & Hb & _). rewrite Hb in *.
  destruct (KBucket.contains b n) eqn:Hcn; cbn [negb] in *.
  - destruct (count_failure jit (health rt !! id n) now) as [h|] eqn:Hh; [|done].
    assert ((STALE_AFTER_FAILURES <=? failures h)%Z = false ∨ id n ≠ id c) as Hor.
    { destruct (decide (id n = id c)) as [E|]; [left|by right]. rewrite E in Hh. specialize (Hfew E h Hh). bool_facts. lia. }
    assert (registered c (with_health rt (<[id n := h]> (health rt)))) as Hc'.
    { split; [|apply Hc|].
      - apply wf_insert_health; [done|]. apply contains_true in Hcn. by apply (primary_in_bucket rt n b).
      - unfold is_stale. simpl. destruct (decide (id n = id c)) as [E|Hne].
        + rewrite E, lookup_insert_eq. by destruct Hor as [Hf|[]].
        + rewrite lookup_insert_ne by done. apply (rg_fresh _ _ Hc). }
    destruct (_ && _) eqn:Hst; [|done]. apply registered_remove; [done|].
    destruct Hor as [Hf|]; [|done]. by rewrite Hf in Hst.
  - assert (id n ≠ id c) as Hne.
    { intros E. apply contains_false in Hcn. apply Hcn.
      destruct (proj1 (primaries_ids rt (id c)) (elem_of_ids _ _ (rg_contact _ _ Hc))) as (b' & Hb' & Hin).
      apply list_elem_of_lookup_1 in Hb' as [j Hj].
      assert (KBucket.covers b' (long_id n) = true) as Hcov.
      { rewrite (long_id_of_id n c E). eapply in_bucket_covers; [exact (wf_bucket _ _ _ Hwf Hj)|].
        unfold all_ids, ids in *. rewrite fmap_app, elem_of_app. by left. }
      pose proof (bucket_index_eq rt n j b' Hwf Hj Hcov) as <-. rewrite Hb in Hj. injection Hj as <-. rewrite E. exact Hin. }
    destruct (registered_remove c rt n Hc) as [_ Hp _]; [congruence|].
    split; [done|exact Hp|apply Hc].
Qed.

(** ** Theorem *)

Section theorem.
Context {St C E : Type} `{Sha1, Sha256, Bincode, Ipv6Syntax, HashOrder}.
Context `{IStorage St, MokaCache C} (handler : SignatureVerifierHandler).
Abbreviation P := (KademliaProtocol St C).
Context `{Environment E P, LookupSchedule E}.

Lemma leave_registered (c : Node) sender_id addr :
  stable (on_router (registered c)) → (sender_id = id c → same_home_as c (node_at sender_id addr) = false) →
  keeps (on_router (registered c)) (rpc_leave sender_id addr : M P E unit).
Proof using.
  intros Hothers Haddr.
  unfold rpc_leave. eapply triple_bind; [by apply read_registered|]. intros rt. apply triple_pure. intros Hrt.
  destruct (get_contact rt sender_id) as [d|] eqn:Hg; [|by intros w Hw].
  destruct (same_home_as d _) eqn:Hhome; [|by intros w Hw].
  apply get_contact_known in Hg as [Hk Hid].
  assert (id d ≠ id c) as Hne.
  { intros E1. assert (d = c) as ->.
    { apply (known_node_unique rt); [apply Hrt|done| |done]. by apply primaries_known, Hrt. }
    rewrite Haddr in Hhome; done. }
  eapply triple_bind; [by apply keeps_pause|]. intros u [p e] Hw. unfold on_router in *. simpl in *.
  by apply registered_remove.
Qed.

(** A LEAVE under the id of [c] comes from another address. *)
Definition leave_is_foreign (c : Node) (m : RpcMessage) (peer : SocketAddr) : Prop :=
  ∀ i, m = Leave i → i = id c → same_home_as c (node_at i (addr_ip peer, addr_port peer)) = false.

Definition is_store (m : RpcMessage) : bool := match m with Store _ _ _ => true | _ => false end.

Section handling.
Context (c : Node) (HI : stable (on_router (E := E) (St := St) (C := C) (registered c))).
Abbreviation I := (on_router (E := E) (St := St) (C := C) (registered c)).

(** What does not touch the contacts. *)
Lemma storage_registered key value :
  keeps I (storage_set key value) ∧ keeps I (storage_insert key value).
Proof using.
  unfold storage_set, storage_insert. split; (apply keeps_bind; [apply keeps_asks|]); intros now [p e] Hw;
    unfold update, on_router, router_of in *; simpl in *; [by destruct (set _ _ _ _)|by destruct (insert_if_absent _ _ _ _)].
Qed.

Lemma transport_registered f : keeps I (modify (on_transport f)).
Proof using. by intros [p e] Hw. Qed.

Lemma transport_r_registered {A} (f : Transport → Transport * A) : keeps I (on_transport_r f).
Proof using.
  intros [p e] Hw. unfold on_transport_r, update, on_router, router_of in *. simpl in *. by destruct (f (transport p)).
Qed.

Lemma verify_registered key value : keeps I (verify_for_key handler key value).
Proof using HI.
  unfold verify_for_key. keeps_all; try by apply keeps_pause. intros [p e] Hw.
  unfold update, on_router, router_of in *. simpl in *. by destruct (verify_record _ _ _ _ _).
Qed.

Lemma read_keeps_registered : keeps I read_router.
Proof using HI. unfold read_router. keeps_all. by apply keeps_pause. Qed.

Lemma advertise_registered target exclude : keeps I (Protocol.find_neighbors_to_advertise target exclude).
Proof using HI.
  unfold Protocol.find_neighbors_to_advertise. keeps_all; [by apply keeps_pause|]. intros [p e] Hw.
  unfold update, on_router, router_of in *. cbn [proto] in *.
  rewrite (surjective_pairing (RoutingTable.find_neighbors_to_advertise _ _ _ _)). simpl.
  by apply registered_touch.
Qed.

#[local] Hint Resolve transport_registered transport_r_registered verify_registered
  read_keeps_registered advertise_registered : kad.
#[local] Hint Extern 2 (keeps I pause) => (by apply keeps_pause) : kad.
#[local] Hint Extern 2 (keeps I (schedule_welcome_if_new _)) => (by apply schedule_registered) : kad.
#[local] Hint Extern 2 (keeps I (storage_set _ _)) => apply storage_registered : kad.
#[local] Hint Extern 2 (keeps I (storage_insert _ _)) => apply storage_registered : kad.

(** A request other than STORE. *)
Lemma dispatch_registered m peer :
  is_store m = false → leave_is_foreign c m peer → keeps I (dispatch_request handler m peer).
Proof using HI.
  intros Hs Hl. destruct m; try done; cbn [dispatch_request];
    unfold rpc_ping, rpc_update, rpc_update_status_list, rpc_find_node, rpc_find_hash, rpc_find_value, source_id,
      storage_get; keeps_all.
  apply leave_registered; [done|]. intros Ei. by apply Hl.
Qed.

(** A STORE, apart from the lookup of an empty replica. *)
Lemma insert_registered sender_id addr key value : keeps I (verify_and_insert handler sender_id addr key value).
Proof using HI. unfold verify_and_insert. keeps_all. Qed.

Lemma response_registered f peer : keeps I (handle_response f peer).
Proof using HI. unfold handle_response. keeps_all. Qed.

Lemma note_failure_registered n : id n ≠ id c → keeps I (note_failure n).
Proof using HI.
  intros Hne. unfold note_failure. keeps_all. intros [p e] Hw. unfold on_router, router_of in *. simpl in *.
  by apply registered_failure.
Qed.

End handling.



End theorem.

Module ContactsExample.
Import NodeExample.

Lemma ex_stable_router (J : RoutingTable.t → Prop) :
  stable (on_router (St := ForgetfulStorage.t) (C := Cache) (E := Z) J).
Proof. by split. Qed.

Lemma ex_registered : on_router (registered peer_node) world.
Proof.
  assert (∃ rt r, add_contact 0 (RoutingTable.new 0 (Node_from_id me) 2) peer_node = Some (rt, r) ∧ wf rt) as
    (rt & r & Ha & Hwf).
  { destruct (wf_add_contact 0 (RoutingTable.new 0 (Node_from_id me) 2) peer_node (table_wf_new _ _ _))
      as (rt & r & Ha & Hg & _). exists rt, r. split; [done|]. apply Hg. }
  assert (router_of (proto world) = rt) as E1.
  { enough (Some (router_of (proto world), None) = Some (rt, r)) by congruence. rewrite <-Ha. vm_compute. reflexivity. }
  unfold on_router. rewrite E1. split; [done|..].
  - rewrite <-E1. apply (bool_decide_unpack _). vm_compute. exact I.
  - rewrite <-E1. vm_compute. reflexivity.
Qed.


End ContactsExample.
