(* ===== verification/Admission.v ===== *)
(** * Admission: the places of a node under concurrency (src/src/protocol/
    store_check.rs [StoreLookupSlot], welcome.rs, transport.rs, mod.rs)

    The threads of the runtime share the count of the STOREs that wait for a
    lookup and the map of the welcomed nodes. Each access is atomic, and any
    other thread may come between two of them. The steps of this file are those
    accesses, in any interleaving; [take_slot] and [queue_replication] are
    programs of such steps. *)

From S2P Require Import Prelude Utils Node Routing Storage Fragmentation Messages Retransmit.
From S2P Require Import Crypto AuthHandler Effects Protocol Transport NodeExample.

(** Where a thread is, between two accesses. *)
Inductive Phase :=
  | AtRest
  | NotWaiting (n : Node)   (* [contains_key] did not find the node *)
  | HasRoom (n : Node)      (* [len] found the queue short enough *)
  | Refused                 (* [fetch_add] found the places taken *)
  | HoldsSlot.              (* it has a [StoreLookupSlot] *)

(** A task that owns a [StoreLookupSlot]. *)
Definition owns_slot (t : Task) : bool := match t with HandleStore _ _ _ _ => true | _ => false end.

Section admission.
Context {St C E : Type}.
Abbreviation P := (KademliaProtocol St C).

(** The node, its threads, and the tasks that were aborted but still own what
    they hold. *)
Record Busy := mkBusy { node : P; threads : list Phase; aborted : list Task }.

Definition queue (p : P) : gset ident := welcome_in_flight (contacts p).
Definition lookups (p : P) : Z := store_lookups (transport p).
Definition running (p : P) : list Task := default [] (tasks p).

(** One access by the thread [i], or one event of a task. *)
Inductive step : Busy → Busy → Prop :=
  | step_not_waiting p ths ab i n :
      ths !! i = Some AtRest → id n ∉ queue p →
      step (mkBusy p ths ab) (mkBusy p (<[i := NotWaiting n]> ths) ab)
  | step_has_room p ths ab i n :
      ths !! i = Some (NotWaiting n) → size (queue p) < MAX_WELCOME_QUEUE →
      step (mkBusy p ths ab) (mkBusy p (<[i := HasRoom n]> ths) ab)
  | step_full p ths ab i n :
      ths !! i = Some (NotWaiting n) → MAX_WELCOME_QUEUE ≤ size (queue p) →
      step (mkBusy p ths ab) (mkBusy p (<[i := AtRest]> ths) ab)
  | step_insert p ths ab i n :
      ths !! i = Some (HasRoom n) →
      step (mkBusy p ths ab) (mkBusy (queue_insert n p) (<[i := AtRest]> ths) ab)
  | step_fetch_add p ths ab i :
      ths !! i = Some AtRest →
      let '(t, before) := fetch_add_lookups (transport p) in
      step (mkBusy p ths ab) (mkBusy (with_transport t p)
        (<[i := if (MAX_STORE_LOOKUPS <=? before)%Z then Refused else HoldsSlot]> ths) ab)
  | step_undo p ths ab i :
      ths !! i = Some Refused →
      step (mkBusy p ths ab) (mkBusy (on_transport fetch_sub_lookups p) (<[i := AtRest]> ths) ab)
  | step_spawn p p' ths ab i t :
      ths !! i = Some HoldsSlot → owns_slot t = true → spawn_task t p = (p', true) →
      step (mkBusy p ths ab) (mkBusy p' (<[i := AtRest]> ths) ab)
  | step_not_spawned p ths ab i t :
      ths !! i = Some HoldsSlot → (spawn_task t p).2 = false →
      step (mkBusy p ths ab) (mkBusy (on_transport drop_slot p) (<[i := AtRest]> ths) ab)
  | step_task_ends p ths ab l1 t l2 :
      tasks p = Some (l1 ++ t :: l2) → owns_slot t = true →
      step (mkBusy p ths ab) (mkBusy (with_tasks (Some (l1 ++ l2)) (on_transport drop_slot p)) ths ab)
  | step_replicated p ths ab l1 n l2 :
      tasks p = Some (l1 ++ Replicate n :: l2) →
      step (mkBusy p ths ab) (mkBusy (with_tasks (Some (l1 ++ l2))
        (on_contacts (λ c, with_welcome (welcome_in_flight c ∖ {[id n]}) c) p)) ths ab)
  | step_stop p ths ab :
      step (mkBusy p ths ab) (mkBusy (take_tasks p).1 ths (ab ++ default [] (take_tasks p).2))
  | step_aborted p ths l1 t l2 :
      step (mkBusy p ths (l1 ++ t :: l2))
        (mkBusy (if owns_slot t then on_transport drop_slot p else p) ths (l1 ++ l2))
  | step_other p p' ths ab :
      queue p' = queue p → lookups p' = lookups p →
      filter (λ t, owns_slot t = true) (running p') = filter (λ t, owns_slot t = true) (running p) →
      step (mkBusy p ths ab) (mkBusy p' ths ab).

(** ** Who holds a place *)

Definition slots_in (ts : list Task) : nat := length (filter (λ t, owns_slot t = true) ts).
Definition in_phase (f : Phase → bool) (ths : list Phase) : nat := length (filter (λ x, f x = true) ths).
Definition is_holding (x : Phase) : bool := match x with HoldsSlot => true | _ => false end.
Definition is_refused (x : Phase) : bool := match x with Refused => true | _ => false end.
Definition is_inserting (x : Phase) : bool := match x with HasRoom _ => true | _ => false end.

(** The STOREs that have a place: those being handed to a task, and the tasks. *)
Definition holders (s : Busy) : nat :=
  in_phase is_holding (threads s) + slots_in (running (node s)) + slots_in (aborted s).

Lemma in_phase_insert f ths i x y :
  ths !! i = Some x → in_phase f (<[i := y]> ths) + Nat.b2n (f x) = in_phase f ths + Nat.b2n (f y).
Proof using.
  unfold in_phase. revert i. induction ths as [|z ths IH]; intros [|i]; csimpl; [done..| |].
  - intros [= ->]. rewrite !filter_cons. repeat case_decide; destruct (f x), (f y); simplify_eq; simpl; lia.
  - intros Hi. specialize (IH i Hi). rewrite !filter_cons. repeat case_decide; simpl; lia.
Qed.

Lemma in_phase_le f ths : in_phase f ths ≤ length ths.
Proof using. apply length_filter. Qed.

Lemma slots_in_app l1 l2 : slots_in (l1 ++ l2) = slots_in l1 + slots_in l2.
Proof using. unfold slots_in. by rewrite filter_app, length_app. Qed.

Lemma slots_in_nil : slots_in [] = 0.
Proof using. done. Qed.

Lemma slots_in_cons t l : slots_in (t :: l) = Nat.b2n (owns_slot t) + slots_in l.
Proof using. unfold slots_in. rewrite filter_cons. case_decide; destruct (owns_slot t); simplify_eq; done. Qed.

(** ** The invariant *)

(** [T] threads. The count is the number of places held or about to be given
    back, and every thread that is about to insert found room. *)
Record admitted (T : nat) (s : Busy) : Prop := {
  ad_threads : length (threads s) = T;
  ad_count : lookups (node s) = Z.of_nat (holders s + in_phase is_refused (threads s));
  ad_slots : (Z.of_nat (holders s) ≤ MAX_STORE_LOOKUPS)%Z;
  ad_queue : size (queue (node s)) + in_phase is_inserting (threads s) < MAX_WELCOME_QUEUE + T
}.

Lemma queue_insert_frame n (p : P) :
  lookups (queue_insert n p) = lookups p ∧ slots_in (running (queue_insert n p)) = slots_in (running p) ∧
  size (queue (queue_insert n p)) ≤ S (size (queue p)).
Proof using.
  assert (size ({[id n]} ∪ queue p) ≤ S (size (queue p))) as Hs.
  { rewrite size_union_alt, size_singleton.
    pose proof (subseteq_size (queue p ∖ {[id n]}) (queue p) ltac:(set_solver)). lia. }
  unfold queue_insert. case_bool_decide; [done|]. unfold spawn_task. simpl.
  destruct (tasks p) as [ts|] eqn:Ht; [|done]. split; [done|]. split; [|done].
  unfold running. simpl. rewrite Ht. simpl. rewrite slots_in_app. unfold slots_in at 2. simpl. lia.
Qed.

(** Count the phases after a thread moved. *)
Ltac phases :=
  repeat match goal with
  | H : ?ths !! ?i = Some ?x |- context [in_phase ?f (<[?i := ?y]> ?ths)] =>
      let e := fresh in pose proof (in_phase_insert f ths i x y H) as e; simpl in e;
      set (in_phase f (<[i := y]> ths)) in *
  end.

#[local] Opaque MAX_WELCOME_QUEUE.

(** The invariant after a step: the phases counted, the fields reduced. *)
Ltac settle :=
  split; cbn [node threads aborted]; rewrite ?length_insert; unfold holders; cbn [node threads aborted]; phases;
  unfold running, lookups, queue, drop_slot, fetch_add_lookups, fetch_sub_lookups in *; simpl in *;
  rewrite ?slots_in_app, ?slots_in_nil, ?Z.mod_small by lia; lia.

Lemma admitted_step T s s' :
  (Z.of_nat T + MAX_STORE_LOOKUPS + 1 < USIZE_MOD)%Z → step s s' → admitted T s → admitted T s'.
Proof using.
  intros HT Hs [Hlen Hcount Hslots Hqueue].
  assert (in_phase is_inserting (threads s) ≤ T ∧ in_phase is_refused (threads s) ≤ T) as [Hi Hr]
    by (rewrite <-Hlen; split; apply in_phase_le).
  unfold holders in *. destruct Hs as [p ths ab i n Ht _|p ths ab i n Ht Hroom|p ths ab i n Ht _|p ths ab i n Ht
    |p ths ab i Ht|p ths ab i Ht|p p' ths ab i t Ht Ho Hsp|p ths ab i t Ht Hsp|p ths ab l1 t l2 Hts Ho
    |p ths ab l1 n l2 Hts|p ths ab|p ths l1 t l2|p p' ths ab Hq Hl Hf]; cbn [node threads aborted] in *.
  - settle.
  - pose proof (in_phase_le is_inserting (<[i := HasRoom n]> ths)) as Hle. rewrite length_insert in Hle. settle.
  - settle.
  - destruct (queue_insert_frame n p) as (El & Es & Eq).
    split; cbn [node threads aborted]; rewrite ?length_insert; unfold holders; cbn [node threads aborted];
      rewrite ?El, ?Es; phases; lia.
  - destruct (MAX_STORE_LOOKUPS <=? store_lookups (transport p))%Z eqn:Hfull; bool_facts; settle.
  - settle.
  - unfold spawn_task in Hsp. destruct (tasks p) as [ts|] eqn:Et; [|done]. injection Hsp as <-.
    unfold running in *. rewrite Et in *. simpl in *.
    assert (slots_in (ts ++ [t]) = slots_in ts + 1) as Es by (by rewrite slots_in_app, slots_in_cons, Ho).
    split; cbn [node threads aborted]; rewrite ?length_insert; unfold holders; cbn [node threads aborted];
      phases; unfold running, lookups, queue in *; simpl; rewrite ?Es; lia.
  - settle.
  - unfold running in *. rewrite Hts in *. simpl in *. rewrite slots_in_app, slots_in_cons, Ho in *. settle.
  - pose proof (subseteq_size (queue p ∖ {[id n]}) (queue p) ltac:(set_solver)).
    unfold running in *. rewrite Hts in *. simpl in *. rewrite slots_in_app, slots_in_cons in *. settle.
  - settle.
  - rewrite slots_in_app, slots_in_cons in *. destruct (owns_slot t); settle.
  - split; cbn [node threads aborted]; unfold holders, slots_in in *; cbn [node threads aborted];
      rewrite ?Hq, ?Hl, ?Hf; lia.
Qed.

(** ** The methods of the node are made of these steps *)

(** The thread [i] of a world, in the phase [x]: the environment knows the other
    threads ([ths]) and the aborted tasks ([ab]). *)
Context `{Environment E P} (ths : E → list Phase) (ab : E → list Task) (i : nat).

Definition busy (x : Phase) (w : World P E) : Busy :=
  mkBusy (proto w) (<[i := x]> (ths (env w))) (ab (env w)).

(** While [i] waits, the other threads and the tasks take any steps. *)
Definition others_step : Prop :=
  ∀ x p e, rtc step (busy x (mkW p e)) (busy x (mkW (others e p).2 (others e p).1)).

Context (Hothers : others_step) (Hi : ∀ e, i < length (ths e)).

Lemma busy_pause x (w : World P E) : rtc step (busy x w) (busy x (pause w).1).
Proof using Hothers.
  destruct w as [p e]. specialize (Hothers x p e). unfold pause. simpl. by destruct (others e p).
Qed.

Lemma busy_thread x (w : World P E) : <[i := x]> (ths (env w)) !! i = Some x.
Proof using Hi. apply list_lookup_insert_eq, Hi. Qed.

Lemma busy_move x y (w : World P E) p :
  mkBusy p (<[i := y]> (<[i := x]> (ths (env w)))) (ab (env w)) = busy y (mkW p (env w)).
Proof using. unfold busy. simpl. by rewrite list_insert_insert_eq. Qed.

Lemma busy_stay x y (w : World P E) :
  mkBusy (proto w) (<[i := y]> (<[i := x]> (ths (env w)))) (ab (env w)) = busy y w.
Proof using. rewrite busy_move. by destruct w. Qed.

Lemma queue_replication_steps n (w : World P E) :
  rtc step (busy AtRest w) (busy AtRest (queue_replication n w).1).
Proof using Hothers Hi.
  unfold queue_replication. unfold mbind at 1, M_bind at 1, gets at 1. case_bool_decide as Hin; [apply rtc_refl|].
  pose proof (step_not_waiting (proto w) _ (ab (env w)) i n (busy_thread AtRest w) Hin) as H1.
  rewrite busy_stay in H1. eapply rtc_l; [exact H1|]. clear H1 Hin.
  unfold mbind at 1, M_bind at 1. pose proof (busy_pause (NotWaiting n) w) as Hp.
  destruct (pause w) as [w1 []]. cbn [fst] in Hp. etrans; [exact Hp|]. clear Hp w.
  unfold mbind at 1, M_bind at 1, gets. destruct (MAX_WELCOME_QUEUE <=? _) eqn:Hfull; bool_facts.
  { pose proof (step_full (proto w1) _ (ab (env w1)) i n (busy_thread _ w1) Hfull) as H1.
    rewrite busy_stay in H1. by apply rtc_once. }
  pose proof (step_has_room (proto w1) _ (ab (env w1)) i n (busy_thread _ w1) Hfull) as H1.
  rewrite busy_stay in H1. eapply rtc_l; [exact H1|]. clear H1 Hfull.
  unfold mbind, M_bind. pose proof (busy_pause (HasRoom n) w1) as Hp.
  destruct (pause w1) as [w2 []]. cbn [fst] in Hp. etrans; [exact Hp|].
  pose proof (step_insert (proto w2) _ (ab (env w2)) i n (busy_thread _ w2)) as H1.
  rewrite busy_move in H1. by apply rtc_once.
Qed.

Lemma take_slot_steps (w : World P E) :
  rtc step (busy AtRest w) (busy (if (take_slot w).2 then HoldsSlot else AtRest) (take_slot w).1).
Proof using Hothers Hi.
  unfold take_slot, mbind, M_bind, on_transport_r, update, fetch_add_lookups.
  pose proof (step_fetch_add (proto w) _ (ab (env w)) i (busy_thread AtRest w)) as H1. simpl in H1.
  set (p1 := with_transport _ (proto w)) in *. rewrite busy_move in H1.
  destruct (MAX_STORE_LOOKUPS <=? store_lookups (transport (proto w)))%Z; [|by apply rtc_once].
  pose proof (busy_pause Refused (mkW p1 (env w))) as Hp.
  destruct (pause (mkW p1 (env w))) as [w2 []]. cbn [fst] in Hp.
  eapply rtc_l; [exact H1|]. etrans; [exact Hp|].
  pose proof (step_undo (proto w2) _ (ab (env w2)) i (busy_thread Refused w2)) as H2.
  rewrite busy_move in H2. by apply rtc_once.
Qed.

End admission.

#[global] Arguments Busy : clear implicits.

(** ** Theorem *)

Section theorem.
Context {St C E : Type} `{Environment E (KademliaProtocol St C)}.

(** What [T] threads of a new node can reach. *)
Definition reachable (T : nat) (p0 : KademliaProtocol St C) (s : Busy St C) : Prop :=
  rtc step (mkBusy p0 (replicate T AtRest) []) s.

Lemma in_phase_rest f T : f AtRest = false → in_phase f (replicate T AtRest) = 0.
Proof using.
  intros Hf. unfold in_phase. induction T as [|T IH]; [done|]. cbn [replicate].
  by rewrite filter_cons_False by congruence.
Qed.

Lemma admitted_reachable T now unix source (st : St) k a (cache : option C) s :
  (Z.of_nat T + MAX_STORE_LOOKUPS + 1 < USIZE_MOD)%Z →
  reachable T (Protocol.new now unix source st k a cache) s → admitted T s.
Proof using.
  intros HT Hs. unfold reachable in Hs.
  assert (admitted T (mkBusy (Protocol.new now unix source st k a cache) (replicate T AtRest) [])) as H0.
  { split; unfold holders; cbn [node threads aborted]; rewrite ?length_replicate, ?in_phase_rest by done; try done.
    change (size (∅ : gset ident) + 0 < MAX_WELCOME_QUEUE + T). rewrite size_empty. unfold MAX_WELCOME_QUEUE. lia. }
  induction Hs as [s|s1 s2 s3 H1 _ IH]; [done|]. apply IH. by eapply admitted_step.
Qed.

(** C15: whatever the [T] threads of a node and its tasks do, in any
    interleaving of their accesses to the shared count and map, from the creation
    of the node, through shutdowns and aborted tasks: at most 256 STOREs have a
    place for a lookup, the count is exact (the places held, and those a thread
    is about to give back; it never wraps around), and a thread that finds fewer
    than 256 gets one; at most 256 + [T] - 1 nodes wait for their records.
    [take_slot] and [queue_replication], with the other threads at each of their
    pauses, take only such steps. *)
Theorem admission_bounded (T : nat) (now unix : Z) (source : Node) (st : St) (k a : nat) (cache : option C)
    (HT : (Z.of_nat T + MAX_STORE_LOOKUPS + 1 < USIZE_MOD)%Z) :
  let p0 := Protocol.new now unix source st k a cache in
  (∀ s, reachable T p0 s →
     (Z.of_nat (holders s) ≤ MAX_STORE_LOOKUPS)%Z ∧
     lookups (node s) = Z.of_nat (holders s + in_phase is_refused (threads s)) ∧
     size (queue (node s)) < MAX_WELCOME_QUEUE + T) ∧
  (∀ (ths : E → list Phase) (ab : E → list Task) (i : nat) (w : World (KademliaProtocol St C) E),
     others_step ths ab i → (∀ e, i < length (ths e)) → reachable T p0 (busy ths ab i AtRest w) →
     (∀ n, reachable T p0 (busy ths ab i AtRest (queue_replication n w).1)) ∧
     reachable T p0 (busy ths ab i (if (take_slot w).2 then HoldsSlot else AtRest) (take_slot w).1) ∧
     ((take_slot w).2 = true ↔ (lookups (proto w) < MAX_STORE_LOOKUPS)%Z)).
Proof.
  cbv zeta. split.
  - intros s Hs. destruct (admitted_reachable T now unix source st k a cache s HT Hs) as [_ Hc Hh Hq].
    split; [done|]. split; [done|]. lia.
  - unfold reachable. intros ths ab i w Ho Hi Hw. split; [|split].
    + intros n. etrans; [exact Hw|]. by apply queue_replication_steps.
    + etrans; [exact Hw|]. by apply take_slot_steps.
    + unfold take_slot, lookups, mbind, M_bind, on_transport_r, update, fetch_add_lookups.
      destruct (MAX_STORE_LOOKUPS <=? _)%Z eqn:Hf; bool_facts; [|done].
      destruct (pause _) as [w1 []]. simpl. split; [done|lia].
Qed.

End theorem.

(** ** The bound is reached *)

Module AdmissionExample.
Import NodeExample.

#[local] Opaque MAX_WELCOME_QUEUE.

Lemma queue_insert_queue (n : Node) (p : ExP) : queue (queue_insert n p) = {[id n]} ∪ queue p.
Proof. unfold queue_insert. case_bool_decide; [done|]. unfold spawn_task. simpl. by destruct (tasks p). Qed.

(** A thread alone. *)
Lemma insert_alone (n : Node) (p : ExP) ths i :
  ths !! i = Some AtRest → id n ∉ queue p → size (queue p) < MAX_WELCOME_QUEUE →
  rtc step (mkBusy p ths []) (mkBusy (queue_insert n p) ths []).
Proof.
  intros Hi Hn Hs. assert (∀ x : Phase, <[i := x]> ths !! i = Some x) as Hx.
  { intros x. apply list_lookup_insert_eq. by eapply lookup_lt_Some. }
  assert (∀ x : Phase, <[i := AtRest]> (<[i := x]> ths) = ths) as Hback
    by (intros x; by rewrite list_insert_insert_eq, list_insert_id).
  eapply rtc_l; [by apply (step_not_waiting _ _ _ i n)|].
  eapply rtc_l; [by apply (step_has_room _ _ _ i n)|]. rewrite list_insert_insert_eq.
  apply rtc_once. pose proof (step_insert p _ [] i n (Hx (HasRoom n))) as H. by rewrite Hback in H.
Qed.

Lemma insert_all (l : list Node) (p : ExP) ths i :
  ths !! i = Some AtRest → NoDup (id <$> l) → (∀ n, n ∈ l → id n ∉ queue p) →
  size (queue p) + length l ≤ MAX_WELCOME_QUEUE →
  ∃ p', rtc step (mkBusy p ths []) (mkBusy p' ths []) ∧ queue p' = list_to_set (id <$> l) ∪ queue p.
Proof.
  intros Hi. revert p. induction l as [|n l IH]; intros p Hnd Hnew Hs; csimpl in *.
  { exists p. split; [apply rtc_refl|]. set_solver. }
  apply NoDup_cons in Hnd as [Hn Hnd].
  destruct (IH (queue_insert n p)) as (p' & Hp & Hq); [done|..].
  - intros m Hm. rewrite queue_insert_queue, elem_of_union, elem_of_singleton. intros [E|E].
    + apply Hn. rewrite <-E. by apply list_elem_of_fmap_2.
    + by apply (Hnew m); [right|].
  - rewrite queue_insert_queue, size_union, size_singleton; [lia|]. specialize (Hnew n). set_solver.
  - exists p'. split.
    + etrans; [|exact Hp]. apply (insert_alone n p ths i Hi); [apply Hnew; by left|lia].
    + rewrite Hq, queue_insert_queue. set_solver.
Qed.

(** Distinct nodes. *)
Definition crowd (n : nat) : Node := Node_from_id (ident_ends (byte_of_Z (Z.of_nat (n `div` 256))) (byte_of_Z (Z.of_nat (n `mod` 256)))).

(** Two threads that look at the length before either inserts take the queue
    over its limit. *)
Lemma queue_over_limit : ∃ s, reachable 2 start s ∧ size (queue (node s)) = 257.
Proof.
  set (l := crowd <$> seq 0 255). set (a := crowd 255). set (b := crowd 256).
  assert (NoDup (id <$> l ++ [a; b])) as Hnd by (apply (bool_decide_unpack _); vm_compute; exact I).
  rewrite fmap_app in Hnd. apply NoDup_app in Hnd as (Hl & Hab & Hnd).
  assert (length l = 255) as Hlen by done. clearbody l a b.
  destruct (insert_all l start [AtRest; AtRest] 0) as (p & Hp & Hq); [done|done| | |].
  { intros n _. change (queue start) with (∅ : gset ident). set_solver. }
  { change (queue start) with (∅ : gset ident). rewrite size_empty, Hlen. apply Nat.leb_le. vm_compute. reflexivity. }
  change (queue start) with (∅ : gset ident) in Hq. rewrite union_empty_r_L in Hq.
  assert (size (queue p) = 255) as Hsz.
  { rewrite Hq, size_list_to_set by done. by rewrite length_fmap. }
  assert (id a ∉ queue p ∧ id b ∉ queue p) as [Ha Hb].
  { rewrite Hq, !elem_of_list_to_set. split; intros Hin; apply (Hab _ Hin); csimpl; set_solver. }
  assert (id a ≠ id b) as Hne. { csimpl in Hnd. apply NoDup_cons in Hnd as [Hn _]. set_solver. }
  exists (mkBusy (queue_insert b (queue_insert a p)) [AtRest; AtRest] []). split.
  - unfold reachable. etrans; [exact Hp|].
    assert (size (queue p) < MAX_WELCOME_QUEUE) as Hroom by (rewrite Hsz; apply Nat.ltb_lt; vm_compute; reflexivity).
    eapply rtc_l; [by apply (step_not_waiting _ _ _ 0 a)|]. eapply rtc_l; [by apply (step_not_waiting _ _ _ 1 b)|].
    eapply rtc_l; [by apply (step_has_room _ _ _ 0 a)|]. eapply rtc_l; [by apply (step_has_room _ _ _ 1 b)|].
    eapply rtc_l; [by apply (step_insert _ _ _ 0 a)|]. apply rtc_once.
    by apply (step_insert (queue_insert a p) [AtRest; HasRoom b] [] 1 b).
  - cbn [node]. rewrite !queue_insert_queue, !size_union, !size_singleton, Hsz; set_solver.
Qed.

(** The environment of the concrete node, whose other tasks leave the count and
    the queue alone, and its two threads. *)
Lemma ex_others_step : others_step (λ _ : Z, [AtRest; AtRest]) (λ _, []) 0 (E := Z) (St := ForgetfulStorage.t) (C := Cache).
Proof. intros x p e. apply rtc_once. by apply step_other. Qed.

Lemma admission_bounded_witness :
  (∀ s, reachable 2 start s →
     (Z.of_nat (holders s) ≤ MAX_STORE_LOOKUPS)%Z ∧
     lookups (node s) = Z.of_nat (holders s + in_phase is_refused (threads s)) ∧
     size (queue (node s)) < MAX_WELCOME_QUEUE + 2) ∧
  reachable 2 start (busy (λ _ : Z, [AtRest; AtRest]) (λ _, []) 0 HoldsSlot (take_slot (mkW start 0%Z)).1).
Proof.
  destruct (admission_bounded (E := Z) 2 0 0 (Node_from_id me) (ForgetfulStorage.new DEFAULT_TTL) 2 1 (Some ∅ : option Cache))
    as [Hb Hr].
  - unfold MAX_STORE_LOOKUPS, USIZE_MOD. lia.
  - split; [exact Hb|].
    destruct (Hr (λ _ : Z, [AtRest; AtRest]) (λ _, []) 0 (mkW start 0%Z) ex_others_step) as (_ & Ht & _).
    + intros e. simpl. lia.
    + apply rtc_refl.
    + exact Ht.
Defined.

End AdmissionExample.
