(* ===== verification/Publish.v ===== *)
(** * Publication reports (src/src/network/publish.rs)

    Which nodes are responsible for a key, and what a publication reports. *)

From S2P Require Import Prelude Utils Node Storage Messages Client.

(** [SetReport]; its counters count replicas, at most [ksize] of them. *)
Record SetReport := mkReport {
  expected_replicas : nat;
  stored_replicas : nat;
  already_present : nat;
  capacity_rejections : nat;
  unavailable_nodes : nat;
  conflict_rejections : nat;
  invalid_rejections : nat
}.

Definition SetReport_default : SetReport := mkReport 0 0 0 0 0 0 0.

(** [SetReport::acknowledged_replicas]. *)
Definition acknowledged_replicas (r : SetReport) : nat := stored_replicas r + already_present r.

(** [SetReport::record_status]. *)
Definition record_status (r : SetReport) (status : option StoreStatus) : SetReport :=
  let '(mkReport e s a c u f i) := r in
  match status with
  | Some SStored => mkReport e (S s) a c u f i
  | Some SAlreadyStored => mkReport e s (S a) c u f i
  | Some SCapacityExceeded => mkReport e s a (S c) u f i
  | Some SConflict => mkReport e s a c u (S f) i
  | Some SInvalidRecord => mkReport e s a c u f (S i)
  | None => mkReport e s a c (S u) f i
  end.

(** [SetRejection] and [SetOutcome]. *)
Inductive SetRejection :=
  | ExistingRecord | InvalidRecord | ReplicaConflict | RCapacityExceeded | Unavailable
  | NoResponsibleNodes.

Inductive SetOutcome :=
  | Complete (r : SetReport)
  | Degraded (r : SetReport)
  | Rejected (reason : SetRejection) (r : SetReport).

(** [SetOutcome::report]. *)
Definition report (o : SetOutcome) : SetReport :=
  match o with Complete r | Degraded r | Rejected _ r => r end.

(** [Vec::dedup_by_key(|node| node.id)]: of a run of equal ids, the first. *)
Fixpoint dedup_ids (l : list Node) : list Node :=
  match l with
  | [] => []
  | n :: l' =>
      match dedup_ids l' with
      | m :: r => if bool_decide (id n = id m) then n :: r else n :: m :: r
      | [] => [n]
      end
  end.

(** [select_responsible_nodes]. *)
Definition select_responsible_nodes (local_node target : Node) (remote_nodes : list Node) (ksize : nat)
    : bool * list Node :=
  let remote_nodes := remote_nodes ++ [local_node] in
  let remote_nodes := sort_by_key (λ n, distance_to n target) remote_nodes in
  let remote_nodes := dedup_ids remote_nodes in
  let remote_nodes := take ksize remote_nodes in
  (existsb (λ n, bool_decide (id n = id local_node)) remote_nodes,
   filter (λ n, id n ≠ id local_node) remote_nodes).

(** [classify_set_report]. *)
Definition classify_set_report (r : SetReport) : SetOutcome :=
  if 0 <? conflict_rejections r then Rejected ReplicaConflict r
  else if 0 <? invalid_rejections r then Rejected InvalidRecord r
  else if expected_replicas r =? 0 then Rejected NoResponsibleNodes r
  else
    let acknowledged := acknowledged_replicas r in
    if acknowledged =? expected_replicas r then Complete r
    else if 0 <? acknowledged then Degraded r
    else Rejected (if 0 <? capacity_rejections r then RCapacityExceeded else Unavailable) r.

(** ** The responsible nodes are the closest *)

Section select.
Context (target : Node).

Definition towards (n : Node) : Z := distance_to n target.

Lemma towards_inj a b : towards a = towards b → id a = id b.
Proof using. unfold towards. rewrite !(distance_to_sym _ target). apply distance_to_inj. Qed.

Lemma towards_id a b : id a = id b → towards a = towards b.
Proof using. intros E. unfold towards, distance_to. by rewrite !(long_id_ok a), !(long_id_ok b), E. Qed.

Lemma dedup_ids_incl l x : x ∈ dedup_ids l → x ∈ l.
Proof using.
  revert x. induction l as [|n l IH]; intros x; simpl; [done|]. destruct (dedup_ids l) as [|m r].
  - intros ->%list_elem_of_singleton. by left.
  - case_bool_decide; rewrite !elem_of_cons; intros Hx; destruct_or?; auto; right; apply IH;
      rewrite ?elem_of_cons; auto.
Qed.

Lemma dedup_ids_keeps l i : i ∈ id <$> l → i ∈ id <$> dedup_ids l.
Proof using.
  induction l as [|n l IH]; csimpl; [done|]. intros [->|Hi]%elem_of_cons.
  - destruct (dedup_ids l) as [|m r]; [by left|]. case_bool_decide; by left.
  - specialize (IH Hi). destruct (dedup_ids l) as [|m r]; [by apply not_elem_of_nil in IH|].
    case_bool_decide as E; csimpl in *; [|by right]. by rewrite E.
Qed.

(** On a list in ascending distance, the result has strictly ascending
    distances. *)
Lemma dedup_ids_sorted l :
  StronglySorted (key_le towards) l → StronglySorted (key_lt towards) (dedup_ids l).
Proof using.
  induction 1 as [|n l Hs IH Hall]; simpl; [constructor|].
  destruct (dedup_ids l) as [|m r] eqn:Hd; [repeat constructor|].
  assert (∀ x, x ∈ m :: r → (towards n ≤ towards x)%Z) as Hle.
  { intros x Hx. rewrite Forall_forall in Hall. apply Hall. apply dedup_ids_incl. by rewrite Hd. }
  apply StronglySorted_inv in IH as [Hr Hm]. case_bool_decide as E.
  - constructor; [done|]. eapply Forall_impl; [exact Hm|]. unfold key_lt. intros x.
    by rewrite (towards_id n m E).
  - assert (towards n < towards m)%Z as Hnm.
    { assert (towards n ≤ towards m)%Z by (apply Hle; by left).
      assert (towards n ≠ towards m) by (intros Et; by apply E, towards_inj). lia. }
    constructor; [by constructor|]. constructor; [done|]. eapply Forall_impl; [exact Hm|].
    unfold key_lt. intros x ?. lia.
Qed.

(** The candidates, without repeated ids, in ascending distance. *)
Definition candidates (local_node : Node) (remote_nodes : list Node) : list Node :=
  dedup_ids (sort_by_key towards (remote_nodes ++ [local_node])).

Lemma candidates_sorted local_node remote_nodes :
  StronglySorted (key_lt towards) (candidates local_node remote_nodes).
Proof using. apply dedup_ids_sorted, sort_by_key_sorted. Qed.

Lemma candidates_ids local_node remote_nodes i :
  i ∈ id <$> candidates local_node remote_nodes ↔ i ∈ id <$> remote_nodes ∨ i = id local_node.
Proof using.
  assert (i ∈ id <$> sort_by_key towards (remote_nodes ++ [local_node]) ↔
    i ∈ id <$> remote_nodes ∨ i = id local_node) as <-.
  { rewrite sort_by_key_perm, fmap_app, elem_of_app. simpl. by rewrite list_elem_of_singleton. }
  split; [|apply dedup_ids_keeps].
  intros (n & -> & Hn)%list_elem_of_fmap. by apply list_elem_of_fmap_2, dedup_ids_incl.
Qed.

End select.

(** What a publication relies on in the choice: the remote nodes were found,
    they are distinct and are not the local node, and there are some if there
    is room for two. *)
Lemma select_remote_incl (local_node target : Node) (remote_nodes : list Node) (k : nat) :
  (select_responsible_nodes local_node target remote_nodes k).2 ⊆ remote_nodes.
Proof.
  intros n [Hne Hn]%list_elem_of_filter. apply elem_of_take_incl, dedup_ids_incl in Hn.
  rewrite sort_by_key_perm in Hn. apply elem_of_app in Hn as [|Hn%list_elem_of_singleton]; [done|congruence].
Qed.

Lemma sorted_lt_nodup_ids target l : StronglySorted (key_lt (towards target)) l → NoDup (id <$> l).
Proof.
  induction 1 as [|n l _ IH Hall]; csimpl; constructor; [|done].
  intros (m & E & Hm)%list_elem_of_fmap. rewrite Forall_forall in Hall. specialize (Hall m Hm). unfold key_lt in Hall.
  rewrite (towards_id target n m E) in Hall. lia.
Qed.

Lemma filter_sorted_lt target (Q : Node → Prop) `{∀ n, Decision (Q n)} l :
  StronglySorted (key_lt (towards target)) l → StronglySorted (key_lt (towards target)) (filter Q l).
Proof.
  induction 1 as [|n l _ IH Hall]; [constructor|]. rewrite filter_cons. case_decide; [|done].
  constructor; [done|]. rewrite Forall_forall in *. intros m [_ Hm]%list_elem_of_filter. by apply Hall.
Qed.

Lemma select_remote_nodup (local_node target : Node) (remote_nodes : list Node) (k : nat) :
  NoDup (id <$> (select_responsible_nodes local_node target remote_nodes k).2).
Proof.
  eapply (sorted_lt_nodup_ids target), filter_sorted_lt.
  pose proof (candidates_sorted target local_node remote_nodes) as Hs.
  rewrite <-(take_drop k (candidates target local_node remote_nodes)) in Hs.
  by eapply (StronglySorted_app_1_l (key_lt (towards target))) in Hs.
Qed.

Lemma select_remote_some (local_node target : Node) (remote_nodes : list Node) (k : nat) :
  1 < k → (∃ n, n ∈ remote_nodes ∧ id n ≠ id local_node) →
  (select_responsible_nodes local_node target remote_nodes k).2 ≠ [].
Proof.
  intros Hk (n & Hn & Hne). unfold select_responsible_nodes. cbn [snd].
  change (λ n, distance_to n target) with (towards target).
  fold (candidates target local_node remote_nodes). set (cs := candidates target local_node remote_nodes).
  pose proof (candidates_ids target local_node remote_nodes) as Hids. fold cs in Hids.
  pose proof (sorted_lt_nodup_ids target _ (candidates_sorted target local_node remote_nodes)) as Hnd. fold cs in Hnd.
  assert (id n ∈ id <$> cs) as Hin by (apply Hids; left; by apply list_elem_of_fmap_2).
  destruct cs as [|x cs]; [by apply not_elem_of_nil in Hin|]. destruct k as [|k]; [lia|]. cbn [take].
  rewrite filter_cons. case_decide as Ex; [done|]. csimpl in *. apply NoDup_cons in Hnd as [Hx _].
  apply elem_of_cons in Hin as [Hin|Hin]; [congruence|].
  destruct cs as [|y cs]; [by apply not_elem_of_nil in Hin|]. destruct k as [|k]; [lia|]. cbn [take].
  rewrite filter_cons_True; [done|]. intros E. apply Hx. csimpl. rewrite Ex, E. by left.
Qed.

(** C22: the responsible nodes of a key are the [ksize] distinct ids closest to it
    among the nodes found and the local one: every chosen id is closer than
    every id left out, there are [ksize] of them or all there are, the local
    node is to store exactly if it is one of them, and the remote nodes returned
    are the others, each a node that was found, in ascending distance. *)
Theorem responsible_nodes_closest (local_node target : Node) (remote_nodes : list Node) (k : nat) :
  let '(store_local, remote) := select_responsible_nodes local_node target remote_nodes k in
  ∃ chosen : list Node, StronglySorted (key_lt (towards target)) chosen ∧
    (∀ i, i ∈ id <$> chosen → i ∈ id <$> remote_nodes ∨ i = id local_node) ∧
    (length chosen = k ∨ length chosen ≤ k ∧
      ∀ i, i ∈ id <$> remote_nodes ∨ i = id local_node → i ∈ id <$> chosen) ∧
    (∀ a b, a ∈ chosen → b ∈ remote_nodes ++ [local_node] → id b ∉ id <$> chosen →
       (distance_to a target < distance_to b target)%Z) ∧
    (store_local = true ↔ id local_node ∈ id <$> chosen) ∧
    remote = filter (λ n, id n ≠ id local_node) chosen ∧ remote ⊆ remote_nodes.
Proof.
  unfold select_responsible_nodes. change (λ n, distance_to n target) with (towards target).
  fold (candidates target local_node remote_nodes). set (cs := candidates target local_node remote_nodes).
  pose proof (candidates_sorted target local_node remote_nodes) as Hs. fold cs in Hs.
  pose proof (candidates_ids target local_node remote_nodes) as Hids. fold cs in Hids.
  exists (take k cs). rewrite <-(take_drop k cs) in Hs at 1.
  assert (∀ i, i ∈ id <$> take k cs → i ∈ id <$> cs) as Htake.
  { intros i (n & -> & Hn)%list_elem_of_fmap. apply elem_of_take_incl in Hn. by apply list_elem_of_fmap_2. }
  split; [by eapply (StronglySorted_app_1_l (key_lt (towards target)))|].
  split; [intros i Hi; by apply Hids, Htake|].
  split.
  { destruct (decide (k ≤ length cs)); [left; rewrite length_take; lia|right]. rewrite take_ge by lia.
    split; [lia|]. intros i. apply Hids. }
  split.
  { intros a b Ha Hb Hnb. apply (list_elem_of_fmap_2 id) in Hb. rewrite fmap_app, elem_of_app in Hb.
    csimpl in Hb. rewrite list_elem_of_singleton in Hb. apply Hids in Hb.
    apply list_elem_of_fmap in Hb as (c & Ec & Hc). rewrite <-(take_drop k cs) in Hc.
    apply elem_of_app in Hc as [Hc|Hc]; [destruct Hnb; rewrite Ec; by apply list_elem_of_fmap_2|].
    change (towards target a < towards target b)%Z. rewrite (towards_id target b c Ec).
    by eapply (sorted_app_lt (towards target)). }
  split.
  { rewrite <-Is_true_true, existb_True. setoid_rewrite Is_true_true. setoid_rewrite bool_decide_eq_true.
    rewrite list_elem_of_fmap, Exists_exists. naive_solver. }
  split; [done|]. apply (select_remote_incl local_node target remote_nodes k).
Qed.
