(* ===== verification/Network.v ===== *)
(** * The public API of a node (src/src/network/)

    SET, GET and UPDATE over the lookups and the requests of the protocol, the
    bootstrap, and one turn of each background loop. Lookups carry fuel: [F]
    adds to [M] the result [None], the fuel of a lookup ran out. *)

From S2P Require Import Prelude Utils Node Routing Storage Fragmentation Messages Retransmit.
From S2P Require Import Crypto AuthHandler AuthProps Crawling Effects Protocol Transport Client.
From S2P Require Import Handlers Publish.

(** ** Methods with lookups *)

Definition F (P E A : Type) : Type := World P E → option (World P E * A).

#[global] Instance F_ret P E : MRet (F P E) := λ A a w, Some (w, a).
#[global] Instance F_bind P E : MBind (F P E) := λ A B f m w,
  match m w with Some (w', a) => f a w' | None => None end.

Definition lift {P E A} (m : M P E A) : F P E A := λ w, Some (m w).

(** [Server]: its own fields. The storage and the signature cache are shared
    with the protocol, where the model keeps them; [listening] tells whether
    [protocol] is [Some]. *)
Record Server := mkServer { srv_ksize : nat; srv_alpha : nat; srv_node : Node; listening : bool }.

(** [Server::new]; [random] are the 32 random bytes. *)
Definition server_new `{Sha1} (k a : nat) (node_id : option ident) (random : bytes) : Server :=
  mkServer k a
    (match node_id with Some i => Node_from_id i | None => Node_from_id (digest_bytes random) end) false.

(** [PublishLookup]. *)
Inductive PublishLookup := Missing (l : LookupNodes) | Identical | PConflict.

(** [read_quorum] (read.rs). *)
Definition read_quorum (alpha : nat) : nat := (alpha `max` 1) `div` 2 + 1.

Section server.
Context {St C E : Type} `{Sha1, Sha256, Bincode, Ipv6Syntax, HashOrder}.
Context `{IStorage St, MokaCache C} (handler : SignatureVerifierHandler).
Abbreviation P := (KademliaProtocol St C).
Context `{Environment E P, LookupSchedule E}.
Abbreviation M := (M P E).
Abbreviation F := (F P E).
Context (fuel : nat) (srv : Server).

(** [Server::verify_value]. *)
Definition verify_value (key value : bytes) : M bool := verify_for_key handler (digest key) value.

(** ** SET (publish.rs) *)

(** A lookup of nodes from the neighbours of a target. *)
Definition lookup_nodes (target : Node) (nearest : list Node) : F LookupNodes := λ w,
  NodeSpiderCrawl.find_lookup_nodes fuel w
    (SpiderCrawl.new target nearest (srv_ksize srv) (srv_alpha srv)).

(** [Server::discover_publish_nodes]. *)
Definition discover_publish_nodes (dkey : ident) : F LookupNodes :=
  if negb (listening srv) then mret LookupNodes_default
  else
    nearest ← lift (find_neighbors (Node_from_id dkey) None);
    if bool_decide (nearest = []) then mret LookupNodes_default
    else lookup_nodes (Node_from_id dkey) nearest.

Definition value_crawl (dkey : ident) (nearest : list Node) : ValueSpiderCrawl.t :=
  ValueSpiderCrawl.new (Node_from_id dkey) nearest (srv_ksize srv) (srv_alpha srv).

Definition find_value (dkey : ident) (nearest : list Node) : F (option bytes * LookupNodes) := λ w,
  ValueSpiderCrawl.find fuel w (value_crawl dkey nearest).

Definition same_or_conflict (existing value : bytes) : PublishLookup :=
  if bool_decide (existing = value) then Identical else PConflict.

(** [Server::check_publish_state]. *)
Definition check_publish_state (key value : bytes) : F PublishLookup :=
  let dkey := digest key in
  held ← lift (storage_get dkey);
  match held with
  | Some existing => mret (same_or_conflict existing value)
  | None =>
      if negb (listening srv) then mret (Missing LookupNodes_default)
      else
        nearest ← lift (find_neighbors (Node_from_id dkey) None);
        if bool_decide (nearest = []) then mret (Missing LookupNodes_default)
        else
          '(result, lookup) ← find_value dkey nearest;
          match result with
          | Some found =>
              ok ← lift (verify_value key found);
              if negb ok then
                nodes ← discover_publish_nodes dkey; mret (Missing nodes)
              else mret (same_or_conflict found value)
          | None => mret (Missing lookup)
          end
  end.

(** [usize::from]. *)
Definition usize_from (b : bool) : nat := if b then 1 else 0.

(** The second half of [set_digest_detailed]: the stores, and the report of
    their answers. *)
Definition store_on (dkey : ident) (value : bytes) (store_local : bool) (remote_nodes : list Node)
    (report : SetReport) : M SetOutcome :=
  report ← (if store_local
            then status ← storage_insert dkey value;
                 mret (record_status report (Some (store_status_from status)))
            else mret report) : M SetReport;
  statuses ← for_each (λ n, call_store_rpc n dkey value) remote_nodes;
  mret (classify_set_report (foldl record_status report statuses)).

(** [Server::set_digest_detailed]. *)
Definition set_digest_detailed (dkey : ident) (value : bytes) (lookup : LookupNodes) : M SetOutcome :=
  if negb (listening srv) then mret (Rejected Unavailable SetReport_default)
  else
    let '(store_local, remote_nodes) :=
      select_responsible_nodes (srv_node srv) (Node_from_id dkey) (nodes lookup) (srv_ksize srv) in
    cut_off ← (if bool_decide (remote_nodes = [])
               then rt ← read_router; known_seeds ← gets seeds;
                    mret (RoutingTable.has_contacts rt || negb (bool_decide (known_seeds = [])))
               else mret false) : M bool;
    store_on dkey value store_local remote_nodes
      (mkReport (length remote_nodes + usize_from store_local + usize_from cut_off) 0 0 0
         (unresponsive lookup `max` usize_from cut_off) 0 0).

(** [Server::set_detailed]. *)
Definition set_detailed (key value : bytes) : F SetOutcome :=
  valid ← lift (verify_value key value);
  if negb valid then mret (Rejected InvalidRecord SetReport_default)
  else if negb (listening srv) then mret (Rejected Unavailable SetReport_default)
  else
    state ← check_publish_state key value;
    match state with
    | Missing lookup => lift (set_digest_detailed (digest key) value lookup)
    | Identical =>
        lookup ← discover_publish_nodes (digest key);
        lift (set_digest_detailed (digest key) value lookup)
    | PConflict => mret (Rejected ExistingRecord SetReport_default)
    end.

(** [Server::set]. *)
Definition set_result (o : SetOutcome) : option bool :=
  match o with
  | Complete _ => Some true
  | Degraded _ => Some false
  | Rejected reason _ =>
      match reason with
      | ExistingRecord | InvalidRecord | ReplicaConflict => None
      | RCapacityExceeded | Unavailable | NoResponsibleNodes => Some false
      end
  end.

Definition server_set (key value : bytes) : F (option bool) :=
  outcome ← set_detailed key value; mret (set_result outcome).

(** ** GET (read.rs) *)

(** The check of a value found, here and in [find_first_valid]. *)
Definition verified (key value : bytes) : M (option bytes) :=
  ok ← verify_value key value; mret (if (ok : bool) then Some value else None).

(** The two lookups of [Server::get]. *)
Definition first_valid (key : bytes) (nearest : list Node) : F (option bytes) := λ w,
  ValueSpiderCrawl.find_first_valid fuel (round_env (env w)) (λ w value, verified key value w) w
    (value_crawl (digest key) nearest).

Definition quorum_value (dkey : ident) (nearest : list Node) (initial_values : list bytes)
    : F (option bytes) := λ w,
  ValueSpiderCrawl.find_quorum fuel w (value_crawl dkey nearest) initial_values
    (read_quorum (srv_alpha srv)) (srv_alpha srv `max` 1).

(** [Server::get]. *)
Definition server_get (key : bytes) : F (option bytes) :=
  let dkey := digest key in
  let is_status_list := bool_decide (key = STATUS_LIST_KEY) in
  local_value ← lift (storage_get dkey);
  match (if is_status_list then None else local_value) with
  | Some result => lift (verified key result)
  | None =>
      if negb (listening srv) then mret None
      else
        nearest ← lift (find_neighbors (Node_from_id dkey) None);
        if bool_decide (nearest = []) then mret None
        else if negb is_status_list then first_valid key nearest
        else
          result ← quorum_value dkey nearest (option_list local_value);
          match result with
          | Some v => lift (verified key v)
          | None => mret None
          end
  end.

(** ** UPDATE (update.rs) *)

(** What an UPDATE sends to one replica. *)
Definition update_replica (is_status_list : bool) (dkey : ident) (value auth_signature : bytes) (n : Node)
    : M bool :=
  if is_status_list then call_status_list_update_rpc n dkey value
  else
    answer ← call_update_rpc_answer n dkey value auth_signature;
    match answer with
    | Some true => mret true
    | Some false => holds_record <$> call_store_rpc n dkey value
    | None => mret false
    end.

(** The quorum of [update_digest]: the local replica and the closest remote
    ones, [alpha] in all. *)
Definition update_quorum (alpha : nat) (local : bool) (results : list bool) : option bool :=
  let local_vote := usize_from local in
  let primary_remote_count := (alpha - local_vote) `min` length results in
  let group_size := local_vote + primary_remote_count in
  if group_size =? 0 then None
  else
    let required := group_size `div` 2 + 1 in
    let acknowledgements :=
      local_vote + length (filter (λ ok, ok = true) (take primary_remote_count results)) in
    Some (required <=? acknowledgements).

(** The end of [update_digest], once the replicas have answered. *)
Definition finish_update (dkey : ident) (value : bytes) (local : bool) (results : list bool) : M bool :=
  match update_quorum (srv_alpha srv) local results with
  | None => mret false
  | Some false => mret false
  | Some true =>
      if negb local then mret true
      else
        status ← storage_set dkey value;
        mret (negb (bool_decide (status = CapacityExceeded)))
  end.

(** [Server::update_digest]. *)
Definition update_digest (key : bytes) (dkey : ident) (value : bytes) (auth_signature : option bytes)
    : F bool :=
  if negb (listening srv) then mret false
  else
    nearest ← lift (find_neighbors (Node_from_id dkey) None);
    if bool_decide (nearest = []) then mret false
    else
      lookup ← lookup_nodes (Node_from_id dkey) nearest;
      let '(should_store_local, ns) :=
        select_responsible_nodes (srv_node srv) (Node_from_id dkey) (nodes lookup) (srv_ksize srv) in
      results ← lift (for_each (update_replica (bool_decide (key = STATUS_LIST_KEY)) dkey value
                                  (default [] auth_signature)) ns);
      lift (finish_update dkey value should_store_local results).

(** The authorization test of [Server::update]. *)
Definition update_authorized (key old_value value : bytes) (auth_signature : option bytes) : M bool :=
  let is_status := bool_decide (key = STATUS_LIST_KEY) && bool_decide (auth_signature = None) in
  let already_applied := negb (bool_decide (key = STATUS_LIST_KEY)) && bool_decide (old_value = value) in
  if already_applied then mret true
  else
    pause ;;
    mret (if is_status then verify_issuer_signed handler value
          else verify_rotation handler (digest key) value old_value (default [] auth_signature)).

(** [Server::update]. *)
Definition server_update (key value : bytes) (auth_signature : option bytes) : F (option bool) :=
  old ← server_get key;
  match old with
  | None => mret None
  | Some old_value =>
      ok ← lift (update_authorized key old_value value auth_signature);
      if negb ok then mret None
      else
        done ← update_digest key (digest key) value auth_signature;
        mret (Some done)
  end.

(** ** Bootstrap and stop (mod.rs) *)

(** [Server::bootstrap_node]. *)
Definition bootstrap_node (addr : string * Z) : M (option Node) :=
  if negb (listening srv) then mret None
  else
    '(ok, id_bytes) ← call_ping_addr addr;
    mret (if negb ok then None
          else (λ i, Node_new i (Some addr.1) (Some addr.2)) <$> ident_of_bytes id_bytes).

(** [Server::bootstrap]. *)
Definition bootstrap (addrs : list (string * Z)) : F (list Node) :=
  lift (if listening srv then modify (remember_seeds addrs) else mret tt) ;;
  found ← lift (for_each bootstrap_node addrs);
  if negb (listening srv) then mret []
  else
    lookup ← lookup_nodes (srv_node srv) (omap (λ o, o) found);
    mret (nodes lookup).

(** [Server::bootstrappable_neighbors]. *)
Definition bootstrappable_neighbors : M (list (string * Z)) :=
  if negb (listening srv) then mret []
  else ns ← find_neighbors (srv_node srv) None; mret (omap address ns).

(** [Server::listen] after the socket is bound: the protocol of the server,
    with [workers] receive workers. *)
Definition listen_protocol (now unix : Z) (st : St) (cache : option C) (workers : nat) : P :=
  let p := Protocol.new now unix (srv_node srv) st (srv_ksize srv) (srv_alpha srv) cache in
  let p := set_router (RoutingTable.set_min_lookup_contacts (router_of p) (read_quorum (srv_alpha srv))) p in
  foldl (λ p t, (spawn_task t p).1) p
    (replicate workers Worker ++ [Receiver; Refresh; Maintenance; StatsLog]).

Definition with_listening (b : bool) : Server := mkServer (srv_ksize srv) (srv_alpha srv) (srv_node srv) b.

(** [Server::listen]; [bound] tells whether the socket could be bound. A protocol
    the server already had is replaced: its state is no longer that of the server,
    and its tasks, which share the store and the cache, are among the [others]. *)
Definition listen (bound : bool) (workers : nat) : M Server :=
  if negb bound then mret srv
  else
    now ← asks instant; unix ← asks unix_time;
    modify (λ p, listen_protocol now unix (storage p) (sig_cache p) workers) ;;
    mret (with_listening true).

(** [Server::stop]: the neighbours are told, then every task ends. *)
Definition stop : M Server :=
  if negb (listening srv) then mret srv
  else
    ns ← find_neighbors (srv_node srv) None;
    for_each call_leave_rpc ns ;;
    modify shutdown_tasks ;;
    mret (with_listening false).

(** [Drop for Server]. *)
Definition server_drop : M unit :=
  if listening srv then modify abort_tasks else mret tt.

(** ** Background loops (maintenance.rs) *)

Definition MAINTENANCE_TICK : Z := from_secs 1.
Definition REJOIN_BACKOFF_MAX : Z := from_secs 60.

(** The variables of the loop of [schedule_maintenance]. *)
Record Rejoin := mkRejoin { isolated : bool; seed_delay : Z; next_seed_attempt : Z }.

Definition rejoin_start (now : Z) : Rejoin := mkRejoin false MAINTENANCE_TICK now.

(** One turn of the loop of [schedule_maintenance]. *)
Definition maintenance_turn (r : Rejoin) : F Rejoin :=
  lift pause ;;
  lift (probe_failing_contacts (srv_alpha srv)) ;;
  rt ← lift read_router;
  if 0 <? RoutingTable.live_contacts rt then
    if negb (isolated r) then mret (mkRejoin false MAINTENANCE_TICK (next_seed_attempt r))
    else
      neighbors ← lift (find_neighbors (srv_node srv) None);
      lookup_nodes (srv_node srv) neighbors ;;
      mret (mkRejoin false MAINTENANCE_TICK (next_seed_attempt r))
  else
    known_seeds ← lift (gets seeds); now ← lift (asks instant);
    if negb (bool_decide (known_seeds = [])) && (next_seed_attempt r <=? now)%Z then
      lift (for_each call_ping_addr known_seeds) ;;
      now' ← lift (asks instant); jit ← lift (asks jitter);
      let delay := Z.min (seed_delay r * 2) REJOIN_BACKOFF_MAX in
      mret (mkRejoin true delay (now' + with_jitter jit delay))
    else mret (mkRejoin true (seed_delay r) (next_seed_attempt r)).

(** What [Server::save_state] writes, as JSON, with the id in hexadecimal; [None]:
    it writes nothing. *)
Record SavedState := mkSaved {
  sv_ksize : nat;
  sv_alpha : nat;
  sv_id : ident;
  sv_neighbors : list (string * Z)
}.

Definition save_state : M (option SavedState) :=
  neighbors ← bootstrappable_neighbors;
  mret (if bool_decide (neighbors = []) then None
        else Some (mkSaved (srv_ksize srv) (srv_alpha srv) (id (srv_node srv)) neighbors)).

(** [Server::save_state_regularly], and one turn of its task. *)
Definition save_state_regularly : M unit :=
  if listening srv then update (spawn_task SaveState) ;; mret tt else mret tt.

Definition save_state_turn : M (option SavedState) :=
  pause ;;
  ns ← find_neighbors (srv_node srv) None;
  let neighbors := omap address ns in
  mret (if bool_decide (neighbors = []) then None
        else Some (mkSaved (srv_ksize srv) (srv_alpha srv) (id (srv_node srv)) neighbors)).

(** The lookups of [schedule_refresh], one per lonely bucket, from the
    neighbours each has at first. *)
Fixpoint run_lookups (spiders : list (ident * list Node)) : F unit :=
  match spiders with
  | [] => mret tt
  | (i, neighbors) :: rest => lookup_nodes (Node_from_id i) neighbors ;; run_lookups rest
  end.

Definition refresh_buckets (ids : list ident) : F unit :=
  spiders ← lift (for_each (λ i, ns ← find_neighbors (Node_from_id i) None; mret (i, ns)) ids);
  run_lookups spiders.

(** The republication of [schedule_refresh]. *)
Fixpoint republish (entries : list (bytes * bytes)) : F unit :=
  match entries with
  | [] => mret tt
  | (key_vec, value) :: rest =>
      match ident_of_bytes key_vec with
      | None => republish rest
      | Some dkey =>
          neighbors ← lift (find_neighbors (Node_from_id dkey) None);
          if bool_decide (neighbors = []) then republish rest
          else
            lookup ← lookup_nodes (Node_from_id dkey) neighbors;
            lift (for_each (λ n, call_store_rpc n dkey value) (nodes lookup)) ;;
            republish rest
      end
  end.

(** One turn of the loop of [schedule_refresh]. *)
Definition refresh_turn : F unit :=
  lift pause ;;
  ids ← lift get_refresh_ids;
  refresh_buckets ids ;;
  now ← lift (asks instant);
  entries ← lift (gets (λ p, iter_older_than now (storage p) 3600));
  republish entries.

End server.

(** [ServerStats] and [Server::stats] (maintenance.rs); the number of entries of
    the cache is the cache library's. *)
Record ServerStats := mkStats {
  st_node_id : ident;
  st_listening : bool;
  st_routing_nodes : nat;
  st_live_routing_nodes : nat;
  st_storage_records : nat;
  st_storage_bytes : Z;
  st_max_storage_bytes : Z
}.

Definition stats {C E} `{Environment E (KademliaProtocol ForgetfulStorage.t C)} (srv : Server)
    : M (KademliaProtocol ForgetfulStorage.t C) E ServerStats :=
  sizes ← (if listening srv
           then rt ← read_router;
                mret (foldr Nat.add 0 (KBucket.len <$> RoutingTable.buckets rt), RoutingTable.live_contacts rt)
           else mret (0, 0)) : M (KademliaProtocol ForgetfulStorage.t C) E (nat * nat);
  now ← asks instant;
  gets (λ p, mkStats (id (srv_node srv)) (listening srv) (fst sizes) (snd sizes)
    (length (ForgetfulStorage.fs_iter_all now (storage p)))
    (ForgetfulStorage.current_storage_bytes (storage p))
    (ForgetfulStorage.max_storage_bytes (storage p))).

(** One turn of the loop of [schedule_stats_log]: what it logs and, before, what
    it prunes. *)
Record StatsLine := mkLine {
  sl_reclaimed : Z;
  sl_routing_size : nat;
  sl_live_size : nat;
  sl_storage_size : nat;
  sl_storage_bytes : Z;
  sl_max_storage_bytes : Z
}.

Definition prune {C E} `{Environment E (KademliaProtocol ForgetfulStorage.t C)}
    : M (KademliaProtocol ForgetfulStorage.t C) E Z :=
  now ← asks instant;
  update (λ p, let '(s, reclaimed) := ForgetfulStorage.prune_expired now (storage p) in
               (with_storage s p, reclaimed)).

Definition stats_turn {C E} `{Environment E (KademliaProtocol ForgetfulStorage.t C)}
    : M (KademliaProtocol ForgetfulStorage.t C) E StatsLine :=
  pause ;;
  reclaimed ← prune;
  rt ← read_router;
  now ← asks instant;
  gets (λ p, mkLine reclaimed
    (foldr Nat.add 0 (KBucket.len <$> RoutingTable.buckets rt)) (RoutingTable.live_contacts rt)
    (length (ForgetfulStorage.fs_iter_all now (storage p)))
    (ForgetfulStorage.current_storage_bytes (storage p))
    (ForgetfulStorage.max_storage_bytes (storage p))).
