(* ===== verification/ApiProps.v ===== *)
(** * The public operations keep what their requests keep

    An invariant of a node that its requests and the environment respect is
    respected by SET, GET, UPDATE, the bootstrap and the background loops too,
    and every one of them ends. *)

From S2P Require Import Prelude Utils Node Routing BucketProps RoutingProps Storage Fragmentation Messages.
From S2P Require Import Retransmit Crypto AuthHandler AuthProps Crawling CrawlProps SearchProps Effects.
From S2P Require Import Protocol Transport Client Handlers ProtocolProps HandlersProps Publish Network.

(** ** Triples of methods with lookups *)

Definition ftriple {P E A} (Pre : World P E → Prop) (m : F P E A) (Post : A → World P E → Prop) : Prop :=
  ∀ w w' a, Pre w → m w = Some (w', a) → Post a w'.

Definition fkeeps {P E A} (I : World P E → Prop) (m : F P E A) : Prop := ftriple I m (λ _, I).

Section ftriples.
Context {P E : Type}.
Implicit Types I Pre : World P E → Prop.

Lemma ftriple_bind {A B} Pre (m : F P E A) Mid (f : A → F P E B) Post :
  ftriple Pre m Mid → (∀ a, ftriple (Mid a) (f a) Post) → ftriple Pre (m ≫= f) Post.
Proof.
  intros Hm Hf w w' b Hw. unfold mbind, F_bind. destruct (m w) as [[w1 a]|] eqn:E1; [|done].
  apply (Hf a). by apply (Hm w).
Qed.

Lemma ftriple_lift {A} Pre (m : M P E A) Post : triple Pre m Post → ftriple Pre (lift m) Post.
Proof. intros Hm w w' a Hw [= E1]. specialize (Hm w Hw). by rewrite E1 in Hm. Qed.

Lemma ftriple_ret {A} (a : A) (Post : A → World P E → Prop) : ftriple (Post a) (mret a) Post.
Proof. by intros w w' a' Hw [= <- <-]. Qed.

Lemma ftriple_pure {A} (Q : Prop) Pre (m : F P E A) Post :
  (Q → ftriple Pre m Post) → ftriple (λ w, Q ∧ Pre w) m Post.
Proof. intros Hm w w' a [HQ Hw]. by apply Hm. Qed.

Lemma ftriple_given {A} (Q : Prop) (m : F P E A) Post :
  (Q → ftriple (λ _, True) m Post) → ftriple (λ _, Q) m Post.
Proof. intros Hm w w' a HQ. by apply (Hm HQ w). Qed.

Lemma fkeeps_ret {A} I (a : A) : fkeeps I (mret a).
Proof. by intros w w' a' Hw [= <- _]. Qed.

Lemma fkeeps_bind {A B} I (m : F P E A) (f : A → F P E B) :
  fkeeps I m → (∀ a, fkeeps I (f a)) → fkeeps I (m ≫= f).
Proof. apply ftriple_bind. Qed.

Lemma fkeeps_lift {A} I (m : M P E A) : keeps I m → fkeeps I (lift m).
Proof. apply ftriple_lift. Qed.

End ftriples.

(** Walk through a method with lookups, as [keeps_all] does. *)
Ltac fkeeps_step :=
  match goal with
  | |- fkeeps _ (mret _) => apply fkeeps_ret
  | |- fkeeps _ (lift _) => apply fkeeps_lift; keeps_all
  | |- fkeeps _ (mbind _ _) => apply fkeeps_bind; [|intros ?]
  | |- fkeeps _ (if ?b then _ else _) => destruct b eqn:?
  | |- fkeeps _ (match ?x with _ => _ end) => destruct x eqn:?
  end.

Ltac fkeeps_all := repeat (fkeeps_step; try assumption); eauto 4 with kad.

(** ** Invariants *)

Section api.
Context {St C E : Type} `{Sha1, Sha256, Bincode, Ipv6Syntax, HashOrder}.
Context `{IStorage St, MokaCache C} (handler : SignatureVerifierHandler).
Abbreviation P := (KademliaProtocol St C).
Context `{Environment E P, LookupSchedule E}.
Context (I : World P E → Prop) (HF : framed I) (V : ident → bytes → Prop) (Q : SocketAddr → Prop).
Context (HG : guarded handler I V Q) (fuel : nat) (srv : Server).

(** The value found, if any, may be held at [key]. *)
Definition found_ok (key : bytes) (r : option bytes) (w : World P E) : Prop :=
  (∀ x, r = Some x → V (digest key) x) ∧ I w.

Lemma api_find_node : rpc_keeps I (λ w p t, proto_find_node p t w).
Proof using HF. intros w p t. by apply fr_find_node. Qed.

Lemma api_find_value : rpc_keeps I (λ w p t, proto_find_value p t w).
Proof using HF. intros w p t. by apply fr_find_value. Qed.

Lemma fk_lookup_nodes target nearest : fkeeps I (lookup_nodes fuel srv target nearest).
Proof using HF. intros w w' l. apply (lookup_keeps I). exact api_find_node. Qed.

Lemma fk_find_value dkey nearest : fkeeps I (find_value fuel srv dkey nearest).
Proof using HF.
  intros w w' r. apply (find_keeps I); [exact api_find_value|].
  intros w0 p k x Hw0. by apply (fr_proto_store I HF).
Qed.

Lemma fk_quorum dkey nearest initial : fkeeps I (quorum_value fuel srv dkey nearest initial).
Proof using HF. intros w w' r. apply (quorum_keeps I). exact api_find_value. Qed.

Lemma tr_verify_value key value :
  triple I (verify_value handler key value) (λ b w, (b = true → V (digest key) value) ∧ I w).
Proof using HG. apply (gd_verify _ _ _ _ HG). Qed.

Lemma tr_verified key value : triple I (verified handler key value) (found_ok key).
Proof using HG.
  unfold verified. eapply triple_bind; [apply tr_verify_value|]. intros ok w [Hv Hw]. split; [|done].
  destruct ok; intros x [= <-]. by apply Hv.
Qed.

Lemma fk_first_valid key nearest : ftriple I (first_valid handler fuel srv key nearest) (found_ok key).
Proof using HF HG.
  intros w w' r Hw. unfold first_valid, ValueSpiderCrawl.find_first_valid.
  destruct (ValueSpiderCrawl.search _ _ _ _ _ _ _ _) as [[[w1 s1] o]|] eqn:Hs; [|done]. simpl.
  intros [= <- <-]. apply (search_keeps I _ _ _ _ _ (V (digest key))) in Hs as [Hw1 Hv]; [|..|done].
  - split; [|done]. destruct o; intros x [= <-]. by apply Hv.
  - exact api_find_value.
  - intros w0 y Hw0. destruct (tr_verified key y w0 Hw0) as [Hv Hw1]. done.
  - intros w0 ns Hw0. by apply (fr_note_no_answer I HF).
Qed.

Lemma found_none key : ftriple I (mret None) (found_ok key).
Proof using. intros w w' a Hw [= <- <-]. by split. Qed.

#[local] Hint Resolve fr_find_neighbors rq_storage_get fk_lookup_nodes fk_find_value fk_quorum : kad.

Lemma fk_get key : ftriple I (server_get handler fuel srv key) (found_ok key).
Proof using HF HG.
  unfold server_get. eapply ftriple_bind; [apply fkeeps_lift, rq_storage_get|]. intros local.
  destruct (if bool_decide _ then None else local) as [v|]; [apply ftriple_lift, tr_verified|].
  destruct (listening srv); cbn [negb]; [|apply found_none].
  eapply ftriple_bind; [by apply fkeeps_lift, fr_find_neighbors|]. intros nearest.
  case_bool_decide; [apply found_none|]. case_bool_decide; cbn [negb]; [|apply fk_first_valid].
  eapply ftriple_bind; [apply fk_quorum|]. intros [v|]; [apply ftriple_lift, tr_verified|apply found_none].
Qed.

Lemma fk_discover dkey : fkeeps I (discover_publish_nodes fuel srv dkey).
Proof using HF. unfold discover_publish_nodes. fkeeps_all. Qed.

Lemma kp_verify_value key value : keeps I (verify_value handler key value).
Proof using HG. intros w Hw. by apply tr_verify_value. Qed.

#[local] Hint Resolve fk_discover kp_verify_value : kad.

Lemma fk_check_publish_state key value : fkeeps I (check_publish_state handler fuel srv key value).
Proof using HF HG. unfold check_publish_state. fkeeps_all. Qed.

Lemma kp_set_digest dkey value lookup :
  V dkey value → keeps I (set_digest_detailed srv dkey value lookup).
Proof using HF HG.
  intros Hv. unfold set_digest_detailed, store_on. keeps_all. by apply (gd_insert _ _ _ _ HG).
Qed.

Lemma fk_set key value : fkeeps I (set_detailed handler fuel srv key value).
Proof using HF HG.
  unfold set_detailed. eapply ftriple_bind; [apply ftriple_lift, tr_verify_value|]. intros ok.
  apply ftriple_pure. intros Hok. destruct ok; cbn [negb]; [|apply fkeeps_ret].
  specialize (Hok eq_refl). destruct (listening srv); cbn [negb]; [|apply fkeeps_ret].
  apply fkeeps_bind; [apply fk_check_publish_state|]. intros [l| |].
  - by apply fkeeps_lift, kp_set_digest.
  - apply fkeeps_bind; [apply fk_discover|]. intros l. by apply fkeeps_lift, kp_set_digest.
  - apply fkeeps_ret.
Qed.

(** An update is of a DID, or of the Status List by its issuer. *)
Definition update_ok (key : bytes) (auth_signature : option bytes) : Prop :=
  digest key = digest STATUS_LIST_KEY → key = STATUS_LIST_KEY ∧ auth_signature = None.

Lemma kp_update_authorized key old value auth : keeps I (update_authorized handler key old value auth).
Proof using HF. unfold update_authorized. keeps_all. Qed.

Lemma tr_update_authorized key old value auth :
  update_ok key auth ∨ (∀ k v, V k v) → V (digest key) old →
  triple I (update_authorized handler key old value auth)
    (λ b w, (b = true → V (digest key) value) ∧ I w).
Proof using HF HG.
  intros [Hok|Hall] Hold; [|intros w Hw; split; [auto|by apply kp_update_authorized]].
  unfold update_authorized. destruct (_ && bool_decide (old = value)) eqn:Happ.
  { intros w Hw. split; [|done]. intros _. by bool_facts; subst. }
  eapply triple_bind; [by apply fr_pause|]. intros _ w Hw. split; [|done]. simpl.
  destruct (decide (digest key = digest STATUS_LIST_KEY)) as [Hk|Hk].
  - destruct (Hok Hk) as [-> ->]. rewrite !bool_decide_eq_true_2 by done. cbn [andb].
    apply (gd_issuer _ _ _ _ HG).
  - rewrite (bool_decide_eq_false_2 (key = _)) by congruence. cbn [andb].
    by apply (gd_rotation _ _ _ _ HG).
Qed.

Lemma kp_update_rpc_answer peer key value auth : keeps I (call_update_rpc_answer peer key value auth).
Proof using HF. unfold call_update_rpc_answer, source_id. keeps_all. Qed.

Lemma kp_status_update_rpc peer key value : keeps I (call_status_list_update_rpc peer key value).
Proof using HF. unfold call_status_list_update_rpc, source_id. keeps_all. Qed.

Lemma kp_leave_rpc peer : keeps I (call_leave_rpc peer).
Proof using HF. unfold call_leave_rpc, source_id. keeps_all. Qed.

#[local] Hint Resolve kp_update_rpc_answer kp_status_update_rpc kp_leave_rpc : kad.

Lemma fk_update_digest key dkey value auth :
  V dkey value → fkeeps I (update_digest fuel srv key dkey value auth).
Proof using HF HG.
  intros Hv. unfold update_digest, update_replica, finish_update. fkeeps_all.
  by apply (gd_set _ _ _ _ HG).
Qed.

Lemma fk_update key value auth :
  update_ok key auth ∨ (∀ k v, V k v) → fkeeps I (server_update handler fuel srv key value auth).
Proof using HF HG.
  intros Hok. unfold server_update. eapply ftriple_bind; [apply fk_get|]. intros [old|].
  - apply ftriple_pure. intros Hold. eapply ftriple_bind.
    { apply ftriple_lift, tr_update_authorized; [done|]. by apply Hold. }
    intros ok. apply ftriple_pure. intros Hv. destruct ok; cbn [negb]; [|apply fkeeps_ret].
    apply fkeeps_bind; [apply fk_update_digest; by apply Hv|]. intros b. apply fkeeps_ret.
  - apply ftriple_pure. intros _. apply fkeeps_ret.
Qed.

Lemma kp_seeds (f : P → P) :
  (∀ p, transport (f p) = transport p ∧ storage (f p) = storage p ∧ sig_cache (f p) = sig_cache p ∧
        contacts (f p) = contacts p) → keeps I (modify f).
Proof using HF.
  intros Hf. apply fr_modify; [done|]. intros p. destruct (Hf p) as (? & ? & ? & Hc).
  apply cs_same; try done. unfold router_of. by rewrite Hc.
Qed.

Lemma fk_bootstrap addrs : fkeeps I (bootstrap fuel srv addrs).
Proof using HF.
  unfold bootstrap, bootstrap_node. fkeeps_all. by apply kp_seeds.
Qed.

Lemma kp_probe limit : keeps I (probe_failing_contacts limit).
Proof using HF. unfold probe_failing_contacts. keeps_all. Qed.

Lemma kp_refresh_ids : keeps I get_refresh_ids.
Proof using HF. unfold get_refresh_ids. keeps_all. Qed.

#[local] Hint Resolve kp_probe kp_refresh_ids fr_read_router : kad.

Lemma fk_maintenance r : fkeeps I (maintenance_turn fuel srv r).
Proof using HF. unfold maintenance_turn. fkeeps_all. Qed.

Lemma fk_run_lookups l : fkeeps I (run_lookups fuel srv l).
Proof using HF. induction l as [|[i ns] l IH]; simpl; fkeeps_all. Qed.

Lemma fk_republish entries : fkeeps I (republish fuel srv entries).
Proof using HF. induction entries as [|[k v] entries IH]; simpl; fkeeps_all. Qed.

#[local] Hint Resolve fk_run_lookups fk_republish : kad.

Lemma fk_refresh : fkeeps I (refresh_turn fuel srv).
Proof using HF. unfold refresh_turn, refresh_buckets. fkeeps_all. Qed.

Lemma kp_stop : keeps I (stop srv).
Proof using HF. unfold stop. keeps_all. by apply kp_seeds. Qed.

End api.

(** ** Everything ends *)

(** A method that returns, whatever the world. *)
Definition total {P E A} (m : F P E A) : Prop := ∀ w, is_Some (m w).

Lemma total_ret {P E A} (a : A) : total (P := P) (E := E) (mret a).
Proof. intros w. by eexists. Qed.

Lemma total_lift {P E A} (m : M P E A) : total (lift m).
Proof. intros w. by eexists. Qed.

Lemma total_bind {P E A B} (m : F P E A) (f : A → F P E B) :
  total m → (∀ a, total (f a)) → total (m ≫= f).
Proof.
  intros Hm Hf w. unfold mbind, F_bind. destruct (Hm w) as [[w1 a] ->]. apply Hf.
Qed.

#[local] Hint Resolve total_ret total_lift : kad.

Ltac total_step :=
  first [apply total_bind; [|intros ?]
        |match goal with
         | |- total (match ?x with _ => _ end) => destruct x
         | |- total (if ?b then _ else _) => destruct b
         end
        |progress eauto 2 with kad].
Ltac total_all := repeat total_step.

Section total.
Context {St C E : Type} `{Sha1, Sha256, Bincode, Ipv6Syntax, HashOrder}.
Context `{IStorage St, MokaCache C} (handler : SignatureVerifierHandler).
Abbreviation P := (KademliaProtocol St C).
Context `{Environment E P, LookupSchedule E}.
Context (U : gset ident) (HU : ∀ i, i ∈ U) (fuel : nat) (Hfuel : 2 * size U + 1 < fuel) (srv : Server).

Lemma reports_all r : reports_in U r.
Proof using HU. intros n _. apply HU. Qed.

Lemma crawl_start n peers k a :
  crawl_ok U ∅ (SpiderCrawl.new n peers k a) ∧ measure U (SpiderCrawl.new n peers k a) < fuel.
Proof using HU Hfuel.
  split; [apply crawl_ok_new; intros; apply HU|]. unfold measure. case_bool_decide; lia.
Qed.

Lemma total_lookup_nodes target nearest : total (P := P) (E := E) (lookup_nodes fuel srv target nearest).
Proof using HU Hfuel.
  intros w. destruct (crawl_start target nearest (srv_ksize srv) (srv_alpha srv)) as [Hok Hm].
  destruct (find_lookup_nodes_spec U (λ _ _ _, reports_all _) fuel w _ ∅ Hok Hm) as (w' & l & Hl & _).
  unfold lookup_nodes. rewrite Hl. done.
Qed.

Lemma total_find_value dkey nearest : total (P := P) (E := E) (find_value fuel srv dkey nearest).
Proof using HU Hfuel.
  intros w. destruct (crawl_start (Node_from_id dkey) nearest (srv_ksize srv) (srv_alpha srv)) as [Hok Hm].
  by apply (find_terminates U (λ _ _ _, reports_all _) fuel w _ ∅).
Qed.

Lemma total_quorum dkey nearest initial : total (P := P) (E := E) (quorum_value fuel srv dkey nearest initial).
Proof using HU Hfuel.
  intros w. destruct (crawl_start (Node_from_id dkey) nearest (srv_ksize srv) (srv_alpha srv)) as [Hok Hm].
  destruct (quorum_loop_spec U (λ _ _ _, reports_all _) fuel w _ ∅ initial []
    (read_quorum (srv_alpha srv)) (srv_alpha srv `max` 1) Hok Hm) as (w' & r & Hq & _).
  - constructor.
  - intros i []%not_elem_of_nil.
  - rewrite app_nil_r. lia.
  - rewrite app_nil_r in Hq. exact (mk_is_Some _ _ Hq).
Qed.

Lemma total_first_valid key nearest : total (P := P) (E := E) (first_valid handler fuel srv key nearest).
Proof using HU Hfuel.
  intros w. destruct (crawl_start (Node_from_id (digest key)) nearest (srv_ksize srv) (srv_alpha srv)) as [Hok Hm].
  unfold first_valid, ValueSpiderCrawl.find_first_valid.
  destruct (search_terminates U call_find_value (λ w value, verified handler key value w) (λ _ _ _, reports_all _)
    (round_env (env w)) (λ n l, round_order (env w) n l) fuel false w _ ∅ false Hok Hm) as (w' & s' & r & Hs).
  cbn [value_crawl ValueSpiderCrawl.base ValueSpiderCrawl.new]. rewrite Hs. by eexists.
Qed.

#[local] Hint Resolve total_lookup_nodes total_find_value total_quorum total_first_valid : kad.

Lemma total_discover dkey : total (P := P) (E := E) (discover_publish_nodes fuel srv dkey).
Proof using HU Hfuel. unfold discover_publish_nodes. total_all. Qed.

#[local] Hint Resolve total_discover : kad.

Lemma total_get key : total (P := P) (E := E) (server_get handler fuel srv key).
Proof using HU Hfuel. unfold server_get. total_all. Qed.

Lemma total_set key value : total (P := P) (E := E) (set_detailed handler fuel srv key value).
Proof using HU Hfuel. unfold set_detailed, check_publish_state. total_all. Qed.

#[local] Hint Resolve total_get : kad.

Lemma total_update key value auth : total (P := P) (E := E) (server_update handler fuel srv key value auth).
Proof using HU Hfuel. unfold server_update, update_digest. total_all. Qed.

Lemma total_bootstrap addrs : total (P := P) (E := E) (bootstrap fuel srv addrs).
Proof using HU Hfuel. unfold bootstrap. total_all. Qed.

Lemma total_maintenance r : total (P := P) (E := E) (maintenance_turn fuel srv r).
Proof using HU Hfuel. unfold maintenance_turn. total_all. Qed.

Lemma total_run_lookups l : total (P := P) (E := E) (run_lookups fuel srv l).
Proof using HU Hfuel. induction l as [|[i ns] l IH]; simpl; total_all. Qed.

#[local] Hint Resolve total_run_lookups : kad.

Lemma total_refresh_buckets ids : total (P := P) (E := E) (refresh_buckets fuel srv ids).
Proof using HU Hfuel. unfold refresh_buckets. total_all. Qed.

Lemma total_republish entries : total (P := P) (E := E) (republish fuel srv entries).
Proof using HU Hfuel. induction entries as [|[key_vec value] entries IH]; simpl; total_all. Qed.

#[local] Hint Resolve total_refresh_buckets total_republish : kad.

Lemma total_refresh : total (P := P) (E := E) (refresh_turn fuel srv).
Proof using HU Hfuel. unfold refresh_turn. total_all. Qed.

End total.
