(* ===== verification/NetworkProps.v ===== *)
(** * SET, GET and UPDATE: what their results mean *)

From S2P Require Import Prelude Utils Node Routing Storage Fragmentation Messages Retransmit.
From S2P Require Import Crypto AuthHandler AuthProps Crawling CrawlProps SearchProps Effects Protocol Transport Client.
From S2P Require Import Handlers ProtocolProps HandlersProps Publish Network ApiProps NodeExample.

(** ** Reports *)

Definition tally (s : option StoreStatus) (ss : list (option StoreStatus)) : nat :=
  length (filter (λ x, x = s) ss).

Lemma tally_cons s x ss : tally s (x :: ss) = (if decide (x = s) then 1 else 0) + tally s ss.
Proof. unfold tally. rewrite filter_cons. by case_decide. Qed.

Lemma tally_pos s ss : 0 < tally s ss ↔ s ∈ ss.
Proof.
  unfold tally. split.
  - intros Hl. destruct (filter (λ x, x = s) ss) as [|x l] eqn:E; [simpl in Hl; lia|].
    assert (x ∈ filter (λ x, x = s) ss) as Hx by (rewrite E; by left).
    by apply list_elem_of_filter in Hx as [-> ?].
  - intros Hs. assert (s ∈ filter (λ x, x = s) ss) as Hx by (by apply list_elem_of_filter).
    destruct (filter (λ x, x = s) ss); [by apply not_elem_of_nil in Hx|simpl; lia].
Qed.

Lemma record_all e s a c u f i ss :
  foldl record_status (mkReport e s a c u f i) ss =
  mkReport e (s + tally (Some SStored) ss) (a + tally (Some SAlreadyStored) ss)
    (c + tally (Some SCapacityExceeded) ss) (u + tally None ss)
    (f + tally (Some SConflict) ss) (i + tally (Some SInvalidRecord) ss).
Proof.
  revert s a c u f i. induction ss as [|x ss IH]; intros; [simpl; f_equal; unfold tally; simpl; lia|].
  rewrite !tally_cons. destruct x as [[]|]; simpl; rewrite IH; repeat case_decide; simplify_eq; f_equal; lia.
Qed.

Lemma tally_total ss :
  length ss = tally (Some SStored) ss + tally (Some SAlreadyStored) ss + tally (Some SCapacityExceeded) ss +
    tally None ss + tally (Some SConflict) ss + tally (Some SInvalidRecord) ss.
Proof.
  induction ss as [|x ss IH]; [done|]. rewrite !tally_cons. simpl. rewrite IH.
  destruct x as [[]|]; repeat case_decide; simplify_eq; lia.
Qed.

Lemma holds_record_iff s : holds_record s = true ↔ s = Some SStored ∨ s = Some SAlreadyStored.
Proof. destruct s as [[]|]; simpl; naive_solver. Qed.

(** What an outcome says of the answers [ss] of the responsible replicas;
    [cut]: the node knows peers but reached none. The cases exclude each other
    ([outcome_means_unique]). *)
Definition outcome_means (ss : list (option StoreStatus)) (cut : bool) (o : SetOutcome) : Prop :=
  match o with
  | Complete _ => ss ≠ [] ∧ cut = false ∧ ∀ s, s ∈ ss → holds_record s = true
  | Degraded _ => (∃ s, s ∈ ss ∧ holds_record s = true) ∧
      (cut = true ∨ ∃ s, s ∈ ss ∧ holds_record s = false) ∧
      Some SConflict ∉ ss ∧ Some SInvalidRecord ∉ ss
  | Rejected ReplicaConflict _ => Some SConflict ∈ ss
  | Rejected InvalidRecord _ => Some SInvalidRecord ∈ ss ∧ Some SConflict ∉ ss
  | Rejected NoResponsibleNodes _ => ss = [] ∧ cut = false
  | Rejected RCapacityExceeded _ => Some SCapacityExceeded ∈ ss ∧
      Some SConflict ∉ ss ∧ Some SInvalidRecord ∉ ss ∧ ∀ s, s ∈ ss → holds_record s = false
  | Rejected Unavailable _ => (ss ≠ [] ∨ cut = true) ∧ ∀ s, s ∈ ss → s = None
  | Rejected ExistingRecord _ => False
  end.

(** What an outcome is, without its report. *)
Definition outcome_kind (o : SetOutcome) : bool * option SetRejection :=
  match o with Complete _ => (true, None) | Degraded _ => (false, None) | Rejected r _ => (false, Some r) end.

Lemma outcome_means_unique ss cut o o' :
  outcome_means ss cut o → outcome_means ss cut o' → outcome_kind o = outcome_kind o'.
Proof.
  destruct o as [r|r|[] r], o' as [r'|r'|[] r']; simpl; intros Ho Ho'; try done; exfalso; destruct_and?;
    repeat (destruct_or? || match goal with
    | H : ∃ _, _ |- _ => destruct H as (? & ? & ?)
    | H : ∀ s, s ∈ ?l → _, H' : _ ∈ ?l |- _ =>
        let T := type of (H _ H') in assert_fails (assert T by assumption); pose proof (H _ H')
    | H : ?l = [] |- _ => subst l
    | H : _ ∈ [] |- _ => by apply not_elem_of_nil in H
    | H : ?l ≠ [] |- _ => destruct l as [|s0 l]; [done|]; clear H; assert (s0 ∈ s0 :: l) by (by left)
    end); simpl in *; subst; simpl in *; congruence.
Qed.

(** The report of a publication counts the answers. *)
Definition report_counts (ss : list (option StoreStatus)) (cut : bool) (unresponsive : nat) (r : SetReport) : Prop :=
  r = mkReport (length ss + usize_from cut) (tally (Some SStored) ss) (tally (Some SAlreadyStored) ss)
        (tally (Some SCapacityExceeded) ss) ((unresponsive `max` usize_from cut) + tally None ss)
        (tally (Some SConflict) ss) (tally (Some SInvalidRecord) ss).

(** A status that is not there. *)
Lemma tally_zero s ss : tally s ss = 0 → s ∉ ss.
Proof. intros Hz Hs. apply tally_pos in Hs. lia. Qed.

Lemma classify_means ss cut u :
  outcome_means ss cut
    (classify_set_report (foldl record_status (mkReport (length ss + usize_from cut) 0 0 0 u 0 0) ss)).
Proof.
  rewrite record_all. unfold classify_set_report, acknowledged_replicas. simpl. pose proof (tally_total ss) as Ht.
  assert (∀ s, s ∈ ss → s ≠ None → s ≠ Some SStored → s ≠ Some SAlreadyStored →
    s = Some SCapacityExceeded ∨ s = Some SConflict ∨ s = Some SInvalidRecord) as Hother
    by (intros [[]|]; naive_solver).
  case_match eqn:Ec; bool_facts; [by apply tally_pos|].
  assert (Some SConflict ∉ ss) as Hnc by (apply tally_zero; lia).
  case_match eqn:Ei; bool_facts; [split; [by apply tally_pos|done]|].
  assert (Some SInvalidRecord ∉ ss) as Hni by (apply tally_zero; lia).
  case_match eqn:Ee; bool_facts.
  { destruct ss; [|simpl in Ee; lia]. destruct cut; [simpl in Ee; lia|done]. }
  case_match eqn:Ea; bool_facts.
  - destruct cut; simpl in *; [lia|]. split; [intros ->; simpl in *; lia|]. split; [done|]. intros s Hs.
    destruct (holds_record s) eqn:Hh; [done|]. exfalso. apply tally_pos in Hs.
    destruct s as [[]|]; try done; lia.
  - case_match eqn:Ek; bool_facts.
    + split; [|split; [|done]].
      * destruct (decide (0 < tally (Some SStored) ss)) as [Hp|].
        { exists (Some SStored). split; [by apply tally_pos|done]. }
        exists (Some SAlreadyStored). split; [apply tally_pos; lia|done].
      * destruct cut; [by left|right]. simpl in *. destruct (decide (0 < tally None ss)) as [Hp|].
        { exists None. split; [by apply tally_pos|done]. }
        exists (Some SCapacityExceeded). split; [apply tally_pos; lia|done].
    + assert (∀ s, s ∈ ss → holds_record s = false) as Hno.
      { intros s Hs. destruct (holds_record s) eqn:Hh; [|done].
        apply holds_record_iff in Hh as [->| ->]; apply tally_pos in Hs; lia. }
      case_match eqn:Ep; bool_facts; [split; [by apply tally_pos|done]|]. split.
      * destruct ss; [right|by left]. destruct cut; [done|]. simpl in *. lia.
      * intros s Hs. specialize (Hno s Hs). apply tally_pos in Hs. destruct s as [[]|]; try done; lia.
Qed.

Section publish.
Context {St C E : Type} `{Sha1, Sha256, Bincode, Ipv6Syntax, HashOrder}.
Context `{IStorage St, MokaCache C} (handler : SignatureVerifierHandler).
Abbreviation P := (KademliaProtocol St C).
Context `{Environment E P}.

(** The answers of a publication, in its own run from [w]: that of the local
    store, if it takes part, then that of a STORE to each remote node, each in
    the world of its turn. *)
Definition publish_answers (dkey : ident) (value : bytes) (store_local : bool) (remote : list Node)
    (w : World P E) : list (option StoreStatus) :=
  let here := storage_insert dkey value w in
  let store n := call_store_rpc n dkey value in
  (if store_local then [Some (store_status_from here.2)] else []) ++
  ((λ t, (store t.1 t.2).2) <$> turns store remote (if store_local then here.1 else w)).

Lemma length_publish_answers dkey value store_local remote w :
  length (publish_answers dkey value store_local remote w) = length remote + usize_from store_local.
Proof using.
  unfold publish_answers. rewrite length_app, length_fmap, <-(length_fmap fst), turns_items.
  destruct store_local; simpl; lia.
Qed.

Lemma store_on_result dkey value store_local remote report (w : World P E) :
  (store_on dkey value store_local remote report w).2 =
  classify_set_report (foldl record_status report (publish_answers dkey value store_local remote w)).
Proof using.
  unfold store_on, publish_answers. unfold mbind at 1, M_bind at 1.
  set (here := storage_insert dkey value w).
  set (w2 := if store_local then here.1 else w).
  set (local := if store_local then [Some (store_status_from here.2)] else []).
  assert ((if store_local then status ← storage_insert dkey value;
      mret (record_status report (Some (store_status_from status))) else mret report) w =
      (w2, foldl record_status report local)) as ->.
  { unfold w2, local, here. destruct store_local; [|done]. unfold mbind, M_bind.
    by destruct (storage_insert dkey value w). }
  rewrite (bind_ret_result (for_each _ _) (λ ss, classify_set_report (foldl record_status _ ss))).
  by rewrite for_each_turns, <-foldl_app.
Qed.

(** The world in which a publication looks whether it is cut off: the routing
    table is read, after an await, only when there is no remote node. *)
Definition cut_world (remote : list Node) (w : World P E) : World P E :=
  match remote with [] => (pause w).1 | _ => w end.

(** The node reached no remote node, although it knows contacts or seeds. *)
Definition is_cut_off (remote : list Node) (p : P) : bool :=
  match remote with
  | [] => RoutingTable.has_contacts (router_of p) || negb (bool_decide (seeds p = []))
  | _ => false
  end.

(** C21: the outcome of a publication is decided by the answers of the
    responsible nodes of the key in this run, one per node: that of the local
    store if the node is one of them, and of the STORE sent to each of the
    others. A conflict takes precedence over an invalid record, and both over
    everything else; without them the outcome is NoResponsibleNodes exactly if
    there is nobody, Complete exactly if every one of them holds the record and
    the node is not cut off (it has no remote node but knows contacts or seeds),
    Degraded if some hold it, and otherwise CapacityExceeded if one of them was
    full and Unavailable if nobody answered. The report counts these answers. *)
Theorem set_outcome_meaning (srv : Server) (dkey : ident) (value : bytes) (lookup : LookupNodes)
    (w : World P E) (Hlisten : listening srv = true) :
  let '(store_local, remote) :=
    select_responsible_nodes (srv_node srv) (Node_from_id dkey) (nodes lookup) (srv_ksize srv) in
  let w1 := cut_world remote w in
  let cut := is_cut_off remote (proto w1) in
  let answers := publish_answers dkey value store_local remote w1 in
  let o := (set_digest_detailed srv dkey value lookup w).2 in
  length answers = length remote + usize_from store_local ∧
  outcome_means answers cut o ∧ (∀ o', outcome_means answers cut o' → outcome_kind o' = outcome_kind o) ∧
  report_counts answers cut (unresponsive lookup) (report o).
Proof.
  destruct (select_responsible_nodes _ _ _ _) as [store_local remote] eqn:Hsel. cbv zeta.
  set (answers := publish_answers _ _ _ _ _). set (cut := is_cut_off _ _). set (o := (set_digest_detailed _ _ _ _ _).2).
  pose proof (length_publish_answers dkey value store_local remote (cut_world remote w)) as Hlen. fold answers in Hlen.
  assert (o = classify_set_report (foldl record_status
    (mkReport (length answers + usize_from cut) 0 0 0 (unresponsive lookup `max` usize_from cut) 0 0) answers)) as Ho.
  { unfold o, answers, cut. rewrite length_publish_answers. unfold set_digest_detailed. rewrite Hlisten, Hsel. cbn [negb].
    destruct remote as [|n remote]; cbn [bool_decide]; unfold mbind at 1, M_bind at 1.
    - rewrite bool_decide_eq_true_2 by done. unfold read_router, cut_world, mbind, M_bind.
      destruct (pause w) as [w1 []]. cbn [gets is_cut_off fst]. apply store_on_result.
    - rewrite bool_decide_eq_false_2 by done. apply store_on_result. }
  assert (outcome_means answers cut o) as Hm by (rewrite Ho; apply classify_means).
  split; [done|]. split; [done|]. split; [intros o' Ho'; by eapply outcome_means_unique|].
  rewrite Ho, record_all. unfold report_counts, classify_set_report. by repeat case_match.
Qed.

End publish.

(** ** GET *)

(** C8: GET only returns a record that was verified for the key asked for: local,
    first valid or agreed by a quorum, a value that [get] returns belongs to the
    key and had its signature checked (through the cache: the signature of bytes
    with the same SHA-256). *)
Theorem get_returns_verified {St C E : Type} `{Sha1, Sha256, Bincode, Ipv6Syntax, HashOrder}
    `{IStorageLaws St, MokaCacheLaws C} (handler : SignatureVerifierHandler) `{!SignatureVerifierLaws handler}
    `{Environment E (KademliaProtocol St C), LookupSchedule E} (fuel : nat) (srv : Server) (key x : bytes)
    (w w' : World (KademliaProtocol St C) E)
    (Hothers : stable (of_records (authentic_records handler)))
    (Hw : of_records (authentic_records handler) w)
    (Hget : server_get handler fuel srv key w = Some (w', Some x)) :
  vouched handler (digest key) x.
Proof.
  pose proof (authentic_guarded handler Hothers) as HG.
  destruct (fk_get handler _ (framed_records _ Hothers) _ _ HG fuel srv key w w' (Some x) Hw Hget) as [Hv _].
  by apply Hv.
Qed.

(** ** UPDATE *)

Section update.
Context {St C E : Type} `{Sha1, Sha256, Bincode, Ipv6Syntax, HashOrder}.
Context `{IStorageLaws St, MokaCache C} (handler : SignatureVerifierHandler).
Abbreviation P := (KademliaProtocol St C).
Context `{Environment E P, LookupSchedule E}.

(** The messages by which a replica acknowledges an update sent to it in the
    world [w]: it applied the rotation, or it refused it and then took the
    record through a STORE; for the status list, it applied the update. *)
Definition acknowledges (is_status_list : bool) (dkey : ident) (value auth : bytes) (n : Node)
    (w : World P E) : Prop :=
  ∃ addr, socket_addr_of n = Some addr ∧
    let me w := id (source_node (proto w)) in
    if is_status_list
    then (call addr (UpdateStatusList (me w) dkey value) w).2 = Some (UpdateStatusListResult true)
    else
      let w1 := (call_update_rpc_answer n dkey value auth w).1 in
      (call addr (Update (me w) dkey value auth) w).2 = Some (UpdateResult true) ∨
      (call addr (Update (me w) dkey value auth) w).2 = Some (UpdateResult false) ∧
      ∃ status, (call addr (Store (me w1) dkey value) w1).2 = Some (StoreResult status) ∧
        holds_record (Some status) = true.

(** The answer of a method that calls [n] in [w] and notes whether it answered. *)
Ltac answer_iff n w :=
  destruct (socket_addr_of n) as [addr|]; [|split; [done|by intros (? & ? & _)]];
  unfold source_id, mbind, M_bind, gets;
  split; [intros Hr; exists addr; split; [done|]; revert Hr|intros (? & [= <-] & Hr); revert Hr];
  destruct (call addr _ w) as [w1 r]; cbn [snd]; destruct r as [[]|];
  try (by destruct (note_failure n w1)); destruct (note_alive n w1); simpl; congruence.

Lemma update_answer_iff n dkey value auth ok (w : World P E) :
  (call_update_rpc_answer n dkey value auth w).2 = Some ok ↔
  ∃ addr, socket_addr_of n = Some addr ∧
    (call addr (Update (id (source_node (proto w))) dkey value auth) w).2 = Some (UpdateResult ok).
Proof using.
  unfold call_update_rpc_answer. answer_iff n w.
Qed.

Lemma status_answer_iff n dkey value (w : World P E) :
  (call_status_list_update_rpc n dkey value w).2 = true ↔
  ∃ addr, socket_addr_of n = Some addr ∧
    (call addr (UpdateStatusList (id (source_node (proto w))) dkey value) w).2 = Some (UpdateStatusListResult true).
Proof using.
  unfold call_status_list_update_rpc. answer_iff n w.
Qed.

Lemma store_answer_iff n dkey value status (w : World P E) :
  (call_store_rpc n dkey value w).2 = Some status ↔
  ∃ addr, socket_addr_of n = Some addr ∧
    (call addr (Store (id (source_node (proto w))) dkey value) w).2 = Some (StoreResult status).
Proof using.
  unfold call_store_rpc. answer_iff n w.
Qed.

Lemma update_replica_iff is_status_list dkey value auth n (w : World P E) :
  (update_replica is_status_list dkey value auth n w).2 = true ↔
  acknowledges is_status_list dkey value auth n w.
Proof using.
  unfold acknowledges, update_replica. destruct is_status_list; [apply status_answer_iff|].
  pose proof (update_answer_iff n dkey value auth) as Hup. unfold mbind, M_bind.
  destruct (call_update_rpc_answer n dkey value auth w) as [w1 ans] eqn:Hc.
  pose proof (Hup true w) as Ht. pose proof (Hup false w) as Hf. rewrite Hc in Ht, Hf. cbn [fst snd] in *.
  destruct ans as [[]|].
  - cbn [snd mret M_ret]. naive_solver.
  - rewrite fmap_result. pose proof (store_answer_iff n dkey value) as Hs.
    destruct (proj1 Hf eq_refl) as (addr & Ha & Hans). split.
    + intros Hh. destruct ((call_store_rpc n dkey value w1).2) as [status|] eqn:Est; [|done].
      apply Hs in Est as (addr' & Ha' & Hst). exists addr'. split; [done|]. right.
      simplify_eq. eauto.
    + intros (addr' & Ha' & [?|(_ & status & Hst & Hh)]); simplify_eq.
      rewrite (proj2 (Hs status w1)); eauto.
  - split; [done|]. naive_solver.
Qed.

(** What the write phase of an update from [w] did, which ended in [w'] with
    the result [r]: [turns] are the requests sent to the remote replicas, each
    in its own world, and [acks] the acknowledgements of the consistency group,
    the local replica and the first of the others, [alpha] in all. *)
Definition update_means (fuel : nat) (srv : Server) (key : bytes) (dkey : ident) (value : bytes)
    (auth : option bytes) (w w' : World P E) (r : bool) : Prop :=
  let '(w1, nearest) := find_neighbors (Node_from_id dkey) None w in
  if bool_decide (nearest = []) then r = false ∧ w' = w1
  else ∃ w2 lookup, lookup_nodes fuel srv (Node_from_id dkey) nearest w1 = Some (w2, lookup) ∧
    let '(local, remote) :=
      select_responsible_nodes (srv_node srv) (Node_from_id dkey) (nodes lookup) (srv_ksize srv) in
    let is_status_list := bool_decide (key = STATUS_LIST_KEY) in
    let replica := update_replica is_status_list dkey value (default [] auth) in
    let w3 := (for_each replica remote w2).1 in
    ∃ acks, Forall2 (λ t b, b = true ↔ acknowledges is_status_list dkey value (default [] auth) t.1 t.2)
        (take (srv_alpha srv - usize_from local) (turns replica remote w2)) acks ∧
      (r = true ↔ usize_from local + length acks < 2 * (usize_from local + length (filter (λ b, b = true) acks)) ∧
         (local = true → (storage_set dkey value w3).2 ≠ CapacityExceeded)) ∧
      (r = true → if local : bool
         then w' = (storage_set dkey value w3).1 ∧
              get (instant (env w')) (storage (proto w')) (ident_bytes dkey) = Some value
         else w' = w3) ∧
      (r = false → w' = w3).

Lemma storage_set_result dkey value (w : World P E) :
  if decide ((storage_set dkey value w).2 = CapacityExceeded) then (storage_set dkey value w).1 = w
  else get (instant (env (storage_set dkey value w).1)) (storage (proto (storage_set dkey value w).1))
         (ident_bytes dkey) = Some value.
Proof using H5.
  destruct w as [p e]. unfold storage_set, mbind, M_bind, asks, update. cbn [env proto].
  pose proof (law_set (instant e) (storage p) (ident_bytes dkey) value) as Hl.
  destruct (set (instant e) (storage p) (ident_bytes dkey) value) as [s st]. cbn [fst snd proto env].
  case_decide as Hc; [subst st|].
  - rewrite Hl. by destruct p.
  - unfold get. rewrite law_get. assert (live (instant e) s = <[ident_bytes dkey := value]> (live (instant e) (storage p))) as Hs
      by (by destruct st).
    change (storage (with_storage s p)) with s. by rewrite Hs, lookup_insert_eq.
Qed.

Lemma finish_update_means srv dkey value (local : bool) results (w : World P E) :
  let acks := take (srv_alpha srv - usize_from local) results in
  let '(w', r) := finish_update srv dkey value local results w in
  (r = true ↔ usize_from local + length acks < 2 * (usize_from local + length (filter (λ b, b = true) acks)) ∧
     (local = true → (storage_set dkey value w).2 ≠ CapacityExceeded)) ∧
  (r = true → if local : bool
     then w' = (storage_set dkey value w).1 ∧
          get (instant (env w')) (storage (proto w')) (ident_bytes dkey) = Some value
     else w' = w) ∧
  (r = false → w' = w).
Proof using H5.
  intros acks. unfold finish_update, update_quorum.
  assert (take ((srv_alpha srv - usize_from local) `min` length results) results = acks) as ->.
  { unfold acks. destruct (decide (srv_alpha srv - usize_from local ≤ length results)).
    - by rewrite Nat.min_l. - rewrite Nat.min_r, !take_ge by lia. done. }
  assert ((srv_alpha srv - usize_from local) `min` length results = length acks) as ->
    by (unfold acks; by rewrite length_take).
  set (n := usize_from local + length acks). set (y := usize_from local + length (filter (λ b, b = true) acks)).
  assert (y ≤ n) as Hle by (unfold y, n; apply Nat.add_le_mono_l, length_filter).
  pose proof (Nat.div_mod n 2 ltac:(lia)) as Hd. pose proof (Nat.mod_upper_bound n 2 ltac:(lia)) as Hm.
  destruct (n =? 0) eqn:Hz; bool_facts; [split; [|done]; split; [done|]; intros [? _]; lia|].
  destruct (n `div` 2 + 1 <=? y) eqn:Hq; bool_facts.
  2:{ split; [|done]. split; [done|]. intros [? _]. lia. }
  assert (n < 2 * y) as Hmaj by lia. destruct local; cbn [negb]; [|by split].
  pose proof (storage_set_result dkey value w) as Hset. unfold mbind, M_bind.
  destruct (storage_set dkey value w) as [w' st]. cbn [fst snd mret M_ret] in *.
  case_bool_decide; case_decide; try done; cbn [negb]; naive_solver.
Qed.

Lemma update_digest_means fuel srv key dkey value auth (w w' : World P E) r :
  listening srv = true → update_digest fuel srv key dkey value auth w = Some (w', r) →
  update_means fuel srv key dkey value auth w w' r.
Proof using H5.
  intros Hl. unfold update_digest, update_means. rewrite Hl. cbn [negb]. unfold mbind at 1, F_bind at 1, lift at 1.
  destruct (find_neighbors (Node_from_id dkey) None w) as [w1 nearest].
  case_bool_decide; [by intros [= <- <-]|]. unfold mbind at 1, F_bind at 1.
  destruct (lookup_nodes fuel srv (Node_from_id dkey) nearest w1) as [[w2 lookup]|] eqn:Hlook; [|done].
  intros Hrest. exists w2, lookup. split; [done|]. revert Hrest.
  destruct (select_responsible_nodes _ _ _ _) as [local remote]. cbv zeta.
  set (is_status := bool_decide (key = STATUS_LIST_KEY)).
  set (replica := update_replica is_status dkey value (default [] auth)).
  unfold mbind, F_bind, lift. pose proof (for_each_turns replica remote w2) as Hres.
  destruct (for_each replica remote w2) as [w3 results]. cbn [fst snd] in *. intros [= Hf].
  pose proof (finish_update_means srv dkey value local results w3) as Hfin. rewrite Hf in Hfin.
  eexists. split; [|exact Hfin]. subst results. rewrite <-fmap_take. apply Forall2_fmap_r, Forall_Forall2_diag.
  apply Forall_true. intros t. apply update_replica_iff.
Qed.

End update.

(** C23: an update that was authorized is committed exactly on a majority of its
    consistency group, the local replica, if it is one of the responsible nodes
    of the key, and the closest remote ones, [alpha] in all: [update] returns
    true if and only if more than half of the group acknowledged in this run
    (a remote replica by answering that it applied the update, or that it
    refused it and then that it holds the record sent as a STORE) and the local
    store, if it takes part, had room. Then the local replica serves the new
    record; otherwise the update does not touch the local store. *)
Theorem update_commits_on_majority {St C E : Type} `{Sha1, Sha256, Bincode, Ipv6Syntax, HashOrder}
    `{IStorageLaws St, MokaCache C} (handler : SignatureVerifierHandler)
    `{Environment E (KademliaProtocol St C), LookupSchedule E} (fuel : nat) (srv : Server)
    (key value : bytes) (auth : option bytes) (w w' : World (KademliaProtocol St C) E) (r : bool)
    (Hlisten : listening srv = true)
    (Hupdate : server_update handler fuel srv key value auth w = Some (w', Some r)) :
  ∃ w1 old w2, server_get handler fuel srv key w = Some (w1, Some old) ∧
    update_authorized handler key old value auth w1 = (w2, true) ∧
    update_means fuel srv key (digest key) value auth w2 w' r.
Proof.
  revert Hupdate. unfold server_update, mbind at 1, F_bind at 1.
  destruct (server_get handler fuel srv key w) as [[w1 [old|]]|]; [|done|done].
  unfold mbind at 1, F_bind at 1, lift.
  destruct (update_authorized handler key old value auth w1) as [w2 []] eqn:Hauth; [|done]. cbn [negb].
  unfold mbind, F_bind. destruct (update_digest _ _ _ _ _ _ w2) as [[w3 r']|] eqn:Hd; [|done].
  intros [= <- <-]. exists w1, old, w2. split; [done|]. split; [done|]. by apply update_digest_means.
Qed.

(** ** Everything ends *)

(** C11: every public operation ends, whatever the peers answer: there is a number
    of lookup rounds that no SET, GET, UPDATE, bootstrap, or turn of the
    maintenance and refresh loops exceeds, from any state of the node and with
    any peers, since a lookup asks each identifier once. *)
Theorem operations_end {St C E : Type} `{Sha1, Sha256, Bincode, Ipv6Syntax, HashOrder}
    `{IStorage St, MokaCache C} (handler : SignatureVerifierHandler)
    `{Environment E (KademliaProtocol St C), LookupSchedule E} :
  ∃ rounds, ∀ fuel srv (w : World (KademliaProtocol St C) E), rounds ≤ fuel →
    (∀ key value, is_Some (set_detailed handler fuel srv key value w)) ∧
    (∀ key, is_Some (server_get handler fuel srv key w)) ∧
    (∀ key value auth, is_Some (server_update handler fuel srv key value auth w)) ∧
    (∀ addrs, is_Some (bootstrap fuel srv addrs w)) ∧
    (∀ r, is_Some (maintenance_turn fuel srv r w)) ∧
    is_Some (refresh_turn fuel srv w).
Proof.
  destruct finitely_many_ids as [U HU]. exists (2 * size U + 2). intros fuel srv w Hf.
  assert (2 * size U + 1 < fuel) as Hfuel by lia.
  split; [|split; [|split; [|split; [|split]]]]; intros.
  - by eapply total_set.
  - by eapply total_get.
  - by eapply total_update.
  - by eapply total_bootstrap.
  - by eapply total_maintenance.
  - by eapply total_refresh.
Qed.

(** ** Witnesses: a node with one peer *)

Module NetworkWitness.
Import NodeExample HandlersWitness.

Definition ex_server : Server := mkServer 2 1 (Node_from_id me) true.
Definition ex_lookup : LookupNodes := mkLookup [peer_node] 0.

(** The peer and the node itself are responsible and both store the record. *)
Lemma set_outcome_meaning_witness :
  (set_digest_detailed ex_server did_key did_record ex_lookup world).2 = Complete (mkReport 2 2 0 0 0 0 0) ∧
  let answers := publish_answers did_key did_record true [peer_node] world in
  let o := (set_digest_detailed ex_server did_key did_record ex_lookup world).2 in
  length answers = 2 ∧ outcome_means answers false o ∧
  (∀ o', outcome_means answers false o' → outcome_kind o' = outcome_kind o) ∧
  report_counts answers false 0 (report o).
Proof.
  split; [vm_compute; reflexivity|].
  exact (set_outcome_meaning ex_server did_key did_record ex_lookup world eq_refl).
Defined.

(** A record in the local store. *)
Definition ex_key : bytes := [x01; x02; x03].
Definition ex_record : bytes := [x03; x07].
Definition ex_world : World ExP Z := (storage_insert (digest ex_key) ex_record (mkW start 0%Z)).1.

Lemma ex_world_authentic : of_records (authentic_records ex_handler) ex_world.
Proof.
  apply storage_insert_authentic; [|exact ex_authentic_start].
  apply vouched_signed; vm_compute; reflexivity.
Qed.

Lemma get_returns_verified_witness :
  (snd <$> server_get ex_handler 0 ex_server ex_key ex_world) = Some (Some ex_record) ∧
  vouched ex_handler (digest ex_key) ex_record.
Proof.
  assert ((snd <$> server_get ex_handler 0 ex_server ex_key ex_world) = Some (Some ex_record)) as E
    by (vm_compute; reflexivity).
  split; [exact E|]. apply fmap_Some in E as ([w' r] & Hg & Hr). cbn [snd] in Hr. subst r.
  apply (get_returns_verified ex_handler 0 ex_server ex_key ex_record ex_world w').
  - exact ex_authentic_stable.
  - exact ex_world_authentic.
  - exact Hg.
Defined.

(** A retry of an update that the local replica already has: the consistency
    group is the local replica and the peer, which acknowledges. *)
Definition ex_update_server : Server := mkServer 2 3 (Node_from_id me) true.
Definition ex_update_world : World ExP Z := (storage_insert (digest ex_key) ex_record world).1.
Definition ex_update_result : option (World ExP Z * option bool) :=
  server_update ex_handler 400 ex_update_server ex_key ex_record None ex_update_world.

Lemma update_commits_on_majority_witness :
  ∃ w', ex_update_result = Some (w', Some true) ∧
  ∃ w1 old w2, server_get ex_handler 400 ex_update_server ex_key ex_update_world = Some (w1, Some old) ∧
    update_authorized ex_handler ex_key old ex_record None w1 = (w2, true) ∧
    update_means 400 ex_update_server ex_key (digest ex_key) ex_record None w2 w' true.
Proof.
  assert (snd <$> ex_update_result = Some (Some true)) as E by (vm_compute; reflexivity).
  apply fmap_Some in E as ([w' r] & Hg & Hr). cbn [snd] in Hr. subst r. exists w'. split; [exact Hg|].
  apply (update_commits_on_majority ex_handler 400 ex_update_server ex_key ex_record None ex_update_world w' true).
  - reflexivity.
  - exact Hg.
Defined.

End NetworkWitness.
