(* ===== verification/NodeProps.v ===== *)
(** * The life of a node

    Everything a node does, in any order: datagrams, spawned tasks, the calls of
    its application, the background loops, stop and restart. *)

From S2P Require Import Prelude Utils Node Routing BucketProps RoutingProps Storage StorageProps.
From S2P Require Import Fragmentation FragmentationProps Messages Retransmit Crypto AuthHandler AuthProps.
From S2P Require Import Crawling CrawlProps SearchProps Effects Protocol Transport Client Handlers NodeExample.
From S2P Require Import ProtocolProps HandlersProps Publish Network ApiProps.

(** ** Events *)

Inductive Event :=
  | Tasks (a : Activity)
  | DoListen (bound : bool) (workers : nat)
  | DoSet (key value : bytes)
  | DoGet (key : bytes)
  | DoUpdate (key value : bytes) (auth_signature : option bytes)
  | DoBootstrap (addrs : list (string * Z))
  | DoMaintenance (r : Rejoin)
  | DoRefresh
  | DoStatsLog
  | DoSaveState
  | DoStop.

Section events.
Context {C E : Type} `{Sha1, Sha256, Bincode, Ipv6Syntax, HashOrder, MokaCache C}.
Context (handler : SignatureVerifierHandler).
Abbreviation St := ForgetfulStorage.t.
Abbreviation P := (KademliaProtocol St C).
Context `{Environment E P, LookupSchedule E}.
Context (fuel : nat).

(** The server after an event, and the result left aside. *)
Definition run_event (srv : Server) (ev : Event) : F P E Server :=
  match ev with
  | Tasks a => lift (act handler a) ;; mret srv
  | DoListen bound workers => lift (listen srv bound workers)
  | DoSet key value => set_detailed handler fuel srv key value ;; mret srv
  | DoGet key => server_get handler fuel srv key ;; mret srv
  | DoUpdate key value auth => server_update handler fuel srv key value auth ;; mret srv
  | DoBootstrap addrs => bootstrap fuel srv addrs ;; mret srv
  | DoMaintenance r => maintenance_turn fuel srv r ;; mret srv
  | DoRefresh => refresh_turn fuel srv ;; mret srv
  | DoStatsLog => lift stats_turn ;; mret srv
  | DoSaveState => lift (save_state srv) ;; mret srv
  | DoStop => lift (stop srv)
  end.

Fixpoint run_events (srv : Server) (evs : list Event) : F P E Server :=
  match evs with
  | [] => mret srv
  | ev :: evs' => srv' ← run_event srv ev; run_events srv' evs'
  end.

(** Updates of the Status List are the issuer's. *)
Definition event_ok (ev : Event) : Prop :=
  match ev with DoUpdate key _ auth => update_ok key auth | _ => True end.

(** What an invariant has to survive besides requests: a restart, and pruning. *)
Record living (I : World P E → Prop) : Prop := {
  lv_listen srv workers now unix p e :
    I (mkW p e) → I (mkW (listen_protocol srv now unix (storage p) (sig_cache p) workers) e);
  lv_prune : keeps I prune
}.

Section keeps.
Context (I : World P E → Prop) (V : ident → bytes → Prop).
Context (HF : framed I) (HG : guarded handler I V (λ _, True)) (HL : living I).

Lemma ev_keeps srv ev : event_ok ev ∨ (∀ k v, V k v) → fkeeps I (run_event srv ev).
Proof using HF HG HL.
  intros Hok. assert (∀ {A} (m : F P E A), fkeeps I m → fkeeps I (m ;; mret srv)) as Hseq.
  { intros A m Hm. apply fkeeps_bind; [done|]. intros ?. apply fkeeps_ret. }
  destruct ev; simpl; try apply Hseq.
  - apply fkeeps_lift. eapply rq_act; [done|by eapply guarded_safe|done|]. by destruct a.
  - apply fkeeps_lift. unfold listen. keeps_all. intros [p e] Hw. by apply (lv_listen I HL).
  - by eapply fk_set.
  - intros w w' r Hw Hg. by eapply (fk_get handler I HF V _ HG) in Hg as [_ ?].
  - by eapply fk_update.
  - by apply fk_bootstrap.
  - by apply fk_maintenance.
  - by apply fk_refresh.
  - apply fkeeps_lift. unfold stats_turn. keeps_all. apply (lv_prune I HL).
  - apply fkeeps_lift. unfold save_state, bootstrappable_neighbors. keeps_all.
  - apply fkeeps_lift. by apply kp_stop.
Qed.

Lemma evs_keep srv evs : Forall event_ok evs ∨ (∀ k v, V k v) → fkeeps I (run_events srv evs).
Proof using HF HG HL.
  revert srv. induction evs as [|ev evs IH]; intros srv Hok; simpl; [apply fkeeps_ret|].
  apply fkeeps_bind.
  - apply ev_keeps. destruct Hok as [Hok|]; [left; by inversion Hok|by right].
  - intros srv'. apply IH. destruct Hok as [Hok|]; [left; by inversion Hok|by right].
Qed.

End keeps.

Lemma total_event (U : gset ident) srv ev : (∀ i, i ∈ U) → 2 * size U + 1 < fuel → total (run_event srv ev).
Proof using.
  intros HU Hf. destruct ev; simpl; try (apply total_bind; [|intros; apply total_ret]); try apply total_lift;
    [by eapply total_set|by eapply total_get|by eapply total_update|by eapply total_bootstrap
    |by eapply total_maintenance|by eapply total_refresh].
Qed.

Lemma total_events (U : gset ident) srv evs : (∀ i, i ∈ U) → 2 * size U + 1 < fuel → total (run_events srv evs).
Proof using.
  intros HU Hf. revert srv. induction evs as [|ev evs IH]; intros srv; simpl; [apply total_ret|].
  apply total_bind; [by eapply total_event|done].
Qed.

End events.

Lemma spawn_all_same {St C} (ts : list Task) (q : KademliaProtocol St C) :
  let q' := foldl (λ p t, (spawn_task t p).1) q ts in
  transport q' = transport q ∧ storage q' = storage q ∧ sig_cache q' = sig_cache q ∧ contacts q' = contacts q.
Proof.
  revert q. induction ts as [|t ts IH]; intros q; [done|]. simpl.
  destruct (IH (spawn_task t q).1) as (-> & -> & -> & ->). unfold spawn_task. by destruct (tasks q).
Qed.

(** ** Bounds *)

Section bounds.
Context {C E : Type} `{Sha1, Sha256, Bincode, Ipv6Syntax, HashOrder, MokaCache C}.
Context (handler : SignatureVerifierHandler).
Abbreviation St := ForgetfulStorage.t.
Abbreviation P := (KademliaProtocol St C).
Context `{Environment E P, LookupSchedule E}.

(** The transport of a node within its limits. *)
Record transport_bounded (t : Transport) : Prop := {
  tb_buffers : buffers_ok (reassembly (reassembler t));
  tb_round_trips : size (RoundTrips.peers (round_trips t)) ≤ RoundTrips.capacity (round_trips t);
  tb_capacity : RoundTrips.capacity (round_trips t) = MAX_PEERS
}.

(** A node within its limits. *)
Record bounded (p : P) : Prop := {
  bd_table : RoutingProps.wf (router_of p);
  bd_storage : accounted (storage p);
  bd_transport : transport_bounded (transport p)
}.

Lemma record_capacity now r peer sample :
  RoundTrips.capacity (RoundTrips.record now r peer sample) = RoundTrips.capacity r.
Proof using. unfold RoundTrips.record. by repeat case_match. Qed.

Lemma record_size now r peer sample :
  size (RoundTrips.peers r) ≤ RoundTrips.capacity r →
  size (RoundTrips.peers (RoundTrips.record now r peer sample)) ≤ RoundTrips.capacity r.
Proof using.
  intros Hc. unfold RoundTrips.record. destruct (RoundTrips.peers r !! peer) as [rt|] eqn:Hp; simpl.
  { by rewrite map_size_insert_Some. }
  set (kept := filter _ _). assert (kept !! peer = None) as Hk by (apply map_lookup_filter_None; by left).
  assert (size kept ≤ size (RoundTrips.peers r)) by apply map_subseteq_size, map_filter_subseteq.
  repeat case_match; bool_facts; simpl; rewrite ?map_size_insert_None by done; lia.
Qed.

Lemma transport_bounded_step t t' : transport_step t t' → transport_bounded t → transport_bounded t'.
Proof using.
  intros Hs [Hb Hr Hc]. destruct Hs; try (by split).
  - unfold poll_answer. by repeat case_match.
  - unfold poll_receipt. by repeat case_match.
  - split; simpl; rewrite ?record_capacity; try done. by apply record_size.
  - split; simpl; try done. by apply buffers_ok_receive.
  - unfold note_receipt. by repeat case_match.
  - unfold take_pending. by repeat case_match.
Qed.

Lemma transport_bounded_new now : transport_bounded (mkTransport ∅ ∅ ∅ 0 RoundTrips.default_ ∅ 0 0 0 (mkR ∅ now)).
Proof using. split; simpl; [apply buffers_ok_empty|apply Nat.le_0_l|done]. Qed.

Lemma bounded_new now unix node s k a cache :
  accounted s → bounded (Protocol.new now unix node s k a cache).
Proof using.
  intros Hs. split; simpl; [apply table_wf_new|done|apply transport_bounded_new].
Qed.

Abbreviation I := (λ w : World P E, bounded (proto w)).

Lemma bounded_framed : stable I → framed I.
Proof using.
  intros HI. split; [done|..]; simpl.
  - intros p p' e [Ht Hs Hc [ops Hr]] [Hwf Ha Hb]. split; rewrite ?Ht, ?Hs; try done.
    destruct (table_wf_run _ ops Hwf) as (rt & Hrun & Hwf'). congruence.
  - intros p e t Hs [Hwf Ha Hb]. split; try done. by eapply transport_bounded_step.
Qed.

Lemma bounded_storage p s : bounded p → accounted s → bounded (with_storage s p).
Proof using. intros [Hwf Ha Hb] Hs. by split. Qed.

Lemma bounded_guarded : stable I → guarded handler I (λ _ _, True) (λ _, True).
Proof using.
  intros HI. pose proof (bounded_framed HI) as HF. split; try done.
  - intros key value _ [p e] Hw. unfold storage_set, update, asks, mbind, M_bind. simpl in *.
    pose proof (accounted_set (instant e) (storage p) (ident_bytes key) value (bd_storage _ Hw)) as Hs.
    destruct (ForgetfulStorage.fs_set _ _ _ _) as [s st]. by apply bounded_storage.
  - intros key value _ [p e] Hw. unfold storage_insert, update, asks, mbind, M_bind. simpl in *.
    pose proof (accounted_insert (instant e) (storage p) (ident_bytes key) value (bd_storage _ Hw)) as Hs.
    destruct (ForgetfulStorage.fs_insert_if_absent _ _ _ _) as [s st]. by apply bounded_storage.
  - intros key value. assert (keeps I (verify_for_key handler key value)) as Hk.
    { unfold verify_for_key. keeps_all. intros [p e] Hw. unfold update. simpl.
      destruct (verify_record _ _ _ _ _) as [b c]. destruct Hw. by split. }
    intros w Hw. split; [done|by apply Hk].
  - intros f peer _. apply response_framed; [done|].
    intros ch m [p e] [Hwf Ha [Hb Hr Hc]]. by split.
Qed.

Lemma bounded_ext (q q' : P) :
  transport q' = transport q → storage q' = storage q → contacts q' = contacts q → bounded q → bounded q'.
Proof using.
  intros Ht Hs Hc [Hwf Ha Hb]. unfold router_of in *.
  split; unfold router_of; congruence.
Qed.

Lemma bounded_living : living I.
Proof using.
  split.
  - intros srv workers now unix p e [Hwf Ha Hb]. simpl. unfold listen_protocol.
    match goal with |- bounded (foldl _ ?q ?ts) => destruct (spawn_all_same ts q) as (Ht & Hs & _ & Hc) end.
    eapply bounded_ext; [exact Ht|exact Hs|exact Hc|].
    destruct (bounded_new now unix (srv_node srv) (storage p) (srv_ksize srv) (srv_alpha srv) (sig_cache p) Ha).
    split; try done. by apply wf_set_min_lookup_contacts.
  - intros [p e] Hw. unfold prune, update, asks, mbind, M_bind. simpl in *.
    pose proof (accounted_prune (instant e) (storage p) (bd_storage _ Hw)) as Hs.
    destruct (ForgetfulStorage.prune_expired _ _) as [s n]. by apply bounded_storage.
Qed.

End bounds.

(** ** Authentic records *)

Section authentic.
Context {C E : Type} `{Sha1, Sha256, Bincode, Ipv6Syntax, HashOrder, MokaCache C}.
Context (handler : SignatureVerifierHandler).
Abbreviation P := (KademliaProtocol ForgetfulStorage.t C).
Context `{Environment E P, LookupSchedule E}.

Lemma authentic_living : living (of_records (authentic_records (C := C) (E := E) handler)).
Proof using.
  split; unfold of_records.
  - intros srv workers now unix p e Hw. simpl in *. unfold listen_protocol.
    match goal with |- context [foldl _ ?q ?ts] => destruct (spawn_all_same ts q) as (_ & -> & -> & _) end.
    done.
  - intros [p e] [Hr Hc]. unfold prune, update, asks, mbind, M_bind. simpl in *.
    pose proof (prune_expired_spec (instant e) (instant e) (storage p) ltac:(done)) as Hp.
    destruct (ForgetfulStorage.prune_expired _ _) as [s n]. destruct Hp as [Hp _]. split; [|done].
    simpl in *. intros key value Hl. apply Hr. by rewrite <-Hp.
Qed.

End authentic.

(** ** Theorems *)

(** C1: a node never serves an unverified record. Over any life of a node, its
    datagrams, tasks, SETs, GETs, UPDATEs, bootstraps, background loops, stops and
    restarts in any order, interleaved in any way with other tasks that respect
    it, every operation ends and every record the node serves belongs to its
    key and had its signature checked, as the issuer's for the Status List and as
    its own for a DID (through the cache: the signature of bytes with the same
    SHA-256), and the cache holds nothing but verdicts. Updates of the Status List
    are those its issuer signs, without an authorization of their own. *)
Theorem records_stay_authentic {C E : Type} `{Sha1, Sha256, Bincode, Ipv6Syntax, HashOrder, MokaCacheLaws C}
    (handler : SignatureVerifierHandler) `{!SignatureVerifierLaws handler}
    `{Environment E (KademliaProtocol ForgetfulStorage.t C), LookupSchedule E}
    (srv : Server) (evs : list Event) (w : World (KademliaProtocol ForgetfulStorage.t C) E)
    (Hothers : stable (of_records (authentic_records handler)))
    (Hw : of_records (authentic_records handler) w) (Hevs : Forall event_ok evs) :
  ∃ rounds, ∀ fuel, rounds ≤ fuel → ∃ w' srv', run_events handler fuel srv evs w = Some (w', srv') ∧
    of_records (authentic_records handler) w'.
Proof.
  destruct finitely_many_ids as [U HU]. exists (2 * size U + 2). intros fuel Hf.
  destruct (total_events handler fuel U srv evs HU ltac:(lia) w) as [[w' srv'] Hr].
  exists w', srv'. split; [done|]. eapply (evs_keep handler fuel _ (vouched handler)); [..|exact Hw|exact Hr].
  - by apply framed_records.
  - by apply authentic_guarded.
  - apply authentic_living.
  - by left.
Qed.


(** ** Witnesses *)

Module NodeWitness.
Import NodeExample HandlersWitness.

Definition ex_server : Server := mkServer 2 1 (Node_from_id me) false.

(** A start, a STORE of the Status List, a forged record, calls of the
    application, and a stop. *)
Definition ex_events : list Event :=
  [DoListen true 2; Tasks (OnDatagram (datagram x01) peer_addr); Tasks (OnDatagram (datagram x02) peer_addr);
   DoBootstrap [("10.0.0.2"%string, 4000%Z)]; DoSet [x01; x02] [x02; x07]; DoGet [x01; x02];
   DoUpdate [x01; x02] [x02; x08; x07] (Some [x01]); DoStatsLog; DoMaintenance (rejoin_start 0); DoRefresh;
   DoStop].

Lemma ex_events_ok : Forall event_ok ex_events.
Proof.
  unfold ex_events. rewrite !Forall_cons, Forall_nil. by split_and!.
Qed.

Lemma ex_bounded_stable : stable (λ w : World ExP Z, bounded (proto w)).
Proof.
  split; simpl; [|done..]. intros p e [Hwf Ha [Hb Hr Hc]]. by split.
Qed.

(** After its life, the node holds the Status List and the last version of the
    record it published, and is stopped. *)
Example ex_life :
  (λ r, (listening r.2,
         get 5000000000 (storage (proto r.1)) (ident_bytes (digest [x01; x02])),
         get 5000000000 (storage (proto r.1)) (ident_bytes (digest STATUS_LIST_KEY)))) <$>
    run_events ex_handler 8 ex_server ex_events (mkW start 0%Z) =
  Some (false, Some [x02; x08; x07], Some status_record).
Proof. vm_compute. reflexivity. Qed.

Lemma records_stay_authentic_witness :
  ∃ rounds, ∀ fuel, rounds ≤ fuel → ∃ w' srv',
    run_events ex_handler fuel ex_server ex_events (mkW start 0%Z) = Some (w', srv') ∧
    of_records (authentic_records ex_handler) w'.
Proof.
  apply (records_stay_authentic ex_handler ex_server ex_events (mkW start 0%Z)).
  - exact ex_authentic_stable.
  - exact ex_authentic_start.
  - exact ex_events_ok.
Defined.


End NodeWitness.
