(* ===== verification/Workers.v ===== *)
(** * The receive loop (src/src/network/mod.rs, [Server::listen])

    One task receives datagrams and hands them to worker tasks, each behind a
    bounded channel: the next worker in turn with room takes a datagram, and
    when every channel is full the loop waits for one of them. The workers and
    the loop run concurrently: their actions are the steps of a relation. *)

From S2P Require Import Prelude Utils Fragmentation.

(** A datagram and its sender. *)
Abbreviation Job := (bytes * SocketAddr)%type.

Definition WORKER_QUEUE_DEPTH : nat := 256.

(** The channels to the workers, the worker whose turn it is, and the [send]
    the loop is waiting for, if any. The receiver of a channel is dropped with
    its worker, when the node stops and the loop ends too. *)
Record ReceiveLoop := mkReceive {
  senders : list (list Job);
  idx : nat;
  waiting : option (nat * Job)
}.

Definition start_workers (num_workers : nat) : ReceiveLoop := mkReceive (replicate num_workers []) 0 None.

(** [try_send]. A channel is closed only when its worker ends, and workers and loop
    end together, with the tasks of the node: while the loop runs, the answer
    [Closed] and the error of [send] are those of a worker that panicked, which is
    left aside. *)
Definition try_send (qs : list (list Job)) (w : nat) (job : Job) : option (list (list Job)) :=
  q ← qs !! w;
  if length q <? WORKER_QUEUE_DEPTH then Some (<[w := q ++ [job]]> qs) else None.

(** The loop over the workers, from [base + i]: the worker that took the job. *)
Fixpoint try_workers (qs : list (list Job)) (base : nat) (job : Job) (i : nat) (left : nat)
    : option (nat * list (list Job)) :=
  match left with
  | O => None
  | S left' =>
      let w := (base + i) `mod` length qs in
      match try_send qs w job with
      | Some qs' => Some (w, qs')
      | None => try_workers qs base job (S i) left'
      end
  end.

(** A datagram arrives while the loop is in [recv_from]. *)
Definition receive (r : ReceiveLoop) (job : Job) : ReceiveLoop :=
  let n := length (senders r) in
  match try_workers (senders r) (idx r) job 0 n with
  | Some (w, qs) => mkReceive qs ((w + 1) `mod` n) None
  | None =>
      let w := idx r `mod` n in
      mkReceive (senders r) ((w + 1) `mod` n) (Some (w, job))
  end.

(** The loop, what has arrived, and what each worker has handled. *)
Record State := mkState { loop : ReceiveLoop; received : list Job; handled : list (nat * Job) }.

Inductive step (s : State) : State → Prop :=
  | st_receive job :
      waiting (loop s) = None →
      step s (mkState (receive (loop s) job) (received s ++ [job]) (handled s))
  | st_sent w job qs :
      waiting (loop s) = Some (w, job) → try_send (senders (loop s)) w job = Some qs →
      step s (mkState (mkReceive qs (idx (loop s)) None) (received s) (handled s))
  | st_handle w job q :
      senders (loop s) !! w = Some (job :: q) →
      step s (mkState (mkReceive (<[w := q]> (senders (loop s))) (idx (loop s)) (waiting (loop s)))
                (received s) (handled s ++ [(w, job)])).

Definition initial (num_workers : nat) : State := mkState (start_workers num_workers) [] [].

(** ** Which worker has which datagram *)

(** The jobs of worker [w] in a list of assignments. *)
Definition jobs_of (w : nat) (l : list (nat * Job)) : list Job := (filter (λ a, a.1 = w) l).*2.

(** Those of worker [w] in its channel, or about to be sent to it. *)
Definition queue_of (w : nat) (r : ReceiveLoop) : list Job := default [] (senders r !! w).
Definition waiting_of (w : nat) (r : ReceiveLoop) : list Job := jobs_of w (option_list (waiting r)).

Lemma jobs_of_app w l l' : jobs_of w (l ++ l') = jobs_of w l ++ jobs_of w l'.
Proof. unfold jobs_of. by rewrite filter_app, fmap_app. Qed.

Lemma jobs_of_one w v job : jobs_of w [(v, job)] = if decide (v = w) then [job] else [].
Proof. unfold jobs_of. rewrite filter_cons. simpl. by repeat case_decide. Qed.

Lemma try_send_spec qs w job qs' :
  try_send qs w job = Some qs' →
  ∃ q, qs !! w = Some q ∧ length q < WORKER_QUEUE_DEPTH ∧ qs' = <[w := q ++ [job]]> qs.
Proof.
  unfold try_send. intros Hs. destruct (qs !! w) as [q|] eqn:Hq; [|done]. simpl in Hs.
  case_match; [|done]. bool_facts. injection Hs as <-. by exists q.
Qed.

Lemma try_workers_sent qs base job i left w qs' :
  try_workers qs base job i left = Some (w, qs') → try_send qs w job = Some qs'.
Proof.
  revert i. induction left as [|left IH]; intros i; simpl; [done|].
  case_match; [by intros [= <- <-]|by apply IH].
Qed.

Lemma try_workers_full qs base job i left :
  try_workers qs base job i left = None →
  ∀ j, i ≤ j < i + left → try_send qs ((base + j) `mod` length qs) job = None.
Proof.
  revert i. induction left as [|left IH]; intros i; simpl; [lia|].
  case_match eqn:Hs; [done|]. intros Hr j Hj. destruct (decide (j = i)) as [->|]; [done|].
  apply (IH (S i) Hr). lia.
Qed.

(** Every worker is [base + j] for some [j] below their number. *)
Lemma every_worker base w n : w < n → ∃ j, j < n ∧ (base + j) `mod` n = w.
Proof.
  intros Hw. assert (n ≠ 0) as Hn by lia. pose proof (Nat.mod_upper_bound base n Hn) as Hb.
  pose proof (Nat.div_mod base n Hn) as Hd.
  destruct (decide (base `mod` n ≤ w)).
  - exists (w - base `mod` n). split; [lia|].
    replace (base + (w - base `mod` n)) with (w + base `div` n * n) by lia.
    by rewrite Nat.Div0.mod_add, Nat.mod_small.
  - exists (w + n - base `mod` n). split; [lia|].
    replace (base + (w + n - base `mod` n)) with (w + (base `div` n + 1) * n) by lia.
    by rewrite Nat.Div0.mod_add, Nat.mod_small.
Qed.

(** ** Invariant *)

(** The datagrams received are assigned to workers; those of a worker are, in
    order, the ones it handled, then its channel, then the pending send. *)
Record assigned (n : nat) (s : State) (log : list (nat * Job)) : Prop := {
  as_log : log.*2 = received s;
  as_range : Forall (λ a, a.1 < n) log;
  as_jobs w : w < n →
    jobs_of w (handled s) ++ queue_of w (loop s) ++ waiting_of w (loop s) = jobs_of w log;
  as_workers : length (senders (loop s)) = n;
  as_depth : Forall (λ q, length q ≤ WORKER_QUEUE_DEPTH) (senders (loop s))
}.

Lemma queue_of_insert qs w v q i o :
  w < length qs → queue_of v (mkReceive (<[w := q]> qs) i o) =
  if decide (w = v) then q else default [] (qs !! v).
Proof.
  intros Hw. unfold queue_of. simpl. case_decide as E; [subst v; by rewrite list_lookup_insert_eq|].
  by rewrite list_lookup_insert_ne.
Qed.

Lemma assigned_receive n s log job :
  0 < n → assigned n s log → waiting (loop s) = None →
  ∃ w, assigned n (mkState (receive (loop s) job) (received s ++ [job]) (handled s)) (log ++ [(w, job)]).
Proof.
  intros Hn [Hl Hr Hj Hw Hd] Hnone.
  assert (∀ v, jobs_of v (handled s) ++ queue_of v (loop s) = jobs_of v log ∨ n ≤ v) as Hj'.
  { intros v. destruct (decide (v < n)) as [Hv|]; [left|right; lia]. rewrite <-(Hj v Hv).
    unfold waiting_of. rewrite Hnone. unfold jobs_of at 3. simpl. by rewrite app_nil_r. }
  unfold receive. destruct (try_workers _ _ _ _ _) as [[w qs]|] eqn:Hs.
  - apply try_workers_sent, try_send_spec in Hs as (q & Hq & Hlen & ->).
    pose proof (lookup_lt_Some _ _ _ Hq) as Hlt. exists w. split; simpl.
    + by rewrite fmap_app, Hl.
    + apply Forall_app. split; [done|]. constructor; [simpl; lia|done].
    + intros v Hv. destruct (Hj' v) as [Hv'|]; [|lia]. rewrite queue_of_insert by done.
      unfold waiting_of. simpl. change (jobs_of v []) with (@nil Job). rewrite app_nil_r, jobs_of_app, jobs_of_one, <-Hv'.
      unfold queue_of. case_decide; [subst v; rewrite Hq; simpl; by rewrite (assoc_L (++))|by rewrite app_nil_r].
    + by rewrite length_insert.
    + apply Forall_insert; [done|]. rewrite length_app. simpl. lia.
  - set (w := idx (loop s) `mod` length (senders (loop s))). exists w.
    assert (w < n) as Hwn by (rewrite <-Hw; apply Nat.mod_upper_bound; lia). split; simpl; try done.
    + by rewrite fmap_app, Hl.
    + apply Forall_app. split; [done|]. constructor; [done|done].
    + intros v Hv. destruct (Hj' v) as [Hv'|]; [|lia]. rewrite jobs_of_app, <-Hv', (assoc_L (++)). done.
Qed.

Lemma assigned_step n s s' log :
  0 < n → assigned n s log → step s s' → ∃ log', assigned n s' log'.
Proof.
  intros Hn Ha Hs. destruct Hs as [job Hnone|w job qs Hw Hs|w job q Hq].
  - destruct (assigned_receive n s log job Hn Ha Hnone) as [w Hw]. eauto.
  - exists log. destruct Ha as [Hl Hr Hj Hlen Hd].
    apply try_send_spec in Hs as (q & Hq & Hroom & ->). pose proof (lookup_lt_Some _ _ _ Hq) as Hlt.
    split; simpl; try done; [|by rewrite length_insert|apply Forall_insert; [done|rewrite length_app; simpl; lia]].
    intros v Hv. rewrite <-(Hj v Hv), queue_of_insert by done. unfold waiting_of. rewrite Hw. simpl.
    change (jobs_of v []) with (@nil Job). rewrite app_nil_r, jobs_of_one. unfold queue_of. f_equal.
    case_decide; [by subst v; rewrite Hq|by rewrite app_nil_r].
  - exists log. destruct Ha as [Hl Hr Hj Hlen Hd]. pose proof (lookup_lt_Some _ _ _ Hq) as Hlt.
    split; simpl; try done; [|by rewrite length_insert|].
    + intros v Hv. rewrite <-(Hj v Hv), jobs_of_app, jobs_of_one, queue_of_insert by done.
      unfold queue_of, waiting_of. simpl. rewrite <-!(assoc_L (++)). f_equal.
      case_decide; [by subst v; rewrite Hq|done].
    + apply Forall_insert; [done|]. rewrite Forall_lookup in Hd. specialize (Hd _ _ Hq). simpl in Hd. lia.
Qed.

Lemma assigned_initial n : assigned n (initial n) [].
Proof.
  split; simpl; [done|done| |apply length_replicate|apply Forall_replicate; simpl; lia].
  intros w Hw. unfold queue_of, waiting_of. simpl. by rewrite lookup_replicate_2.
Qed.

(** ** Theorem *)

(** C18: the receive loop neither loses, duplicates nor reorders datagrams. In
    every interleaving of the loop with its workers, each datagram received is
    given to one worker, which handles those it was given in their order of
    arrival: what it handled, then its channel, then the send in progress are
    exactly its share of what was received. No channel exceeds its depth, and
    the loop waits on a datagram only if every channel was full. *)
Theorem workers_deliver (num_workers : nat) (s : State)
    (Hworkers : 0 < num_workers) (Hreach : rtc step (initial num_workers) s) :
  (∃ log, log.*2 = received s ∧ Forall (λ a, a.1 < num_workers) log ∧
    ∀ w, w < num_workers →
      jobs_of w (handled s) ++ queue_of w (loop s) ++ waiting_of w (loop s) = jobs_of w log) ∧
  Forall (λ q, length q ≤ WORKER_QUEUE_DEPTH) (senders (loop s)) ∧
  ∀ job, is_Some (waiting (receive (loop s) job)) ↔
    Forall (λ q, length q = WORKER_QUEUE_DEPTH) (senders (loop s)).
Proof.
  assert (∃ log, assigned num_workers s log) as [log [Hl Hr Hj Hw Hd]].
  { remember (initial num_workers) as s0 eqn:E0.
    assert (∃ log, assigned num_workers s0 log) as H0 by (subst; eauto using assigned_initial).
    clear E0. induction Hreach as [|s1 s2 s3 Hs _ IH]; [done|]. apply IH.
    destruct H0 as [log Hlog]. by eapply assigned_step. }
  split; [by exists log|]. split; [done|]. intros job. unfold receive.
  destruct (try_workers _ _ _ _ _) as [[w qs]|] eqn:Hs; simpl.
  - split; [by intros []|]. intros Hfull. apply try_workers_sent, try_send_spec in Hs as (q & Hq & Hlt & _).
    rewrite Forall_lookup in Hfull. specialize (Hfull _ _ Hq). lia.
  - split; [intros _|by eexists]. apply Forall_lookup. intros w q Hq.
    pose proof (lookup_lt_Some _ _ _ Hq) as Hlt.
    destruct (every_worker (idx (loop s)) w _ Hlt) as (j & Hjn & Hjw).
    pose proof (try_workers_full _ _ _ _ _ Hs j ltac:(lia)) as Hfull. rewrite Hjw in Hfull.
    unfold try_send in Hfull. rewrite Hq in Hfull. simpl in Hfull. case_match; [done|]. bool_facts.
    rewrite Forall_lookup in Hd. specialize (Hd _ _ Hq). lia.
Qed.

(** Two workers, three datagrams, of which the first worker has handled one. *)
Definition ex_job (b : byte) : Job := ([b], mkAddr "10.0.0.2" 4000).

Definition ex_state : State :=
  mkState (mkReceive [[ex_job x03]; [ex_job x02]] 1 None) [ex_job x01; ex_job x02; ex_job x03] [(0, ex_job x01)].

Lemma ex_reachable : rtc step (initial 2) ex_state.
Proof.
  eapply rtc_l; [by apply (st_receive _ (ex_job x01))|].
  eapply rtc_l; [by apply (st_receive _ (ex_job x02))|].
  eapply rtc_l; [by apply (st_handle _ 0 (ex_job x01) [])|].
  eapply rtc_l; [by apply (st_receive _ (ex_job x03))|]. apply rtc_refl.
Qed.

Lemma workers_deliver_witness :
  (∃ log, log.*2 = received ex_state ∧ Forall (λ a, a.1 < 2) log ∧
    ∀ w, w < 2 →
      jobs_of w (handled ex_state) ++ queue_of w (loop ex_state) ++ waiting_of w (loop ex_state) = jobs_of w log) ∧
  Forall (λ q, length q ≤ WORKER_QUEUE_DEPTH) (senders (loop ex_state)) ∧
  ∀ job, is_Some (waiting (receive (loop ex_state) job)) ↔
    Forall (λ q, length q = WORKER_QUEUE_DEPTH) (senders (loop ex_state)).
Proof.
  apply (workers_deliver 2 ex_state).
  - lia.
  - exact ex_reachable.
Defined.
