(* ===== verification/Testbed.v ===== *)
(** * The identity of a testbed node (src/testbed/node.rs)

    The commands of the testbed that create, publish, rotate and drop the DID of
    a node, run over the API of Network. The lock on the identity is held during
    a command, so commands run one after the other. *)

From S2P Require Import Prelude Utils Node Routing Storage Fragmentation Messages Retransmit.
From S2P Require Import Crypto AuthHandler AuthProps Crawling CrawlProps Effects Protocol Transport Client.
From S2P Require Import Handlers NodeExample HandlersProps Publish Network ApiProps KeyManager DidRecord.

(** ** State *)

Record Rotation := mkRotation { next : Version; auth_signature : bytes }.

Record Identity := mkIdentity {
  uuid : bytes;
  did : bytes;
  current : Version;
  pending : option Rotation
}.

(** The commands, with what each may draw. *)
Inductive Command :=
  | CInfo
  | CNew (drawn : bytes) (d : Draw)
  | CPublish (drawn : bytes) (d : Draw)
  | CUpdate (d : Draw) (rng : bytes)
  | CDiscard
  | CForget
  | CGet (target : bytes).

(** The replies, without names, times and descriptions. *)
Inductive Reply :=
  | RInfo (node_id : ident) (did signing_key pending_rotation_to : option bytes)
  | RNew (did : bytes)
  | RPublish (created : bool) (outcome : SetOutcome) (pending : bool)
  | RNoDid
  | RUpdate (retry : bool) (result : option bool) (pending : bool)
  | RDiscard (dropped : option bytes)
  | RForget (dropped : option bytes)
  | RGet (local_copy : bool) (found : option bytes).

Section identity.
Context `{Sha256, JsonWrite, Base64, Base64Encode, SignatureLibraries, KeyGeneration, Hex}.

(** [fresh_identity]. *)
Definition fresh_identity (drawn : bytes) (d : Draw) : Identity :=
  let did := str_bytes "did:iiot:" ++ drawn in
  mkIdentity drawn did (generate_version did d) None.

(** The pending rotation of [update], or a new one, and whether it is a retry. *)
Definition start_rotation (id : Identity) (d : Draw) (rng : bytes) : Identity * Rotation * bool :=
  match pending id with
  | Some r => (id, r, true)
  | None =>
      let next := generate_version (did id) d in
      let r := mkRotation next (dilithium_sign 2 rng (record next) (secret_key (current id))) in
      (mkIdentity (uuid id) (did id) (current id) (Some r), r, false)
  end.

(** The end of [update], with the answer of the server. *)
Definition finish_rotation (id : Identity) (result : option bool) : Identity :=
  if bool_decide (result = Some true) then
    match pending id with
    | Some r => mkIdentity (uuid id) (did id) (next r) None
    | None => id
    end
  else id.

(** [discard]. *)
Definition discard (identity : option Identity) : option Identity * option bytes :=
  match identity with
  | Some id =>
      (Some (mkIdentity (uuid id) (did id) (current id) None),
       (λ r, signing_key_of (record (next r))) <$> pending id)
  | None => (None, None)
  end.

(** [forget]. *)
Definition forget (identity : option Identity) : option Identity * option bytes := (None, did <$> identity).

End identity.

(** ** Commands *)

Section commands.
Context {St C E : Type} `{Sha1, Sha256, Bincode, Ipv6Syntax, HashOrder}.
Context `{JsonWrite, Base64, Base64Encode, SignatureLibraries, KeyGeneration, Hex}.
Context `{IStorage St, MokaCache C} (handler : SignatureVerifierHandler).
Abbreviation P := (KademliaProtocol St C).
Context `{Environment E P, LookupSchedule E}.
Context (fuel : nat) (srv : Server).

Definition info (identity : option Identity) : F P E Reply :=
  lift pause ;;
  mret (RInfo (id (srv_node srv)) (did <$> identity)
    ((λ i, signing_key_of (record (current i))) <$> identity)
    (i ← identity; (λ r, signing_key_of (record (next r))) <$> pending i)).

Definition new_identity (drawn : bytes) (d : Draw) : F P E (option Identity * Reply) :=
  let id := fresh_identity drawn d in
  lift pause ;;
  mret (Some id, RNew (did id)).

Definition publish (identity : option Identity) (drawn : bytes) (d : Draw) : F P E (option Identity * Reply) :=
  let created := bool_decide (identity = None) in
  let id := default (fresh_identity drawn d) identity in
  lift pause ;;
  outcome ← set_detailed handler fuel srv (uuid id) (record (current id));
  mret (Some id, RPublish created outcome (bool_decide (is_Some (pending id)))).

Definition update_identity (identity : option Identity) (d : Draw) (rng : bytes)
    : F P E (option Identity * Reply) :=
  match identity with
  | None => mret (None, RNoDid)
  | Some id =>
      let '(id1, r, retry) := start_rotation id d rng in
      lift pause ;;
      result ← server_update handler fuel srv (uuid id1) (record (next r)) (Some (auth_signature r));
      let id2 := finish_rotation id1 result in
      mret (Some id2, RUpdate retry result (bool_decide (is_Some (pending id2))))
  end.

Definition get (target : bytes) : F P E (bool * option bytes) :=
  let uuid := default target (strip_prefix (str_bytes "did:iiot:") target) in
  lift pause ;;
  copy ← lift (storage_get (digest uuid));
  found ← server_get handler fuel srv uuid;
  mret (bool_decide (is_Some copy), found).

(** A command under the lock of the identity. *)
Definition run_command (identity : option Identity) (c : Command) : F P E (option Identity * Reply) :=
  lift pause ;;
  match c with
  | CInfo => r ← info identity; mret (identity, r)
  | CNew drawn d => new_identity drawn d
  | CPublish drawn d => publish identity drawn d
  | CUpdate d rng => update_identity identity d rng
  | CDiscard => let '(identity', dropped) := discard identity in mret (identity', RDiscard dropped)
  | CForget => let '(identity', dropped) := forget identity in mret (identity', RForget dropped)
  | CGet target => r ← get target; mret (identity, RGet r.1 r.2)
  end.

Fixpoint run_commands (identity : option Identity) (cs : list Command) : F P E (option Identity * list Reply) :=
  match cs with
  | [] => mret (identity, [])
  | c :: cs' =>
      r ← run_command identity c;
      rs ← run_commands r.1 cs';
      mret (rs.1, r.2 :: rs.2)
  end.

End commands.

(** ** The identity of a node is always usable *)

Section usable.
Context `{Sha1, Sha256, JsonLaws, Base64Laws, KeyGenerationLaws, !Dilithium2Size, UuidSyntax, Hex}.

(** The UUID of a DID, with a key of its own. *)
Definition fresh_uuid (u : bytes) : Prop := uuid_text u ∧ digest u ≠ digest STATUS_LIST_KEY.

(** The versions are of the DID, and the pending one is authorized by the
    current one. *)
Record identity_ok (id : Identity) : Prop := {
  ok_uuid : fresh_uuid (uuid id);
  ok_did : did id = generate_did_iiot (uuid id);
  ok_current : ∃ d, current id = generate_version (did id) d;
  ok_pending r : pending id = Some r →
    ∃ d rng, next r = generate_version (did id) d ∧
      auth_signature r = dilithium_sign 2 rng (record (next r)) (secret_key (current id))
}.

Definition command_ok (c : Command) : Prop :=
  match c with CNew drawn _ | CPublish drawn _ => fresh_uuid drawn | _ => True end.

Lemma fresh_identity_ok drawn d : fresh_uuid drawn → identity_ok (fresh_identity drawn d).
Proof. intros Hu. split; simpl; eauto. done. Qed.

Lemma start_rotation_ok id d rng :
  identity_ok id →
  let '(id', r, retry) := start_rotation id d rng in
  identity_ok id' ∧ pending id' = Some r ∧ uuid id' = uuid id ∧ current id' = current id.
Proof.
  intros Hok. unfold start_rotation. destruct (pending id) as [r|] eqn:E; [done|].
  destruct Hok as [Hu Hd Hc _]. split_and!; [|done..]. split; simpl; [done..|].
  intros r [= <-]. simpl. eauto.
Qed.

Lemma finish_rotation_ok id result : identity_ok id → identity_ok (finish_rotation id result).
Proof.
  intros Hok. unfold finish_rotation. case_bool_decide; [|done]. destruct (pending id) as [r|] eqn:E; [|done].
  destruct Hok as [Hu Hd Hc Hp]. destruct (Hp r E) as (d & rng & Hn & _). split; simpl; eauto. done.
Qed.

Lemma discard_ok identity id : Forall identity_ok (option_list identity) →
  (discard identity).1 = Some id → identity_ok id.
Proof.
  destruct identity as [id'|]; simpl; [|done]. rewrite Forall_singleton. intros Hok [= <-].
  destruct Hok as [Hu Hd Hc Hp]. by split.
Qed.

(** What the identity has to send is accepted under its key. *)
Lemma identity_accepted {C : Type} `{MokaCache C} issuer_file now id :
  identity_ok id →
  (verify_record (C := C) (did_handler issuer_file) now None (digest (uuid id)) (record (current id))).1 = true.
Proof.
  intros [[Hu Hk] Hd [d Hc] _]. rewrite Hc, Hd.
  apply did_verified; [done|by apply version_bound|by apply version_self_signed].
Qed.

Lemma rotation_accepted issuer_file id r :
  identity_ok id → pending id = Some r →
  verify_rotation (did_handler issuer_file) (digest (uuid id)) (record (next r)) (record (current id))
    (auth_signature r) = true.
Proof.
  intros [[Hu Hk] Hd [d Hc] Hp] Hr. destruct (Hp r Hr) as (d' & rng & Hn & ->).
  rewrite Hn, Hc, Hd. unfold verify_rotation. simpl. rewrite !andb_true_iff, !unwrap_or_true.
  rewrite !did_document_matches_key_iff, verify_key_rotation_iff.
  split_and!; [by apply version_bound..|by apply version_rotates|by apply version_self_signed].
Qed.

End usable.

Section runs.
Context {St C E : Type} `{Sha1, Sha256, Bincode, Ipv6Syntax, HashOrder}.
Context `{JsonLaws, Base64Laws, KeyGenerationLaws, !Dilithium2Size, UuidSyntax, Hex}.
Context `{IStorage St, MokaCache C} (handler : SignatureVerifierHandler).
Abbreviation P := (KademliaProtocol St C).
Context `{Environment E P, LookupSchedule E}.
Context (fuel : nat) (srv : Server).

Abbreviation usable identity := (Forall identity_ok (option_list identity)).

Lemma usable_some id : identity_ok id → usable (Some id).
Proof. intros Hid. by constructor. Qed.

Lemma usable_command identity c :
  usable identity → command_ok c →
  ftriple (P := P) (E := E) (λ _, True) (run_command handler fuel srv identity c) (λ r _, usable r.1).
Proof.
  intros Hid Hc. apply (ftriple_bind _ _ (λ _ _, True)); [by apply ftriple_lift|]. intros [].
  destruct c as [|drawn d|drawn d|d rng| | |target]; simpl in Hc.
  - apply (ftriple_bind _ _ (λ _ _, True)); [done|]. intros o w w' r _ Hr. by injection Hr as <- <-.
  - apply (ftriple_bind _ _ (λ _ _, True)); [by apply ftriple_lift|]. intros [] w w' r _ Hr.
    injection Hr as <- <-. apply usable_some. by apply fresh_identity_ok.
  - apply (ftriple_bind _ _ (λ _ _, True)); [by apply ftriple_lift|]. intros [].
    apply (ftriple_bind _ _ (λ _ _, True)); [done|]. intros o w w' r _ Hr.
    injection Hr as <- <-. apply usable_some. destruct identity as [id|]; simpl in *.
    + by rewrite Forall_singleton in Hid.
    + by apply fresh_identity_ok.
  - destruct identity as [id|]; [|intros w w' r _ Hr; by injection Hr as <- <-].
    simpl in Hid. rewrite Forall_singleton in Hid. unfold update_identity.
    pose proof (start_rotation_ok id d rng Hid) as Hs.
    destruct (start_rotation id d rng) as [[id1 r1] retry]. destruct Hs as [Hs _].
    apply (ftriple_bind _ _ (λ _ _, True)); [by apply ftriple_lift|]. intros [].
    apply (ftriple_bind _ _ (λ _ _, True)); [done|]. intros result w w' r _ Hr.
    injection Hr as <- <-. apply usable_some. by apply finish_rotation_ok.
  - intros w w' r _ Hr. destruct (discard identity) as [identity' dropped] eqn:Ed.
    injection Hr as <- <-. simpl. destruct identity' as [id|]; [|constructor].
    apply usable_some. apply (discard_ok identity); [done|]. by rewrite Ed.
  - intros w w' r _ Hr. injection Hr as <- <-. constructor.
  - apply (ftriple_bind _ _ (λ _ _, True)); [done|]. intros [] w w' r _ Hr. by injection Hr as <- <-.
Qed.

Lemma usable_commands identity cs :
  usable identity → Forall command_ok cs →
  ftriple (P := P) (E := E) (λ _, True) (run_commands handler fuel srv identity cs) (λ r _, usable r.1).
Proof.
  intros Hid Hcs. revert identity Hid. induction Hcs as [|c cs Hc _ IH]; intros identity Hid.
  - intros w w' r _ Hr. by injection Hr as <- <-.
  - apply (ftriple_bind _ _ (λ r _, usable r.1)); [by apply usable_command|]. intros [identity' reply].
    apply ftriple_given. intros Hid'.
    apply (ftriple_bind _ _ (λ r _, usable r.1)); [by apply IH|]. intros [identity'' replies].
    intros w w' r Hw Hr. by injection Hr as <- <-.
Qed.

Lemma total_commands (U : gset ident) identity cs :
  (∀ i, i ∈ U) → 2 * size U + 1 < fuel → total (P := P) (E := E) (run_commands handler fuel srv identity cs).
Proof.
  intros HU Hf. revert identity. induction cs as [|c cs IH]; intros identity; [apply total_ret|].
  apply total_bind; [|intros r; apply total_bind; [apply IH|intros ?; apply total_ret]].
  apply total_bind; [apply total_lift|]. intros [].
  destruct c as [|drawn d|drawn d|d rng| | |target].
  - apply total_bind; [|intros r; apply total_ret]. apply total_bind; [apply total_lift|]. intros []. apply total_ret.
  - apply total_bind; [apply total_lift|]. intros []. apply total_ret.
  - apply total_bind; [apply total_lift|]. intros [].
    apply total_bind; [by eapply total_set|]. intros o. apply total_ret.
  - destruct identity as [id|]; [|apply total_ret]. unfold update_identity.
    destruct (start_rotation id d rng) as [[id1 r1] retry].
    apply total_bind; [apply total_lift|]. intros [].
    apply total_bind; [by eapply total_update|]. intros o. apply total_ret.
  - destruct (discard identity). apply total_ret.
  - apply total_ret.
  - apply total_bind; [|intros r; apply total_ret]. apply total_bind; [apply total_lift|]. intros [].
    apply total_bind; [apply total_lift|]. intros copy.
    apply total_bind; [by eapply total_get|]. intros found. apply total_ret.
Qed.

End runs.

(** ** What the commands send *)

Section sends.
Context {St C E : Type} `{Sha1, Sha256, Bincode, Ipv6Syntax, HashOrder}.
Context `{JsonWrite, Base64, Base64Encode, SignatureLibraries, KeyGeneration, Hex}.
Context `{IStorage St, MokaCache C} (handler : SignatureVerifierHandler).
Abbreviation P := (KademliaProtocol St C).
Context `{Environment E P, LookupSchedule E}.
Context (fuel : nat) (srv : Server).

(** A publication by [id], in any world, is a SET of [value] under its key, and
    keeps the identity. *)
Definition publishes (id : Identity) (value : bytes) : Prop :=
  ∀ drawn d (w w' : World P E) identity reply,
    publish handler fuel srv (Some id) drawn d w = Some (w', (identity, reply)) →
    identity = Some id ∧ ∃ outcome,
      set_detailed handler fuel srv (uuid id) value (pause w).1 = Some (w', outcome) ∧
      reply = RPublish false outcome (bool_decide (is_Some (pending id))).

(** An update by [id] that draws [d] and [rng], in any world, is an UPDATE of
    [value] with [auth] under its key; [after] is the identity it leaves, given
    the answer. *)
Definition updates (id : Identity) (d : Draw) (rng value auth : bytes) (after : option bool → Identity → Prop)
    : Prop :=
  ∀ (w w' : World P E) identity reply,
    update_identity handler fuel srv (Some id) d rng w = Some (w', (identity, reply)) →
    ∃ result id2 retry,
      server_update handler fuel srv (uuid id) value (Some auth) (pause w).1 = Some (w', result) ∧
      identity = Some id2 ∧ uuid id2 = uuid id ∧ after result id2 ∧
      reply = RUpdate retry result (bool_decide (is_Some (pending id2))).

Lemma publish_sends id : publishes id (record (current id)).
Proof using.
  intros drawn d w w' identity reply. unfold publish, mbind, F_bind, lift. unfold default, Datatypes.id.
  destruct (pause w) as [w1 []]. cbn [fst].
  destruct (set_detailed handler fuel srv (uuid id) (record (current id)) w1) as [[w2 o]|] eqn:Hs; [|done].
  intros [= <- <- <-]. split; [done|]. by exists o.
Qed.

Lemma update_sends id d rng id1 r retry :
  start_rotation id d rng = (id1, r, retry) → uuid id1 = uuid id →
  updates id d rng (record (next r)) (auth_signature r) (λ result id2, id2 = finish_rotation id1 result).
Proof using.
  intros Hr Hu w w' identity reply. unfold update_identity. rewrite Hr, <-Hu. unfold mbind, F_bind, lift.
  destruct (pause w) as [w1 []]. cbn [fst].
  destruct (server_update _ _ _ _ _ _ w1) as [[w2 result]|] eqn:Hs; [|done]. intros [= <- <- <-].
  exists result, (finish_rotation id1 result), retry. split; [done|]. split; [done|]. split; [|done].
  unfold finish_rotation. case_bool_decide; [|done]. by destruct (pending id1) as [[]|].
Qed.

Lemma updates_weaken id d rng value auth (after after' : option bool → Identity → Prop) :
  (∀ result id2, after result id2 → after' result id2) →
  updates id d rng value auth after → updates id d rng value auth after'.
Proof using.
  intros Ha Hu w w' identity reply Hr.
  destruct (Hu w w' identity reply Hr) as (result & id2 & retry & ? & ? & ? & ? & ?).
  exists result, id2, retry. split_and!; eauto.
Qed.

End sends.

(** ** Theorem *)


(** ** A session *)

Module TestbedExample.
Import NodeExample.

#[local] Existing Instances KeyExample.ex_signatures KeyExample.ex_generation KeyExample.ex_generation_laws.
#[local] Existing Instances DidExample.ex_size DidExample.ex_json DidExample.ex_json_write DidExample.ex_json_laws.
#[local] Existing Instances DidExample.ex_b64 DidExample.ex_b64_encode DidExample.ex_b64_laws.
#[local] Existing Instances DidExample.ex_uuid DidExample.ex_hex.

Definition ex_server : Server := mkServer 2 1 (Node_from_id me) true.
Definition ex_draw (b : byte) : Draw := mkDraw [b] [b] [].
Definition ex_commands : list Command :=
  [CInfo; CUpdate (ex_draw x00) []; CPublish DidExample.ex_uuid_text (ex_draw x01); CUpdate (ex_draw x02) [];
   CUpdate (ex_draw x03) []; CGet DidExample.ex_did; CDiscard].


End TestbedExample.
