(* ===== verification/PyBindings.v ===== *)
(** * The Python bindings (src/src/py_bindings.rs)

    The classes Python sees, over the API of Network and the key managers: the
    checks of their arguments, the values they return, and the errors they raise.
    A server is behind a lock: a method that replaces it returns the new one.
    The runtime and the conversions of pyo3 are left to their libraries. *)

From stdpp Require Import pretty.
From S2P Require Import Prelude Utils Node Routing Storage Fragmentation Messages Retransmit.
From S2P Require Import Crypto AuthHandler AuthProps Crawling Effects Protocol Transport Client.
From S2P Require Import Handlers Publish Network KeyManager.

(** ** Values *)

#[local] Set Warnings "-register-all".

(** The Python values the bindings build; a dictionary in insertion order. *)
Inductive PyValue :=
  | PyNone
  | PyBool (b : bool)
  | PyInt (n : Z)
  | PyStr (s : string)
  | PyBytes (b : bytes)
  | PyDict (entries : list (string * PyValue)).

(** [PyRuntimeError]; the text of an I/O or library error is left out. *)
Inductive PyError :=
  | NodeIdLength (got : nat)
  | KeyError (e : KeyManagerError)
  | BindError.

Definition py_nat (n : nat) : PyValue := PyInt (Z.of_nat n).
Definition py_option {A} (f : A → PyValue) (o : option A) : PyValue :=
  match o with Some a => f a | None => PyNone end.

(** [rejection_name]. *)
Definition rejection_name (reason : SetRejection) : string :=
  match reason with
  | ExistingRecord => "existing_record"
  | InvalidRecord => "invalid_record"
  | ReplicaConflict => "replica_conflict"
  | RCapacityExceeded => "capacity_exceeded"
  | Unavailable => "unavailable"
  | NoResponsibleNodes => "no_responsible_nodes"
  end.

(** [set_report_to_py]. *)
Definition set_report_to_py (r : SetReport) : PyValue :=
  PyDict [("expected_replicas", py_nat (expected_replicas r)); ("stored_replicas", py_nat (stored_replicas r));
          ("already_present", py_nat (already_present r)); ("acknowledged_replicas", py_nat (acknowledged_replicas r));
          ("capacity_rejections", py_nat (capacity_rejections r)); ("unavailable_nodes", py_nat (unavailable_nodes r));
          ("conflict_rejections", py_nat (conflict_rejections r)); ("invalid_rejections", py_nat (invalid_rejections r))].

(** [set_outcome_to_py]. *)
Definition set_outcome_to_py (outcome : SetOutcome) : PyValue :=
  let '(status, rejection) := match outcome with
    | Complete _ => ("complete", None)
    | Degraded _ => ("degraded", None)
    | Rejected reason _ => ("rejected", Some (rejection_name reason))
    end%string in
  PyDict [("status", PyStr status); ("reason", py_option PyStr rejection);
          ("report", set_report_to_py (report outcome))].

(** [server_stats_to_py]; [entries] is the count of the signature cache. *)
Definition server_stats_to_py (stats : ServerStats) (entries : Z) : PyValue :=
  PyDict [("node_id", PyBytes (ident_bytes (st_node_id stats))); ("listening", PyBool (st_listening stats));
          ("routing_nodes", py_nat (st_routing_nodes stats));
          ("live_routing_nodes", py_nat (st_live_routing_nodes stats));
          ("storage_records", py_nat (st_storage_records stats));
          ("storage_bytes", PyInt (st_storage_bytes stats)); ("max_storage_bytes", PyInt (st_max_storage_bytes stats));
          ("available_storage_bytes", PyInt (0 `max` (st_max_storage_bytes stats - st_storage_bytes stats)));
          ("signature_cache_entries", PyInt entries)].

(** [km_err]. *)
Definition km_err {A} (r : Result KeyManagerError A) : Result PyError A := map_err KeyError r.

(** ** The class [Server] *)

(** What [PyServer::new] makes: the server, its store, and whether it has a
    signature cache. [issuer_path] is the path of the rule's key, empty when
    there is none. *)
Record PyNew := mkPyNew {
  py_server : Server; py_storage : ForgetfulStorage.t; py_sig_cache : bool; py_issuer_path : bytes
}.

(** [PyServer::new]. *)
Definition py_new `{Sha1} (ksize alpha : nat) (issuer_path : option bytes) (node_id : option bytes)
    (sig_cache : bool) (max_storage_bytes : Z) (random : bytes) : Result PyError PyNew :=
  let path := default [] issuer_path in
  fixed_id ← match node_id with
    | Some v => match ident_of_bytes v with Some i => Ok (Some i) | None => Err (NodeIdLength (length v)) end
    | None => Ok None
    end;
  let storage := ForgetfulStorage.with_max_storage_bytes DEFAULT_TTL max_storage_bytes in
  Ok (mkPyNew (server_new ksize alpha fixed_id random) storage sig_cache path).

Section py_server.
Context {C E : Type} `{Sha1, Sha256, Bincode, Ipv6Syntax, HashOrder, MokaCache C}.
Context (handler : SignatureVerifierHandler).
Abbreviation P := (KademliaProtocol ForgetfulStorage.t C).
Context `{Environment E P, LookupSchedule E}.
Context (fuel : nat) (srv : Server).

(** [PyServer::listen]; a server that could not bind is unchanged. *)
Definition py_listen (bound : bool) (workers : nat) : M P E (Server * Result PyError unit) :=
  pause ;;
  srv' ← listen srv bound workers;
  mret (srv', if bound then Ok () else Err BindError).

(** [PyServer::bootstrap]. *)
Definition py_bootstrap (addrs : list (string * Z)) : F P E (list (string * Z)) :=
  lift pause ;;
  nodes ← bootstrap fuel srv addrs;
  mret (omap address nodes).

(** [PyServer::get]. *)
Definition py_get (key : bytes) : F P E PyValue :=
  lift pause ;;
  result ← server_get handler fuel srv key;
  mret (py_option PyBytes result).

(** [PyServer::set]. *)
Definition py_set (key value : bytes) : F P E PyValue :=
  lift pause ;;
  result ← server_set handler fuel srv key value;
  mret (py_option PyBool result).

(** [PyServer::set_detailed]. *)
Definition py_set_detailed (key value : bytes) : F P E PyValue :=
  lift pause ;;
  outcome ← set_detailed handler fuel srv key value;
  mret (set_outcome_to_py outcome).

(** [PyServer::update]. *)
Definition py_update (key value : bytes) (auth_signature : option bytes) : F P E PyValue :=
  lift pause ;;
  result ← server_update handler fuel srv key value auth_signature;
  mret (py_option PyBool result).

(** [PyServer::stop]. *)
Definition py_stop : M P E Server := pause ;; stop srv.

(** [PyServer::bootstrappable_neighbors]. *)
Definition py_neighbors : M P E (list (string * Z)) := pause ;; bootstrappable_neighbors srv.

(** [PyServer::stats]; [entries] reads the count of the signature cache. *)
Definition py_stats (entries : option C → Z) : M P E PyValue :=
  pause ;;
  s ← stats srv;
  n ← gets (λ p : P, entries (sig_cache p));
  mret (server_stats_to_py s n).

(** [PyServer::save_state] and [PyServer::save_state_regularly]. *)
Definition py_save_state : M P E (option SavedState) := pause ;; save_state srv.
Definition py_save_state_regularly : M P E unit := pause ;; save_state_regularly srv.

End py_server.

(** ** The key managers *)

Section py_keys.
Context {Fs : Type} `{FileSystem Fs, SignatureLibraries, KeyGeneration, Base64Encode}.

(** [generate_keypair] of [PyDilithiumKeyManager] and [PyKyberKeyManager]: a
    manager of the level given, or of the instance, on the same directory. *)
Definition py_dilithium_generate (km : DilithiumKeyManager) (security_level : option Z) (rng : bytes) (fs : Fs)
    : Fs * Result PyError (bytes * bytes) :=
  let level := default (d_level km) security_level in
  let '(fs', km') := dilithium_new (d_keys_dir km) level fs in
  (fs', km_err (generate_keypair (Fs := Fs) km' rng)).

Definition py_kyber_generate (km : KyberKeyManager) (security_level : option Z) (rng : bytes) (fs : Fs)
    : Fs * Result PyError (bytes * bytes) :=
  let level := default (k_level km) security_level in
  let '(fs', km') := kyber_new (k_keys_dir km) level fs in
  (fs', km_err (generate_keypair (Fs := Fs) km' rng)).

Definition py_ed25519_generate (km : Ed25519KeyManager) (rng : bytes) : Result PyError (bytes * bytes) :=
  km_err (generate_keypair (Fs := Fs) km rng).

(** The store and get methods of the three classes. *)
Definition py_store_public {K} `{KeyManager Fs K} (km : K) (name key : bytes) (fs : Fs) : Fs * Result PyError unit :=
  let '(fs', r) := store_public_key km name key fs in (fs', km_err r).
Definition py_store_private {K} `{KeyManager Fs K} (km : K) (name key : bytes) (fs : Fs) : Fs * Result PyError unit :=
  let '(fs', r) := store_private_key km name key fs in (fs', km_err r).
Definition py_get_public {K} `{KeyManager Fs K} (km : K) (name : bytes) (fs : Fs) : Result PyError bytes :=
  km_err (get_public_key km name fs).
Definition py_get_private {K} `{KeyManager Fs K} (km : K) (name : bytes) (fs : Fs) : Result PyError bytes :=
  km_err (get_private_key km name fs).

(** [sign] and [verify_signature]. *)
Definition py_dilithium_sign (km : DilithiumKeyManager) (rng key message : bytes) : Result PyError bytes :=
  km_err (dilithium_sign_with km rng key message).
Definition py_dilithium_verify (km : DilithiumKeyManager) (key message signature : bytes) : Result PyError bool :=
  km_err (dilithium_verify_with km key message signature).
Definition py_ed25519_sign (km : Ed25519KeyManager) (key message : bytes) : Result PyError bytes :=
  km_err (ed25519_sign_with km key message).
Definition py_ed25519_verify (km : Ed25519KeyManager) (key message signature : bytes) : Result PyError bool :=
  km_err (ed25519_verify_with km key message signature).

(** The other methods of a key manager class. *)
Record PyKeyMethods (K : Type) := {
  m_store_public_key : K → bytes → bytes → Fs → Fs * Result PyError unit;
  m_store_private_key : K → bytes → bytes → Fs → Fs * Result PyError unit;
  m_get_public_key : K → bytes → Fs → Result PyError bytes;
  m_get_private_key : K → bytes → Fs → Result PyError bytes;
  m_get_jose_format : K → bytes → gmap bytes bytes
}.

Definition py_methods {K} `{KeyManager Fs K} : PyKeyMethods K := {|
  m_store_public_key := py_store_public;
  m_store_private_key := py_store_private;
  m_get_public_key := py_get_public;
  m_get_private_key := py_get_private;
  m_get_jose_format := get_jose_format
|}.

Definition py_dilithium_methods : PyKeyMethods DilithiumKeyManager := py_methods.
Definition py_kyber_methods : PyKeyMethods KyberKeyManager := py_methods.
Definition py_ed25519_methods : PyKeyMethods Ed25519KeyManager := py_methods.

(** The constructors of the classes. *)
Definition py_dilithium_new (keys_dir : bytes) (level : Z) (fs : Fs) : Fs * DilithiumKeyManager :=
  dilithium_new keys_dir level fs.
Definition py_kyber_new (keys_dir : bytes) (level : Z) (fs : Fs) : Fs * KyberKeyManager := kyber_new keys_dir level fs.
Definition py_ed25519_new (keys_dir : bytes) (fs : Fs) : Fs * Ed25519KeyManager := ed25519_new keys_dir fs.

End py_keys.

(** ** Facts *)

(** Python sees every outcome exactly. *)
Lemma set_report_to_py_inj r r' : set_report_to_py r = set_report_to_py r' → r = r'.
Proof.
  destruct r, r'. unfold set_report_to_py, py_nat. simpl. intros E. injection E as E1 E2 E3 _ E4 E5 E6 E7.
  by f_equal; apply Nat2Z.inj.
Qed.

Lemma set_outcome_to_py_inj o o' : set_outcome_to_py o = set_outcome_to_py o' → o = o'.
Proof.
  assert (∀ a b, rejection_name a = rejection_name b → a = b) as Hinj by by intros [] [].
  intros E. assert (report o = report o') as Hr.
  { apply set_report_to_py_inj.
    pose proof (f_equal (λ d, match d with PyDict [_; _; (_, r)] => r | _ => PyNone end) E) as Er.
    by destruct o, o'. }
  destruct o as [r|r|x r], o' as [r'|r'|x' r']; simpl in Hr; subst; try done.
  f_equal. apply Hinj. unfold set_outcome_to_py, py_option in E. by injection E.
Qed.

(** The verdict of [set], read from the dictionary of [set_detailed]. *)
Definition verdict_of (d : PyValue) : PyValue :=
  match d with
  | PyDict (("status", PyStr status) :: ("reason", reason) :: _) =>
      if String.eqb status "complete" then PyBool true
      else if String.eqb status "degraded" then PyBool false
      else match reason with
        | PyStr r => if existsb (String.eqb r) ["capacity_exceeded"; "unavailable"; "no_responsible_nodes"]
                     then PyBool false else PyNone
        | _ => PyNone
        end
  | _ => PyNone
  end%string.

Lemma set_agrees {C E : Type} `{Sha1, Sha256, Bincode, Ipv6Syntax, HashOrder, MokaCache C}
    (handler : SignatureVerifierHandler) `{Environment E (KademliaProtocol ForgetfulStorage.t C), LookupSchedule E}
    (fuel : nat) (srv : Server) (key value : bytes) (w : World (KademliaProtocol ForgetfulStorage.t C) E) :
  py_set handler fuel srv key value w =
    (λ r, (r.1, verdict_of r.2)) <$> py_set_detailed handler fuel srv key value w.
Proof.
  unfold py_set, py_set_detailed, server_set, lift, mbind, F_bind, mret, F_ret.
  destruct (pause w) as [w1 []].
  destruct (set_detailed handler fuel srv key value w1) as [[w2 o]|]; [|done]. by destruct o as [r|r|[] r].
Qed.

(** A server is created exactly for a node id of 20 bytes, or none. *)
Lemma py_new_ok `{Sha1} k a path node_id cache max random :
  (∃ p, py_new k a path node_id cache max random = Ok p) ↔
  match node_id with Some v => length v = ID_LEN | None => True end.
Proof.
  unfold py_new. destruct node_id as [v|]; [|simpl; by split; eauto].
  destruct (ident_of_bytes v) as [i|] eqn:Ei; simpl.
  - split; [|eauto]. intros _. unfold ident_of_bytes in Ei. by case_decide.
  - split; [by intros [? ?]|]. intros Hl. unfold ident_of_bytes in Ei. by case_decide.
Qed.
