(* ===== verification/Counters.v ===== *)
(** * What a node counts (src/src/counters.rs, feature [counters])

    The counters of the datagrams sent, the resends and the checks of empty
    replicas. A method is a sequence of atomic additions, which commute: the
    model runs the methods one after the other. Counters are [u64] and wrap. *)

From S2P Require Import Prelude Storage Messages.

Definition MESSAGE_TYPES : list string :=
  ["Ping"; "Pong"; "Store"; "StoreResult"; "Update"; "UpdateResult"; "UpdateStatusList";
   "UpdateStatusListResult"; "FindNode"; "FindNodeResult"; "FindValue"; "FindValueHit";
   "FindValueNodes"; "Leave"; "FindHash"; "FindHashHit"; "Received"]%string.

Definition CHECK_ROUND_BUCKETS : nat := 5.
Definition CHECK_DURATION_BOUNDS_MS : list Z := [10; 25; 50; 100; 200; 500; 1000; 2000]%Z.

Inductive CheckEnd := EndUnbound | EndNobodyToAsk | EndNoneOrSame | EndOther | EndNoAnswer.

#[global] Instance CheckEnd_eq_dec : EqDecision CheckEnd.
Proof. solve_decision. Defined.

Record Sent := mkSent { sent_datagrams : Z; sent_bytes : Z }.

Record CheckCounts := mkChecks {
  unbound : Z; nobody_to_ask : Z; none_or_same : Z; other : Z; no_answer : Z;
  rounds : list Z;
  duration_ms : list Z;
  duration_total_us : Z
}.

Record CounterSnapshot := mkSnapshot {
  sent : gmap string Sent;
  resends_to_measured_peers : Z;
  resends_to_unmeasured_peers : Z;
  checks : CheckCounts
}.

(** [Inner]; the counters of a check stay together as in [CheckCounts]. *)
Record Inner := mkInner {
  datagrams : list Z;
  bytes_sent : list Z;
  resends_measured : Z;
  resends_unmeasured : Z;
  check_counts : CheckCounts
}.

(** [Inner::default]. *)
Definition default_inner : Inner :=
  mkInner (replicate (length MESSAGE_TYPES) 0%Z) (replicate (length MESSAGE_TYPES) 0%Z) 0 0
    (mkChecks 0 0 0 0 0 (replicate CHECK_ROUND_BUCKETS 0%Z)
       (replicate (length CHECK_DURATION_BOUNDS_MS + 1) 0%Z) 0).

(** [AtomicU64::fetch_add], on a counter and on an element of an array. *)
Definition fetch_add (counter n : Z) : Z := wrap64 (counter + n).
Definition fetch_add_at (l : list Z) (index : nat) (n : Z) : list Z := alter (λ c, fetch_add c n) index l.

(** [Inner::sent]. *)
Definition inner_sent (kind : string) (bytes : Z) (c : Inner) : Inner :=
  match list_find (λ name, name = kind) MESSAGE_TYPES with
  | None => c
  | Some (index, _) =>
      mkInner (fetch_add_at (datagrams c) index 1) (fetch_add_at (bytes_sent c) index bytes)
        (resends_measured c) (resends_unmeasured c) (check_counts c)
  end.

(** [Inner::resent]. *)
Definition inner_resent (measured : bool) (c : Inner) : Inner :=
  if measured then mkInner (datagrams c) (bytes_sent c) (fetch_add (resends_measured c) 1)
    (resends_unmeasured c) (check_counts c)
  else mkInner (datagrams c) (bytes_sent c) (resends_measured c)
    (fetch_add (resends_unmeasured c) 1) (check_counts c).

(** The counter of the outcome, in [Inner::check]. *)
Definition count_end (e : CheckEnd) (k : CheckCounts) : CheckCounts :=
  let add e' n := if bool_decide (e = e') then fetch_add n 1 else n in
  mkChecks (add EndUnbound (unbound k)) (add EndNobodyToAsk (nobody_to_ask k))
    (add EndNoneOrSame (none_or_same k)) (add EndOther (other k)) (add EndNoAnswer (no_answer k))
    (rounds k) (duration_ms k) (duration_total_us k).

(** [Inner::check]; [elapsed] in nanoseconds. *)
Definition inner_check (e : CheckEnd) (n : nat) (elapsed : Z) (c : Inner) : Inner :=
  let k := count_end e (check_counts c) in
  let k' :=
    if n =? 0 then k
    else
      let ms := wrap64 (elapsed `div` 1000000) in
      let bucket := match list_find (λ bound, (ms ≤ bound)%Z) CHECK_DURATION_BOUNDS_MS with
        | Some (i, _) => i | None => length CHECK_DURATION_BOUNDS_MS end in
      mkChecks (unbound k) (nobody_to_ask k) (none_or_same k) (other k) (no_answer k)
        (fetch_add_at (rounds k) (n `min` CHECK_ROUND_BUCKETS - 1) 1)
        (fetch_add_at (duration_ms k) bucket 1)
        (fetch_add (duration_total_us k) (wrap64 (elapsed `div` 1000))) in
  mkInner (datagrams c) (bytes_sent c) (resends_measured c) (resends_unmeasured c) k'.

(** [Inner::snapshot]. *)
Definition snapshot (c : Inner) : CounterSnapshot :=
  let entry index name := (name, mkSent (default 0%Z (datagrams c !! index)) (default 0%Z (bytes_sent c !! index))) in
  mkSnapshot (list_to_map (filter (λ e, (0 < sent_datagrams e.2)%Z) (imap entry MESSAGE_TYPES)))
    (resends_measured c) (resends_unmeasured c) (check_counts c).

(** [Counters]: with the feature [counters], its methods are those of [Inner];
    without it they do nothing. *)
Section feature.
Context (feature : bool).

Definition counters_sent (kind : string) (bytes : Z) (c : Inner) : Inner :=
  if feature then inner_sent kind bytes c else c.
Definition counters_resent (measured : bool) (c : Inner) : Inner := if feature then inner_resent measured c else c.
Definition counters_check (e : CheckEnd) (n : nat) (elapsed : Z) (c : Inner) : Inner :=
  if feature then inner_check e n elapsed c else c.

End feature.

(** ** Histories *)

Inductive CounterEvent :=
  | OnSent (kind : string) (bytes : Z)
  | OnResent (measured : bool)
  | OnCheck (e : CheckEnd) (rounds : nat) (elapsed : Z).

Definition count_event (c : Inner) (ev : CounterEvent) : Inner :=
  match ev with
  | OnSent kind bytes => inner_sent kind bytes c
  | OnResent measured => inner_resent measured c
  | OnCheck e n elapsed => inner_check e n elapsed c
  end.

Definition counted (evs : list CounterEvent) : Inner := foldl count_event default_inner evs.

(** *** What should be counted *)

Definition total_of (f : CounterEvent → Z) (evs : list CounterEvent) : Z := foldr (λ ev acc, f ev + acc)%Z 0%Z evs.

Definition b2z (b : bool) : Z := if b then 1%Z else 0%Z.

Definition is_sent (name : string) (ev : CounterEvent) : Z :=
  match ev with OnSent kind _ => b2z (bool_decide (kind = name)) | _ => 0%Z end.
Definition bytes_of (name : string) (ev : CounterEvent) : Z :=
  match ev with OnSent kind n => if bool_decide (kind = name) then n else 0%Z | _ => 0%Z end.
Definition is_resend (measured : bool) (ev : CounterEvent) : Z :=
  match ev with OnResent m => b2z (bool_decide (m = measured)) | _ => 0%Z end.
Definition ends (e : CheckEnd) (ev : CounterEvent) : Z :=
  match ev with OnCheck e' _ _ => b2z (bool_decide (e' = e)) | _ => 0%Z end.

(** A lookup of [i + 1] rounds, of five or more in the last bucket. *)
Definition took_rounds (i : nat) (ev : CounterEvent) : Z :=
  match ev with
  | OnCheck _ n _ => b2z (bool_decide (0 < n ∧ (n = i + 1 ∨ i = 4 ∧ 5 ≤ n)))
  | _ => 0%Z
  end.

(** A lookup longer than the bound before the bucket and not than its own. *)
Definition lasted (i : nat) (ev : CounterEvent) : Z :=
  match ev with
  | OnCheck _ n elapsed => b2z (bool_decide (0 < n) && bool_decide
      (i < length CHECK_DURATION_BOUNDS_MS → (wrap64 (elapsed `div` 1000000) ≤ nth i CHECK_DURATION_BOUNDS_MS 0)%Z) &&
      bool_decide (0 < i → (nth (i - 1) CHECK_DURATION_BOUNDS_MS 0 < wrap64 (elapsed `div` 1000000))%Z))
  | _ => 0%Z
  end.

Definition micros (ev : CounterEvent) : Z :=
  match ev with OnCheck _ n elapsed => if n =? 0 then 0%Z else (elapsed `div` 1000)%Z | _ => 0%Z end.

(** ** Facts *)

Lemma wrap64_add_l a b : wrap64 (wrap64 a + b) = wrap64 (a + b).
Proof. apply Zplus_mod_idemp_l. Qed.
Lemma wrap64_add_r a b : wrap64 (a + wrap64 b) = wrap64 (a + b).
Proof. apply Zplus_mod_idemp_r. Qed.

(** Every message has a counter. *)
Lemma message_types_complete m : rpc_message_name m ∈ MESSAGE_TYPES.
Proof. apply (bool_decide_unpack _). by destruct m. Qed.

Lemma message_types_nodup : NoDup MESSAGE_TYPES.
Proof. apply (bool_decide_unpack _). vm_compute. exact I. Qed.

Record shaped (c : Inner) : Prop := {
  shaped_datagrams : length (datagrams c) = length MESSAGE_TYPES;
  shaped_bytes : length (bytes_sent c) = length MESSAGE_TYPES;
  shaped_rounds : length (rounds (check_counts c)) = CHECK_ROUND_BUCKETS;
  shaped_durations : length (duration_ms (check_counts c)) = length CHECK_DURATION_BOUNDS_MS + 1
}.

Lemma shaped_event c ev : shaped c → shaped (count_event c ev).
Proof.
  intros [Hd Hb Hr Ht]. destruct ev as [kind n|[]|e n elapsed]; simpl; [|by split..|].
  - unfold inner_sent. destruct (list_find _ _) as [[index name]|]; [|by split].
    split; simpl; unfold fetch_add_at; rewrite ?length_alter; done.
  - unfold inner_check. destruct (n =? 0); split; simpl; unfold fetch_add_at; rewrite ?length_alter; done.
Qed.

(** A counter that every event moves by its share holds the total. *)
Lemma tally (f : Inner → Z) (g : CounterEvent → Z) evs :
  (∀ c ev x, shaped c → f c = wrap64 x → f (count_event c ev) = wrap64 (x + g ev)) →
  f default_inner = 0%Z → f (counted evs) = wrap64 (total_of g evs).
Proof.
  intros Hstep Hinit. unfold counted.
  enough (∀ c x, shaped c → f c = wrap64 x → f (foldl count_event c evs) = wrap64 (x + total_of g evs)) as Hall
    by (rewrite (Hall default_inner 0%Z); [done|by split|by rewrite Hinit]).
  induction evs as [|ev evs IH]; intros c x Hs Hf; simpl; [by rewrite Z.add_0_r|].
  rewrite (IH _ (x + g ev)%Z); [f_equal; lia|by apply shaped_event|by apply Hstep].
Qed.

(** The move of an element of an array. *)
Lemma fetch_add_at_step l i j n x (b : bool) :
  i < length l → default 0%Z (l !! j) = wrap64 x → b = bool_decide (i = j) →
  default 0%Z (fetch_add_at l i n !! j) = wrap64 (x + if b then n else 0).
Proof.
  intros Hi Hx ->. unfold fetch_add_at. case_bool_decide as E.
  - subst. rewrite list_lookup_alter_eq. destruct (lookup_lt_is_Some_2 l j Hi) as [v Hv].
    rewrite Hv in *. simpl in *. subst. apply wrap64_add_l.
  - rewrite list_lookup_alter_ne by done. by rewrite Z.add_0_r.
Qed.

Lemma default_zero n i : default 0%Z (replicate n 0%Z !! i) = 0%Z.
Proof. destruct (replicate n 0%Z !! i) as [x|] eqn:E; [|done]. by apply lookup_replicate in E as [-> _]. Qed.

Lemma index_of_kind kind index name i name' :
  list_find (λ name, name = kind) MESSAGE_TYPES = Some (index, name) → MESSAGE_TYPES !! i = Some name' →
  index < length MESSAGE_TYPES ∧ bool_decide (kind = name') = bool_decide (index = i).
Proof.
  intros (Hl & -> & _)%list_find_Some Hi. split; [by eapply lookup_lt_Some|].
  apply bool_decide_ext. split; [|intros; congruence]. intros ->.
  by eapply NoDup_lookup; [apply message_types_nodup|..].
Qed.

Lemma kind_not_found kind i name :
  list_find (λ name, name = kind) MESSAGE_TYPES = None → MESSAGE_TYPES !! i = Some name →
  bool_decide (kind = name) = false.
Proof.
  intros Hn Hi. apply bool_decide_eq_false. intros ->. apply list_find_None in Hn.
  rewrite Forall_lookup in Hn. by apply (Hn _ _ Hi).
Qed.

Lemma datagrams_counted evs i name :
  MESSAGE_TYPES !! i = Some name →
  default 0%Z (datagrams (counted evs) !! i) = wrap64 (total_of (is_sent name) evs) ∧
  default 0%Z (bytes_sent (counted evs) !! i) = wrap64 (total_of (bytes_of name) evs).
Proof.
  intros Hi. pose proof (lookup_lt_Some _ _ _ Hi) as Hlt. split.
  - apply (tally (λ c, default 0%Z (datagrams c !! i))); [|apply default_zero].
    intros c ev x Hs Hx. destruct ev as [kind n|[]|e n elapsed]; simpl; rewrite ?Z.add_0_r; try done.
    unfold inner_sent. destruct (list_find _ _) as [[index name']|] eqn:Ef.
    + destruct (index_of_kind _ _ _ _ _ Ef Hi) as [Hlt' E]. simpl.
      apply fetch_add_at_step; [by rewrite (shaped_datagrams c)|done|done].
    + rewrite (kind_not_found _ _ _ Ef Hi). simpl. by rewrite Z.add_0_r.
  - apply (tally (λ c, default 0%Z (bytes_sent c !! i))); [|apply default_zero].
    intros c ev x Hs Hx. destruct ev as [kind n|[]|e n elapsed]; simpl; rewrite ?Z.add_0_r; try done.
    unfold inner_sent. destruct (list_find _ _) as [[index name']|] eqn:Ef.
    + destruct (index_of_kind _ _ _ _ _ Ef Hi) as [Hlt' E]. simpl.
      apply fetch_add_at_step; [by rewrite (shaped_bytes c)|done|done].
    + rewrite (kind_not_found _ _ _ Ef Hi). simpl. by rewrite Z.add_0_r.
Qed.

Lemma bounds_ascend j k :
  j ≤ k → k < length CHECK_DURATION_BOUNDS_MS →
  (nth j CHECK_DURATION_BOUNDS_MS 0 ≤ nth k CHECK_DURATION_BOUNDS_MS 0)%Z.
Proof.
  intros Hjk Hk. set (f j k := (nth j CHECK_DURATION_BOUNDS_MS 0 <=? nth k CHECK_DURATION_BOUNDS_MS 0)%Z).
  assert (forallb (λ k, forallb (λ j, f j k) (seq 0 (S k))) (seq 0 8) = true) as Hall by reflexivity.
  rewrite forallb_forall in Hall. specialize (Hall k ltac:(apply in_seq; simpl in Hk; lia)).
  rewrite forallb_forall in Hall. apply Z.leb_le. apply (Hall j). apply in_seq. lia.
Qed.

(** The bucket of a duration. *)
Lemma bucket_of ms i :
  i ≤ length CHECK_DURATION_BOUNDS_MS →
  bool_decide (match list_find (λ bound, (ms ≤ bound)%Z) CHECK_DURATION_BOUNDS_MS with
    | Some (j, _) => j | None => length CHECK_DURATION_BOUNDS_MS end = i) =
  bool_decide (i < length CHECK_DURATION_BOUNDS_MS → (ms ≤ nth i CHECK_DURATION_BOUNDS_MS 0)%Z) &&
  bool_decide (0 < i → (nth (i - 1) CHECK_DURATION_BOUNDS_MS 0 < ms)%Z).
Proof.
  intros Hi. rewrite <- bool_decide_and. apply bool_decide_ext.
  pose proof bounds_ascend as Hasc. set (l := CHECK_DURATION_BOUNDS_MS) in *.
  set (j := match list_find _ l with Some (j, _) => j | None => _ end).
  assert (j ≤ length l ∧ (j < length l → (ms ≤ nth j l 0)%Z) ∧ ∀ k, k < j → (nth k l 0 < ms)%Z) as (Hj & Hle & Hlt).
  { subst j. destruct (list_find _ l) as [[j b]|] eqn:E.
    - apply list_find_Some in E as (Hb & Hms & Hmin). pose proof (lookup_lt_Some _ _ _ Hb) as Hl.
      split; [lia|]. split; [by rewrite (nth_lookup_Some _ _ _ _ Hb)|]. intros k Hk.
      destruct (lookup_lt_is_Some_2 l k) as [b' Hb']; [lia|]. rewrite (nth_lookup_Some _ _ _ _ Hb').
      specialize (Hmin k b' Hb' Hk). lia.
    - apply list_find_None in E. rewrite Forall_lookup in E. split; [done|]. split; [lia|]. intros k Hk.
      destruct (lookup_lt_is_Some_2 l k Hk) as [b' Hb']. rewrite (nth_lookup_Some _ _ _ _ Hb').
      specialize (E k b' Hb'). simpl in E. lia. }
  split.
  - intros <-. split; [done|]. intros H0. apply Hlt. lia.
  - intros [H1 H2]. destruct (Nat.lt_trichotomy j i) as [Hc|[Hc|Hc]]; [|done|].
    + specialize (Hle ltac:(lia)). specialize (H2 ltac:(lia)).
      pose proof (Hasc j (i - 1) ltac:(lia) ltac:(lia)). lia.
    + specialize (Hlt i Hc). specialize (H1 ltac:(lia)). lia.
Qed.

(** The resends and the outcomes. *)
Lemma resends_counted evs :
  resends_measured (counted evs) = wrap64 (total_of (is_resend true) evs) ∧
  resends_unmeasured (counted evs) = wrap64 (total_of (is_resend false) evs).
Proof.
  split; (apply tally; [|done]); intros c ev x Hs Hx;
    destruct ev as [kind n|[]|e n elapsed]; simpl; rewrite ?Z.add_0_r; try done;
    try (unfold inner_sent; by destruct (list_find _ _) as [[]|]);
    unfold fetch_add; rewrite Hx; apply wrap64_add_l.
Qed.

Definition end_count (e : CheckEnd) (k : CheckCounts) : Z :=
  match e with
  | EndUnbound => unbound k | EndNobodyToAsk => nobody_to_ask k | EndNoneOrSame => none_or_same k
  | EndOther => other k | EndNoAnswer => no_answer k
  end.

Lemma ends_counted e evs : end_count e (check_counts (counted evs)) = wrap64 (total_of (ends e) evs).
Proof.
  apply (tally (λ c, end_count e (check_counts c))); [|by destruct e]. intros c ev x Hs Hx.
  destruct ev as [kind n|[]|e' n elapsed]; cbn [count_event ends]; rewrite ?Z.add_0_r; try done.
  { unfold inner_sent. by destruct (list_find _ _) as [[]|]. }
  assert (end_count e (check_counts (inner_check e' n elapsed c)) =
    end_count e (count_end e' (check_counts c))) as ->.
  { unfold inner_check. destruct (n =? 0); [done|]. by destruct e. }
  destruct e, e'; simpl in *; rewrite ?Z.add_0_r; try done; unfold fetch_add; rewrite Hx; apply wrap64_add_l.
Qed.

(** The lookups by rounds and by duration. *)
Lemma rounds_counted evs i :
  i < CHECK_ROUND_BUCKETS →
  default 0%Z (rounds (check_counts (counted evs)) !! i) = wrap64 (total_of (took_rounds i) evs).
Proof.
  intros Hi. apply (tally (λ c, default 0%Z (rounds (check_counts c) !! i))); [|apply default_zero].
  intros c ev x Hs Hx. destruct ev as [kind n|[]|e n elapsed]; cbn [count_event took_rounds]; rewrite ?Z.add_0_r; try done.
  { unfold inner_sent. by destruct (list_find _ _) as [[]|]. }
  unfold inner_check. destruct (Nat.eqb_spec n 0) as [->|Hn].
  - rewrite bool_decide_eq_false_2 by lia. cbn. by rewrite Z.add_0_r.
  - cbn [check_counts rounds count_end]. unfold CHECK_ROUND_BUCKETS in *.
    apply fetch_add_at_step; [rewrite (shaped_rounds c Hs); unfold CHECK_ROUND_BUCKETS; lia|done|].
    apply bool_decide_ext. lia.
Qed.

Lemma durations_counted evs i :
  i < length CHECK_DURATION_BOUNDS_MS + 1 →
  default 0%Z (duration_ms (check_counts (counted evs)) !! i) = wrap64 (total_of (lasted i) evs).
Proof.
  intros Hi. apply (tally (λ c, default 0%Z (duration_ms (check_counts c) !! i))); [|apply default_zero].
  intros c ev x Hs Hx. destruct ev as [kind n|[]|e n elapsed]; cbn [count_event lasted]; rewrite ?Z.add_0_r; try done.
  { unfold inner_sent. by destruct (list_find _ _) as [[]|]. }
  unfold inner_check. destruct (Nat.eqb_spec n 0) as [->|Hn].
  - cbn. by rewrite Z.add_0_r.
  - rewrite bool_decide_eq_true_2, andb_true_l by lia. rewrite <- bucket_of by lia.
    cbn [check_counts duration_ms count_end].
    apply fetch_add_at_step; [|done|done]. rewrite (shaped_durations c Hs).
    destruct (list_find _ _) as [[j b]|] eqn:E; [|lia].
    apply list_find_Some in E as [Hb _]. apply lookup_lt_Some in Hb. lia.
Qed.

Lemma micros_counted evs : duration_total_us (check_counts (counted evs)) = wrap64 (total_of micros evs).
Proof.
  apply (tally (λ c, duration_total_us (check_counts c))); [|done]. intros c ev x Hs Hx.
  destruct ev as [kind n|[]|e n elapsed]; simpl; rewrite ?Z.add_0_r; try done.
  { unfold inner_sent. by destruct (list_find _ _) as [[]|]. }
  unfold inner_check. destruct (n =? 0); simpl; [by rewrite Z.add_0_r|].
  unfold fetch_add. by rewrite Hx, wrap64_add_l, wrap64_add_r.
Qed.

(** The shape of the counters of a history. *)
Lemma shaped_counted evs : shaped (counted evs).
Proof.
  unfold counted. assert (shaped default_inner) as Hs by by split. revert Hs. generalize default_inner.
  induction evs as [|ev evs IH]; intros c Hs; [done|]. by apply IH, shaped_event.
Qed.

(** An array is determined by its length and elements. *)
Lemma array_eq (l : list Z) n (f : nat → Z) :
  length l = n → (∀ i, i < n → default 0%Z (l !! i) = f i) → l = f <$> seq 0 n.
Proof.
  intros Hl Hf. apply list_eq. intros i. destruct (decide (i < n)) as [Hi|Hi].
  - rewrite list_lookup_fmap, lookup_seq_lt by lia. simpl. rewrite <- Hf by done.
    destruct (lookup_lt_is_Some_2 l i) as [v ->]; [lia|done].
  - rewrite lookup_ge_None_2 by lia. rewrite lookup_ge_None_2; [done|].
    rewrite length_fmap, length_seq. lia.
Qed.

(** An entry of a snapshot. *)
Lemma snapshot_sent c i name :
  MESSAGE_TYPES !! i = Some name →
  let d := default 0%Z (datagrams c !! i) in
  sent (snapshot c) !! name =
    if decide (0 < d)%Z then Some (mkSent d (default 0%Z (bytes_sent c !! i))) else None.
Proof.
  intros Hi d. unfold snapshot. cbn [sent].
  set (entry := λ (index : nat) (name : string), _). set (l := imap entry MESSAGE_TYPES).
  assert (NoDup (filter (λ e, (0 < sent_datagrams e.2)%Z) l).*1) as Hnd.
  { assert (l.*1 = MESSAGE_TYPES) as El by reflexivity. clearbody l.
    pose proof message_types_nodup as Hl. rewrite <- El in Hl. clear -Hl.
    induction l as [|e l IH]; [done|]. cbn in Hl. apply NoDup_cons in Hl as [Hn Hl].
    rewrite filter_cons. case_decide; [|by apply IH]. cbn. constructor; [|by apply IH].
    intros (e' & E & He')%list_elem_of_fmap. apply Hn, list_elem_of_fmap. exists e'. split; [done|].
    by apply list_elem_of_filter in He' as [_ He']. }
  case_decide as Hd.
  - apply elem_of_list_to_map_1; [done|]. apply list_elem_of_filter. split; [done|].
    apply list_elem_of_lookup. exists i. subst l. by rewrite list_lookup_imap, Hi.
  - apply not_elem_of_list_to_map_1. intros (e & -> & He)%list_elem_of_fmap.
    apply list_elem_of_filter in He as [Hp He]. apply list_elem_of_lookup in He as [j Hj].
    subst l. rewrite list_lookup_imap in Hj. destruct (MESSAGE_TYPES !! j) as [name|] eqn:Ej; [|done].
    injection Hj as <-. simpl in *. assert (i = j) as -> by (by eapply NoDup_lookup; [apply message_types_nodup|..]).
    done.
Qed.

(** ** Theorem *)

(** The counters count exactly. After any history, the snapshot gives for
    the type of every message of the protocol the datagrams of that type and
    their bytes, and no entry while there are none; the resends to measured and
    unmeasured peers; the checks by outcome; the lookups of checks by rounds
    (the last bucket from five on) and by duration (each bucket up to its bound),
    and their total duration; all modulo [2^64]. *)
Lemma counters_exact (evs : list CounterEvent) :
  let s := snapshot (counted evs) in
  (∀ m, let name := rpc_message_name m in
    let n := wrap64 (total_of (is_sent name) evs) in
    sent s !! name =
      if decide (0 < n)%Z then Some (mkSent n (wrap64 (total_of (bytes_of name) evs))) else None) ∧
  resends_to_measured_peers s = wrap64 (total_of (is_resend true) evs) ∧
  resends_to_unmeasured_peers s = wrap64 (total_of (is_resend false) evs) ∧
  (∀ e, end_count e (checks s) = wrap64 (total_of (ends e) evs)) ∧
  rounds (checks s) = (λ i, wrap64 (total_of (took_rounds i) evs)) <$> seq 0 CHECK_ROUND_BUCKETS ∧
  duration_ms (checks s) =
    (λ i, wrap64 (total_of (lasted i) evs)) <$> seq 0 (length CHECK_DURATION_BOUNDS_MS + 1) ∧
  duration_total_us (checks s) = wrap64 (total_of micros evs).
Proof.
  intros s. destruct (resends_counted evs) as [Hm Hu]. pose proof (shaped_counted evs) as Hs. split_and!.
  - intros m name n. destruct (proj1 (list_elem_of_lookup _ _) (message_types_complete m)) as [i Hi].
    fold name in Hi. destruct (datagrams_counted evs i name Hi) as [Hd Hb].
    unfold s. rewrite (snapshot_sent _ i) by done. by rewrite Hd, Hb.
  - done.
  - done.
  - intros e. apply ends_counted.
  - apply array_eq; [by apply shaped_rounds|]. intros i Hi. by apply rounds_counted.
  - apply array_eq; [by apply shaped_durations|]. intros i Hi. by apply durations_counted.
  - apply micros_counted.
Qed.

Example ex_snapshot :
  let s := snapshot (counted [OnSent "Ping" 40; OnSent "Ping" 50; OnCheck EndUnbound 0 0;
    OnCheck EndNoneOrSame 1 40000000; OnCheck EndNoAnswer 7 2001000000; OnResent false]) in
  sent s = {["Ping" := mkSent 2 90]} ∧ rounds (checks s) = [1; 0; 0; 0; 1]%Z ∧
  duration_ms (checks s) = [0; 0; 1; 0; 0; 0; 0; 0; 1]%Z ∧ duration_total_us (checks s) = 2041000%Z.
Proof. vm_compute. done. Qed.
