(* ===== verification/Text.v ===== *)
(** * The text of configurations and commands

    What the programs of the repository use of [str]: numbers, separators and
    white space, over the UTF-8 bytes of a text; the seeds of a testbed node
    (src/testbed/node.rs). *)

From stdpp Require Import pretty.
From S2P Require Import Prelude Utils.

(** ** Numbers *)

Definition digit_value (b : byte) : option Z :=
  let v := byte_val b in if ((48 <=? v) && (v <=? 57))%Z then Some (v - 48)%Z else None.

(** [u8::from_str], [u16::from_str], [u64::from_str], [usize::from_str]: digits,
    after an optional plus sign, of a number that is at most [max]. *)
Fixpoint parse_digits (max acc : Z) (l : bytes) : option Z :=
  match l with
  | [] => Some acc
  | b :: l' =>
      d ← digit_value b;
      let acc' := (acc * 10 + d)%Z in
      if (acc' <=? max)%Z then parse_digits max acc' l' else None
  end.

Definition parse_unsigned (max : Z) (l : bytes) : option Z :=
  match l with
  | [] => None
  | b :: l' =>
      let digits := if Byte.eqb b x2b then l' else l in
      if bool_decide (digits = []) then None else parse_digits max 0 digits
  end.

Definition U8_MAX : Z := 255.
Definition U16_MAX : Z := 65535.
Definition U64_MAX : Z := 2 ^ 64 - 1.

(** [to_string] of an unsigned number. *)
Definition decimal (x : Z) : bytes := str_bytes (pretty (Z.to_N x)).

(** ** Separators *)

(** [str::split] at a character. *)
Fixpoint split (sep : byte) (l : bytes) : list bytes :=
  match l with
  | [] => [[]]
  | b :: l' =>
      if Byte.eqb b sep then [] :: split sep l'
      else match split sep l' with w :: ws => (b :: w) :: ws | [] => [[b]] end
  end.

(** [str::split_once], [str::rsplit_once]. *)
Fixpoint split_once (sep : byte) (l : bytes) : option (bytes * bytes) :=
  match l with
  | [] => None
  | b :: l' => if Byte.eqb b sep then Some ([], l') else (λ p, (b :: p.1, p.2)) <$> split_once sep l'
  end.

Definition rsplit_once (sep : byte) (l : bytes) : option (bytes * bytes) :=
  (λ p, (reverse p.2, reverse p.1)) <$> split_once sep (reverse l).

(** [splitn(2, sep)]. *)
Definition splitn2 (sep : byte) (l : bytes) : list bytes :=
  match split_once sep l with Some (a, b) => [a; b] | None => [l] end.

(** [join]. *)
Fixpoint join (sep : bytes) (l : list bytes) : bytes :=
  match l with
  | [] => []
  | [x] => x
  | x :: l' => x ++ sep ++ join sep l'
  end.

(** ** White space *)

(** The characters of the property White_Space. *)
Definition WHITE_SPACE : list bytes :=
  [[x09]; [x0a]; [x0b]; [x0c]; [x0d]; [x20]; [xc2; x85]; [xc2; xa0]; [xe1; x9a; x80];
   [xe2; x80; x80]; [xe2; x80; x81]; [xe2; x80; x82]; [xe2; x80; x83]; [xe2; x80; x84]; [xe2; x80; x85];
   [xe2; x80; x86]; [xe2; x80; x87]; [xe2; x80; x88]; [xe2; x80; x89]; [xe2; x80; x8a]; [xe2; x80; xa8];
   [xe2; x80; xa9]; [xe2; x80; xaf]; [xe2; x81; x9f]; [xe3; x80; x80]].

(** The text after one of the prefixes it starts with. *)
Definition strip_one (prefixes : list bytes) (l : bytes) : option bytes :=
  match filter (λ p, take (length p) l = p) prefixes with
  | p :: _ => Some (drop (length p) l)
  | [] => None
  end.

Fixpoint strip_all (prefixes : list bytes) (fuel : nat) (l : bytes) : bytes :=
  match fuel with
  | O => l
  | S fuel' => match strip_one prefixes l with Some l' => strip_all prefixes fuel' l' | None => l end
  end.

(** [str::trim_start], [str::trim_end], [str::trim]. A character of UTF-8 is not
    the end of another one, so the end is trimmed on the reversed text. *)
Definition trim_start (l : bytes) : bytes := strip_all WHITE_SPACE (length l) l.
Definition trim_end (l : bytes) : bytes := reverse (strip_all (reverse <$> WHITE_SPACE) (length l) (reverse l)).
Definition trim (l : bytes) : bytes := trim_end (trim_start l).

(** [str::split_whitespace]: the pieces between white space that are not empty.
    [word] is the piece being read. *)
Fixpoint words_from (fuel : nat) (word l : bytes) : list bytes :=
  let flush ws := if bool_decide (word = []) then ws else word :: ws in
  match fuel with
  | O => flush []
  | S fuel' =>
      match strip_one WHITE_SPACE l with
      | Some l' => flush (words_from fuel' [] l')
      | None => match l with [] => flush [] | b :: l' => words_from fuel' (word ++ [b]) l' end
      end
  end.

Definition split_whitespace (l : bytes) : list bytes := words_from (S (length l)) [] l.

(** ** Configuration *)

(** [String] of its bytes. *)
Fixpoint text_of (l : bytes) : string :=
  match l with [] => EmptyString | b :: l' => String (Ascii.ascii_of_byte b) (text_of l') end.

(** The environment variables that are set, to valid text. *)
Abbreviation Vars := (string → option bytes).

(** [env_or], with the parser of its type. *)
Definition env_or {A} (vars : Vars) (parse : bytes → option A) (name : string) (default_ : A) : A :=
  default default_ (vars name ≫= parse).

(** [parse_seeds] (src/testbed/node.rs). *)
Definition parse_seed (entry : bytes) : option (string * Z) :=
  '(ip, port) ← rsplit_once x3a (trim entry);
  port ← parse_unsigned U16_MAX port;
  Some (text_of ip, port).

Definition parse_seeds (list_ : bytes) (own : string * Z) : list (string * Z) :=
  filter (λ seed, seed ≠ own) (omap parse_seed (split x2c list_)).

(** ** Numbers are read back *)

Lemma byte_of_ascii a : byte_of_Z (Z.of_N (Ascii.N_of_ascii a)) = Ascii.byte_of_ascii a.
Proof. by destruct a as [[] [] [] [] [] [] [] []]. Qed.

Lemma text_of_bytes s : text_of (str_bytes s) = s.
Proof.
  induction s as [|a s IH]; [done|].
  change (str_bytes (String a s)) with (byte_of_Z (Z.of_N (Ascii.N_of_ascii a)) :: str_bytes s).
  cbn [text_of]. by rewrite byte_of_ascii, Ascii.ascii_of_byte_of_ascii, IH.
Qed.

Lemma digit_char x :
  (x < 10)%N → digit_value (byte_of_Z (Z.of_N (Ascii.N_of_ascii (pretty_N_char x)))) = Some (Z.of_N x).
Proof.
  intros Hx. assert (N.to_nat x ∈ seq 0 10) as Hin by (apply elem_of_seq; lia).
  rewrite <- (N2Nat.id x). cbn [seq] in Hin. rewrite !elem_of_cons, elem_of_nil in Hin.
  by destruct_or! Hin; rewrite Hin.
Qed.

Lemma parse_digits_go max x s :
  (0 < x)%N → (Z.of_N x ≤ max)%Z →
  parse_digits max 0 (str_bytes (pretty_N_go x s)) = parse_digits max (Z.of_N x) (str_bytes s).
Proof.
  revert s. induction (N.lt_wf_0 x) as [x _ IH]. intros s Hx Hm. rewrite pretty_N_go_step by done.
  pose proof (N.div_mod x 10 ltac:(done)) as Hdm. pose proof (N.mod_upper_bound x 10 ltac:(done)) as Hmod.
  assert (∀ acc, acc = Z.of_N (x `div` 10) →
    parse_digits max acc (str_bytes (String (pretty_N_char (x `mod` 10)) s)) =
    parse_digits max (Z.of_N x) (str_bytes s)) as Hstep.
  { intros acc ->. change (str_bytes (String ?a s)) with (byte_of_Z (Z.of_N (Ascii.N_of_ascii a)) :: str_bytes s).
    cbn [parse_digits]. rewrite digit_char by done. cbn [mbind option_bind].
    replace (Z.of_N (x `div` 10) * 10 + Z.of_N (x `mod` 10))%Z with (Z.of_N x) by lia.
    by rewrite (proj2 (Z.leb_le _ _)) by lia. }
  destruct (decide (x `div` 10 = 0)%N) as [E|E].
  - rewrite E in *. rewrite pretty_N_go_0. by apply Hstep.
  - rewrite IH; [by apply Hstep|apply N.div_lt; lia|lia|]. pose proof (N.Div0.div_le_upper_bound x 10 x ltac:(lia)). lia.
Qed.

Lemma decimal_digits x : Forall (λ b, is_Some (digit_value b)) (decimal x) ∧ decimal x ≠ [].
Proof.
  unfold decimal, pretty, pretty_N. case_decide as E; [by split; [repeat constructor|]|].
  assert (∀ y s, Forall (λ b, is_Some (digit_value b)) (str_bytes s) →
    Forall (λ b, is_Some (digit_value b)) (str_bytes (pretty_N_go y s)) ∧
    length (str_bytes s) ≤ length (str_bytes (pretty_N_go y s)) ∧
    (y ≠ 0%N → length (str_bytes s) < length (str_bytes (pretty_N_go y s)))) as Hgo.
  { intros y. induction (N.lt_wf_0 y) as [y _ IH]. intros s Hs.
    destruct (decide (y = 0%N)) as [->|Hy]; [rewrite pretty_N_go_0; split_and!; [done|lia|done]|].
    rewrite pretty_N_go_step by lia.
    destruct (IH (y `div` 10)%N ltac:(apply N.div_lt; lia) (String (pretty_N_char (y `mod` 10)) s)) as (Ha & Hb & _).
    - constructor; [|done]. rewrite digit_char by (apply N.mod_upper_bound; lia). eauto.
    - change (length (str_bytes (String _ s))) with (S (length (str_bytes s))) in Hb.
      split_and!; [done|lia..]. }
  destruct (Hgo (Z.to_N x) EmptyString) as (Ha & _ & Hc); [constructor|]. split; [done|].
  intros Hn. rewrite Hn in Hc. specialize (Hc E). simpl in Hc. lia.
Qed.

Lemma parse_decimal max x : (0 ≤ x ≤ max)%Z → parse_unsigned max (decimal x) = Some x.
Proof.
  intros Hx. destruct (decimal_digits x) as [Hd Hn]. unfold parse_unsigned.
  destruct (decimal x) as [|b l] eqn:E; [done|].
  assert (Byte.eqb b x2b = false) as ->.
  { destruct (Byte.eqb b x2b) eqn:Eb; [|done]. apply Byte.byte_dec_bl in Eb as ->.
    apply Forall_cons_1 in Hd as [[v Hv] _]. by vm_compute in Hv. }
  rewrite bool_decide_eq_false_2 by done. rewrite <- E. unfold decimal, pretty, pretty_N.
  case_decide as E0; [assert (x = 0)%Z as -> by lia; change (str_bytes "0") with [x30];
    cbn [parse_digits]; change (digit_value x30) with (Some 0%Z); cbn [mbind option_bind];
    by rewrite (proj2 (Z.leb_le _ _)) by lia|].
  rewrite parse_digits_go by lia. simpl. f_equal. lia.
Qed.

(** ** Pieces are read back *)

Lemma byte_eqb_ne (b c : byte) : b ≠ c → Byte.eqb b c = false.
Proof. intros Hb. destruct (Byte.eqb b c) eqn:E; [|done]. by apply Byte.byte_dec_bl in E. Qed.

Lemma byte_eqb_refl (b : byte) : Byte.eqb b b = true.
Proof. by apply Byte.byte_dec_lb. Qed.

Lemma split_piece sep w : sep ∉ w → split sep w = [w].
Proof.
  induction w as [|b w IH]; intros Hw; [done|]. simpl. rewrite byte_eqb_ne by set_solver. by rewrite IH by set_solver.
Qed.

Lemma split_app sep w l : sep ∉ w → split sep (w ++ sep :: l) = w :: split sep l.
Proof.
  induction w as [|b w IH]; intros Hw; simpl; [by rewrite byte_eqb_refl|].
  rewrite byte_eqb_ne by set_solver. by rewrite IH by set_solver.
Qed.

Lemma split_join sep w ws : Forall (λ x, sep ∉ x) (w :: ws) → split sep (join [sep] (w :: ws)) = w :: ws.
Proof.
  revert w. induction ws as [|w' ws IH]; intros w Hws.
  - apply Forall_cons in Hws as [Hw _]. by apply split_piece.
  - apply Forall_cons in Hws as [Hw Hws]. change (join [sep] (w :: w' :: ws)) with (w ++ sep :: join [sep] (w' :: ws)).
    rewrite split_app by done. by rewrite IH.
Qed.

Lemma split_once_app sep a b : sep ∉ a → split_once sep (a ++ sep :: b) = Some (a, b).
Proof.
  induction a as [|c a IH]; intros Ha; simpl; [by rewrite byte_eqb_refl|].
  rewrite byte_eqb_ne by set_solver. by rewrite IH by set_solver.
Qed.

Lemma rsplit_once_app sep a b : sep ∉ b → rsplit_once sep (a ++ sep :: b) = Some (a, b).
Proof.
  intros Hb. unfold rsplit_once. rewrite reverse_app, reverse_cons, <- app_assoc. simpl.
  rewrite split_once_app by by rewrite elem_of_reverse. simpl. by rewrite !reverse_involutive.
Qed.

(** ** Text without white space *)

(** A printable ASCII character. *)
Definition graphic (b : byte) : bool := ((33 <=? byte_val b) && (byte_val b <=? 126))%Z.

Lemma strip_one_graphic prefixes b l :
  Forall (λ p, match p with c :: _ => graphic c = false | [] => False end) prefixes →
  graphic b = true → strip_one prefixes (b :: l) = None.
Proof.
  intros Hp Hb. unfold strip_one. assert (filter (λ p, take (length p) (b :: l) = p) prefixes = []) as ->; [|done].
  induction Hp as [|p prefixes Hc _ IH]; [done|]. rewrite filter_cons, IH.
  case_decide as Ht; [|done]. destruct p as [|c p]; [done|]. simpl in Ht. injection Ht as -> _. congruence.
Qed.

(** ASCII white space, one byte each. *)
Definition ascii_space (b : byte) : bool := ((9 <=? byte_val b) && (byte_val b <=? 13) || (byte_val b =? 32))%Z.

Lemma strip_one_space prefixes b l :
  Forall (λ p, match p with c :: p' => ascii_space c = true → p' = [] | [] => False end) prefixes →
  [b] ∈ prefixes → ascii_space b = true → strip_one prefixes (b :: l) = Some l.
Proof.
  intros Hp Hb Hs. unfold strip_one.
  destruct (filter (λ p, take (length p) (b :: l) = p) prefixes) as [|p ps] eqn:E.
  - assert ([b] ∈ filter (λ p, take (length p) (b :: l) = p) prefixes) as Hin
      by by apply list_elem_of_filter. rewrite E in Hin. set_solver.
  - assert (p ∈ filter (λ p, take (length p) (b :: l) = p) prefixes) as Hin by (rewrite E; set_solver).
    apply list_elem_of_filter in Hin as [Ht Hin]. rewrite Forall_forall in Hp. specialize (Hp p Hin).
    destruct p as [|c p]; [done|]. simpl in Ht. injection Ht as <- _. by rewrite (Hp Hs).
Qed.

Definition padding (l : bytes) : Prop := Forall (λ b, ascii_space b = true) l.

(** What the trimming needs of the characters it removes. *)
Record trimmable (prefixes : list bytes) : Prop := {
  tm_graphic : Forall (λ p, match p with c :: _ => graphic c = false | [] => False end) prefixes;
  tm_space : Forall (λ p, match p with c :: p' => ascii_space c = true → p' = [] | [] => False end) prefixes;
  tm_spaces b : ascii_space b = true → [b] ∈ prefixes
}.

Lemma ascii_space_white b : ascii_space b = true → [b] ∈ WHITE_SPACE.
Proof.
  intros Hb. apply (bool_decide_unpack _). revert Hb. by destruct b; vm_compute.
Qed.

Lemma trimmable_white : trimmable WHITE_SPACE.
Proof.
  split; [by repeat constructor..|apply ascii_space_white].
Qed.

Lemma trimmable_reversed : trimmable (reverse <$> WHITE_SPACE).
Proof.
  split; [by repeat constructor..|]. intros b Hb. apply list_elem_of_fmap. exists [b]. split; [done|].
  by apply ascii_space_white.
Qed.

Lemma strip_padding prefixes fuel pad b l :
  trimmable prefixes → padding pad → graphic b = true → length pad < fuel →
  strip_all prefixes fuel (pad ++ b :: l) = b :: l.
Proof.
  intros Ht Hp Hb. revert fuel. induction Hp as [|c pad Hc _ IH]; intros [|fuel] Hf; simpl in *; try lia.
  - by rewrite strip_one_graphic by (done || apply Ht).
  - rewrite strip_one_space; [apply IH; lia|apply Ht|by apply Ht|done].
Qed.

(** Text between printable characters is trimmed of its padding, and of nothing
    else. *)
Lemma trim_padded pre a l z post :
  padding pre → padding post → graphic a = true → graphic z = true → last (a :: l) = Some z →
  trim (pre ++ (a :: l) ++ post) = a :: l.
Proof.
  intros Hpre Hpost Ha Hz Hl. unfold trim, trim_start.
  rewrite <- app_comm_cons. rewrite strip_padding; [|apply trimmable_white|done|done|rewrite length_app; simpl; lia].
  apply last_Some in Hl as [l' Hl']. rewrite app_comm_cons, Hl'. unfold trim_end.
  rewrite !reverse_app. simpl. rewrite strip_padding.
  - by rewrite reverse_cons, reverse_involutive.
  - apply trimmable_reversed.
  - unfold padding. by rewrite Forall_reverse.
  - done.
  - rewrite !length_app, length_reverse. simpl. lia.
Qed.

Lemma digit_graphic b : is_Some (digit_value b) → graphic b = true.
Proof. intros [v Hv]. revert Hv. by destruct b; vm_compute. Qed.

(** ** Theorem *)

(** An entry of SEEDS, with the white space around it. *)
Record SeedEntry := mkEntry { en_before : bytes; en_ip : string; en_port : Z; en_after : bytes }.

Definition entry_seed (e : SeedEntry) : string * Z := (en_ip e, en_port e).

Definition entry_text (e : SeedEntry) : bytes :=
  en_before e ++ (str_bytes (en_ip e) ++ x3a :: decimal (en_port e)) ++ en_after e.

Definition seeds_text (es : list SeedEntry) : bytes := join [x2c] (entry_text <$> es).

(** The address is not empty, starts with a printable character and has no
    comma, and the port is one. *)
Record entry_ok (e : SeedEntry) : Prop := {
  en_pad : padding (en_before e) ∧ padding (en_after e);
  en_head : ∃ a l, str_bytes (en_ip e) = a :: l ∧ graphic a = true;
  en_comma : x2c ∉ str_bytes (en_ip e);
  en_range : (0 ≤ en_port e ≤ U16_MAX)%Z
}.

Lemma decimal_no c x : digit_value c = None → c ∉ decimal x.
Proof.
  intros Hc Hin. destruct (decimal_digits x) as [Hd _]. rewrite Forall_forall in Hd.
  destruct (Hd c Hin) as [v Hv]. congruence.
Qed.

Lemma entry_no_comma e : entry_ok e → x2c ∉ entry_text e.
Proof.
  intros [[Hb Ha] _ Hc _]. unfold entry_text.
  assert (∀ l, padding l → x2c ∉ l) as Hpad.
  { intros l Hl Hin. unfold padding in Hl. rewrite Forall_forall in Hl. by specialize (Hl _ Hin). }
  pose proof (decimal_no x2c (en_port e) eq_refl) as Hd.
  rewrite !elem_of_app, elem_of_cons. intros [Hi|[[Hi|[Hi|Hi]]|Hi]]; [by apply (Hpad _ Hb)|done..|by apply (Hpad _ Ha)].
Qed.

Lemma parse_entry e : entry_ok e → parse_seed (entry_text e) = Some (entry_seed e).
Proof.
  intros [[Hb Ha] (a & l & Hip & Hg) Hc Hr]. unfold parse_seed, entry_text.
  destruct (decimal_digits (en_port e)) as [Hd Hn].
  destruct (last (decimal (en_port e))) as [z|] eqn:Hz; [|by apply last_None in Hz].
  rewrite Hip, <- app_comm_cons, (trim_padded _ a _ z); [|done|done|done|..].
  - change (a :: l ++ x3a :: decimal (en_port e)) with ((a :: l) ++ x3a :: decimal (en_port e)).
    rewrite rsplit_once_app by by apply decimal_no. simpl. rewrite parse_decimal by done. simpl.
    change (Some (text_of (a :: l), en_port e) = Some (entry_seed e)). by rewrite <- Hip, text_of_bytes.
  - apply digit_graphic. rewrite Forall_forall in Hd. apply Hd. by apply last_Some_elem_of.
  - rewrite app_comm_cons, last_app, last_cons, Hz. done.
Qed.

(** The seeds of a testbed node are those of the list it is given. The list
    of [ip:port] entries, in any white space, is read back entry by entry, in
    order and with every port of 16 bits, and only the address of the node itself
    is left out. *)
Lemma seeds_are_read_back (es : list SeedEntry) (own : string * Z) (Hes : Forall entry_ok es) :
  parse_seeds (seeds_text es) own = filter (λ seed, seed ≠ own) (entry_seed <$> es).
Proof.
  unfold parse_seeds, seeds_text. destruct es as [|e es]; [done|].
  rewrite fmap_cons, split_join.
  - f_equal. rewrite <- fmap_cons. induction Hes as [|e' es' He _ IH]; [done|].
    rewrite !fmap_cons. cbn [omap list_omap]. by rewrite parse_entry, IH.
  - rewrite <- fmap_cons, Forall_fmap. eapply Forall_impl; [exact Hes|]. apply entry_no_comma.
Qed.

Lemma seeds_are_read_back_witness :
  let es := [mkEntry [] "10.0.0.2" 4000 []; mkEntry [x20] "10.0.0.3" 65535 [x0a]; mkEntry [] "10.0.0.2" 0 []] in
  parse_seeds (seeds_text es) ("10.0.0.3"%string, 65535%Z) =
    [("10.0.0.2"%string, 4000%Z); ("10.0.0.2"%string, 0%Z)].
Proof.
  intros es. etrans; [apply (seeds_are_read_back es)|reflexivity].
  repeat constructor; try (apply (bool_decide_unpack _); vm_compute; exact I);
    try (eexists _, _; split; vm_compute; reflexivity); vm_compute; discriminate.
Defined.
