(* ===== verification/OwnerProps.v ===== *)
(** * Who can replace a record

    A node that holds a record of the owner of a key keeps holding one, whatever
    requests arrive, as long as only the owner can authorize a rotation of its
    records. *)

From S2P Require Import Prelude Utils Node Routing Storage StorageProps Fragmentation Messages Retransmit.
From S2P Require Import Crypto AuthHandler Crawling Effects Protocol Transport Client Handlers ProtocolProps.
From S2P Require Import NodeExample HandlersProps.

Section owner.
Context {St C E : Type} `{Sha1, Sha256, Bincode, Ipv6Syntax, HashOrder}.
Context `{IStorageLaws St, MokaCache C} (handler : SignatureVerifierHandler).
Abbreviation P := (KademliaProtocol St C).
Context `{Environment E P, LookupSchedule E}.
Context (key : ident) (owned : bytes → Prop).

(** A request that does not break the signature scheme: an UPDATE of the key
    that is an accepted rotation of a record of the owner is the owner's. *)
Definition owner_authorizes (m : RpcMessage) : Prop :=
  match m with
  | Update _ k new auth =>
      k = key → ∀ old, owned old → verify_rotation handler key new old auth = true → owned new
  | _ => True
  end.

(** The node serves a record of the owner under the key. *)
Definition holds_owned (s : St) (c : option C) (e : E) : Prop :=
  ∃ v, live (instant e) s !! ident_bytes key = Some v ∧ owned v.

Abbreviation I := (of_records holds_owned).

Lemma held_insert k v : keeps I (storage_insert k v).
Proof using.
  intros [p e] (u & Hu & Ho). unfold storage_insert, update, asks, of_records, mbind, M_bind in *. simpl in *.
  pose proof (law_insert (instant e) (storage p) (ident_bytes k) v) as Hl.
  destruct (insert_if_absent _ _ _ _) as [s' st]. simpl in *. exists u. split; [|done].
  destruct st; [destruct Hl as [Hn ->]|destruct Hl as [Hn ->]|by destruct Hl as [-> _]..];
    (destruct (decide (k = key)) as [->|Hk];
     [rewrite lookup_insert_eq; naive_solver|rewrite lookup_insert_ne; [done|by intros ?%ident_eq]]).
Qed.

Lemma held_set k v : (k = key → owned v) → keeps I (storage_set k v).
Proof using.
  intros Hv [p e] (u & Hu & Ho). unfold storage_set, update, asks, of_records, mbind, M_bind in *. simpl in *.
  pose proof (law_set (instant e) (storage p) (ident_bytes k) v) as Hl.
  destruct (set _ _ _ _) as [s' st]. simpl in *. unfold holds_owned.
  destruct st; [rewrite Hl|rewrite Hl|done|subst s'; eauto];
    (destruct (decide (k = key)) as [->|Hk];
     [rewrite lookup_insert_eq; eauto|rewrite lookup_insert_ne; [eauto|by intros ?%ident_eq]]).
Qed.

(** What is read under the key is the owner's. *)
Lemma held_get k : triple I (storage_get k) (λ o w, (k = key → ∃ v, o = Some v ∧ owned v) ∧ I w).
Proof using.
  intros w Hw. unfold storage_get, asks, gets, mbind, M_bind. simpl. split; [|done]. intros ->.
  destruct Hw as (v & Hv & Ho). exists v. split; [|done]. unfold get. by rewrite law_get, Hv.
Qed.

Context (HI : stable I) (Hkey : key ≠ digest STATUS_LIST_KEY).

Lemma held_framed : framed I.
Proof using HI. by apply framed_records. Qed.

Lemma held_verify k v : keeps I (verify_for_key handler k v).
Proof using HI.
  unfold verify_for_key. pose proof held_framed. keeps_all. intros [p e] Hw. unfold update, of_records in *. simpl in *.
  by destruct (verify_record _ _ _ _ _).
Qed.

Lemma held_safe : request_safe handler I owner_authorizes (λ _, True).
Proof using HI Hkey.
  pose proof held_framed as HF. split.
  - intros i a k v auth HO. unfold rpc_update. case_bool_decide; [keeps_all|].
    eapply triple_bind; [apply held_get|]. intros old. apply triple_pure. intros Hold. fold (keeps (A := bool) I).
    destruct old as [old|]; [|apply keeps_ret].
    change (keeps I (if bool_decide (old = v) then mret true else pause ;;
      if negb (verify_rotation handler k v old auth) then mret false else
      schedule_welcome_if_new (node_at i a) ;; status ← storage_set k v;
      mret (negb (bool_decide (status = CapacityExceeded))))).
    keeps_all. apply held_set. intros ->. destruct (Hold eq_refl) as (u & [= <-] & Ho). bool_facts. by eapply HO; [done|..|done].
  - intros i a k v. unfold rpc_update_status_list. destruct (bool_decide (k = _)) eqn:Hk; simpl; [|keeps_all].
    bool_facts. repeat keeps_step; try done; try apply rq_storage_get; try by apply fr_pause.
    + by apply fr_schedule.
    + apply held_set. congruence.
  - intros i a k v. unfold verify_and_insert. keeps_all; [apply held_verify|apply held_insert].
  - intros f peer _. apply response_framed; [done|]. by intros ch m [p e] Hw.
Qed.

(** Requests, with their senders, dispatched one after the other. *)
Definition dispatch_all (ms : list (RpcMessage * SocketAddr)) : M P E unit :=
  for_each (λ m, dispatch_request handler m.1 m.2) ms ;; mret tt.

Lemma held_requests ms : Forall (λ m, owner_authorizes m.1) ms → keeps I (dispatch_all ms).
Proof using HI Hkey.
  intros Hms. apply keeps_bind; [|intros ?; apply keeps_ret].
  induction Hms as [|[m peer] ms Hm _ IH]; simpl; [apply keeps_ret|]. keeps_all.
  by apply (rq_dispatch handler I held_framed (λ _, True) owner_authorizes held_safe).
Qed.

(** A record of somebody else is refused. *)
Lemma foreign_refused sender_id addr v :
  ¬ owned v → triple I (rpc_store handler sender_id addr key v)
    (λ o w, I w ∧ (o = Some SConflict ∨ o = Some SInvalidRecord)).
Proof using HI Hkey.
  intros Hv. pose proof held_framed as HF. unfold rpc_store, store_needs_lookup.
  rewrite bool_decide_eq_false_2 by done.
  eapply (triple_bind _ _ (λ b w, b = false ∧ I w)).
  { eapply triple_bind; [apply held_get|]. intros o w [Ho Hw]. destruct (Ho eq_refl) as (u & -> & _). done. }
  intros b. apply triple_pure. intros ->. cbn [negb]. unfold verify_and_insert.
  eapply triple_bind; [apply held_verify|]. intros ok. destruct ok; cbn [negb]; [|intros w Hw; by auto].
  intros [p e] Hw. pose proof (held_insert key v (mkW p e) Hw) as Hk. revert Hk. destruct Hw as (u & Hu & Ho).
  unfold storage_insert, update, asks, mbind, M_bind. simpl.
  pose proof (law_insert (instant e) (storage p) (ident_bytes key) v) as Hl.
  destruct (insert_if_absent _ _ _ _) as [s' st]. cbn [fst snd proto env storage] in *.
  destruct st; [naive_solver| |naive_solver|naive_solver].
  destruct Hl as [[?|Heq] _]; [congruence|]. rewrite Hu in Heq. injection Heq as ->. done.
Qed.

End owner.

(** C4: only its owner replaces a record. A node that serves a record of the
    owner of a DID key still serves one after any requests from anybody, STOREs
    of forged records among them; and a STORE of a record that is not the owner's
    is then refused, as a conflict or as invalid, and changes nothing. This assumes
    that nobody else made an authorization that verifies under a key of the owner,
    and that the record does not expire meanwhile. *)
Theorem only_owner_replaces {St C E : Type} `{Sha1, Sha256, Bincode, Ipv6Syntax, HashOrder, IStorageLaws St, MokaCache C}
    (handler : SignatureVerifierHandler) `{Environment E (KademliaProtocol St C), LookupSchedule E}
    (key : ident) (owned : bytes → Prop) (ms : list (RpcMessage * SocketAddr)) (w : World (KademliaProtocol St C) E)
    (Hkey : key ≠ digest STATUS_LIST_KEY) (Hms : Forall (λ m, owner_authorizes handler key owned m.1) ms)
    (Hothers : stable (of_records (holds_owned (C := C) (E := E) key owned)))
    (Hheld : of_records (holds_owned key owned) w) :
  let w' := (dispatch_all handler ms w).1 in
  of_records (holds_owned key owned) w' ∧
  ∀ sender_id addr v, ¬ owned v →
    of_records (holds_owned key owned) (rpc_store handler sender_id addr key v w').1 ∧
    ((rpc_store handler sender_id addr key v w').2 = Some SConflict ∨
     (rpc_store handler sender_id addr key v w').2 = Some SInvalidRecord).
Proof.
  intros w'. assert (of_records (holds_owned key owned) w') as Hw'
    by by apply (held_requests handler key owned Hothers Hkey).
  split; [done|]. intros sender_id addr v Hv.
  by apply (foreign_refused handler key owned Hothers Hkey sender_id addr v Hv).
Qed.

(** ** Owners in a small example *)

Module OwnerExample.
Import NodeExample.

(** The second byte of a record is its owner, who authorizes with it. *)
Definition owner_of (v : bytes) : option byte := v !! 1.

Definition owner_handler : SignatureVerifierHandler := {|
  handle_key_binding_verification key value := Ok (ex_bound key value);
  handle_signature_verification value := Ok (ex_signed value);
  handle_update_verification new old auth := Ok (ex_signed new && bool_decide (hd_error auth = owner_of old));
  handle_issuer_node_signature_verification value := Ok (ex_signed value)
|}.

(** Clocks that stand still, and no other task. *)
#[local] Instance frozen : Environment Z ExP := {|
  instant e := e;
  unix_time e := e;
  jitter _ _ := 0%Z;
  random_id e := (e, me);
  others e p := (e, p);
  send_to e _ _ := (e, true);
  wakeups _ := [OnTimer]
|}.

Definition owners (v : bytes) : Prop := owner_of v = Some x01.
Definition owners_record : bytes := [x24; x01; x07].
Definition attackers_record : bytes := [x24; x02; x07].
Definition held_world : World ExP Z := mkW (with_storage
  (insert_if_absent 0 (storage start) (ident_bytes did_key) owners_record).1 start) 0%Z.

(** A forged STORE, a rotation by the owner and a forged one. *)
Definition attempts : list (RpcMessage * SocketAddr) :=
  [(Messages.Store peer_id did_key attackers_record, peer_addr);
   (Update peer_id did_key [x24; x01; x05; x07] [x01], peer_addr);
   (Update peer_id did_key attackers_record [x02], peer_addr)].

Lemma only_owner_replaces_witness :
  let w' := (dispatch_all owner_handler attempts held_world).1 in
  of_records (holds_owned did_key owners) w' ∧
  ∀ sender_id addr v, ¬ owners v →
    of_records (holds_owned did_key owners) (rpc_store owner_handler sender_id addr did_key v w').1 ∧
    ((rpc_store owner_handler sender_id addr did_key v w').2 = Some SConflict ∨
     (rpc_store owner_handler sender_id addr did_key v w').2 = Some SInvalidRecord).
Proof.
  apply (only_owner_replaces owner_handler did_key owners attempts held_world).
  - intros E1. apply (f_equal ident_bytes) in E1. vm_compute in E1. congruence.
  - constructor; [done|]. constructor; [done|]. constructor; [|constructor]. simpl. intros _ old Ho.
    unfold owners, verify_rotation in *. simpl. rewrite Ho, !andb_false_r. done.
  - by split.
  - exists owners_record. split; vm_compute; reflexivity.
Defined.

(** Both records pass the signature check; the forged one is a conflict. *)
Example forged_conflicts :
  (verify_record (C := Cache) owner_handler 0 None did_key attackers_record).1 = true ∧
  (rpc_store owner_handler peer_id ("10.0.0.2"%string, 4000%Z) did_key attackers_record held_world).2 = Some SConflict ∧
  get 0 (storage (proto (dispatch_all owner_handler attempts held_world).1)) (ident_bytes did_key) =
    Some [x24; x01; x05; x07].
Proof. vm_compute. auto. Qed.

End OwnerExample.
