(* ===== verification/Sniffer.v ===== *)
(** * The sniffer of the testbed attacker (src/testbed/attacker.rs)

    What the attacker learns from the traffic of the testbed: the datagrams
    inside Ethernet frames ([parse_udp]), and the STORE and UPDATE requests
    reassembled from them ([sniff]). An index out of range panics, and a panic
    ends the thread of the sniffer. The clock is read once per frame. *)

From S2P Require Import Prelude Utils Storage Fragmentation FragmentationProps Messages Transport NodeExample.

(** ** Slices *)

(** [l[a..b]], which panics out of range. *)
Definition range_at (l : bytes) (a b : nat) : Run bytes :=
  if (a <=? b) && (b <=? length l) then Done (slice a b l) else Panic.

(** [l.get(..n)] and [l.get(n..)]. *)
Definition get_to (n : nat) (l : bytes) : option bytes := if n <=? length l then Some (take n l) else None.
Definition get_from (n : nat) (l : bytes) : option bytes := if n <=? length l then Some (drop n l) else None.

(** ** Frames *)

(** [Ipv4Addr], by its octets. *)
Record Ipv4Addr := mkIp { octet0 : byte; octet1 : byte; octet2 : byte; octet3 : byte }.

Definition octets (a : Ipv4Addr) : bytes := [octet0 a; octet1 a; octet2 a; octet3 a].

#[global] Instance Ipv4Addr_eq_dec : EqDecision Ipv4Addr.
Proof. solve_decision. Defined.

#[global] Program Instance Ipv4Addr_countable : Countable Ipv4Addr :=
  inj_countable' (λ a, (octet0 a, octet1 a, octet2 a, octet3 a)) (λ '(a, b, c, d), mkIp a b c d) _.
Next Obligation. by intros []. Qed.

(** The result of [parse_udp]. *)
Record Datagram := mkDatagram {
  dg_src : Ipv4Addr;
  dg_src_port : Z;
  dg_dst : Ipv4Addr;
  dg_dst_port : Z;
  dg_payload : bytes
}.

(** [Ipv4Addr::new(l[i], l[i + 1], l[i + 2], l[i + 3])]. *)
Definition addr_at (l : bytes) (i : nat) : Run Ipv4Addr :=
  a ← index_at l i; b ← index_at l (i + 1); c ← index_at l (i + 2); d ← index_at l (i + 3);
  mret (mkIp a b c d).

(** [u16::from_be_bytes([l[i], l[i + 1]])]. *)
Definition u16_at (l : bytes) (i : nat) : Run Z :=
  a ← index_at l i; b ← index_at l (i + 1); mret (be_value [a; b]).

(** [parse_udp]. *)
Definition parse_udp (frame : bytes) : Run (option Datagram) :=
  if length frame <? 14 + 20 + 8 then mret None
  else
    ethertype ← range_at frame 12 14;
    if negb (bool_decide (ethertype = [x08; x00])) then mret None
    else
      let ip := drop 14 frame in
      first ← index_at ip 0;
      if negb (Z.shiftr (byte_val first) 4 =? 4)%Z then mret None
      else
        protocol ← index_at ip 9;
        if negb (byte_val protocol =? 17)%Z then mret None
        else
          fragment ← u16_at ip 6;
          if negb (Z.land fragment 0x3fff =? 0)%Z then mret None
          else
            let header_len := Z.to_nat (Z.land (byte_val first) 0x0f) * 4 in
            total_len ← u16_at ip 2;
            match get_to (Z.to_nat total_len) ip with
            | None => mret None
            | Some ip =>
                match get_from header_len ip with
                | None => mret None
                | Some udp =>
                    if length udp <? 8 then mret None
                    else
                      src ← addr_at ip 12; src_port ← u16_at udp 0;
                      dst ← addr_at ip 16; dst_port ← u16_at udp 2;
                      mret (Some (mkDatagram src src_port dst dst_port (drop 8 udp)))
                end
            end.

(** ** The sniffer *)

Definition KADF_MAGIC : bytes := str_bytes "KADF".
Definition KADF_HEADER : nat := 12.
Definition PARTIAL_TTL : Z := from_secs 10.

(** [Observed] and [Seen]. *)
Record Observed := mkObserved {
  ob_update : bool;
  ob_from : Ipv4Addr;
  ob_to : Ipv4Addr;
  ob_to_port : Z;
  ob_key : ident;
  ob_value : bytes;
  ob_seen : Z
}.

Inductive Seen := SeenNode (ip : Ipv4Addr) | SeenRequest (o : Observed).

(** [Partial]. *)
Record Partial := mkPartial { pt_total : Z; pt_chunks : gmap Z bytes; pt_started : Z }.

(** A message, by its source address, port and fragment id. *)
Abbreviation MessageId := (Ipv4Addr * Z * Z)%type.

(** The variables of [sniff]. *)
Record Sniffer := mkSniffer {
  sn_partial : gmap MessageId Partial;
  sn_done : gmap MessageId Z;
  sn_nodes : gset Ipv4Addr;
  sn_last_cleanup : Z
}.

Definition new_sniffer (now : Z) : Sniffer := mkSniffer ∅ ∅ ∅ now.

(** [Instant::elapsed], which saturates at zero. *)
Definition elapsed (now at_ : Z) : Z := Z.max 0 (now - at_).

Section sniffer.
Context `{Bincode}.

(** [is_node]. *)
Definition is_node (prefix : byte * byte) (ip : Ipv4Addr) : bool :=
  bool_decide ((octet0 ip, octet1 ip) = prefix) && negb (bool_decide (ip = mkIp prefix.1 prefix.2 x00 x01)).

(** The nodes of a datagram, reported the first time they appear. *)
Definition note_node (s : Sniffer) (ip : Ipv4Addr) : Sniffer * list Seen :=
  if decide (ip ∈ sn_nodes s) then (s, [])
  else (mkSniffer (sn_partial s) (sn_done s) ({[ip]} ∪ sn_nodes s) (sn_last_cleanup s), [SeenNode ip]).

Definition note_nodes (s : Sniffer) (d : Datagram) : Sniffer * list Seen :=
  let '(s1, o1) := note_node s (dg_src d) in
  let '(s2, o2) := note_node s1 (dg_dst d) in
  (s2, o1 ++ o2).

(** The header of a fragment: its id, index and total. *)
Definition kadf_header (payload : bytes) : option (Z * Z * Z) :=
  if (length payload <? KADF_HEADER) || negb (bool_decide (take 4 payload = KADF_MAGIC)) then None
  else Some (be_value (slice 4 8 payload), be_value (slice 8 10 payload), be_value (slice 10 12 payload)).

(** The request in a message. A [Frame] is serialized like the triple of its
    fields. *)
Definition request_in (m : bytes) : option (bool * ident * bytes) :=
  match deserialize m with
  | Some (mkFrame _ true (Update _ key value _)) => Some (true, key, value)
  | Some (mkFrame _ true (Store _ key value)) => Some (false, key, value)
  | _ => None
  end.

(** The chunks that are there, in order. *)
Definition assemble_partial (p : Partial) : bytes :=
  mjoin (omap (λ i, pt_chunks p !! i) (seqZ 0 (pt_total p))).

Definition report (now : Z) (d : Datagram) (m : bytes) : list Seen :=
  match request_in m with
  | Some (update, key, value) =>
      [SeenRequest (mkObserved update (dg_src d) (dg_dst d) (dg_dst_port d) key value now)]
  | None => []
  end.

(** A fragment of a message that is not done. *)
Definition add_fragment (now : Z) (s : Sniffer) (d : Datagram) (message_id : MessageId) (index total : Z)
    : Sniffer * list Seen :=
  let entry := default (mkPartial total ∅ now) (sn_partial s !! message_id) in
  let entry' := mkPartial (pt_total entry)
    (<[index := drop KADF_HEADER (dg_payload d)]> (pt_chunks entry)) (pt_started entry) in
  if (Z.of_nat (size (pt_chunks entry')) =? pt_total entry')%Z then
    (mkSniffer (delete message_id (sn_partial s)) (<[message_id := now]> (sn_done s)) (sn_nodes s)
       (sn_last_cleanup s),
     report now d (assemble_partial entry'))
  else
    (mkSniffer (<[message_id := entry']> (sn_partial s)) (sn_done s) (sn_nodes s) (sn_last_cleanup s), []).

Definition cleanup (now : Z) (s : Sniffer) : Sniffer :=
  if (from_secs 1 <? elapsed now (sn_last_cleanup s))%Z then
    mkSniffer (filter (λ kv, (elapsed now (pt_started kv.2) < PARTIAL_TTL)%Z) (sn_partial s))
      (filter (λ kv, (elapsed now kv.2 < PARTIAL_TTL * 3)%Z) (sn_done s)) (sn_nodes s) now
  else s.

(** The part of a turn of the loop after the nodes. *)
Definition sniff_payload (now : Z) (s : Sniffer) (d : Datagram) : Sniffer * list Seen :=
  match kadf_header (dg_payload d) with
  | None => (s, [])
  | Some (frag_id, index, total) =>
      let message_id := (dg_src d, dg_src_port d, frag_id) in
      if (total =? 0)%Z || (total <=? index)%Z || bool_decide (is_Some (sn_done s !! message_id)) then (s, [])
      else
        let '(s', o) := add_fragment now s d message_id index total in
        (cleanup now s', o)
  end.

Definition sniff_datagram (prefix : byte * byte) (dht_port now : Z) (s : Sniffer) (d : Datagram)
    : Sniffer * list Seen :=
  if negb (dg_dst_port d =? dht_port)%Z || negb (is_node prefix (dg_src d)) || negb (is_node prefix (dg_dst d))
  then (s, [])
  else
    let '(s1, o1) := note_nodes s d in
    let '(s2, o2) := sniff_payload now s1 d in
    (s2, o1 ++ o2).

(** A turn of the loop of [sniff], on a frame received at [now]. *)
Definition sniff_frame (prefix : byte * byte) (dht_port now : Z) (s : Sniffer) (frame : bytes)
    : Run (Sniffer * list Seen) :=
  parsed ← parse_udp frame;
  mret (match parsed with
        | None => (s, [])
        | Some d => sniff_datagram prefix dht_port now s d
        end).

(** [sniff]: what each frame makes it report. *)
Fixpoint sniff (prefix : byte * byte) (dht_port : Z) (s : Sniffer) (frames : list (Z * bytes))
    : Run (Sniffer * list (list Seen)) :=
  match frames with
  | [] => mret (s, [])
  | (now, frame) :: frames' =>
      r ← sniff_frame prefix dht_port now s frame;
      rs ← sniff prefix dht_port r.1 frames';
      mret (rs.1, r.2 :: rs.2)
  end.

End sniffer.

(** ** IPv4 UDP packets in Ethernet frames *)

(** The fields of such a frame. The flags may not say that the packet is a
    fragment; a short frame is padded. *)
Record UdpPacket := mkPacket {
  pk_macs : bytes;
  pk_tos : byte;
  pk_ident : bytes;
  pk_flags : bytes;
  pk_ttl : byte;
  pk_sum : bytes;
  pk_src : Ipv4Addr;
  pk_dst : Ipv4Addr;
  pk_options : bytes;
  pk_src_port : Z;
  pk_dst_port : Z;
  pk_udp_rest : bytes;
  pk_payload : bytes;
  pk_padding : bytes
}.

Definition packet_len (p : UdpPacket) : nat := 20 + length (pk_options p) + 8 + length (pk_payload p).

Definition ip_header (p : UdpPacket) : bytes :=
  [byte_of_Z (4 * 16 + (5 + Z.of_nat (length (pk_options p)) / 4)); pk_tos p] ++
  be_bytes 2 (Z.of_nat (packet_len p)) ++ pk_ident p ++ pk_flags p ++ [pk_ttl p; x11] ++ pk_sum p ++
  octets (pk_src p) ++ octets (pk_dst p).

Definition udp_header (p : UdpPacket) : bytes :=
  be_bytes 2 (pk_src_port p) ++ be_bytes 2 (pk_dst_port p) ++ pk_udp_rest p.

Definition frame_of (p : UdpPacket) : bytes :=
  pk_macs p ++ [x08; x00] ++ ip_header p ++ pk_options p ++ udp_header p ++ pk_payload p ++ pk_padding p.

Definition datagram_of (p : UdpPacket) : Datagram :=
  mkDatagram (pk_src p) (pk_src_port p) (pk_dst p) (pk_dst_port p) (pk_payload p).

Record packet_ok (p : UdpPacket) : Prop := {
  ok_macs : length (pk_macs p) = 12;
  ok_ident : length (pk_ident p) = 2;
  ok_flags : length (pk_flags p) = 2;
  ok_whole : Z.land (be_value (pk_flags p)) 0x3fff = 0%Z;
  ok_sum : length (pk_sum p) = 2;
  ok_options : ∃ n, length (pk_options p) = n * 4 ∧ n ≤ 10;
  ok_udp_rest : length (pk_udp_rest p) = 4;
  ok_src_port : (0 ≤ pk_src_port p < 65536)%Z;
  ok_dst_port : (0 ≤ pk_dst_port p < 65536)%Z;
  ok_len : (Z.of_nat (packet_len p) < 65536)%Z
}.

(** A list of known length, element by element. *)
Ltac list_of_length l H :=
  repeat (destruct l as [|? l]; [discriminate H|]; simpl in H; injection H as H);
  apply nil_length_inv in H; subst l.

Lemma two_bytes x : (0 ≤ x < 65536)%Z → ∃ a b, be_bytes 2 x = [a; b] ∧ be_value [a; b] = x.
Proof.
  intros Hx. pose proof (length_be_bytes 2 x) as Hl. pose proof (be_value_be_bytes 2 x) as Hv.
  rewrite Z.mod_small in Hv by (change (256 ^ Z.of_nat 2)%Z with 65536%Z; lia).
  destruct (be_bytes 2 x) as [|a [|b [|c l]]]; try done. eauto.
Qed.

Lemma first_byte n : n ≤ 10 →
  let b := byte_of_Z (4 * 16 + (5 + Z.of_nat n)) in
  Z.shiftr (byte_val b) 4 = 4%Z ∧ Z.to_nat (Z.land (byte_val b) 0x0f) = 5 + n.
Proof.
  intros Hn. do 11 (destruct n as [|n]; [split; vm_compute; reflexivity|]). lia.
Qed.

Lemma get_to_prefix n (l l' pad : bytes) : l = l' ++ pad → length l' = n → get_to n l = Some l'.
Proof. intros -> <-. unfold get_to. rewrite (proj2 (Nat.leb_le _ _)), take_app_length; [done|rewrite length_app; lia]. Qed.

Lemma get_from_prefix n (l h l' : bytes) : l = h ++ l' → length h = n → get_from n l = Some l'.
Proof. intros -> <-. unfold get_from. rewrite (proj2 (Nat.leb_le _ _)), drop_app_length; [done|rewrite length_app; lia]. Qed.

Lemma cons_prefix (x : byte) l l' pad : l = l' ++ pad → x :: l = (x :: l') ++ pad.
Proof. by intros ->. Qed.

Lemma app_prefix (o l l' pad : bytes) : l = l' ++ pad → o ++ l = (o ++ l') ++ pad.
Proof. intros ->. apply app_assoc. Qed.

(** Split off what follows the payload of a packet. *)
Ltac find_prefix := repeat apply cons_prefix; apply app_prefix; repeat apply cons_prefix; reflexivity.

Lemma parse_udp_packet p : packet_ok p → parse_udp (frame_of p) = Done (Some (datagram_of p)).
Proof.
  intros [Hm Hi Hf Hw Hs (n & Ho & Hn) Hu Hsp Hdp Hl].
  pose proof (first_byte n Hn) as [Hv Hh].
  destruct (two_bytes (Z.of_nat (packet_len p)) ltac:(lia)) as (t1 & t2 & Ht & Htv).
  destruct (two_bytes _ Hsp) as (s1 & s2 & Hs1 & Hsv). destruct (two_bytes _ Hdp) as (d1 & d2 & Hd1 & Hdv).
  assert (Z.of_nat (length (pk_options p)) / 4 = Z.of_nat n)%Z as Hdiv
    by (rewrite Ho, Nat2Z.inj_mul; apply Z.div_mul; lia).
  assert (Z.to_nat (be_value [t1; t2]) = packet_len p) as Htl by (rewrite Htv; lia). clear Htv.
  unfold frame_of, ip_header, udp_header, datagram_of. rewrite Ht, Hs1, Hd1, Hdiv, <- Hsv, <- Hdv.
  set (b0 := byte_of_Z _) in *. clearbody b0. clear Ht Hs1 Hd1 Hsv Hdv Hdiv Hl Hsp Hdp.
  destruct p as [macs tos ident flags ttl sum [a1 a2 a3 a4] [c1 c2 c3 c4] opts sp dp rest payload pad].
  cbn [pk_macs pk_tos pk_ident pk_flags pk_ttl pk_sum pk_src pk_dst pk_options pk_udp_rest pk_payload pk_padding
    octets octet0 octet1 octet2 octet3] in *.
  list_of_length macs Hm. list_of_length ident Hi. list_of_length flags Hf. list_of_length sum Hs.
  list_of_length rest Hu. unfold parse_udp.
  rewrite (proj2 (Nat.ltb_ge _ _)) by (simpl; rewrite !length_app; simpl; lia).
  cbn -[Z.shiftr Z.land be_value byte_val get_to get_from Nat.ltb Nat.mul].
  rewrite Hv, Hw, Htl, Hh. unfold packet_len in *; cbn [pk_options pk_payload].
  erewrite get_to_prefix; [|find_prefix|simpl; rewrite !length_app; simpl; lia].
  erewrite get_from_prefix; [|repeat apply cons_prefix; reflexivity|simpl; lia].
  rewrite (proj2 (Nat.ltb_ge _ _)) by (simpl; lia). reflexivity.
Qed.

(** ** Frames that panic *)

Lemma addr_at_lt l i : i + 3 < length l → ∃ a, addr_at l i = Done a.
Proof.
  intros Hi. unfold addr_at, mbind, Run_bind.
  destruct (index_at_lt l i) as (a & -> & _); [lia|]. destruct (index_at_lt l (i + 1)) as (b & -> & _); [lia|].
  destruct (index_at_lt l (i + 2)) as (c & -> & _); [lia|].
  destruct (index_at_lt l (i + 3)) as (d & -> & _); [lia|]. by eexists.
Qed.

Lemma addr_at_ge l i : length l ≤ i + 3 → addr_at l i = Panic.
Proof.
  intros Hi. unfold addr_at, mbind, Run_bind. rewrite (index_at_ge l (i + 3)) by lia. by repeat case_match.
Qed.

Lemma u16_at_run l i : i + 1 < length l → ∃ x, u16_at l i = Done x ∧ (0 ≤ x < 65536)%Z.
Proof.
  intros Hi. unfold u16_at, mbind, Run_bind.
  destruct (index_at_lt l i) as (a & -> & _); [lia|]. destruct (index_at_lt l (i + 1)) as (b & -> & _); [lia|].
  eexists. split; [done|]. apply (be_value_range [a; b]).
Qed.

Definition u8 (l : bytes) (i : nat) : Z := byte_val (default x00 (l !! i)).

(** An IPv4 header that claims to be too short to hold its addresses: fewer
    than 20 bytes of packet, of which 8 or more are left for UDP. *)
Definition short_header (frame : bytes) : Prop :=
  let ip := drop 14 frame in
  let total_len := (256 * u8 ip 2 + u8 ip 3)%Z in
  42 ≤ length frame ∧ slice 12 14 frame = [x08; x00] ∧ Z.shiftr (u8 ip 0) 4 = 4%Z ∧ u8 ip 9 = 17%Z ∧
  Z.land (256 * u8 ip 6 + u8 ip 7) 0x3fff = 0%Z ∧
  (4 * Z.land (u8 ip 0) 0x0f + 8 ≤ total_len < 20)%Z.

Lemma be_value_two a b : be_value [a; b] = (256 * byte_val a + byte_val b)%Z.
Proof. unfold be_value. simpl. lia. Qed.

(** The end of [parse_udp], on the packet and its UDP part. *)
Lemma read_fields_run ip udp :
  8 ≤ length udp →
  (src ← addr_at ip 12; src_port ← u16_at udp 0; dst ← addr_at ip 16; dst_port ← u16_at udp 2;
   mret (Some (mkDatagram src src_port dst dst_port (drop 8 udp)))) = Panic ↔ length ip < 20.
Proof.
  intros Hu. destruct (u16_at_run udp 0) as (x & Hx & _); [lia|]. destruct (u16_at_run udp 2) as (y & Hy & _); [lia|].
  rewrite Hx, Hy. unfold mbind, Run_bind.
  destruct (decide (15 < length ip)); [|rewrite (addr_at_ge ip 12) by lia; split; [lia|done]].
  destruct (addr_at_lt ip 12) as [a ->]; [lia|].
  destruct (decide (19 < length ip)); [|rewrite (addr_at_ge ip 16) by lia; split; [lia|done]].
  destruct (addr_at_lt ip 16) as [b ->]; [lia|]. split; [done|lia].
Qed.

Lemma parse_udp_panics frame : parse_udp frame = Panic ↔ short_header frame.
Proof.
  unfold short_header. destruct (decide (42 ≤ length frame)) as [Hl|Hl].
  2:{ unfold parse_udp. rewrite (proj2 (Nat.ltb_lt _ _)) by lia. split; [done|lia]. }
  unfold parse_udp. rewrite (proj2 (Nat.ltb_ge _ _)) by lia.
  do 42 (destruct frame as [|? frame]; [simpl in Hl; lia|]). clear Hl.
  cbn -[Z.shiftr Z.land be_value byte_val get_to get_from Nat.ltb Nat.mul Z.mul Nat.le].
  case_bool_decide as He; [|naive_solver]. cbn [negb].
  unfold u8. cbn [lookup list_lookup default from_option id].
  rewrite !be_value_two. pose proof (byte_val_range b15). pose proof (byte_val_range b16).
  set (t := (256 * byte_val b15 + byte_val b16)%Z) in *.
  assert (0 ≤ Z.land (byte_val b13) 15)%Z as Hh by (apply Z.land_nonneg; lia).
  set (h := Z.land (byte_val b13) 15) in *.
  repeat (case_match; bool_facts; [split; [done|intros (_ & _ & ? & ? & ? & ?); congruence]|]).
  set (ip := b13 :: _). assert (28 ≤ length ip) as Hip by (simpl; lia). clearbody ip t h.
  unfold get_to. destruct (Z.to_nat t <=? length ip) eqn:Et; bool_facts; [|split; [done|lia]].
  assert (length (take (Z.to_nat t) ip) = Z.to_nat t) as El by (rewrite length_take; lia).
  unfold get_from. destruct (Z.to_nat h * 4 <=? _) eqn:Eh; bool_facts; [|split; [done|lia]].
  case_match; bool_facts; rewrite length_drop in *; [split; [done|lia]|].
  rewrite read_fields_run by (rewrite length_drop; lia).
  rewrite El. split; [|lia]. intros Ht. split_and!; try done; lia.
Qed.

(** ** A message on the wire *)

Section wire.
Context `{Bincode} (prefix : byte * byte) (dht_port : Z).
Context (src dst : Ipv4Addr) (src_port f : Z) (payload : bytes) (t0 : Z).

Let cs := message_chunks payload.
Let n := Z.of_nat (length cs).
Let mid : MessageId := (src, src_port, f).

(** A frame with a fragment of the message. *)
Definition own_frame (x : bytes) : Prop :=
  ∃ data, parse_udp x = Done (Some (mkDatagram src src_port dst dht_port data)) ∧ data ∈ encode_fragments f payload.

(** Any other frame that parses: it does not claim to be of the message. *)
Definition other_frame (x : bytes) : Prop :=
  parse_udp x ≠ Panic ∧ ∀ d i t f', parse_udp x = Done (Some d) → kadf_header (dg_payload d) = Some (f', i, t) →
    (dg_src d, dg_src_port d, f') ≠ mid.

(** The index of the fragment of the message in a frame. *)
Definition frame_index (x : bytes) : option Z :=
  match parse_udp x with
  | Done (Some d) =>
      '(f', i, _) ← kadf_header (dg_payload d);
      if decide ((dg_src d, dg_src_port d, f') = mid) then Some i else None
  | _ => None
  end.

Definition seen_indices (frames : list (Z * bytes)) : gset Z := list_to_set (omap (frame_index ∘ snd) frames).

(** The requests reported at the frames of the message. *)
Definition seen_request (o : Seen) : option Observed :=
  match o with SeenRequest r => Some r | SeenNode _ => None end.

Definition reports (frames : list (Z * bytes)) (outs : list (list Seen)) : list Observed :=
  mjoin (zip_with (λ x o, if frame_index x.2 is Some _ then omap seen_request o else []) frames outs).

Context (Hfits : fits payload) (Hf : (0 ≤ f < 2 ^ 32)%Z).
Context (Hsrc : is_node prefix src = true) (Hdst : is_node prefix dst = true).

Definition all_indices : gset Z := list_to_set (seqZ 0 n).

Lemma n_range : (1 ≤ n < 65536)%Z.
Proof using Hfits. by apply message_chunks_count. Qed.

Lemma all_indices_iff i : i ∈ all_indices ↔ (0 ≤ i < n)%Z.
Proof using. unfold all_indices. rewrite elem_of_list_to_set, elem_of_seqZ. lia. Qed.

Lemma size_all_indices : size all_indices = Z.to_nat n.
Proof using. unfold all_indices. rewrite size_list_to_set, length_seqZ by apply NoDup_seqZ. lia. Qed.

(** The sniffer reads the header the sender wrote. *)
Lemma kadf_header_written i t chunk :
  (0 ≤ i < 65536)%Z → (0 ≤ t < 65536)%Z →
  kadf_header (frag_header f i t ++ chunk) = Some (f, i, t) ∧
  drop KADF_HEADER (frag_header f i t ++ chunk) = chunk.
Proof using Hf.
  clear n cs. intros Hi Ht. pose proof (length_frag_header f i t) as Hl.
  assert (drop KADF_HEADER (frag_header f i t ++ chunk) = chunk) as Hd
    by (change KADF_HEADER with FRAG_HEADER_LEN; rewrite <- Hl; apply drop_app_length).
  split; [|done]. unfold kadf_header.
  rewrite (proj2 (Nat.ltb_ge _ _)) by (rewrite length_app, Hl; unfold KADF_HEADER, FRAG_HEADER_LEN; lia).
  rewrite take_app_le by (rewrite Hl; unfold FRAG_HEADER_LEN; lia).
  rewrite bool_decide_eq_true_2 by (unfold frag_header; by rewrite take_app_length').
  rewrite !slice_app_l by (rewrite Hl; unfold FRAG_HEADER_LEN; lia).
  unfold frag_header.
  destruct (header_fields (be_bytes 4 FRAG_MAGIC) (be_bytes 4 f) (be_bytes 2 i) (be_bytes 2 t)) as (_ & -> & -> & ->);
    [by rewrite length_be_bytes..|].
  by rewrite !be_value_field by (simpl; lia).
Qed.

Lemma own_frame_header x : own_frame x →
  ∃ data i chunk, parse_udp x = Done (Some (mkDatagram src src_port dst dht_port data)) ∧
    kadf_header data = Some (f, i, n) ∧ (0 ≤ i < n)%Z ∧ drop KADF_HEADER data = chunk ∧
    cs !! Z.to_nat i = Some chunk ∧ frame_index x = Some i.
Proof using Hfits Hf.
  intros (data & Hx & Hd). rewrite encode_fragments_eq in Hd by done. pose proof n_range as Hn.
  apply list_elem_of_lookup in Hd as (k & Hk). rewrite list_lookup_imap in Hk. fold cs in Hk.
  destruct (cs !! k) as [c|] eqn:Hc; [|done]. apply (inj Some) in Hk as <-.
  pose proof (lookup_lt_Some _ _ _ Hc) as Hlt. unfold n in *.
  destruct (kadf_header_written (Z.of_nat k) (Z.of_nat (length cs)) c) as [Hh Hdr]; [lia..|].
  eexists _, (Z.of_nat k), c. split_and!; [done|done|lia|lia|done|by rewrite Nat2Z.id|].
  unfold frame_index. rewrite Hx. cbn [dg_payload]. rewrite Hh. cbn.
  by rewrite decide_True.
Qed.

Lemma other_frame_index x : other_frame x → frame_index x = None.
Proof using.
  intros [_ Hx]. unfold frame_index. destruct (parse_udp x) as [|[d|]] eqn:E; [done| |done].
  destruct (kadf_header (dg_payload d)) as [[[f' i] t]|] eqn:Eh; [|done]. simpl.
  rewrite decide_False; [done|]. by eapply Hx.
Qed.

(** What the sniffer knows of the message once it saw the indices [I]. *)
Record holds (I : gset Z) (p : Partial) : Prop := {
  ho_total : pt_total p = n;
  ho_dom : dom (pt_chunks p) = I;
  ho_chunks i c : pt_chunks p !! i = Some c → (0 ≤ i < n)%Z ∧ cs !! Z.to_nat i = Some c;
  ho_started : (t0 ≤ pt_started p)%Z
}.

Record knows (I : gset Z) (s : Sniffer) : Prop := {
  kn_sub : I ⊆ all_indices;
  kn_done : I = all_indices → sn_partial s !! mid = None ∧ ∃ t, sn_done s !! mid = Some t ∧ (t0 ≤ t)%Z;
  kn_open : I ≠ all_indices → sn_done s !! mid = None ∧
    (∃ p, sn_partial s !! mid = Some p ∧ holds I p) ∨ sn_done s !! mid = None ∧ sn_partial s !! mid = None ∧ I = ∅
}.

Lemma holds_assembled p : holds all_indices p → assemble_partial p = payload.
Proof using.
  intros [Ht Hd Hc _]. unfold assemble_partial. rewrite Ht, <- (message_chunks_join payload). f_equal. fold cs.
  assert (Forall2 (λ i c, pt_chunks p !! i = Some c) (seqZ 0 n) cs) as Ha.
  { apply Forall2_same_length_lookup. rewrite length_seqZ. split; [unfold n; lia|].
    intros k i c Hi Hk. apply lookup_seqZ in Hi as [-> Hlt].
    destruct (pt_chunks p !! (0 + Z.of_nat k)%Z) as [c'|] eqn:E.
    - apply Hc in E as [_ E]. replace (Z.to_nat (0 + Z.of_nat k)) with k in E by lia. congruence.
    - apply not_elem_of_dom in E. rewrite Hd, all_indices_iff in E. lia. }
  clear Hd Hc Ht. induction Ha as [|i c js cs' Hi _ IH]; [done|]. simpl. rewrite Hi. by f_equal.
Qed.

Lemma partial_holds_insert I p i c :
  holds I p → (0 ≤ i < n)%Z → cs !! Z.to_nat i = Some c →
  holds ({[i]} ∪ I) (mkPartial (pt_total p) (<[i := c]> (pt_chunks p)) (pt_started p)).
Proof using.
  intros [Ht Hd Hc Hs] Hi Hk. split; simpl; [done|by rewrite dom_insert_L, Hd| |done].
  intros j c'. rewrite lookup_insert. case_decide as E; [|apply Hc]. subst j. by intros [= <-].
Qed.

Lemma holds_size I p : holds I p → I ⊆ all_indices →
  (Z.of_nat (size (pt_chunks p)) =? pt_total p)%Z = bool_decide (I = all_indices).
Proof using.
  intros [Ht Hd _ _] HI. rewrite <- size_dom, Hd, Ht. pose proof size_all_indices as Hs. unfold n in *.
  case_bool_decide as E; [apply Z.eqb_eq; rewrite E, Hs; lia|]. apply Z.eqb_neq. intros Hz. apply E.
  apply set_subseteq_size_eq; [done|]. rewrite Hs. lia.
Qed.

(** The sweep does not touch a message of the last [PARTIAL_TTL]. *)
Lemma knows_cleanup I now s : knows I s → (now < t0 + PARTIAL_TTL)%Z → knows I (cleanup now s).
Proof using.
  intros [Hs Hd Ho] Hn. unfold cleanup. case_match; [|done]. split; simpl; [done| |].
  - intros HI. destruct (Hd HI) as (Hp & t & Ht & Ht0). split.
    + apply map_lookup_filter_None. by left.
    + exists t. split; [|done]. apply map_lookup_filter_Some. split; [done|]. simpl.
      unfold elapsed, PARTIAL_TTL, from_secs in *. lia.
  - intros HI. destruct (Ho HI) as [(Hdn & p & Hp & Hh)|(Hdn & Hp & ->)].
    + left. split; [apply map_lookup_filter_None; by left|]. exists p. split; [|done].
      apply map_lookup_filter_Some. split; [done|]. simpl. destruct Hh as [_ _ _ Hst].
      unfold elapsed, PARTIAL_TTL, from_secs in *. lia.
    + right. split_and!; [apply map_lookup_filter_None; by left..|done].
Qed.

(** [knows] is about one message only. *)
Lemma knows_same I s s' :
  sn_partial s' !! mid = sn_partial s !! mid → sn_done s' !! mid = sn_done s !! mid → knows I s → knows I s'.
Proof using. intros Hp Hd [Hs Hf1 Ho]. split; [done|..]; by rewrite Hp, Hd. Qed.

Lemma note_nodes_maps s d :
  sn_partial (note_nodes s d).1 = sn_partial s ∧ sn_done (note_nodes s d).1 = sn_done s ∧
  omap seen_request (note_nodes s d).2 = [].
Proof using. unfold note_nodes, note_node. by repeat (case_decide; simpl). Qed.

(** A fragment of the message. *)
Definition outcome_at (now : Z) (I : gset Z) (i : Z) : list Seen :=
  if decide (I ≠ all_indices ∧ {[i]} ∪ I = all_indices) then
    report now (mkDatagram src src_port dst dht_port []) payload
  else [].

Lemma report_request now d m :
  omap seen_request (report now d m) =
    match request_in m with
    | Some (u, k, v) => [mkObserved u (dg_src d) (dg_dst d) (dg_dst_port d) k v now]
    | None => []
    end.
Proof using. unfold report. by destruct (request_in m) as [[[u k] v]|]. Qed.

Lemma own_payload now I s data i chunk :
  knows I s → (t0 ≤ now < t0 + PARTIAL_TTL)%Z → kadf_header data = Some (f, i, n) → (0 ≤ i < n)%Z →
  drop KADF_HEADER data = chunk → cs !! Z.to_nat i = Some chunk →
  let r := sniff_payload now s (mkDatagram src src_port dst dht_port data) in
  knows ({[i]} ∪ I) r.1 ∧ r.2 = outcome_at now I i.
Proof using Hf.
  intros [Hs Hd Ho] [Ht0 Ht] Hh Hi Hdr Hc. unfold sniff_payload. cbn [dg_payload dg_src dg_src_port].
  rewrite Hh. fold mid. rewrite (proj2 (Z.eqb_neq _ _)), (proj2 (Z.leb_gt _ _)) by lia. cbn [orb].
  assert ({[i]} ∪ I ⊆ all_indices) as Hs' by (intros j; rewrite elem_of_union, elem_of_singleton, all_indices_iff;
    intros [->|Hj%Hs]; [done|by apply all_indices_iff]).
  unfold outcome_at. destruct (decide (I = all_indices)) as [HI|HI].
  { destruct (Hd HI) as (Hp & t & Hdn & Hdt). rewrite decide_False by naive_solver.
    rewrite Hdn, bool_decide_eq_true_2 by eauto. split; [|done].
    replace ({[i]} ∪ I) with I; [by split|]. subst I. apply set_eq. intros j.
    rewrite elem_of_union, elem_of_singleton. split; [tauto|]. intros [->|?]; [by apply all_indices_iff|done]. }
  assert (sn_done s !! mid = None ∧ holds I (default (mkPartial n ∅ now) (sn_partial s !! mid))) as [Hdn Hhold].
  { destruct (Ho HI) as [(Hdn & p & Hp & Hh')|(Hdn & Hp & ->)]; rewrite Hp; [done|].
    split; [done|]. split; simpl; [done|set_solver|done|done]. }
  rewrite Hdn, bool_decide_eq_false_2 by (by intros []). unfold add_fragment. cbn [dg_payload]. rewrite Hdr.
  set (entry := default _ _) in *. pose proof (partial_holds_insert I entry i chunk Hhold Hi Hc) as Hins.
  rewrite (holds_size _ _ Hins Hs'). case_bool_decide as Hfull.
  - rewrite decide_True by done. cbn [fst snd]. split.
    + apply knows_cleanup; [|done]. split; [done| |done]. intros _. cbn [sn_partial sn_done].
      rewrite lookup_delete_eq, lookup_insert_eq. eauto.
    + rewrite Hfull in Hins. by rewrite (holds_assembled _ Hins).
  - rewrite decide_False by naive_solver. split; [|done].
    apply knows_cleanup; [|done]. split; [done|done|]. intros _. left. cbn [sn_partial sn_done].
    rewrite lookup_insert_eq. eauto.
Qed.

Lemma other_payload now I s d :
  knows I s → (now < t0 + PARTIAL_TTL)%Z →
  (∀ f' i t, kadf_header (dg_payload d) = Some (f', i, t) → (dg_src d, dg_src_port d, f') ≠ mid) →
  knows I (sniff_payload now s d).1.
Proof using.
  intros Hk Hn Hd. unfold sniff_payload. destruct (kadf_header _) as [[[f' i] t]|] eqn:E; [|done].
  specialize (Hd _ _ _ eq_refl). case_match; [done|]. unfold add_fragment.
  destruct (Z.of_nat _ =? _)%Z; cbn [fst snd]; apply knows_cleanup; try done; apply (knows_same I s); try done;
    cbn [sn_partial sn_done]; by rewrite ?lookup_delete_ne, ?lookup_insert_ne by done.
Qed.

Definition in_window (x : Z * bytes) : Prop := (t0 ≤ x.1 < t0 + PARTIAL_TTL)%Z.

Lemma own_sniffed I now s x :
  knows I s → in_window (now, x) → own_frame x →
  ∃ i s' o, frame_index x = Some i ∧ sniff_frame prefix dht_port now s x = Done (s', o) ∧
    knows ({[i]} ∪ I) s' ∧ omap seen_request o = omap seen_request (outcome_at now I i).
Proof using Hf Hfits Hsrc Hdst.
  intros Hk Hw Hx. destruct (own_frame_header x Hx) as (data & i & chunk & Hp & Hh & Hi & Hd & Hc & Hix).
  set (d := mkDatagram src src_port dst dht_port data) in *.
  destruct (note_nodes_maps s d) as (Hnp & Hnd & Hno).
  assert (knows I (note_nodes s d).1) as Hk' by (apply (knows_same I s); [by rewrite Hnp|by rewrite Hnd|done]).
  destruct (own_payload now I (note_nodes s d).1 data i chunk Hk' Hw Hh Hi Hd Hc) as [Hk2 Ho].
  exists i. unfold sniff_frame. rewrite Hp. unfold mbind, Run_bind, sniff_datagram.
  change (dg_dst_port d) with dht_port. change (dg_src d) with src. change (dg_dst d) with dst.
  rewrite Z.eqb_refl, Hsrc, Hdst. cbn [negb orb]. fold d in Hk2, Ho.
  destruct (note_nodes s d) as [s1 o1]. cbn [fst snd] in *.
  destruct (sniff_payload now s1 d) as [s2 o2]. cbn [fst snd] in *.
  exists s2, (o1 ++ o2). split_and!; [done..|]. rewrite omap_app, Hno, Ho. done.
Qed.

Lemma other_sniffed I now s x :
  knows I s → in_window (now, x) → other_frame x →
  ∃ s' o, frame_index x = None ∧ sniff_frame prefix dht_port now s x = Done (s', o) ∧ knows I s'.
Proof using.
  intros Hk [_ Hw] Hx. pose proof (other_frame_index x Hx) as Hix. destruct Hx as [Hnp Hx].
  unfold sniff_frame. destruct (parse_udp x) as [|[d|]] eqn:Hp; [done| |eauto].
  unfold mbind, Run_bind, sniff_datagram, mret, Run_ret. case_match; [eauto|].
  destruct (note_nodes_maps s d) as (Hpp & Hnd & _).
  assert (knows I (note_nodes s d).1) as Hk' by (apply (knows_same I s); [by rewrite Hpp|by rewrite Hnd|done]).
  destruct (note_nodes s d) as [s1 o1]. cbn [fst snd] in *.
  pose proof (other_payload now I s1 d Hk' Hw ltac:(intros; by eapply Hx)) as Hk2.
  destruct (sniff_payload now s1 d) as [s2 o2]. eauto.
Qed.

(** The report of the message, if it is a request. *)
Definition request_seen (t : Z) : list Observed :=
  match request_in payload with
  | Some (u, k, v) => [mkObserved u src dst dht_port k v t]
  | None => []
  end.

(** The reports on the message over the frames that follow the indices [I]. *)
Definition reported (I : gset Z) (frames : list (Z * bytes)) (rs : list Observed) : Prop :=
  (I ≠ all_indices ∧ seen_indices frames ∪ I = all_indices ∧
   ∃ pre t x post, frames = pre ++ (t, x) :: post ∧ seen_indices pre ∪ I ≠ all_indices ∧
     seen_indices (pre ++ [(t, x)]) ∪ I = all_indices ∧ rs = request_seen t) ∨
  ((I = all_indices ∨ seen_indices frames ∪ I ≠ all_indices) ∧ rs = []).

Lemma seen_indices_cons x frames :
  seen_indices (x :: frames) =
    match frame_index x.2 with Some i => {[i]} ∪ seen_indices frames | None => seen_indices frames end.
Proof using. unfold seen_indices. simpl. by destruct (frame_index x.2). Qed.

Lemma reported_none I now x frames rs :
  frame_index x = None → reported I frames rs → reported I ((now, x) :: frames) rs.
Proof using.
  intros Hx [(HI & Hs & pre & t & y & post & -> & Hpre & Hy & ->)|[HI ->]]; [left|right].
  - split; [done|]. rewrite seen_indices_cons. cbn [snd]. rewrite Hx. split; [done|].
    exists ((now, x) :: pre), t, y, post. cbn [app]. rewrite !seen_indices_cons. cbn [snd]. by rewrite Hx.
  - rewrite seen_indices_cons. cbn [snd]. by rewrite Hx.
Qed.

Lemma reported_own I now x i frames rs :
  frame_index x = Some i → I ⊆ all_indices → i ∈ all_indices → reported ({[i]} ∪ I) frames rs →
  seen_indices frames ⊆ all_indices →
  reported I ((now, x) :: frames) (omap seen_request (outcome_at now I i) ++ rs).
Proof using.
  clear Hsrc Hdst Hf Hfits. intros Hx HI Hi Hr Hfr. assert (∀ J, {[i]} ∪ J ∪ I = J ∪ ({[i]} ∪ I)) as Hassoc by set_solver.
  unfold outcome_at. destruct (decide (I = all_indices)) as [->|HIne].
  { rewrite decide_False by naive_solver. right. split; [by left|].
    assert ({[i]} ∪ all_indices = all_indices) as E by set_solver.
    rewrite E in Hr. by destruct Hr as [(? & _)|[_ ->]]. }
  case_decide as Hd.
  - destruct Hd as [_ Hd]. rewrite Hd in Hr. destruct Hr as [(? & _)|[_ ->]]; [done|]. left. split; [done|].
    rewrite seen_indices_cons. cbn [snd]. rewrite Hx, Hassoc, Hd. split; [set_solver|].
    exists [], now, x, frames. split; [done|]. split; [change (seen_indices []) with (∅ : gset Z); by rewrite (left_id_L ∅ (∪))|]. split.
    + cbn [app]. rewrite seen_indices_cons. cbn [snd]. rewrite Hx. unfold seen_indices. simpl. set_solver.
    + rewrite app_nil_r, report_request. done.
  - cbn [omap app]. destruct Hr as [(HI' & Hs & pre & t & y & post & -> & Hpre & Hy & ->)|[HI' ->]]; [left|right].
    + split; [done|]. rewrite seen_indices_cons. cbn [snd]. rewrite Hx, Hassoc. split; [done|].
      exists ((now, x) :: pre), t, y, post. cbn [app]. rewrite !seen_indices_cons. cbn [snd]. by rewrite Hx, !Hassoc.
    + split; [|done]. right. rewrite seen_indices_cons. cbn [snd]. rewrite Hx, Hassoc.
      destruct HI' as [HI'|?]; [|done]. naive_solver.
Qed.

Lemma own_index_in x i : own_frame x → frame_index x = Some i → i ∈ all_indices.
Proof using Hf Hfits.
  intros Hx Hi. destruct (own_frame_header x Hx) as (data & j & chunk & _ & _ & Hj & _ & _ & Hix).
  rewrite Hix in Hi. injection Hi as <-. by apply all_indices_iff.
Qed.

Lemma seen_indices_sub frames :
  Forall (λ x, own_frame x.2 ∨ other_frame x.2) frames → seen_indices frames ⊆ all_indices.
Proof using Hf Hfits.
  clear Hsrc Hdst. induction 1 as [|[now x] frames [Hx|Hx] _ IH]; [set_solver| |]; rewrite seen_indices_cons; cbn [snd] in *.
  - destruct (frame_index x) as [i|] eqn:Hi; [|done]. pose proof (own_index_in x i Hx Hi). set_solver.
  - by rewrite other_frame_index.
Qed.

Lemma sniff_reports I s frames :
  knows I s → Forall in_window frames → Forall (λ x, own_frame x.2 ∨ other_frame x.2) frames →
  ∃ s' outs, sniff prefix dht_port s frames = Done (s', outs) ∧ reported I frames (reports frames outs).
Proof using Hf Hfits Hsrc Hdst.
  revert I s. induction frames as [|[now x] frames IH]; intros I s Hk Hw Hfr.
  { exists s, []. split; [done|]. right. split; [|done]. destruct (decide (I = all_indices)); [by left|]. right.
    change (seen_indices []) with (∅ : gset Z). by rewrite (left_id_L ∅ (∪)). }
  apply Forall_cons in Hw as [Hwx Hw]. apply Forall_cons in Hfr as [Hx Hfr]. cbn [snd] in Hx. cbn [sniff].
  destruct Hx as [Hx|Hx].
  - destruct (own_sniffed I now s x Hk Hwx Hx) as (i & s1 & o & Hi & -> & Hk1 & Ho).
    destruct (IH _ s1 Hk1 Hw Hfr) as (s' & outs & Hs & Hr). unfold mbind, Run_bind. cbn [fst]. rewrite Hs.
    eexists _, _. split; [done|]. unfold reports. cbn [zip_with mjoin list_join snd fst]. rewrite Hi, Ho.
    apply reported_own; [done|apply Hk|by eapply own_index_in|done|by apply seen_indices_sub].
  - destruct (other_sniffed I now s x Hk Hwx Hx) as (s1 & o & Hi & -> & Hk1).
    destruct (IH _ s1 Hk1 Hw Hfr) as (s' & outs & Hs & Hr). unfold mbind, Run_bind. cbn [fst]. rewrite Hs.
    eexists _, _. split; [done|]. unfold reports. cbn [zip_with mjoin list_join snd fst]. rewrite Hi.
    by apply reported_none.
Qed.

End wire.

(** ** Theorems *)

(** C36: [parse_udp] reads every IPv4 UDP packet that is not a fragment, with
    any options and any padding after it: it returns the addresses, the ports and
    exactly the payload. It panics, which ends the sniffer, exactly on the
    frames whose header claims a packet of fewer than 20 bytes with a header at
    least 8 bytes shorter: the length of the packet is checked, that it holds the
    addresses is not. *)
Theorem parse_udp_exact :
  (∀ p, packet_ok p → parse_udp (frame_of p) = Done (Some (datagram_of p))) ∧
  (∀ frame, parse_udp frame = Panic ↔ short_header frame).
Proof. split; [apply parse_udp_packet|apply parse_udp_panics]. Qed.

(** The sniffer reports a request between nodes exactly once, when it has
    seen all its fragments. The frames may carry the fragments in any order, each
    any number of times, between any other traffic, as long as no frame panics
    and all arrive within [PARTIAL_TTL]. The report is made at the frame with the
    last missing fragment, and has the addresses, the key and the record of the
    request; a message that is not a STORE or an UPDATE is never reported. *)
Lemma sniffer_reports_once `{Bincode} (prefix : byte * byte) (dht_port src_port f t0 : Z) (src dst : Ipv4Addr)
    (payload : bytes) (s : Sniffer) (frames : list (Z * bytes))
    (Hfits : fits payload) (Hf : (0 ≤ f < 2 ^ 32)%Z)
    (Hsrc : is_node prefix src = true) (Hdst : is_node prefix dst = true)
    (Hpartial : sn_partial s !! (src, src_port, f) = None) (Hdone : sn_done s !! (src, src_port, f) = None)
    (Htime : Forall (in_window t0) frames)
    (Hframes : Forall (λ x, own_frame dht_port src dst src_port f payload x.2 ∨ other_frame src src_port f x.2) frames) :
  let seen := seen_indices src src_port f in
  let all := all_indices payload in
  ∃ s' outs, sniff prefix dht_port s frames = Done (s', outs) ∧
    (seen frames ≠ all → reports src src_port f frames outs = []) ∧
    (seen frames = all → ∃ pre t x post, frames = pre ++ (t, x) :: post ∧
       seen pre ≠ all ∧ seen (pre ++ [(t, x)]) = all ∧
       reports src src_port f frames outs = request_seen dht_port src dst payload t).
Proof.
  intros seen all. assert ((∅ : gset Z) ≠ all) as Hne.
  { intros E. pose proof (n_range payload Hfits) as Hn. apply (not_elem_of_empty (C := gset Z) 0%Z). rewrite E.
    apply all_indices_iff. lia. }
  destruct (sniff_reports prefix dht_port src dst src_port f payload t0 Hfits Hf Hsrc Hdst ∅ s frames)
    as (s' & outs & Hs & Hr); [|done|done|].
  { split; [set_solver|done|]. intros _. by right. }
  exists s', outs. split; [done|]. unfold reported in Hr. rewrite (right_id_L ∅ (∪)) in Hr.
  destruct Hr as [(_ & Hall & pre & t & x & post & Hfr & Hpre & Hx & Hrep)|[[?|Hall] Hrep]]; [|done|done].
  split; [done|]. intros _. exists pre, t, x, post. by rewrite !(right_id_L ∅ (∪)) in *.
Qed.

(** ** A sniffer that runs *)

Module SnifferExample.
Import NodeExample.

Definition node_a : Ipv4Addr := mkIp x0a xd5 x00 x02.
Definition node_b : Ipv4Addr := mkIp x0a xd5 x00 x03.
Definition packet (payload : bytes) : UdpPacket :=
  mkPacket (replicate 12 x00) x00 [x00; x00] [x40; x00] x40 [x00; x00] node_a node_b [] 4000 4000
    (replicate 4 x00) payload (replicate 5 x00).

(** A STORE in one fragment, seen twice, and a packet of another protocol. *)
Definition store_frame : bytes := frame_of (packet (datagram x02)).
Definition tcp_frame : bytes := replicate 12 x00 ++ [x08; x00; x45] ++ replicate 60 x06.
Definition frames : list (Z * bytes) := [(0, tcp_frame); (1, store_frame); (2, store_frame)]%Z.

(** A packet of 8 bytes without a header ends the sniffer. *)
Definition short_frame : bytes :=
  replicate 12 x00 ++ [x08; x00; x40; x00; x00; x08; x00; x00; x00; x00; x40; x11] ++ replicate 18 x00.

Example sniffer_dies : sniff (x0a, xd5) 4000 (new_sniffer 0) [(0%Z, short_frame); (1%Z, store_frame)] = Panic.
Proof. vm_compute. reflexivity. Qed.

Lemma sniffer_reports_once_witness :
  let seen := seen_indices node_a 4000 1 in
  let all := all_indices [x02] in
  ∃ s' outs, sniff (x0a, xd5) 4000 (new_sniffer 0) frames = Done (s', outs) ∧
    (seen frames ≠ all → reports node_a 4000 1 frames outs = []) ∧
    (seen frames = all → ∃ pre t x post, frames = pre ++ (t, x) :: post ∧
       seen pre ≠ all ∧ seen (pre ++ [(t, x)]) = all ∧
       reports node_a 4000 1 frames outs = request_seen 4000 node_a node_b [x02] t).
Proof.
  apply (sniffer_reports_once (x0a, xd5) 4000 4000 1 0); try reflexivity; try lia.
  - unfold fits, FRAG_CHUNK_SIZE. cbn [length]. lia.
  - repeat constructor; simpl; unfold PARTIAL_TTL, from_secs; lia.
  - assert (own_frame 4000 node_a node_b 4000 1 [x02] store_frame) as Hown.
    { exists (datagram x02). split; [vm_compute; reflexivity|]. apply (bool_decide_unpack _). vm_compute. exact I. }
    assert (other_frame node_a 4000 1 tcp_frame) as Hother.
    { split; [by vm_compute|]. intros d i t f' Hp. vm_compute in Hp. discriminate Hp. }
    constructor; [by right|]. do 2 (constructor; [by left|]). constructor.
Defined.

(** It reports that STORE, once. *)
Example store_reported :
  match sniff (x0a, xd5) 4000 (new_sniffer 0) frames with
  | Done (_, outs) => (λ o, (ob_update o, ob_key o, ob_value o, ob_seen o)) <$> reports node_a 4000 1 frames outs
  | Panic => []
  end = [(false, did_key, forged_record, 1%Z)].
Proof. vm_compute. reflexivity. Qed.

End SnifferExample.
