(* ===== verification/Phases.v ===== *)
(** * The phases of the resilience test (src/scripts/resilience_attacker.rs)

    [store_phase] and [get_phase] run one task per item with at most
    [concurrency] tasks at once: a [JoinSet] that is filled from an iterator and
    joined one task at a time, in whatever order tasks end. *)

From S2P Require Import Prelude Utils Storage Retransmit Messages Client.

(** ** A bounded set of tasks *)

Section phase.
Context {A R N : Type} (account : A → R → N → N).

(** The inner loop: spawn while there is room and an item. *)
Fixpoint fill (concurrency : nat) (jset iter : list A) : list A * list A :=
  match iter with
  | x :: iter' => if length jset <? concurrency then fill concurrency (jset ++ [x]) iter' else (jset, iter)
  | [] => (jset, [])
  end.

(** The loop. [next] says which task of the set ends, [result] how. *)
Fixpoint phase_loop (fuel concurrency turn : nat) (next : nat → nat) (result : nat → A → R)
    (jset iter : list A) (n : N) : option N :=
  match fuel with
  | O => None
  | S fuel' =>
      let '(jset, iter) := fill concurrency jset iter in
      let i := next turn `mod` length jset in
      match jset !! i with
      | None => Some n
      | Some x =>
          phase_loop fuel' concurrency (S turn) next result (take i jset ++ drop (S i) jset) iter
            (account x (result turn x) n)
      end
  end.

Definition run_phase (concurrency : nat) (next : nat → nat) (result : nat → A → R) (pool : list A) (n : N) : option N :=
  phase_loop (S (length pool)) concurrency 0 next result [] pool n.

(** ** What a phase does *)

Definition accounted (n : N) (joined : list (A * R)) : N := foldl (λ n j, account j.1 j.2 n) n joined.

(** The tasks end in [order]: every item once, and the one that ends at turn [t] is
    the one that [next] picks among those in flight, which are the first
    [t + concurrency] items less those that ended. *)
Definition ends_in (concurrency : nat) (next : nat → nat) (pool order : list A) : Prop :=
  order ≡ₚ pool ∧ ∀ t x, order !! t = Some x → ∃ flight,
    flight ++ take t order ≡ₚ take (t + concurrency) pool ∧
    length flight = concurrency `min` (length pool - t) ∧ flight !! (next t `mod` length flight) = Some x.

(** How they end, turn by turn. *)
Definition ends_of (result : nat → A → R) (order : list A) : list (A * R) := imap (λ t x, (x, result t x)) order.

Lemma fill_spec c jset iter :
  length jset ≤ c →
  ∃ more, (fill c jset iter).1 = jset ++ more ∧ iter = more ++ (fill c jset iter).2 ∧
    length (jset ++ more) ≤ c ∧ (length (jset ++ more) = c ∨ (fill c jset iter).2 = []).
Proof using.
  revert jset. induction iter as [|x iter IH]; intros jset Hl; simpl.
  { exists []. rewrite app_nil_r. auto. }
  destruct (length jset <? c) eqn:E; bool_facts.
  - destruct (IH (jset ++ [x])) as (more & H1 & H2 & H3 & H4); [rewrite length_app; simpl; lia|].
    exists (x :: more). rewrite H1, <-(assoc_L (++)) in *. split; [done|]. split; [by rewrite H2 at 1|done].
  - exists []. simpl. rewrite app_nil_r. split_and!; try done. left. lia.
Qed.

(** Joining a task of the set. *)
Lemma join_one (jset : list A) i x :
  jset !! i = Some x →
  take i jset ++ drop (S i) jset ++ [x] ≡ₚ jset ∧ length (take i jset ++ drop (S i) jset) = length jset - 1.
Proof using.
  intros Hx. pose proof (lookup_lt_Some _ _ _ Hx) as Hlt. split.
  - rewrite <-(take_drop_middle jset i x Hx) at 3. by rewrite <-Permutation_cons_append.
  - rewrite length_app, length_take, length_drop. lia.
Qed.

Lemma phase_loop_spec fuel c next result pool before spawned jset iter n :
  length jset + length iter < fuel → length jset ≤ c → 0 < c →
  pool = spawned ++ iter → jset ++ before ≡ₚ spawned →
  ∃ rest, phase_loop fuel c (length before) next result jset iter n =
      Some (accounted n (imap (λ i x, (x, result (length before + i) x)) rest)) ∧
    rest ≡ₚ jset ++ iter ∧
    ∀ i x, rest !! i = Some x → ∃ flight, flight ++ before ++ take i rest ≡ₚ take (length before + i + c) pool ∧
      length flight = c `min` (length pool - (length before + i)) ∧
      flight !! (next (length before + i) `mod` length flight) = Some x.
Proof using.
  revert before spawned jset iter n. induction fuel as [|fuel IH]; intros before spawned jset iter n Hf Hl Hc Hpool Hsp; [lia|].
  cbn [phase_loop]. destruct (fill_spec c jset iter Hl) as (more & H1 & H2 & H3 & H4).
  destruct (fill c jset iter) as [jset1 iter1]. cbn [fst snd] in *. rewrite <-H1 in *.
  assert (jset1 ++ before ≡ₚ spawned ++ more) as Hsp1 by (rewrite H1, <-Hsp; solve_Permutation).
  assert (length jset1 + length before = length (spawned ++ more)) as Hlen
    by (rewrite <-(Permutation_length Hsp1), length_app; lia).
  assert (length pool = length (spawned ++ more) + length iter1) as Hplen
    by (rewrite Hpool, H2, !length_app; lia).
  assert (take (length before + c) pool = spawned ++ more) as Htake.
  { rewrite Hpool, H2, (assoc_L (++)). destruct H4 as [H4| ->]; [rewrite take_app_le, take_ge by lia; done|].
    rewrite app_nil_r. apply take_ge. lia. }
  assert (length jset1 = c `min` (length pool - length before)) as Hflight
    by (destruct H4 as [H4|E]; [lia|rewrite E in Hplen; simpl in Hplen; lia]).
  destruct (jset1 !! (next (length before) `mod` length jset1)) as [x|] eqn:Hx.
  - destruct (join_one _ _ _ Hx) as [Hj Hjl]. pose proof (lookup_lt_Some _ _ _ Hx) as Hlt.
    set (jset2 := take _ jset1 ++ drop _ jset1) in *. rewrite (assoc_L (++)) in Hj. fold jset2 in Hj.
    assert (length (before ++ [x]) = S (length before)) as Hb by (rewrite length_app; simpl; lia).
    destruct (IH (before ++ [x]) (spawned ++ more) jset2 iter1 (account x (result (length before) x) n))
      as (rest & Hr & Hp & Hall); [rewrite H1, length_app in *; rewrite H2, length_app in Hf; lia|lia|done
      |by rewrite Hpool, H2, (assoc_L (++))|by rewrite <-Hsp1, <-Hj; solve_Permutation|].
    rewrite Hb in *. exists (x :: rest). split_and!.
    + rewrite Hr. simpl. rewrite Nat.add_0_r. f_equal. unfold accounted. simpl. f_equal.
      apply imap_ext. intros i y _. simpl. by rewrite Nat.add_succ_r.
    + rewrite Hp, H2, (assoc_L (++)), <-H1, <-Hj. solve_Permutation.
    + intros [|i] y Hy; simpl in Hy.
      * injection Hy as <-. exists jset1. rewrite Nat.add_0_r. simpl. rewrite app_nil_r, Htake. done.
      * destruct (Hall i y Hy) as (flight & Hfl & Hfn & Hfy). exists flight. rewrite Nat.add_succ_r. simpl.
        rewrite <-(assoc_L (++)) in Hfl. done.
  - assert (jset1 = []) as ->.
    { destruct jset1 as [|y jset1]; [done|]. apply lookup_ge_None in Hx.
      pose proof (Nat.mod_upper_bound (next (length before)) (length (y :: jset1)) ltac:(simpl; lia)). lia. }
    symmetry in H1. apply app_eq_nil in H1 as [-> ->]. destruct H4 as [H4|E]; [simpl in H4; lia|].
    exists []. split; [done|]. simpl in H2. rewrite H2, E. split; [done|]. by intros i y Hy; rewrite lookup_nil in Hy.
Qed.

(** A phase that may run tasks runs every item exactly once. *)
Lemma run_phase_ends c next result pool n :
  0 < c → ∃ order, ends_in c next pool order ∧ run_phase c next result pool n = Some (accounted n (ends_of result order)).
Proof using.
  intros Hc. destruct (phase_loop_spec (S (length pool)) c next result pool [] [] [] pool n) as (order & Hr & Hp & Hall);
    [simpl; lia|simpl; lia|done..|]. exists order. done.
Qed.

Lemma ends_of_items result order : (ends_of result order).*1 = order.
Proof using.
  unfold ends_of. apply list_eq. intros i. rewrite list_lookup_fmap, list_lookup_imap. by destruct (order !! i).
Qed.

Lemma run_phase_spec c next result pool n :
  0 < c → ∃ joined, run_phase c next result pool n = Some (accounted n joined) ∧ joined.*1 ≡ₚ pool.
Proof using.
  intros Hc. destruct (run_phase_ends c next result pool n Hc) as (order & [Hp _] & Hr).
  exists (ends_of result order). by rewrite ends_of_items.
Qed.

(** One that may not ends at once. *)
Lemma run_phase_zero next result pool n : run_phase 0 next result pool n = Some n.
Proof using. unfold run_phase. simpl. destruct pool; [done|]. simpl. by destruct (next 0). Qed.

End phase.

(** ** The two phases *)

(** [RPC_TIMEOUT] of the test: below that of the protocol. *)
Definition RPC_TIMEOUT : Z := from_millis 2250.

(** How a task of [store_phase] ends: the error of a join, or what [timeout]
    returns, the answer or that it elapsed, and how long it took. *)
Abbreviation StoreEnd := (option (option (option StoreStatus) * Z)).

(** The triple of such a task, without its key. *)
Definition store_result (answer : option (option StoreStatus)) : bool * bool :=
  match answer with
  | Some status => (false, holds_record status)
  | None => (true, false)
  end.

Record StoreCounts := mkStoreCounts {
  sc_accepted : nat;
  sc_rejected : nat;
  sc_timed_out : nat;
  sc_accepted_keys : list bytes;
  sc_latency : list Z
}.

Definition store_account (item : bytes * bytes) (e : StoreEnd) (n : StoreCounts) : StoreCounts :=
  let '(mkStoreCounts accepted rejected timed_out keys latency) := n in
  match e with
  | Some (answer, elapsed) =>
      let '(is_timeout, ok) := store_result answer in
      if is_timeout then mkStoreCounts accepted rejected (timed_out + 1) keys (latency ++ [elapsed])
      else if ok then mkStoreCounts (accepted + 1) rejected timed_out (keys ++ [item.1]) (latency ++ [elapsed])
      else mkStoreCounts accepted (rejected + 1) timed_out keys (latency ++ [elapsed])
  | None => mkStoreCounts accepted rejected (timed_out + 1) keys latency
  end.

(** [store_phase]. *)
Definition store_phase (concurrency : nat) (next : nat → nat) (result : nat → bytes * bytes → StoreEnd)
    (pool : list (bytes * bytes)) : option StoreCounts :=
  run_phase store_account concurrency next result pool (mkStoreCounts 0 0 0 [] []).

(** How a task of [get_phase] ends: the error of a join, or what the GET under
    [timeout] returned; [None] there is a GET that elapsed. *)
Abbreviation GetEnd := (option (option (option bytes) * Z)).

Record GetCounts := mkGetCounts { gc_hits : nat; gc_misses : nat; gc_timed_out : nat; gc_latency : list Z }.

(** [.ok().flatten().is_some()]. *)
Definition get_found (answer : option (option bytes)) : bool := bool_decide (is_Some (mjoin answer)).

Definition get_account (key : bytes) (e : GetEnd) (n : GetCounts) : GetCounts :=
  let '(mkGetCounts hits misses timed_out latency) := n in
  match e with
  | Some (answer, elapsed) =>
      if get_found answer then mkGetCounts (hits + 1) misses timed_out (latency ++ [elapsed])
      else mkGetCounts hits (misses + 1) timed_out (latency ++ [elapsed])
  | None => mkGetCounts hits misses (timed_out + 1) latency
  end.

(** [get_phase]. *)
Definition get_phase (concurrency : nat) (next : nat → nat) (result : nat → bytes → GetEnd) (keys : list bytes)
    : option GetCounts :=
  run_phase get_account concurrency next result keys (mkGetCounts 0 0 0 []).

(** ** What they count *)

Definition was_accepted (e : StoreEnd) : bool :=
  match e with Some (Some status, _) => holds_record status | _ => false end.
Definition was_rejected (e : StoreEnd) : bool :=
  match e with Some (Some status, _) => negb (holds_record status) | _ => false end.
Definition was_lost (e : StoreEnd) : bool :=
  match e with Some (Some _, _) => false | _ => true end.

Definition was_hit (e : GetEnd) : bool := match e with Some (Some (Some _), _) => true | _ => false end.
Definition was_miss (e : GetEnd) : bool :=
  match e with Some (Some None, _) => true | Some (None, _) => true | _ => false end.
Definition has_failed (e : GetEnd) : bool := match e with None => true | _ => false end.

Definition number {A} (f : A → bool) (l : list A) : nat := length (filter (λ x, f x = true) l).

Lemma number_cons {A} (f : A → bool) x l : number f (x :: l) = Nat.b2n (f x) + number f l.
Proof. unfold number. rewrite filter_cons. destruct (f x); [by rewrite decide_True|by rewrite decide_False]. Qed.

Lemma number_split {A} (f g h : A → bool) l :
  (∀ x, Nat.b2n (f x) + Nat.b2n (g x) + Nat.b2n (h x) = 1) → number f l + number g l + number h l = length l.
Proof. intros H1. induction l as [|x l IH]; [done|]. rewrite !number_cons. simpl. specialize (H1 x). lia. Qed.

Lemma store_accounted n joined :
  let r := accounted store_account n joined in
  sc_accepted r = sc_accepted n + number (was_accepted ∘ snd) joined ∧
  sc_rejected r = sc_rejected n + number (was_rejected ∘ snd) joined ∧
  sc_timed_out r = sc_timed_out n + number (was_lost ∘ snd) joined ∧
  sc_accepted_keys r = sc_accepted_keys n ++ ((λ j, j.1.1) <$> filter (λ j, was_accepted j.2 = true) joined).
Proof.
  unfold accounted. revert n. induction joined as [|[item e] joined IH]; intros n.
  { simpl. rewrite !Nat.add_0_r, app_nil_r. done. }
  cbn [foldl fst snd]. destruct (IH (store_account item e n)) as (-> & -> & -> & ->). rewrite !number_cons, filter_cons.
  cbn [compose snd]. destruct n as [a r t keys lat].
  destruct e as [[[status|] elapsed]|]; simpl; [destruct (holds_record status); simpl|..];
    repeat (first [rewrite decide_True by done | rewrite decide_False by done]);
    split_and!; try lia; try done. by rewrite <- app_assoc.
Qed.

Lemma get_accounted n joined :
  let found (j : bytes * GetEnd) := match j.2 with Some (answer, _) => get_found answer | None => false end in
  let ended (j : bytes * GetEnd) := bool_decide (is_Some j.2) in
  let r := accounted get_account n joined in
  gc_hits r = gc_hits n + number found joined ∧
  gc_misses r = gc_misses n + number (λ j, ended j && negb (found j)) joined ∧
  gc_timed_out r = gc_timed_out n + number (λ j, negb (ended j)) joined.
Proof.
  intros found ended. unfold accounted. revert n. induction joined as [|[key e] joined IH]; intros n.
  { simpl. by rewrite !Nat.add_0_r. }
  cbn [foldl fst snd]. destruct (IH (get_account key e n)) as (-> & -> & ->). rewrite !number_cons.
  destruct n as [h m t lat]. unfold found, ended. cbn [snd].
  destruct e as [[answer elapsed]|]; simpl; [destruct (get_found answer); simpl|]; lia.
Qed.

(** The counts of a phase whose tasks ended as [joined] says. *)
Record store_counted (joined : list ((bytes * bytes) * StoreEnd)) (r : StoreCounts) : Prop := {
  sd_accepted : sc_accepted r = number (was_accepted ∘ snd) joined;
  sd_rejected : sc_rejected r = number (was_rejected ∘ snd) joined;
  sd_timed_out : sc_timed_out r = number (was_lost ∘ snd) joined;
  sd_total : sc_accepted r + sc_rejected r + sc_timed_out r = length joined;
  sd_keys : sc_accepted_keys r = (λ j, j.1.1) <$> filter (λ j, was_accepted j.2 = true) joined
}.

Record get_counted (joined : list (bytes * GetEnd)) (r : GetCounts) : Prop := {
  gd_hits : gc_hits r = number (was_hit ∘ snd) joined;
  gd_misses : gc_misses r = number (was_miss ∘ snd) joined;
  gd_timed_out : gc_timed_out r = number (has_failed ∘ snd) joined;
  gd_total : gc_hits r + gc_misses r + gc_timed_out r = length joined
}.

Lemma store_counted_all joined :
  store_counted joined (accounted store_account (mkStoreCounts 0 0 0 [] []) joined).
Proof.
  destruct (store_accounted (mkStoreCounts 0 0 0 [] []) joined) as (Ha & Hr & Ht & Hk).
  split; [done..| |done]. rewrite Ha, Hr, Ht. simpl. apply number_split.
  intros [item [[[status|] elapsed]|]]; simpl; [by destruct (holds_record status)|done..].
Qed.

Lemma get_counted_all joined : get_counted joined (accounted get_account (mkGetCounts 0 0 0 []) joined).
Proof.
  destruct (get_accounted (mkGetCounts 0 0 0 []) joined) as (Hh & Hm & Ht).
  assert (∀ f g : bytes * GetEnd → bool, (∀ j, f j = g j) → number f joined = number g joined) as Hext.
  { intros f g Hfg. unfold number. f_equal. apply list_filter_iff. intros j. by rewrite Hfg. }
  split; rewrite ?Hh, ?Hm, ?Ht; simpl; try (apply Hext; by intros [key [[[[v|]|] elapsed]|]]).
  apply number_split. by intros [key [[[[v|]|] elapsed]|]].
Qed.

(** A phase that may run tasks counts every item of its pool. *)
Lemma store_phase_ends c next store_end pool :
  0 < c → ∃ order r, store_phase c next store_end pool = Some r ∧ ends_in c next pool order ∧
    store_counted (ends_of store_end order) r.
Proof.
  intros Hc. destruct (run_phase_ends store_account c next store_end pool (mkStoreCounts 0 0 0 [] []) Hc)
    as (order & Ho & Hr). exists order. eexists. split; [exact Hr|]. split; [done|apply store_counted_all].
Qed.

Lemma get_phase_ends c next get_end keys :
  0 < c → ∃ order r, get_phase c next get_end keys = Some r ∧ ends_in c next keys order ∧
    get_counted (ends_of get_end order) r.
Proof.
  intros Hc. destruct (run_phase_ends get_account c next get_end keys (mkGetCounts 0 0 0 []) Hc)
    as (order & Ho & Hr). exists order. eexists. split; [exact Hr|]. split; [done|apply get_counted_all].
Qed.

(** ** Theorem *)

(** C35: a phase sends each item of its pool once and counts every outcome,
    whatever the order in which requests end. It ends; at each turn of its loop
    the requests in flight are the next items of the pool, [concurrency] of them
    while there are so many, less those that ended, and the one that ends is among
    them. What is counted is how the requests ended, turn by turn. A STORE is accepted when its
    answer is Stored or AlreadyStored, rejected when it has another answer or
    none, and timed out when [timeout] elapsed or its task failed; the three
    add up to the size of the pool, and the accepted keys are those of the
    accepted records. A GET is a hit when it returned a value and a miss when it
    did not, the GETs that timed out among them; only failed tasks are counted as
    timed out. *)
Theorem phases_count_exactly (concurrency : nat) (next : nat → nat) (store_end : nat → bytes * bytes → StoreEnd)
    (get_end : nat → bytes → GetEnd) (pool : list (bytes * bytes)) (keys : list bytes) (Hc : 0 < concurrency) :
  (∃ order r, store_phase concurrency next store_end pool = Some r ∧
     ends_in concurrency next pool order ∧ store_counted (ends_of store_end order) r) ∧
  (∃ order r, get_phase concurrency next get_end keys = Some r ∧
     ends_in concurrency next keys order ∧ get_counted (ends_of get_end order) r).
Proof. by split; [apply store_phase_ends|apply get_phase_ends]. Qed.

Module PhasesExample.

Definition item (b : byte) : bytes * bytes := ([b], [b; b]).
Definition pool : list (bytes * bytes) := item <$> [x01; x02; x03; x04].

(** Tasks end in an odd order: one is refused, one has no answer, one is late. *)
Definition next (turn : nat) : nat := 7 * turn + 1.
Definition store_end (turn : nat) (i : bytes * bytes) : StoreEnd :=
  if bool_decide (i.1 = [x02]) then Some (Some (Some SInvalidRecord), 3%Z)
  else if bool_decide (i.1 = [x03]) then Some (None, RPC_TIMEOUT)
  else Some (Some (Some SStored), 2%Z).
Definition get_end (turn : nat) (key : bytes) : GetEnd :=
  if bool_decide (key = [x01]) then Some (None, RPC_TIMEOUT) else Some (Some (Some key), 1%Z).

Lemma phases_count_exactly_witness :
  (∃ order r, store_phase 2 next store_end pool = Some r ∧
     ends_in 2 next pool order ∧ store_counted (ends_of store_end order) r) ∧
  (∃ order r, get_phase 2 next get_end [[x01]; [x02]] = Some r ∧
     ends_in 2 next [[x01]; [x02]] order ∧ get_counted (ends_of get_end order) r).
Proof. apply (phases_count_exactly 2 next store_end get_end pool [[x01]; [x02]]). lia. Defined.

Example store_counts :
  store_phase 2 next store_end pool = Some (mkStoreCounts 2 1 1 [[x01]; [x04]] [3; 2; 2; 2250000000]%Z).
Proof. vm_compute. reflexivity. Qed.

(** A GET that timed out is a miss. *)
Example get_counts : get_phase 2 next get_end [[x01]; [x02]] = Some (mkGetCounts 1 1 0 [1; 2250000000]%Z).
Proof. vm_compute. reflexivity. Qed.

(** Without concurrency nothing is sent. *)
Example no_concurrency : store_phase 0 next store_end pool = Some (mkStoreCounts 0 0 0 [] []).
Proof. reflexivity. Qed.

End PhasesExample.
