(* ===== verification/Attacker.v ===== *)
(** * The testbed attacker (src/testbed/attacker.rs)

    What the attacker does with what its sniffer reports (Sniffer): forged
    records for the DIDs it sees, sent as STOREs to the replicas, once for each
    UPDATE (modes race and burst), or again and again (mode persist). *)

From stdpp Require Import pretty.
From S2P Require Import Prelude Utils Node Routing Storage Fragmentation Messages Retransmit.
From S2P Require Import Crypto AuthHandler AuthProps Crawling Effects Protocol Transport Client.
From S2P Require Import Handlers ProtocolProps NodeExample HandlersProps CallProps OwnerProps KeyManager DidRecord Sniffer Text.

(** ** Replicas *)

(** [Ipv4Addr::to_string]. *)
Definition octet_text (b : byte) : string := pretty (Byte.to_N b).

Definition ip_text (a : Ipv4Addr) : string :=
  octet_text (octet0 a) +:+ "." +:+ octet_text (octet1 a) +:+ "." +:+ octet_text (octet2 a) +:+ "." +:+
  octet_text (octet3 a).

(** [replica]. *)
Definition replica (ip : Ipv4Addr) (port : Z) : Node := Node_new (ident_repeat x00) (Some (ip_text ip)) (Some port).

(** ** Answers *)

(** The [Debug] name of an answer. *)
Definition answer_name (answer : option StoreStatus) : bytes :=
  str_bytes match answer with
            | Some SStored => "Stored"
            | Some SAlreadyStored => "AlreadyStored"
            | Some SConflict => "Conflict"
            | Some SCapacityExceeded => "CapacityExceeded"
            | Some SInvalidRecord => "InvalidRecord"
            | None => "no answer"
            end.

(** The counts of [tally], in the order of the names. *)
Definition count_answer (counts : list (bytes * nat)) (answer : option StoreStatus) : list (bytes * nat) :=
  let name := answer_name answer in btree_insert name (default 0 (assoc name counts) + 1) counts.

Definition tally_counts (answers : list (option StoreStatus)) : list (bytes * nat) := foldl count_answer [] answers.

(** [tally]. *)
Definition tally (answers : list (option StoreStatus)) : bytes :=
  join (str_bytes " ") ((λ e, e.1 ++ str_bytes "=" ++ str_bytes (pretty e.2)) <$> tally_counts answers).

(** ** Reacting to updates *)

Definition ATTACK_ONCE_PER : Z := from_secs 5.

(** [attacked]: when each record of each replica was last attacked. *)
Abbreviation Attacked := (gmap (Ipv4Addr * ident) Z).

(** The attack on an update: the DID of its record. *)
Record Attack := mkAttack { ak_update : Observed; ak_did : bytes }.

(** An update that is not skipped, and its attack if its record names a DID. *)
Inductive Reaction := Ignored | Taken (target : Ipv4Addr * ident) (attack : option Attack).

Section react.
Context `{Json}.

(** A turn of the loop of [react_to_updates]. *)
Definition react (now : Z) (attacked : Attacked) (e : Seen) : Attacked * Reaction :=
  match e with
  | SeenNode _ => (attacked, Ignored)
  | SeenRequest u =>
      if negb (ob_update u) then (attacked, Ignored)
      else
        let target := (ob_to u, ob_key u) in
        if match attacked !! target with
           | Some at_ => (elapsed now at_ <? ATTACK_ONCE_PER)%Z
           | None => false
           end then (attacked, Ignored)
        else
          (filter (λ kv, (elapsed now kv.2 < ATTACK_ONCE_PER)%Z) (<[target := now]> attacked),
           Taken target (mkAttack u <$> did_of (ob_value u)))
  end.

(** [react_to_updates], over the reports of the sniffer and when they come. *)
Fixpoint react_to_updates (attacked : Attacked) (events : list (Z * Seen)) : list Reaction :=
  match events with
  | [] => []
  | (now, e) :: events' =>
      let '(attacked', r) := react now attacked e in
      r :: react_to_updates attacked' events'
  end.

End react.

(** ** The forged STOREs *)

Section launch.
Context {St C E : Type} `{Bincode, Ipv6Syntax}.
Context `{JsonWrite, Base64Encode, SignatureLibraries, KeyGeneration}.
Abbreviation P := (KademliaProtocol St C).
Context `{Environment E P}.

(** The forged record: the same DID, the keys of the attacker. *)
Definition forge (did : bytes) (d : Draw) : bytes := record (generate_version did d).

(** One of the STOREs of a burst, by the node of the attacker whose turn it is. *)
Definition forged_store (peer : Node) (key : ident) (forged : bytes) (nodes : list (World P E)) (index : nat)
    : list (World P E) * option StoreStatus :=
  let turn := index `mod` length nodes in
  match nodes !! turn with
  | Some w => let '(w', answer) := call_store_rpc peer key forged w in (<[turn := w']> nodes, answer)
  | None => (nodes, None)
  end.

Fixpoint forged_stores (peer : Node) (key : ident) (forged : bytes) (nodes : list (World P E)) (indices : list nat)
    : list (World P E) * list (option StoreStatus) :=
  match indices with
  | [] => (nodes, [])
  | i :: indices' =>
      let '(nodes1, answer) := forged_store peer key forged nodes i in
      let '(nodes2, answers) := forged_stores peer key forged nodes1 indices' in
      (nodes2, answer :: answers)
  end.

(** The task of an attack: [copies] STOREs after [delay]. *)
Definition launch (copies : nat) (delay : Z) (a : Attack) (d : Draw) (nodes : list (World P E))
    : list (World P E) * list (option StoreStatus) :=
  let forged := forge (ak_did a) d in
  let nodes1 := if (delay =? 0)%Z then nodes else (λ w, (pause w).1) <$> nodes in
  forged_stores (replica (ob_to (ak_update a)) (ob_to_port (ak_update a))) (ob_key (ak_update a)) forged
    nodes1 (seq 0 copies).

End launch.

(** ** Persisting *)

Record Target := mkTarget { tg_did : bytes; tg_forged : bytes; tg_learned : Z }.

(** The variables of [persist]. *)
Record Persist := mkPersist {
  ps_targets : gmap ident Target;
  ps_nodes : gset Ipv4Addr;
  ps_report : Z;
  ps_answers : list (option StoreStatus)
}.

Definition new_persist (now : Z) : Persist := mkPersist ∅ ∅ now [].

(** What a turn of its loop waits for: a report of the sniffer, with what a new
    forged record draws, the answer to a STORE, or the tick. *)
Inductive PersistEvent := PSeen (e : Seen) (d : Draw) | PAnswer (answer : option StoreStatus) | PTick.

(** A STORE to send: its replica, key and record. *)
Abbreviation ForgedStore := (Node * ident * bytes)%type.

(** The report of the last five seconds: answers, nodes, DIDs and the tally. *)
Record PersistReport := mkReport { rp_stores : nat; rp_nodes : nat; rp_dids : nat; rp_answers : bytes }.

Section persist.
Context `{HashOrder, JsonWrite, Base64Encode, SignatureLibraries, KeyGeneration}.

(** A new DID is learned. *)
Definition learn (now : Z) (s : Persist) (o : Observed) (d : Draw) : Persist :=
  match ps_targets s !! ob_key o with
  | Some _ => s
  | None =>
      match did_of (ob_value o) with
      | Some did =>
          mkPersist (<[ob_key o := mkTarget did (forge did d) now]> (ps_targets s)) (ps_nodes s)
            (ps_report s) (ps_answers s)
      | None => s
      end
  end.

(** The STOREs of a tick: every target to every node. *)
Definition tick_stores (dht_port : Z) (targets : gmap ident Target) (nodes : gset Ipv4Addr) : list ForgedStore :=
  '(key, target) ← hash_order (map_to_list targets);
  ip ← elements nodes;
  mret (replica ip dht_port, key, tg_forged target).

Definition report_turn (now : Z) (s : Persist) : Persist * option PersistReport :=
  if (from_secs 5 <=? elapsed now (ps_report s))%Z then
    (mkPersist (ps_targets s) (ps_nodes s) now [],
     if bool_decide (ps_answers s = []) then None
     else Some (mkReport (length (ps_answers s)) (size (ps_nodes s)) (size (ps_targets s)) (tally (ps_answers s))))
  else (s, None).

(** A turn of the loop of [persist]; it returns when the sniffer ends. *)
Definition persist_turn (dht_port did_ttl now : Z) (s : Persist) (ev : PersistEvent)
    : Persist * list ForgedStore * option PersistReport :=
  match ev with
  | PSeen (SeenNode ip) _ =>
      (mkPersist (ps_targets s) ({[ip]} ∪ ps_nodes s) (ps_report s) (ps_answers s), [], None)
  | PSeen (SeenRequest o) d => (learn now s o d, [], None)
  | PAnswer answer =>
      (mkPersist (ps_targets s) (ps_nodes s) (ps_report s) (ps_answers s ++ [answer]), [], None)
  | PTick =>
      let targets := filter (λ kv, (elapsed now (tg_learned kv.2) < did_ttl)%Z) (ps_targets s) in
      let s1 := mkPersist targets (ps_nodes s) (ps_report s) (ps_answers s) in
      let '(s2, r) := report_turn now s1 in
      (s2, tick_stores dht_port targets (ps_nodes s), r)
  end.

(** [persist]: the state it ends with and what it sent at each turn. *)
Fixpoint persist (dht_port did_ttl : Z) (s : Persist) (events : list (Z * PersistEvent))
    : Persist * list (list ForgedStore) :=
  match events with
  | [] => (s, [])
  | (now, ev) :: events' =>
      let '(s1, stores, _) := persist_turn dht_port did_ttl now s ev in
      let '(s2, sent) := persist dht_port did_ttl s1 events' in
      (s2, stores :: sent)
  end.

End persist.

(** ** Configuration *)

Inductive Mode := Race | Burst | PersistMode.

(** What [run] reads from the environment. *)
Record Settings := mkSettings {
  se_prefix : byte * byte;
  se_dht_port : Z;
  se_attack_port : Z;
  se_mode : Mode;
  se_delay : Z;
  se_copies : Z;
  se_port_count : Z;
  se_period : Z;
  se_did_ttl : Z
}.

Definition attack_mode (text : bytes) : option Mode :=
  if bool_decide (text = str_bytes "race") then Some Race
  else if bool_decide (text = str_bytes "burst") then Some Burst
  else if bool_decide (text = str_bytes "persist") then Some PersistMode else None.

(** The settings, [None] when the program exits with 1. Parts of TESTBED_PREFIX
    that are no octet are passed over. *)
Definition attack_settings (vars : Vars) : option Settings :=
  let prefix := omap (parse_unsigned U8_MAX) (split x2e (default (str_bytes "10.213") (vars "TESTBED_PREFIX"))) in
  match prefix with
  | [a; b] =>
      let dht_port := env_or vars (parse_unsigned U16_MAX) "DHT_PORT" 4000%Z in
      let attack_port := env_or vars (parse_unsigned U16_MAX) "ATTACK_PORT" 4999%Z in
      let delay := from_millis (env_or vars (parse_unsigned U64_MAX) "ATTACK_DELAY_MS" 0%Z) in
      let burst := Z.max (env_or vars (parse_unsigned U64_MAX) "ATTACK_BURST" 64%Z) 1 in
      let ports := Z.max (env_or vars (parse_unsigned U64_MAX) "ATTACK_PORTS" 16%Z) 1 in
      let period := from_millis (Z.max (env_or vars (parse_unsigned U64_MAX) "ATTACK_PERIOD_MS" 100%Z) 1) in
      let did_ttl := from_secs (env_or vars (parse_unsigned U64_MAX) "ATTACK_DID_TTL_S" 20%Z) in
      mode ← attack_mode (default (str_bytes "race") (vars "ATTACK_MODE"));
      Some (mkSettings (byte_of_Z a, byte_of_Z b) dht_port attack_port mode delay
              (match mode with Burst => burst | _ => 1%Z end) (match mode with Burst => ports | _ => 1%Z end)
              period did_ttl)
  | _ => None
  end.

(** [attacker_nodes]: the ports of the attacker's nodes, counting down in [u16], as
    a release build does (a debug build panics below zero);
    [None] when one cannot be bound, and the program exits. *)
Definition attacker_ports (bind : Z → bool) (first count : Z) : option (list Z) :=
  let ports := (λ index, (first - Z.of_nat index) `mod` 65536)%Z <$> seq 0 (Z.to_nat count) in
  if forallb bind ports then Some ports else None.

(** The gateway is the address the nodes listen on. *)
Definition gateway (s : Settings) : string :=
  octet_text (se_prefix s).1 +:+ "." +:+ octet_text (se_prefix s).2 +:+ ".0.1".


(** ** The address of a replica is the one seen *)

Lemma octet_text_ok b :
  is_octet (String.list_ascii_of_string (octet_text b)) = true ∧
  forallb (λ a, negb (Ascii.N_of_ascii a =? 46)%N) (String.list_ascii_of_string (octet_text b)) = true.
Proof. by destruct b; vm_compute. Qed.

Lemma list_ascii_app a b :
  String.list_ascii_of_string (a +:+ b) = String.list_ascii_of_string a ++ String.list_ascii_of_string b.
Proof. induction a as [|c a IH]; [done|]. simpl. by rewrite IH. Qed.

Definition dot : Ascii.ascii := Eval vm_compute in Ascii.ascii_of_N 46.

Lemma split_dots_nonempty l : split_dots l ≠ [].
Proof. destruct l as [|a l]; simpl; [done|]. by repeat case_match. Qed.

Lemma split_dots_field l r :
  forallb (λ a, negb (Ascii.N_of_ascii a =? 46)%N) l = true →
  split_dots (l ++ dot :: r) = l :: split_dots r.
Proof.
  induction l as [|a l IH]; simpl.
  - intros _. pose proof (split_dots_nonempty r) as Hr. by destruct (split_dots r).
  - intros [Ha Hl]%andb_true_iff. rewrite IH by done. by destruct (_ =? 46)%N.
Qed.

Lemma split_dots_last l : forallb (λ a, negb (Ascii.N_of_ascii a =? 46)%N) l = true → split_dots l = [l].
Proof.
  induction l as [|a l IH]; simpl; [done|]. intros [Ha Hl]%andb_true_iff. rewrite IH by done.
  by destruct (_ =? 46)%N.
Qed.

Lemma ip_text_ok a : is_ipv4 (ip_text a) = true.
Proof.
  destruct a as [o0 o1 o2 o3]. destruct (octet_text_ok o0) as [H0 D0]. destruct (octet_text_ok o1) as [H1 D1].
  destruct (octet_text_ok o2) as [H2 D2]. destruct (octet_text_ok o3) as [H3 D3].
  unfold is_ipv4, ip_text. cbn [octet0 octet1 octet2 octet3]. rewrite !list_ascii_app.
  change (String.list_ascii_of_string ".") with [dot]. cbn [app].
  rewrite !split_dots_field, split_dots_last by done. simpl. by rewrite H0, H1, H2, H3.
Qed.

Lemma replica_addr `{Ipv6Syntax} ip port : socket_addr_of (replica ip port) = Some (mkAddr (ip_text ip) port).
Proof. unfold socket_addr_of, socket_addr. cbn. by rewrite ip_text_ok. Qed.

(** ** The tally counts every answer *)

Lemma btree_insert_sum k n (m : list (bytes * nat)) :
  StronglySorted (λ a b, bytes_compare a.1 b.1 = Lt) m →
  sum_list (btree_insert k (default 0 (assoc k m) + n) m).*2 = sum_list m.*2 + n.
Proof.
  induction 1 as [|[k' v'] m Hm IH Hall]; [simpl; lia|]. cbn [btree_insert].
  destruct (bytes_compare k k') eqn:Ek.
  - apply bytes_compare_eq in Ek as ->. unfold assoc. simpl. rewrite bool_decide_eq_true_2 by done. simpl. lia.
  - assert (assoc k ((k', v') :: m) = None) as ->; [|simpl; lia]. unfold assoc.
    destruct (List.find _ _) as [e|] eqn:Ef; [|done]. exfalso. apply find_some in Ef as [Hin Hk].
    apply bool_decide_eq_true in Hk. destruct Hin as [<-|Hin]; simpl in Hk.
    + subst. rewrite (proj2 (bytes_compare_eq k k)) in Ek by done. done.
    + rewrite Forall_forall in Hall. specialize (Hall e ltac:(by apply list_elem_of_In)). simpl in Hall.
      rewrite Hk in Hall. rewrite bytes_compare_antisym, Ek in Hall. done.
  - assert (assoc k ((k', v') :: m) = assoc k m) as ->.
    { unfold assoc. simpl. rewrite bool_decide_eq_false_2; [done|]. intros ->.
      by rewrite (proj2 (bytes_compare_eq k k)) in Ek by done. }
    transitivity (v' + sum_list (btree_insert k (default 0 (assoc k m) + n) m).*2); [done|]. rewrite IH.
    change (sum_list ((k', v') :: m).*2) with (v' + sum_list m.*2). lia.
Qed.

Lemma btree_insert_order k v (m : list (bytes * nat)) :
  StronglySorted (λ a b, bytes_compare a.1 b.1 = Lt) m →
  StronglySorted (λ a b, bytes_compare a.1 b.1 = Lt) (btree_insert k v m).
Proof.
  assert (∀ k0 k v (m : list (bytes * nat)), bytes_compare k0 k = Lt →
    Forall (λ b, bytes_compare k0 b.1 = Lt) m → Forall (λ b, bytes_compare k0 b.1 = Lt) (btree_insert k v m)) as Hf.
  { intros k0 k1 v1 m1 Hk. induction 1 as [|[k' v'] m1 Hx Hm IH]; simpl; [by repeat constructor|].
    case_match; repeat (constructor; try done). }
  induction 1 as [|[k' v'] m Hm IH Hall]; simpl; [by repeat constructor|].
  destruct (bytes_compare k k') eqn:Ek.
  - apply bytes_compare_eq in Ek as ->. by constructor.
  - constructor; [by constructor|]. constructor; [done|]. eapply Forall_impl; [exact Hall|].
    intros e He. by eapply bytes_compare_trans.
  - constructor; [done|]. apply Hf; [|done]. simpl. by rewrite bytes_compare_antisym, Ek.
Qed.

Lemma tally_counts_total answers : sum_list (tally_counts answers).*2 = length answers.
Proof.
  unfold tally_counts. change (length answers) with (sum_list (@nil (bytes * nat)).*2 + length answers).
  assert (StronglySorted (λ a b : bytes * nat, bytes_compare a.1 b.1 = Lt) []) as Hs by constructor. revert Hs.
  generalize (@nil (bytes * nat)) as m. induction answers as [|a answers IH]; intros m Hs; simpl; [lia|].
  rewrite IH by by apply btree_insert_order. unfold count_answer. rewrite btree_insert_sum by done. lia.
Qed.

(** ** One attack per replica and DID in a window *)

Section rate.
Context `{Json}.

Fixpoint attacked_after (attacked : Attacked) (events : list (Z * Seen)) : Attacked :=
  match events with
  | [] => attacked
  | (now, e) :: events' => attacked_after (react now attacked e).1 events'
  end.

Lemma react_app attacked pre post :
  react_to_updates attacked (pre ++ post) =
    react_to_updates attacked pre ++ react_to_updates (attacked_after attacked pre) post.
Proof using.
  revert attacked. induction pre as [|[now e] pre IH]; intros attacked; [done|]. simpl.
  destruct (react now attacked e) as [a r]. simpl. by rewrite IH.
Qed.

Lemma attacked_after_app attacked pre post :
  attacked_after attacked (pre ++ post) = attacked_after (attacked_after attacked pre) post.
Proof using. revert attacked. induction pre as [|[now e] pre IH]; intros attacked; [done|]. simpl. by rewrite IH. Qed.

Lemma length_react attacked events : length (react_to_updates attacked events) = length events.
Proof using.
  revert attacked. induction events as [|[now e] events IH]; intros attacked; [done|]. simpl.
  destruct (react now attacked e) as [a r]. simpl. by rewrite IH.
Qed.

(** An update of the record of a replica was taken at some time. *)
Definition taken (events : list (Z * Seen)) (target : Ipv4Addr * ident) (at_ : Z) : Prop :=
  ∃ e a, ((at_, e), Taken target a) ∈ zip events (react_to_updates ∅ events).

Lemma taken_snoc pre now e target at_ :
  taken (pre ++ [(now, e)]) target at_ ↔
  taken pre target at_ ∨ at_ = now ∧ ∃ a, (react now (attacked_after ∅ pre) e).2 = Taken target a.
Proof using.
  unfold taken. rewrite react_app. rewrite zip_with_app by (by rewrite length_react). simpl.
  destruct (react now (attacked_after ∅ pre) e) as [a' r]. simpl. setoid_rewrite elem_of_app.
  setoid_rewrite list_elem_of_singleton. naive_solver.
Qed.

Lemma taken_time pre target t : taken pre target t → t ∈ pre.*1.
Proof using.
  intros (e & a & (i & Hi)%list_elem_of_lookup). rewrite lookup_zip_with in Hi.
  destruct (pre !! i) as [[t' e']|] eqn:Hp; [|done]. simpl in Hi. destruct (react_to_updates ∅ pre !! i); [|done].
  simpl in Hi. injection Hi as -> -> _. apply list_elem_of_fmap. exists (t, e). split; [done|].
  by eapply list_elem_of_lookup_2.
Qed.

(** A turn either leaves the table alone or takes the update of a target that is
    not in the window. *)
Lemma react_cases now attacked e :
  react now attacked e = (attacked, Ignored) ∨
  ∃ u, e = SeenRequest u ∧ ob_update u = true ∧
    (∀ t, attacked !! (ob_to u, ob_key u) = Some t → (ATTACK_ONCE_PER ≤ elapsed now t)%Z) ∧
    react now attacked e =
      (filter (λ kv, (elapsed now kv.2 < ATTACK_ONCE_PER)%Z) (<[(ob_to u, ob_key u) := now]> attacked),
       Taken (ob_to u, ob_key u) (mkAttack u <$> did_of (ob_value u))).
Proof using.
  destruct e as [ip|u]; [by left|]. unfold react. destruct (ob_update u) eqn:Hu; [|by left]. cbn [negb].
  destruct (attacked !! (ob_to u, ob_key u)) as [t|] eqn:Ht.
  - destruct (_ <? _)%Z eqn:El; [by left|]. bool_facts. right. exists u. split_and!; [done|done| |done].
    rewrite Ht. by intros t' [= <-].
  - right. exists u. split_and!; [done|done| |done]. by rewrite Ht.
Qed.

(** What the table says of a target after some events, and when it may say
    nothing: all attacks on it are older than the window. *)
Lemma attacked_spec pre now target :
  StronglySorted Z.le (pre.*1 ++ [now]) →
  match attacked_after ∅ pre !! target with
  | Some at_ => taken pre target at_ ∧ ∀ t, taken pre target t → (t ≤ at_)%Z
  | None => ∀ t, taken pre target t → (ATTACK_ONCE_PER ≤ now - t)%Z
  end.
Proof using.
  revert now. induction pre as [|[t0 e] pre IH] using rev_ind; intros now Hs.
  { simpl. rewrite lookup_empty. intros t (e & a & Ht). by apply not_elem_of_nil in Ht. }
  rewrite fmap_app in Hs. pose proof (StronglySorted_app_1_l _ _ _ Hs) as Hpre.
  assert (t0 ≤ now)%Z as Hle.
  { eapply (StronglySorted_app_1_elem_of Z.le _ [now]); [exact Hs| |by left]. apply elem_of_app. right. by left. }
  assert (∀ t, taken pre target t → t ≤ t0)%Z as Hpast.
  { intros t Ht%taken_time. eapply (StronglySorted_app_1_elem_of Z.le _ [t0]); [exact Hpre|done|by left]. }
  specialize (IH t0 Hpre). rewrite attacked_after_app. simpl.
  pose proof (λ t, taken_snoc pre t0 e target t) as HT. revert HT. generalize (taken (pre ++ [(t0, e)]) target) as T.
  destruct (react_cases t0 (attacked_after ∅ pre) e) as [Hr|(u & -> & _ & Hold & Hr)]; rewrite Hr; cbn [fst snd];
    intros T HT.
  - assert (∀ t, T t ↔ taken pre target t) as HT' by (intros t; rewrite HT; naive_solver).
    destruct (_ !! target); [split; [naive_solver|]|]; intros t Ht%HT'; [naive_solver|].
    specialize (IH t Ht). lia.
  - destruct (decide (target = (ob_to u, ob_key u))) as [->|Hne].
    + rewrite (map_lookup_filter_Some_2 _ _ _ t0);
        [|apply lookup_insert_eq|simpl; unfold elapsed, ATTACK_ONCE_PER, from_secs; lia].
      split; [apply HT; eauto|]. intros t [Ht|[-> _]]%HT; [by apply Hpast|done].
    + assert (∀ t, T t ↔ taken pre target t) as HT' by (intros t; rewrite HT; naive_solver).
      destruct (attacked_after ∅ pre !! target) as [a|] eqn:Ha.
      * destruct IH as [Ht Hmax]. destruct (decide (elapsed t0 a < ATTACK_ONCE_PER)%Z) as [Hin|Hout].
        -- rewrite (map_lookup_filter_Some_2 _ _ _ a); [naive_solver|by rewrite lookup_insert_ne|done].
        -- rewrite map_lookup_filter_None_2 by (right; rewrite lookup_insert_ne by done; naive_solver).
           intros t Ht'%HT'. specialize (Hmax t Ht'). pose proof (Hpast a Ht). unfold elapsed in Hout. lia.
      * rewrite map_lookup_filter_None_2 by (left; by rewrite lookup_insert_ne).
        intros t Ht%HT'. specialize (IH t Ht). lia.
Qed.

(** Each update is taken, or follows one that was within the window. *)
Lemma update_reaction pre t u post :
  StronglySorted Z.le (pre.*1 ++ [t]) → ob_update u = true →
  let target := (ob_to u, ob_key u) in
  let r := react_to_updates ∅ (pre ++ (t, SeenRequest u) :: post) !! length pre in
  ((∃ t', taken pre target t' ∧ (t - t' < ATTACK_ONCE_PER)%Z) ∧ r = Some Ignored) ∨
  ((∀ t', taken pre target t' → (ATTACK_ONCE_PER ≤ t - t')%Z) ∧
   r = Some (Taken target (mkAttack u <$> did_of (ob_value u)))).
Proof using.
  intros Hs Hu target r. pose proof (attacked_spec pre t target Hs) as Ha.
  assert (r = Some (react t (attacked_after ∅ pre) (SeenRequest u)).2) as ->.
  { unfold r. rewrite react_app, <- (length_react ∅ pre). cbn [react_to_updates].
    destruct (react t (attacked_after ∅ pre) (SeenRequest u)). by apply list_lookup_middle. }
  unfold react. rewrite Hu. cbn [negb]. fold target. destruct (attacked_after ∅ pre !! target) as [a|].
  - destruct Ha as [Ht Hmax]. pose proof (taken_time _ _ _ Ht) as Hin.
    assert (a ≤ t)%Z by (eapply (StronglySorted_app_1_elem_of Z.le _ [t]); [exact Hs|done|by left]).
    destruct (_ <? _)%Z eqn:El; bool_facts; [left|right]; cbn [snd].
    + split; [|done]. exists a. split; [done|]. unfold elapsed in El. lia.
    + split; [|done]. intros t' Ht'. specialize (Hmax t' Ht'). unfold elapsed in El. lia.
  - right. done.
Qed.

End rate.

(** ** What persist mode sends *)

Section coverage.
Context `{HashOrder, JsonWrite, Base64Encode, SignatureLibraries, KeyGeneration}.
Context (dht_port did_ttl : Z).

(** A target comes from a request seen for its key. *)
Definition learned_from (events : list (Z * PersistEvent)) (key : ident) (t : Target) : Prop :=
  ∃ o d, (tg_learned t, PSeen (SeenRequest o) d) ∈ events ∧ ob_key o = key ∧
    did_of (ob_value o) = Some (tg_did t) ∧ tg_forged t = forge (tg_did t) d.

Definition node_seen (events : list (Z * PersistEvent)) (ip : Ipv4Addr) : Prop :=
  ∃ t d, (t, PSeen (SeenNode ip) d) ∈ events.

Record remembers (events : list (Z * PersistEvent)) (s : Persist) : Prop := {
  rm_nodes ip : ip ∈ ps_nodes s ↔ node_seen events ip;
  rm_targets : map_Forall (learned_from events) (ps_targets s)
}.

Lemma learned_from_snoc events ev key t : learned_from events key t → learned_from (events ++ [ev]) key t.
Proof using. intros (o & d & Ho & ?). exists o, d. split; [|done]. apply elem_of_app. by left. Qed.

Lemma node_seen_snoc events now ev ip :
  node_seen (events ++ [(now, ev)]) ip ↔ node_seen events ip ∨ ∃ d, ev = PSeen (SeenNode ip) d.
Proof using.
  unfold node_seen. setoid_rewrite elem_of_app. setoid_rewrite list_elem_of_singleton. naive_solver.
Qed.

(** A turn in which no node is seen. *)
Lemma remembers_same events now ev s s' :
  remembers events s → (∀ ip d, ev ≠ PSeen (SeenNode ip) d) → ps_nodes s' = ps_nodes s →
  map_Forall (learned_from (events ++ [(now, ev)])) (ps_targets s') → remembers (events ++ [(now, ev)]) s'.
Proof using.
  intros [Hn Ht] Hev Hs Ht'. split; [|done]. intros ip. rewrite node_seen_snoc, Hs, Hn. naive_solver.
Qed.

Lemma remembers_turn events now ev s :
  remembers events s → remembers (events ++ [(now, ev)]) (persist_turn dht_port did_ttl now s ev).1.1.
Proof using.
  intros Hr. assert (map_Forall (learned_from (events ++ [(now, ev)])) (ps_targets s)) as Hold.
  { eapply map_Forall_impl; [apply (rm_targets _ _ Hr)|]. intros k t. apply learned_from_snoc. }
  destruct ev as [[ip|o] d|a|]; simpl.
  - split; simpl; [|done]. intros ip'. rewrite node_seen_snoc, elem_of_union, elem_of_singleton, (rm_nodes _ _ Hr).
    naive_solver.
  - apply (remembers_same _ _ _ s); [done|done|unfold learn; by repeat case_match|]. unfold learn.
    destruct (ps_targets s !! ob_key o); [done|]. destruct (did_of (ob_value o)) as [did|] eqn:Hd; [|done].
    simpl. apply map_Forall_insert_2; [|done]. exists o, d. split_and!; try done. apply elem_of_app. right. by left.
  - by apply (remembers_same _ _ _ s).
  - unfold report_turn. destruct (from_secs 5 <=? _)%Z; (apply (remembers_same _ _ _ s); [done..|]); simpl;
      intros k t [Hk _]%map_lookup_filter_Some; by apply (Hold k t).
Qed.

Lemma remembers_persist events s events' :
  remembers events s → remembers (events ++ events') (persist dht_port did_ttl s events').1.
Proof using.
  revert events s. induction events' as [|[now ev] events' IH]; intros events s Hr; simpl.
  { by rewrite app_nil_r. }
  apply (remembers_turn _ now ev) in Hr.
  destruct (persist_turn dht_port did_ttl now s ev) as [[s1 stores] r]. apply IH in Hr.
  rewrite <- app_assoc in Hr. simpl in Hr. by destruct (persist dht_port did_ttl s1 events').
Qed.

Lemma remembers_new now : remembers [] (new_persist now).
Proof using.
  split; simpl; [|apply map_Forall_empty]. intros ip. unfold node_seen. setoid_rewrite elem_of_nil. set_solver.
Qed.

Lemma elem_of_tick_stores targets nodes p k v :
  (p, k, v) ∈ tick_stores dht_port targets nodes ↔
  ∃ ip t, ip ∈ nodes ∧ targets !! k = Some t ∧ p = replica ip dht_port ∧ v = tg_forged t.
Proof using.
  unfold tick_stores. rewrite list_elem_of_bind. split.
  - intros ([k' t] & Hx & Hk). revert Hx. rewrite list_elem_of_bind. intros (ip & Hx & Hip).
    apply list_elem_of_singleton in Hx. rewrite hash_order_perm, elem_of_map_to_list in Hk.
    apply elem_of_elements in Hip. injection Hx as -> -> ->. eauto 7.
  - intros (ip & t & Hip & Ht & -> & ->). exists (k, t).
    rewrite hash_order_perm, elem_of_map_to_list. split; [|done]. apply list_elem_of_bind.
    exists ip. split; [by apply list_elem_of_singleton|by apply elem_of_elements].
Qed.

End coverage.

(** ** Theorems *)

(** In modes race and burst, a replica is attacked for an UPDATE of a record
    unless it was attacked for that record less than [ATTACK_ONCE_PER] ago, and
    only then. Forgetting old attacks does not change this. The reports come in
    the order of the clock. *)
Lemma attacks_once_per_window `{Json} (events : list (Z * Seen)) (Htimes : StronglySorted Z.le events.*1) :
  ∀ i t u, events !! i = Some (t, SeenRequest u) → ob_update u = true →
    let target := (ob_to u, ob_key u) in
    let r := react_to_updates ∅ events !! i in
    let recent := ∃ t', taken (take i events) target t' ∧ (t - t' < ATTACK_ONCE_PER)%Z in
    (recent ∧ r = Some Ignored) ∨ (¬ recent ∧ r = Some (Taken target (mkAttack u <$> did_of (ob_value u)))).
Proof.
  intros i t u Hi Hu target r recent. pose proof (take_drop_middle _ _ _ Hi) as Hev.
  assert (length (take i events) = i) as Hlen by (apply length_take_le, Nat.lt_le_incl; by eapply lookup_lt_Some).
  destruct (update_reaction (take i events) t u (drop (S i) events)) as [[Hr1 Hr2]|[Hr1 Hr2]]; [|done|..].
  { rewrite <- Hev, fmap_app in Htimes. simpl in Htimes.
    change (?x :: ?l) with ([x] ++ l) in Htimes. rewrite app_assoc in Htimes. by eapply StronglySorted_app_1_l. }
  - left. rewrite Hev, Hlen in Hr2. done.
  - right. rewrite Hev, Hlen in Hr2. split; [|done]. intros (t' & Ht' & Hlt). specialize (Hr1 t' Ht'). lia.
Qed.

(** At every tick, mode persist sends the forged record of each DID learned
    less than the ttl ago to every node seen so far, and nothing else; each of
    these records is made with the keys of the attacker for the DID in a request
    seen for its key. *)
Lemma persist_covers `{HashOrder, JsonWrite, Base64Encode, SignatureLibraries, KeyGeneration}
    (dht_port did_ttl t0 : Z) (events : list (Z * PersistEvent)) :
  let s := (persist dht_port did_ttl (new_persist t0) events).1 in
  map_Forall (learned_from events) (ps_targets s) ∧
  ∀ now p key v, (p, key, v) ∈ (persist_turn dht_port did_ttl now s PTick).1.2 ↔
    ∃ ip t, node_seen events ip ∧ p = replica ip dht_port ∧ ps_targets s !! key = Some t ∧
      (elapsed now (tg_learned t) < did_ttl)%Z ∧ v = tg_forged t.
Proof.
  intros s. pose proof (remembers_persist dht_port did_ttl [] _ events (remembers_new t0)) as [Hn Ht].
  split; [done|]. intros now p key v. simpl. unfold report_turn.
  assert (∀ (b : bool) x y (l : list ForgedStore), (let '(s2, r) := (if b then x else y : Persist * option PersistReport) in
    (s2, l, r)).1.2 = l) as Hb by (intros [] [] []; done).
  rewrite Hb, elem_of_tick_stores. setoid_rewrite map_lookup_filter_Some. split.
  - intros (ip & t & Hip%Hn & [Hk Hl] & -> & ->). by exists ip, t.
  - intros (ip & t & Hip%Hn & -> & Hk & Hl & ->). by exists ip, t.
Qed.

(** ** What an attack sends *)

#[local] Existing Instance logged.

Section sends.
Context {St C E : Type} `{Bincode, Ipv6Syntax}.
Context `{JsonWrite, Base64Encode, SignatureLibraries, KeyGeneration}.
Abbreviation P := (KademliaProtocol St C).
Context `{Environment E P}.
Abbreviation W := (World P (E * Log)).
Context (Hsend : sends_succeed (St := St) (C := C) (E := E)).

(** A STORE of [value] under [key] to [addr]: its datagrams, and perhaps copies. *)
Definition store_to (addr : SocketAddr) (key : ident) (value : bytes) (s : Log) : Prop :=
  ∃ me ds, datagrams_of (Messages.Store me key value) ds ∧
    (pair addr <$> ds) `prefix_of` s ∧ s `prefix_of` copies addr ds (1 + Z.to_nat MAX_RESENDS).

(** The node sent [n] such STOREs between [w] and [w']. *)
Definition stores_sent (addr : SocketAddr) (key : ident) (value : bytes) (n : nat) (w w' : W) : Prop :=
  ∃ ss, (env w').2 = (env w).2 ++ mjoin ss ∧ length ss = n ∧ Forall (store_to addr key value) ss.

Lemma stores_sent_trans addr key value n m w1 w2 w3 :
  stores_sent addr key value n w1 w2 → stores_sent addr key value m w2 w3 → stores_sent addr key value (n + m) w1 w3.
Proof using.
  intros (s1 & Hw1 & L1 & F1) (s2 & Hw2 & L2 & F2). exists (s1 ++ s2). split_and!.
  - by rewrite Hw2, Hw1, <-(assoc_L (++)), join_app.
  - rewrite length_app. lia.
  - by apply Forall_app.
Qed.

Lemma stores_sent_none addr key value w w' : (env w').2 = (env w).2 → stores_sent addr key value 0 w w'.
Proof using. intros Hw. exists []. by rewrite Hw, app_nil_r. Qed.

Context (addr : SocketAddr) (key : ident) (value : bytes).
Context (Hencode : ∀ me, ¬ unencodable (Messages.Store me key value)).

Lemma store_rpc_sends peer (w : W) :
  socket_addr_of peer = Some addr → stores_sent addr key value 1 w (call_store_rpc peer key value w).1.
Proof using Hsend Hencode.
  intros Ha. cut (triple (sent_is (env w).2) (call_store_rpc peer key value)
    (λ _ w', ∃ me ds, datagrams_of (Messages.Store me key value) ds ∧ transmitted (env w).2 addr ds w')).
  { intros Ht. destruct (call_store_rpc peer key value w) as [w' r] eqn:E1. specialize (Ht w eq_refl). rewrite E1 in Ht.
    destruct Ht as (me & ds & Hd & s & Hs & Hf & Hp). exists [s]. simpl. rewrite app_nil_r.
    split_and!; [done..|]. repeat constructor. exists me, ds. auto. }
  unfold call_store_rpc. rewrite Ha. eapply triple_bind; [apply keeps_gets|]. intros me.
  eapply (triple_bind _ _ (λ _ w', ∃ me ds, datagrams_of (Messages.Store me key value) ds ∧ transmitted (env w).2 addr ds w')).
  { eapply triple_weaken; [apply sent_call|done|]. intros r w' [[Hu _]|(ds & Hd & Ht)]; [by apply Hencode in Hu|].
    by exists me, ds. }
  intros r. assert (∀ l, keeps (sent_is l) (note_failure (E := E * Log) (St := St) (C := C) peer)) as Hf.
  { intros l. unfold note_failure. keeps_all; auto using sent_pause, sent_modify. }
  assert (∀ l, keeps (sent_is l) (note_alive (E := E * Log) (St := St) (C := C) peer)) as Hn.
  { intros l. unfold note_alive, read_router. keeps_all; auto using sent_pause, sent_modify, sent_update. }
  intros w1 (me' & ds & Hd & s & Hs & Ht).
  eapply (triple_run (sent_is ((env w).2 ++ s)) _ (λ _ w', ∃ me ds, datagrams_of (Messages.Store me key value) ds ∧
    transmitted (env w).2 addr ds w') w1 Hs).
  eapply triple_weaken; [|done|intros x w' Hx; exists me', ds; split; [done|]; exists s; split; [exact Hx|done]].
  destruct r as [[]|]; (eapply triple_bind; [apply Hf || apply Hn|]); intros ?; apply keeps_ret.
Qed.

Lemma forged_stores_sent peer nodes indices :
  socket_addr_of peer = Some addr → nodes ≠ [] →
  let '(nodes', answers) := forged_stores peer key value nodes indices in
  length nodes' = length nodes ∧ length answers = length indices ∧
  ∀ j (w w' : W), nodes !! j = Some w → nodes' !! j = Some w' →
    stores_sent addr key value (length (filter (λ i, i `mod` length nodes = j) indices)) w w'.
Proof using Hsend Hencode.
  intros Ha. revert nodes. induction indices as [|i indices IH]; intros nodes Hne; cbn [forged_stores].
  { split_and!; [done..|]. intros j w w' Hw Hw'. simplify_eq. by apply stores_sent_none. }
  unfold forged_store. pose proof (Nat.mod_upper_bound i (length nodes) ltac:(by destruct nodes)) as Hi.
  destruct (lookup_lt_is_Some_2 nodes _ Hi) as [wi Hwi]. rewrite Hwi.
  pose proof (store_rpc_sends peer wi Ha) as Hs. destruct (call_store_rpc peer key value wi) as [wi' ans].
  specialize (IH (<[i `mod` length nodes := wi']> nodes) ltac:(by intros ?%(f_equal length); rewrite length_insert in *; destruct nodes)).
  rewrite length_insert in IH. destruct (forged_stores _ _ _ _ indices) as [nodes' answers].
  destruct IH as (Hl & Hk & IH). split_and!; [done|by simpl; f_equal|]. intros j w w' Hw Hw'.
  rewrite filter_cons. destruct (decide (i `mod` length nodes = j)) as [<-|Hj].
  - simplify_eq. apply (stores_sent_trans _ _ _ 1 _ _ wi'); [done|]. apply IH; [|done]. by apply list_lookup_insert_eq.
  - apply IH; [|done]. by rewrite list_lookup_insert_ne.
Qed.

End sends.

(** The STOREs of an attack, node by node. *)
Lemma launch_sent {St C E : Type} `{Bincode, Ipv6Syntax, JsonWrite, Base64Encode, SignatureLibraries, KeyGeneration}
    `{Environment E (KademliaProtocol St C)} burst delay a d (nodes : list (World (KademliaProtocol St C) (E * Log))) :
  sends_succeed (St := St) (C := C) (E := E) →
  (∀ me, ¬ unencodable (Messages.Store me (ob_key (ak_update a)) (forge (ak_did a) d))) → nodes ≠ [] →
  let u := ak_update a in
  let '(nodes', answers) := launch burst delay a d nodes in
  length nodes' = length nodes ∧ length answers = burst ∧
  ∀ j w w', nodes !! j = Some w → nodes' !! j = Some w' →
    stores_sent (mkAddr (ip_text (ob_to u)) (ob_to_port u)) (ob_key u) (forge (ak_did a) d)
      (length (filter (λ i, i `mod` length nodes = j) (seq 0 burst))) w w'.
Proof.
  intros Hsend Henc Hne u. unfold launch. set (nodes1 := if (delay =? 0)%Z then _ else _).
  assert (length nodes1 = length nodes ∧ ∀ j w1, nodes1 !! j = Some w1 → ∃ w, nodes !! j = Some w ∧ (env w1).2 = (env w).2)
    as [Hl1 Hn1].
  { unfold nodes1. destruct (delay =? 0)%Z; [eauto|]. rewrite length_fmap. split; [done|]. intros j w1.
    rewrite list_lookup_fmap. destruct (nodes !! j) as [w|] eqn:Hj; [|done]. intros [= <-]. exists w. split; [done|].
    by apply (sent_pause (env w).2 w). }
  pose proof (forged_stores_sent Hsend _ _ _ Henc (replica (ob_to u) (ob_to_port u)) nodes1 (seq 0 burst)
    (replica_addr _ _)) as Hs.
  specialize (Hs ltac:(intros ->; by destruct nodes)). fold u. destruct (forged_stores _ _ _ nodes1 _) as [nodes' answers].
  destruct Hs as (Hl & Hk & Hs). rewrite length_seq in Hk. rewrite Hl1 in *. split_and!; [done..|].
  intros j w w' Hw Hw'. destruct (nodes1 !! j) as [w1|] eqn:Hj1.
  2:{ apply lookup_ge_None in Hj1. apply lookup_lt_Some in Hw. lia. }
  destruct (Hn1 j w1 Hj1) as (w0 & Hw0 & Elog). simplify_eq.
  apply (stores_sent_trans _ _ _ 0 _ _ w1); [by apply stores_sent_none|]. by apply Hs.
Qed.

(** C32: the attacker forges valid records for the DIDs it sees, and a replica that
    holds a record of the owner refuses them. When the attacker sees an UPDATE
    of the record of a DID to a replica it has not attacked yet, it sends as many
    STOREs as its burst has, in turn from each of its nodes, to the address of
    that replica, all of one record under the key of the update, where the
    socket reports no error and the STORE can be encoded. Any node verifies that
    record for the key of the DID; a replica that holds a record of the owner
    answers such a STORE that it is a conflict, or invalid, and keeps what it
    holds. *)
Theorem forged_stores_are_refused {St C E : Type} `{Sha1, Sha256, Bincode, Ipv6Syntax, HashOrder, JsonLaws, Base64Laws,
      KeyGenerationLaws, !Dilithium2Size, UuidSyntax, Hex, IStorageLaws St, MokaCache C}
    `{Environment E (KademliaProtocol St C), LookupSchedule E}
    (issuer_file : option bytes) (uuid : bytes) (d0 d : Draw) (u : Observed) (attacked : Attacked) (now : Z)
    (owned : bytes → Prop) (w : World (KademliaProtocol St C) E)
    (Huuid : uuid_text uuid) (Hkey : digest uuid ≠ digest STATUS_LIST_KEY)
    (Hupdate : ob_update u = true) (Hu : ob_key u = digest uuid)
    (Hvalue : ob_value u = record (generate_version (generate_did_iiot uuid) d0))
    (Hnew : attacked !! (ob_to u, ob_key u) = None)
    (Hsend : sends_succeed (St := St) (C := C) (E := E))
    (Hencode : ∀ me, ¬ unencodable (Messages.Store me (ob_key u) (forge (generate_did_iiot uuid) d)))
    (Hothers : stable (of_records (holds_owned (C := C) (E := E) (digest uuid) owned)))
    (Hheld : of_records (holds_owned (digest uuid) owned) w)
    (Hforged : ¬ owned (forge (generate_did_iiot uuid) d)) :
  ∃ attack forged,
    (react now attacked (SeenRequest u)).2 = Taken (ob_to u, ob_key u) (Some attack) ∧
    (∀ burst delay (nodes : list (World (KademliaProtocol St C) (E * Log))), nodes ≠ [] →
      let '(nodes', answers) := launch burst delay attack d nodes in
      length nodes' = length nodes ∧ length answers = burst ∧
      ∀ j wj wj', nodes !! j = Some wj → nodes' !! j = Some wj' →
        stores_sent (mkAddr (ip_text (ob_to u)) (ob_to_port u)) (ob_key u) forged
          (length (filter (λ i, i `mod` length nodes = j) (seq 0 burst))) wj wj') ∧
    (∀ now', (verify_record (C := C) (did_handler issuer_file) now' None (ob_key u) forged).1 = true) ∧
    ∀ sender_id addr,
      let '(w', answer) := rpc_store (did_handler issuer_file) sender_id addr (ob_key u) forged w in
      of_records (holds_owned (digest uuid) owned) w' ∧ (answer = Some SConflict ∨ answer = Some SInvalidRecord).
Proof.
  exists (mkAttack u (generate_did_iiot uuid)), (forge (generate_did_iiot uuid) d). split_and!.
  - unfold react. rewrite Hupdate, Hnew, Hvalue, version_did by done. done.
  - intros burst delay nodes Hne. by apply launch_sent.
  - intros now'. rewrite Hu. apply did_verified; [done|by apply version_bound|by apply version_self_signed].
  - intros sender_id addr. rewrite Hu.
    pose proof (foreign_refused (did_handler issuer_file) (digest uuid) owned Hothers Hkey sender_id addr
      (forge (generate_did_iiot uuid) d) Hforged w Hheld) as Hr. by destruct (rpc_store _ _ _ _ _ w).
Qed.

(** ** An attack *)

Module AttackerExample.
Import NodeExample OwnerExample SnifferExample.

#[local] Existing Instances KeyExample.ex_signatures KeyExample.ex_generation KeyExample.ex_generation_laws.
#[local] Existing Instances DidExample.ex_size DidExample.ex_json DidExample.ex_json_write DidExample.ex_json_laws.
#[local] Existing Instances DidExample.ex_b64 DidExample.ex_b64_encode DidExample.ex_b64_laws.
#[local] Existing Instances DidExample.ex_uuid DidExample.ex_hex frozen.

Definition uuid : bytes := DidExample.ex_uuid_text.
Definition the_did : bytes := generate_did_iiot uuid.
Definition draw (b : byte) : Draw := mkDraw [b] [b] [].
Definition owner_version : Version := generate_version the_did (draw x01).
Definition update_seen : Observed := mkObserved true node_a node_b 4000 (digest uuid) (record owner_version) 0.

(** A replica with the record of the owner. *)
Definition replica_world : World ExP Z := mkW (with_storage
  (insert_if_absent 0 (storage start) (ident_bytes (digest uuid)) (record owner_version)).1 start) 0%Z.

Lemma forged_stores_are_refused_witness :
  ∃ attack forged,
    (react 5 ∅ (SeenRequest update_seen)).2 = Taken (node_b, digest uuid) (Some attack) ∧
    (∀ burst delay (nodes : list (World ExP (Z * Log))), nodes ≠ [] →
      let '(nodes', answers) := launch burst delay attack (draw x02) nodes in
      length nodes' = length nodes ∧ length answers = burst ∧
      ∀ j wj wj', nodes !! j = Some wj → nodes' !! j = Some wj' →
        stores_sent (mkAddr (ip_text node_b) 4000) (digest uuid) forged
          (length (filter (λ i, i `mod` length nodes = j) (seq 0 burst))) wj wj') ∧
    (∀ now', (verify_record (C := Cache) (did_handler None) now' None (digest uuid) forged).1 = true) ∧
    ∀ sender_id addr,
      let '(w', answer) := rpc_store (did_handler None) sender_id addr (digest uuid) forged replica_world in
      of_records (holds_owned (digest uuid) (λ v, v = record owner_version)) w' ∧
      (answer = Some SConflict ∨ answer = Some SInvalidRecord).
Proof.
  apply (forged_stores_are_refused (C := Cache) None uuid (draw x01) (draw x02) update_seen ∅ 5
    (λ v, v = record owner_version) replica_world).
  - split_and!; try reflexivity. apply (bool_decide_unpack _). vm_compute. exact I.
  - intros E1. apply (f_equal ident_bytes) in E1. vm_compute in E1. congruence.
  - reflexivity.
  - reflexivity.
  - reflexivity.
  - reflexivity.
  - intros e a d. reflexivity.
  - intros me (i & frag & Hn). change (encode_message frag [x00] = None) in Hn. unfold encode_message in Hn. simpl in Hn. congruence.
  - by split.
  - exists (record owner_version). split; [|reflexivity]. apply (bool_decide_unpack _). vm_compute. exact I.
  - apply (bool_decide_unpack (forge the_did (draw x02) ≠ record owner_version)). vm_compute. exact I.
Defined.

(** An UPDATE seen three times, and again after the window. *)
Definition sightings : list (Z * Seen) :=
  [(0, SeenNode node_b); (1, SeenRequest update_seen); (2, SeenRequest update_seen); (3, SeenRequest update_seen);
   (from_secs 6, SeenRequest update_seen)]%Z.

Lemma attacks_once_per_window_witness :
  let r := react_to_updates ∅ sightings !! 4 in
  let recent := ∃ t', taken (take 4 sightings) (node_b, digest uuid) t' ∧ (from_secs 6 - t' < ATTACK_ONCE_PER)%Z in
  (recent ∧ r = Some Ignored) ∨
  (¬ recent ∧ r = Some (Taken (node_b, digest uuid) (mkAttack update_seen <$> did_of (record owner_version)))).
Proof.
  assert (StronglySorted Z.le sightings.*1) as Htimes.
  { change (sightings.*1) with [0; 1; 2; 3; from_secs 6]%Z. unfold from_secs.
    repeat first [apply SSorted_nil | apply SSorted_cons | apply Forall_nil_2 | apply Forall_cons_2 | lia]. }
  apply (attacks_once_per_window sightings Htimes 4 (from_secs 6) update_seen); reflexivity.
Defined.

Example attacks :
  (λ r, if r is Taken _ (Some _) then true else false) <$> react_to_updates ∅ sightings =
    [false; true; false; false; true].
Proof. vm_compute. reflexivity. Qed.

End AttackerExample.
