(* ===== verification/Resilience.v ===== *)
(** * The resilience test (src/scripts/resilience_attacker.rs, resilience_victim.rs)

    The records both programs build, those the attacker tampers with, the
    verdict, and the victim that seeds its own store. The phases are in Phases. *)

From S2P Require Import Prelude Utils Node Routing Storage StorageProps Fragmentation Messages Retransmit.
From S2P Require Import Crypto AuthHandler AuthProps Crawling Effects Protocol Transport Client.
From S2P Require Import Handlers ProtocolProps NodeExample HandlersProps Publish Network KeyManager DidRecord Phases.

(** ** Records *)

Section records.
Context `{JsonWrite, Base64Encode, SignatureLibraries, KeyGeneration}.

(** [sort_json] and [b64url]: the code of [sort_json_keys] and
    [base64url_encode]. *)
Definition sort_json (v : JValue) : JValue := sort_json_keys v.
Definition b64url (data : bytes) : bytes := base64url_encode data.

(** [make_record], with the UUID and the keys drawn: the key and the record. The
    document is that of [build_did_document]. *)
Definition make_record (uuid : bytes) (d : Draw) : bytes * bytes :=
  let '(dpk, dsk) := dilithium_keypair 2 (draw_signing d) in
  let '(kpk, _) := kyber_keypair 512 (draw_agreement d) in
  let did := str_bytes "did:iiot:" ++ uuid in
  let key := dht_key did in
  let doc_bytes := json_to_vec (sort_json (build_did_document did dpk kpk)) in
  let sig := dilithium_sign 2 (draw_signature d) doc_bytes dsk in
  let alg := str_bytes "Dilithium-2" ++ drop 11 (replicate 12 x00) in
  (key, alg ++ sig ++ doc_bytes).

(** [rec[500] ^= 0xFF]. *)
Definition tamper (rec : bytes) : Run bytes :=
  b ← index_at rec 500; mret (<[500 := byte_of_Z (Z.lxor (byte_val b) 0xFF)]> rec).

(** The pools of [run]: valid records, and tampered ones. *)
Definition inv_size (pool_size : nat) : nat := (pool_size / 50) `max` 10.

Definition make_invalid (draws : list (bytes * Draw)) : Run (list (bytes * bytes)) :=
  foldr (λ u rest, rs ← rest;
           let '(key, rec) := make_record u.1 u.2 in rec' ← tamper rec; mret ((key, rec') :: rs))
    (mret []) draws.

End records.

(** The verdict of [run]: whether it exits with success. *)
Definition verdict (invalid : StoreCounts) : bool := sc_accepted invalid =? 0.

(** ** The victim *)

Module Victim.

Section victim.
Context {St C E : Type} `{Sha1, Sha256, Bincode, Ipv6Syntax, HashOrder, IStorage St, MokaCache C}.
Context `{JsonWrite, Base64Encode, SignatureLibraries, KeyGeneration}.
Abbreviation P := (KademliaProtocol St C).
Context `{Environment E P, LookupSchedule E}.

(** The same functions again. *)
Definition sort_json (v : JValue) : JValue := sort_json_keys v.
Definition make_record (uuid : bytes) (d : Draw) : bytes * bytes := Resilience.make_record uuid d.

(** Wait until somebody is in the routing table; [None] when nobody came in
    [turns] turns. *)
Fixpoint wait_for_attacker (turns : nat) (srv : Server) : F P E unit :=
  match turns with
  | O => λ _, None
  | S turns' =>
      ns ← lift (bootstrappable_neighbors srv);
      if negb (bool_decide (ns = [])) then mret tt
      else lift pause ;; wait_for_attacker turns' srv
  end.

(** The seeds, straight into the store. *)
Definition seed (records : list (bytes * bytes)) : M P E unit :=
  for_each (λ r, storage_set (digest r.1) r.2) records ;; mret tt.

End victim.

End Victim.

(** ** Tampered records *)

Section tampered.
Context `{Sha1, Sha256, JsonLaws, Base64Laws, KeyGenerationLaws, !Dilithium2Size, UuidSyntax, Hex}.

(** The parts of a record, by the UUID and the draw. *)
Definition record_doc (uuid : bytes) (d : Draw) : bytes :=
  encode_did_document (build_did_document (generate_did_iiot uuid) (dilithium_keypair 2 (draw_signing d)).1
    (kyber_keypair 512 (draw_agreement d)).1).
Definition record_sig (uuid : bytes) (d : Draw) : bytes :=
  dilithium_sign 2 (draw_signature d) (record_doc uuid d) (dilithium_keypair 2 (draw_signing d)).2.

(** The signature with the byte that is altered, 12 bytes into the record. *)
Definition tampered_sig (uuid : bytes) (d : Draw) : bytes :=
  let sig := record_sig uuid d in
  <[488 := byte_of_Z (Z.lxor (byte_val (default x00 (sig !! 488))) 0xFF)]> sig.

Lemma make_record_parts uuid d :
  make_record uuid d = (dht_key (generate_did_iiot uuid), pad12 ALGORITHM ++ record_sig uuid d ++ record_doc uuid d).
Proof using.
  unfold make_record, record_sig, record_doc. destruct (dilithium_keypair 2 _), (kyber_keypair 512 _). done.
Qed.

Lemma make_record_version uuid d :
  make_record uuid d = (dht_key (generate_did_iiot uuid), record (generate_version (generate_did_iiot uuid) d)).
Proof using.
  unfold make_record, generate_version. destruct (dilithium_keypair 2 _), (kyber_keypair 512 _). done.
Qed.

Lemma flipped_byte b : byte_of_Z (Z.lxor (byte_val b) 0xFF) ≠ b.
Proof using. by destruct b. Qed.

Lemma tamper_record uuid d :
  tamper (make_record uuid d).2 = Done (pad12 ALGORITHM ++ tampered_sig uuid d ++ record_doc uuid d) ∧
  tampered_sig uuid d ≠ record_sig uuid d ∧ length (tampered_sig uuid d) = SIGNATURE_LEN.
Proof using H10.
  rewrite make_record_parts. cbn [snd].
  assert (length (record_sig uuid d) = SIGNATURE_LEN) as Hl by apply dilithium2_size.
  unfold tampered_sig. set (sig := record_sig uuid d) in *. clearbody sig.
  destruct (lookup_lt_is_Some_2 sig 488) as [b Hb]; [rewrite Hl; unfold SIGNATURE_LEN; lia|].
  split_and!.
  - unfold tamper, index_at. assert (length (pad12 ALGORITHM) = 12) as Hpad by reflexivity.
    assert ((pad12 ALGORITHM ++ sig ++ record_doc uuid d) !! 500 = Some b) as ->.
    { rewrite lookup_app_r, Hpad by (rewrite Hpad; lia). by apply lookup_app_l_Some. }
    rewrite Hb. unfold mbind, Run_bind, mret, Run_ret. f_equal.
    rewrite insert_app_r_alt, Hpad by (rewrite Hpad; lia).
    change (500 - 12) with 488. rewrite insert_app_l by (by eapply lookup_lt_Some). done.
  - rewrite Hb. intros E. apply (f_equal (.!! 488)) in E. rewrite list_lookup_insert_eq in E by (by eapply lookup_lt_Some).
    rewrite Hb in E. injection E as E. by apply (flipped_byte b).
  - by rewrite length_insert.
Qed.

(** The signature library rejects the altered signature. *)
Definition alteration_detected (uuid : bytes) (d : Draw) : Prop :=
  dilithium_verify 2 (tampered_sig uuid d) (record_doc uuid d) (dilithium_keypair 2 (draw_signing d)).1 = false.

Lemma tampered_parts uuid d :
  record_parts (pad12 ALGORITHM ++ tampered_sig uuid d ++ record_doc uuid d) ALGORITHM (tampered_sig uuid d)
    (record_doc uuid d).
Proof using H10.
  destruct (tamper_record uuid d) as (_ & _ & Hl). split; [by apply (bool_decide_unpack _)| |done].
  by rewrite Hl.
Qed.

Lemma tampered_not_signed uuid d :
  uuid_text uuid → alteration_detected uuid d →
  ¬ self_signed (pad12 ALGORITHM ++ tampered_sig uuid d ++ record_doc uuid d).
Proof using H3 H6 H9 H10.
  intros (Hu & Ht & _) Hd (alg & sig & doc & pk & Hp & Hpk & v & Hv & Hok).
  destruct (parts_unique _ _ _ _ _ _ _ Hp (tampered_parts uuid d)) as (-> & -> & ->).
  destruct (document_parses (generate_did_iiot uuid) (dilithium_keypair 2 (draw_signing d)).1
    (kyber_keypair 512 (draw_agreement d)).1) as [_ Hk]; [by apply utf8_valid_app|].
  unfold record_doc in Hpk. rewrite Hk in Hpk. injection Hpk as <-.
  assert (v = dilithium_verifier) as -> by (change (Ok (E := VerifierError) dilithium_verifier = Ok v) in Hv; by injection Hv).
  unfold dilithium_verifier, verify_d in Hok. destruct (dilithium_levels 2 (draw_signing d)) as [Hl _]; [by left|].
  rewrite Hl in Hok. cbn [ok_or mbind Result_bind] in Hok. rewrite Hd in Hok.
  destruct (negb _); [discriminate Hok|]. destruct (negb _); discriminate Hok.
Qed.

(** A node without a signature cache never verifies such a record. *)
Lemma tampered_unverified {C : Type} `{MokaCache C} issuer_file now uuid d :
  uuid_text uuid → digest uuid ≠ digest STATUS_LIST_KEY → alteration_detected uuid d →
  (verify_record (C := C) (did_handler issuer_file) now None (digest uuid)
     (pad12 ALGORITHM ++ tampered_sig uuid d ++ record_doc uuid d)).1 = false.
Proof using H3 H6 H9 H10.
  intros Hu Hk Hd. unfold verify_record, check_signature. rewrite bool_decide_eq_false_2 by done. simpl.
  destruct (is_bound_to_key _ _ _); [|done]. simpl. apply not_true_iff_false.
  rewrite unwrap_or_true, verify_self_signed_iff. by apply tampered_not_signed.
Qed.

End tampered.

(** ** A node without a cache *)

Section uncached.
Context {St C E : Type} `{Sha1, Sha256, Bincode, Ipv6Syntax, HashOrder}.
Context `{IStorage St, MokaCache C} (handler : SignatureVerifierHandler).
Abbreviation P := (KademliaProtocol St C).
Context `{Environment E P, LookupSchedule E}.

Definition no_cache (s : St) (c : option C) (e : E) : Prop := c = None.
Abbreviation I := (of_records no_cache).
Context (HI : stable I).

(** It verifies without a cache. *)
Lemma uncached_verify key value :
  triple I (verify_for_key handler key value)
    (λ b w, b = (verify_record (C := C) handler 0 None key value).1 ∧ I w).
Proof using HI.
  unfold verify_for_key. eapply triple_bind; [by apply keeps_pause|]. intros u.
  eapply triple_bind; [apply triple_asks|]. intros now.
  eapply (triple_bind _ _ (λ b w, b = (verify_record (C := C) handler 0 None key value).1 ∧ I w)).
  - intros [p e] [Hw ->]. unfold update, of_records, no_cache in *. simpl in *. rewrite Hw.
    unfold verify_record. by destruct (is_bound_to_key handler key value).
  - intros b. apply triple_pure. intros Hb. eapply triple_bind; [by apply keeps_pause|]. intros u1. by intros w Hw.
Qed.

(** What it does not verify it does not accept. *)
Lemma unverified_refused sender_id addr key value :
  (verify_record (C := C) handler 0 None key value).1 = false →
  triple I (rpc_store handler sender_id addr key value) (λ o w, holds_record o = false ∧ I w).
Proof using HI.
  intros Hv. pose proof (framed_records no_cache HI) as HF.
  assert (triple I (verify_and_insert handler sender_id addr key value) (λ o w, holds_record o = false ∧ I w)) as Hi.
  { unfold verify_and_insert. eapply triple_bind; [apply uncached_verify|]. intros b. apply triple_pure.
    rewrite Hv. intros ->. by intros w Hw. }
  unfold rpc_store. eapply triple_bind; [apply rq_store_needs_lookup|]. intros [|]; cbn [negb]; [|done].
  destruct (key_binding_is_valid handler key value); cbn [negb]; [|by intros w Hw].
  eapply triple_bind; [by apply rq_network_copy|]. intros [| |]; [done|by intros w Hw..].
Qed.

End uncached.

(** ** Theorem *)

(** C33: a tampered record is never accepted. The byte the test flips lies in the
    signature, so the record keeps its document and its key; if the signature
    library rejects the altered signature, no node verifies the record, and the
    victim, which has no signature cache, answers its STORE with neither Stored
    nor AlreadyStored, whatever it holds and whatever its peers say. *)
Theorem tampered_records_are_rejected {St C E : Type} `{Sha1, Sha256, Bincode, Ipv6Syntax, HashOrder, JsonLaws, Base64Laws,
      KeyGenerationLaws, !Dilithium2Size, UuidSyntax, Hex, IStorage St, MokaCache C}
    `{Environment E (KademliaProtocol St C), LookupSchedule E}
    (issuer_file : option bytes) (uuid : bytes) (d : Draw) (w : World (KademliaProtocol St C) E)
    (Huuid : uuid_text uuid) (Hkey : digest uuid ≠ digest STATUS_LIST_KEY)
    (Hdetected : alteration_detected uuid d)
    (Hothers : stable (of_records (St := St) (C := C) (E := E) no_cache)) (Hcache : sig_cache (proto w) = None) :
  let key := (make_record uuid d).1 in
  let rec := (make_record uuid d).2 in
  (verify_record (C := C) (did_handler issuer_file) 0 None (digest key) rec).1 = true ∧
  ∃ rec', tamper rec = Done rec' ∧ rec' ≠ rec ∧ did_of rec' = did_of rec ∧
    (verify_record (C := C) (did_handler issuer_file) 0 None (digest key) rec').1 = false ∧
    ∀ sender_id addr, holds_record (rpc_store (did_handler issuer_file) sender_id addr (digest key) rec' w).2 = false.
Proof.
  intros key rec. destruct (tamper_record uuid d) as (Ht & Hne & Hl).
  assert (key = uuid) as -> by (unfold key; rewrite make_record_parts; cbn [fst]; by apply dht_key_did, Huuid).
  split.
  { unfold rec. rewrite make_record_version. apply did_verified; [done|by apply version_bound|by apply version_self_signed]. }
  exists (pad12 ALGORITHM ++ tampered_sig uuid d ++ record_doc uuid d). split; [done|].
  assert (length (record_sig uuid d) = SIGNATURE_LEN) as Hs by apply dilithium2_size.
  assert (∀ s, length s = SIGNATURE_LEN → document_of (pad12 ALGORITHM ++ s ++ record_doc uuid d) =
    json_from_slice (record_doc uuid d)) as Hdoc.
  { intros s Hls. unfold document_of. rewrite app_assoc.
    assert (length (pad12 ALGORITHM ++ s) = 12 + SIGNATURE_LEN) as El by (rewrite length_app, Hls; done).
    rewrite <- El, drop_app_length, (proj2 (Nat.leb_le _ _)); [done|]. rewrite (length_app (_ ++ _)). lia. }
  split_and!.
  - unfold rec. rewrite make_record_parts. cbn [snd]. intros E1%app_inv_head. apply app_inj_1 in E1 as [E1 _]; [done|].
    by rewrite Hl, Hs.
  - unfold rec, did_of. rewrite make_record_parts. cbn [snd]. by rewrite !Hdoc.
  - by apply tampered_unverified.
  - intros sender_id addr. eapply (unverified_refused (did_handler issuer_file) Hothers); [|done].
    by apply tampered_unverified.
Qed.

(** ** The seeds of the victim *)

Section seeds.
Context {St C E : Type} `{Sha1, Sha256, Bincode, Ipv6Syntax, HashOrder, IStorageLaws St, MokaCache C}.
Abbreviation P := (KademliaProtocol St C).
Context `{Environment E P, LookupSchedule E}.

Definition seeded (m : gmap bytes bytes) (records : list (bytes * bytes)) : gmap bytes bytes :=
  foldl (λ m r, <[ident_bytes (digest r.1) := r.2]> m) m records.

Lemma seed_live (records : list (bytes * bytes)) (w : World P E) :
  let r := for_each (λ r, storage_set (digest r.1) r.2) records w in
  Forall (λ st, st ≠ CapacityExceeded) r.2 →
  env r.1 = env w ∧
  live (instant (env w)) (storage (proto r.1)) = seeded (live (instant (env w)) (storage (proto w))) records.
Proof using.
  revert w. induction records as [|[k v] records IH]; intros [p e]; simpl; [done|].
  unfold mbind, M_bind. pose proof (law_set (instant e) (storage p) (ident_bytes (digest k)) v) as Hl.
  destruct (set (instant e) (storage p) (ident_bytes (digest k)) v) as [s' st] eqn:Hset.
  assert (storage_set (digest k) v (mkW p e) = (mkW (with_storage s' p) e, st)) as ->
    by (unfold storage_set, asks, update, mbind, M_bind; simpl; by rewrite Hset).
  specialize (IH (mkW (with_storage s' p) e)). simpl in IH.
  destruct (for_each _ records (mkW (with_storage s' p) e)) as [w2 sts]. simpl in *.
  intros [Hst Hsts]%Forall_cons. destruct (IH Hsts) as [He Hlive]. split; [done|]. rewrite Hlive. unfold seeded.
  simpl. destruct st; [by rewrite <- Hl|by rewrite <- Hl|done|by destruct Hst].
Qed.

Lemma seeded_lookup m records k v :
  NoDup (digest ∘ fst <$> records) → (k, v) ∈ records → seeded m records !! ident_bytes (digest k) = Some v.
Proof using.
  assert (∀ l m i, i ∉ (digest ∘ fst <$> l) →
    seeded m l !! ident_bytes i = m !! ident_bytes i) as Hother.
  { intros l. induction l as [|[k1 v1] l IH]; intros m1 i Hi; [done|]. simpl in Hi.
    apply not_elem_of_cons in Hi as [Hi Hl].
    unfold seeded in *. simpl. rewrite IH by done. rewrite lookup_insert_ne; [done|].
    intros E1%ident_eq. by apply Hi. }
  revert m. induction records as [|[k1 v1] records IH]; intros m Hnd Hin; [by apply not_elem_of_nil in Hin|].
  simpl in Hnd. apply NoDup_cons in Hnd as [Hk Hnd]. apply elem_of_cons in Hin as [[= -> ->]|Hin].
  - change (seeded m ((k1, v1) :: records)) with (seeded (<[ident_bytes (digest k1) := v1]> m) records).
    rewrite Hother by done. apply lookup_insert_eq.
  - by apply (IH (<[ident_bytes (digest k1) := v1]> m)).
Qed.

(** Once seeded, the victim serves every record, unless its store was full. *)
Lemma seeds_are_served (records : list (bytes * bytes)) (w : World P E) k v :
  NoDup (digest ∘ fst <$> records) →
  Forall (λ st, st ≠ CapacityExceeded) (for_each (λ r, storage_set (digest r.1) r.2) records w).2 →
  (k, v) ∈ records →
  Storage.get (instant (env w)) (storage (proto (Victim.seed records w).1)) (ident_bytes (digest k)) = Some v.
Proof using H5.
  intros Hnd Hst Hin. destruct (seed_live records w Hst) as [_ Hl]. unfold Victim.seed, mbind, M_bind.
  destruct (for_each (λ r, storage_set (digest r.1) r.2) records w) as [w2 sts]. simpl in *.
  unfold Storage.get. rewrite law_get, Hl. by rewrite (seeded_lookup _ _ k v).
Qed.

End seeds.

(** ** A run of the test *)

Module ResilienceExample.
Import NodeExample.

#[local] Existing Instances KeyExample.ex_signatures KeyExample.ex_generation KeyExample.ex_generation_laws.
#[local] Existing Instances DidExample.ex_size DidExample.ex_json DidExample.ex_json_write DidExample.ex_json_laws.
#[local] Existing Instances DidExample.ex_b64 DidExample.ex_b64_encode DidExample.ex_b64_laws.
#[local] Existing Instances DidExample.ex_uuid DidExample.ex_hex.

Definition uuid : bytes := DidExample.ex_uuid_text.
Definition draw : Draw := mkDraw [x05] [x05] [].
Definition victim : World ExP Z :=
  mkW (Protocol.new 0 0 (Node_from_id me) (ForgetfulStorage.new DEFAULT_TTL) 2 1 None) 0%Z.

Lemma tampered_records_are_rejected_witness :
  let key := (make_record uuid draw).1 in
  let rec := (make_record uuid draw).2 in
  (verify_record (C := Cache) (did_handler None) 0 None (digest key) rec).1 = true ∧
  ∃ rec', tamper rec = Done rec' ∧ rec' ≠ rec ∧ did_of rec' = did_of rec ∧
    (verify_record (C := Cache) (did_handler None) 0 None (digest key) rec').1 = false ∧
    ∀ sender_id addr, holds_record (rpc_store (did_handler None) sender_id addr (digest key) rec' victim).2 = false.
Proof.
  apply (tampered_records_are_rejected (C := Cache) None uuid draw victim).
  - split_and!; try reflexivity. apply (bool_decide_unpack _). vm_compute. exact I.
  - intros E1. apply (f_equal ident_bytes) in E1. vm_compute in E1. congruence.
  - vm_compute. reflexivity.
  - by split.
  - reflexivity.
Defined.

End ResilienceExample.
