(* ===== verification/DhtNode.v ===== *)
(** * The container entry point (src/scripts/dht_node.rs)

    A node configured from the environment variables of its container: it starts,
    bootstraps with retries, publishes or retrieves a record with retries, and
    runs until it is stopped. *)

From S2P Require Import Prelude Utils Node Routing Storage StorageProps Fragmentation Messages Retransmit.
From S2P Require Import Crypto AuthHandler AuthProps Crawling CrawlProps Effects Protocol Transport Client.
From S2P Require Import Handlers NodeExample ProtocolProps HandlersProps Publish Network ApiProps NodeProps KeyManager DidRecord Text.

(** ** Sleeping and trying again *)

(** [tokio::time::sleep]: a wait of some nanoseconds, during which the other
    tasks run. *)
Class Timer (E P : Type) := sleep : Z → M P E unit.

(** The loop [for attempt in 1..=attempts] that returns at the first attempt that
    succeeds, and sleeps after each one that does not. *)
Fixpoint retry {P E A} `{Timer E P} (attempts : nat) (delay : Z) (attempt : F P E (option A)) : F P E (option A) :=
  match attempts with
  | O => mret None
  | S more =>
      r ← attempt;
      match r with
      | Some a => mret (Some a)
      | None => lift (sleep delay) ;; retry more delay attempt
      end
  end.

(** ** Records *)

(** The functions of the example (DidRecord), in this program. *)
Module NodeRecord.

Section records.
Context `{JsonWrite, Base64Encode, SignatureLibraries, KeyGeneration}.

Definition base64url_encode (pk : bytes) : bytes := DidRecord.base64url_encode pk.
Definition sort_json_keys (v : JValue) : JValue := DidRecord.sort_json_keys v.
Definition encode_did_document (doc : JValue) : bytes := json_to_vec (sort_json_keys doc).
Definition build_did_document (did dilithium_pk kyber_pk : bytes) : JValue :=
  DidRecord.build_did_document did dilithium_pk kyber_pk.

Definition build_signed_record (rng : bytes) (doc : JValue) (secret_key algorithm : bytes) : bytes :=
  let doc_bytes := encode_did_document doc in
  let copy_len := length algorithm `min` 12 in
  let alg_field := take copy_len algorithm ++ drop copy_len (replicate 12 x00) in
  let sig := dilithium_sign 2 rng doc_bytes secret_key in
  alg_field ++ sig ++ doc_bytes.

End records.
End NodeRecord.

(** serde_json: [to_string_pretty]. *)
Class JsonPretty `{Json} := json_pretty : Value → option bytes.

(** [decode_record]; the algorithm is only logged. *)
Definition decode_record `{JsonPretty} (record : bytes) : option bytes :=
  if length record <? 12 + SIGNATURE_LEN then None
  else
    doc ← json_from_slice (drop (12 + SIGNATURE_LEN) record);
    json_pretty doc.

(** ** The program *)

(** How the bootstrap went; what the role of the node did. *)
Inductive Joined := AsSeed | Isolated | Bootstrapped (ok : bool).

Inductive RoleResult :=
  | Published (key : bytes) (retrieved : option (bytes * option bytes))
  | NotPublished (key : bytes)
  | NoKey
  | Retrieved (key record : bytes) (pretty : option bytes)
  | NotFound (key : bytes).

Inductive RunError := BadPort | BadBudget | BadAddr | BadAddrPort.

Section program.
Context {C E : Type} `{Sha1, Sha256, Bincode, Ipv6Syntax, HashOrder, MokaCache C}.
Context `{JsonWrite, !JsonPretty, Base64, Base64Encode, SignatureLibraries, KeyGeneration, UuidSyntax}.
Abbreviation P := (KademliaProtocol ForgetfulStorage.t C).
Context `{Environment E P, LookupSchedule E, Timer E P}.
Context (handler : SignatureVerifierHandler) (fuel : nat).

(** [start_server]: a server with a store of its own and a new signature cache.
    [bound] tells whether the port could be bound; if not, the program panics. *)
Definition start_server (max_storage_bytes : Z) (random : bytes) (cache : C) (bound : bool) (workers : nat)
    : M P E (Run Server) :=
  let server := server_new 20 3 None random in
  pause ;;
  if negb bound then mret Panic
  else
    now ← asks instant; unix ← asks unix_time;
    modify (λ _, listen_protocol server now unix
                   (ForgetfulStorage.with_max_storage_bytes DEFAULT_TTL max_storage_bytes) (Some cache) workers) ;;
    mret (Done (with_listening server true)).

(** [bootstrap_with_retries]. *)
Definition bootstrap_with_retries (srv : Server) (ip : string) (port : Z) : F P E bool :=
  r ← retry 8 (from_secs 3)
        (discovered ← bootstrap fuel srv [(ip, port)];
         mret (if bool_decide (discovered = []) then None else Some tt));
  mret (bool_decide (is_Some r)).

(** The record [run_publisher] builds for a DID. *)
Definition publisher_record (uuid : bytes) (d : Draw) : bytes :=
  let '(dpk, dsk) := dilithium_keypair 2 (draw_signing d) in
  let '(kpk, _) := kyber_keypair 512 (draw_agreement d) in
  NodeRecord.build_signed_record (draw_signature d)
    (NodeRecord.build_did_document (str_bytes "did:iiot:" ++ uuid) dpk kpk) dsk (str_bytes "Dilithium-2").

(** [run_publisher]; [drawn] is the text of [Uuid::new_v4]. *)
Definition run_publisher (vars : Vars) (drawn : bytes) (d : Draw) (srv : Server) : F P E RoleResult :=
  let uuid := default drawn (vars "FIXED_DID_UUID") in
  let record := publisher_record uuid d in
  r ← retry 10 (from_secs 5)
        (done ← server_set handler fuel srv uuid record;
         match done with
         | Some true =>
             got ← server_get handler fuel srv uuid;
             mret (Some ((λ retrieved, (retrieved, decode_record retrieved)) <$> got))
         | Some false | None => mret None
         end);
  mret (match r with Some retrieved => Published uuid retrieved | None => NotPublished uuid end).

(** [run_retriever]. *)
Definition run_retriever (vars : Vars) (srv : Server) : F P E RoleResult :=
  match vars "RETRIEVE_KEY" with
  | None => mret NoKey
  | Some key =>
      lift (sleep (from_secs 5)) ;;
      r ← retry 10 (from_secs 3) (server_get handler fuel srv key);
      mret (match r with Some record => Retrieved key record (decode_record record) | None => NotFound key end)
  end.

(** The bootstrap of [run]. *)
Definition join_network (vars : Vars) (srv : Server) : F P E (Result RunError Joined) :=
  if bool_decide (is_Some (vars "IS_SEED")) then lift (sleep (from_millis 500)) ;; mret (Ok AsSeed)
  else
    match vars "BOOTSTRAP_ADDR" with
    | None => mret (Ok Isolated)
    | Some addr =>
        match splitn2 x3a addr with
        | [bip; port] =>
            match parse_unsigned U16_MAX port with
            | None => mret (Err BadAddrPort)
            | Some bport =>
                lift (sleep (from_secs 2)) ;;
                ok ← bootstrap_with_retries srv (text_of bip) bport;
                mret (Ok (Bootstrapped ok))
            end
        | _ => mret (Err BadAddr)
        end
    end.

Definition run_role (vars : Vars) (drawn : bytes) (d : Draw) (srv : Server) : F P E RoleResult :=
  if bool_decide (vars "ROLE" = Some (str_bytes "retriever")) then run_retriever vars srv
  else run_publisher vars drawn d srv.

(** [run], with the logs left aside. A server that is dropped stops its tasks. *)
Definition run (vars : Vars) (random drawn : bytes) (d : Draw) (cache : C) (bound : bool) (workers : nat)
    : F P E (Run (Result RunError (Joined * RoleResult))) :=
  match parse_unsigned U16_MAX (default (str_bytes "5678") (vars "NODE_PORT")) with
  | None => mret (Done (Err BadPort))
  | Some port =>
      match parse_unsigned (USIZE - 1) (default (decimal DEFAULT_MAX_STORAGE_BYTES) (vars "MAX_STORAGE_BYTES")) with
      | None => mret (Done (Err BadBudget))
      | Some max_storage_bytes =>
          started ← lift (start_server max_storage_bytes random cache bound workers);
          match started with
          | Panic => mret Panic
          | Done server =>
              joined ← join_network vars server;
              match joined with
              | Err e => lift (server_drop server) ;; mret (Done (Err e))
              | Ok how =>
                  result ← run_role vars drawn d server;
                  lift pause ;;
                  lift (stop server) ;;
                  mret (Done (Ok (how, result)))
              end
          end
      end
  end.

End program.

(** ** The example of two nodes (src/examples/publish_did.rs) *)

Module PublishDid.

Section example.
Context {C E : Type} `{Sha1, Sha256, Bincode, Ipv6Syntax, HashOrder, MokaCache C}.
Context `{JsonWrite, !JsonPretty, Base64, Base64Encode, SignatureLibraries, KeyGeneration}.
Abbreviation P := (KademliaProtocol ForgetfulStorage.t C).
Context `{Environment E P, LookupSchedule E, Timer E P}.
Context (handler : SignatureVerifierHandler) (fuel : nat).

(** [start_node]. *)
Definition start_node (random : bytes) (cache : C) (bound : bool) (workers : nat) : M P E (Run Server) :=
  let server := server_new 20 3 None random in
  pause ;;
  if negb bound then mret Panic
  else
    now ← asks instant; unix ← asks unix_time;
    modify (λ _, listen_protocol server now unix (ForgetfulStorage.new DEFAULT_TTL) (Some cache) workers) ;;
    mret (Done (with_listening server true)).

Definition node_1_addr : list (string * Z) := [("127.0.0.1"%string, 5678%Z)].

(** What [run] does on node 2: it joins node 1, and publishes a new record. *)
Definition publish_record (node_2 : Server) (uuid : bytes) (d : Draw) : F P E (bytes * bool) :=
  discovered ← bootstrap fuel node_2 node_1_addr;
  (if bool_decide (discovered = []) then bootstrap fuel node_2 node_1_addr ;; mret tt else mret tt) ;;
  lift (sleep (from_secs 2)) ;;
  bootstrap fuel node_2 node_1_addr ;;
  lift (sleep (from_secs 1)) ;;
  let '(dilithium_pk, dilithium_sk) := dilithium_keypair 2 (draw_signing d) in
  let '(kyber_pk, _) := kyber_keypair 512 (draw_agreement d) in
  let did := generate_did_iiot uuid in
  let key := dht_key did in
  let signed_record := build_signed_record (draw_signature d) (build_did_document did dilithium_pk kyber_pk)
                         dilithium_sk ALGORITHM in
  r ← retry 10 (from_millis 500)
        (success ← server_set handler fuel node_2 key signed_record;
         mret (if bool_decide (success = Some true) then Some tt else None));
  mret (key, bool_decide (is_Some r)).

(** What it prints of a record: the id of its document and the whole of it. The
    slices of a record that is too short are a panic, and so is a document that
    cannot be printed. *)
Definition analyse (record : bytes) : Run (option (Value * bytes)) :=
  if length record <? 12 + SIGNATURE_LEN then Panic
  else
    match json_from_slice (drop (12 + SIGNATURE_LEN) record) with
    | None => Done None
    | Some doc =>
        match json_pretty doc with
        | Some text => Done (Some (json_field doc (str_bytes "id"), text))
        | None => Panic
        end
    end.

(** What it does on node 1, once the record is published. *)
Definition retrieve_record (node_1 : Server) (key : bytes) : F P E (Run (option (option (Value * bytes)))) :=
  found ← server_get handler fuel node_1 key;
  mret (match found with
        | Some record => a ← analyse record; mret (Some a)
        | None => Done None
        end).

End example.
End PublishDid.

(** ** Retries *)

Section retries.
Context {P E : Type} `{Timer E P} {A : Type} (delay : Z) (attempt : F P E (option A)).

(** [n] attempts that fail, one after the other. *)
Inductive failures : nat → World P E → World P E → Prop :=
  | failures_none w : failures 0 w w
  | failures_more n w w1 w2 :
      attempt w = Some (w1, None) → failures n (sleep delay w1).1 w2 → failures (S n) w w2.

(** A loop that returns made an attempt that succeeded after fewer failures than
    it may make, or failed as often as it may. *)
Lemma retry_result n w w' r :
  retry n delay attempt w = Some (w', r) →
  match r with
  | Some a => ∃ k w1, k < n ∧ failures k w w1 ∧ attempt w1 = Some (w', Some a)
  | None => failures n w w'
  end.
Proof using.
  revert w. induction n as [|n IH]; intros w; simpl; [intros [= <- <-]; constructor|].
  unfold mbind, F_bind. destruct (attempt w) as [[w1 [a|]]|] eqn:Ha; [..|done].
  - intros [= <- <-]. exists 0, w. split; [lia|]. split; [constructor|done].
  - simpl. destruct (sleep delay w1) as [w2 u] eqn:Hs. intros Hr. apply IH in Hr. destruct r as [a|].
    + destruct Hr as (k & w3 & Hk & Hf & Hx). exists (S k), w3. split; [lia|]. split; [|done].
      econstructor; [done|]. by rewrite Hs.
    + econstructor; [done|]. by rewrite Hs.
Qed.

Lemma total_retry n : total attempt → total (retry n delay attempt).
Proof using.
  intros Ht. induction n as [|n IH]; simpl; [apply total_ret|]. apply total_bind; [done|].
  intros [a|]; [apply total_ret|]. apply total_bind; [apply total_lift|done].
Qed.

(** What an attempt that succeeds establishes, from what failures keep. *)
Lemma ftriple_retry (I : World P E → Prop) (Q : A → Prop) n :
  keeps I (sleep delay) →
  ftriple I attempt (λ r w, (∀ a, r = Some a → Q a) ∧ I w) →
  ftriple I (retry n delay attempt) (λ r w, (∀ a, r = Some a → Q a) ∧ I w).
Proof using.
  intros Hs Ha. induction n as [|n IH]; simpl; [intros w w' r Hw [= <- <-]; by split|].
  eapply ftriple_bind; [exact Ha|]. intros [a|].
  - intros w w' r [HQ Hw] [= <- <-]. by split.
  - intros w w' r [_ Hw]. revert w w' r Hw. change (ftriple I (lift (sleep delay) ;; retry n delay attempt)
      (λ r w, (∀ a, r = Some a → Q a) ∧ I w)).
    eapply ftriple_bind; [by apply ftriple_lift, Hs|]. intros []. exact IH.
Qed.

End retries.

(** Walk through a program. *)
Ltac total_all :=
  repeat first [case_match | apply total_ret | apply total_lift | apply total_retry
    | by eapply total_set | by eapply total_get | by eapply total_update | by eapply total_bootstrap
    | apply total_bind; [|intros ?]].

(** ** The program *)

Section published.
Context `{Sha1, JsonLaws, !JsonPretty, Base64Laws, KeyGenerationLaws, !Dilithium2Size, UuidSyntax}.

(** The document a publisher or a retriever shows is the one that was signed. *)
Lemma decode_published uuid d :
  utf8_valid uuid = true →
  decode_record (publisher_record uuid d) =
  json_pretty (json_value (sort_json_keys (build_did_document (generate_did_iiot uuid)
    (dilithium_keypair 2 (draw_signing d)).1 (kyber_keypair 512 (draw_agreement d)).1))).
Proof.
  intros Hu. assert (utf8_valid (generate_did_iiot uuid) = true) as Hd by by apply utf8_valid_app.
  pose proof (dilithium2_size (draw_signing d) (draw_signature d)) as Hs.
  unfold decode_record, publisher_record. destruct (dilithium_keypair 2 (draw_signing d)) as [dpk dsk].
  destruct (kyber_keypair 512 (draw_agreement d)) as [kpk ksk]. cbn [fst snd] in *.
  change (str_bytes "did:iiot:" ++ uuid) with (generate_did_iiot uuid).
  change (NodeRecord.build_did_document ?a ?b ?c) with (build_did_document a b c).
  set (doc := build_did_document _ _ _). change (str_bytes "Dilithium-2") with ALGORITHM.
  change (NodeRecord.build_signed_record ?a ?b ?c ?e) with (build_signed_record a b c e).
  rewrite <- signed_record_example. unfold signed_record, sorted. rewrite app_assoc.
  set (head := ALGORITHM ++ _). assert (length head = 12) as Hh by reflexivity.
  set (body := json_to_vec (sort_json_keys doc)). set (sig := dilithium_sign _ _ _ _).
  assert (length sig = SIGNATURE_LEN) as Hsig by apply Hs.
  rewrite (proj2 (Nat.ltb_ge _ _)) by (rewrite !length_app; lia).
  rewrite app_assoc, drop_app_length' by (rewrite length_app; lia).
  unfold body. rewrite json_parse_printed; [done|]. by apply json_ok_sorted, build_did_document_ok.
Qed.

(** The example shows the DID of the record it published, and does not panic. *)
Lemma analyse_published uuid d text :
  uuid_text uuid →
  decode_record (publisher_record uuid d) = Some text →
  ∃ v, PublishDid.analyse (publisher_record uuid d) = Done (Some (v, text)) ∧
    json_as_str v = Some (generate_did_iiot uuid).
Proof.
  intros (_ & Hu & _) Hd. assert (utf8_valid (generate_did_iiot uuid) = true) as Hdid by by apply utf8_valid_app.
  unfold decode_record, PublishDid.analyse in *. destruct (length _ <? _); [done|].
  destruct (version_parts (generate_did_iiot uuid) d Hdid) as (sig & doc & [_ _ Hr] & Hs & (v & Hv & Hid) & _).
  assert (publisher_record uuid d = record (generate_version (generate_did_iiot uuid) d)) as Hp.
  { unfold publisher_record, generate_version. destruct (dilithium_keypair 2 _), (kyber_keypair 512 _). done. }
  rewrite Hp, Hr in *. rewrite <- Hs, app_assoc in *.
  assert (length (pad12 ALGORITHM ++ sig) = 12 + length sig) as El by by rewrite length_app.
  rewrite <- El, drop_app_length, Hv in *. simpl in Hd. rewrite Hd. eauto.
Qed.

End published.

Section runs.
Context {C E : Type} `{Sha1, Sha256, Bincode, Ipv6Syntax, HashOrder, MokaCacheLaws C}.
Context `{JsonLaws, !JsonPretty, Base64Laws, KeyGenerationLaws, !Dilithium2Size, UuidSyntax}.
Abbreviation P := (KademliaProtocol ForgetfulStorage.t C).
Context `{Environment E P, LookupSchedule E, Timer E P}.
Context (handler : SignatureVerifierHandler) `{!SignatureVerifierLaws handler} (fuel : nat).

(** A configuration [run] accepts. *)
Definition join_ok (vars : Vars) : bool :=
  bool_decide (is_Some (vars "IS_SEED")) ||
  match vars "BOOTSTRAP_ADDR" with
  | None => true
  | Some addr => match split_once x3a addr with
                 | Some (_, port) => bool_decide (is_Some (parse_unsigned U16_MAX port))
                 | None => false
                 end
  end.

Definition config_ok (vars : Vars) : bool :=
  bool_decide (is_Some (parse_unsigned U16_MAX (default (str_bytes "5678") (vars "NODE_PORT")))) &&
  bool_decide (is_Some (parse_unsigned (USIZE - 1)
    (default (decimal DEFAULT_MAX_STORAGE_BYTES) (vars "MAX_STORAGE_BYTES")))) &&
  join_ok vars.

(** What the node shows: what it looked up under its key, and was vouched for. *)
Definition shown_ok (vars : Vars) (drawn : bytes) (r : RoleResult) : Prop :=
  match r with
  | Published key retrieved =>
      key = default drawn (vars "FIXED_DID_UUID") ∧
      ∀ x pretty, retrieved = Some (x, pretty) → vouched handler (digest key) x ∧ pretty = decode_record x
  | NotPublished key => key = default drawn (vars "FIXED_DID_UUID")
  | NoKey => vars "RETRIEVE_KEY" = None
  | Retrieved key x pretty =>
      vars "RETRIEVE_KEY" = Some key ∧ vouched handler (digest key) x ∧ pretty = decode_record x
  | NotFound key => vars "RETRIEVE_KEY" = Some key
  end.

Abbreviation I := (of_records (authentic_records (C := C) (E := E) handler)).
Context (HI : stable I) (Hsleep : ∀ d, keeps I (sleep d)).

Lemma node_get srv key : ftriple I (server_get handler fuel srv key) (found_ok I (vouched handler) key).
Proof using All. eapply fk_get; [by apply framed_records|by apply authentic_guarded]. Qed.

Lemma run_role_shows vars drawn d srv :
  ftriple I (run_role handler fuel vars drawn d srv) (λ r w, shown_ok vars drawn r ∧ I w).
Proof using All.
  unfold run_role. case_bool_decide.
  - unfold run_retriever. destruct (vars "RETRIEVE_KEY") as [key|] eqn:Hk.
    + eapply ftriple_bind; [by apply ftriple_lift, Hsleep|]. intros [].
      eapply ftriple_bind; [apply (ftriple_retry _ _ I (vouched handler (digest key))); [done|apply node_get]|].
      intros r w w' x [Hr Hw] [= <- <-]. split; [|done]. destruct r; simpl; eauto.
    + intros w w' r Hw [= <- <-]. by split.
  - unfold run_publisher. set (uuid := default drawn _).
    eapply ftriple_bind.
    + apply (ftriple_retry _ _ I (λ got : option (bytes * option bytes), ∀ x pretty,
        got = Some (x, pretty) → vouched handler (digest uuid) x ∧ pretty = decode_record x)); [done|].
      eapply ftriple_bind.
      { unfold server_set. eapply ftriple_bind; [eapply fk_set; [by apply framed_records|by apply authentic_guarded]|].
        intros o. apply fkeeps_ret. }
      intros [[]|]; try (intros w w' r Hw [= <- <-]; by split).
      eapply ftriple_bind; [apply node_get|]. intros got w w' r [Hg Hw] [= <- <-]. split; [|done].
      intros a [= <-] x pretty Hx. destruct got as [y|]; [|done]. injection Hx as -> <-. by split; [apply Hg|].
    + intros r w w' x [Hr Hw] [= <- <-]. split; [|done]. destruct r; simpl; eauto.
Qed.

Lemma join_keeps vars srv :
  ftriple I (join_network fuel vars srv) (λ r w, (join_ok vars = true ↔ ∃ how, r = Ok how) ∧ I w).
Proof using All.
  assert (∀ (r : Result RunError Joined), (join_ok vars = true ↔ ∃ how, r = Ok how) →
    ftriple I (mret r) (λ r w, (join_ok vars = true ↔ ∃ how, r = Ok how) ∧ I w)) as Hret
    by (intros r Hr w w' x Hw [= <- <-]; by split).
  unfold join_network. case_bool_decide as Hseed.
  - eapply ftriple_bind; [by apply ftriple_lift, Hsleep|]. intros []. apply Hret. unfold join_ok.
    rewrite bool_decide_eq_true_2 by done. simpl. naive_solver.
  - assert (join_ok vars = match vars "BOOTSTRAP_ADDR" with
      | None => true
      | Some addr => match split_once x3a addr with
                     | Some (_, port) => bool_decide (is_Some (parse_unsigned U16_MAX port)) | None => false end
      end) as Hj by (unfold join_ok; by rewrite bool_decide_eq_false_2).
    destruct (vars "BOOTSTRAP_ADDR") as [addr|]; [|apply Hret; rewrite Hj; naive_solver].
    unfold splitn2. destruct (split_once x3a addr) as [[bip port]|]; [|apply Hret; rewrite Hj; naive_solver].
    destruct (parse_unsigned U16_MAX port) as [bport|]; [|apply Hret; rewrite Hj; naive_solver].
    eapply ftriple_bind; [by apply ftriple_lift, Hsleep|]. intros []. unfold bootstrap_with_retries.
    apply (ftriple_bind _ _ (λ _, I)).
    { eapply ftriple_bind; [apply (ftriple_retry _ _ I (λ _, True)); [done|]|intros r].
      - eapply ftriple_bind; [by apply fk_bootstrap, framed_records|]. intros l w w' r Hw [= <- <-]. by split.
      - intros w w' b [_ Hw] [= <- <-]. exact Hw. }
    intros ok. apply Hret. rewrite Hj, bool_decide_eq_true_2 by eauto. naive_solver.
Qed.

(** The store and the cache of a new server are empty. *)
Lemma start_authentic max random cache workers w :
  (∀ now k, cache_get now cache k = None) →
  (start_server max random cache true workers w).2 = Done (with_listening (server_new 20 3 None random) true) ∧
  I (start_server max random cache true workers w).1.
Proof using.
  intros Hc. unfold start_server, mbind, M_bind. destruct (pause w) as [w1 u]. cbn. split; [done|].
  unfold of_records. cbn. unfold listen_protocol.
  match goal with |- context [foldl _ ?q ?ts] => destruct (spawn_all_same ts q) as (_ & -> & -> & _) end.
  split; simpl.
  - intros key value. rewrite lookup_fs_live. simpl. by rewrite lookup_empty.
  - intros c k b [= <-]. by rewrite Hc.
Qed.

Lemma total_join (U : gset ident) vars srv :
  (∀ i, i ∈ U) → 2 * size U + 1 < fuel → total (join_network (C := C) (E := E) fuel vars srv).
Proof using.
  intros HU Hf. unfold join_network, bootstrap_with_retries.
  total_all.
Qed.

Lemma total_role (U : gset ident) vars drawn d srv :
  (∀ i, i ∈ U) → 2 * size U + 1 < fuel → total (run_role (C := C) (E := E) handler fuel vars drawn d srv).
Proof using.
  intros HU Hf. unfold run_role, run_retriever, run_publisher, server_set.
  total_all.
Qed.

End runs.

(** ** Theorem *)

(** A container does its work, whatever the network does. Once its port is bound,
    with the other tasks of the node keeping its records authentic: every loop of
    attempts ends, the configurations it refuses are those that [config_ok]
    refuses, and a node that ran holds only records that are vouched for. What a
    publisher or a retriever shows is a record vouched for under the key it was
    asked for, cut where the signature of a Dilithium-2 record ends; for a record
    that a publisher built that is the document that was signed. *)
Lemma dht_node_runs {C E : Type} `{Sha1, Sha256, Bincode, Ipv6Syntax, HashOrder, MokaCacheLaws C,
      JsonLaws, !JsonPretty, Base64Laws, KeyGenerationLaws, !Dilithium2Size, UuidSyntax}
    `{Environment E (KademliaProtocol ForgetfulStorage.t C), LookupSchedule E,
      Timer E (KademliaProtocol ForgetfulStorage.t C)}
    (handler : SignatureVerifierHandler) `{!SignatureVerifierLaws handler}
    (vars : Vars) (random drawn : bytes) (d : Draw) (cache : C) (workers : nat)
    (w : World (KademliaProtocol ForgetfulStorage.t C) E)
    (Hothers : stable (of_records (authentic_records (C := C) (E := E) handler)))
    (Hsleep : ∀ t, keeps (of_records (authentic_records (C := C) (E := E) handler)) (sleep t))
    (Hcache : ∀ now k, cache_get now cache k = None) :
  (∃ rounds, ∀ fuel, rounds ≤ fuel → ∃ w' res,
    run handler fuel vars random drawn d cache true workers w = Some (w', Done res) ∧
    (config_ok vars = true ↔ ∃ r, res = Ok r) ∧
    ∀ how r, res = Ok (how, r) →
      of_records (authentic_records handler) w' ∧ shown_ok handler vars drawn r) ∧
  ∀ uuid, utf8_valid uuid = true →
    decode_record (publisher_record uuid d) =
    json_pretty (json_value (sort_json_keys (build_did_document (generate_did_iiot uuid)
      (dilithium_keypair 2 (draw_signing d)).1 (kyber_keypair 512 (draw_agreement d)).1))).
Proof.
  split; [|intros uuid; by apply decode_published].
  destruct finitely_many_ids as [U HU]. exists (2 * size U + 2). intros fuel Hf. unfold run, config_ok.
  destruct (parse_unsigned U16_MAX _) as [port|]; [|eexists _, _; split; [done|]; naive_solver].
  destruct (parse_unsigned (USIZE - 1) _) as [max|]; [|eexists _, _; split; [done|]; naive_solver].
  destruct (start_authentic (E := E) handler max random cache workers w Hcache) as [Hs Hw].
  unfold mbind, F_bind, lift. destruct (start_server max random cache true workers w) as [w1 started].
  simpl in Hs, Hw. subst started. set (srv := with_listening _ true).
  destruct (total_join (C := C) (E := E) fuel U vars srv HU ltac:(lia) w1) as [[w2 joined] Hj]. rewrite Hj.
  destruct (join_keeps handler fuel Hothers Hsleep vars srv w1 w2 joined Hw Hj) as [Hok Hw2].
  rewrite !bool_decide_eq_true_2 by eauto. simpl. destruct joined as [how|e].
  - destruct (total_role (C := C) (E := E) handler fuel U vars drawn d srv HU ltac:(lia) w2) as [[w3 r] Hr].
    rewrite Hr. destruct (run_role_shows handler fuel Hothers Hsleep vars drawn d srv w2 w3 r Hw2 Hr) as [Hshown Hw3].
    pose proof (keeps_pause _ Hothers w3 Hw3) as Hw4. destruct (pause w3) as [w4 u]. simpl in Hw4.
    assert (keeps (of_records (authentic_records (C := C) (E := E) handler)) (stop srv)) as Hstop
      by (eapply kp_stop; by apply framed_records).
    specialize (Hstop w4 Hw4). destruct (stop srv w4) as [w5 srv'].
    eexists _, _. split; [done|]. split; [naive_solver|]. intros how' r' [= <- <-]. by split.
  - destruct (server_drop srv w2) as [w3 u]. eexists _, _. split; [done|]. split; [|done]. rewrite Hok. naive_solver.
Qed.

(** ** A container *)

Module DhtNodeExample.
Import NodeExample HandlersWitness.

#[local] Existing Instances KeyExample.ex_signatures KeyExample.ex_generation KeyExample.ex_generation_laws.
#[local] Existing Instances DidExample.ex_size DidExample.ex_json DidExample.ex_json_write DidExample.ex_json_laws.
#[local] Existing Instances DidExample.ex_b64 DidExample.ex_b64_encode DidExample.ex_b64_laws.
#[local] Existing Instances DidExample.ex_uuid DidExample.ex_hex.

(** Sleeping moves the clock. *)
Instance ex_timer : Timer Z ExP := λ d w, (mkW (proto w) (env w + Z.max 0 d)%Z, tt).
Instance ex_pretty : JsonPretty := λ v, Some (str_bytes "document").

Definition draw : Draw := mkDraw [x05] [x05] [].

(** A publisher, and retrievers, one of which has a port that is none. *)
Definition publisher_vars (name : string) : option bytes :=
  if bool_decide (name = "BOOTSTRAP_ADDR") then Some (str_bytes "10.0.0.2:4000")
  else if bool_decide (name = "FIXED_DID_UUID") then Some DidExample.ex_uuid_text else None.

Definition retriever_vars (addr : option bytes) (name : string) : option bytes :=
  if bool_decide (name = "ROLE") then Some (str_bytes "retriever")
  else if bool_decide (name = "RETRIEVE_KEY") then Some DidExample.ex_uuid_text
  else if bool_decide (name = "BOOTSTRAP_ADDR") then addr else None.

Definition ex_run (vars : Vars) :=
  snd <$> run (C := Cache) (did_handler None) 8 vars [x01; x02; x03] [] draw ∅ true 2 (mkW start 0%Z).

Example retriever_alone : ex_run (retriever_vars None) = Some (Done (Ok (Isolated, NotFound DidExample.ex_uuid_text))).
Proof. vm_compute. reflexivity. Qed.

Example retriever_misconfigured :
  ex_run (retriever_vars (Some (str_bytes "10.0.0.2:65536"))) = Some (Done (Err BadAddrPort)) ∧
  ex_run (retriever_vars (Some (str_bytes "10.0.0.2"))) = Some (Done (Err BadAddr)).
Proof. split; vm_compute; reflexivity. Qed.

Lemma ex_later s c (e e' : Z) :
  (e ≤ e')%Z → authentic_records (C := Cache) (did_handler None) s c e →
  authentic_records (did_handler None) s c e'.
Proof.
  intros Hle [Hr Hc]. split; simpl in *.
  - intros key value Hl. apply Hr. exact (lookup_weaken _ _ _ _ Hl (law_expiry e e' s Hle)).
  - intros cache k b Ec Hk. by apply (Hc cache k b Ec).
Qed.

Example publisher_runs :
  (∃ rounds, ∀ fuel, rounds ≤ fuel → ∃ w' res,
    run (C := Cache) (did_handler None) fuel publisher_vars [x01; x02; x03] [] draw ∅ true 2 (mkW start 0%Z) =
      Some (w', Done res) ∧
    (config_ok publisher_vars = true ↔ ∃ r, res = Ok r) ∧
    ∀ how r, res = Ok (how, r) →
      of_records (authentic_records (did_handler None)) w' ∧ shown_ok (did_handler None) publisher_vars [] r) ∧
  config_ok publisher_vars = true.
Proof.
  split; [|vm_compute; reflexivity].
  apply (dht_node_runs (did_handler None) publisher_vars [x01; x02; x03] [] draw ∅ 2 (mkW start 0%Z)).
  - apply ex_stable. exact ex_later.
  - intros t w Hw. unfold of_records in *. simpl. eapply ex_later; [|exact Hw]. lia.
  - intros now k. apply lookup_empty.
Qed.

End DhtNodeExample.
