(* ===== verification/Control.v ===== *)
(** * The control socket of a testbed node (src/testbed/node.rs)

    A line of the socket, from [ctl] to the command it is, and the commands that
    do not change the identity of the node (Testbed has the others): reading a
    DID until it is found, and the reports on the state of the node. *)

From S2P Require Import Prelude Utils Node Routing Storage Fragmentation Messages Retransmit.
From S2P Require Import Crypto AuthHandler AuthProps Crawling CrawlProps Effects Protocol Transport Client.
From S2P Require Import Handlers NodeExample ProtocolProps HandlersProps Publish Network ApiProps KeyManager DidRecord.
From S2P Require Import Text Testbed DhtNode Counters.

(** ** Lines *)

Inductive Request :=
  | QInfo | QNew | QPublish | QUpdate | QDiscard | QForget
  | QGet (target : bytes)
  | QWatch (target : bytes) (ms : Z)
  | QStats | QCounters | QStorage | QRouting
  | QUsageGet | QUsageWatch
  | QUnknown (word : bytes).

(** The names of the commands without arguments. *)
Definition plain_commands : list (string * Request) :=
  [("info", QInfo); ("new", QNew); ("publish", QPublish); ("update", QUpdate); ("discard", QDiscard);
   ("forget", QForget); ("stats", QStats); ("counters", QCounters); ("storage", QStorage); ("routing", QRouting)].

(** The command of a line, as [handle] reads it. *)
Definition parse_request (line : bytes) : Request :=
  match split_whitespace line with
  | [] => QUnknown []
  | name :: words =>
      if bool_decide (name = str_bytes "get") then
        match words with target :: _ => QGet target | [] => QUsageGet end
      else if bool_decide (name = str_bytes "watch") then
        match words with
        | target :: ms :: _ =>
            match parse_unsigned U64_MAX ms with Some ms => QWatch target ms | None => QUsageWatch end
        | _ => QUsageWatch
        end
      else
        match filter (λ c, str_bytes c.1 = name) plain_commands with
        | (_, q) :: _ => q
        | [] => QUnknown name
        end
  end.

(** What [ctl] sends for its arguments, and the line [answer] gives to [handle]. *)
Definition ctl_line (args : list bytes) : bytes := join (str_bytes " ") args ++ [x0a].
Definition read_request (sent : bytes) : Request := parse_request (trim sent).

(** ** Commands *)

Definition WATCH_PAUSE : Z := from_millis 5.

Record Watched := mkWatched { wt_attempts : nat; wt_found : option (bool * bytes) }.

(** The replies, without the names and the times. *)
Inductive Answer `{Json} :=
  | AReply (r : Reply)
  | AWatch (r : Watched)
  | AStats (s : ServerStats)
  | ACounters (c : option CounterSnapshot)
  | AStorage (records : list (bytes * Description))
  | ARouting (closest : list (string * Z))
  | AUsage
  | AUnknown (word : bytes).

(** What a command may draw. *)
Record Drawn := mkDrawn { dr_uuid : bytes; dr_version : Draw; dr_rng : bytes }.

Section control.
Context {C E : Type} `{Sha1, Sha256, Bincode, Ipv6Syntax, HashOrder}.
Context `{JsonWrite, Base64, Base64Encode, SignatureLibraries, KeyGeneration, Hex}.
Context `{MokaCache C} (handler : SignatureVerifierHandler).
Abbreviation P := (KademliaProtocol ForgetfulStorage.t C).
Context `{Environment E P, LookupSchedule E, Timer E P}.
Context (fuel : nat) (srv : Server).

(** The loop of [watch], for at most [turns] turns. *)
Fixpoint watch_loop (turns : nat) (uuid : bytes) (deadline : Z) (attempts : nat) : F P E Watched :=
  match turns with
  | O => λ _, None
  | S turns' =>
      copy ← lift (storage_get (digest uuid));
      found ← server_get handler fuel srv uuid;
      match found with
      | Some record => mret (mkWatched (S attempts) (Some (bool_decide (is_Some copy), record)))
      | None =>
          now ← lift (asks instant);
          if (deadline <=? now)%Z then mret (mkWatched (S attempts) None)
          else lift (sleep WATCH_PAUSE) ;; watch_loop turns' uuid deadline (S attempts)
      end
  end.

(** [watch]. *)
Definition watch (turns : nat) (target : bytes) (ms : Z) : F P E Watched :=
  let uuid := default target (strip_prefix (str_bytes "did:iiot:") target) in
  lift pause ;;
  now ← lift (asks instant);
  watch_loop turns uuid (now + from_millis ms) 0.

(** [storage] and [routing]. *)
Definition storage_report : M P E (list (bytes * Description)) :=
  pause ;;
  now ← asks instant;
  gets (λ p, (λ e, (hex_encode (take (length e.1 `min` 6) e.1), describe e.2)) <$> iter_all now (storage p)).

Definition routing_report : M P E (list (string * Z)) := pause ;; bootstrappable_neighbors srv.

(** The start of [run], up to its bootstrap; [None]: the port could not be bound,
    and the program exits. The node has the id of its name, a new store and, with
    SIG_CACHE, a new signature cache. *)
Definition start_node (vars : Vars) (random : bytes) (cache : C) (bound : bool) (workers : nat)
    : F P E (option (Server * list Node)) :=
  let name := default (str_bytes "node") (vars "NODE_NAME") in
  let ip := default [] (vars "NODE_IP") in
  let port := env_or vars (parse_unsigned U16_MAX) "NODE_PORT" 4000%Z in
  let k := env_or vars (parse_unsigned (USIZE - 1)) "DHT_K" 20%Z in
  let alpha := env_or vars (parse_unsigned (USIZE - 1)) "DHT_ALPHA" 3%Z in
  let seeds := parse_seeds (default [] (vars "SEEDS")) (text_of ip, port) in
  let sig_cache := (env_or vars (parse_unsigned U8_MAX) "SIG_CACHE" 0 =? 1)%Z in
  let id := digest (str_bytes "testbed:" ++ name) in
  let server := server_new (Z.to_nat k) (Z.to_nat alpha) (Some id) random in
  lift pause ;;
  if negb bound then mret None
  else
    now ← lift (asks instant); unix ← lift (asks unix_time);
    lift (modify (λ _, listen_protocol server now unix (ForgetfulStorage.new DEFAULT_TTL)
                         (if sig_cache then Some cache else None) workers)) ;;
    let server := with_listening server true in
    discovered ← bootstrap fuel server seeds;
    mret (Some (server, discovered)).

(** [handle]; [counts] are the counters of the node. *)
Definition handle (turns : nat) (identity : option Identity) (counts : Inner) (d : Drawn) (q : Request)
    : F P E (option Identity * Answer) :=
  let run c := r ← run_command handler fuel srv identity c; mret (r.1, AReply r.2) in
  match q with
  | QInfo => run CInfo
  | QNew => run (CNew (dr_uuid d) (dr_version d))
  | QPublish => run (CPublish (dr_uuid d) (dr_version d))
  | QUpdate => run (CUpdate (dr_version d) (dr_rng d))
  | QDiscard => run CDiscard
  | QForget => run CForget
  | QGet target => run (CGet target)
  | QWatch target ms => r ← watch turns target ms; mret (identity, AWatch r)
  | QStats => lift pause ;; s ← lift (stats srv); mret (identity, AStats s)
  | QCounters =>
      lift pause ;; mret (identity, ACounters (if listening srv then Some (snapshot counts) else None))
  | QStorage => r ← lift storage_report; mret (identity, AStorage r)
  | QRouting => r ← lift routing_report; mret (identity, ARouting r)
  | QUsageGet | QUsageWatch => mret (identity, AUsage)
  | QUnknown word => mret (identity, AUnknown word)
  end.

End control.

(** ** Lines are understood *)

Definition word_ok (w : bytes) : Prop := w ≠ [] ∧ Forall (λ b, graphic b = true) w.

Lemma words_of_word fuel word w l :
  Forall (λ b, graphic b = true) w → length w ≤ fuel →
  words_from fuel word (w ++ l) = words_from (fuel - length w) (word ++ w) l.
Proof.
  intros Hw. revert fuel word. induction Hw as [|b w Hb _ IH]; intros fuel word Hf.
  - simpl. by rewrite app_nil_r, Nat.sub_0_r.
  - destruct fuel as [|fuel]; simpl in Hf; [lia|]. cbn [words_from app].
    rewrite strip_one_graphic by (done || apply trimmable_white). cbn [app].
    rewrite IH by lia. by rewrite <- app_assoc.
Qed.

Lemma split_whitespace_join ws : Forall word_ok ws → split_whitespace (join (str_bytes " ") ws) = ws.
Proof.
  intros Hws. unfold split_whitespace.
  assert (∀ fuel, length (join (str_bytes " ") ws) < fuel → words_from fuel [] (join (str_bytes " ") ws) = ws) as Hgo;
    [|apply Hgo; lia].
  induction Hws as [|w ws [Hn Hg] Hws IH]; intros fuel Hf.
  - by destruct fuel.
  - destruct ws as [|w' ws].
    + change (join _ [w]) with w in *. rewrite <- (app_nil_r w) at 1. rewrite words_of_word by (done || lia).
      destruct (fuel - length w) as [|k] eqn:Ek; [lia|]. cbn. by rewrite bool_decide_eq_false_2 by done.
    + change (join _ (w :: w' :: ws)) with (w ++ x20 :: join (str_bytes " ") (w' :: ws)) in *.
      rewrite length_app in Hf. cbn [length] in Hf. rewrite words_of_word by (done || lia).
      destruct (fuel - length w) as [|k] eqn:Ek; [lia|]. cbn [words_from app].
      rewrite (strip_one_space WHITE_SPACE x20); [|apply trimmable_white|by apply ascii_space_white|done].
      rewrite bool_decide_eq_false_2 by done. by rewrite IH by lia.
Qed.

Lemma trim_line ws : Forall word_ok ws → trim (ctl_line ws) = join (str_bytes " ") ws.
Proof.
  intros Hws. destruct Hws as [|w ws [Hn Hg] Hws]; [reflexivity|]. unfold ctl_line.
  set (l := join _ _).
  assert (∃ a m z, l = a :: m ∧ last l = Some z ∧ graphic a = true ∧ graphic z = true) as (a & m & z & Hl & Hz & Ha & Hgz).
  { assert (∃ z, last l = Some z ∧ graphic z = true) as (z & Hz & Hgz).
    { subst l. revert w Hn Hg. induction Hws as [|w' ws [Hn' Hg'] Hws IH]; intros w Hn Hg.
      - change (join _ [w]) with w. destruct (last w) as [z|] eqn:Hz; [|by apply last_None in Hz].
        exists z. split; [done|]. rewrite Forall_forall in Hg. by apply Hg, last_Some_elem_of.
      - destruct (IH w' Hn' Hg') as (z & Hz & Hgz). exists z. split; [|done].
        change (join _ (w :: w' :: ws)) with (w ++ [x20] ++ join (str_bytes " ") (w' :: ws)).
        by rewrite !last_app, Hz. }
    destruct w as [|a w]; [done|]. apply Forall_cons in Hg as [Ha _].
    assert (∃ m, l = a :: m) as [m Hm] by (subst l; destruct ws; simpl; eauto). by exists a, m, z. }
  rewrite Hl in *. apply (trim_padded [] a m z [x0a]); try done; by repeat constructor.
Qed.

(** What [ctl] is given for a command. *)
Definition request_args (q : Request) : list bytes :=
  match q with
  | QGet target => [str_bytes "get"; target]
  | QWatch target ms => [str_bytes "watch"; target; decimal ms]
  | QUsageGet => [str_bytes "get"]
  | QUsageWatch => [str_bytes "watch"]
  | QUnknown word => option_list (if bool_decide (word = []) then None else Some word)
  | QInfo => [str_bytes "info"] | QNew => [str_bytes "new"] | QPublish => [str_bytes "publish"]
  | QUpdate => [str_bytes "update"] | QDiscard => [str_bytes "discard"] | QForget => [str_bytes "forget"]
  | QStats => [str_bytes "stats"] | QCounters => [str_bytes "counters"] | QStorage => [str_bytes "storage"]
  | QRouting => [str_bytes "routing"]
  end.

(** Arguments without white space, and a word that is no command. *)
Definition request_ok (q : Request) : Prop :=
  match q with
  | QGet target => word_ok target
  | QWatch target ms => word_ok target ∧ (0 ≤ ms ≤ U64_MAX)%Z
  | QUnknown word =>
      word = [] ∨ word_ok word ∧ word ∉ str_bytes <$> "get" :: "watch" :: plain_commands.*1
  | _ => True
  end.

Lemma decimal_word ms : word_ok (decimal ms).
Proof.
  destruct (decimal_digits ms) as [Hd Hn]. split; [done|]. eapply Forall_impl; [exact Hd|]. apply digit_graphic.
Qed.

Lemma args_ok q : request_ok q → Forall word_ok (request_args q).
Proof.
  destruct q as [| | | | | |target|target ms| | | | | | |word]; simpl; intros Hq; try (repeat constructor; done).
  - repeat constructor; try done; apply Hq.
  - repeat constructor; try done; try apply Hq; apply decimal_word.
  - case_bool_decide; simpl; [constructor|]. destruct Hq as [|[Hq _]]; [done|]. by constructor.
Qed.

(** ** Reading until it is found *)

Section watching.
Context {C E : Type} `{Sha1, Sha256, Bincode, Ipv6Syntax, HashOrder, MokaCache C}.
Context (handler : SignatureVerifierHandler).
Abbreviation P := (KademliaProtocol ForgetfulStorage.t C).
Context `{Environment E P, LookupSchedule E, Timer E P}.

(** The clock is past [t]. *)
Definition clock_past (t : Z) (s : ForgetfulStorage.t) (c : option C) (e : E) : Prop := (t ≤ instant e)%Z.

(** The clock of the node does not go back, and a sleep takes its time. *)
Record clock_runs : Prop := {
  cr_forward t : stable (of_records (clock_past t));
  cr_sleep d w : (0 ≤ d)%Z → (instant (env w) + d ≤ instant (env (sleep d w).1))%Z
}.

Context (HC : clock_runs).

Lemma clock_guarded t : guarded handler (of_records (clock_past t)) (λ _ _, True) (λ _, True).
Proof using HC.
  pose proof (framed_records _ (cr_forward HC t)) as HF. split; try done.
  - intros key value _ [p e] Hw. unfold storage_set, update, asks, mbind, M_bind. simpl.
    by destruct (ForgetfulStorage.fs_set _ _ _ _).
  - intros key value _ [p e] Hw. unfold storage_insert, update, asks, mbind, M_bind. simpl.
    by destruct (ForgetfulStorage.fs_insert_if_absent _ _ _ _).
  - intros key value. assert (keeps (of_records (clock_past t)) (verify_for_key handler key value)) as Hk.
    { unfold verify_for_key. keeps_all. intros [p e] Hw. unfold update. simpl.
      by destruct (verify_record _ _ _ _ _). }
    intros w Hw. split; [done|by apply Hk].
  - intros f peer _. apply response_framed; [done|]. by intros ch m [p e] Hw.
Qed.

Lemma clock_get fuel srv key t :
  ftriple (of_records (clock_past t)) (server_get handler fuel srv key) (λ _, of_records (clock_past t)).
Proof using HC.
  intros w w' r Hw Hg.
  by destruct (fk_get handler _ (framed_records _ (cr_forward HC t)) _ _ (clock_guarded t) fuel srv key w w' r Hw Hg).
Qed.

Context (U : gset ident) (HU : ∀ i, i ∈ U) (fuel : nat) (Hfuel : 2 * size U + 1 < fuel) (srv : Server).

(** A watch ends: found, or not found after its deadline. [pauses] pauses cover
    the time that is left. *)
Lemma watch_loop_ends (I : World P E → Prop) (V : bytes → Prop) pauses turns uuid deadline attempts w :
  keeps I (storage_get (digest uuid)) →
  ftriple I (server_get handler fuel srv uuid) (λ r w, (∀ x, r = Some x → V x) ∧ I w) →
  keeps I (sleep WATCH_PAUSE) →
  I w → (deadline ≤ instant (env w) + Z.of_nat pauses * WATCH_PAUSE)%Z → pauses < turns →
  ∃ w' r, watch_loop handler fuel srv turns uuid deadline attempts w = Some (w', r) ∧ I w' ∧
    attempts < wt_attempts r ≤ S (attempts + pauses) ∧
    match wt_found r with
    | Some (_, x) => V x
    | None => (deadline ≤ instant (env w'))%Z
    end.
Proof using HC HU Hfuel.
  intros Hget Hserver Hsleep. revert turns attempts w.
  induction pauses as [|pauses IH]; intros [|turns] attempts w Hw Hd Ht; try lia; cbn [watch_loop];
    unfold mbind, F_bind, lift.
  all: pose proof (Hget w Hw) as Hw1;
    assert (env (storage_get (digest uuid) w).1 = env w) as He1 by reflexivity;
    destruct (storage_get (digest uuid) w) as [w1 copy]; simpl in Hw1, He1.
  all: destruct (total_get handler U HU fuel Hfuel srv uuid w1) as [[w2 found] Hf]; rewrite Hf.
  all: destruct (Hserver w1 w2 found Hw1 Hf) as [Hv Hw2].
  all: assert (instant (env w) ≤ instant (env w2))%Z as Hclock
    by (eapply (clock_get fuel srv uuid (instant (env w)) w1 w2); [|exact Hf]; unfold of_records, clock_past; rewrite He1; lia).
  all: destruct found as [x|]; [eexists _, _; split; [done|]; simpl; split_and!; [done|lia|lia|by apply Hv]|].
  all: unfold asks; destruct (deadline <=? instant (env w2))%Z eqn:Hdl; bool_facts.
  1, 3: eexists _, _; split; [done|]; simpl; split_and!; [done|lia|lia|lia].
  - simpl in Hd. lia.
  - pose proof (cr_sleep HC WATCH_PAUSE w2 ltac:(done)) as Hs. pose proof (Hsleep w2 Hw2) as Hw3.
    destruct (sleep WATCH_PAUSE w2) as [w3 u]. simpl in Hs, Hw3.
    destruct (IH turns (S attempts) w3 Hw3 ltac:(lia) ltac:(lia)) as (w' & r & Hr & Hi & Ha & Hfound).
    exists w', r. split; [done|]. split_and!; [done|lia|lia|done].
Qed.

End watching.

(** ** Theorems *)

(** The node of a container understands the commands of its [ctl]. What is
    sent for a command is read back as the command and its arguments, with every
    time of 64 bits; a command without an argument it needs, or that there is
    not, is told so. *)
Lemma commands_are_understood (q : Request) (Hq : request_ok q) : read_request (ctl_line (request_args q)) = q.
Proof.
  unfold read_request. rewrite trim_line by by apply args_ok. unfold parse_request.
  rewrite split_whitespace_join by by apply args_ok.
  destruct q as [| | | | | |target|target ms| | | | | | |word]; try reflexivity; cbn [request_args].
  - cbn -[parse_unsigned decimal]. destruct Hq as [_ Hms]. by rewrite parse_decimal.
  - case_bool_decide as Hw; [by subst|]. change (option_list (Some word)) with [word]. destruct Hq as [|[_ Hn]]; [done|].
    rewrite fmap_cons, fmap_cons in Hn. apply not_elem_of_cons in Hn as [Hg Hn]. apply not_elem_of_cons in Hn as [Hwt Hn].
    rewrite !bool_decide_eq_false_2 by done.
    assert (filter (λ c, str_bytes c.1 = word) plain_commands = []) as ->; [|done].
    destruct (filter _ _) as [|c cs] eqn:Hf; [done|]. exfalso. apply Hn.
    assert (c ∈ filter (λ c, str_bytes c.1 = word) plain_commands) as Hc by (rewrite Hf; left).
    apply list_elem_of_filter in Hc as [<- Hc]. apply list_elem_of_fmap. exists c.1. split; [done|].
    apply list_elem_of_fmap. by exists c.
Qed.

(** A watch ends, and says what it saw. With a clock that runs, [watch] reads
    the DID at least once and at most once for every pause its time has room for,
    plus two; then either it found a record, which is vouched for under the key of
    the DID, or all of its time has passed. *)
Lemma watch_ends {C E : Type} `{Sha1, Sha256, Bincode, Ipv6Syntax, HashOrder, MokaCacheLaws C}
    (handler : SignatureVerifierHandler) `{!SignatureVerifierLaws handler}
    `{Environment E (KademliaProtocol ForgetfulStorage.t C), LookupSchedule E,
      Timer E (KademliaProtocol ForgetfulStorage.t C)}
    (srv : Server) (target : bytes) (ms : Z) (w : World (KademliaProtocol ForgetfulStorage.t C) E)
    (Hothers : stable (of_records (authentic_records (C := C) (E := E) handler)))
    (Hsleep : ∀ t, keeps (of_records (authentic_records (C := C) (E := E) handler)) (sleep t))
    (Hclock : clock_runs (C := C) (E := E)) (Hms : (0 ≤ ms)%Z)
    (Hw : of_records (authentic_records handler) w) :
  ∃ rounds, ∀ fuel turns, rounds ≤ fuel → (ms / 5 + 2 ≤ Z.of_nat turns)%Z → ∃ w' r,
    watch handler fuel srv turns target ms w = Some (w', r) ∧
    (1 ≤ Z.of_nat (wt_attempts r) ≤ ms / 5 + 2)%Z ∧
    match wt_found r with
    | Some (_, x) => vouched handler (digest (default target (strip_prefix (str_bytes "did:iiot:") target))) x
    | None => (instant (env w) + from_millis ms ≤ instant (env w'))%Z
    end.
Proof.
  destruct finitely_many_ids as [U HU]. exists (2 * size U + 2). intros fuel turns Hf Ht.
  set (uuid := default target _). unfold watch, mbind, F_bind, lift.
  pose proof (keeps_pause _ Hothers w Hw) as Hw1.
  assert (instant (env w) ≤ instant (env (pause w).1))%Z as Hc
    by (apply (keeps_pause _ (cr_forward Hclock (instant (env w))) w); unfold of_records, clock_past; lia).
  destruct (pause w) as [w1 u]. simpl in Hw1, Hc. unfold asks. fold uuid.
  destruct (watch_loop_ends handler Hclock U HU fuel ltac:(lia) srv (of_records (authentic_records handler))
    (vouched handler (digest uuid)) (Z.to_nat (ms / 5 + 1)) turns uuid (instant (env w1) + from_millis ms) 0 w1)
    as (w' & r & Hr & _ & Ha & Hfound).
  - apply rq_storage_get.
  - eapply fk_get; [by apply framed_records|by apply authentic_guarded].
  - apply Hsleep.
  - done.
  - unfold WATCH_PAUSE, from_millis. pose proof (Z.div_mod ms 5 ltac:(lia)).
    pose proof (Z.mod_pos_bound ms 5 ltac:(lia)). rewrite Z2Nat.id by (apply Z.add_nonneg_nonneg; lia). lia.
  - pose proof (Z.div_pos ms 5 Hms ltac:(lia)). lia.
  - exists w', r. split; [done|]. split; [pose proof (Z.div_pos ms 5 Hms ltac:(lia)); lia|]. destruct (wt_found r) as [[copy x]|]; [done|lia].
Qed.

(** ** Witnesses *)

Module ControlExample.
Import NodeExample HandlersWitness DhtNodeExample.

Lemma commands_are_understood_witness :
  read_request (ctl_line [str_bytes "watch"; DidExample.ex_did; str_bytes "250"]) = QWatch DidExample.ex_did 250.
Proof.
  apply (commands_are_understood (QWatch DidExample.ex_did 250)).
  split; [split; [discriminate|]|vm_compute; split; discriminate].
  apply (bool_decide_unpack _). vm_compute. exact I.
Defined.

Lemma ex_clock : clock_runs (C := Cache) (E := Z).
Proof.
  split.
  - intros t. apply ex_stable. intros s c e e' Hle. unfold clock_past. simpl. lia.
  - intros d w Hd. simpl. lia.
Qed.

Lemma watch_ends_witness :
  ∃ rounds, ∀ fuel turns, rounds ≤ fuel → (250 / 5 + 2 ≤ Z.of_nat turns)%Z → ∃ w' r,
    watch (C := Cache) ex_handler fuel NodeProps.NodeWitness.ex_server turns [x01; x02] 250 (mkW start 0%Z) = Some (w', r) ∧
    (1 ≤ Z.of_nat (wt_attempts r) ≤ 250 / 5 + 2)%Z ∧
    match wt_found r with
    | Some (_, x) => vouched ex_handler
        (digest (default [x01; x02] (strip_prefix (str_bytes "did:iiot:") [x01; x02]))) x
    | None => (instant (env (mkW start 0%Z)) + from_millis 250 ≤ instant (env w'))%Z
    end.
Proof.
  apply (watch_ends (C := Cache) ex_handler NodeProps.NodeWitness.ex_server [x01; x02] 250 (mkW start 0%Z)).
  - exact ex_authentic_stable.
  - intros t w Hw. unfold of_records in *. simpl. destruct Hw as [Hr Hc]. split; simpl in *.
    + intros key value Hl. apply Hr. refine (lookup_weaken _ _ _ _ Hl (law_expiry _ _ _ _)). lia.
    + intros cache k b Ec Hk. by apply (Hc cache k b Ec).
  - exact ex_clock.
  - lia.
  - exact ex_authentic_start.
Defined.

End ControlExample.
