(* ===== verification/CacheBench.v ===== *)
(** * The signature cache benchmark (src/examples/cache_bench.rs)

    The micro-benchmark: a node alone reads its own records twice, with and
    without a signature cache. The times it takes are left aside; the results of
    the reads, which the program drops, are kept. *)

From S2P Require Import Prelude Utils Node Routing Storage StorageProps Fragmentation Messages Retransmit.
From S2P Require Import Crypto AuthHandler AuthProps Crawling Effects Protocol Transport Client.
From S2P Require Import Handlers NodeExample ProtocolProps HandlersProps Publish Network ApiProps NodeProps KeyManager DidRecord.
From S2P Require Import OwnerProps Resilience.

(** ** The program *)

Section records.
Context `{JsonWrite, Base64Encode, SignatureLibraries, KeyGeneration}.

(** [base64url] and [sort_json_keys]. *)
Definition base64url (pk : bytes) : bytes := base64url_encode pk.
Definition sort_json_keys (v : JValue) : JValue := DidRecord.sort_json_keys v.

(** [new_record]: the key and the record of a new DID. *)
Definition new_record (drawn : bytes) (d : Draw) : bytes * bytes :=
  let '(dpk, dsk) := dilithium_keypair 2 (draw_signing d) in
  let '(kpk, _) := kyber_keypair 512 (draw_agreement d) in
  let did := str_bytes "did:iiot:" ++ drawn in
  let key := reverse (before x3a (reverse did)) in
  let doc_bytes := json_to_vec (sort_json_keys (build_did_document did dpk kpk)) in
  let alg := str_bytes "Dilithium-2" ++ drop 11 (replicate 12 x00) in
  (key, alg ++ dilithium_sign 2 (draw_signature d) doc_bytes dsk ++ doc_bytes).

End records.

Section bench.
Context {C E : Type} `{Sha1, Sha256, Bincode, Ipv6Syntax, HashOrder, MokaCache C}.
Context `{JsonWrite, Base64Encode, SignatureLibraries, KeyGeneration}.
Abbreviation P := (KademliaProtocol ForgetfulStorage.t C).
Context `{Environment E P, LookupSchedule E}.
Context (handler : SignatureVerifierHandler) (fuel : nat).

(** A pass: the records are read one after the other. *)
Fixpoint read_pass (srv : Server) (records : list (bytes * bytes)) : F P E (list (option bytes)) :=
  match records with
  | [] => mret []
  | (key, _) :: records' =>
      r ← server_get handler fuel srv key;
      rs ← read_pass srv records';
      mret (r :: rs)
  end.

(** The records are written into the store of the node, past the DHT, and read
    in a cold and in a warm pass. *)
Definition inject_and_read (srv : Server) (records : list (bytes * bytes))
    : F P E (list (option bytes) * list (option bytes)) :=
  lift (for_each (λ r, storage_set (digest r.1) r.2) records) ;;
  cold ← read_pass srv records;
  warm ← read_pass srv records;
  mret (cold, warm).

(** [run_verify_micro]; a port that cannot be bound is a panic. *)
Definition run_verify_micro (use_cache : bool) (draws : list (bytes * Draw)) (random : bytes) (cache : C)
    (bound : bool) (workers : nat) : F P E (Run (list (option bytes) * list (option bytes))) :=
  let srv := server_new 20 3 None random in
  lift pause ;;
  if negb bound then mret Panic
  else
    now ← lift (asks instant); unix ← lift (asks unix_time);
    lift (modify (λ _, listen_protocol srv now unix (ForgetfulStorage.new DEFAULT_TTL)
                         (if use_cache then Some cache else None) workers)) ;;
    let records := (λ x, new_record x.1 x.2) <$> draws in
    passes ← inject_and_read (with_listening srv true) records;
    mret (Done passes).

End bench.

(** ** Room for the records *)

Section room.
Context {C E : Type} `{Sha1}.
Abbreviation P := (KademliaProtocol ForgetfulStorage.t C).
Context `{Environment E P}.
Import ForgetfulStorage.

(** What the records need in a store. *)
Definition needed (records : list (bytes * bytes)) : Z :=
  foldr (λ r acc, size (ident_bytes (digest r.1)) + size r.2 + acc)%Z 0%Z records.

Lemma used_write d k v : (used (<[k := v]> d) ≤ used d + StorageProps.record_size k v)%Z.
Proof using.
  destruct (d !! k) as [w|] eqn:Hk.
  - rewrite (used_replace _ _ _ _ Hk). unfold StorageProps.record_size.
    pose proof (size_nonneg k). pose proof (size_nonneg w.1). lia.
  - rewrite used_insert by done. lia.
Qed.

Lemma set_budget now s k v : max_storage_bytes (fs_set now s k v).1 = max_storage_bytes s.
Proof using.
  assert (∀ s n s', reserve_bytes s n = Some s' → max_storage_bytes s' = max_storage_bytes s) as Hr
    by (intros s0 n s'; unfold reserve_bytes; repeat case_match; intros; by simplify_eq).
  unfold fs_set, insert_vacant, replace_value, release_bytes.
  repeat case_match; simpl; simplify_eq; eauto; try (by erewrite Hr by done).
Qed.

Lemma set_room now s k v :
  accounted s → (used (data s) + size k + size v ≤ max_storage_bytes s)%Z →
  (fs_set now s k v).2 ≠ CapacityExceeded ∧
  (used (data (fs_set now s k v).1) ≤ used (data s) + size k + size v)%Z.
Proof using.
  intros Ha Hm. pose proof (used_write (data s) k (v, now)) as Hu. unfold StorageProps.record_size in Hu. simpl in Hu.
  assert (∀ s', fs_set now s k v = (s', CapacityExceeded) → s' = s) as Hsame.
  { intros s' Hs. pose proof (law_set now s k v) as Hl. simpl in Hl. by rewrite Hs in Hl. }
  assert (match fs_set now s k v with (s', CapacityExceeded) => True | (s', _) => written now s s' k v end) as Hw.
  { unfold fs_set. destruct (data s !! k) as [[slot a]|].
    - pose proof (replace_value_cases now s k slot v) as Hc. destruct (replace_value _ _ _ _ _) as [s' []]; naive_solver.
    - pose proof (insert_vacant_cases now s k v) as Hc. by destruct (insert_vacant _ _ _ _) as [s' []]. }
  destruct (fs_set now s k v) as [s' st] eqn:Hset. simpl in *.
  destruct st; try (split; [done|]; destruct Hw as [_ ->]; lia).
  exfalso. pose proof (Hsame s' eq_refl) as ->.
  pose proof (accounted_refused now s k v Ha (or_intror Hset)). lia.
Qed.

Lemma inject_room records (w : World P E) :
  accounted (storage (proto w)) →
  (used (data (storage (proto w))) + needed records ≤ max_storage_bytes (storage (proto w)))%Z →
  Forall (λ st, st ≠ CapacityExceeded) (for_each (λ r, storage_set (digest r.1) r.2) records w).2.
Proof using.
  revert w. induction records as [|[k v] records IH]; intros [p e] Ha Hm; simpl; [constructor|].
  simpl in Ha, Hm. unfold mbind, M_bind. set (dk := ident_bytes (digest k)) in *.
  assert (0 ≤ needed records)%Z as Hn.
  { clear. induction records as [|r records IH]; simpl; [done|].
    pose proof (size_nonneg (ident_bytes (digest r.1))). pose proof (size_nonneg r.2). lia. }
  destruct (set_room (instant e) (storage p) dk v Ha ltac:(lia)) as [Hst Hused].
  pose proof (set_budget (instant e) (storage p) dk v) as Hb.
  pose proof (accounted_set (instant e) (storage p) dk v Ha) as Ha'.
  destruct (fs_set (instant e) (storage p) dk v) as [s' st] eqn:Hset. simpl in Hst, Hused, Hb, Ha'.
  assert (storage_set (digest k) v (mkW p e) = (mkW (with_storage s' p) e, st)) as ->
    by (unfold storage_set, asks, update, mbind, M_bind; simpl; fold dk; by rewrite Hset).
  specialize (IH (mkW (with_storage s' p) e)). simpl in IH.
  destruct (for_each _ records (mkW (with_storage s' p) e)) as [w2 sts]. simpl in *.
  constructor; [done|]. apply IH; [done|lia].
Qed.

Lemma inject_cache records (w : World P E) :
  sig_cache (proto (for_each (λ r, storage_set (digest r.1) r.2) records w).1) = sig_cache (proto w).
Proof using.
  revert w. induction records as [|[k v] records IH]; intros [p e]; simpl; [done|]. unfold mbind, M_bind.
  destruct (fs_set (instant e) (storage p) (ident_bytes (digest k)) v) as [s' st] eqn:Hset.
  assert (storage_set (digest k) v (mkW p e) = (mkW (with_storage s' p) e, st)) as ->
    by (unfold storage_set, asks, update, mbind, M_bind; simpl; by rewrite Hset).
  specialize (IH (mkW (with_storage s' p) e)). by destruct (for_each _ records (mkW (with_storage s' p) e)).
Qed.

End room.

(** ** Reads *)

Section reads.
Context {C E : Type} `{Sha1, Sha256, Bincode, Ipv6Syntax, HashOrder, MokaCache C}.
Abbreviation P := (KademliaProtocol ForgetfulStorage.t C).
Context `{Environment E P, LookupSchedule E}.
Context (handler : SignatureVerifierHandler) (fuel : nat) (srv : Server) (records : list (bytes * bytes)).

(** An invariant under which the node serves the records and verifies them. *)
Record reads (I : World P E → Prop) : Prop := {
  rd_served w k v : I w → (k, v) ∈ records →
    Storage.get (instant (env w)) (storage (proto w)) (ident_bytes (digest k)) = Some v;
  rd_verified k v : (k, v) ∈ records → triple I (verify_for_key handler (digest k) v) (λ b w, b = true ∧ I w);
  rd_did k v : (k, v) ∈ records → k ≠ STATUS_LIST_KEY
}.

Context (I : World P E → Prop) (HR : reads I).

Lemma read_served w k v :
  I w → (k, v) ∈ records → ∃ w', server_get handler fuel srv k w = Some (w', Some v) ∧ I w'.
Proof using HR.
  intros Hw Hin. unfold server_get. rewrite bool_decide_eq_false_2 by by eapply (rd_did I HR).
  unfold mbind, F_bind, lift, storage_get, asks, gets, mbind, M_bind. rewrite (rd_served I HR w k v Hw Hin).
  unfold verified, verify_value, mbind, M_bind.
  destruct (rd_verified I HR k v Hin w Hw) as [Hb Hw']. destruct (verify_for_key handler (digest k) v w) as [w' b].
  simpl in *. subst b. by exists w'.
Qed.

Lemma read_pass_served rs w :
  I w → rs ⊆ records → ∃ w', read_pass handler fuel srv rs w = Some (w', Some <$> rs.*2) ∧ I w'.
Proof using HR.
  intros Hw Hsub. revert w Hw. induction rs as [|[k v] rs IH]; intros w Hw; [by exists w|]. cbn [read_pass].
  destruct (read_served w k v Hw ltac:(set_solver)) as (w1 & Hg & Hw1). unfold mbind, F_bind. rewrite Hg.
  destruct (IH ltac:(set_solver) w1 Hw1) as (w2 & Hp & Hw2). rewrite Hp. by exists w2.
Qed.

End reads.

Section passes.
Context {C E : Type} `{Sha1, Sha256, Bincode, Ipv6Syntax, HashOrder, MokaCacheLaws C}.
Abbreviation P := (KademliaProtocol ForgetfulStorage.t C).
Context `{Environment E P, LookupSchedule E}.
Context (handler : SignatureVerifierHandler) (records : list (bytes * bytes)).

(** The records are served, and the cache does not refuse one of them. *)
Definition unrefused (s : ForgetfulStorage.t) (c : option C) (e : E) : Prop :=
  ∀ k v, (k, v) ∈ records →
    live (instant e) s !! ident_bytes (digest k) = Some v ∧
    ∀ cache, c = Some cache → cache_get (instant e) cache (compute_key SelfSigned v) ≠ Some false.

(** The records are served, and the cache accepts each of them. *)
Definition accepted (s : ForgetfulStorage.t) (c : option C) (e : E) : Prop :=
  ∀ k v, (k, v) ∈ records →
    live (instant e) s !! ident_bytes (digest k) = Some v ∧
    ∃ cache, c = Some cache ∧ cache_get (instant e) cache (compute_key SelfSigned v) = Some true.

Definition did_keys : Prop := ∀ k v, (k, v) ∈ records → digest k ≠ digest STATUS_LIST_KEY.
Definition bound_records : Prop := ∀ k v, (k, v) ∈ records → is_bound_to_key handler (digest k) v = true.
Definition signed_records : Prop := ∀ k v, (k, v) ∈ records → check_signature handler false v = true.

Context (Hdid : did_keys) (Hbound : bound_records).

(** A verification, from the step on the cache. *)
Lemma verify_step (J : ForgetfulStorage.t → option C → E → Prop) k v :
  stable (of_records J) →
  (∀ s c e, J s c e →
    (verify_record handler (instant e) c (digest k) v).1 = true ∧
    J s (verify_record handler (instant e) c (digest k) v).2 e) →
  triple (of_records J) (verify_for_key handler (digest k) v) (λ b w, b = true ∧ of_records J w).
Proof using.
  intros HJ Hv. unfold verify_for_key. eapply triple_bind; [by apply keeps_pause|]. intros u.
  eapply triple_bind; [apply triple_asks|]. intros now.
  eapply (triple_bind _ _ (λ b w, b = true ∧ of_records J w)).
  - intros [p e] [Hw ->]. unfold update, of_records in *. simpl in *. destruct (Hv _ _ _ Hw) as [Hb Hc].
    by destruct (verify_record handler (instant e) (sig_cache p) (digest k) v) as [b c].
  - intros b. apply triple_pure. intros Hb. eapply triple_bind; [by apply keeps_pause|]. intros u1. by intros w Hw.
Qed.

Lemma reads_unrefused : signed_records → stable (of_records unrefused) → reads handler records (of_records unrefused).
Proof using All.
  intros Hsig HJ. split.
  - intros w k v Hw Hin. unfold Storage.get. rewrite law_get. by rewrite (proj1 (Hw k v Hin)).
  - intros k v Hin. apply verify_step; [done|]. intros s c e Hj. unfold verify_record.
    rewrite (Hbound k v Hin), bool_decide_eq_false_2 by by apply (Hdid k v). cbn [negb].
    rewrite (Hsig k v Hin). destruct c as [cache|]; [|done].
    destruct (cache_get (instant e) cache (compute_key SelfSigned v)) as [b|] eqn:Hg; simpl.
    + split; [|done]. destruct b; [done|]. by destruct (proj2 (Hj k v Hin) cache eq_refl).
    + split; [done|]. intros k' v' Hin'. split; [by apply Hj|]. intros cache' [= <-] Hf.
      apply cache_inserted in Hf as [[_ ?]|Hf]; [done|]. by destruct (proj2 (Hj k' v' Hin') cache eq_refl).
  - intros k v Hin ->. by apply (Hdid _ _ Hin).
Qed.

Lemma reads_accepted : stable (of_records accepted) → reads handler records (of_records accepted).
Proof using All.
  intros HJ. split.
  - intros w k v Hw Hin. unfold Storage.get. rewrite law_get. by rewrite (proj1 (Hw k v Hin)).
  - intros k v Hin. apply verify_step; [done|]. intros s c e Hj. unfold verify_record.
    rewrite (Hbound k v Hin), bool_decide_eq_false_2 by by apply (Hdid k v). cbn [negb].
    destruct (proj2 (Hj k v Hin)) as (cache & -> & ->). done.
  - intros k v Hin ->. by apply (Hdid _ _ Hin).
Qed.

End passes.

(** ** The records of the benchmark *)

Section fresh.
Context `{Sha1, Sha256, JsonLaws, Base64Laws, KeyGenerationLaws, !Dilithium2Size, UuidSyntax, Hex}.
Context (draws : list (bytes * Draw)).
Context (Hfresh : Forall (λ x, uuid_text x.1 ∧ digest x.1 ≠ digest STATUS_LIST_KEY) draws).
Abbreviation records := ((λ x, new_record x.1 x.2) <$> draws).

Lemma new_record_version uuid d :
  x3a ∉ uuid → new_record uuid d = (uuid, record (generate_version (generate_did_iiot uuid) d)).
Proof using.
  intros Hu. rewrite <- (dht_key_did uuid Hu) at 2. unfold new_record, generate_version.
  destruct (dilithium_keypair 2 _), (kyber_keypair 512 _). done.
Qed.

Lemma record_drawn k v :
  (k, v) ∈ records →
  ∃ d, uuid_text k ∧ digest k ≠ digest STATUS_LIST_KEY ∧ v = record (generate_version (generate_did_iiot k) d).
Proof using Hfresh.
  intros ([uuid d] & Hr & Hin)%list_elem_of_fmap. rewrite Forall_forall in Hfresh.
  destruct (Hfresh _ Hin) as [Hu Hk]. simpl in *. rewrite new_record_version in Hr by apply Hu.
  injection Hr as -> ->. by exists d.
Qed.

Lemma records_did : did_keys records.
Proof using Hfresh. intros k v (d & _ & Hk & _)%record_drawn. done. Qed.

Lemma records_bound issuer_file : bound_records (did_handler issuer_file) records.
Proof using All.
  intros k v (d & Hu & Hk & ->)%record_drawn. unfold is_bound_to_key. rewrite bool_decide_eq_false_2 by done. simpl.
  by rewrite (proj2 (did_document_matches_key_iff _ _) (version_bound k d Hu)).
Qed.

Lemma records_signed issuer_file : signed_records (did_handler issuer_file) records.
Proof using All.
  intros k v (d & Hu & Hk & ->)%record_drawn. unfold check_signature. simpl.
  by rewrite (proj2 (verify_self_signed_iff _) (version_self_signed k d Hu)).
Qed.

Lemma records_keys : digest ∘ fst <$> records = digest ∘ fst <$> draws.
Proof using Hfresh.
  rewrite <- list_fmap_compose. apply list_fmap_ext. intros i [uuid d] Hi.
  rewrite Forall_lookup in Hfresh. destruct (Hfresh _ _ Hi) as [Hu _]. simpl in *.
  by rewrite new_record_version by apply Hu.
Qed.

End fresh.

(** ** Theorem *)

(** The micro-benchmark measures reads of records that verify, and what the
    cache saves is their signature check. With a cache or without, both passes
    read back every record, in order; and a pass over a cache that has kept the
    verdicts reads every record whatever the signature check would say, so that
    it makes none. The records are of distinct DIDs and fit in the store, and the
    other tasks of the node leave them there. *)
Lemma benchmark_reads {C E : Type} `{Sha1, Sha256, Bincode, Ipv6Syntax, HashOrder, MokaCacheLaws C,
      JsonLaws, Base64Laws, KeyGenerationLaws, !Dilithium2Size, UuidSyntax, Hex}
    `{Environment E (KademliaProtocol ForgetfulStorage.t C), LookupSchedule E}
    (issuer_file : option bytes) (draws : list (bytes * Draw)) (random : bytes) (cache : C) (workers fuel : nat)
    (w : World (KademliaProtocol ForgetfulStorage.t C) E)
    (Hfresh : Forall (λ x, uuid_text x.1 ∧ digest x.1 ≠ digest STATUS_LIST_KEY) draws)
    (Hdistinct : NoDup (digest ∘ fst <$> draws))
    (Hcache : ∀ now k, cache_get now cache k = None)
    (Hroom : (needed ((λ x, new_record x.1 x.2) <$> draws) ≤ DEFAULT_MAX_STORAGE_BYTES)%Z)
    (Hothers : stable (of_records (C := C) (E := E) (unrefused ((λ x, new_record x.1 x.2) <$> draws)))) :
  let records := (λ x, new_record x.1 x.2) <$> draws in
  (∀ use_cache, ∃ w', run_verify_micro (did_handler issuer_file) fuel use_cache draws random cache true workers w =
    Some (w', Done (Some <$> records.*2, Some <$> records.*2))) ∧
  ∀ handler srv w1,
    bound_records handler records → stable (of_records (C := C) (E := E) (accepted records)) →
    of_records (accepted records) w1 →
    ∃ w2, read_pass handler fuel srv records w1 = Some (w2, Some <$> records.*2).
Proof.
  intros records. pose proof (records_did draws Hfresh) as Hdid. fold records in Hdid.
  split; cycle 1.
  { intros handler srv w1 Hbound Hst Hw1. destruct (read_pass_served handler fuel srv records (of_records (accepted records))
      (reads_accepted handler records Hdid Hbound Hst) records w1 Hw1 ltac:(done)) as (w2 & Hp & _). by exists w2. }
  intros use_cache. unfold run_verify_micro, mbind, F_bind, lift. destruct (pause w) as [w1 u]. cbn [negb].
  unfold asks, modify. fold records.
  set (p := listen_protocol _ _ _ _ _ _). set (srv := with_listening _ true).
  assert (storage p = ForgetfulStorage.new DEFAULT_TTL ∧ sig_cache p = (if use_cache then Some cache else None))
    as [Hs Hc].
  { unfold p, listen_protocol. match goal with |- context [foldl _ ?q ?ts] =>
      destruct (spawn_all_same ts q) as (_ & -> & -> & _) end. done. }
  set (w2 := mkW p (env w1)).
  assert (Forall (λ st, st ≠ CapacityExceeded) (for_each (λ r, storage_set (digest r.1) r.2) records w2).2) as Hst.
  { apply inject_room; simpl; rewrite Hs; [apply accounted_new; unfold USIZE, DEFAULT_MAX_STORAGE_BYTES; lia|done]. }
  destruct (seed_live records w2 Hst) as [He Hl]. pose proof (inject_cache records w2) as Hk.
  unfold inject_and_read, mbind, F_bind, lift.
  destruct (for_each (λ r, storage_set (digest r.1) r.2) records w2) as [w3 sts]. simpl in He, Hl, Hk.
  assert (of_records (unrefused records) w3) as Hw3.
  { intros k v Hin. unfold unrefused. rewrite He. split.
    - simpl. rewrite Hl. apply seeded_lookup; [|done]. unfold records. by rewrite records_keys.
    - rewrite Hk, Hc. destruct use_cache; intros c [= <-]. by rewrite Hcache. }
  pose proof (reads_unrefused _ records Hdid (records_bound draws Hfresh issuer_file)
    (records_signed draws Hfresh issuer_file) Hothers) as HR.
  destruct (read_pass_served _ fuel srv records _ HR records w3 Hw3 ltac:(done)) as (w4 & Hp1 & Hw4). rewrite Hp1.
  destruct (read_pass_served _ fuel srv records _ HR records w4 Hw4 ltac:(done)) as (w5 & Hp2 & _). rewrite Hp2.
  by exists w5.
Qed.

(** ** A run *)

Module CacheBenchExample.
Import NodeExample.

#[local] Existing Instances KeyExample.ex_signatures KeyExample.ex_generation KeyExample.ex_generation_laws.
#[local] Existing Instances DidExample.ex_size DidExample.ex_json DidExample.ex_json_write DidExample.ex_json_laws.
#[local] Existing Instances DidExample.ex_b64 DidExample.ex_b64_encode DidExample.ex_b64_laws.
#[local] Existing Instances DidExample.ex_uuid DidExample.ex_hex OwnerProps.OwnerExample.frozen.

Definition draws : list (bytes * Draw) := [(DidExample.ex_uuid_text, mkDraw [x05] [x05] [])].

Lemma frozen_stable (I : World ExP Z → Prop) : stable I.
Proof. by split. Qed.

Lemma benchmark_reads_witness :
  let records := (λ x, new_record x.1 x.2) <$> draws in
  (∀ use_cache, ∃ w', run_verify_micro (C := Cache) (did_handler None) 0 use_cache draws [x01] ∅ true 2 (mkW start 0%Z) =
    Some (w', Done (Some <$> records.*2, Some <$> records.*2))) ∧
  ∀ handler srv w1,
    bound_records handler records → stable (of_records (C := Cache) (E := Z) (accepted records)) →
    of_records (accepted records) w1 →
    ∃ w2, read_pass handler 0 srv records w1 = Some (w2, Some <$> records.*2).
Proof.
  apply (benchmark_reads (C := Cache) None draws [x01] ∅ 2 0 (mkW start 0%Z)).
  - repeat constructor; try reflexivity; apply (bool_decide_unpack _); vm_compute; exact I.
  - apply (bool_decide_unpack _). vm_compute. exact I.
  - intros now k. apply lookup_empty.
  - apply (bool_decide_unpack _). vm_compute. exact I.
  - apply frozen_stable.
Defined.

End CacheBenchExample.
