(* ===== verification/TopologyRun.v ===== *)
(** * The run of the topology analysis (src/examples/topology_analysis.rs)

    A cluster of nodes is started and bootstrapped, records are published and
    read back, the checks of Topology are made, and their results are put
    together into the verdict of the program. The nodes are seen through their
    API; what is printed, and the latencies, are left aside. *)

From S2P Require Import Prelude Utils Node Routing BucketProps RoutingProps RoutingSpec Topology.
From S2P Require Import Storage Crypto AuthHandler KeyManager DidRecord Text.

Definition BASE_PORT : Z := 15810.
Definition NUM_NODES : nat := 30.
Definition NUM_RECORDS : nat := 100.

(** ** Records *)

Section records.
Context `{JsonWrite, Base64Encode, SignatureLibraries, KeyGeneration}.

(** [base64url], [sort_json_keys], [encode_did_document], [build_did_document] and
    [build_signed_record]. *)
Definition base64url (pk : bytes) : bytes := base64url_encode pk.
Definition sort_json_keys (v : JValue) : JValue := DidRecord.sort_json_keys v.
Definition encode_did_document (doc : JValue) : bytes := json_to_vec (sort_json_keys doc).
Definition build_did_document (did dpk kpk : bytes) : JValue := DidRecord.build_did_document did dpk kpk.

Definition build_signed_record (rng : bytes) (doc : JValue) (sk : bytes) : bytes :=
  let doc_bytes := encode_did_document doc in
  let alg := str_bytes "Dilithium-2" ++ drop 11 (replicate 12 x00) in
  alg ++ dilithium_sign 2 rng doc_bytes sk ++ doc_bytes.

(** A record that is published: its DID, its key, its bytes. *)
Record Entry := mkEntry { en_did : bytes; en_key : bytes; en_record : bytes }.

(** [new_record]. *)
Definition new_record (drawn : bytes) (d : Draw) : Entry :=
  let '(dpk, dsk) := dilithium_keypair 2 (draw_signing d) in
  let '(kpk, _) := kyber_keypair 512 (draw_agreement d) in
  let did := str_bytes "did:iiot:" ++ drawn in
  let key := reverse (before x3a (reverse did)) in
  mkEntry did key (build_signed_record (draw_signature d) (build_did_document did dpk kpk) dsk).

(** [extract_doc]. *)
Definition extract_doc (record : bytes) : option Value :=
  let doc_start := 12 + 2420 in
  if length record <=? doc_start then None else json_from_slice (drop doc_start record).

End records.

(** ** The cluster *)

(** The servers of the cluster, by their position: SET and GET under a timeout
    ([None]: it passed), the copy a node holds, and what the checks read. *)
Class Cluster (S : Type) := {
  cl_bootstrap : nat → S → S;
  cl_sleep : Z → S → S;
  cl_set : nat → bytes → bytes → S → S * option (option bool);
  cl_get : nat → bytes → S → S * option (option bytes);
  cl_holds : nat → bytes → S → bool;
  cl_keys : nat → S → list bytes;
  cl_id : nat → ident;
  cl_router : nat → S → option RoutingTable.t;
  cl_time : S → Z
}.

(** The options of the command line: [--verbose], [k] and [alpha]; [None]: the
    program exits with 2. *)
Definition is_flag (arg : bytes) : bool := bool_decide (take 2 arg = str_bytes "--").

Definition parse_options (args : list bytes) : option (bool * Z * Z) :=
  let verbose := existsb (λ a, bool_decide (a = str_bytes "--verbose")) args in
  let positional := filter (λ a, is_flag a = false) args in
  let ksize := default 20%Z (positional !! 0 ≫= parse_unsigned (USIZE - 1)) in
  let alpha := default 3%Z (positional !! 1 ≫= parse_unsigned (USIZE - 1)) in
  if (ksize =? 0)%Z || (alpha =? 0)%Z then None else Some (verbose, ksize, alpha).

Definition writer_of (i : nat) : nat := i `mod` NUM_NODES.
Definition reader_of (i : nat) : nat := (i + NUM_NODES / 2) `mod` NUM_NODES.
Definition port_of (i : nat) : Z := (BASE_PORT + Z.of_nat i)%Z.

(** The counts of the two phases. *)
Record SetPhase := mkSet { set_ok : nat; set_fail : nat; published : list Entry }.
Record GetPhase := mkGet { get_ok : nat; get_fail : nat; get_corrupt : nat; local_gets : nat; remote_gets : nat }.

Inductive Verdict := Failed | PassedWithWarnings | Passed.

Section run.
Context {S : Type} `{Sha1, Cluster S}.

(** The nodes after the first bootstrap to it, twice. *)
Definition bootstrap_pass (s : S) : S := foldl (λ s i, cl_bootstrap i s) s (seq 1 (NUM_NODES - 1)).
Definition bootstrap_nodes (s : S) : S :=
  cl_sleep (300 * 1000000) (bootstrap_pass (cl_sleep (300 * 1000000) (bootstrap_pass s))).

(** A turn of the loop of phase 1. *)
Definition publish_turn (i : nat) (e : Entry) (st : S * SetPhase) : S * SetPhase :=
  let '(s, c) := st in
  let '(s, result) := cl_set (writer_of i) (en_key e) (en_record e) s in
  match result with
  | Some (Some true) => (s, mkSet (set_ok c + 1) (set_fail c) (published c ++ [e]))
  | _ => (s, mkSet (set_ok c) (set_fail c + 1) (published c))
  end.

Fixpoint publish_from (i : nat) (es : list Entry) (st : S * SetPhase) : S * SetPhase :=
  match es with
  | [] => st
  | e :: es' => publish_from (i + 1) es' (publish_turn i e st)
  end.

Definition publish_phase (es : list Entry) (s : S) : S * SetPhase := publish_from 0 es (s, mkSet 0 0 []).

(** A turn of the loop of phase 2, with the result of the read. *)
Definition retrieve_turn (i : nat) (e : Entry) (s : S) (c : GetPhase) : S * GetPhase * option (option bytes) :=
  let reader := reader_of i in
  let local_fast_path := cl_holds reader (en_key e) s in
  let '(locals, remotes) := if local_fast_path then (local_gets c + 1, remote_gets c) else (local_gets c, remote_gets c + 1) in
  let '(s, result) := cl_get reader (en_key e) s in
  (s,
   match result with
   | Some (Some retrieved) =>
       if bool_decide (retrieved = en_record e)
       then mkGet (get_ok c + 1) (get_fail c) (get_corrupt c) locals remotes
       else mkGet (get_ok c) (get_fail c) (get_corrupt c + 1) locals remotes
   | Some None | None => mkGet (get_ok c) (get_fail c + 1) (get_corrupt c) locals remotes
   end,
   result).

Fixpoint retrieve_from (i : nat) (es : list Entry) (s : S) (c : GetPhase)
    : S * GetPhase * list (Entry * option (option bytes)) :=
  match es with
  | [] => (s, c, [])
  | e :: es' =>
      let '(s, c, result) := retrieve_turn i e s c in
      let '(s, c, rest) := retrieve_from (i + 1) es' s c in
      (s, c, (e, result) :: rest)
  end.

Definition retrieve_phase (es : list Entry) (s : S) : S * GetPhase * list (Entry * option (option bytes)) :=
  retrieve_from 0 es s (mkGet 0 0 0 0 0).

(** ** The verdict *)

Definition set_status (c : SetPhase) : CheckStatus := if set_fail c =? 0 then Pass else Fail_.

Definition get_status (c : SetPhase) (g : GetPhase) : CheckStatus :=
  if (get_fail g =? 0) && (get_corrupt g =? 0) && (get_ok g =? set_ok c) then Pass else Fail_.

Definition convergence_status (converged : bool) : CheckStatus := if converged then Pass else Warn.

(** [contains]. *)
Definition has (x : CheckStatus) (l : list CheckStatus) : bool :=
  existsb (λ y, match x, y with Pass, Pass | Warn, Warn | Fail_, Fail_ => true | _, _ => false end) l.

Definition verdict_of (statuses : list CheckStatus) : Verdict :=
  if has Fail_ statuses then Failed else if has Warn statuses then PassedWithWarnings else Passed.

(** What the program found, and its verdict. *)
Record Analysis := mkAnalysis {
  an_set : SetPhase;
  an_get : GetPhase;
  an_reads : list (Entry * option (option bytes));
  an_holders : gmap bytes (list Z);
  an_replication : ReplicationReport;
  an_placement : PlacementReport;
  an_buckets : BucketReport;
  an_top_k : LocalTopKReport;
  an_verdict : Verdict
}.

(** [run], after the options. [converged] is the floating-point heuristic of
    [inspect_bucket_structure]. *)
Definition run_analysis (ksize : nat) (converged : BucketReport → bool) (usize_max : nat) (es : list Entry) (s : S)
    : Analysis :=
  let s := bootstrap_nodes s in
  let '(s, sets) := publish_phase es s in
  let '(s, gets, reads) := retrieve_phase (published sets) s in
  let positions := seq 0 NUM_NODES in
  let expected_keys := remove_dups ((λ e, ident_bytes (digest (en_key e))) <$> published sets) in
  let holders := collect_storage_layout ((λ i, (cl_keys i s, port_of i)) <$> positions) in
  let replication := replication_summary usize_max ksize holders expected_keys in
  let placement := verify_global_replica_placement ksize ((λ i, (cl_id i, port_of i)) <$> positions) holders
                     ((λ e, digest (en_key e)) <$> published sets) in
  let routers := (λ i, cl_router i s) <$> positions in
  let buckets := inspect_bucket_structure ksize routers in
  let top_k := verify_local_top_k ksize routers
                 ((λ e, (cl_time s, Node_from_id (digest (en_key e)))) <$> published sets) in
  mkAnalysis sets gets reads holders replication placement buckets top_k
    (verdict_of [set_status sets; get_status sets gets; replication_status replication; placement_status placement;
                 bucket_status buckets; local_top_k_status top_k; convergence_status (converged buckets)]).

End run.

(** ** What the counts say *)

(** A counter of a loop counts the elements that satisfy its condition. *)
Lemma counter_zero {R A} (step : R → A → R) (f : R → nat) (p : A → bool) r l :
  (∀ r x, f (step r x) = incr (p x) (f r)) → f r = 0 → f (foldl step r l) = 0 ↔ Forall (λ x, p x = false) l.
Proof.
  intros Hs. revert r. assert (∀ l r, f r ≤ f (foldl step r l)) as Hmono.
  { clear l. intros l. induction l as [|x l IH]; intros r; simpl; [lia|].
    specialize (IH (step r x)). rewrite Hs in IH. pose proof (incr_le (p x) (f r)). lia. }
  induction l as [|x l IH]; intros r Hr; simpl; [split; [constructor|done]|].
  rewrite Forall_cons. destruct (p x) eqn:Hp.
  - pose proof (Hmono l (step r x)) as Hm. rewrite Hs, Hp, Hr in Hm. simpl in Hm. split; [lia|by intros [? _]].
  - rewrite IH by by rewrite Hs, Hp. tauto.
Qed.

Lemma filter_none {A} (P : A → Prop) `{!∀ x, Decision (P x)} l : filter P l = [] ↔ Forall (λ x, ¬ P x) l.
Proof.
  split.
  - intros Hf. apply Forall_forall. intros x Hx HP. assert (x ∈ filter P l) as Hin by by apply list_elem_of_filter.
    rewrite Hf in Hin. set_solver.
  - intros Hf. induction Hf as [|x l Hx _ IH]; [done|]. rewrite filter_cons, IH. by rewrite decide_False.
Qed.

(** *** What the cluster was asked, and answered *)

Section made.
Context {S : Type} `{Sha1, Cluster S}.

(** The SETs from the [i]th on, each by the next of the 30 nodes. *)
Fixpoint sets_made (i : nat) (es : list Entry) (s : S) : S * list (option (option bool)) :=
  match es with
  | [] => (s, [])
  | e :: es' =>
      let '(s1, answer) := cl_set (i `mod` 30) (en_key e) (en_record e) s in
      let '(s2, answers) := sets_made (i + 1) es' s1 in (s2, answer :: answers)
  end.

(** The records whose SET was answered with [Ok(true)]. *)
Fixpoint accepted (es : list Entry) (answers : list (option (option bool))) : list Entry :=
  match es, answers with
  | e :: es', Some (Some true) :: answers' => e :: accepted es' answers'
  | _ :: es', _ :: answers' => accepted es' answers'
  | _, _ => []
  end.

(** The GETs from the [i]th on, each by the node opposite to the [i]th. *)
Fixpoint gets_made (i : nat) (es : list Entry) (s : S) : S * list (option (option bytes)) :=
  match es with
  | [] => (s, [])
  | e :: es' =>
      let '(s1, answer) := cl_get ((i + 15) `mod` 30) (en_key e) s in
      let '(s2, answers) := gets_made (i + 1) es' s1 in (s2, answer :: answers)
  end.

Definition returned (e : Entry) (answer : option (option bytes)) : Prop := answer = Some (Some (en_record e)).

Lemma publish_from_made i es s c :
  let '(s', answers) := sets_made i es s in
  let '(s'', c') := publish_from i es (s, c) in
  s'' = s' ∧ published c' = published c ++ accepted es answers ∧
  set_ok c' = set_ok c + length (accepted es answers) ∧ set_fail c ≤ set_fail c' ∧
  (set_fail c' = set_fail c ↔ Forall (λ a, a = Some (Some true)) answers).
Proof using.
  revert i s c. induction es as [|e es IH]; intros i s c.
  { simpl. rewrite app_nil_r. split_and!; try lia; done. }
  cbn [sets_made publish_from publish_turn]. unfold writer_of, NUM_NODES.
  destruct (cl_set (i `mod` 30) (en_key e) (en_record e) s) as [s1 r].
  set (c1 := match r with Some (Some true) => mkSet (set_ok c + 1) (set_fail c) (published c ++ [e])
    | _ => mkSet (set_ok c) (set_fail c + 1) (published c) end).
  replace (match r with Some (Some true) => _ | _ => _ end) with (s1, c1) by (unfold c1; by repeat case_match).
  specialize (IH (i + 1) s1 c1). destruct (sets_made (i + 1) es s1) as [s2 answers].
  destruct (publish_from (i + 1) es (s1, c1)) as [s2' c2]. destruct IH as (-> & Hp & Ho & Hle & Hf).
  rewrite Forall_cons, <-Hf. destruct r as [[[]|]|]; subst c1; cbn [accepted published set_ok set_fail length] in *;
    rewrite ?Hp, <-?(assoc_L (++)); split_and!; try done; try lia; naive_solver lia.
Qed.

Lemma retrieve_from_made i es s c :
  let '(s', answers) := gets_made i es s in
  let '(s'', c', reads) := retrieve_from i es s c in
  s'' = s' ∧ length answers = length es ∧
  get_ok c' + get_fail c' + get_corrupt c' = get_ok c + get_fail c + get_corrupt c + length es ∧
  get_fail c ≤ get_fail c' ∧ get_corrupt c ≤ get_corrupt c' ∧
  (get_fail c' = get_fail c ∧ get_corrupt c' = get_corrupt c ↔ Forall2 returned es answers).
Proof using.
  revert i s c. induction es as [|e es IH]; intros i s c.
  { simpl. split_and!; try lia; done. }
  cbn [gets_made retrieve_from]. unfold retrieve_turn, reader_of, NUM_NODES. change (30 / 2) with 15.
  set (path := if cl_holds _ _ _ then _ else _). destruct path as [locals remotes].
  destruct (cl_get ((i + 15) `mod` 30) (en_key e) s) as [s1 r]. set (c1 := match r with Some (Some _) => _ | _ => _ end).
  assert (get_ok c1 + get_fail c1 + get_corrupt c1 = 1 + (get_ok c + get_fail c + get_corrupt c) ∧
    get_fail c ≤ get_fail c1 ∧ get_corrupt c ≤ get_corrupt c1 ∧
    (get_fail c1 = get_fail c ∧ get_corrupt c1 = get_corrupt c ↔ returned e r)) as (T1 & T2 & T3 & T4).
  { unfold c1, returned. destruct r as [[x|]|]; try case_bool_decide; simpl; split_and!; try lia; naive_solver lia. }
  clearbody c1. specialize (IH (i + 1) s1 c1). destruct (gets_made (i + 1) es s1) as [s2 answers].
  destruct (retrieve_from (i + 1) es s1 c1) as [[s2' c2] reads]. destruct IH as (-> & Hl & Hsum & Hf & Hc & Hall).
  rewrite Forall2_cons, <-Hall, <-T4. cbn [length]. split_and!; try done; lia.
Qed.

(** The check of the reads. *)
Lemma get_status_made (sets : SetPhase) s :
  set_ok sets = length (published sets) →
  let '(s', answers) := gets_made 0 (published sets) s in
  let '(s'', c, _) := retrieve_phase (published sets) s in
  s'' = s' ∧ (get_status sets c = Pass ↔ Forall2 returned (published sets) answers).
Proof using.
  intros Hok. unfold retrieve_phase. pose proof (retrieve_from_made 0 (published sets) s (mkGet 0 0 0 0 0)) as Hr.
  destruct (gets_made 0 (published sets) s) as [s' answers].
  destruct (retrieve_from 0 (published sets) s _) as [[s'' c] reads].
  destruct Hr as (-> & _ & Hsum & _ & _ & <-). split; [done|]. unfold get_status. simpl in *.
  destruct (get_fail c =? 0) eqn:E1, (get_corrupt c =? 0) eqn:E2, (get_ok c =? set_ok sets) eqn:E3;
    bool_facts; simpl; split; try done; lia.
Qed.

(** *** Who holds a record *)

Definition holders (s : S) (key : ident) : list nat := filter (λ i, ident_bytes key ∈ cl_keys i s) (seq 0 30).

(** Fewer than [k] nodes are closer to the key than the node [i]. *)
Definition id_distance_of (key : ident) (i : nat) : Z := distance_to (Node_from_id (cl_id i)) (Node_from_id key).

Definition near (k : nat) (key : ident) (i : nat) : Prop :=
  i < 30 ∧ length (filter (λ j, (id_distance_of key j < id_distance_of key i)%Z) (seq 0 30)) < k.

Definition layout (s : S) : gmap bytes (list Z) :=
  collect_storage_layout ((λ i, (cl_keys i s, port_of i)) <$> seq 0 NUM_NODES).

Lemma layout_holders s key :
  (∀ i, NoDup (cl_keys i s)) → default [] (layout s !! ident_bytes key) = port_of <$> holders s key.
Proof using.
  intros Hnd. unfold layout, collect_storage_layout, holders, NUM_NODES. set (kb := ident_bytes key).
  assert (∀ (p : Z) keys (m : gmap bytes (list Z)), NoDup keys →
    default [] (foldl (λ m key, partial_alter (λ o, Some (default [] o ++ [p])) key m) m keys !! kb) =
    default [] (m !! kb) ++ if decide (kb ∈ keys) then [p] else []) as Hin.
  { intros p keys. induction keys as [|x keys IH]; intros m Hk; simpl; [by rewrite app_nil_r|].
    apply NoDup_cons in Hk as [Hx Hk]. rewrite IH by done. destruct (decide (x = kb)) as [->|Hne].
    - rewrite lookup_partial_alter_eq. simpl. rewrite (decide_False (P := kb ∈ keys)), decide_True by (done || by left).
      by rewrite app_nil_r.
    - rewrite lookup_partial_alter_ne by done. f_equal. apply decide_ext. rewrite elem_of_cons. naive_solver. }
  assert (∀ (m : gmap bytes (list Z)) l,
    default [] (foldl (λ m e, foldl (λ m key, partial_alter (λ o, Some (default [] o ++ [e.2])) key m) m e.1) m
      ((λ i, (cl_keys i s, port_of i)) <$> l) !! kb) =
    default [] (m !! kb) ++ (port_of <$> filter (λ i, kb ∈ cl_keys i s) l)) as Hout.
  { intros m l. revert m. induction l as [|i l IH]; intros m; [by rewrite app_nil_r|].
    rewrite fmap_cons. cbn [foldl]. rewrite IH. cbn [fst snd]. rewrite Hin by done. rewrite filter_cons, <-(assoc_L (++)).
    by destruct (decide (kb ∈ cl_keys i s)). }
  by rewrite Hout, lookup_empty.
Qed.

End made.

(** The elements of a sorted list, by how many are less. *)
Lemma sorted_rank {A} (key : A → Z) l n x :
  StronglySorted (key_lt key) l → l !! n = Some x → length (filter (λ y, (key y < key x)%Z) l) = n.
Proof.
  intros Hs. revert n. induction Hs as [|y l Hs IH Hall]; intros n Hn; [done|]. rewrite filter_cons.
  destruct n as [|n]; simpl in Hn.
  - injection Hn as ->. rewrite decide_False by lia. apply length_zero_iff_nil, filter_none.
    eapply Forall_impl; [exact Hall|]. unfold key_lt. intros z Hz. lia.
  - rewrite Forall_forall in Hall. specialize (Hall x ltac:(by eapply list_elem_of_lookup_2)). unfold key_lt in Hall.
    rewrite decide_True by done. simpl. f_equal. by apply IH.
Qed.

Lemma take_sort_rank {A} (key : A → Z) k l x :
  NoDup (key <$> l) →
  x ∈ take k (sort_by_key key l) ↔ x ∈ l ∧ length (filter (λ y, (key y < key x)%Z) l) < k.
Proof.
  intros Hnd. assert (StronglySorted (key_lt key) (sort_by_key key l)) as Hs.
  { apply sorted_strict; [apply sort_by_key_sorted|]. by rewrite sort_by_key_perm. }
  assert (length (filter (λ y, (key y < key x)%Z) l) = length (filter (λ y, (key y < key x)%Z) (sort_by_key key l))) as ->
    by (by rewrite sort_by_key_perm).
  rewrite elem_of_take, <-(elem_of_sort_by_key key). split.
  - intros (n & Hn & Hk). rewrite (sorted_rank key _ n x Hs Hn). split; [by eapply list_elem_of_lookup_2|done].
  - intros [[n Hn]%list_elem_of_lookup Hk]. rewrite (sorted_rank key _ n x Hs Hn) in Hk. eauto.
Qed.

(** ** Copies *)

Definition copies (holders : gmap bytes (list Z)) (key : bytes) : nat := length (default [] (holders !! key)).

Lemma replication_fails m k holders keys :
  0 < k → replication_status (replication_summary m k holders keys) ≠ Fail_ ↔ Forall (λ key, copies holders key ≠ 0) keys.
Proof.
  intros Hk. unfold replication_status, replication_summary.
  set (r := foldl _ _ keys). assert (zero_copies r = 0 ↔ Forall (λ key, copies holders key ≠ 0) keys) as Hz.
  { unfold r. rewrite (counter_zero _ zero_copies
      (λ key, (copies holders key <? k) && (copies holders key =? 0))); [|done|done].
    apply Forall_iff. intros key. destruct (copies holders key); simpl; [|by rewrite andb_false_r].
    rewrite (proj2 (Nat.ltb_lt 0 k)) by done. done. }
  rewrite <- Hz. destruct (length keys =? 0); simpl; destruct (0 <? zero_copies r) eqn:E; bool_facts;
    split; try lia; try done; by case_match.
Qed.

Lemma replication_passes m k holders keys :
  0 < k → replication_status (replication_summary m k holders keys) = Pass ↔ Forall (λ key, copies holders key = k) keys.
Proof.
  intros Hk. unfold replication_status, replication_summary. set (r := foldl _ _ keys).
  assert (under_replicated r = 0 ↔ Forall (λ key, (copies holders key <? k) = false) keys) as Hu
    by (unfold r; by rewrite (counter_zero _ under_replicated (λ key, copies holders key <? k))).
  assert (over_replicated r = 0 ↔ Forall (λ key, (k <? copies holders key) = false) keys) as Ho
    by (unfold r; by rewrite (counter_zero _ over_replicated (λ key, k <? copies holders key))).
  assert (zero_copies r = 0 ↔ Forall (λ key, ((copies holders key <? k) && (copies holders key =? 0)) = false) keys) as Hz
    by (unfold r; by rewrite (counter_zero _ zero_copies (λ key, (copies holders key <? k) && (copies holders key =? 0)))).
  assert (Forall (λ key, copies holders key = k) keys ↔
    under_replicated r = 0 ∧ over_replicated r = 0 ∧ zero_copies r = 0) as ->.
  { rewrite Hu, Ho, Hz, <- !Forall_and. apply Forall_iff. intros key. rewrite !Nat.ltb_ge.
    split; [intros ->; rewrite Nat.ltb_irrefl; lia|]. lia. }
  destruct (length keys =? 0); simpl; destruct (0 <? zero_copies r) eqn:E1, (0 <? under_replicated r) eqn:E2,
    (0 <? over_replicated r) eqn:E3; bool_facts; simpl; split; try done; lia.
Qed.

(** One of the closest nodes holds a copy, or all of them do. *)
Definition placed (k : nat) (node_ids : list (ident * Z)) (holders : gmap bytes (list Z)) (dkey : ident) : Prop :=
  Forall (λ p, p ∈ default [] (holders !! ident_bytes dkey)) (closest_ports k node_ids dkey) ∨
  Exists (λ p, p ∈ default [] (holders !! ident_bytes dkey)) (closest_ports k node_ids dkey).

(** The holders are the closest nodes. *)
Definition placed_exactly (k : nat) (node_ids : list (ident * Z)) (holders : gmap bytes (list Z)) (dkey : ident) : Prop :=
  ∀ p, p ∈ default [] (holders !! ident_bytes dkey) ↔ p ∈ closest_ports k node_ids dkey.

Section placement.
Context (k : nat) (node_ids : list (ident * Z)) (holders : gmap bytes (list Z)).
Abbreviation held dkey := (default [] (holders !! ident_bytes dkey)).
Abbreviation closest dkey := (closest_ports k node_ids dkey).

Lemma missing_none dkey : filter (λ p, p ∉ held dkey) (closest dkey) = [] ↔ Forall (λ p, p ∈ held dkey) (closest dkey).
Proof using.
  rewrite filter_none. apply Forall_iff. intros p. destruct (decide (p ∈ held dkey)); tauto.
Qed.

Lemma holding_none dkey : filter (λ p, p ∈ held dkey) (closest dkey) = [] ↔ ¬ Exists (λ p, p ∈ held dkey) (closest dkey).
Proof using.
  rewrite filter_none. split.
  { intros Hf (p & Hp & Hh)%Exists_exists. rewrite Forall_forall in Hf. by apply (Hf p). }
  intros He. apply Forall_forall. intros p Hp Hh. apply He, Exists_exists. by exists p.
Qed.

Lemma placement_fails keys :
  placement_status (verify_global_replica_placement k node_ids holders keys) ≠ Fail_ ↔
  Forall (placed k node_ids holders) keys.
Proof using.
  unfold placement_status, verify_global_replica_placement. set (r := foldl _ _ keys).
  assert (none r = 0 ↔ Forall (placed k node_ids holders) keys) as <-.
  { unfold r. rewrite (counter_zero _ none (λ dkey,
      negb (bool_decide (filter (λ p, p ∉ held dkey) (closest dkey) = [])) &&
      bool_decide (filter (λ p, p ∈ held dkey) (closest dkey) = []))); [|done|done].
    apply Forall_iff. intros dkey. unfold placed. rewrite <- missing_none.
    assert (Exists (λ p, p ∈ held dkey) (closest dkey) ↔ filter (λ p, p ∈ held dkey) (closest dkey) ≠ []) as ->.
    { destruct (decide (Exists (λ p, p ∈ held dkey) (closest dkey))) as [He|He]; rewrite holding_none; tauto. }
    repeat case_bool_decide; simpl; naive_solver. }
  destruct (0 <? none r) eqn:E; bool_facts; split; try lia; try done; by case_match.
Qed.

Lemma placement_passes keys :
  placement_status (verify_global_replica_placement k node_ids holders keys) = Pass ↔
  Forall (placed_exactly k node_ids holders) keys.
Proof using.
  unfold placement_status, verify_global_replica_placement. set (r := foldl _ _ keys).
  assert (none r = 0 ↔ Forall (λ dkey, negb (bool_decide (filter (λ p, p ∉ held dkey) (closest dkey) = [])) &&
      bool_decide (filter (λ p, p ∈ held dkey) (closest dkey) = []) = false) keys) as Hn
    by (unfold r; by rewrite (counter_zero _ none (λ dkey,
      negb (bool_decide (filter (λ p, p ∉ held dkey) (closest dkey) = [])) &&
      bool_decide (filter (λ p, p ∈ held dkey) (closest dkey) = [])))).
  assert (partial r = 0 ↔ Forall (λ dkey, negb (bool_decide (filter (λ p, p ∉ held dkey) (closest dkey) = [])) &&
      negb (bool_decide (filter (λ p, p ∈ held dkey) (closest dkey) = [])) = false) keys) as Hp
    by (unfold r; by rewrite (counter_zero _ partial (λ dkey,
      negb (bool_decide (filter (λ p, p ∉ held dkey) (closest dkey) = [])) &&
      negb (bool_decide (filter (λ p, p ∈ held dkey) (closest dkey) = []))))).
  assert (with_extras r = 0 ↔
    Forall (λ dkey, negb (bool_decide (filter (λ p, p ∉ closest dkey) (held dkey) = [])) = false) keys) as He
    by (unfold r; by rewrite (counter_zero _ with_extras (λ dkey,
      negb (bool_decide (filter (λ p, p ∉ closest dkey) (held dkey) = []))))).
  assert (Forall (placed_exactly k node_ids holders) keys ↔ none r = 0 ∧ partial r = 0 ∧ with_extras r = 0) as ->.
  { rewrite Hn, Hp, He, <- !Forall_and. apply Forall_iff. intros dkey. unfold placed_exactly.
    assert (filter (λ p, p ∉ closest dkey) (held dkey) = [] ↔ Forall (λ p, p ∈ closest dkey) (held dkey)) as Hx.
    { rewrite filter_none. apply Forall_iff. intros p. destruct (decide (p ∈ closest dkey)); tauto. }
    assert ((∀ p, p ∈ held dkey ↔ p ∈ closest dkey) ↔
      filter (λ p, p ∉ held dkey) (closest dkey) = [] ∧ filter (λ p, p ∉ closest dkey) (held dkey) = []) as ->.
    { rewrite missing_none, Hx, !Forall_forall. split; [intros Hp'; split; intros p; apply Hp'|].
      intros [H1 H2] p. split; [apply H2|apply H1]. }
    clear Hx. do 3 case_bool_decide; simpl; intuition congruence. }
  destruct (0 <? none r) eqn:E1, (0 <? partial r) eqn:E2, (0 <? with_extras r) eqn:E3; bool_facts; simpl;
    split; try done; lia.
Qed.

End placement.

(** ** Theorem *)

Lemma verdict_failed statuses : verdict_of statuses = Failed ↔ ¬ Forall (λ x, x ≠ Fail_) statuses.
Proof.
  unfold verdict_of, has. destruct (existsb _ statuses) eqn:E.
  - split; [|done]. intros _ Hf. apply existsb_exists in E as (x & Hx & Hb). rewrite Forall_forall in Hf.
    apply (Hf x); [by apply list_elem_of_In|by destruct x].
  - split; [by case_match|]. intros Hf. exfalso. apply Hf, Forall_forall. intros x Hx ->.
    apply not_true_iff_false in E. apply E, existsb_exists. exists Fail_. split; [by apply list_elem_of_In|done].
Qed.

Lemma verdict_passed statuses : verdict_of statuses = Passed ↔ Forall (λ x, x = Pass) statuses.
Proof.
  unfold verdict_of, has. induction statuses as [|x l IH]; simpl; [split; [constructor|done]|].
  rewrite Forall_cons. destruct x; simpl; [rewrite IH; tauto|..].
  - split; [by case_match|by intros [? _]].
  - split; [done|by intros [? _]].
Qed.

Lemma status_no_fail (b : bool) : (if b then Pass else Fail_) ≠ Fail_ ↔ b = true.
Proof. destruct b; naive_solver. Qed.

Lemma status_pass (b : bool) : (if b then Pass else Fail_) = Pass ↔ b = true.
Proof. destruct b; naive_solver. Qed.

(** *** The checks, on the state of the cluster *)

Lemma sort_by_key_fmap {A B} (key : A → Z) (f : A → B) l :
  sort_by_key fst ((λ x, (key x, f x)) <$> l) = (λ x, (key x, f x)) <$> sort_by_key key l.
Proof.
  assert (∀ x l', insert_by_key fst (key x, f x) ((λ x, (key x, f x)) <$> l') =
    (λ x, (key x, f x)) <$> insert_by_key key x l') as Hins.
  { intros x l'. induction l' as [|y l' IH]; csimpl; [done|]. case_match; csimpl; [done|]. by rewrite IH. }
  induction l as [|x l IH]; csimpl; [done|]. by rewrite IH, Hins.
Qed.

Lemma port_of_inj i j : port_of i = port_of j → i = j.
Proof. unfold port_of. lia. Qed.

Lemma elem_of_ports i (l : list nat) : port_of i ∈ port_of <$> l ↔ i ∈ l.
Proof.
  rewrite list_elem_of_fmap. split; [intros (j & ->%port_of_inj & Hj); done|]. intros Hi. by exists i.
Qed.

Section checks.
Context {S : Type} `{Sha1, Cluster S} (k : nat) (s : S).
Context (Hk : 0 < k) (Hids : ∀ i j, i < 30 → j < 30 → cl_id i = cl_id j → i = j) (Hkeys : ∀ i, NoDup (cl_keys i s)).

Abbreviation node_ids := ((λ i, (cl_id i, port_of i)) <$> seq 0 NUM_NODES).

Lemma closest_near key i : port_of i ∈ closest_ports k node_ids key ↔ near k key i.
Proof using Hk Hids.
  unfold closest_ports. rewrite <-list_fmap_compose.
  change (((λ e : ident * Z, (distance_to (Node_from_id e.1) (Node_from_id key), e.2)) ∘ λ i, (cl_id i, port_of i)))
    with (λ i, (id_distance_of key i, port_of i)).
  rewrite sort_by_key_fmap, <-list_fmap_compose, <-fmap_take. change (snd ∘ _) with port_of.
  rewrite elem_of_ports, take_sort_rank.
  - unfold near. rewrite elem_of_seq. unfold NUM_NODES. split; intros [? ?]; split; try done; lia.
  - apply NoDup_fmap_2_strong; [|apply NoDup_seq]. intros x y Hx%elem_of_seq Hy%elem_of_seq E.
    unfold NUM_NODES in *. apply Hids; [lia..|]. unfold id_distance_of in E.
    assert (∀ a b : Node, distance_to a b = distance_to b a) as Hc by (intros; apply Z.lxor_comm).
    rewrite (Hc (Node_from_id (cl_id x))), (Hc (Node_from_id (cl_id y))) in E. by apply distance_to_inj in E.
Qed.

Lemma closest_port key p : p ∈ closest_ports k node_ids key → ∃ i, p = port_of i ∧ near k key i.
Proof using Hk Hids.
  intros Hp. assert (∃ i, p = port_of i) as [i ->]; [|exists i; split; [done|]; by apply closest_near].
  unfold closest_ports in Hp. rewrite <-list_fmap_compose in Hp. apply elem_of_take in Hp as (n & Hn & _).
  apply list_lookup_fmap_Some_1 in Hn as (e & -> & He). apply list_elem_of_lookup_2, elem_of_sort_by_key in He.
  apply list_elem_of_fmap in He as (i & -> & _). by exists i.
Qed.

(** Somebody is near. *)
Lemma someone_near key : ∃ i, near k key i.
Proof using Hk Hids.
  assert (closest_ports k node_ids key ≠ []) as Hne.
  { intros E. apply (f_equal length) in E. unfold closest_ports in E.
    rewrite length_take, length_fmap, length_sort_by_key, !length_fmap, length_seq in E. simpl in E. unfold NUM_NODES in E. lia. }
  destruct (closest_ports k node_ids key) as [|p l] eqn:E; [done|].
  destruct (closest_port key p) as (i & _ & Hi); [rewrite E; by left|]. by exists i.
Qed.

Lemma placed_near key :
  placed k node_ids (layout s) key ↔ ∃ i, i ∈ holders s key ∧ near k key i.
Proof using Hk Hids Hkeys.
  unfold placed. rewrite layout_holders by done. split.
  - intros [Hf|(p & Hp & Hh)%Exists_exists].
    + destruct (someone_near key) as [i Hi]. exists i. split; [|done]. rewrite Forall_forall in Hf.
      apply elem_of_ports, Hf. by apply closest_near.
    + apply closest_port in Hp as (i & -> & Hi). exists i. by rewrite elem_of_ports in Hh.
  - intros (i & Hh & Hi). right. apply Exists_exists. exists (port_of i). rewrite elem_of_ports, closest_near. done.
Qed.

Lemma placed_exactly_near key :
  placed_exactly k node_ids (layout s) key ↔ ∀ i, i ∈ holders s key ↔ near k key i.
Proof using Hk Hids Hkeys.
  unfold placed_exactly. rewrite layout_holders by done. split.
  - intros Hp i. by rewrite <-closest_near, <-elem_of_ports.
  - intros Hi p. split.
    + intros (i & -> & Hh)%list_elem_of_fmap. by apply closest_near, Hi.
    + intros (i & -> & Hn)%closest_port. by apply elem_of_ports, Hi.
Qed.

Lemma copies_holders key : copies (layout s) (ident_bytes key) = length (holders s key).
Proof using Hkeys. unfold copies. rewrite layout_holders by done. apply length_fmap. Qed.

(** The keys expected are those of the records. *)
Lemma expected_keys_all es (Q : bytes → Prop) :
  Forall Q (remove_dups ((λ e, ident_bytes (digest (en_key e))) <$> es)) ↔
  Forall (λ e, Q (ident_bytes (digest (en_key e)))) es.
Proof using.
  rewrite !Forall_forall. setoid_rewrite elem_of_remove_dups. split.
  - intros HQ e He. apply HQ, list_elem_of_fmap. by exists e.
  - intros HQ x (e & -> & He)%list_elem_of_fmap. by apply HQ.
Qed.

Lemma copies_all es (Q : nat → Prop) :
  Forall (λ key, Q (copies (layout s) key)) (remove_dups ((λ e, ident_bytes (digest (en_key e))) <$> es)) ↔
  ∀ e, e ∈ es → Q (length (holders s (digest (en_key e)))).
Proof using Hkeys.
  rewrite expected_keys_all, Forall_forall. by setoid_rewrite copies_holders.
Qed.

End checks.

(** A table without violations: its buckets partition the keys and hold at most
    [k] contacts each, of their range, all distinct and none the node itself. *)
Definition table_sound (k : nat) (rt : RoutingTable.t) : Prop :=
  buckets_ok k (id (RoutingTable.node rt)) 0 ∅ (RoutingTable.buckets rt) ∧
  ∃ b, last (RoutingTable.buckets rt) = Some b ∧ (KBucket.range b).2 = KEY_MAX.

(** The local searches, one after the other, find the closest of all contacts. *)
Fixpoint searches_exact (k : nat) (now : Z) (rt : RoutingTable.t) (keys : list ident) : Prop :=
  match keys with
  | [] => True
  | key :: keys' =>
      let target := Node_from_id key in
      let '(found, rt') := RoutingTable.find_neighbors now rt target None in
      ids found = ids (take k (sort_by_key (λ p, distance_to p target)
        (filter (λ p, id p ≠ key) (RoutingTable.primaries rt)))) ∧
      searches_exact k now rt' keys'
  end.

Lemma check_table_sound k rt : check_table k rt = 0 ↔ table_sound k rt.
Proof. apply check_table_zero. Qed.

Lemma peers_counted rt :
  foldr Nat.add 0 (KBucket.len <$> RoutingTable.buckets rt) = length (RoutingTable.primaries rt).
Proof.
  unfold RoutingTable.primaries. induction (RoutingTable.buckets rt) as [|b bs IH]; [done|].
  rewrite fmap_cons. simpl. by rewrite length_app, IH.
Qed.

Lemma inspect_totals k routers r :
  let r' := foldl (inspect_node k) r routers in
  violations r ≤ violations r' ∧
  (violations r' = violations r ↔ ∃ rts, routers = Some <$> rts ∧ Forall (table_sound k) rts) ∧
  ∀ rts, routers = Some <$> rts → Forall (table_sound k) rts →
    r' = mkBuckets (br_nodes r + length rts) (br_buckets r + sum_list ((λ rt, length (RoutingTable.buckets rt)) <$> rts))
      (br_peers r + sum_list ((λ rt, length (RoutingTable.primaries rt)) <$> rts)) (violations r).
Proof.
  revert r. induction routers as [|o routers IH]; intros r; simpl.
  { split; [lia|]. split; [split; [intros _; by exists []|done]|]. intros [|rt rts] Hr _; [|done].
    destruct r. simpl. f_equal; lia. }
  specialize (IH (inspect_node k r o)). simpl in IH. destruct IH as (Hle & Hiff & Htot).
  destruct o as [rt|]; cbn [inspect_node violations br_nodes br_buckets br_peers] in *.
  2:{ split; [lia|]. split; [|by intros [|]]. split; [lia|]. by intros ([|] & ? & _). }
  split; [lia|]. split.
  - split.
    + intros E. assert (check_table k rt = 0) as Hc by lia. destruct (proj1 Hiff) as (rts & -> & Hs); [lia|].
      exists (rt :: rts). split; [done|]. constructor; [by apply check_table_sound|done].
    + intros ([|rt' rts] & E & Hs); [done|]. rewrite fmap_cons in E. injection E as <- ->.
      apply Forall_cons in Hs as [Hs%check_table_sound Hss]. rewrite (proj2 Hiff); [lia|]. by exists rts.
  - intros [|rt' rts] E Hs; [done|]. rewrite fmap_cons in E. injection E as <- E.
    apply Forall_cons in Hs as [Hs%check_table_sound Hss]. rewrite (Htot rts E Hss), Hs. cbn [br_nodes br_buckets br_peers violations].
    rewrite peers_counted. rewrite !fmap_cons. f_equal; simpl; lia.
Qed.

Lemma inspect_sound k routers :
  (violations (inspect_bucket_structure k routers) = 0 ↔
    ∃ rts, routers = Some <$> rts ∧ Forall (table_sound k) rts) ∧
  ∀ rts, routers = Some <$> rts → Forall (table_sound k) rts →
    inspect_bucket_structure k routers =
      mkBuckets (length rts) (sum_list ((λ rt, length (RoutingTable.buckets rt)) <$> rts))
        (sum_list ((λ rt, length (RoutingTable.primaries rt)) <$> rts)) 0.
Proof.
  unfold inspect_bucket_structure. destruct (inspect_totals k routers (mkBuckets 0 0 0 0)) as (_ & Hv & Htot).
  split; [exact Hv|exact Htot].
Qed.

Lemma check_targets_exact k now keys rt r :
  let r' := (foldl (check_target k) (rt, r) ((λ key, (now, Node_from_id key)) <$> keys)).2 in
  mismatches r ≤ mismatches r' ∧ (mismatches r' = mismatches r ↔ searches_exact k now rt keys).
Proof.
  revert rt r. induction keys as [|key keys IH]; intros rt r; [done|].
  rewrite fmap_cons. cbn [foldl searches_exact]. set (best := take k _).
  assert (check_target k (rt, r) (now, Node_from_id key) =
    let '(found, rt') := RoutingTable.find_neighbors now rt (Node_from_id key) None in
    (rt', mkTopK (S (queries r)) (incr (negb (bool_decide (ids found = ids best))) (mismatches r)))) as ->.
  { unfold check_target. cbn [fst snd]. replace (expected_neighbors k rt (Node_from_id key)) with best; [done|].
    unfold expected_neighbors. rewrite <-fmap_take. symmetry.
    apply (take_sort_decorate (λ p, distance_to p (Node_from_id key))). }
  destruct (RoutingTable.find_neighbors now rt (Node_from_id key) None) as [found rt'].
  destruct (IH rt' (mkTopK (S (queries r)) (incr (negb (bool_decide (ids found = ids best))) (mismatches r)))) as [Hle <-].
  cbn [mismatches] in *. case_bool_decide; simpl in *; [tauto|]. split; [lia|]. split; [lia|tauto].
Qed.

Lemma top_k_exact k now keys rts r :
  let r' := foldl (check_router k ((λ key, (now, Node_from_id key)) <$> keys)) r (Some <$> rts) in
  mismatches r ≤ mismatches r' ∧
  (mismatches r' = mismatches r ↔ Forall (λ rt, searches_exact k now rt keys) rts).
Proof.
  revert r. induction rts as [|rt rts IH]; intros r; [split; [done|]; split; [constructor|done]|].
  rewrite fmap_cons. cbn [foldl check_router].
  destruct (check_targets_exact k now keys rt r) as [Hle1 Hiff1].
  destruct (IH (foldl (check_target k) (rt, r) ((λ key, (now, Node_from_id key)) <$> keys)).2) as [Hle2 Hiff2].
  split; [lia|]. rewrite Forall_cons, <-Hiff1, <-Hiff2. lia.
Qed.

(** The tables of the cluster are those of [rts], sound, and searched exactly. *)
Definition tables_sound {S} `{Cluster S} (k : nat) (s : S) (keys : list ident) (rts : list RoutingTable.t) : Prop :=
  (λ i, cl_router i s) <$> seq 0 30 = Some <$> rts ∧
  Forall (λ rt, table_sound k rt ∧ searches_exact k (cl_time s) rt keys) rts.

(** What the report of the buckets says of sound tables. *)
Definition sizes (rts : list RoutingTable.t) : BucketReport :=
  mkBuckets 30 (sum_list ((λ rt, length (RoutingTable.buckets rt)) <$> rts))
    (sum_list ((λ rt, length (RoutingTable.primaries rt)) <$> rts)) 0.

Lemma tables_checks {S} `{Cluster S} k (s : S) es (conv : BucketReport → bool) `{Sha1} :
  let routers := (λ i, cl_router i s) <$> seq 0 NUM_NODES in
  let keys := (λ e, digest (en_key e)) <$> es in
  let buckets := inspect_bucket_structure k routers in
  let top_k := verify_local_top_k k routers ((λ e, (cl_time s, Node_from_id (digest (en_key e)))) <$> es) in
  (violations buckets = 0 ∧ mismatches top_k = 0 ↔ ∃ rts, tables_sound k s keys rts) ∧
  (violations buckets = 0 ∧ mismatches top_k = 0 ∧ conv buckets = true ↔
    ∃ rts, tables_sound k s keys rts ∧ conv (sizes rts) = true).
Proof.
  intros routers keys buckets top_k. destruct (inspect_sound k routers) as [Hv Htot].
  change (inspect_bucket_structure k routers) with buckets in Hv, Htot. clearbody buckets.
  assert (∀ rts, routers = Some <$> rts →
    (mismatches top_k = 0 ↔ Forall (λ rt, searches_exact k (cl_time s) rt keys) rts)) as Hm.
  { intros rts E. unfold top_k, verify_local_top_k. rewrite E.
    replace ((λ e, (cl_time s, Node_from_id (digest (en_key e)))) <$> es) with ((λ key, (cl_time s, Node_from_id key)) <$> keys)
      by (unfold keys; by rewrite <-list_fmap_compose).
    apply (top_k_exact k (cl_time s) keys rts (mkTopK 0 0)). }
  assert (∀ rts, routers = Some <$> rts → length rts = 30) as Hlen.
  { intros rts E. apply (f_equal length) in E. unfold routers in E. rewrite !length_fmap, length_seq in E. done. }
  assert (∀ rts, tables_sound k s keys rts ↔
    routers = Some <$> rts ∧ Forall (table_sound k) rts ∧ mismatches top_k = 0) as Hts.
  { intros rts. unfold tables_sound. rewrite Forall_and. change ((λ i, cl_router i s) <$> seq 0 30) with routers.
    split; intros (E & H1 & H2); (split; [done|]; split; [done|]); by apply (Hm rts E). }
  assert (violations buckets = 0 ∧ mismatches top_k = 0 ↔ ∃ rts, tables_sound k s keys rts) as Hfirst.
  { rewrite Hv. setoid_rewrite Hts. naive_solver. }
  split; [done|]. transitivity ((violations buckets = 0 ∧ mismatches top_k = 0) ∧ conv buckets = true); [tauto|].
  rewrite Hfirst. split.
  - intros [[rts Hr] Hc]. exists rts. split; [done|]. apply Hts in Hr as (E & Hs & _).
    rewrite (Htot rts E Hs) in Hc. rewrite (Hlen rts E) in Hc. done.
  - intros (rts & Hr & Hc). split; [by exists rts|]. apply Hts in Hr as (E & Hs & _).
    rewrite (Htot rts E Hs), (Hlen rts E). done.
Qed.

Lemma both_all {A} (l : list A) (P Q : A → Prop) :
  (∀ x, x ∈ l → P x ∧ Q x) ↔ (∀ x, x ∈ l → P x) ∧ (∀ x, x ∈ l → Q x).
Proof. split; [intros Hx; split; intros x Hin; by apply Hx|intros [HP HQ] x Hin; split; auto]. Qed.

(** C34: the verdict of the topology analysis means what it says of the cluster.
    Whatever the cluster answers, where the ids of its nodes are distinct and no
    node lists a key twice: the SETs go round the nodes, and each record whose SET
    was accepted is read by the node half way round. The run fails exactly when
    some SET was not accepted, some GET did not return the record that was set, a
    node has no routing table, or one that is not sound or whose local searches
    miss a contact, or a record is held by none of the [k] nodes closest to its
    key. It passes without warnings exactly when, besides, each record is held by
    [k] nodes, which are the [k] closest, and the heuristic finds the sizes of the
    tables converged. *)
Theorem verdict_is_exact {S : Type} `{Sha1, Cluster S} (ksize : nat) (converged : BucketReport → bool)
    (usize_max : nat) (es : list Entry) (s : S) (Hk : 0 < ksize)
    (Hids : ∀ i j, i < 30 → j < 30 → cl_id i = cl_id j → i = j) (Hkeys : ∀ i (s : S), NoDup (cl_keys i s)) :
  let '(s1, set_answers) := sets_made 0 es (bootstrap_nodes s) in
  let stored := accepted es set_answers in
  let '(s2, get_answers) := gets_made 0 stored s1 in
  let keys := (λ e, digest (en_key e)) <$> stored in
  let complete := Forall (λ a, a = Some (Some true)) set_answers ∧ Forall2 returned stored get_answers in
  let verdict := an_verdict (run_analysis ksize converged usize_max es s) in
  (verdict = Failed ↔
    ¬ (complete ∧ (∃ rts, tables_sound ksize s2 keys rts) ∧
       ∀ e, e ∈ stored → ∃ i, i ∈ holders s2 (digest (en_key e)) ∧ near ksize (digest (en_key e)) i)) ∧
  (verdict = Passed ↔
    complete ∧ (∃ rts, tables_sound ksize s2 keys rts ∧ converged (sizes rts) = true) ∧
    ∀ e, e ∈ stored → length (holders s2 (digest (en_key e))) = ksize ∧
      ∀ i, i ∈ holders s2 (digest (en_key e)) ↔ near ksize (digest (en_key e)) i).
Proof.
  unfold run_analysis, publish_phase. pose proof (publish_from_made 0 es (bootstrap_nodes s) (mkSet 0 0 [])) as Hsets.
  destruct (sets_made 0 es (bootstrap_nodes s)) as [s1 set_answers].
  destruct (publish_from 0 es (bootstrap_nodes s, mkSet 0 0 [])) as [s1' sets]. destruct Hsets as (-> & Hp & Ho & _ & Hf).
  simpl in Hp, Ho, Hf. cbv zeta. rewrite <-Hp in *. pose proof (get_status_made sets s1 Ho) as Hgets.
  destruct (gets_made 0 (published sets) s1) as [s2 get_answers].
  destruct (retrieve_phase (published sets) s1) as [[s2' gets] reads]. destruct Hgets as [-> Hget].
  pose proof (tables_checks ksize s2 (published sets) converged) as [Ht Htc].
  cbv zeta. cbn [an_verdict]. fold (layout s2). split.
  - rewrite verdict_failed, !Forall_cons, Forall_nil, replication_fails, placement_fails by exact Hk.
    rewrite (copies_all s2 (λ i, Hkeys i s2) (published sets) (λ n, n ≠ 0)), Forall_fmap, Forall_forall. unfold compose.
    assert (get_status sets gets ≠ Fail_ ↔ Forall2 returned (published sets) get_answers) as ->
      by (rewrite <-Hget; unfold get_status; rewrite status_no_fail, status_pass; done).
    assert (∀ b, convergence_status b ≠ Fail_ ↔ True) as -> by (by intros []).
    unfold set_status, bucket_status, local_top_k_status. rewrite !status_no_fail, !Nat.eqb_eq, Hf, <-Ht.
    setoid_rewrite (placed_near ksize s2 Hk Hids (λ i, Hkeys i s2)).
    assert ((∀ e, e ∈ published sets → ∃ i, i ∈ holders s2 (digest (en_key e)) ∧ near ksize (digest (en_key e)) i) →
      ∀ e, e ∈ published sets → length (holders s2 (digest (en_key e))) ≠ 0) as Hheld; [|tauto].
    intros Hall e He Hz. destruct (Hall e He) as (i & Hi & _). apply nil_length_inv in Hz. rewrite Hz in Hi. set_solver.
  - rewrite verdict_passed, !Forall_cons, Forall_nil, replication_passes, placement_passes, Hget by exact Hk.
    rewrite (copies_all s2 (λ i, Hkeys i s2) (published sets) (λ n, n = ksize)), Forall_fmap, Forall_forall. unfold compose.
    assert (∀ b, convergence_status b = Pass ↔ b = true) as -> by (intros []; naive_solver).
    unfold set_status, bucket_status, local_top_k_status. rewrite !status_pass, !Nat.eqb_eq, Hf, <-Htc.
    setoid_rewrite (placed_exactly_near ksize s2 Hk Hids (λ i, Hkeys i s2)).
    rewrite (both_all (published sets) (λ e, length (holders s2 (digest (en_key e))) = ksize)). tauto.
Qed.

(** ** A cluster that loses a record *)

Module TopologyRunExample.

(** The records by key, with the nodes that hold them: the first three. A key of
    one byte is lost. *)
Abbreviation Toy := (gmap bytes bytes).

#[local] Instance toy_sha1 : Sha1 := λ l, ident_ends x00 (default x00 (head l)).

#[local] Instance toy_cluster : Cluster Toy := {|
  cl_bootstrap _ s := s;
  cl_sleep _ s := s;
  cl_set _ key value s := (if length key =? 1 then s else <[key := value]> s, Some (Some true));
  cl_get _ key s := (s, Some (s !! key));
  cl_holds i key s := (i <? 3) && bool_decide (is_Some (s !! key));
  cl_keys i s := remove_dups (if i <? 3 then (λ e, ident_bytes (digest e.1)) <$> map_to_list s else []);
  cl_id i := ident_ends x00 (byte_of_Z (Z.of_nat i));
  cl_router i _ := Some (RoutingTable.new 0 (Node_from_id (ident_ends x00 (byte_of_Z (Z.of_nat i)))) 3);
  cl_time _ := 0%Z
|}.

Definition kept : Entry := mkEntry [] [x00; x05] [x07].
Definition lost : Entry := mkEntry [] [x06] [x08].

Example toy_verdicts :
  an_verdict (run_analysis 3 (λ _, true) 1000 [kept] (∅ : Toy)) = Passed ∧
  an_verdict (run_analysis 2 (λ _, true) 1000 [kept] (∅ : Toy)) = PassedWithWarnings ∧
  an_verdict (run_analysis 3 (λ _, true) 1000 [kept; lost] (∅ : Toy)) = Failed.
Proof. split_and!; vm_compute; reflexivity. Qed.

Lemma verdict_is_exact_witness :
  let '(s1, set_answers) := sets_made 0 [kept; lost] (bootstrap_nodes (∅ : Toy)) in
  let stored := accepted [kept; lost] set_answers in
  let '(s2, get_answers) := gets_made 0 stored s1 in
  let keys := (λ e, digest (en_key e)) <$> stored in
  let complete := Forall (λ a, a = Some (Some true)) set_answers ∧ Forall2 returned stored get_answers in
  let verdict := an_verdict (run_analysis 3 (λ _, true) 1000 [kept; lost] (∅ : Toy)) in
  (verdict = Failed ↔
    ¬ (complete ∧ (∃ rts, tables_sound 3 s2 keys rts) ∧
       ∀ e, e ∈ stored → ∃ i, i ∈ holders s2 (digest (en_key e)) ∧ near 3 (digest (en_key e)) i)) ∧
  (verdict = Passed ↔
    complete ∧ (∃ rts, tables_sound 3 s2 keys rts ∧ true = true) ∧
    ∀ e, e ∈ stored → length (holders s2 (digest (en_key e))) = 3 ∧
      ∀ i, i ∈ holders s2 (digest (en_key e)) ↔ near 3 (digest (en_key e)) i).
Proof.
  apply (verdict_is_exact 3 (λ _, true) 1000 [kept; lost] (∅ : Toy)); [lia| |].
  - intros i j Hi Hj E.
    assert (NoDup ((λ i, cl_id (S := Toy) i) <$> seq 0 30)) as Hn by (apply (bool_decide_unpack _); vm_compute; exact I).
    apply (NoDup_lookup _ i j (cl_id (S := Toy) i) Hn); rewrite list_lookup_fmap, lookup_seq_lt by done; [done|].
    change (Some (cl_id (S := Toy) j) = Some (cl_id (S := Toy) i)). by rewrite E.
  - intros i toy. apply NoDup_remove_dups.
Defined.

End TopologyRunExample.
