(* ===== verification/ResilienceRun.v ===== *)
(** * Runs of the resilience test (src/scripts/resilience_attacker.rs, resilience_victim.rs)

    The two programs from their environment variables to their verdict. The
    records are in Resilience and the phases in Phases; the tasks of a phase are
    other tasks of the node while the program waits for them. Latencies and
    printed text are left aside. *)

From S2P Require Import Prelude Utils Node Routing Storage Fragmentation Messages Retransmit.
From S2P Require Import Crypto AuthHandler AuthProps Crawling Effects Protocol Transport Client Handlers.
From S2P Require Import NodeExample Publish Network ApiProps KeyManager DidRecord Text Phases Resilience DhtNode.

(** ** The attacker *)

(** The variables of [run]. *)
Record AttackerSettings := mkAttacker {
  target_addr : bytes;
  attacker_port : Z;
  pool_size : nat;
  at_concurrency : nat
}.

Definition attacker_settings (vars : Vars) : AttackerSettings :=
  let count name default_ := Z.to_nat (env_or vars (parse_unsigned (USIZE - 1)) name default_) in
  mkAttacker (default (str_bytes "172.21.0.10:5678") (vars "TARGET_ADDR"))
    (env_or vars (parse_unsigned U16_MAX) "ATTACKER_PORT" 5679%Z)
    (count "POOL_SIZE" 300%Z) (count "CONCURRENCY" 50%Z).

(** [parts[0]] and [parts.get(1)]. *)
Definition victim_addr (s : AttackerSettings) : string * Z :=
  let parts := splitn2 x3a (target_addr s) in
  (text_of (default [] (parts !! 0)), default 5678%Z (parts !! 1 ≫= parse_unsigned U16_MAX)).

(** The order in which the requests of the three phases end, and how. *)
Record PhaseEnds := mkEnds {
  end_order : nat → nat;
  valid_ends : nat → bytes * bytes → StoreEnd;
  invalid_ends : nat → bytes * bytes → StoreEnd;
  get_ends : nat → bytes → GetEnd
}.

(** The counts of [METRICS_JSON]. *)
Record Metrics := mkMetrics {
  m_pool_size : nat; m_inv_size : nat; m_concurrency : nat;
  p1_accepted : nat; p1_rejected : nat; p1_timeout : nat;
  p2_accepted : nat; p2_rejected : nat; p2_timeout : nat;
  p3_hits : nat; p3_misses : nat; p3_timeout : nat
}.

Definition metrics (concurrency : nat) (valid invalid : StoreCounts) (gets : GetCounts) : Metrics :=
  mkMetrics (sc_accepted valid + sc_rejected valid + sc_timed_out valid)
    (sc_accepted invalid + sc_rejected invalid + sc_timed_out invalid) concurrency
    (sc_accepted valid) (sc_rejected valid) (sc_timed_out valid)
    (sc_accepted invalid) (sc_rejected invalid) (sc_timed_out invalid)
    (gc_hits gets) (gc_misses gets) (gc_timed_out gets).

(** How [run] ends: with its metrics, or with the exit code 1. *)
Inductive AttackerEnd := Survived (m : Metrics) | SecurityFailure.

Section attacker.
Context {C E : Type} `{Sha1, Sha256, Bincode, Ipv6Syntax, HashOrder, MokaCache C}.
Context `{JsonWrite, Base64Encode, SignatureLibraries, KeyGeneration}.
Abbreviation P := (KademliaProtocol ForgetfulStorage.t C).
Context `{Environment E P, LookupSchedule E, Timer E P}.
Context (fuel : nat).

(** [Server::new(handler, 20, 3, None, None, use_cache)] and [listen], which
    panics when the port cannot be bound. *)
Definition start_listening (random : bytes) (cache : option C) (bound : bool) (workers : nat) : M P E (Run Server) :=
  let server := server_new 20 3 None random in
  pause ;;
  if negb bound then mret Panic
  else
    now ← asks instant; unix ← asks unix_time;
    modify (λ _, listen_protocol server now unix (ForgetfulStorage.new DEFAULT_TTL) cache workers) ;;
    mret (Done (with_listening server true)).

(** The two pools; [draws] are the random numbers of each record. *)
Definition pools (size : nat) (draws : nat → bytes * Draw) : Run (list (bytes * bytes) * list (bytes * bytes)) :=
  let valid := (λ i, make_record (draws i).1 (draws i).2) <$> seq 0 size in
  invalid ← make_invalid (draws <$> seq size (inv_size size));
  mret (valid, invalid).

(** A phase, whose tasks run while the program joins them. *)
Definition join_tasks {A} (counts : option A) : F P E A := λ w,
  let '(w', _) := pause w in (λ c, (w', c)) <$> counts.

(** The three phases and the verdict. *)
Definition attack (s : AttackerSettings) (ends : PhaseEnds) (srv : Server) (valid invalid : list (bytes * bytes))
    : F P E AttackerEnd :=
  counts1 ← join_tasks (store_phase (at_concurrency s) (end_order ends) (valid_ends ends) valid);
  counts2 ← join_tasks (store_phase (at_concurrency s) (end_order ends) (invalid_ends ends) invalid);
  bootstrap fuel srv [victim_addr s] ;;
  lift (sleep (from_millis 500)) ;;
  counts3 ← join_tasks (get_phase (at_concurrency s) (end_order ends) (get_ends ends) (sc_accepted_keys counts1));
  mret (if verdict counts2 then Survived (metrics (at_concurrency s) counts1 counts2 counts3) else SecurityFailure).

(** [run]. It panics without its port, without a contact after the bootstrap, and
    when a record has no byte 500. *)
Definition attacker_run (vars : Vars) (random : bytes) (cache : C) (bound : bool) (workers : nat)
    (draws : nat → bytes * Draw) (ends : PhaseEnds) : F P E (Run AttackerEnd) :=
  let s := attacker_settings vars in
  started ← lift (start_listening random (Some cache) bound workers);
  match started with
  | Panic => mret Panic
  | Done srv =>
      lift (sleep (from_secs 5)) ;;
      bootstrap fuel srv [victim_addr s] ;;
      lift (sleep (from_secs 1)) ;;
      me ← lift (gets source_node);
      known ← lift (find_neighbors me None);
      match known with
      | [] => mret Panic
      | victim :: _ =>
          lift pause ;;
          match pools (pool_size s) draws with
          | Panic => mret Panic
          | Done (valid, invalid) => r ← attack s ends srv valid invalid; mret (Done r)
          end
      end
  end.

End attacker.

(** The miss rate of the verdict: [misses / (hits + misses) < 0.05], or no GET.
    In double precision this is the comparison of the fractions for any number
    of GETs below 2^45. *)
Definition retrieval_reliable (m : Metrics) : bool :=
  (p3_hits m + p3_misses m =? 0) || (20 * p3_misses m <? p3_hits m + p3_misses m).

(** ** The victim *)

Module VictimRun.

Record VictimSettings := mkVictim { victim_port : Z; seed_count : nat; lifetime_secs : Z }.

Definition victim_settings (vars : Vars) : VictimSettings :=
  mkVictim (env_or vars (parse_unsigned U16_MAX) "NODE_PORT" 5678%Z)
    (Z.to_nat (env_or vars (parse_unsigned (USIZE - 1)) "SEED_COUNT" 5%Z))
    (env_or vars (parse_unsigned U64_MAX) "LIFETIME_SECS" 180%Z).

(** What ends the life of the victim. *)
Inductive LifeEnd := Signal | Lifetime.

Section victim.
Context {C E : Type} `{Sha1, Sha256, Bincode, Ipv6Syntax, HashOrder, MokaCache C}.
Context `{JsonWrite, Base64Encode, SignatureLibraries, KeyGeneration}.
Abbreviation P := (KademliaProtocol ForgetfulStorage.t C).
Context `{Environment E P, LookupSchedule E, Timer E P}.

(** The wait for SIGTERM, Ctrl-C or the end of the lifetime. *)
Definition wait_for_end (s : VictimSettings) (e : LifeEnd) : M P E unit :=
  match e with Signal => pause | Lifetime => sleep (from_secs (lifetime_secs s)) end.

(** [run]: the number of records at the end. [turns] bounds the wait for the
    attacker. *)
Definition victim_run (vars : Vars) (random : bytes) (bound : bool) (workers turns : nat)
    (draws : nat → bytes * Draw) (e : LifeEnd) : F P E (Run nat) :=
  let s := victim_settings vars in
  started ← lift (start_listening (C := C) (E := E) random None bound workers);
  match started with
  | Panic => mret Panic
  | Done srv =>
      Victim.wait_for_attacker turns srv ;;
      lift pause ;;
      let records := (λ i, Victim.make_record (draws i).1 (draws i).2) <$> seq 0 (seed_count s) in
      lift (Victim.seed records) ;;
      lift (wait_for_end s e) ;;
      now ← lift (asks instant);
      final_count ← lift (gets (λ p, length (iter_all now (storage p))));
      lift (stop srv) ;;
      mret (Done final_count)
  end.

End victim.

End VictimRun.

(** ** What the metrics say *)

Section results.
Context {C E : Type} `{Sha1, Sha256, Bincode, Ipv6Syntax, HashOrder, MokaCache C}.
Context `{JsonWrite, Base64Encode, SignatureLibraries, KeyGeneration}.
Abbreviation P := (KademliaProtocol ForgetfulStorage.t C).
Context `{Environment E P, LookupSchedule E, Timer E P}.
Context (fuel : nat).

Lemma make_invalid_length draws l : make_invalid draws = Done l → length l = length draws.
Proof using.
  revert l. induction draws as [|u draws IH]; intros l; [by intros [= <-]|]. unfold make_invalid. simpl.
  fold (make_invalid draws). unfold mbind, Run_bind. destruct (make_invalid draws) as [|rs]; [done|].
  destruct (make_record u.1 u.2) as [key rec]. destruct (tamper rec); [done|]. intros [= <-]. simpl. by rewrite (IH rs).
Qed.

(** The pools have the sizes the program prints. *)
Lemma pools_length size draws valid invalid :
  pools size draws = Done (valid, invalid) → length valid = size ∧ length invalid = inv_size size.
Proof using.
  unfold pools, mbind, Run_bind. destruct (make_invalid _) as [|inv] eqn:Hi; [done|]. intros [= <- <-].
  rewrite (make_invalid_length _ _ Hi), !length_fmap, !length_seq. done.
Qed.

(** A run that ends has run its three phases. *)
Lemma attack_phases s ends srv valid invalid (w w' : World P E) r :
  attack fuel s ends srv valid invalid w = Some (w', r) →
  ∃ c1 c2 c3,
    store_phase (at_concurrency s) (end_order ends) (valid_ends ends) valid = Some c1 ∧
    store_phase (at_concurrency s) (end_order ends) (invalid_ends ends) invalid = Some c2 ∧
    get_phase (at_concurrency s) (end_order ends) (get_ends ends) (sc_accepted_keys c1) = Some c3 ∧
    r = (if verdict c2 then Survived (metrics (at_concurrency s) c1 c2 c3) else SecurityFailure).
Proof using.
  unfold attack, join_tasks, mbind, F_bind, lift.
  destruct (pause w) as [w1 u1]. destruct (store_phase _ _ (valid_ends ends) _) as [c1|]; [|done]. simpl.
  destruct (pause w1) as [w2 u2]. destruct (store_phase _ _ (invalid_ends ends) _) as [c2|]; [|done]. simpl.
  destruct (bootstrap fuel srv [victim_addr s] w2) as [[w3 found]|]; [|done].
  destruct (sleep (from_millis 500) w3) as [w4 u4]. destruct (pause w4) as [w5 u5].
  destruct (get_phase _ _ _ _) as [c3|] eqn:S3; [|done]. intros [= _ <-]. by exists c1, c2, c3.
Qed.

(** Every record is counted once, whatever the network does: the metrics are
    those of a run without an accepted forgery, and add up. *)
Lemma attack_metrics s ends srv valid invalid (w w' : World P E) m :
  0 < at_concurrency s → attack fuel s ends srv valid invalid w = Some (w', Survived m) →
  m_pool_size m = length valid ∧ m_inv_size m = length invalid ∧ p2_accepted m = 0 ∧
  p1_accepted m + p1_rejected m + p1_timeout m = m_pool_size m ∧
  p2_rejected m + p2_timeout m = m_inv_size m ∧
  p3_hits m + p3_misses m + p3_timeout m = p1_accepted m.
Proof using.
  intros Hc (c1 & c2 & c3 & S1 & S2 & S3 & Hr)%attack_phases.
  destruct (store_phase_ends _ (end_order ends) (valid_ends ends) valid Hc) as (j1 & r1 & E1 & [Hp1 _] & [Ha1 _ _ Hs1 Hk1]).
  destruct (store_phase_ends _ (end_order ends) (invalid_ends ends) invalid Hc) as (j2 & r2 & E2 & [Hp2 _] & [_ _ _ Hs2 _]).
  destruct (get_phase_ends _ (end_order ends) (get_ends ends) (sc_accepted_keys c1) Hc) as (j3 & r3 & E3 & [Hp3 _] & [_ _ _ Hs3]).
  apply Permutation_length in Hp1, Hp2, Hp3. unfold ends_of in Hs1, Hs2, Hs3. rewrite length_imap in Hs1. rewrite length_imap in Hs2. rewrite length_imap in Hs3.
  rewrite E1 in S1. injection S1 as <-. rewrite E2 in S2. injection S2 as <-. rewrite E3 in S3. injection S3 as <-.
  unfold verdict in Hr. case_match eqn:Hv; [|done]. bool_facts. injection Hr as ->. unfold metrics. simpl.
  assert (length (sc_accepted_keys r1) = sc_accepted r1) as Hk by (by rewrite Hk1, Ha1, length_fmap). lia.
Qed.

(** The exit code is that of the tampered records alone. *)
Lemma attack_exit s ends srv valid invalid (w w' : World P E) r :
  0 < at_concurrency s → attack fuel s ends srv valid invalid w = Some (w', r) →
  ∃ order, ends_in (at_concurrency s) (end_order ends) invalid order ∧
    (r = SecurityFailure ↔ 0 < number (was_accepted ∘ snd) (ends_of (invalid_ends ends) order)).
Proof using.
  intros Hc (c1 & c2 & c3 & S1 & S2 & S3 & Hr)%attack_phases.
  destruct (store_phase_ends _ (end_order ends) (invalid_ends ends) invalid Hc) as (j2 & r2 & E2 & Hp2 & [Ha2 _ _ _ _]).
  rewrite E2 in S2. injection S2 as <-. subst r. exists j2. split; [done|]. rewrite <- Ha2. unfold verdict. case_match eqn:Hv; bool_facts.
  - split; [done|]. lia.
  - split; [lia|done].
Qed.

(** ** The programs end *)

Lemma total_join_tasks {A} (counts : option A) : is_Some counts → total (join_tasks (C := C) (E := E) counts).
Proof using. intros [c ->] w. unfold join_tasks. destruct (pause w) as [w1 u]. by eexists. Qed.

Lemma total_attack (U : gset ident) s ends srv valid invalid :
  (∀ i, i ∈ U) → 2 * size U + 1 < fuel → 0 < at_concurrency s →
  total (attack (C := C) (E := E) fuel s ends srv valid invalid).
Proof using.
  intros HU Hf Hc. unfold attack.
  apply total_bind; [|intros c1; apply total_bind; [|intros c2; apply total_bind; [|intros ns; apply total_bind;
    [apply total_lift|intros u; apply total_bind; [|intros c3; apply total_ret]]]]].
  - destruct (store_phase_ends _ (end_order ends) (valid_ends ends) valid Hc) as (j1 & r1 & -> & _).
    by apply total_join_tasks.
  - destruct (store_phase_ends _ (end_order ends) (invalid_ends ends) invalid Hc) as (j1 & r1 & -> & _).
    by apply total_join_tasks.
  - by eapply total_bootstrap.
  - destruct (get_phase_ends _ (end_order ends) (get_ends ends) (sc_accepted_keys c1) Hc) as (j1 & r1 & -> & _).
    by apply total_join_tasks.
Qed.

(** The metrics of a run are those of its configuration. *)
Lemma attacker_run_metrics vars random cache bound workers draws ends (w w' : World P E) m :
  0 < at_concurrency (attacker_settings vars) →
  attacker_run fuel vars random cache bound workers draws ends w = Some (w', Done (Survived m)) →
  m_pool_size m = pool_size (attacker_settings vars) ∧
  m_inv_size m = inv_size (pool_size (attacker_settings vars)) ∧
  p2_accepted m = 0 ∧ p2_rejected m + p2_timeout m = m_inv_size m ∧
  p1_accepted m + p1_rejected m + p1_timeout m = m_pool_size m ∧
  p3_hits m + p3_misses m + p3_timeout m = p1_accepted m.
Proof using.
  intros Hc. unfold attacker_run, mbind, F_bind, lift.
  destruct (start_listening _ _ _ _ w) as [w1 [|srv]]; [done|]. destruct (sleep (from_secs 5) w1) as [w2 u2].
  destruct (bootstrap _ _ _ w2) as [[w3 found]|]; [|done]. destruct (sleep (from_secs 1) w3) as [w4 u4].
  destruct (gets source_node w4) as [w5 me]. destruct (find_neighbors me None w5) as [w6 [|victim known]]; [done|].
  destruct (pause w6) as [w7 u7]. destruct (pools _ draws) as [|[valid invalid]] eqn:Hp; [done|].
  destruct (attack _ _ _ _ _ _ w7) as [[w8 r]|] eqn:Ha; [|done]. intros [= _ ->].
  apply pools_length in Hp as [<- <-]. by destruct (attack_metrics _ _ _ _ _ _ _ _ Hc Ha) as (-> & -> & -> & -> & -> & ->).
Qed.

(** The program ends, with its port bound and somebody to attack. *)
Lemma total_attacker_run (U : gset ident) vars random cache bound workers draws ends :
  (∀ i, i ∈ U) → 2 * size U + 1 < fuel → 0 < at_concurrency (attacker_settings vars) →
  total (attacker_run (C := C) (E := E) fuel vars random cache bound workers draws ends).
Proof using.
  intros HU Hf Hc. unfold attacker_run. apply total_bind; [apply total_lift|]. intros [|srv]; [apply total_ret|].
  apply total_bind; [apply total_lift|]. intros _. apply total_bind; [by eapply total_bootstrap|]. intros _.
  do 3 (apply total_bind; [apply total_lift|]; intros ?). case_match; [apply total_ret|].
  apply total_bind; [apply total_lift|]. intros _. destruct (pools _ draws) as [|[valid invalid]]; [apply total_ret|].
  apply total_bind; [by eapply total_attack|]. intros r. apply total_ret.
Qed.

End results.

(** ** A run *)

Module ResilienceRunExample.
Import NodeExample ResilienceExample.

#[local] Existing Instances KeyExample.ex_signatures KeyExample.ex_generation.
#[local] Existing Instances DidExample.ex_json DidExample.ex_json_write DidExample.ex_b64_encode.

#[local] Instance ex_timer : Timer Z ExP := λ _, pause.

Definition vars : Vars := λ name,
  if bool_decide (name = "TARGET_ADDR"%string) then Some (str_bytes "10.0.0.2:4000")
  else if bool_decide (name = "POOL_SIZE"%string) then Some (str_bytes "3") else None.

Definition draws (i : nat) : bytes * Draw := (uuid, draw).

(** The victim takes two records of three, one GET is lost. *)
Definition ends : PhaseEnds := mkEnds (λ t, 5 * t)
  (λ t _, if t =? 1 then Some (None, 9%Z) else Some (Some (Some SStored), 1%Z))
  (λ _ _, Some (Some (Some SInvalidRecord), 1%Z))
  (λ t key, if t =? 0 then None else Some (Some (Some key), 1%Z)).

Example attacker_ends :
  snd <$> attacker_run 20 vars [x01] (∅ : Cache) true 2 draws ends (mkW start 0%Z) =
  Some (Done (Survived (mkMetrics 3 10 50 2 0 1 0 10 0 1 0 1))).
Proof. vm_compute. reflexivity. Qed.

(** One tampered record that is accepted is a failure. *)
Definition one_accepted : PhaseEnds := mkEnds (end_order ends) (valid_ends ends)
  (λ t _, Some (Some (Some (if t =? 4 then SStored else SInvalidRecord)), 1%Z)) (get_ends ends).

Example attacker_fails :
  snd <$> attacker_run 20 vars [x01] (∅ : Cache) true 2 draws one_accepted (mkW start 0%Z) = Some (Done SecurityFailure).
Proof. vm_compute. reflexivity. Qed.

(** The victim, while its attacker pings it: it keeps the five seeds. *)
Definition visited : Environment Z ExP := {|
  instant e := e;
  unix_time e := (e `div` 1000000000)%Z;
  jitter _ _ := 0%Z;
  random_id e := (e, me);
  others e p := ((e + 1000000)%Z, (add_to_table 0 peer_node p).1);
  send_to e _ _ := (e, true);
  wakeups _ := []
|}.

Definition distinct_draws (i : nat) : bytes * Draw := (byte_of_Z (Z.of_nat i) :: uuid, draw).

#[local] Instance first_byte : Sha1 := λ l, ident_ends x00 (default x00 (l !! 0)).

Example victim_ends :
  snd <$> VictimRun.victim_run (C := Cache) (E := Z) (H10 := visited) (λ _, None) [x01] true 2 2 distinct_draws
            VictimRun.Lifetime (mkW start 0%Z) = Some (Done 5).
Proof. vm_compute. reflexivity. Qed.

End ResilienceRunExample.
