(* ===== verification/NodeRun.v ===== *)
(** * A testbed node, from its start to its end (src/testbed/node.rs)

    The program of a container: [main] chooses between the node and its [ctl];
    the node starts, answers the lines of its control socket, reports its state
    and stops when it is told to. A connection is answered at its turn, between
    the other tasks of the node. *)

From S2P Require Import Prelude Utils Node Routing Storage Fragmentation Messages Retransmit.
From S2P Require Import Crypto AuthHandler AuthProps Crawling Effects Protocol Transport Client Handlers.
From S2P Require Import NodeExample ProtocolProps HandlersProps Publish Network ApiProps NodeProps KeyManager DidRecord.
From S2P Require Import Text Testbed DhtNode Counters Control.

(** ** [main] *)

(** What the arguments ask for: a line to the control socket, or a node. *)
Inductive Program := ProgramCtl (port : Z) (line : bytes) | ProgramNode (port : Z).

Definition choose_program (vars : Vars) (args : list bytes) : Program :=
  let ctl_port := env_or vars (parse_unsigned U16_MAX) "CTL_PORT" 7000%Z in
  match args with
  | first :: rest => if bool_decide (first = str_bytes "ctl") then ProgramCtl ctl_port (ctl_line rest)
                     else ProgramNode ctl_port
  | [] => ProgramNode ctl_port
  end.

(** ** [run] *)

(** [STATS_EVERY], and what [log_stats_regularly] logs. *)
Definition STATS_EVERY : Z := from_secs 30.

Record Logged := mkLogged { lg_live : nat; lg_contacts : nat; lg_records : nat }.

(** What happens to a node between its start and its shutdown: the line of a
    connection, with what its command may draw; a connection that fails before
    its line is read; the turn of the reporter. *)
Inductive Incident :=
  | Connection (line : bytes) (d : Drawn)
  | BrokenConnection
  | ReporterTurn.

(** What it tells. *)
Inductive Told `{Json} := ToldReply (a : Answer) | ToldNothing | ToldStats (l : Logged).

Section run.
Context {C E : Type} `{Sha1, Sha256, Bincode, Ipv6Syntax, HashOrder}.
Context `{JsonWrite, Base64, Base64Encode, SignatureLibraries, KeyGeneration, Hex}.
Context `{MokaCache C} (handler : SignatureVerifierHandler).
Abbreviation P := (KademliaProtocol ForgetfulStorage.t C).
Context `{Environment E P, LookupSchedule E, Timer E P}.
Context (fuel turns : nat).

(** [answer]: a line, up to its reply. *)
Definition answer (srv : Server) (identity : option Identity) (counts : Inner) (line : bytes) (d : Drawn)
    : F P E (option Identity * Answer) :=
  lift pause ;; handle handler fuel srv turns identity counts d (read_request line).

(** A turn of [log_stats_regularly]. *)
Definition log_stats (srv : Server) : M P E Logged :=
  sleep STATS_EVERY ;;
  s ← stats srv;
  mret (mkLogged (st_live_routing_nodes s) (st_routing_nodes s) (st_storage_records s)).

(** The tasks [serve_control] and [log_stats_regularly], until they are aborted. *)
Definition incident (srv : Server) (identity : option Identity) (counts : Inner) (i : Incident)
    : F P E (option Identity * Told) :=
  match i with
  | Connection line d => r ← answer srv identity counts line d; mret (r.1, ToldReply r.2)
  | BrokenConnection => lift pause ;; mret (identity, ToldNothing)
  | ReporterTurn => l ← lift (log_stats srv); mret (identity, ToldStats l)
  end.

Fixpoint serve (srv : Server) (identity : option Identity) (counts : Inner) (happened : list Incident)
    : F P E (option Identity * list Told) :=
  match happened with
  | [] => mret (identity, [])
  | i :: more =>
      r ← incident srv identity counts i;
      rs ← serve srv r.1 counts more;
      mret (rs.1, r.2 :: rs.2)
  end.

(** [run], with the incidents before the signal; [None] when the port cannot be
    bound, and the program exits with 1. *)
Definition run (vars : Vars) (random : bytes) (cache : C) (bound : bool) (workers : nat) (counts : Inner)
    (happened : list Incident) : F P E (option (option Identity * list Told)) :=
  started ← start_node fuel vars random cache bound workers;
  match started with
  | None => mret None
  | Some (srv, _) =>
      r ← serve srv None counts happened;
      lift pause ;;
      lift (stop srv) ;;
      mret (Some r)
  end.

End run.

(** ** What holds through a run *)

Section results.
Context {C E : Type} `{Sha1, Sha256, Bincode, Ipv6Syntax, HashOrder}.
Context `{JsonLaws, Base64Laws, KeyGenerationLaws, !Dilithium2Size, UuidSyntax, Hex}.
Context `{MokaCache C} (handler : SignatureVerifierHandler).
Abbreviation P := (KademliaProtocol ForgetfulStorage.t C).
Context `{Environment E P, LookupSchedule E, Timer E P}.
Context (fuel turns : nat).

Abbreviation usable identity := (Forall identity_ok (option_list identity)).

(** The UUIDs that are drawn are new. *)
Definition incident_ok (i : Incident) : Prop :=
  match i with Connection _ d => fresh_uuid (dr_uuid d) | _ => True end.

Lemma usable_handle srv identity counts d q :
  usable identity → fresh_uuid (dr_uuid d) →
  ftriple (P := P) (E := E) (λ _, True) (handle handler fuel srv turns identity counts d q) (λ r _, usable r.1).
Proof using.
  intros Hid Hd.
  assert (∀ c, command_ok c → ftriple (P := P) (E := E) (λ _, True)
    (r ← run_command handler fuel srv identity c; mret (r.1, AReply r.2)) (λ r _, usable r.1)) as Hc.
  { intros c Hc. apply (ftriple_bind _ _ (λ r _, usable r.1)); [by apply usable_command|].
    intros [identity' reply] w w' r Hw Hr. by injection Hr as <- <-. }
  assert (∀ A (m : F P E A) (f : A → Answer), ftriple (λ _, True) (a ← m; mret (identity, f a)) (λ r _, usable r.1)) as Hs.
  { intros A m f. apply (ftriple_bind _ _ (λ _ _, True)); [done|]. intros a w w' r _ Hr. by injection Hr as <- <-. }
  destruct q; simpl; try (by apply Hc); try (by apply Hs); try (intros w w' r _ Hr; by injection Hr as <- <-).
  all: apply (ftriple_bind _ _ (λ _ _, True)); [done|]; intros u; apply Hs.
Qed.

(** The identity of a node is usable at any time of its life. *)
Lemma usable_serve srv identity counts happened :
  usable identity → Forall incident_ok happened →
  ftriple (P := P) (E := E) (λ _, True) (serve handler fuel turns srv identity counts happened) (λ r _, usable r.1).
Proof using.
  intros Hid His. revert identity Hid. induction His as [|i happened Hi _ IH]; intros identity Hid.
  - intros w w' r _ Hr. by injection Hr as <- <-.
  - apply (ftriple_bind _ _ (λ r _, usable r.1)).
    + destruct i as [line d| |]; simpl.
      * apply (ftriple_bind _ _ (λ r _, usable r.1)).
        { apply (ftriple_bind _ _ (λ _ _, True)); [done|]. intros u. by apply usable_handle. }
        intros [identity' a] w w' r Hw Hr. by injection Hr as <- <-.
      * apply (ftriple_bind _ _ (λ _ _, True)); [done|]. intros u w w' r _ Hr. by injection Hr as <- <-.
      * apply (ftriple_bind _ _ (λ _ _, True)); [done|]. intros u w w' r _ Hr. by injection Hr as <- <-.
    + intros [identity' told]. apply ftriple_given. intros Hid'.
      apply (ftriple_bind _ _ (λ r _, usable r.1)); [by apply IH|]. intros [identity'' rest].
      intros w w' r Hw Hr. by injection Hr as <- <-.
Qed.

(** A node that was told to stop has no task left and starts none; one reply
    was given for each incident, and the identity is usable or none. *)
Lemma run_ends vars random cache bound workers counts happened (w w' : World P E) identity told :
  Forall incident_ok happened →
  run handler fuel turns vars random cache bound workers counts happened w = Some (w', Some (identity, told)) →
  tasks (proto w') = None ∧ usable identity ∧ length told = length happened.
Proof using.
  intros His. unfold run, mbind, F_bind, lift.
  assert (∀ w w1 srv ns, start_node (E := E) fuel vars random cache bound workers w = Some (w1, Some (srv, ns)) →
    listening srv = true) as Hl.
  { intros w0 w1 srv ns. unfold start_node, mbind, F_bind, lift. destruct (pause w0) as [w2 u].
    destruct bound; [|done]. simpl. unfold asks, modify. destruct (bootstrap _ _ _ _) as [[w3 found]|]; [|done].
    by intros [= _ <- _]. }
  destruct (start_node _ _ _ _ _ _ w) as [[w1 [[srv ns]|]]|] eqn:Hs; [|done|done].
  destruct (serve _ _ _ _ _ _ _ w1) as [[w2 [identity' told']]|] eqn:Hr; [|done].
  assert (length told' = length happened) as Hlen.
  { clear -Hr. revert w1 w2 identity' told' Hr. generalize (None : option Identity) as identity0.
    induction happened as [|i happened IH]; intros identity0 w1 w2 identity' told'; [by intros [= _ _ <-]|]. cbn [serve].
    unfold mbind, F_bind. destruct (incident _ _ _ _ _ _ i w1) as [[w3 [id1 t1]]|]; [|done].
    destruct (serve _ _ _ _ _ _ happened w3) as [[w4 [id2 t2]]|] eqn:Hr; [|done]. intros [= _ _ <-]. simpl.
    by rewrite (IH _ _ _ _ _ Hr). }
  pose proof (usable_serve srv None counts happened ltac:(constructor) His w1 w2 _ I Hr) as Hu. simpl in Hu.
  destruct (pause w2) as [w3 u3]. unfold stop. rewrite (Hl _ _ _ _ Hs). simpl. unfold mbind, M_bind.
  destruct (find_neighbors _ _ w3) as [w4 ns4]. destruct (for_each call_leave_rpc ns4 w4) as [w5 u5]. simpl.
  intros [= <- <- <-]. done.
Qed.

End results.

(** ** A run *)

Module NodeRunExample.
Import NodeExample DhtNodeExample.

#[local] Existing Instances KeyExample.ex_signatures KeyExample.ex_generation.
#[local] Existing Instances DidExample.ex_json DidExample.ex_json_write DidExample.ex_b64 DidExample.ex_b64_encode.
#[local] Existing Instances DidExample.ex_hex.

Definition drawn : Drawn := mkDrawn DidExample.ex_uuid_text (mkDraw [x05] [x05] []) [].

(** The lines of a session: [ctl] with these arguments. *)
Definition line (args : list string) : bytes := ctl_line (str_bytes <$> args).

Definition session : list Incident :=
  [Connection (line ["new"]) drawn; BrokenConnection; Connection (line ["routing"]) drawn; ReporterTurn;
   Connection (line ["nonsense"]) drawn; Connection (line ["forget"]) drawn; Connection (line ["info"]) drawn].

Definition vars : Vars := λ name,
  if bool_decide (name = "SEEDS"%string) then Some (str_bytes "10.0.0.2:4000") else None.

(** What was told, in short. *)
Definition outline (t : Told) : string :=
  match t with
  | ToldReply (AReply (RNew _)) => "new"
  | ToldReply (AReply (RInfo _ None _ _)) => "no identity"
  | ToldReply (AReply (RForget (Some _))) => "forgotten"
  | ToldReply (ARouting [(ip, _)]) => ip
  | ToldReply (AUnknown _) => "unknown"
  | ToldReply _ => "other"
  | ToldNothing => "nothing"
  | ToldStats _ => "stats"
  end.

Example session_told :
  match run ex_handler 20 5 vars [] (∅ : Cache) true 2 default_inner session (mkW start 0%Z) with
  | Some (_, Some (identity, told)) => Some (match identity with None => true | Some _ => false end, map outline told)
  | _ => None
  end = Some (true, ["new"; "nothing"; "10.0.0.2"; "stats"; "unknown"; "forgotten"; "no identity"]%string).
Proof. vm_compute. reflexivity. Qed.

Example ctl_and_node :
  choose_program vars (str_bytes <$> ["ctl"; "get"; "x"]) = ProgramCtl 7000 (str_bytes "get x" ++ [x0a]) ∧
  choose_program vars [] = ProgramNode 7000.
Proof. split; reflexivity. Qed.

End NodeRunExample.
