(* ===== verification/Measures.v ===== *)
(** * What the programs measure (src/examples/cache_bench.rs, src/scripts/resilience_attacker.rs)

    The throughput phase of the cache benchmark, and the order statistics that it
    and the resilience test report of their latencies, in nanoseconds. The
    averages and the rates are floating-point numbers and are left aside. *)

From S2P Require Import Prelude Utils Node Routing Storage Fragmentation Messages Retransmit.
From S2P Require Import Crypto AuthHandler Crawling Effects Protocol Transport Client Handlers.
From S2P Require Import Publish Network ApiProps Phases DhtNode ResilienceRun.

(** ** Order statistics *)

Definition sorted_samples (l : list Z) : list Z := merge_sort Z.le l.

(** [percentile] of the benchmark, of a whole number [p] of percents. The
    [ceil] of the floating-point quotient is that of the fraction for fewer
    than 2^45 samples. *)
Definition percentile (sorted : list Z) (p : nat) : Z :=
  let n := length sorted in
  let idx := (n * p + 99) / 100 - 1 in
  match sorted with [] => 0%Z | _ => default 0%Z (sorted !! (idx `min` (n - 1))) end.

(** [LatencyStats::report]: the least, the 95th percentile and the greatest;
    [None] without samples, where it reports zeroes. The index of the percentile
    is exact for fewer than 2^45 samples. *)
Definition report (samples : list Z) : option (Z * Z * Z) :=
  let l := sorted_samples samples in
  least ← hd_error l;
  greatest ← last l;
  p95 ← l !! ((19 * length l / 20) `min` (length l - 1));
  Some (least, p95, greatest).

(** ** The throughput phase *)

(** [SetResults], without the wall time. *)
Record SetResults := mkResults { set_ns : list Z; ops_ok : nat; ops_failed : nat }.

(** What [timeout] returns of a SET ([None] when it elapsed), and its time. *)
Abbreviation OpEnd := (option (option bool) * Z)%type.

(** [nodes[i % nodes.len()]]. *)
Definition writer_of (num_nodes i : nat) : nat := i mod num_nodes.

Definition op_account (i : nat) (e : OpEnd) (r : SetResults) : SetResults :=
  match e.1 with
  | Some (Some true) => mkResults (set_ns r ++ [e.2]) (ops_ok r + 1) (ops_failed r)
  | _ => mkResults (set_ns r) (ops_ok r) (ops_failed r + 1)
  end.

(** [run_set_workload]. All tasks are spawned, and as many run as the semaphore
    has permits: a task that ends gives its permit to one that waits, which is
    the bounded set of tasks of Phases. *)
Definition run_set_workload (num_ops concurrency : nat) (next : nat → nat) (result : nat → nat → OpEnd)
    : option SetResults :=
  r ← run_phase op_account concurrency next result (seq 0 num_ops) (mkResults [] 0 0);
  Some (mkResults (sorted_samples (set_ns r)) (ops_ok r) (ops_failed r)).

Section cluster.
Context {C E : Type} `{Sha1, Sha256, Bincode, Ipv6Syntax, HashOrder, MokaCache C}.
Abbreviation P := (KademliaProtocol ForgetfulStorage.t C).
Context `{Environment E P, LookupSchedule E, Timer E P}.
Context (fuel : nat).

(** One of the three nodes of [start_cluster]: what it draws, its empty cache,
    whether its port could be bound, its workers. *)
Record MemberStart := mkMember { mb_random : bytes; mb_cache : C; mb_bound : bool; mb_workers : nat }.

Definition make_node (use_cache : bool) (m : MemberStart) : M P E (Run Server) :=
  start_listening (mb_random m) (if use_cache then Some (mb_cache m) else None) (mb_bound m) (mb_workers m).

(** A peer of the cluster: it starts, then bootstraps with the seed. *)
Definition make_peer (use_cache : bool) (seed : Z) (m : MemberStart) : F P E (Run Server) :=
  started ← lift (make_node use_cache m);
  match started with
  | Panic => mret Panic
  | Done srv => bootstrap fuel srv [("127.0.0.1"%string, seed)] ;; mret (Done srv)
  end.

(** The peers after the seed, each in its own world. *)
Fixpoint make_peers (use_cache : bool) (seed : Z) (peers : list (MemberStart * World P E))
    : option (Run (list (Server * World P E))) :=
  match peers with
  | [] => Some (Done [])
  | (m, w) :: peers' =>
      '(w', started) ← make_peer use_cache seed m w;
      rest ← make_peers use_cache seed peers';
      Some (match started, rest with Done srv, Done l => Done ((srv, w') :: l) | _, _ => Panic end)
  end.

(** [start_cluster]: the seed, then its peers. A node whose port cannot be bound
    ends the program; once all are there they are left 300 ms. *)
Definition start_cluster (use_cache : bool) (seed : Z) (first : MemberStart * World P E)
    (peers : list (MemberStart * World P E)) : option (Run (list (Server * World P E))) :=
  let '(w, started) := make_node use_cache first.1 first.2 in
  match started with
  | Panic => Some Panic
  | Done srv =>
      rest ← make_peers use_cache seed peers;
      Some (match rest with
            | Panic => Panic
            | Done l => Done ((λ n, (n.1, (sleep (from_millis 300) n.2).1)) <$> (srv, w) :: l)
            end)
  end.

End cluster.

(** ** Percentiles are what they are called *)

Lemma sorted_samples_perm l : sorted_samples l ≡ₚ l.
Proof. apply merge_sort_Permutation. Qed.

Lemma sorted_samples_sorted l : StronglySorted Z.le (sorted_samples l).
Proof. apply StronglySorted_merge_sort; [typeclasses eauto|]. intros x y. lia. Qed.

(** In a sorted list what stands before a value is at most it, and the rest at
    least. *)
Lemma sorted_lookup_le (l : list Z) i j x y :
  StronglySorted Z.le l → l !! i = Some x → l !! j = Some y → i ≤ j → (x ≤ y)%Z.
Proof.
  intros Hs. revert i j. induction Hs as [|z l Hs IH Hall]; intros i j; [done|].
  destruct i as [|i], j as [|j]; simpl; intros Hx Hy Hij; simplify_eq; [lia| |lia|by eapply IH; eauto; lia].
  rewrite Forall_forall in Hall. by apply Hall, list_elem_of_lookup_2 with j.
Qed.

Lemma sorted_at_most (l : list Z) i x :
  StronglySorted Z.le l → l !! i = Some x → S i ≤ length (filter (λ y, (y ≤ x)%Z) l).
Proof.
  intros Hs Hx. pose proof (lookup_lt_Some _ _ _ Hx) as Hi.
  assert (filter (λ y, (y ≤ x)%Z) (take (S i) l) = take (S i) l) as Ht.
  { apply list_filter_all. apply Forall_forall. intros y (j & Hj)%list_elem_of_lookup_1.
    apply lookup_take_Some in Hj as [Hj Hji]. eapply (sorted_lookup_le l j i); eauto. lia. }
  rewrite <- (take_drop (S i) l) at 1. rewrite filter_app, length_app, Ht, length_take. lia.
Qed.

(** At least [p] percent of the samples are at most the percentile, which is one
    of them. *)
Lemma percentile_bound samples p :
  0 < p ≤ 100 → samples ≠ [] →
  let x := percentile (sorted_samples samples) p in
  x ∈ samples ∧ length samples * p ≤ 100 * length (filter (λ y, (y ≤ x)%Z) samples).
Proof.
  intros Hp Hne x. pose proof (sorted_samples_perm samples) as Hperm. pose proof (sorted_samples_sorted samples) as Hs.
  assert (0 < length samples) as Hn by (destruct samples; simpl; [done|lia]).
  pose proof (Permutation_length Hperm) as Hlen.
  set (i := ((length samples * p + 99) / 100 - 1) `min` (length samples - 1)).
  destruct (lookup_lt_is_Some_2 (sorted_samples samples) i ltac:(lia)) as [y Hy].
  assert (x = y) as ->.
  { unfold x, percentile. rewrite Hlen. fold i. rewrite Hy. by destruct (sorted_samples samples). }
  split; [rewrite <- Hperm; by eapply list_elem_of_lookup_2|].
  pose proof (sorted_at_most _ i y Hs Hy) as Hat.
  rewrite <- (filter_Permutation (λ z, (z ≤ y)%Z) _ _ Hperm). etrans; [|apply Nat.mul_le_mono_l, Hat].
  pose proof (Nat.div_mod_eq (length samples * p + 99) 100) as Hd.
  pose proof (Nat.mod_upper_bound (length samples * p + 99) 100 ltac:(lia)) as Hm.
  assert (length samples * p ≤ length samples * 100) by (apply Nat.mul_le_mono_l; lia). lia.
Qed.

(** The report is of the samples: its ends bound them all, and more than 95
    percent are at most the percentile. *)
Lemma report_bounds samples least p95 greatest :
  report samples = Some (least, p95, greatest) →
  least ∈ samples ∧ p95 ∈ samples ∧ greatest ∈ samples ∧
  Forall (λ x, (least ≤ x ≤ greatest)%Z) samples ∧
  19 * length samples ≤ 20 * length (filter (λ x, (x ≤ p95)%Z) samples).
Proof.
  unfold report. pose proof (sorted_samples_perm samples) as Hperm. pose proof (sorted_samples_sorted samples) as Hs.
  set (l := sorted_samples samples) in *. clearbody l. pose proof (Permutation_length Hperm) as Hlen.
  destruct (hd_error l) as [a|] eqn:Ha; [|done]. destruct (last l) as [z|] eqn:Hz; [|done].
  set (i := (19 * length l / 20) `min` (length l - 1)) in *.
  destruct (l !! i) as [q|] eqn:Hq; [|done]. cbn [mbind option_bind]. intros [= <- <- <-].
  assert (l !! 0 = Some a) as H0 by (by destruct l). rewrite last_lookup in Hz.
  assert (∀ j x, l !! j = Some x → x ∈ samples) as Hin by (intros j x Hj; rewrite <- Hperm; by eapply list_elem_of_lookup_2).
  split_and!; eauto.
  - rewrite <- Hperm. apply Forall_forall. intros x (j & Hj)%list_elem_of_lookup_1. pose proof (lookup_lt_Some _ _ _ Hj) as Hlt.
    split; [by eapply (sorted_lookup_le l 0 j); eauto; lia|by eapply (sorted_lookup_le l j (pred (length l))); eauto; lia].
  - pose proof (sorted_at_most _ i q Hs Hq) as Hat. pose proof (lookup_lt_Some _ _ _ H0) as Hpos.
    rewrite <- (filter_Permutation (λ z, (z ≤ q)%Z) _ _ Hperm), <- Hlen. etrans; [|apply Nat.mul_le_mono_l, Hat].
    pose proof (Nat.div_mod_eq (19 * length l) 20) as Hd. pose proof (Nat.mod_upper_bound (19 * length l) 20 ltac:(lia)). lia.
Qed.

(** ** Every operation is counted once *)

Definition op_succeeded (e : OpEnd) : bool := bool_decide (e.1 = Some (Some true)).

Lemma op_accounted r joined :
  let r' := accounted op_account r joined in
  ops_ok r' = ops_ok r + number (op_succeeded ∘ snd) joined ∧
  ops_failed r' = ops_failed r + number (negb ∘ op_succeeded ∘ snd) joined ∧
  set_ns r' = set_ns r ++ ((λ j, j.2.2) <$> filter (λ j, op_succeeded j.2 = true) joined).
Proof.
  unfold accounted. revert r. induction joined as [|[i [o t]] joined IH]; intros r.
  { simpl. by rewrite !Nat.add_0_r, app_nil_r. }
  cbn [foldl fst snd]. destruct (IH (op_account i (o, t) r)) as (-> & -> & ->). rewrite !number_cons, filter_cons.
  unfold op_account, op_succeeded. cbn [compose fst snd].
  destruct o as [[[]|]|]; simpl;
    repeat (first [rewrite decide_True by done | rewrite decide_False by done]);
    split_and!; try lia; try done. by rewrite <- app_assoc.
Qed.

(** The workload ends; every operation succeeded or failed, and the times are
    those of the ones that succeeded. *)
Lemma workload_counts num_ops concurrency next result :
  0 < concurrency →
  ∃ r, run_set_workload num_ops concurrency next result = Some r ∧
    ops_ok r + ops_failed r = num_ops ∧ length (set_ns r) = ops_ok r ∧ StronglySorted Z.le (set_ns r).
Proof.
  intros Hc. destruct (run_phase_spec op_account concurrency next result (seq 0 num_ops) (mkResults [] 0 0) Hc)
    as (joined & Hr & Hp). unfold run_set_workload. rewrite Hr. cbn. eexists. split; [done|]. cbn.
  destruct (op_accounted (mkResults [] 0 0) joined) as (-> & -> & ->). cbn.
  split_and!; [| |apply sorted_samples_sorted].
  - pose proof (number_split (op_succeeded ∘ snd) (negb ∘ op_succeeded ∘ snd) (λ _, false) joined) as Hn.
    assert (number (λ _ : nat * OpEnd, false) joined = 0) as Hz by (clear; induction joined; [done|by rewrite number_cons]).
    assert (length joined = num_ops) as Hl.
    { rewrite <- (length_seq num_ops 0). rewrite <- (Permutation_length Hp). by rewrite length_fmap. }
    rewrite Hz, Hl in Hn. rewrite Nat.add_0_r in Hn. apply Hn. intros [i e]. simpl. by destruct (op_succeeded e).
  - by rewrite (Permutation_length (sorted_samples_perm _)), length_fmap.
Qed.

(** A cluster whose ports are bound starts, and its nodes listen. *)
Lemma cluster_starts {C E : Type} `{Sha1, Sha256, Bincode, Ipv6Syntax, HashOrder, MokaCache C}
    `{Environment E (KademliaProtocol ForgetfulStorage.t C), LookupSchedule E, Timer E (KademliaProtocol ForgetfulStorage.t C)}
    (U : gset ident) fuel use_cache seed (first : MemberStart (C := C) * World (KademliaProtocol ForgetfulStorage.t C) E) peers :
  (∀ i, i ∈ U) → 2 * size U + 1 < fuel → Forall (λ m, mb_bound m.1 = true) (first :: peers) →
  ∃ l, start_cluster fuel use_cache seed first peers = Some (Done l) ∧ length l = S (length peers) ∧
    Forall (λ n, listening n.1 = true) l.
Proof.
  intros HU Hf [Hb Hbs]%Forall_cons.
  assert (∀ m w, mb_bound m = true → ∃ w' srv,
    make_node (C := C) (E := E) use_cache m w = (w', Done srv) ∧ listening srv = true) as Hn.
  { intros m w Hm. unfold make_node, start_listening, mbind, M_bind. rewrite Hm. destruct (pause w) as [w1 u].
    by eexists _, _. }
  assert (∃ l, make_peers fuel use_cache seed peers = Some (Done l) ∧ length l = length peers ∧
    Forall (λ n, listening n.1 = true) l) as (l & Hl & Hlen & Hls).
  { induction Hbs as [|[m w] peers Hm _ (l & IH & Hlen & Hls)]; [by exists []|]. cbn [make_peers]. simpl in Hm.
    unfold make_peer, mbind, option_bind, F_bind, lift. destruct (Hn m w Hm) as (w' & srv & -> & Hsrv).
    destruct (total_bootstrap (C := C) (E := E) U HU fuel Hf srv [("127.0.0.1"%string, seed)] w') as [[w2 ns] ->].
    rewrite IH. exists ((srv, w2) :: l). simpl. split_and!; [done|lia|by constructor]. }
  unfold start_cluster. destruct (Hn first.1 first.2 Hb) as (w' & srv & -> & Hsrv). rewrite Hl. simpl.
  eexists. split; [done|]. simpl. rewrite length_fmap. split; [lia|]. constructor; [done|]. by apply Forall_fmap.
Qed.

(** The writers take turns. *)
Lemma writer_in_cluster num_nodes i : 0 < num_nodes → writer_of num_nodes i < num_nodes.
Proof. intros Hn. apply Nat.mod_upper_bound. lia. Qed.

Module MeasuresExample.

Definition times : list Z := [50; 10; 40; 20; 30]%Z.

Example percentiles :
  (percentile (sorted_samples times) 50, percentile (sorted_samples times) 95, percentile [] 50) = (30, 50, 0)%Z.
Proof. reflexivity. Qed.

Example latencies : report times = Some (10, 50, 50)%Z ∧ report [] = None.
Proof. split; reflexivity. Qed.

Example workload :
  run_set_workload 5 2 (λ t, t) (λ t i, (if i =? 3 then None else Some (Some true), default 0%Z (times !! i))) =
  Some (mkResults [10; 30; 40; 50]%Z 4 1).
Proof. vm_compute. reflexivity. Qed.

End MeasuresExample.
