(* ===== verification/Wire.v ===== *)
(** * What nodes rely on in the serialization of frames

    bincode is a parameter ([Bincode]); [BincodeLaws] is what a network of nodes
    needs of it: a frame of the widths of its fields is read back as it was
    written, in little more room than its contents. [Codec] is a serialization
    that meets the laws, for the concrete networks. *)

From S2P Require Import Prelude Utils Node Storage Fragmentation FragmentationProps Messages.
From S2P Require Import Effects Protocol Transport.

(** ** Laws *)

(** The room the contents of a message take. *)
Definition node_size (n : WireNode) : nat := 40 + default 0 (String.length <$> wire_ip n).

Lemma node_sizes_cons n ns : sum_list (node_size <$> n :: ns) = node_size n + sum_list (node_size <$> ns).
Proof. done. Qed.

Definition content_size (m : RpcMessage) : nat :=
  match m with
  | Store _ _ v | UpdateStatusList _ _ v | FindValueHit v | FindHashHit v => length v
  | Update _ _ v s => length v + length s
  | FindNodeResult ns | FindValueNodes ns => sum_list (node_size <$> ns)
  | _ => 0
  end.

(** The fields of a message fit their types: ports are 16 bits wide. *)
Definition wire_nodes (m : RpcMessage) : list WireNode :=
  match m with FindNodeResult ns | FindValueNodes ns => ns | _ => [] end.

Definition port_ok (n : WireNode) : Prop := ∀ p, wire_port n = Some p → (0 ≤ p < 65536)%Z.

Record frame_ok (f : Frame) : Prop := {
  fo_id : (0 ≤ msg_id f < 2 ^ 32)%Z;
  fo_ports : Forall port_ok (wire_nodes (message f));
  fo_size : (Z.of_nat (content_size (message f)) ≤ MAX_MESSAGE_SIZE)%Z
}.

Class BincodeLaws `{Bincode} := {
  bincode_roundtrip f : frame_ok f →
    ∃ b, serialize f = Some b ∧ deserialize b = Some f ∧ length b ≤ 100 + content_size (message f)
}.

(** ** A serialization *)

Module Codec.

#[local] Arguments be_bytes : simpl never.

(** A value, and what is left of the bytes. *)
Definition reader (A : Type) : Type := bytes → option (A * bytes).

#[global] Instance reader_ret : MRet reader := λ A a l, Some (a, l).
#[global] Instance reader_bind : MBind reader := λ A B f r l,
  match r l with Some (a, l') => f a l' | None => None end.

Definition reads {A} (r : reader A) (b : bytes) (a : A) : Prop := ∀ rest, r (b ++ rest) = Some (a, rest).

Lemma reads_bind {A B} (r : reader A) (f : A → reader B) b b' a x :
  reads r b a → reads (f a) b' x → reads (r ≫= f) (b ++ b') x.
Proof. intros Hr Hf rest. unfold mbind, reader_bind. by rewrite <-(assoc_L (++)), Hr, Hf. Qed.

Lemma reads_ret {A B} (r : reader A) (f : A → B) b a :
  reads r b a → reads (x ← r; mret (f x)) b (f a).
Proof. intros Hr rest. unfold mbind, reader_bind. by rewrite Hr. Qed.

Definition read_n (n : nat) : reader bytes := λ l,
  if n <=? length l then Some (take n l, drop n l) else None.

Lemma reads_n b : reads (read_n (length b)) b b.
Proof.
  intros rest. unfold read_n. rewrite (proj2 (Nat.leb_le _ _)) by (rewrite length_app; lia).
  by rewrite take_app_length, drop_app_length.
Qed.

Definition read_int (n : nat) : reader Z := b ← read_n n; mret (be_value b).

Lemma reads_int n x : (0 ≤ x < 256 ^ Z.of_nat n)%Z → reads (read_int n) (be_bytes n x) x.
Proof.
  intros Hx. rewrite <-(be_value_field n x Hx) at 2. apply reads_ret.
  rewrite <-(length_be_bytes n x) at 1. apply reads_n.
Qed.

Definition read_ident : reader ident := λ l,
  match read_n ID_LEN l with
  | Some (b, l') => (λ i, (i, l')) <$> ident_of_bytes b
  | None => None
  end.

Lemma reads_ident i : reads read_ident (ident_bytes i) i.
Proof.
  intros rest. unfold read_ident. rewrite <-(length_ident_bytes i), reads_n.
  by rewrite ident_of_bytes_ident.
Qed.

(** A vector of bytes, with its length before it. *)
Definition write_bytes (b : bytes) : bytes := be_bytes 8 (Z.of_nat (length b)) ++ b.
Definition read_bytes : reader bytes := n ← read_int 8; read_n (Z.to_nat n).

Lemma reads_bytes b : (Z.of_nat (length b) < 2 ^ 64)%Z → reads read_bytes (write_bytes b) b.
Proof.
  intros Hb. eapply reads_bind; [apply reads_int; simpl; lia|]. rewrite Nat2Z.id. apply reads_n.
Qed.

Definition write_bool (b : bool) : bytes := be_bytes 1 (if b then 1 else 0)%Z.
Definition read_bool : reader bool := n ← read_int 1; mret (n =? 1)%Z.

Lemma reads_bool b : reads read_bool (write_bool b) b.
Proof.
  replace b with ((if b then 1 else 0) =? 1)%Z at 2 by (by destruct b).
  apply (reads_ret (read_int 1) (λ n, n =? 1)%Z). apply reads_int. by destruct b.
Qed.

Definition write_option {A} (write : A → bytes) (o : option A) : bytes :=
  match o with Some a => write_bool true ++ write a | None => write_bool false end.
Definition read_option {A} (r : reader A) : reader (option A) :=
  b ← read_bool; if (b : bool) then a ← r; mret (Some a) else mret None.

Lemma reads_option {A} (write : A → bytes) (r : reader A) o :
  (∀ a, o = Some a → reads r (write a) a) → reads (read_option r) (write_option write o) o.
Proof.
  intros Hr. unfold read_option. destruct o as [a|]; cbn [write_option].
  - eapply reads_bind; [apply reads_bool|]. apply (reads_ret _ Some), Hr. done.
  - rewrite <-(app_nil_r (write_bool false)). eapply reads_bind; [apply reads_bool|]. by intros rest.
Qed.

Fixpoint read_times {A} (n : nat) (r : reader A) : reader (list A) :=
  match n with
  | O => mret []
  | S n' => a ← r; l ← read_times n' r; mret (a :: l)
  end.

Lemma reads_times {A} (write : A → bytes) (r : reader A) l :
  Forall (λ a, reads r (write a) a) l → reads (read_times (length l) r) (mjoin (write <$> l)) l.
Proof.
  induction 1 as [|a l Ha _ IH]; simpl; [by intros rest|].
  eapply reads_bind; [exact Ha|]. apply (reads_ret _ (cons a)). exact IH.
Qed.

Definition write_list {A} (write : A → bytes) (l : list A) : bytes :=
  be_bytes 8 (Z.of_nat (length l)) ++ mjoin (write <$> l).
Definition read_list {A} (r : reader A) : reader (list A) := n ← read_int 8; read_times (Z.to_nat n) r.

Lemma reads_list {A} (write : A → bytes) (r : reader A) l :
  (Z.of_nat (length l) < 2 ^ 64)%Z → Forall (λ a, reads r (write a) a) l →
  reads (read_list r) (write_list write l) l.
Proof.
  intros Hl Hr. eapply reads_bind; [apply reads_int; simpl; lia|]. rewrite Nat2Z.id. by apply reads_times.
Qed.

(** Strings, by their bytes. *)
Definition write_string (s : string) : bytes := write_bytes (String.list_byte_of_string s).
Definition read_string : reader string := b ← read_bytes; mret (String.string_of_list_byte b).

Lemma length_list_byte s : length (String.list_byte_of_string s) = String.length s.
Proof.
  unfold String.list_byte_of_string. rewrite List.length_map. induction s as [|a s IH]; [done|]. simpl. by rewrite IH.
Qed.

Lemma reads_string s : (Z.of_nat (String.length s) < 2 ^ 64)%Z → reads read_string (write_string s) s.
Proof.
  intros Hs. rewrite <-(String.string_of_list_byte_of_string s) at 2. apply reads_ret, reads_bytes.
  by rewrite length_list_byte.
Qed.

(** ** Nodes and messages *)

Definition write_node (n : WireNode) : bytes :=
  ident_bytes (wire_id n) ++ write_option write_string (wire_ip n) ++
  write_option (be_bytes 2) (wire_port n).

Definition read_node : reader WireNode :=
  i ← read_ident; a ← read_option read_string; p ← read_option (read_int 2); mret (mkWire i a p).

Lemma reads_node n :
  (Z.of_nat (node_size n) ≤ MAX_MESSAGE_SIZE)%Z → port_ok n → reads read_node (write_node n) n.
Proof.
  intros Hs Hp. destruct n as [i a p]. eapply reads_bind; [apply reads_ident|].
  eapply reads_bind; [|eapply (reads_ret _ (mkWire i a))].
  - apply reads_option. intros s ->. apply reads_string. unfold node_size, MAX_MESSAGE_SIZE in Hs. simpl in *. lia.
  - apply reads_option. intros x ->. by apply reads_int, Hp.
Qed.

Lemma length_write_node n : length (write_node n) ≤ node_size n.
Proof.
  destruct n as [i [s|] [p|]]; unfold write_node, node_size; simpl;
    rewrite !length_app, length_ident_bytes; simpl; rewrite ?length_app, ?length_be_bytes, ?length_list_byte;
    simpl; unfold ID_LEN; lia.
Qed.

Definition write_status (s : StoreStatus) : bytes :=
  be_bytes 1 match s with
             | SStored => 0 | SAlreadyStored => 1 | SConflict => 2 | SCapacityExceeded => 3 | SInvalidRecord => 4
             end%Z.
Definition read_status : reader StoreStatus :=
  n ← read_int 1;
  mret (if (n =? 0)%Z then SStored else if (n =? 1)%Z then SAlreadyStored
        else if (n =? 2)%Z then SConflict else if (n =? 3)%Z then SCapacityExceeded else SInvalidRecord).

Lemma reads_status s : reads read_status (write_status s) s.
Proof.
  unfold read_status, write_status. set (x := match s with SStored => 0 | _ => _ end%Z).
  assert (0 ≤ x < 256)%Z as Hx by (by destruct s). intros rest. unfold mbind, reader_bind.
  rewrite reads_int by done. by destruct s.
Qed.

Definition tag (m : RpcMessage) : Z :=
  match m with
  | Ping _ => 0 | Pong _ => 1 | Store _ _ _ => 2 | StoreResult _ => 3 | Update _ _ _ _ => 4
  | UpdateResult _ => 5 | UpdateStatusList _ _ _ => 6 | UpdateStatusListResult _ => 7
  | FindNode _ _ => 8 | FindNodeResult _ => 9 | FindValue _ _ => 10 | FindValueNodes _ => 11
  | FindValueHit _ => 12 | Leave _ => 13 | FindHash _ _ => 14 | FindHashHit _ => 15 | Received => 16
  end%Z.

Definition write_body (m : RpcMessage) : bytes :=
  match m with
  | Ping i | Pong i | Leave i => ident_bytes i
  | Store i k v | UpdateStatusList i k v => ident_bytes i ++ ident_bytes k ++ write_bytes v
  | StoreResult s => write_status s
  | Update i k v s => ident_bytes i ++ ident_bytes k ++ write_bytes v ++ write_bytes s
  | UpdateResult b | UpdateStatusListResult b => write_bool b
  | FindNode i k | FindValue i k | FindHash i k => ident_bytes i ++ ident_bytes k
  | FindNodeResult ns | FindValueNodes ns => write_list write_node ns
  | FindValueHit v | FindHashHit v => write_bytes v
  | Received => []
  end.

Definition read_query (f : ident → ident → RpcMessage) : reader RpcMessage :=
  i ← read_ident; k ← read_ident; mret (f i k).
Definition read_record (f : ident → ident → bytes → RpcMessage) : reader RpcMessage :=
  i ← read_ident; k ← read_ident; v ← read_bytes; mret (f i k v).

Definition read_body (t : Z) : reader RpcMessage :=
  match t with
  | 0 => i ← read_ident; mret (Ping i)
  | 1 => i ← read_ident; mret (Pong i)
  | 2 => read_record Store
  | 3 => s ← read_status; mret (StoreResult s)
  | 4 => i ← read_ident; k ← read_ident; v ← read_bytes; s ← read_bytes; mret (Update i k v s)
  | 5 => b ← read_bool; mret (UpdateResult b)
  | 6 => read_record UpdateStatusList
  | 7 => b ← read_bool; mret (UpdateStatusListResult b)
  | 8 => read_query FindNode
  | 9 => ns ← read_list read_node; mret (FindNodeResult ns)
  | 10 => read_query FindValue
  | 11 => ns ← read_list read_node; mret (FindValueNodes ns)
  | 12 => v ← read_bytes; mret (FindValueHit v)
  | 13 => i ← read_ident; mret (Leave i)
  | 14 => read_query FindHash
  | 15 => v ← read_bytes; mret (FindHashHit v)
  | 16 => mret Received
  | _ => λ _, None
  end%Z.

Lemma reads_query f i k : reads (read_query f) (ident_bytes i ++ ident_bytes k) (f i k).
Proof. eapply reads_bind; [apply reads_ident|]. apply (reads_ret _ (f i)), reads_ident. Qed.

Lemma reads_record f i k v :
  (Z.of_nat (length v) < 2 ^ 64)%Z →
  reads (read_record f) (ident_bytes i ++ ident_bytes k ++ write_bytes v) (f i k v).
Proof.
  intros Hv. eapply reads_bind; [apply reads_ident|]. eapply reads_bind; [apply reads_ident|].
  by apply (reads_ret _ (f i k)), reads_bytes.
Qed.

Lemma reads_nodes ns :
  Forall port_ok ns → (Z.of_nat (sum_list (node_size <$> ns)) ≤ MAX_MESSAGE_SIZE)%Z →
  reads (read_list read_node) (write_list write_node ns) ns.
Proof.
  intros Hp Hs. assert (length ns ≤ sum_list (node_size <$> ns)) as Hl.
  { clear. induction ns as [|n ns IH]; [done|]. rewrite node_sizes_cons. unfold node_size at 1. simpl length. lia. }
  apply reads_list; [unfold MAX_MESSAGE_SIZE in Hs; lia|]. clear Hl.
  revert Hs. induction Hp as [|n ns Hn _ IH]; [constructor|]. rewrite node_sizes_cons. intros Hs.
  constructor; [apply reads_node; [lia|done]|]. apply IH. lia.
Qed.

Lemma reads_body m :
  Forall port_ok (wire_nodes m) → (Z.of_nat (content_size m) ≤ MAX_MESSAGE_SIZE)%Z →
  reads (read_body (tag m)) (write_body m) m.
Proof.
  unfold MAX_MESSAGE_SIZE. intros Hp Hs.
  destruct m; cbn [tag read_body write_body content_size wire_nodes] in *; try (apply reads_query); try (apply reads_record; lia);
    try (apply reads_ret, reads_ident); try (apply reads_ret, reads_bool); try (apply reads_ret, reads_status);
    try (apply reads_ret, reads_bytes; lia); try (apply reads_ret, reads_nodes; done).
  - eapply reads_bind; [apply reads_ident|]. eapply reads_bind; [apply reads_ident|].
    eapply (reads_bind read_bytes); [apply reads_bytes; lia|]. apply (reads_ret _ (Update _ _ _)), reads_bytes. lia.
  - by intros rest.
Qed.

Definition write_frame (f : Frame) : bytes :=
  be_bytes 4 (msg_id f) ++ write_bool (is_request f) ++ be_bytes 1 (tag (message f)) ++ write_body (message f).

Definition read_frame : reader Frame :=
  i ← read_int 4; r ← read_bool; t ← read_int 1; m ← read_body t; mret (mkFrame i r m).

Lemma reads_frame f : frame_ok f → reads read_frame (write_frame f) f.
Proof.
  intros [Hi Hp Hs]. destruct f as [i r m]. simpl in *. eapply reads_bind; [by apply reads_int|].
  eapply reads_bind; [apply reads_bool|]. eapply reads_bind; [apply reads_int; by destruct m|].
  by apply (reads_ret _ (mkFrame i r)), reads_body.
Qed.

#[global] Instance bincode : Bincode := {|
  serialize f := Some (write_frame f);
  deserialize b := match read_frame b with Some (f, []) => Some f | _ => None end
|}.

Lemma length_write_nodes ns : length (write_list write_node ns) ≤ 8 + sum_list (node_size <$> ns).
Proof.
  unfold write_list. rewrite length_app, length_be_bytes. apply Nat.add_le_mono_l.
  induction ns as [|n ns IH]; [done|]. rewrite node_sizes_cons.
  change (mjoin (write_node <$> n :: ns)) with (write_node n ++ mjoin (write_node <$> ns)).
  rewrite length_app. pose proof (length_write_node n). lia.
Qed.

Lemma length_write_body m : length (write_body m) ≤ 60 + content_size m.
Proof.
  assert (∀ b, length (write_bytes b) = 8 + length b) as Hb.
  { intros b. unfold write_bytes. by rewrite length_app, length_be_bytes. }
  destruct m as [| | | | | | | | |ns| |ns| | | | |]; cbn [write_body content_size];
    try (pose proof (length_write_nodes ns); lia);
    rewrite ?length_app, ?length_ident_bytes, ?Hb; unfold ID_LEN, write_status, write_bool;
    rewrite ?length_be_bytes; simpl; lia.
Qed.

#[global] Instance bincode_laws : BincodeLaws.
Proof.
  split. intros f Hf. exists (write_frame f). split; [done|]. split.
  - simpl. pose proof (reads_frame f Hf []) as Hr. rewrite app_nil_r in Hr. by rewrite Hr.
  - unfold write_frame. rewrite !length_app, !length_be_bytes. pose proof (length_write_body (message f)).
    simpl. lia.
Qed.

End Codec.
