(* ===== verification/Cluster.v ===== *)
(** * Several nodes on one network

    The other files see one node, and the network as its environment. Here the
    environment of a node is made of nodes: datagrams that a node sends reach
    the others, which run [handle_datagram] and the tasks it starts on their own
    state, and whose datagrams come back. The network is reliable: it loses and
    reorders nothing, and delivers the datagrams of a message once its last one
    is sent. Clocks stand still.

    While a node awaits, the others run; they await too, so the environment is
    indexed by the number of nested waits it serves ([NetAt]). At depth 0
    nobody else runs. One suffices for a request that its receiver answers by
    itself, two for a STORE, whose receiver asks its own peers. *)

From S2P Require Import Prelude Utils Node Routing Storage Fragmentation Messages Retransmit.
From S2P Require Import Crypto AuthHandler Crawling Effects Protocol Transport Client Handlers.

(** A datagram under way: its sender, its receiver, its bytes. *)
Abbreviation Datagram := (SocketAddr * SocketAddr * bytes)%type.

(** The network seen from the node at [net_self]: the states of the other nodes,
    the datagrams under way, and the clocks. *)
Record Net (P : Type) := mkNet {
  net_self : SocketAddr;
  net_instant : Z;
  net_unix : Z;
  net_others : gmap SocketAddr P;
  net_flight : list Datagram
}.
Arguments mkNet {P} _ _ _ _ _.
Arguments net_self {P} _.
Arguments net_instant {P} _.
Arguments net_unix {P} _.
Arguments net_others {P} _.
Arguments net_flight {P} _.

(** The network of nodes with the rule [handler], serving [n] nested waits. *)
Definition NetAt (P : Type) (handler : SignatureVerifierHandler) (n : nat) : Type := Net P.

(** ** Points of view *)

Section views.
Context {P : Type}.

(** All the nodes. *)
Definition net_nodes (w : World P (Net P)) : gmap SocketAddr P :=
  <[net_self (env w) := proto w]> (net_others (env w)).

(** The same network, seen from [a]. *)
Definition focus (a : SocketAddr) (w : World P (Net P)) : option (World P (Net P)) :=
  let e := env w in
  q ← net_nodes w !! a;
  Some (mkW q (mkNet a (net_instant e) (net_unix e) (delete a (net_nodes w)) (net_flight e))).

(** [m] run by the node at [a], if there is one. *)
Definition at_node {A} (a : SocketAddr) (m : M P (Net P) A) (w : World P (Net P)) : World P (Net P) :=
  match focus a w with
  | None => w
  | Some w1 => default w (focus (net_self (env w)) (m w1).1)
  end.

Definition with_flight (l : list Datagram) (e : Net P) : Net P :=
  mkNet (net_self e) (net_instant e) (net_unix e) (net_others e) l.

(** The last datagram under way is the last one of its message. *)
Definition last_fragment (data : bytes) : bool :=
  match parse_fragment data with
  | Some (h, _) => (index h + 1 =? total h)%Z
  | None => true
  end.

Definition ready (l : list Datagram) : bool :=
  match last l with Some (_, _, data) => last_fragment data | None => false end.

End views.

(** ** The nodes as an environment *)

Section net.
Context {St C : Type} `{Sha1, Sha256, Bincode, Ipv6Syntax, HashOrder}.
Context `{IStorage St, MokaCache C} (handler : SignatureVerifierHandler).
Abbreviation P := (KademliaProtocol St C).
Abbreviation W := (World P (Net P)).

(** The tasks that wait for a lookup; the others have not started yet. *)
Definition is_store_task (t : Task) : bool := match t with HandleStore _ _ _ _ => true | _ => false end.

Definition store_tasks (p : P) : list Task := filter (λ t, is_store_task t = true) (default [] (tasks p)).

Definition take_store_tasks (p : P) : P * list Task :=
  (with_tasks (filter (λ t, is_store_task t = false) <$> tasks p) p, store_tasks p).

(** Lookups with a deadline have time for [rounds] rounds, and answers arrive in
    some order. *)
Class Rounds := rounds_of_lookup : nat.

#[global] Program Instance net_schedule `{Rounds} n : LookupSchedule (NetAt P handler n) := {|
  round_env _ _ := ValueSpiderCrawl.mkEnv false hash_order None false;
  rounds_in_time _ := rounds_of_lookup
|}.
Next Obligation. intros. apply hash_order_perm. Qed.

Context `{Rounds}.

(** The environment whose awaits are [wait]. *)
Definition net_with (wait : Net P → P → Net P * P) : Environment (Net P) P := {|
  instant := net_instant;
  unix_time := net_unix;
  jitter _ _ := 0%Z;
  random_id e := (e, ident_ends x00 x00);
  others := wait;
  send_to e a d := (with_flight (net_flight e ++ [(net_self e, a, d)]) e, true);
  wakeups _ := [OnAnswer]
|}.

Section wait.
Context (wait : Net P → P → Net P * P).
#[local] Instance env_with : Environment (Net P) P := net_with wait.
#[local] Instance schedule_with : LookupSchedule (Net P) := net_schedule 0.

(** What the arrival of a datagram starts: [handle_datagram], and the STOREs it
    leaves to a task. *)
Definition run_store_task (t : Task) : M P (Net P) unit :=
  match t with
  | HandleStore peer request i m => store_task handler peer request i m
  | _ => mret tt
  end.

Definition arrive (data : bytes) (from : SocketAddr) : M P (Net P) unit :=
  handle_datagram handler data from ;;
  ts ← update take_store_tasks;
  for_each run_store_task ts ;; mret tt.

Definition deliver_datagram (w : W) (d : Datagram) : W :=
  let '(from, to, data) := d in at_node to (arrive data from) w.

(** The datagrams under way arrive. *)
Definition settle (w : W) : W :=
  if ready (net_flight (env w))
  then foldl deliver_datagram (mkW (proto w) (with_flight [] (env w))) (net_flight (env w))
  else w.

End wait.

(** An await: what is under way arrives, then what was sent meanwhile. *)
Fixpoint net_wait (n : nat) (e : Net P) (p : P) : Net P * P :=
  match n with
  | O => (e, p)
  | S n' => let w := settle (net_wait n') (settle (net_wait n') (mkW p e)) in (env w, proto w)
  end.

#[global] Instance net_env n : Environment (NetAt P handler n) P := net_with (net_wait n).

End net.
