(* ===== verification/ClusterCalls.v ===== *)
(** * A call between two nodes

    On the network of Cluster, a call returns what its receiver answers. The
    state of the network is described by a [View] of each node, the parts of its
    state that calls and requests change, and the datagrams under way. *)

From S2P Require Import Prelude Utils Node Routing BucketProps RoutingProps RoutingSpec Storage.
From S2P Require Import Fragmentation FragmentationProps Messages Retransmit Crypto AuthHandler Crawling.
From S2P Require Import Effects Protocol Transport Client Handlers ContactsProps Wire Cluster.

(** ** Fragments that arrive in order *)

Section fragments.
Context (now : Z) (peer : SocketAddr) (f : Z) (payload : bytes).
Let cs := message_chunks payload.
Context (Hf : (0 ≤ f < 2 ^ 32)%Z).
Context (Hsize : (Z.of_nat (length cs) * Z.of_nat FRAG_CHUNK_SIZE ≤ MAX_MESSAGE_SIZE)%Z).

Lemma chunks_fit : fits payload.
Proof using Hsize.
  unfold fits. rewrite <-(message_chunks_join payload). pose proof (message_chunks_size payload) as Hc. fold cs in Hc |- *.
  assert (length (mjoin cs) ≤ length cs * FRAG_CHUNK_SIZE) as Hl.
  { clear Hsize. induction cs as [|c l IH]; [done|]. change (mjoin (c :: l)) with (c ++ mjoin l).
    rewrite length_app. cbn [length]. rewrite Nat.mul_succ_l. pose proof (Hc c ltac:(by left)). assert (length (mjoin l) ≤ length l * FRAG_CHUNK_SIZE); [|lia].
    apply IH. intros. apply Hc. by right. }
  unfold MAX_MESSAGE_SIZE, FRAG_CHUNK_SIZE in *. lia.
Qed.

(** The buffers after the first [j] fragments of the message. *)
Definition buffers_after (j : nat) (m : ReassemblyMap) : Prop :=
  match j with
  | O => m = ∅
  | _ => ∃ e, m = {[(peer, f) := e]} ∧ holds_chunks cs (set_seq 0 j) e ∧ ReassemblyEntry.created_at e = now
  end.

Lemma fragment_lookup j d :
  encode_fragments f payload !! j = Some d →
  ∃ c, cs !! j = Some c ∧ parse_fragment d = Some (mkHeader f (Z.of_nat j) (Z.of_nat (length cs)), c).
Proof using Hf Hsize.
  pose proof chunks_fit as Hfit. pose proof (message_chunks_count payload Hfit) as Hn.
  rewrite encode_fragments_eq by done. rewrite list_lookup_imap. fold cs in Hn |- *.
  destruct (cs !! j) as [c|] eqn:Hc; [|done]. simpl. intros [= <-]. exists c. split; [done|].
  pose proof (lookup_lt_Some _ _ _ Hc).
  apply parse_frag_header; [done|lia|lia|]. eapply message_chunks_size, list_elem_of_lookup_2, Hc.
Qed.

Lemma length_fragments : length (encode_fragments f payload) = length cs.
Proof using Hsize. rewrite encode_fragments_eq by apply chunks_fit. by rewrite length_imap. Qed.

Lemma fragments_nonempty : 0 < length cs.
Proof using Hsize. pose proof (message_chunks_count payload chunks_fit) as Hn. fold cs in Hn. lia. Qed.

Lemma last_fragment_iff j d :
  encode_fragments f payload !! j = Some d → last_fragment d = bool_decide (S j = length cs).
Proof using Hf Hsize.
  intros (c & Hc & Hp)%fragment_lookup. unfold last_fragment. rewrite Hp. simpl.
  case_bool_decide; [apply Z.eqb_eq|apply Z.eqb_neq]; lia.
Qed.

Lemma size_seq_gset (n : nat) : size (set_seq (C := gset nat) 0 n) = n.
Proof using. apply size_set_seq. Qed.

Lemma map_single (m : ReassemblyMap) k e : (∀ k', k' ≠ k → m !! k' = None) → m !! k = Some e → m = {[k := e]}.
Proof using.
  intros Hne He. apply map_eq. intros k'. destruct (decide (k' = k)) as [->|Hk].
  - by rewrite lookup_singleton_eq.
  - by rewrite Hne, lookup_singleton_ne.
Qed.

Lemma receive_next r j d :
  buffers_after j (reassembly r) → encode_fragments f payload !! j = Some d →
  let res := receive_payload now r peer d in
  if bool_decide (S j = length cs) then res.2 = Some payload ∧ reassembly res.1 = ∅
  else res.2 = None ∧ buffers_after (S j) (reassembly res.1).
Proof using Hf Hsize.
  intros Hb (c & Hc & Hp)%fragment_lookup. pose proof (lookup_lt_Some _ _ _ Hc) as Hj.
  unfold receive_payload. rewrite Hp. cbn [total index frag_id].
  destruct (Z.eqb_spec (Z.of_nat (length cs)) 1) as [E|E].
  { assert (length cs = 1) as E1 by lia. assert (j = 0) as -> by lia. cbn zeta. cbn [fst snd].
    rewrite bool_decide_eq_true_2 by lia. split; [|done]. f_equal.
    rewrite <-(message_chunks_join payload). fold cs. destruct cs as [|c0 [|]]; simplify_eq/=. by rewrite app_nil_r. }
  rewrite (proj2 (Z.ltb_ge _ _)) by lia.
  set (h := mkHeader f (Z.of_nat j) (Z.of_nat (length cs))).
  assert (fragment_of f cs h c) as Hfr.
  { split; [done|]. split; [done|]. simpl. split; [lia|]. by rewrite Nat2Z.id. }
  set (m0 := reassembly (gc_reassembly now r)).
  assert (∀ k', k' ≠ (peer, f) → m0 !! k' = None) as Hothers.
  { intros k' Hk. eapply lookup_weaken_None; [|apply gc_reassembly_incl]. destruct j as [|j]; [by rewrite Hb|].
    destruct Hb as (e & -> & _). by rewrite lookup_singleton_ne. }
  assert (∃ e, buffer_after now cs (set_seq 0 (S j)) e m0 (peer, f) (accept_fragment now m0 peer h c) ∧
    ReassemblyEntry.created_at e = now) as (e & Hs & Hcr).
  { destruct j as [|j].
    - exists (ReassemblyEntry.new now (Z.of_nat (length cs))). split; [|done].
      assert (set_seq (C := gset nat) 0 1 = {[Z.to_nat (index h)]}) as -> by (simpl; set_solver).
      apply (accept_first now m0 peer h c cs f); [|apply gc_reassembly_room; rewrite Hb; split; vm_compute; lia|done].
      eapply lookup_weaken_None; [|apply gc_reassembly_incl]. by rewrite Hb.
    - destruct Hb as (e & Hm & He & Hcr). exists e. split; [|done].
      assert (set_seq (C := gset nat) 0 (S (S j)) = {[Z.to_nat (index h)]} ∪ set_seq 0 (S j)) as ->.
      { simpl index. rewrite Nat2Z.id. apply set_eq. intros x. rewrite elem_of_union, elem_of_singleton, !elem_of_set_seq. lia. }
      apply accept_step; [|done|done]. apply gc_reassembly_lookup; [by rewrite Hm, lookup_singleton_eq|].
      rewrite Hcr. unfold REASSEMBLY_TTL, from_secs. lia. }
  pose proof (accept_other now m0 peer h c) as Ho. fold m0.
  destruct (accept_fragment now m0 peer h c) as [m o] eqn:Ea. cbn [fst snd reassembly].
  unfold buffer_after in Hs. rewrite size_seq_gset in Hs. case_bool_decide as Efull; cbn [fst snd] in Hs.
  - destruct Hs as [Hm ->]. split; [unfold cs; by rewrite message_chunks_join|].
    apply map_empty. intros k'. destruct (decide (k' = (peer, f))) as [->|Hk]; [done|].
    cbn [fst frag_id h] in Ho. rewrite Ho by done. by apply Hothers.
  - destruct Hs as (-> & e' & Hm & He & Hcr'). split; [done|]. exists e'. split; [|split; [done|congruence]].
    apply map_single; [|done]. intros k' Hk. cbn [fst frag_id h] in Ho. rewrite Ho by done. by apply Hothers.
Qed.

End fragments.

Lemma triple_fmap {P E A B} (Pre : World P E → Prop) (m : M P E A) (f : A → B) Mid Post :
  triple Pre m Mid → (∀ x w, Mid x w → Post (f x) w) → triple Pre (f <$> m) Post.
Proof.
  intros Hm Hf w Hw. specialize (Hm w Hw). unfold fmap, M_fmap. destruct (m w) as [w' x]. by apply Hf.
Qed.

Lemma triple_ex {P E A X} (Pre : X → World P E → Prop) (m : M P E A) Post :
  (∀ x, triple (Pre x) m Post) → triple (λ w, ∃ x, Pre x w) m Post.
Proof. intros Hm w [x Hx]. by apply (Hm x). Qed.

Lemma triple_one {P E A B} (Pre : World P E → Prop) (f : A → M P E B) x (Post : World P E → Prop) :
  triple Pre (f x) (λ _, Post) → triple Pre (for_each f [x] ;; mret tt) (λ _, Post).
Proof. intros Hm w Hw. specialize (Hm w Hw). cbn [for_each]. unfold mbind, M_bind. by destruct (f x w). Qed.

(** ** The network *)

Section cluster.
Context {St C : Type} `{Sha1, Sha256, BincodeLaws, Ipv6Syntax, HashOrder}.
Context `{IStorage St, MokaCache C} (handler : SignatureVerifierHandler) `{Rounds}.
Abbreviation P := (KademliaProtocol St C).
Abbreviation W := (World P (Net P)).

(** The members of the network, by their addresses. *)
Context (now unix : Z) (who : gmap SocketAddr ident).

Definition member (a : SocketAddr) (i : ident) : Node :=
  Node_new i (Some (addr_ip a)) (Some (addr_port a)).

Definition is_member (c : Node) : Prop := ∃ a i, who !! a = Some i ∧ c = member a i.

(** Addresses of members are found again, short, and tell members apart. *)
Record members_ok : Prop := {
  mo_addr a i : who !! a = Some i → socket_addr (addr_ip a, addr_port a) = Some a;
  mo_port a i : who !! a = Some i → (0 ≤ addr_port a < 65536)%Z;
  mo_ip a i : who !! a = Some i → String.length (addr_ip a) ≤ 60;
  mo_inj a b i : who !! a = Some i → who !! b = Some i → a = b
}.

(** A table of members that respond. *)
Record table_ok (a : SocketAddr) (rt : RoutingTable.t) : Prop := {
  to_wf : wf rt;
  to_self : who !! a = Some (id (RoutingTable.node rt));
  to_health : RoutingTable.health rt = ∅;
  to_members c : known_node (RoutingTable.buckets rt) c → is_member c;
  to_contact : RoutingTable.primaries rt ≠ [];
  to_ksize : 0 < RoutingTable.ksize rt ≤ 1000
}.

(** [trusted] is a record whose verdict no cache denies. *)
Context (trusted : bytes).

Record node_ok (a : SocketAddr) (p : P) : Prop := {
  no_self : who !! a = Some (id (source_node p));
  no_running : tasks p ≠ None;
  no_ids : (0 ≤ next_msg_id (transport p) < 2 ^ 32)%Z;
  no_table : table_ok a (router_of p);
  no_ksize : 0 < Protocol.ksize p ≤ 1000;
  no_cache c : sig_cache p = Some c → cache_get now c (compute_key SelfSigned trusted) ≠ Some false
}.

(** What calls and requests change in a node. *)
Record View := mkView {
  v_store : St;
  v_pending : gmap Z PendingCall;
  v_delivered : gmap N RpcMessage;
  v_busy : gset RequestKey;
  v_slots : Z;
  v_buffers : ReassemblyMap;
  v_tasks : list Task
}.

Definition view (p : P) : View :=
  let t := transport p in
  mkView (storage p) (pending t) (delivered t) (requests_in_progress t) (store_lookups t)
    (reassembly (reassembler t)) (store_tasks p).

Abbreviation Views := (gmap SocketAddr View).

(** The network as the node at [a] sees it. *)
Record seen (V : Views) (fl : list Datagram) (a : SocketAddr) (w : W) : Prop := {
  s_self : net_self (env w) = a;
  s_instant : net_instant (env w) = now;
  s_unix : net_unix (env w) = unix;
  s_views : view <$> net_nodes w = V;
  s_nodes x p : net_nodes w !! x = Some p → node_ok x p;
  s_flight : net_flight (env w) = fl
}.

Lemma seen_self V fl a w : seen V fl a w → V !! a = Some (view (proto w)) ∧ node_ok a (proto w).
Proof using.
  intros [<- _ _ <- Hn _]. unfold net_nodes. rewrite lookup_fmap, lookup_insert_eq. split; [done|].
  apply Hn. unfold net_nodes. by rewrite lookup_insert_eq.
Qed.

Lemma seen_set V fl a p p' e v' :
  seen V fl a (mkW p e) → node_ok a p' → view p' = v' → seen (<[a := v']> V) fl a (mkW p' e).
Proof using.
  intros [Hs Hi Hu <- Hn Hf] Hok <-. unfold net_nodes in *. simpl in *. subst a. split; try done; unfold net_nodes; simpl.
  - by rewrite !fmap_insert, insert_insert_eq.
  - intros x q. destruct (decide (x = net_self e)) as [->|Hne].
    + rewrite lookup_insert_eq. by intros [= <-].
    + rewrite lookup_insert_ne by done. intros Hq. apply Hn. by rewrite lookup_insert_ne.
Qed.

(** ** Primitives *)

Section depth.
Context (n : nat).
Abbreviation M := (M P (NetAt P handler n)).
Implicit Types (V : Views) (fl : list Datagram) (a b : SocketAddr).

Lemma tr_pause V fl a : ready fl = false → triple (seen V fl a) (pause : M unit) (λ _, seen V fl a).
Proof using.
  intros Hr [p e] Hw. unfold pause. simpl. destruct n as [|n']; [done|]. simpl.
  assert (∀ wait, settle handler wait (mkW p e) = mkW p e) as E.
  { intros wait. unfold settle. simpl. rewrite (s_flight _ _ _ _ Hw : net_flight e = fl). by rewrite Hr. }
  by rewrite !E.
Qed.

Lemma tr_update {A} V fl a (f : P → P * A) v' :
  (∀ p, node_ok a p → V !! a = Some (view p) → node_ok a (f p).1 ∧ view (f p).1 = v') →
  triple (seen V fl a) (update f : M A) (λ r w, seen (<[a := v']> V) fl a w ∧
    ∃ p, node_ok a p ∧ V !! a = Some (view p) ∧ r = (f p).2).
Proof using.
  intros Hf [p e] Hw. destruct (seen_self V fl a _ Hw) as [HV Hok]. simpl in HV, Hok.
  destruct (Hf p Hok HV) as [Hok' Hv]. unfold update. simpl. destruct (f p) as [p' r] eqn:E. simpl in *.
  split; [by eapply seen_set|]. exists p. by rewrite E.
Qed.

(** An update of what the view does not show. *)
Lemma tr_update_hidden {A} V fl a (f : P → P * A) :
  (∀ p, node_ok a p → V !! a = Some (view p) → node_ok a (f p).1 ∧ view (f p).1 = view p) →
  triple (seen V fl a) (update f : M A) (λ r w, seen V fl a w ∧
    ∃ p, node_ok a p ∧ V !! a = Some (view p) ∧ r = (f p).2).
Proof using.
  intros Hf w Hw. destruct (seen_self V fl a _ Hw) as [HV Hok].
  destruct (tr_update V fl a f (view (proto w)) ltac:(intros p Hp HVp; destruct (Hf p Hp HVp); split; congruence) w Hw)
    as [Hs Hr]. split; [|done]. by rewrite insert_id in Hs.
Qed.

Lemma modify_update (f : P → P) (w : World P (NetAt P handler n)) :
  (modify f : M unit) w = (update (λ p, (f p, tt)) : M unit) w.
Proof using. done. Qed.

Lemma tr_modify V fl a (f : P → P) v' :
  (∀ p, node_ok a p → V !! a = Some (view p) → node_ok a (f p) ∧ view (f p) = v') →
  triple (seen V fl a) (modify f : M unit) (λ _, seen (<[a := v']> V) fl a).
Proof using. intros Hf w Hw. by apply (tr_update V fl a (λ p, (f p, tt)) v' Hf w). Qed.

Lemma tr_modify_hidden V fl a (f : P → P) :
  (∀ p, node_ok a p → V !! a = Some (view p) → node_ok a (f p) ∧ view (f p) = view p) →
  triple (seen V fl a) (modify f : M unit) (λ _, seen V fl a).
Proof using. intros Hf w Hw. by apply (tr_update_hidden V fl a (λ p, (f p, tt)) Hf w). Qed.

Lemma tr_gets {A} V fl a (f : P → A) :
  triple (seen V fl a) (gets f : M A) (λ r w, seen V fl a w ∧
    ∃ p, node_ok a p ∧ V !! a = Some (view p) ∧ r = f p).
Proof using. intros w Hw. destruct (seen_self V fl a _ Hw). split; [done|]. by exists (proto w). Qed.

Lemma tr_instant V fl a : triple (seen V fl a) (asks instant : M Z) (λ r w, r = now ∧ seen V fl a w).
Proof using. intros w Hw. split; [apply Hw|done]. Qed.

Lemma tr_unix V fl a : triple (seen V fl a) (asks unix_time : M Z) (λ r w, r = unix ∧ seen V fl a w).
Proof using. intros w Hw. split; [apply Hw|done]. Qed.

Lemma tr_send V fl a b d :
  triple (seen V fl a) (effect (λ e, send_to e b d) : M bool)
    (λ r w, r = true ∧ seen V (fl ++ [(a, b, d)]) a w).
Proof using.
  intros [p e] [Hs Hi Hu HV Hn Hf]. simpl in *. split; [done|]. subst. by split.
Qed.

(** A message of several datagrams: nothing arrives before the last one. *)
Lemma tr_send_datagrams V fl a b ds :
  ready fl = false → Forall (λ d, last_fragment d = false) (removelast ds) →
  triple (seen V fl a) (send_datagrams b ds : M bool)
    (λ r w, r = true ∧ seen V (fl ++ ((λ d, (a, b, d)) <$> ds)) a w).
Proof using.
  revert fl. induction ds as [|d ds IH]; intros fl Hr Hl; cbn [send_datagrams].
  { rewrite app_nil_r. intros w Hw. done. }
  eapply triple_bind; [by apply tr_pause|]. intros u.
  eapply triple_bind; [apply tr_send|]. intros r. apply triple_pure. intros ->. cbn [negb].
  assert (fl ++ ((λ d, (a, b, d)) <$> d :: ds) = (fl ++ [(a, b, d)]) ++ ((λ d, (a, b, d)) <$> ds)) as ->
    by (by rewrite <-(assoc_L (++))).
  destruct ds as [|d' ds]; [intros w Hw; split; [done|]; by rewrite app_nil_r|].
  apply Forall_cons in Hl as [Hd Hl]. apply IH; [|done].
  unfold ready. by rewrite last_snoc.
Qed.

End depth.

(** ** Points of view *)

Lemma seen_focus V fl a b w w' :
  seen V fl a w → focus b w = Some w' → seen V fl b w' ∧ net_nodes w' = net_nodes w.
Proof using.
  intros [Hs Hi Hu HV Hn Hf]. unfold focus. destruct (net_nodes w !! b) as [q|] eqn:Hq; [|done].
  simpl. intros [= <-]. assert (net_nodes (mkW q (mkNet b (net_instant (env w)) (net_unix (env w))
    (delete b (net_nodes w)) (net_flight (env w)))) = net_nodes w) as E.
  { unfold net_nodes at 1. simpl. by rewrite insert_delete_id. }
  split; [|done]. split; try done; rewrite ?E; done.
Qed.

Lemma focus_seen V fl a b w : seen V fl a w → is_Some (V !! b) → ∃ w', focus b w = Some w' ∧ seen V fl b w'.
Proof using.
  intros Hw Hb. pose proof (s_views _ _ _ _ Hw) as HV. destruct Hb as [v Hb]. rewrite <-HV, lookup_fmap in Hb.
  destruct (net_nodes w !! b) as [q|] eqn:Hq; [|done].
  destruct (focus b w) as [w'|] eqn:E; [|unfold focus in E; by rewrite Hq in E].
  exists w'. split; [done|]. by eapply seen_focus.
Qed.

Lemma at_node_seen {A} V fl V' fl' a b (m : M P (Net P) A) w :
  seen V fl a w → is_Some (V !! b) → is_Some (V' !! a) →
  triple (seen V fl b) m (λ _, seen V' fl' b) → seen V' fl' a (at_node b m w).
Proof using.
  intros Hw Hb Ha Hm. destruct (focus_seen V fl a b w Hw Hb) as (w1 & Hf & Hw1). unfold at_node. rewrite Hf.
  specialize (Hm w1 Hw1). destruct (focus_seen V' fl' b a (m w1).1 Hm Ha) as (w2 & Hf2 & Hw2).
  rewrite (s_self _ _ _ _ Hw), Hf2. done.
Qed.

(** ** Tables *)

Lemma known_node_touch rt i t c :
  known_node (RoutingTable.buckets (RoutingTable.update_bucket rt i (KBucket.touch_last_updated t))) c →
  known_node (RoutingTable.buckets rt) c.
Proof using.
  intros (b & Hb & Hc). apply list_elem_of_lookup in Hb as [j Hj]. simpl in Hj.
  destruct (decide (i = j)) as [<-|Hne].
  - rewrite list_lookup_alter_eq in Hj. destruct (RoutingTable.buckets rt !! i) as [b0|] eqn:Hb0; [|done].
    simpl in Hj. injection Hj as <-. exists b0. split; [by eapply list_elem_of_lookup_2|done].
  - rewrite list_lookup_alter_ne in Hj by done. exists b. split; [by eapply list_elem_of_lookup_2|done].
Qed.

Lemma table_ok_closest a rt t target exclude keep :
  table_ok a rt → table_ok a (RoutingTable.closest t rt target exclude keep).2.
Proof using.
  intros [Hwf Hs Hh Hm Hc Hk]. split; [by apply wf_closest|done|done| | |done].
  - intros c Hc'. apply Hm.
    exact (known_node_touch rt (RoutingTable.bucket_index_for rt (long_id target)) t c Hc').
  - simpl. by rewrite touch_primaries.
Qed.

Lemma table_ok_find a rt t target exclude :
  table_ok a rt → table_ok a (RoutingTable.find_neighbors t rt target exclude).2.
Proof using.
  intros Hok. unfold RoutingTable.find_neighbors.
  pose proof (table_ok_closest a rt t target exclude (λ n, negb (RoutingTable.has_failures rt (id n))) Hok) as Hr1.
  destruct (RoutingTable.closest t rt _ _ _) as [l1 rt1]. simpl in Hr1. case_match; [done|].
  pose proof (table_ok_closest a rt1 t target exclude (λ n, negb (RoutingTable.is_stale rt1 (id n))) Hr1) as Hr2.
  destruct (RoutingTable.closest t rt1 _ _ _) as [l2 rt2]. simpl in Hr2. case_match; [|done].
  by apply table_ok_closest.
Qed.

(** A table with nothing but members, after another one is added. *)
Lemma add_member rt c rt' r :
  wf rt → RoutingTable.health rt = ∅ → (∀ d, known_node (RoutingTable.buckets rt) d → is_member d) → is_member c →
  RoutingTable.add_contact unix rt c = Some (rt', r) →
  grown c rt rt' ∧ RoutingTable.health rt' = ∅ ∧ ∀ d, known_node (RoutingTable.buckets rt') d → is_member d.
Proof using.
  intros Hwf Hh Hm Hmem Ha.
  destruct (wf_add_contact unix rt c Hwf) as (rt1 & r1 & Ha1 & Hg & _). rewrite Ha in Ha1. injection Ha1 as <- <-.
  split; [done|]. split.
  - apply map_empty. intros i. destruct Hg as [_ _ _ _ Hh' _ _]. rewrite Hh in Hh'.
    eapply lookup_weaken_None; [|exact Hh']. apply lookup_empty.
  - intros d Hd. revert Ha. unfold RoutingTable.add_contact. case_bool_decide; [intros [= <- _]; by apply Hm|].
    intros Hi. destruct (insert_nodes _ _ _ _ _ _ d Hi Hd) as [Hd'| ->]; [by apply Hm|done].
Qed.

Lemma table_ok_add a rt c rt' r :
  table_ok a rt → is_member c → RoutingTable.add_contact unix rt c = Some (rt', r) → table_ok a rt'.
Proof using.
  intros [Hwf Hs Hh Hm Hc Hk] Hmem Ha. destruct (add_member rt c rt' r Hwf Hh Hm Hmem Ha) as (Hg & Hh' & Hm').
  destruct Hg as [Hwf' Hn Hk' _ _ Hkeep _]. split; [done|by rewrite Hn|done|done| |by rewrite Hk'].
  destruct (RoutingTable.primaries rt) as [|x l] eqn:Hp; [done|]. intros Hnil.
  assert (id x ∈ ids (RoutingTable.primaries rt')) as Hx.
  { apply primaries_ids, Hkeep; [|unfold RoutingTable.is_stale; by rewrite Hh].
    apply primaries_ids. rewrite Hp. unfold ids. simpl. by left. }
  rewrite Hnil in Hx. by apply not_elem_of_nil in Hx.
Qed.

(** Contacts of the node at [a]: members other than itself. *)
Definition peers_of (a : SocketAddr) (ns : list Node) : Prop :=
  ∀ c, c ∈ ns → ∃ b i, who !! b = Some i ∧ c = member b i ∧ a ≠ b.

Lemma table_peers a rt ns : table_ok a rt → ns ⊆ RoutingTable.primaries rt → peers_of a ns.
Proof using.
  intros [Hwf Hs _ Hm _ _] Hsub c Hc%Hsub. destruct (Hm c (primaries_known rt c Hc)) as (b & i & Hb & ->).
  exists b, i. split; [done|]. split; [done|]. intros <-.
  assert (i = id (RoutingTable.node rt)) as -> by congruence.
  apply primaries_known in Hc as (bk & Hbk & Hc). apply (wf_self _ Hwf bk Hbk).
  unfold all_ids, all_nodes in *. apply (list_elem_of_fmap_2 id) in Hc. done.
Qed.

Lemma candidates_primaries rt target exclude keep : candidates rt target exclude keep ⊆ RoutingTable.primaries rt.
Proof using. intros c [_ Hc]%list_elem_of_filter. done. Qed.

Lemma table_healthy a rt i : table_ok a rt → RoutingTable.has_failures rt i = false ∧ RoutingTable.is_stale rt i = false.
Proof using.
  intros Hok. unfold RoutingTable.has_failures, RoutingTable.is_stale. rewrite (to_health _ _ Hok), lookup_empty.
  split; [|done]. apply bool_decide_eq_false. by intros [].
Qed.

(** The contacts a lookup of the key of a record starts from. *)
Lemma table_neighbors a rt t target :
  table_ok a rt → (∀ x, who !! x ≠ Some (id target)) →
  let ns := (RoutingTable.find_neighbors t rt target None).1 in
  peers_of a ns ∧ ns ≠ [] ∧ length ns ≤ 1000.
Proof using.
  intros Hok Hid ns. pose proof (find_neighbors_top_k t rt target None (to_wf _ _ Hok)) as Ht. fold ns in Ht.
  assert (∀ keep, (∀ c, keep c = true) → candidates rt target None keep = RoutingTable.primaries rt) as Hall.
  { intros keep Hkeep. unfold candidates. apply list_filter_all, Forall_forall. intros c Hc.
    unfold RoutingTable.eligible. rewrite Hkeep. cbn [andb]. rewrite !andb_true_r.
    apply negb_true_iff, bool_decide_eq_false. intros E.
    destruct (to_members _ _ Hok c (primaries_known rt c Hc)) as (b & i & Hb & ->). by apply (Hid b); rewrite <-E. }
  assert (lookup_candidates rt target None = RoutingTable.primaries rt) as Hl.
  { unfold lookup_candidates. rewrite !Hall; [case_match; [done|]; by destruct (RoutingTable.primaries rt)|..].
    all: intros c; try done; destruct (table_healthy a rt (id c) Hok) as [E1 E2]; by rewrite ?E1, ?E2. }
  rewrite Hl in Ht. destruct Ht as [_ Hincl Hlen _]. pose proof (to_ksize _ _ Hok) as Hk.
  split; [by eapply table_peers|]. pose proof (to_contact _ _ Hok) as Hne.
  destruct (RoutingTable.primaries rt) as [|x l]; [done|]. simpl in Hlen. split; [|lia].
  intros E. rewrite E in Hlen. simpl in Hlen. lia.
Qed.

(** The contacts an answer reports to the node that asks. *)
Lemma table_advertise a rt t target c :
  table_ok a rt →
  let ns := (RoutingTable.find_neighbors_to_advertise t rt target (Some c)).1 in
  peers_of a ns ∧ (∀ d, d ∈ ns → id d ≠ id c) ∧ length ns ≤ 1000.
Proof using.
  intros Hok ns. pose proof (closest_top_k t rt target (Some c) (λ n, negb (RoutingTable.is_stale rt (id n)))
    (to_wf _ _ Hok)) as [_ Hincl Hlen _]. fold ns in Hincl, Hlen |- *.
  pose proof (to_ksize _ _ Hok). split; [|split].
  - eapply table_peers; [done|]. etrans; [exact Hincl|]. apply candidates_primaries.
  - intros d Hd%Hincl. apply elem_of_candidates in Hd as (_ & _ & Hd & _). by apply Hd.
  - unfold ns, RoutingTable.find_neighbors_to_advertise. rewrite Hlen. lia.
Qed.

(** ** Contacts *)

Lemma set_router_ok a p rt : node_ok a p → table_ok a rt → node_ok a (set_router rt p) ∧ view (set_router rt p) = view p.
Proof using. intros [? ? ? ? ? ?] Ht. done. Qed.

Lemma spawn_ok a p t :
  node_ok a p → is_store_task t = false → node_ok a (spawn_task t p).1 ∧ view (spawn_task t p).1 = view p.
Proof using.
  intros [Hs Hr Hi Ht Hk Hc] Hst. unfold spawn_task. destruct (tasks p) as [ts|] eqn:E; [|done]. simpl.
  split; [by split|]. unfold view, store_tasks. simpl. rewrite E. simpl.
  rewrite filter_app, filter_cons_False by (by rewrite Hst). by rewrite app_nil_r.
Qed.

Section contacts.
Context (n : nat).
Abbreviation M := (M P (NetAt P handler n)).
Context (V : Views) (fl : list Datagram) (a : SocketAddr) (Hr : ready fl = false).

Lemma tr_read_router :
  triple (seen V fl a) (read_router : M RoutingTable.t) (λ rt w, table_ok a rt ∧ seen V fl a w).
Proof using Hr.
  unfold read_router. eapply triple_bind; [by apply tr_pause|]. intros u.
  eapply triple_weaken; [apply (tr_gets n V fl a)|done|]. intros rt w (Hw & p & Hok & _ & ->).
  split; [apply Hok|done].
Qed.

Lemma tr_find_neighbors target :
  (∀ x, who !! x ≠ Some (id target)) →
  triple (seen V fl a) (find_neighbors target None : M (list Node))
    (λ ns w, (peers_of a ns ∧ ns ≠ [] ∧ length ns ≤ 1000) ∧ seen V fl a w).
Proof using Hr.
  intros Hid. unfold find_neighbors. eapply triple_bind; [by apply tr_pause|]. intros u.
  eapply triple_bind; [apply tr_unix|]. intros t. apply triple_pure. intros ->.
  eapply triple_weaken; [apply (tr_update_hidden n V fl a)|done|].
  - intros p Hok _. rewrite (surjective_pairing (RoutingTable.find_neighbors _ _ _ _)). simpl.
    apply set_router_ok; [done|]. apply table_ok_find, Hok.
  - intros ns w (Hw & p & Hok & _ & ->). split; [|done].
    pose proof (table_neighbors a _ unix target (no_table _ _ Hok) Hid) as Ht.
    by rewrite (surjective_pairing (RoutingTable.find_neighbors _ _ _ _)).
Qed.

Lemma tr_advertise target c :
  triple (seen V fl a) (find_neighbors_to_advertise target (Some c) : M (list Node))
    (λ ns w, (peers_of a ns ∧ (∀ d, d ∈ ns → id d ≠ id c) ∧ length ns ≤ 1000) ∧ seen V fl a w).
Proof using Hr.
  unfold find_neighbors_to_advertise. eapply triple_bind; [by apply tr_pause|]. intros u.
  eapply triple_bind; [apply tr_unix|]. intros t. apply triple_pure. intros ->.
  eapply triple_weaken; [apply (tr_update_hidden n V fl a)|done|].
  - intros p Hok _. rewrite (surjective_pairing (RoutingTable.find_neighbors_to_advertise _ _ _ _)). simpl.
    apply set_router_ok; [done|]. unfold RoutingTable.find_neighbors_to_advertise.
    apply (table_ok_closest a _ unix target (Some c) (λ n, negb (RoutingTable.is_stale (router_of p) (id n)))), Hok.
  - intros ns w (Hw & p & Hok & _ & ->). split; [|done].
    pose proof (table_advertise a _ unix target c (no_table _ _ Hok)) as Ht.
    by rewrite (surjective_pairing (RoutingTable.find_neighbors_to_advertise _ _ _ _)).
Qed.

Lemma tr_note_alive c : triple (seen V fl a) (note_alive c : M (option Z)) (λ r w, r = None ∧ seen V fl a w).
Proof using Hr.
  unfold note_alive. eapply triple_bind; [apply tr_read_router|]. intros rt. apply triple_pure. intros Hok.
  destruct (table_healthy a rt (id c) Hok) as [-> _]. by intros w Hw.
Qed.

Lemma tr_add_contact c : is_member c → triple (seen V fl a) (Protocol.add_contact c : M unit) (λ _, seen V fl a).
Proof using Hr.
  intros Hc. unfold add_contact. eapply triple_bind; [by apply tr_pause|]. intros u.
  eapply triple_bind; [apply tr_unix|]. intros t. apply triple_pure. intros ->.
  eapply triple_bind; [apply (tr_update_hidden n V fl a)|].
  - intros p Hok _. unfold add_to_table.
    destruct (RoutingTable.add_contact unix (router_of p) c) as [[rt o]|] eqn:Ha; [|done].
    apply set_router_ok; [done|]. by eapply table_ok_add; [apply Hok|..].
  - intros o. eapply (triple_pre _ (seen V fl a)); [|by intros w []]. destruct o as [oldest|]; [|by intros w Hw]. apply tr_modify_hidden. intros p Hok _. unfold ping_oldest.
    case_bool_decide; [done|]. by apply (spawn_ok a (on_contacts _ p)); [destruct Hok|].
Qed.

Lemma tr_schedule c : is_member c → triple (seen V fl a) (schedule_welcome_if_new c : M unit) (λ _, seen V fl a).
Proof using Hr.
  intros Hc. unfold schedule_welcome_if_new. eapply triple_bind; [apply tr_note_alive|]. intros silent.
  apply triple_pure. intros ->. eapply (triple_bind _ _ (λ _, seen V fl a)).
  { eapply triple_bind; [apply tr_read_router|]. by intros rt w [_ Hw]. }
  intros fresh. destruct (negb fresh); [by intros w Hw|]. eapply triple_bind; [by apply tr_add_contact|]. intros u.
  unfold queue_replication. eapply triple_bind; [apply keeps_gets|]. intros [|]; [by intros w Hw|].
  eapply triple_bind; [by apply tr_pause|]. intros u1. eapply triple_bind; [apply keeps_gets|]. intros len.
  case_match; [by intros w Hw|]. eapply triple_bind; [by apply tr_pause|]. intros u2.
  apply tr_modify_hidden. intros p Hok _. unfold queue_insert. case_bool_decide; [by destruct Hok|].
  by apply (spawn_ok a (on_contacts _ p)); [destruct Hok|].
Qed.

End contacts.

(** ** Sending *)

Lemma transport_ok a p t :
  node_ok a p → (0 ≤ next_msg_id t < 2 ^ 32)%Z → node_ok a (with_transport t p).
Proof using. intros [? ? ? ? ? ?] Hi. by split. Qed.

(** Messages that are sent whole and read back. *)
Definition sendable (m : RpcMessage) : Prop :=
  Forall port_ok (wire_nodes m) ∧ (Z.of_nat (content_size m) ≤ 200000)%Z.

(** The datagrams of a message from [a] to [b]. *)
Definition letter (i : Z) (r : bool) (m : RpcMessage) (a b : SocketAddr) (bs : bytes) (ds : list Datagram) : Prop :=
  ∃ f, ds = (λ d, (a, b, d)) <$> encode_fragments f bs ∧ (0 ≤ f < 2 ^ 32)%Z ∧
    deserialize bs = Some (mkFrame i r m) ∧
    (Z.of_nat (length (message_chunks bs)) * Z.of_nat FRAG_CHUNK_SIZE ≤ MAX_MESSAGE_SIZE)%Z.

Lemma chunks_limit (bs : bytes) :
  (Z.of_nat (length bs) ≤ 187 * 1400)%Z →
  (Z.of_nat (length (message_chunks bs)) * Z.of_nat FRAG_CHUNK_SIZE ≤ MAX_MESSAGE_SIZE)%Z.
Proof using.
  intros Hb. destruct bs as [|x l]; [done|]. unfold message_chunks.
  rewrite chunks_length by (unfold FRAG_CHUNK_SIZE; lia). unfold div_ceil, MAX_MESSAGE_SIZE, FRAG_CHUNK_SIZE.
  set (k := Z.of_nat (length (x :: l))) in *. clearbody k.
  pose proof (Z.div_mod (k + Z.of_nat 1400 - 1) (Z.of_nat 1400) ltac:(lia)).
  pose proof (Z.mod_pos_bound (k + Z.of_nat 1400 - 1) (Z.of_nat 1400) ltac:(lia)). lia.
Qed.

Lemma sendable_bytes i r m :
  sendable m → (0 ≤ i < 2 ^ 32)%Z →
  ∃ bs, serialize (mkFrame i r m) = Some bs ∧ deserialize bs = Some (mkFrame i r m) ∧
    (Z.of_nat (length bs) ≤ 187 * 1400)%Z.
Proof using H2.
  intros [Hp Hc] Hi. destruct (bincode_roundtrip (mkFrame i r m)) as (bs & Hs & Hd & Hl).
  - split; [done|done|]. unfold MAX_MESSAGE_SIZE. simpl. lia.
  - exists bs. split; [done|]. split; [done|]. simpl in Hl. lia.
Qed.

Lemma removelast_lookup {A} (l : list A) j x : removelast l !! j = Some x → l !! j = Some x ∧ S j < length l.
Proof using.
  revert j. induction l as [|y [|z l] IH]; intros j; [done|done|].
  change (removelast (y :: z :: l)) with (y :: removelast (z :: l)).
  destruct j as [|j]; simpl; [intros [= ->]; split; [done|lia]|].
  intros [Hx Hj]%IH. simpl in *. split; [done|lia].
Qed.

Lemma letter_fragments f bs :
  (0 ≤ f < 2 ^ 32)%Z →
  (Z.of_nat (length (message_chunks bs)) * Z.of_nat FRAG_CHUNK_SIZE ≤ MAX_MESSAGE_SIZE)%Z →
  Forall (λ d, last_fragment d = false) (removelast (encode_fragments f bs)).
Proof using.
  intros Hf Hs. apply Forall_lookup. intros j d [Hd Hj]%removelast_lookup.
  rewrite (last_fragment_iff f bs Hf Hs j d Hd). rewrite (length_fragments f bs Hs) in Hj.
  apply bool_decide_eq_false. lia.
Qed.

Lemma letter_ready i r m a b bs ds fl : letter i r m a b bs ds → ready (fl ++ ds) = true.
Proof using.
  intros (f & -> & Hf & _ & Hs). unfold ready. rewrite last_app, fmap_last.
  pose proof (fragments_nonempty bs Hs) as Hn. rewrite last_lookup, length_fragments by done.
  destruct (encode_fragments f bs !! _) as [d|] eqn:Hd.
  - simpl. rewrite (last_fragment_iff f bs Hf Hs _ d Hd). apply bool_decide_eq_true. lia.
  - apply lookup_ge_None in Hd. rewrite length_fragments in Hd by done. lia.
Qed.

Section sending.
Context (n : nat).
Abbreviation M := (M P (NetAt P handler n)).

Lemma tr_transport_hidden {A} V fl a (f : Transport → Transport * A) (Q : A → Prop) :
  (∀ t, (0 ≤ next_msg_id t < 2 ^ 32)%Z →
    let t' := (f t).1 in (0 ≤ next_msg_id t' < 2 ^ 32)%Z ∧ pending t' = pending t ∧ delivered t' = delivered t ∧
    requests_in_progress t' = requests_in_progress t ∧ store_lookups t' = store_lookups t ∧
    reassembly (reassembler t') = reassembly (reassembler t) ∧ Q (f t).2) →
  triple (seen V fl a) (on_transport_r f : M A) (λ r w, Q r ∧ seen V fl a w).
Proof using.
  intros Hf. unfold on_transport_r. eapply triple_weaken; [apply (tr_update_hidden n V fl a)|done|].
  - intros p Hok _. destruct (Hf (transport p) (no_ids _ _ Hok)) as (Hi & Hp & Hd & Hb & Hs & Hr & _).
    destruct (f (transport p)) as [t r]. simpl in *. split; [by apply transport_ok|].
    unfold view. simpl. by rewrite Hp, Hd, Hb, Hs, Hr.
  - intros r w (Hw & p & Hok & _ & ->). split; [|done]. destruct (Hf (transport p) (no_ids _ _ Hok)) as (_ & _ & _ & _ & _ & _ & HQ).
    by destruct (f (transport p)) as [t r].
Qed.

Lemma tr_next_id V fl a :
  triple (seen V fl a) (next_id : M Z) (λ i w, (0 ≤ i < 2 ^ 32)%Z ∧ seen V fl a w).
Proof using.
  apply tr_transport_hidden. intros t Ht. simpl. split; [|done].
  unfold wrap32. apply Z.mod_pos_bound. done.
Qed.

Lemma tr_encode_frame V fl a i r m b :
  sendable m → (0 ≤ i < 2 ^ 32)%Z →
  triple (seen V fl a) (encode_frame (mkFrame i r m) : M (option (list bytes)))
    (λ o w, (∃ ds bs fs, o = Some ds ∧ letter i r m a b bs fs ∧ fs = (λ d, (a, b, d)) <$> ds ∧
      Forall (λ d, last_fragment d = false) (removelast ds)) ∧ seen V fl a w).
Proof using H2.
  intros Hm Hi. destruct (sendable_bytes i r m Hm Hi) as (bs & Hs & Hd & Hl). pose proof (chunks_limit bs Hl) as Hc.
  unfold encode_frame. rewrite Hs. apply tr_transport_hidden. intros t Ht. unfold encode_message.
  rewrite (proj2 (Z.ltb_ge _ _)) by (unfold MAX_MESSAGE_SIZE; lia). simpl. repeat (split; [done|]).
  pose proof (Z.mod_pos_bound (next_frag_id t) (2 ^ 32) ltac:(done)) as Hf.
  eexists _, bs, _. split; [reflexivity|]. split; [|split; [reflexivity|by apply letter_fragments]].
  eexists. by split.
Qed.

Lemma tr_send_frame V fl a b i r m :
  ready fl = false → sendable m → (0 ≤ i < 2 ^ 32)%Z →
  triple (seen V fl a) (send_frame b (mkFrame i r m) : M bool)
    (λ _ w, ∃ bs ds, letter i r m a b bs ds ∧ seen V (fl ++ ds) a w).
Proof using H2.
  intros Hr Hm Hi. unfold send_frame. eapply triple_bind; [by apply (tr_encode_frame _ _ _ _ _ _ b)|].
  intros o. apply triple_pure. intros (ds & bs & fs & -> & Hlet & -> & Hlast).
  eapply triple_weaken; [by apply tr_send_datagrams|done|]. intros ok w [_ Hw]. eauto.
Qed.

Lemma tr_answer V fl a b i m :
  ready fl = false → sendable m → (0 ≤ i < 2 ^ 32)%Z →
  triple (seen V fl a) (answer b i (Some m) : M unit)
    (λ _ w, ∃ bs ds, letter i false m a b bs ds ∧ seen V (fl ++ ds) a w).
Proof using H2.
  intros Hr Hm Hi. unfold answer. eapply triple_bind; [by apply tr_send_frame|]. by intros ok w Hw.
Qed.

End sending.

(** ** Arrivals *)

Section arrivals.
Context (n : nat).
Abbreviation M := (M P (NetAt P handler n)).

(** What [handle_datagram] does with a complete message, and its tasks. *)
Definition run_stores : M unit :=
  ts ← update take_store_tasks;
  for_each (λ t, match t with
                 | HandleStore peer request i m => store_task handler peer request i m
                 | _ => mret tt
                 end) ts ;; mret tt.

Definition react (payload : bytes) (peer : SocketAddr) : M unit :=
  match deserialize payload with
  | None => mret tt
  | Some f =>
      if negb (is_request f) then handle_response f peer
      else match carried_record (message f) with
           | None => answer_request handler peer f
           | Some _ => handle_record_request handler payload f peer
           end
  end.

(** The first part of [handle_datagram]: the message that a datagram completes. *)
Definition assemble (data : bytes) (peer : SocketAddr) : M (option bytes) :=
  pause ;; now ← asks instant;
  on_transport_r (λ t,
    let '(r, payload) := receive_payload now (reassembler t) peer data in (with_reassembler r t, payload)).

Lemma arrive_eq data peer w :
  arrive handler (net_wait handler n) data peer w =
  (complete ← assemble data peer;
   match complete with None => mret tt | Some payload => react payload peer end ;; run_stores) w.
Proof using.
  unfold arrive, handle_datagram, assemble, mbind, M_bind. simpl.
  destruct (pause _) as [w1 []]. simpl. by destruct (on_transport_r _ _) as [w2 [payload|]].
Qed.

Lemma triple_arrive data peer Pre Post :
  triple Pre (complete ← assemble data peer;
    match complete with None => mret tt | Some payload => react payload peer end ;; run_stores) Post →
  triple Pre (arrive handler (net_wait handler n) data peer) Post.
Proof using. intros Ht w Hw. rewrite arrive_eq. by apply Ht. Qed.

Definition with_buffers (m : ReassemblyMap) (v : View) : View :=
  mkView (v_store v) (v_pending v) (v_delivered v) (v_busy v) (v_slots v) m (v_tasks v).

Lemma tr_assemble V b v peer f bs j d m :
  (0 ≤ f < 2 ^ 32)%Z →
  (Z.of_nat (length (message_chunks bs)) * Z.of_nat FRAG_CHUNK_SIZE ≤ MAX_MESSAGE_SIZE)%Z →
  V !! b = Some v → v_buffers v = m → buffers_after now peer f bs j m → encode_fragments f bs !! j = Some d →
  triple (seen V [] b) (assemble d peer)
    (λ o w, ∃ m', (if bool_decide (S j = length (message_chunks bs)) then o = Some bs ∧ m' = ∅
                   else o = None ∧ buffers_after now peer f bs (S j) m') ∧
                  seen (<[b := with_buffers m' v]> V) [] b w).
Proof using.
  intros Hf Hs HV <- Hb Hd. unfold assemble. eapply triple_bind; [by apply tr_pause|]. intros u.
  eapply triple_bind; [apply tr_instant|]. intros t. apply triple_pure. intros -> [p e] Hw.
  destruct (seen_self _ _ _ _ Hw) as [HVp Hok]. simpl in HVp, Hok. rewrite HV in HVp. injection HVp as Ev.
  rewrite Ev in Hb. pose proof (receive_next now peer f bs Hf Hs (reassembler (transport p)) j d Hb Hd) as Hrec.
  unfold on_transport_r, update. simpl. destruct (receive_payload now (reassembler (transport p)) peer d) as [r o].
  cbn [fst snd] in Hrec |- *. exists (reassembly r). split.
  - case_bool_decide; done.
  - eapply seen_set; [exact Hw|by apply transport_ok; [|apply Hok]|]. by rewrite Ev.
Qed.

Lemma no_store_task (ts : list Task) :
  filter (λ t, is_store_task t = true) (filter (λ t, is_store_task t = false) ts) = [].
Proof using.
  induction ts as [|t ts IH]; [done|]. rewrite filter_cons. case_decide as Eq; [|done].
  by rewrite filter_cons_False by congruence.
Qed.

(** Without tasks to run, nothing happens. *)
Lemma tr_run_stores V fl b v :
  V !! b = Some v → v_tasks v = [] → triple (seen V fl b) run_stores (λ _, seen V fl b).
Proof using.
  intros HV Ht. unfold run_stores. eapply triple_bind.
  - eapply (tr_update_hidden n V fl b). intros p [? Hrun ? ? ? ?] HVp. rewrite HV in HVp. injection HVp as ->.
    unfold view in Ht. simpl in Ht. unfold take_store_tasks. simpl. destruct (tasks p) as [ts|] eqn:E; [|done].
    split; [by split|]. unfold view, store_tasks in *. simpl. rewrite E in *. simpl in *. rewrite Ht.
    by rewrite no_store_task.
  - intros ts w (Hw & p & _ & HVp & ->). rewrite HV in HVp. injection HVp as ->. simpl in *. by rewrite Ht.
Qed.

End arrivals.

(** A message that arrives: its receiver reacts to it, whoever looks. *)
Lemma at_node_some {A} {Y : Type} V fl a b (m : Effects.M P (Net P) A) (Φ : Y → Prop) (V' : Y → Views) (fl' : Y → list Datagram) w :
  seen V fl a w → is_Some (V !! b) → (∀ y, Φ y → is_Some (V' y !! a)) →
  triple (seen V fl b) m (λ _ w, ∃ y, Φ y ∧ seen (V' y) (fl' y) b w) →
  ∃ y, Φ y ∧ seen (V' y) (fl' y) a (at_node b m w).
Proof using.
  intros Hw Hb Ha Hm. destruct (focus_seen V fl a b w Hw Hb) as (w1 & Hf & Hw1).
  destruct (Hm w1 Hw1) as (y & Hy & Hw2). exists y. split; [done|].
  destruct (focus_seen (V' y) (fl' y) b a (m w1).1 Hw2 (Ha y Hy)) as (w3 & Hf3 & Hw3).
  unfold at_node. by rewrite Hf, (s_self _ _ _ _ Hw), Hf3.
Qed.

Lemma with_buffers_id v : v_buffers v = ∅ → with_buffers ∅ v = v.
Proof using. destruct v. simpl. by intros ->. Qed.

Section letters.
Context (n : nat).
Context {Y : Type} (V : Views) (a b x : SocketAddr) (i : Z) (r : bool) (m : RpcMessage) (bs : bytes) (v : View).
Context (Φ : Y → Prop) (V' : Y → Views) (fl' : Y → list Datagram).
Context (HV : V !! b = Some v) (Hbuf : v_buffers v = ∅) (Htasks : v_tasks v = []).
Context (Hx : is_Some (V !! x)) (Hx' : ∀ y, Φ y → is_Some (V' y !! x)).
Context (Hreact : triple (seen V [] b) (react n bs a ≫= λ _, run_stores n)
  (λ _ w, ∃ y, Φ y ∧ seen (V' y) (fl' y) b w)).

(** The network when [b] has got a part of the message. *)
Definition receiving (mb : ReassemblyMap) : Views := <[b := with_buffers mb v]> V.

Lemma receiving_looked mb : is_Some (receiving mb !! x).
Proof using Hx.
  unfold receiving. rewrite lookup_insert. case_decide; [eauto|exact Hx].
Qed.

Lemma receiving_again mb mb' : <[b := with_buffers mb' (with_buffers mb v)]> (receiving mb) = receiving mb'.
Proof using. unfold receiving. by rewrite insert_insert_eq. Qed.

Lemma receiving_none : receiving ∅ = V.
Proof using HV Hbuf. unfold receiving. by rewrite with_buffers_id, insert_id. Qed.

Lemma deliver_rest f k j mb w :
  (0 ≤ f < 2 ^ 32)%Z →
  (Z.of_nat (length (message_chunks bs)) * Z.of_nat FRAG_CHUNK_SIZE ≤ MAX_MESSAGE_SIZE)%Z →
  k = length (message_chunks bs) - j → 0 < k → buffers_after now a f bs j mb → seen (receiving mb) [] x w →
  ∃ y, Φ y ∧ seen (V' y) (fl' y) x
    (foldl (deliver_datagram handler (net_wait handler n)) w ((λ d, (a, b, d)) <$> drop j (encode_fragments f bs))).
Proof using HV Hbuf Htasks Hx Hx' Hreact.
  intros Hf Hs. revert j mb w. induction k as [|k IH]; intros j mb w Hk Hpos Hb Hw; [lia|].
  assert (∃ d, encode_fragments f bs !! j = Some d) as [d Hd].
  { apply lookup_lt_is_Some_2. rewrite length_fragments by done. lia. }
  rewrite (drop_S _ _ _ Hd). rewrite fmap_cons. cbn [foldl].
  assert (receiving mb !! b = Some (with_buffers mb v)) as HVb by (unfold receiving; by rewrite lookup_insert_eq).
  pose proof (tr_assemble n (receiving mb) b _ a f bs j d mb Hf Hs HVb eq_refl Hb Hd) as Has.
  destruct (decide (S j = length (message_chunks bs))) as [Elast|Enot].
  - rewrite drop_ge by (rewrite length_fragments by done; lia). simpl.
    apply (at_node_some (receiving mb) [] x b (arrive handler (net_wait handler n) d a) Φ V' fl' w); [done|done|done|].
    apply triple_arrive. eapply triple_bind; [exact Has|]. intros o w0 (m' & Ho & Hw0). rewrite receiving_again in Hw0.
    rewrite bool_decide_eq_true_2 in Ho by done. destruct Ho as [-> ->]. rewrite receiving_none in Hw0. by apply Hreact.
  - destruct (at_node_some (Y := ReassemblyMap) (receiving mb) [] x b (arrive handler (net_wait handler n) d a)
      (buffers_after now a f bs (S j)) receiving (λ _, []) w) as (m' & Hm' & Hw'); [done|done|intros; apply receiving_looked| |].
    + apply triple_arrive. eapply triple_bind; [exact Has|]. intros o w0 (m' & Ho & Hw0). rewrite receiving_again in Hw0.
      rewrite bool_decide_eq_false_2 in Ho by done. destruct Ho as [-> Hm']. exists m'. split; [done|].
      apply (tr_run_stores n (receiving m') [] b (with_buffers m' v)); [|done|exact Hw0].
      unfold receiving. by rewrite lookup_insert_eq.
    + apply (IH (S j) m'); [lia|lia|done|done].
Qed.

Lemma deliver_letter ds w :
  letter i r m a b bs ds → seen V [] x w →
  ∃ y, Φ y ∧ seen (V' y) (fl' y) x (foldl (deliver_datagram handler (net_wait handler n)) w ds).
Proof using HV Hbuf Htasks Hx Hx' Hreact.
  intros (f & -> & Hf & _ & Hs) Hw.
  apply (deliver_rest f (length (message_chunks bs)) 0 ∅); [done|done|lia|by apply (fragments_nonempty bs)|done|].
  by rewrite receiving_none.
Qed.

End letters.

(** ** An answer reaches its call *)

Definition with_calls (pend : gmap Z PendingCall) (del : gmap N RpcMessage) (v : View) : View :=
  mkView (v_store v) pend del (v_busy v) (v_slots v) (v_buffers v) (v_tasks v).

Lemma node_at_member b i : node_at i (addr_ip b, addr_port b) = member b i.
Proof using. done. Qed.

Lemma tr_react_answer n V a b v i ch e ans bs :
  V !! a = Some v → v_pending v !! i = Some (mkPending b e ch) → accepts e ans = true →
  (∀ s, ans = Pong s → who !! b = Some s) → deserialize bs = Some (mkFrame i false ans) →
  triple (seen V [] a) (react n bs b)
    (λ _, seen (<[a := with_calls (delete i (v_pending v)) (<[ch := ans]> (v_delivered v)) v]> V) [] a).
Proof using.
  intros HV Hp Hacc Hpong Hd. unfold react. rewrite Hd. cbn [negb is_request].
  set (v1 := with_calls (delete i (v_pending v)) (v_delivered v) v).
  assert (triple (seen V [] a) (pause ;; tx ← on_transport_r (take_pending i b ans);
    match tx with
    | None => mret tt
    | Some ch =>
        (match ans with
         | Pong sender_id => schedule_welcome_if_new (node_at sender_id (addr_ip b, addr_port b))
         | _ => mret tt
         end : M P (NetAt P handler n) unit) ;;
        modify (on_transport (deliver ch ans))
    end) (λ _, seen (<[a := with_calls (delete i (v_pending v)) (<[ch := ans]> (v_delivered v)) v]> V) [] a)) as Ht.
  { eapply triple_bind; [by apply tr_pause|]. intros u.
    eapply (triple_bind _ _ (λ tx w, tx = Some ch ∧ seen (<[a := v1]> V) [] a w)).
    - assert (∀ p, V !! a = Some (view p) → take_pending i b ans (transport p) =
        (with_pending (delete i (pending (transport p))) (transport p), Some ch)) as Htake.
      { intros p HVp. rewrite HV in HVp. injection HVp as ->. simpl in Hp. unfold take_pending. rewrite Hp. simpl.
        by rewrite bool_decide_eq_true_2, Hacc by done. }
      eapply triple_weaken; [apply (tr_update n V [] a _ v1)|done|].
      + intros p Hok HVp. rewrite (Htake p HVp). simpl. split; [by apply transport_ok; [|apply Hok]|].
        rewrite HV in HVp. by injection HVp as ->.
      + intros tx w (Hw & p & _ & HVp & ->). rewrite (Htake p HVp). done.
    - intros tx. apply triple_pure. intros ->. eapply (triple_bind _ _ (λ _, seen (<[a := v1]> V) [] a)).
      + destruct ans; try (by intros w Hw). apply tr_schedule; [done|]. exists b. eexists. split; [by apply Hpong|done].
      + intros u'. eapply triple_weaken; [apply (tr_modify n (<[a := v1]> V) [] a _ (with_calls (delete i (v_pending v)) (<[ch := ans]> (v_delivered v)) v))|done|].
        * intros p Hok HVp. rewrite lookup_insert_eq in HVp. apply (inj Some) in HVp. split; [by apply transport_ok; [|apply Hok]|].
          change (view (on_transport (deliver ch ans) p)) with
            (with_calls (v_pending (view p)) (<[ch := ans]> (v_delivered (view p))) (view p)).
          by rewrite <-HVp.
        * intros ? w Hw. by rewrite insert_insert_eq in Hw. }
  unfold handle_response. simpl. destruct ans; try exact Ht. by destruct e.
Qed.

(** ** Calls *)

(** A node that can receive messages; one that waits for nothing. *)
Record open_node (v : View) : Prop := { on_buffers : v_buffers v = ∅; on_tasks : v_tasks v = [] }.
Record free_node (v : View) : Prop := {
  fn_open : open_node v; fn_pending : v_pending v = ∅; fn_delivered : v_delivered v = ∅
}.

Lemma seen_flight_empty V ds a p e : seen V ds a (mkW p e) → seen V [] a (mkW p (with_flight [] e)).
Proof using. intros [? ? ? ? ? ?]. by split. Qed.

Section calls.
Context (n : nat).
Context (V : Views) (a b : SocketAddr) (va vb vb' : View) (m : RpcMessage) (Q : RpcMessage → Prop).
Context (Hab : a ≠ b) (Ha : V !! a = Some va) (Hb : V !! b = Some vb).
Context (Hfree : free_node va) (Hopen : open_node vb) (Hm : sendable m).

(** The node at [a] while it waits for the answer [i], on the channel [ch]. *)
Definition calling (i : Z) (ch : N) : View :=
  with_calls {[i := mkPending b (for_request m) ch]} ∅ va.

(** The answer that [b] sends to the request [i]. *)
Definition answered_with (i : Z) (y : RpcMessage * bytes * list Datagram) : Prop :=
  Q y.1.1 ∧ accepts (for_request m) y.1.1 = true ∧ (∀ s, y.1.1 = Pong s → who !! b = Some s) ∧
  letter i false y.1.1 b a y.1.2 y.2.

(** [b] serves the request: what it does when the request arrives. *)
Definition serves : Prop := ∀ i ch bs,
  (0 ≤ i < 2 ^ 32)%Z → deserialize bs = Some (mkFrame i true m) →
  triple (seen (<[a := calling i ch]> V) [] b) (react n bs a ≫= λ _, run_stores n)
    (λ _ w, ∃ y, answered_with i y ∧ seen (<[b := vb']> (<[a := calling i ch]> V)) y.2 b w).

Context (Hserves : serves).

(** The exchange of request and answer. *)
Lemma exchange i ch bs ds :
  (0 ≤ i < 2 ^ 32)%Z → letter i true m a b bs ds →
  triple (seen (<[a := calling i ch]> V) ds a) (pause : M P (NetAt P handler (S n)) unit)
    (λ _ w, ∃ ans, Q ans ∧ seen (<[b := vb']> (<[a := with_calls ∅ {[ch := ans]} va]> V)) [] a w).
Proof using Hab Ha Hb Hfree Hopen Hserves.
  intros Hi Hl [p e] Hw. set (V1 := <[a := calling i ch]> V) in *.
  assert (V1 !! b = Some vb) as HV1b by (unfold V1; by rewrite lookup_insert_ne).
  unfold pause. simpl. set (deliver_all := settle handler (net_wait handler n)).
  assert (∃ y, answered_with i y ∧ seen (<[b := vb']> V1) y.2 a (deliver_all (mkW p e))) as (y & (Hq & Hacc & Hpong & Hl') & Hw1).
  { unfold deliver_all, settle. simpl. rewrite (s_flight _ _ _ _ Hw : net_flight e = ds).
    rewrite (letter_ready i true m a b bs ds [] Hl : ready ds = true).
    eapply (deliver_letter n V1 a b a i true m bs vb (answered_with i) (λ _, <[b := vb']> V1) snd); eauto; try apply Hopen.
    - unfold V1. rewrite lookup_insert_eq. eauto.
    - intros y _. unfold V1. rewrite lookup_insert_ne, lookup_insert_eq by done. eauto.
    - destruct Hl as (f & _ & _ & Hd & _). by apply Hserves.
    - by eapply seen_flight_empty. }
  destruct (deliver_all (mkW p e)) as [p1 e1] eqn:E1.
  assert (<[b := vb']> V1 !! a = Some (calling i ch)) as HV2 by (unfold V1; by rewrite lookup_insert_ne, lookup_insert_eq).
  set (v3 := with_calls ∅ {[ch := y.1.1]} va).
  assert (∃ u : unit, True ∧ seen (<[a := v3]> (<[b := vb']> V1)) [] a (deliver_all (mkW p1 e1))) as (_ & _ & Hw2).
  { unfold deliver_all, settle. simpl. rewrite (s_flight _ _ _ _ Hw1 : net_flight e1 = y.2).
    rewrite (letter_ready i false _ b a _ _ [] Hl' : ready y.2 = true).
    eapply (deliver_letter n (<[b := vb']> V1) b a a i false y.1.1 y.1.2 (calling i ch) (λ _ : unit, True)
      (λ _, <[a := v3]> (<[b := vb']> V1)) (λ _, [])); eauto; try apply Hfree.
    - intros _ _. rewrite lookup_insert_eq. eauto.
    - destruct Hl' as (f & _ & _ & Hd & _). eapply triple_bind.
      + apply (tr_react_answer n _ a b (calling i ch) i ch (for_request m) y.1.1); try done.
        unfold calling. simpl. by rewrite lookup_singleton_eq.
      + intros u w2 Hw2. exists tt. split; [done|].
        assert (with_calls (delete i (v_pending (calling i ch))) (<[ch := y.1.1]> (v_delivered (calling i ch))) (calling i ch) = v3) as E3.
        { unfold calling, with_calls, v3. simpl. by rewrite delete_singleton_eq, insert_empty. }
        rewrite E3 in Hw2. apply (tr_run_stores n _ [] a v3); [by rewrite lookup_insert_eq|apply Hfree|done].
    - by eapply seen_flight_empty. }
  exists y.1.1. split; [done|]. unfold V1 in Hw2. rewrite insert_insert_ne, insert_insert_eq in Hw2 by done.
  destruct (deliver_all (mkW p1 e1)) as [p2 e2]. exact Hw2.
Qed.

Lemma tr_wakeups V0 fl x :
  triple (seen V0 fl x) (asks wakeups : M P (NetAt P handler (S n)) (list Wakeup))
    (λ evs w, evs = [OnAnswer] ∧ seen V0 fl x w).
Proof using. by intros w Hw. Qed.

Lemma tr_round_trip V0 fl x addr first :
  triple (seen V0 fl x) (record_round_trip addr first : M P (NetAt P handler (S n)) unit) (λ _, seen V0 fl x).
Proof using.
  unfold record_round_trip. eapply triple_bind; [apply keeps_asks|]. intros t. apply tr_modify_hidden.
  intros p Hok _. split; [by apply transport_ok; [|apply Hok]|done].
Qed.

(** The wait for the answer. *)
Lemma tr_call_loop i ch bs ds dgs measures first deadline l :
  (0 ≤ i < 2 ^ 32)%Z → letter i true m a b bs ds →
  triple (seen (<[a := calling i ch]> V) ds a)
    (call_loop b dgs measures ch first deadline l [OnAnswer] : M P (NetAt P handler (S n)) (option RpcMessage))
    (λ r w, ∃ ans, r = Some ans ∧ Q ans ∧ seen (<[b := vb']> (<[a := with_calls ∅ ∅ va]> V)) [] a w).
Proof using Hab Ha Hb Hfree Hopen Hserves.
  intros Hi Hl. cbn [call_loop]. eapply triple_bind; [by eapply exchange|]. intros u.
  intros w (ans & Hq & Hw). revert w Hw.
  set (V2 := <[b := vb']> (<[a := with_calls ∅ {[ch := ans]} va]> V)).
  assert (V2 !! a = Some (with_calls ∅ {[ch := ans]} va)) as HV2.
  { unfold V2. by rewrite lookup_insert_ne, lookup_insert_eq. }
  enough (triple (seen V2 [] a) (t ← asks instant; polled ← on_transport_r (poll_answer ch);
    match polled with
    | Answered m0 =>
        (if measures && (resends l =? 0)%Z then record_round_trip b first else mret tt) ;; mret (Some m0)
    | Closed => mret None
    | NotReady => call_loop b dgs measures ch first deadline l []
    end : M P (NetAt P handler (S n)) (option RpcMessage))
    (λ r w, ∃ ans, r = Some ans ∧ Q ans ∧ seen (<[b := vb']> (<[a := with_calls ∅ ∅ va]> V)) [] a w)) as Ht
    by (intros w Hw; by apply Ht).
  eapply triple_bind; [apply keeps_asks|]. intros t.
  eapply (triple_bind _ _ (λ r w, r = Answered ans ∧ seen (<[b := vb']> (<[a := with_calls ∅ ∅ va]> V)) [] a w)).
  - intros [p e] Hw. destruct (seen_self _ _ _ _ Hw) as [HVp Hok]. rewrite HV2 in HVp. apply (inj Some) in HVp.
    assert (delivered (transport p) = {[ch := ans]}) as Hdel by (by apply (f_equal v_delivered) in HVp).
    unfold on_transport_r, update, poll_answer. simpl. rewrite Hdel, lookup_singleton_eq. simpl. split; [done|].
    unfold V2 in Hw. rewrite insert_insert_ne in Hw by done.
    rewrite insert_insert_ne by done. rewrite <-(insert_insert_eq (<[b := vb']> V) a _ (with_calls ∅ {[ch := ans]} va)).
    eapply seen_set; [exact Hw|by apply transport_ok; [|apply Hok]|]. simpl in HVp.
    change (view (with_transport _ p)) with (with_calls (v_pending (view p)) (delete ch {[ch := ans]}) (view p)).
    rewrite <-HVp. unfold with_calls. simpl. by rewrite delete_singleton_eq.
  - intros polled. apply triple_pure. intros ->.
    eapply triple_bind; [|intros u2 w Hw; exists ans; split; [done|]; split; [done|]; exact Hw].
    destruct (measures && _); [apply tr_round_trip|apply keeps_ret].
Qed.

(** A call returns what [b] answers. *)
Lemma tr_call :
  triple (seen V [] a) (call b m : M P (NetAt P handler (S n)) (option RpcMessage))
    (λ r w, ∃ ans, r = Some ans ∧ Q ans ∧ seen (<[b := vb']> V) [] a w).
Proof using H2 Hab Ha Hb Hfree Hopen Hm Hserves.
  unfold call. eapply triple_bind; [apply tr_next_id|]. intros i. apply triple_pure. intros Hi.
  eapply triple_bind; [by apply (tr_encode_frame _ _ _ _ _ _ _ b)|]. intros o. apply triple_pure.
  intros (ds & bs & fs & -> & Hlet & -> & Hlast).
  eapply triple_bind; [by apply tr_pause|]. intros u.
  eapply (triple_bind _ _ (λ ch, seen (<[a := calling i ch]> V) [] a)).
  { intros [p e] Hw. destruct (seen_self _ _ _ _ Hw) as [HVp Hok]. rewrite Ha in HVp. apply (inj Some) in HVp.
    unfold on_transport_r, update. simpl in *. eapply seen_set; [exact Hw|by apply transport_ok; [|apply Hok]|].
    unfold calling. rewrite HVp. pose proof (fn_pending _ Hfree) as Hp. pose proof (fn_delivered _ Hfree) as Hd.
    rewrite HVp in Hp, Hd. simpl in Hp, Hd. unfold with_calls, view. simpl. by rewrite Hp, Hd. }
  intros ch. eapply triple_bind; [apply tr_instant|]. intros t. apply triple_pure. intros ->.
  eapply triple_bind; [by apply tr_send_datagrams|]. intros sent. apply triple_pure. intros ->. cbn [negb app].
  eapply (triple_bind _ _ (λ r w, ∃ ans, r = Some ans ∧ Q ans ∧
    seen (<[b := vb']> (<[a := with_calls ∅ ∅ va]> V)) [] a w)).
  - unfold resend_after. eapply triple_bind; [apply keeps_gets|]. intros after.
    eapply triple_bind; [apply tr_wakeups|]. intros evs. apply triple_pure. intros ->. by eapply tr_call_loop.
  - intros r w (ans & -> & Hq & Hw). exists ans. split; [done|]. split; [done|].
    destruct w as [p e]. unfold mbind, M_bind, modify. simpl.
    destruct (seen_self _ _ _ _ Hw) as [HVp Hok]. simpl in HVp. rewrite lookup_insert_ne, lookup_insert_eq in HVp by done.
    apply (inj Some) in HVp. rewrite insert_insert_ne in Hw by done.
    assert (<[b := vb']> V = <[a := va]> (<[a := with_calls ∅ ∅ va]> (<[b := vb']> V))) as ->.
    { rewrite insert_insert_eq. symmetry. apply insert_id. by rewrite lookup_insert_ne. }
    eapply seen_set; [exact Hw|by apply transport_ok; [|apply Hok]|].
    change (view (on_transport (close_call i ch) p)) with
      (with_calls (delete i (v_pending (view p))) (delete ch (v_delivered (view p))) (view p)).
    rewrite <-HVp. unfold with_calls. simpl. rewrite !delete_empty.
    rewrite <-(fn_pending _ Hfree), <-(fn_delivered _ Hfree) at 1. by destruct va.
Qed.

End calls.

(** ** Receipts *)

Lemma tr_react_receipt n V a b i bs :
  deserialize bs = Some (mkFrame i false Received) → triple (seen V [] a) (react n bs b) (λ _, seen V [] a).
Proof using.
  intros Hd. unfold react. rewrite Hd. cbn [negb is_request]. unfold handle_response. cbn [message].
  eapply triple_bind; [by apply tr_pause|]. intros u. apply tr_modify_hidden. intros p Hok _.
  unfold on_transport, note_receipt. cbn [msg_id].
  split; [apply transport_ok; [done|]|]; (repeat case_match; [|apply Hok || done..]); [apply Hok|done].
Qed.

(** A receipt arrives while its sender waits. *)
Lemma tr_pause_receipt n V a b va i bs ds :
  letter i false Received b a bs ds → V !! a = Some va → open_node va → is_Some (V !! b) →
  triple (seen V ds b) (pause : M P (NetAt P handler (S n)) unit) (λ _, seen V [] b).
Proof using.
  intros Hl Ha Hopen Hb [p e] Hw. unfold pause. simpl. set (deliver_all := settle handler (net_wait handler n)).
  assert (∃ u : unit, True ∧ seen V [] b (deliver_all (mkW p e))) as (_ & _ & Hw1).
  { unfold deliver_all, settle. simpl. rewrite (s_flight _ _ _ _ Hw : net_flight e = ds).
    rewrite (letter_ready i false Received b a bs ds [] Hl : ready ds = true).
    eapply (deliver_letter n V b a b i false Received bs va (λ _ : unit, True) (λ _, V) (λ _, [])); eauto; try apply Hopen.
    - destruct Hl as (f & _ & _ & Hd & _). eapply triple_bind; [by eapply tr_react_receipt|]. intros u w1 Hw1.
      exists tt. split; [done|]. apply (tr_run_stores n V [] a va); [done|apply Hopen|done].
    - by eapply seen_flight_empty. }
  destruct (deliver_all (mkW p e)) as [p1 e1] eqn:E1.
  assert (deliver_all (mkW p1 e1) = mkW p1 e1) as ->; [|exact Hw1].
  unfold deliver_all, settle. simpl. by rewrite (s_flight _ _ _ _ Hw1 : net_flight e1 = []).
Qed.

(** ** Requests without a record *)

Lemma with_id v : v = with_calls (v_pending v) (v_delivered v) v.
Proof using. by destruct v. Qed.

(** A request that its receiver answers by itself. *)
Lemma serves_alone n V a b va vb m Q :
  a ≠ b → V !! b = Some vb → open_node vb → carried_record m = None →
  (∀ V1, V1 !! b = Some vb →
    triple (seen V1 [] b) (dispatch_request handler m a : M P (NetAt P handler n) (option RpcMessage))
      (λ r w, ∃ ans, r = Some ans ∧ (Q ans ∧ accepts (for_request m) ans = true ∧
        (∀ s, ans = Pong s → who !! b = Some s) ∧ sendable ans) ∧ seen V1 [] b w)) →
  serves n V a b va vb m Q.
Proof using H2.
  intros Hab HVb Hopen Hc Hd i ch bs Hi Hbs. set (V1 := <[a := calling b va m i ch]> V).
  assert (V1 !! b = Some vb) as HV1 by (unfold V1; by rewrite lookup_insert_ne).
  assert (<[b := vb]> V1 = V1) as -> by (by apply insert_id).
  eapply (triple_bind _ _ (λ _ w, ∃ y, answered_with a b m Q i y ∧ seen V1 y.2 b w)).
  - unfold react. rewrite Hbs. cbn [negb is_request message]. rewrite Hc. unfold answer_request. cbn [message msg_id].
    eapply triple_bind; [by apply Hd|]. intros r w (ans & -> & (Hq & Hacc & Hpong & Hsend) & Hw).
    destruct (tr_answer n V1 [] b a i ans eq_refl Hsend Hi w Hw) as (bs' & ds & Hl & Hw').
    exists (ans, bs', ds). done.
  - intros u w (y & Hy & Hw). exists y. split; [done|]. apply (tr_run_stores n V1 _ b vb); [done|apply Hopen|done].
Qed.

Section reads.
Context (Hmembers : members_ok).

Lemma member_addr b i : who !! b = Some i → socket_addr_of (member b i) = Some b.
Proof using Hmembers. intros Hb. unfold socket_addr_of. simpl. by apply (mo_addr Hmembers b i). Qed.

(** Contacts in an answer. *)
Lemma nodes_sendable a ns : peers_of a ns → length ns ≤ 1000 → sendable (FindValueNodes (wire_from_node <$> ns)).
Proof using Hmembers.
  intros Hp Hl. split; simpl.
  - apply Forall_fmap, Forall_forall. intros c (b & i & Hb & -> & _)%Hp p [= <-]. by apply (mo_port Hmembers b i).
  - assert (sum_list (node_size <$> (wire_from_node <$> ns)) ≤ length ns * 100) as Hs; [|lia].
    clear Hl. induction ns as [|c ns IH]; [done|]. rewrite fmap_cons, node_sizes_cons. cbn [length].
    assert (node_size (wire_from_node c) ≤ 100).
    { destruct (Hp c ltac:(by left)) as (b & i & Hb & -> & _). pose proof (mo_ip Hmembers b i Hb).
      unfold node_size. simpl. lia. }
    assert (sum_list (node_size <$> (wire_from_node <$> ns)) ≤ length ns * 100); [|lia].
    apply IH. intros d Hd. apply Hp. by right.
Qed.

Lemma get_node_list_tuples h ns :
  get_node_list (mkRaw h (PNodes (wire_tuples (wire_from_node <$> ns)))) = ns.
Proof using.
  unfold get_node_list. simpl. induction ns as [|c ns IH]; [done|]. csimpl.
  rewrite ident_of_bytes_ident. simpl. by rewrite IH, <-Node_eta.
Qed.

(** What a node answers about a key: the record it holds, or contacts. *)
Definition told (v : View) (b : SocketAddr) (me key : ident) (hit : bytes → RpcMessage) (ans : RpcMessage) : Prop :=
  (∃ x, get now (v_store v) (ident_bytes key) = Some x ∧ is_bound_to_key handler key x = true ∧ ans = hit x) ∨
  ((∀ x, get now (v_store v) (ident_bytes key) = Some x → is_bound_to_key handler key x = false) ∧
   ∃ ns, ans = FindValueNodes (wire_from_node <$> ns) ∧ peers_of b ns ∧ (∀ d, d ∈ ns → id d ≠ me) ∧ length ns ≤ 1000).

(** A value found is small enough to send. *)
Definition short_at (v : View) (key : ident) : Prop :=
  ∀ x, get now (v_store v) (ident_bytes key) = Some x → (Z.of_nat (length x) ≤ 200000)%Z.

Lemma tr_storage_get n V b v key :
  V !! b = Some v →
  triple (seen V [] b) (storage_get key : M P (NetAt P handler n) (option bytes))
    (λ o w, o = get now (v_store v) (ident_bytes key) ∧ seen V [] b w).
Proof using.
  intros HV. unfold storage_get. eapply triple_bind; [apply tr_instant|]. intros t. apply triple_pure. intros ->.
  eapply triple_weaken; [apply (tr_gets n V [] b)|done|]. intros o w (Hw & p & _ & HVp & ->).
  rewrite HV in HVp. apply (inj Some) in HVp. split; [by rewrite HVp|done].
Qed.

Section find_value.
Context (n : nat) (V : Views) (a b : SocketAddr) (v : View) (me key : ident).
Context (HV : V !! b = Some v) (Ha : who !! a = Some me).

Lemma tr_rpc_find_value :
  triple (seen V [] b) (rpc_find_value handler me (addr_ip a, addr_port a) key : M P (NetAt P handler n) FindValueResult)
    (λ r w, told v b me key FindValueHit
      (match r with FValue x => FindValueHit x | FNodes ns => FindValueNodes (wire_from_node <$> ns) end) ∧ seen V [] b w).
Proof using HV Ha.
  unfold rpc_find_value. rewrite node_at_member.
  eapply triple_bind; [apply tr_schedule; [done|]; exists a, me; done|]. intros u.
  eapply triple_bind; [by apply tr_storage_get|]. intros o. apply triple_pure. intros ->.
  assert ((∀ x, get now (v_store v) (ident_bytes key) = Some x → is_bound_to_key handler key x = false) →
    triple (seen V [] b) (FNodes <$> find_neighbors_to_advertise (Node_from_id key) (Some (member a me)) : M P (NetAt P handler n) FindValueResult)
      (λ r w, told v b me key FindValueHit
        (match r with FValue x => FindValueHit x | FNodes ns => FindValueNodes (wire_from_node <$> ns) end) ∧ seen V [] b w)) as Hnodes.
  { intros Hno. eapply triple_fmap; [by apply tr_advertise|]. intros ns w [(Hp & Hne & Hl) Hw].
    split; [|done]. right. split; [done|]. by exists ns. }
  destruct (get now (v_store v) (ident_bytes key)) as [x|] eqn:Ex; [|by apply Hnodes].
  unfold key_binding_is_valid. destruct (is_bound_to_key handler key x) eqn:Eb; [|apply Hnodes; naive_solver].
  intros w Hw. split; [|done]. left. eauto.
Qed.

End find_value.

Section answers.
Context (n : nat) (V : Views) (a b : SocketAddr) (v : View) (me key : ident).
Context (HV : V !! b = Some v) (Ha : who !! a = Some me) (Hshort : short_at v key).

Lemma told_sendable hit ans :
  (∀ x, content_size (hit x) ≤ length x) → (∀ x, wire_nodes (hit x) = []) →
  told v b me key hit ans → sendable ans.
Proof using Hmembers Hshort.
  intros Hsize Hwire [(x & Hx & _ & ->)|(_ & ns & -> & Hp & _ & Hl)]; [|by eapply nodes_sendable].
  split; [by rewrite Hwire|]. specialize (Hshort x Hx). specialize (Hsize x). lia.
Qed.

Lemma serves_find_value va : a ≠ b → open_node v → serves n V a b va v (FindValue me key) (told v b me key FindValueHit).
Proof using H2 Hmembers HV Ha Hshort.
  intros Hab Hopen. apply serves_alone; [done..|]. intros V1 HV1. cbn [dispatch_request].
  eapply triple_bind; [by apply tr_rpc_find_value|]. intros r w [Ht Hw]. eexists. split; [reflexivity|]. split; [|exact Hw].
  split; [done|]. split; [by destruct r|]. split; [by destruct r|]. by apply (told_sendable FindValueHit).
Qed.

Lemma serves_find_hash va :
  (∀ x, length (record_hash x) = RECORD_HASH_LEN) → a ≠ b → open_node v →
  serves n V a b va v (FindHash me key) (told v b me key (λ x, FindHashHit (record_hash x))).
Proof using H2 Hmembers HV Ha.
  intros Hhash Hab Hopen. apply serves_alone; [done..|]. intros V1 HV1. cbn [dispatch_request].
  eapply triple_fmap; [|intros x w Hx; exists x; split; [done|]; exact Hx].
  unfold rpc_find_hash. eapply triple_bind; [by apply tr_rpc_find_value|]. intros r w [Ht Hw]. split; [|exact Hw].
  assert (told v b me key (λ x, FindHashHit (record_hash x))
    (match r with FValue x => FindHashHit (record_hash x) | FNodes ns => FindValueNodes (wire_from_node <$> ns) end)) as Ht'.
  { destruct Ht as [(x & Hx & Hb & Er)|(Hno & ns & Er & Hns)]; destruct r; try done.
    - injection Er as ->. left. eauto.
    - right. split; [done|]. exists ns. split; [|done]. by injection Er as ->. }
  split; [done|]. split; [by destruct r|]. split; [by destruct r|].
  destruct Ht' as [(x & _ & _ & ->)|(_ & ns & -> & Hp & _ & Hl)]; [|by eapply nodes_sendable].
  split; [done|]. simpl. rewrite Hhash. unfold RECORD_HASH_LEN. lia.
Qed.

End answers.

(** What a lookup learns from a contact. *)
Definition learnt (v : View) (a : SocketAddr) (key : ident) (f : bytes → bytes) (r : RawResponse) : Prop :=
  happened r = true ∧
  ((∃ x, get now (v_store v) (ident_bytes key) = Some x ∧ is_bound_to_key handler key x = true ∧ get_value r = Some (f x)) ∨
   ((∀ x, get now (v_store v) (ident_bytes key) = Some x → is_bound_to_key handler key x = false) ∧
    get_value r = None ∧ peers_of a (get_node_list r))).

Section lookups.
Context (n : nat) (V : Views) (a b : SocketAddr) (va vb : View) (me i key : ident).
Context (Hab : a ≠ b) (HVa : V !! a = Some va) (HVb : V !! b = Some vb).
Context (Hwa : who !! a = Some me) (Hwb : who !! b = Some i).
Context (Hfree : free_node va) (Hopen : open_node vb).

Lemma tr_source_id :
  triple (seen V [] a) (source_id : M P (NetAt P handler (S n)) ident) (λ x w, x = me ∧ seen V [] a w).
Proof using Hwa.
  eapply triple_weaken; [apply (tr_gets (S n) V [] a)|done|]. intros x w (Hw & p & Hok & _ & ->).
  split; [|done]. pose proof (no_self _ _ Hok). congruence.
Qed.

Lemma peers_other ns : peers_of b ns → (∀ d, d ∈ ns → id d ≠ me) → peers_of a ns.
Proof using Hwa.
  intros Hp Hne c Hc. destruct (Hp c Hc) as (x & j & Hx & -> & _). exists x, j. split; [done|]. split; [done|].
  intros <-. apply (Hne _ Hc). simpl. congruence.
Qed.

Lemma tr_call_find m (hit : bytes → RpcMessage) (f : bytes → bytes) :
  (∀ x, hit x = FindValueHit (f x) ∨ hit x = FindHashHit (f x)) → sendable m →
  serves n V a b va vb m (told vb b me key hit) →
  triple (seen V [] a) (call_find (member b i) m : M P (NetAt P handler (S n)) RawResponse)
    (λ r w, learnt vb a key f r ∧ seen V [] a w).
Proof using H2 Hmembers Hab HVa HVb Hwa Hwb Hfree Hopen.
  intros Hhit Hm Hs. unfold call_find. rewrite member_addr by done.
  eapply triple_bind; [by apply (tr_call n V a b va vb vb m _ Hab HVa HVb Hfree Hopen Hm Hs)|].
  intros r w (ans & -> & Ht & Hw). rewrite (insert_id V b vb HVb) in Hw.
  assert (∀ resp, learnt vb a key f resp → triple (seen V [] a)
    (schedule_welcome_if_new (member b i) ;; mret resp : M P (NetAt P handler (S n)) RawResponse)
    (λ r w, learnt vb a key f r ∧ seen V [] a w)) as Hend.
  { intros resp Hresp. eapply triple_bind; [apply tr_schedule; [done|]; by exists b, i|]. by intros u w0 Hw0. }
  destruct Ht as [(x & Hx & Hbound & ->)|(Hno & ns & -> & Hp & Hne & _)].
  - assert (learnt vb a key f (mkRaw true (PValue (f x)))) as Hl by (split; [done|]; left; eauto).
    destruct (Hhit x) as [-> | ->]; by apply (Hend _ Hl).
  - apply (Hend (mkRaw true (PNodes (wire_tuples (wire_from_node <$> ns))))); [|done].
    split; [done|]. right. split; [done|]. split; [done|]. rewrite get_node_list_tuples. by apply peers_other.
Qed.

Lemma tr_find_value (Hshort : short_at vb key) target :
  id target = key →
  triple (seen V [] a) (proto_find_value (member b i) target : M P (NetAt P handler (S n)) RawResponse)
    (λ r w, learnt vb a key (λ x, x) r ∧ seen V [] a w).
Proof using H2 Hmembers Hab HVa HVb Hwa Hwb Hfree Hopen.
  intros Et. unfold proto_find_value. eapply triple_bind; [apply tr_source_id|]. intros x. apply triple_pure. intros ->.
  rewrite Et. apply (tr_call_find _ FindValueHit); [by left|by split|]. by apply serves_find_value.
Qed.

Lemma tr_find_hash (Hhash : ∀ x, length (record_hash x) = RECORD_HASH_LEN) target :
  id target = key →
  triple (seen V [] a) (call_find_hash (member b i) target : M P (NetAt P handler (S n)) RawResponse)
    (λ r w, learnt vb a key record_hash r ∧ seen V [] a w).
Proof using H2 Hmembers Hab HVa HVb Hwa Hwb Hfree Hopen.
  intros Et. unfold call_find_hash. eapply triple_bind; [apply tr_source_id|]. intros x. apply triple_pure. intros ->.
  rewrite Et. apply (tr_call_find _ (λ x, FindHashHit (record_hash x))); [by right|by split|]. by apply serves_find_hash.
Qed.

End lookups.

End reads.

End cluster.
