(* ===== verification/ClusterProps.v ===== *)
(** * Publication on a network of nodes

    On the network of Cluster, whose members respond and know somebody: a SET of
    a new record is stored by every replica it chooses, each of which runs the
    whole STORE check of its own, and a GET finds a record that one of the
    contacts it asks first holds. *)

From S2P Require Import Prelude Utils Node Routing BucketProps RoutingProps RoutingSpec Storage.
From S2P Require Import Fragmentation FragmentationProps Messages Retransmit Crypto AuthHandler Crawling.
From S2P Require Import CrawlProps SearchProps GoodLookups Effects Protocol Transport Client Handlers.
From S2P Require Import ContactsProps Publish Network Wire Cluster ClusterCalls.

Lemma size_list_to_set_le (l : list ident) : size (list_to_set l : gset ident) ≤ length l.
Proof.
  induction l as [|x l IH]; [done|]. simpl. rewrite size_union_alt, size_singleton.
  assert (size ((list_to_set l : gset ident) ∖ {[x]}) ≤ size (list_to_set l : gset ident)); [|lia].
  apply subseteq_size. set_solver.
Qed.

Section cluster.
Context {St C : Type} `{Sha1, Sha256, BincodeLaws, Ipv6Syntax, HashOrder}.
Context `{IStorageLaws St, MokaCacheLaws C} (handler : SignatureVerifierHandler) `{Rounds}.
Abbreviation P := (KademliaProtocol St C).
Abbreviation W := (World P (Net P)).
Context (now unix : Z) (who : gmap SocketAddr ident) (key : ident) (value : bytes).
Abbreviation View := (ClusterCalls.View (St := St)).
Abbreviation seen := (seen now unix who value).
Abbreviation node_ok := (node_ok now who value).

(** ** Assumptions on the network and the record *)

Record setting : Prop := {
  st_members : members_ok who;
  st_hash x : length (record_hash x) = RECORD_HASH_LEN;
  st_key : key ≠ digest STATUS_LIST_KEY;
  st_id x : who !! x ≠ Some key;
  st_bound : is_bound_to_key handler key value = true;
  st_signed : check_signature handler false value = true;
  st_size : (Z.of_nat (length value) ≤ 200000)%Z;
  st_rounds : 2 * size who + 2 ≤ rounds_of_lookup
}.

Context (Hset : setting).

(** Nobody holds another record for the key. *)
Definition agrees (v : View) : Prop :=
  get now (v_store v) (ident_bytes key) = None ∨ get now (v_store v) (ident_bytes key) = Some value.

Record network (V : gmap SocketAddr View) : Prop := {
  nw_members b i : who !! b = Some i → is_Some (V !! b);
  nw_open b v : V !! b = Some v → open_node v;
  nw_agrees b v : V !! b = Some v → agrees v
}.

Lemma agrees_short v : agrees v → short_at now v key.
Proof using Hset. intros [E|E] x Hx; rewrite E in Hx; [done|]. injection Hx as <-. apply Hset. Qed.

(** ** Lookups from the node at [a] *)

Section lookups.
Context (n : nat) (V : gmap SocketAddr View) (a : SocketAddr) (va : View).
Context (HV : network V) (Hva : V !! a = Some va) (Hfree : free_node va).
Abbreviation WN := (World P (NetAt P handler (S n))).

Definition peer (c : Node) : Prop := ∃ b i, who !! b = Some i ∧ c = member b i ∧ a ≠ b.

Lemma peers_Forall ns : peers_of who a ns ↔ Forall peer ns.
Proof using. by rewrite Forall_forall. Qed.

Lemma failing_none (w : WN) ns : seen V [] a w → failing_among w ns = ∅.
Proof using.
  intros Hw. destruct (seen_self _ _ _ _ _ _ _ _ Hw) as [_ Hok]. simpl. unfold proto_failing.
  apply set_eq. intros i. rewrite elem_of_list_to_set, list_elem_of_fmap. split; [|by intros []%not_elem_of_empty].
  intros (c & _ & [Hc _]%list_elem_of_filter).
  destruct (table_healthy who a (router_of (proto w)) (id c) (no_table _ _ _ _ _ Hok)) as [E _]. by rewrite E in Hc.
Qed.

Definition holder (v : View) : Prop := get now (v_store v) (ident_bytes key) = Some value.

(** What a contact answers about the key, by what it holds. *)
Definition reply (f : bytes → bytes) (c : Node) (r : RawResponse) : Prop :=
  ∃ b i v, who !! b = Some i ∧ c = member b i ∧ V !! b = Some v ∧ happened r = true ∧ Forall peer (get_node_list r) ∧
    (holder v ∧ get_value r = Some (f value) ∨ ¬ holder v ∧ get_value r = None).

Lemma learnt_reply f b i v r :
  who !! b = Some i → V !! b = Some v → learnt handler now who v a key f r → reply f (member b i) r.
Proof using Hset HV.
  intros Hb Hv [Hh Hr]. exists b, i, v. split; [done|]. split; [done|]. split; [done|]. split; [done|].
  destruct Hr as [(x & Hx & _ & Hg)|(Hno & Hg & Hp)].
  - destruct (nw_agrees _ HV b v Hv) as [E|E]; rewrite E in Hx; [done|]. injection Hx as <-.
    split; [|by left]. unfold get_value in Hg. unfold get_node_list. by destruct (raw_payload r).
  - split; [by apply peers_Forall|]. right. split; [|done]. intros E.
    specialize (Hno _ E). by rewrite (st_bound Hset) in Hno.
Qed.

Lemma rpc_find_value (w : WN) p target :
  id target = key → seen V [] a w → peer p →
  seen V [] a (proto_find_value p target w).1 ∧ reply (λ x, x) p (proto_find_value p target w).2.
Proof using Hset HV Hva Hfree H2.
  intros Et Hw (b & i & Hb & -> & Hab). destruct (nw_members _ HV b i Hb) as [vb Hvb].
  assert (∃ me, who !! a = Some me) as [me Hme].
  { destruct (seen_self _ _ _ _ _ _ _ _ Hw) as [_ Hok]. eexists. apply (no_self _ _ _ _ _ Hok). }
  destruct (tr_find_value handler now unix who value (st_members Hset) n V a b va vb me i key Hab Hva Hvb Hme Hb Hfree
    (nw_open _ HV b vb Hvb) (agrees_short vb (nw_agrees _ HV b vb Hvb)) target Et w Hw) as [Hl Hw'].
  split; [done|]. by eapply learnt_reply.
Qed.

Lemma rpc_find_hash (w : WN) p target :
  id target = key → seen V [] a w → peer p →
  seen V [] a (call_find_hash p target w).1 ∧ reply record_hash p (call_find_hash p target w).2.
Proof using Hset HV Hva Hfree H2.
  intros Et Hw (b & i & Hb & -> & Hab). destruct (nw_members _ HV b i Hb) as [vb Hvb].
  assert (∃ me, who !! a = Some me) as [me Hme].
  { destruct (seen_self _ _ _ _ _ _ _ _ Hw) as [_ Hok]. eexists. apply (no_self _ _ _ _ _ Hok). }
  destruct (tr_find_hash handler now unix who value (st_members Hset) n V a b va vb me i key Hab Hva Hvb Hme Hb Hfree
    (nw_open _ HV b vb Hvb) (st_hash Hset) target Et w Hw) as [Hl Hw'].
  split; [done|]. by eapply learnt_reply.
Qed.

(** ** The check of an empty replica *)

(** [Pre] is the network before the first wait, which delivers what is under
    way. *)
Context (Pre : W → Prop) (Hpre : triple Pre (pause : M P (NetAt P handler (S n)) unit) (λ _, seen V [] a)).

Lemma tr_peers_to_ask :
  triple Pre (peers_to_ask (Node_from_id key) : M P (NetAt P handler (S n)) (list Node * bool))
    (λ r w, (Forall peer r.1 ∧ r.1 ≠ []) ∧ seen V [] a w).
Proof using Hset Hpre.
  unfold peers_to_ask. eapply triple_bind; [exact Hpre|]. intros u.
  eapply triple_bind; [apply tr_unix|]. intros t. apply triple_pure. intros ->.
  eapply triple_weaken; [apply (tr_update_hidden handler now unix who value (S n) V [] a)|done|].
  - intros p Hok _. rewrite (surjective_pairing (RoutingTable.find_neighbors _ _ _ _)). simpl.
    apply set_router_ok; [done|]. apply table_ok_find, Hok.
  - intros r w (Hw & p & Hok & _ & ->). split; [|done]. pose proof (no_table _ _ _ _ _ Hok) as Ht.
    pose proof (table_neighbors who a _ unix (Node_from_id key) Ht (st_id Hset)) as (Hp & Hne & _).
    pose proof (table_ok_find who a _ unix (Node_from_id key) None Ht) as Ht'.
    destruct (RoutingTable.find_neighbors unix (router_of p) (Node_from_id key) None) as [ns rt]. cbn [fst snd] in *.
    rewrite list_filter_all; [by rewrite <-peers_Forall|]. apply Forall_forall. intros c _.
    by destruct (table_healthy who a rt (id c) Ht').
Qed.

(** The ids of the members. *)
Definition member_ids : gset ident := list_to_set (map_to_list who).*2.

Lemma member_ids_size : size member_ids ≤ size who.
Proof using.
  unfold member_ids. etrans; [apply size_list_to_set_le|]. by rewrite length_fmap, length_map_to_list.
Qed.

Lemma peer_member_id c : peer c → id c ∈ member_ids.
Proof using.
  intros (b & i & Hb & -> & _). apply elem_of_list_to_set, list_elem_of_fmap. exists (b, i).
  split; [done|]. by apply elem_of_map_to_list.
Qed.

(** The lookup that an empty replica makes finds nothing against the record. *)
Lemma copy_lookup_agrees nearest among k al :
  0 < k → Forall peer nearest → nearest ≠ [] → ∀ e : NetAt P handler (S n),
  triple (seen V [] a) (copy_lookup e value (copy_crawl key nearest among k al))
    (λ r w, r = NoneOrSame ∧ seen V [] a w).
Proof using Hset HV Hva Hfree H2.
  intros Hk Hn Hne e w Hw. unfold copy_lookup, copy_search.
  set (s := ValueSpiderCrawl.base (copy_crawl key nearest among k al)).
  assert (crawl_good peer s) as Hgood.
  { pose proof (crawl_good_new peer (Node_from_id key) nearest k al Hk Hn Hne) as [? ? ? ? ?].
    unfold s, copy_crawl. by destruct among. }
  assert (crawl_ok member_ids ∅ s) as Hok.
  { rewrite Forall_forall in Hn.
    pose proof (crawl_ok_new member_ids (Node_from_id key) nearest k al (λ c Hc, peer_member_id c (Hn c Hc))) as [? ? ? ? ? ?].
    unfold s, copy_crawl. by destruct among. }
  destruct (search_nothing (W := WN) (seen V [] a) peer (λ w ns Hw _, failing_none w ns Hw)
    (λ (w : WN) p t, call_find_hash p t w) (λ w found, (w, other_hash (record_hash value) found)) (Node_from_id key)
    (reply record_hash) (λ w p Hw Hp, rpc_find_hash w p (Node_from_id key) eq_refl Hw Hp)
    member_ids (timed_rounds e) (S (rounds_in_time e)) w s ∅) as (w' & s' & -> & Hw'); try done.
  - intros [|m] Hm; [lia|done].
  - intros p r (b & i & v & _ & _ & _ & Hh & Hp & Hr). split; [done|]. split; [done|]. intros w0 x Hx.
    destruct Hr as [[_ E]|[_ E]]; rewrite E in Hx; [|done]. injection Hx as <-. unfold other_hash. by rewrite bool_decide_eq_true_2.
  - apply peer_member_id.
  - unfold s, copy_crawl. by destruct among.
  - pose proof (st_rounds Hset). pose proof member_ids_size. simpl. unfold measure. case_bool_decide; lia.
Qed.

Lemma tr_network_copy :
  triple Pre (network_copy key value : M P (NetAt P handler (S n)) NetworkCopy)
    (λ r w, r = NoneOrSame ∧ seen V [] a w).
Proof using Hset HV Hva Hfree H2 Hpre.
  unfold network_copy. eapply triple_bind; [apply tr_peers_to_ask|]. intros [nearest among]. cbn [fst].
  apply triple_pure. intros [Hp Hne]. rewrite bool_decide_eq_false_2 by done.
  eapply triple_bind; [apply (tr_gets handler now unix who value (S n) V [] a)|]. intros k.
  eapply (triple_pre _ (λ w, 0 < k ∧ seen V [] a w)); [|intros w (Hw & p & Hok & _ & ->); split; [apply Hok|done]].
  apply triple_pure. intros Hk. eapply triple_bind; [apply keeps_gets|]. intros al.
  eapply triple_bind; [apply keeps_asks|]. intros e. by apply copy_lookup_agrees.
Qed.

(** ** Verifying and storing *)

Lemma tr_verify :
  triple (seen V [] a) (verify_for_key handler key value : M P (NetAt P handler (S n)) bool)
    (λ r w, r = true ∧ seen V [] a w).
Proof using Hset H8.
  unfold verify_for_key. eapply triple_bind; [by apply tr_pause|]. intros u.
  eapply triple_bind; [apply tr_instant|]. intros t. apply triple_pure. intros ->.
  assert (∀ p : P, node_ok a p → (verify_record handler now (sig_cache p) key value).1 = true ∧
    node_ok a (with_cache (verify_record handler now (sig_cache p) key value).2 p)) as Hv.
  { intros p [? ? ? ? ? Hcache]. unfold verify_record. rewrite (st_bound Hset), (bool_decide_eq_false_2 (key = _)) by apply Hset.
    cbn [negb]. rewrite (st_signed Hset). destruct (sig_cache p) as [c|]; [|by split; [|split]].
    specialize (Hcache c eq_refl). destruct (cache_get now c (compute_key SelfSigned value)) as [[]|] eqn:Ec; [|done|].
    - split; [done|]. split; try done. intros c' [= <-]. by rewrite Ec.
    - split; [done|]. split; try done. intros c' [= <-] Hf. apply cache_inserted in Hf as [[_ ?]|Hf]; congruence. }
  eapply (triple_bind _ _ (λ r w, r = true ∧ seen V [] a w)).
  - eapply triple_weaken; [apply (tr_update_hidden handler now unix who value (S n) V [] a)|done|].
    + intros p Hok _. destruct (Hv p Hok) as [_ Hok']. by destruct (verify_record handler now (sig_cache p) key value).
    + intros r w (Hw & p & Hok & _ & ->). split; [|done]. destruct (Hv p Hok) as [Hr _].
      by destruct (verify_record handler now (sig_cache p) key value).
  - intros r. apply triple_pure. intros ->. eapply triple_bind; [by apply tr_pause|]. by intros u' w Hw.
Qed.

(** The node once it has inserted the record, and what the store answered. *)
Definition stored (v : View) : View :=
  mkView (insert_if_absent now (v_store v) (ident_bytes key) value).1 (v_pending v) (v_delivered v) (v_busy v)
    (v_slots v) (v_buffers v) (v_tasks v).

Definition insertion (v : View) : StorageWriteStatus :=
  (insert_if_absent now (v_store v) (ident_bytes key) value).2.

Lemma tr_insert :
  triple (seen V [] a) (storage_insert key value : M P (NetAt P handler (S n)) StorageWriteStatus)
    (λ r w, r = insertion va ∧ seen (<[a := stored va]> V) [] a w).
Proof using Hva.
  unfold storage_insert. eapply triple_bind; [apply tr_instant|]. intros t. apply triple_pure. intros ->.
  eapply triple_weaken; [apply (tr_update handler now unix who value (S n) V [] a _ (stored va))|done|].
  - intros p [? ? ? ? ? ?] HVp. rewrite Hva in HVp. apply (inj Some) in HVp.
    unfold stored, insertion. rewrite HVp. cbn [v_store view].
    destruct (insert_if_absent now (storage p) (ident_bytes key) value) as [s st]. by split; [split|].
  - intros r w (Hw & p & _ & HVp & ->). rewrite Hva in HVp. apply (inj Some) in HVp. split; [|done].
    unfold insertion. rewrite HVp. cbn [v_store view].
    by destruct (insert_if_absent now (storage p) (ident_bytes key) value).
Qed.

(** ** STORE at an empty replica *)

Context (Hseen : ∀ w, Pre w → ∃ fl, seen V fl a w).
Context (Hempty : get now (v_store va) (ident_bytes key) = None).

Lemma tr_needs_lookup :
  triple Pre (store_needs_lookup key : M P (NetAt P handler (S n)) bool) (λ r w, r = true ∧ Pre w).
Proof using Hset Hva Hseen Hempty.
  intros w Hw. destruct (Hseen w Hw) as [fl Hs]. destruct (seen_self _ _ _ _ _ _ _ _ Hs) as [HVp _].
  rewrite Hva in HVp. apply (inj Some) in HVp. unfold store_needs_lookup.
  rewrite bool_decide_eq_false_2 by apply Hset. rewrite HVp in Hempty. split; [|done].
  apply bool_decide_eq_true. change (get (net_instant (env w)) (storage (proto w)) (ident_bytes key) = None).
  by rewrite (s_instant _ _ _ _ _ _ _ _ Hs).
Qed.

(** The insertion of a record into an empty replica with room. *)
Lemma insertion_stored :
  insertion va ≠ CapacityExceeded →
  (insertion va = Stored ∨ insertion va = AlreadyStored) ∧ get now (v_store (stored va)) (ident_bytes key) = Some value.
Proof using Hempty H6.
  intros Hroom. unfold insertion, stored in *. cbn [v_store]. unfold get in *.
  pose proof (law_insert now (v_store va) (ident_bytes key) value) as Hlaw. rewrite law_get in Hempty.
  destruct (insert_if_absent now (v_store va) (ident_bytes key) value) as [s []]; cbn [fst snd] in *; rewrite law_get.
  - destruct Hlaw as [_ ->]. rewrite lookup_insert_eq. auto.
  - destruct Hlaw as [_ ->]. rewrite lookup_insert_eq. auto.
  - destruct Hlaw as (_ & x & Hx & _). by rewrite Hx in Hempty.
  - done.
Qed.

Context (Hroom : insertion va ≠ CapacityExceeded).

Lemma tr_rpc_store src me :
  who !! src = Some me →
  triple Pre (rpc_store handler me (addr_ip src, addr_port src) key value : M P (NetAt P handler (S n)) (option StoreStatus))
    (λ r w, r = Some (store_status_from (insertion va)) ∧ seen (<[a := stored va]> V) [] a w).
Proof using Hset HV Hva Hfree H2 H6 H8 Hpre Hseen Hempty Hroom.
  intros Hsrc. unfold rpc_store. eapply triple_bind; [apply tr_needs_lookup|]. intros r. apply triple_pure. intros ->.
  cbn [negb]. unfold key_binding_is_valid. rewrite (st_bound Hset). cbn [negb].
  eapply triple_bind; [apply tr_network_copy|]. intros c. apply triple_pure. intros ->.
  unfold verify_and_insert. eapply triple_bind; [apply tr_verify|]. intros ok. apply triple_pure. intros ->. cbn [negb].
  eapply triple_bind; [apply tr_insert|]. intros st. apply triple_pure. intros ->. rewrite node_at_member.
  eapply (triple_bind _ _ (λ _, seen (<[a := stored va]> V) [] a)).
  - destruct (insertion_stored Hroom) as [[-> | ->] _]; (apply tr_schedule; [done|by exists src, me]).
  - by intros u w Hw.
Qed.

End lookups.

(** ** A replica serves a STORE *)

(** The requests of a node in progress, its slots and its tasks. *)
Definition working (q : gset RequestKey) (s : Z) (ts : list Task) (v : View) : View :=
  mkView (v_store v) (v_pending v) (v_delivered v) q s (v_buffers v) ts.

(** A node that does nothing else. *)
Record idle_node (v : View) : Prop := {
  in_free : free_node v;
  in_busy : v_busy v = ∅;
  in_slots : v_slots v = 0%Z
}.

Lemma network_insert V x v v' :
  network V → V !! x = Some v → open_node v' → agrees v' → network (<[x := v']> V).
Proof using.
  intros [Hm Ho Ha] Hx Hopen Hag. split; intros y z; rewrite lookup_insert; case_decide as E; [eauto| |naive_solver..].
  intros Hy. by eapply Hm.
Qed.

Lemma idle_working v : idle_node v → v = working ∅ 0 [] v.
Proof using. intros [[[_ Ht] _ _] Hb Hs]. destruct v. simpl in *. by subst. Qed.

Section serving.
Context (n : nat) (V : gmap SocketAddr View) (a b : SocketAddr) (va vb : View) (me : ident).
Context (HV : network V) (Hva : V !! a = Some va) (Hvb : V !! b = Some vb) (Hme : who !! a = Some me).
Context (Hidle : idle_node vb) (Hempty : get now (v_store vb) (ident_bytes key) = None).
Context (Hroom : insertion vb ≠ CapacityExceeded).
Abbreviation M := (M P (NetAt P handler (S n))).

(** The network while [b] works. *)
Definition at_work (v : View) (q : gset RequestKey) (s : Z) (ts : list Task) : gmap SocketAddr View :=
  <[b := working q s ts v]> V.

Lemma at_work_self v q s ts : at_work v q s ts !! b = Some (working q s ts v).
Proof using. unfold at_work. by rewrite lookup_insert_eq. Qed.

Lemma at_work_again v q s ts v' q' s' ts' :
  <[b := working q' s' ts' v']> (at_work v q s ts) = at_work v' q' s' ts'.
Proof using. unfold at_work. by rewrite insert_insert_eq. Qed.

Lemma tr_at_work {A} v q s ts fl (f : Transport → Transport * A) q' s' r :
  (∀ t, requests_in_progress t = q → store_lookups t = s →
    let t' := (f t).1 in next_msg_id t' = next_msg_id t ∧ pending t' = pending t ∧ delivered t' = delivered t ∧
    reassembler t' = reassembler t ∧ requests_in_progress t' = q' ∧ store_lookups t' = s' ∧ (f t).2 = r) →
  triple (seen (at_work v q s ts) fl b) (on_transport_r f : M A)
    (λ x w, x = r ∧ seen (at_work v q' s' ts) fl b w).
Proof using.
  intros Hf. assert (∀ p : P, at_work v q s ts !! b = Some (view p) →
    let p' := with_transport (f (transport p)).1 p in
    next_msg_id (transport p') = next_msg_id (transport p) ∧ view p' = working q' s' ts v ∧ (f (transport p)).2 = r) as Hp.
  { intros p HVp. rewrite at_work_self in HVp. apply (inj Some) in HVp.
    destruct (Hf (transport p)) as (Hi & Hp & Hd & Hr & Hq & Hs & Hx).
    { by apply (f_equal v_busy) in HVp. }
    { by apply (f_equal v_slots) in HVp. }
    split; [done|]. split; [|done]. unfold view. simpl. rewrite Hp, Hd, Hr, Hq, Hs.
    destruct v. unfold working, view in *. simpl in *. by injection HVp as -> -> -> _ _ -> ->. }
  unfold on_transport_r.
  eapply triple_weaken; [apply (tr_update handler now unix who value (S n) (at_work v q s ts) fl b _ (working q' s' ts v))|done|].
  - intros p Hok HVp. destruct (Hp p HVp) as (Hi & Hv & _). destruct (f (transport p)) as [t x]. simpl in *.
    split; [apply transport_ok; [done|]; rewrite Hi; apply Hok|done].
  - intros x w' (Hw' & p & _ & HVp & ->). rewrite at_work_again in Hw'. split; [|done].
    destruct (Hp p HVp) as (_ & _ & Hr). by destruct (f (transport p)).
Qed.

Lemma tr_spawn_store v q s fl t :
  is_store_task t = true →
  triple (seen (at_work v q s []) fl b) (update (spawn_task t) : M bool)
    (λ x w, x = true ∧ seen (at_work v q s [t]) fl b w).
Proof using.
  intros Ht. eapply triple_weaken; [apply (tr_update handler now unix who value (S n) (at_work v q s []) fl b _ (working q s [t] v))|done|].
  - intros p [? Hrun ? ? ? ?] HVp. rewrite at_work_self in HVp. apply (inj Some) in HVp.
    unfold spawn_task. destruct (tasks p) as [ts|] eqn:E; [|done]. simpl. split; [by split|].
    unfold view, store_tasks in *. simpl. rewrite E in HVp. simpl in HVp. rewrite filter_app, filter_cons_True by done.
    destruct v. unfold working in *. simpl in *. injection HVp as -> -> -> -> -> -> <-. done.
  - intros x w (Hw & p & [? Hrun ? ? ? ?] & _ & ->). rewrite at_work_again in Hw. split; [|done].
    unfold spawn_task. by destruct (tasks p).
Qed.

Lemma tr_modify_at_work v q s ts fl f q' s' :
  (∀ t, requests_in_progress t = q → store_lookups t = s →
    let t' := f t in next_msg_id t' = next_msg_id t ∧ pending t' = pending t ∧ delivered t' = delivered t ∧
    reassembler t' = reassembler t ∧ requests_in_progress t' = q' ∧ store_lookups t' = s') →
  triple (seen (at_work v q s ts) fl b) (modify (on_transport f) : M unit) (λ _, seen (at_work v q' s' ts) fl b).
Proof using.
  intros Hf w Hw. apply (tr_at_work v q s ts fl (λ t, (f t, tt)) q' s' tt); [|done].
  intros t Hq Hs. destruct (Hf t Hq Hs) as (? & ? & ? & ? & ? & ?). done.
Qed.

(** [b] receives the request, and leaves it to a task. *)
Lemma tr_accept_store i bs :
  (0 ≤ i < 2 ^ 32)%Z →
  let m := Store me key value in
  triple (seen V [] b) (handle_record_request handler bs (mkFrame i true m) a : M unit)
    (λ _ w, ∃ bs' ds, letter i false Received b a bs' ds ∧
      seen (at_work vb {[(a, record_hash bs)]} 1 [HandleStore a (record_hash bs) i m]) ds b w).
Proof using Hset Hvb Hidle Hempty H2.
  intros Hi m. unfold handle_record_request. set (req := (a, record_hash bs)).
  assert (V = at_work vb ∅ 0 []) as E by (unfold at_work; rewrite <-idle_working by done; by rewrite insert_id).
  rewrite E at 1. eapply triple_bind; [apply (tr_at_work vb ∅ 0 [] [] _ {[req]} 0 true)|].
  { intros t Hq Hs. simpl. rewrite Hq, Hs, bool_decide_eq_false_2 by set_solver+. repeat split_and!; try done. set_solver+. }
  intros x. apply triple_pure. intros ->. cbn [negb message msg_id needs_slot].
  eapply triple_bind; [eapply (tr_needs_lookup (S n) (at_work vb {[req]} 0 []) b (working {[req]} 0 [] vb))|].
  { apply at_work_self. }
  { intros w Hw. eexists. exact Hw. }
  { exact Hempty. }
  intros x. apply triple_pure. intros ->. cbn [negb].
  eapply (triple_bind _ _ (λ x w, x = true ∧ seen (at_work vb {[req]} 1 []) [] b w)).
  { unfold take_slot. eapply triple_bind; [apply (tr_at_work vb {[req]} 0 [] [] _ {[req]} 1 0%Z)|].
    { intros t Hq Hs. unfold fetch_add_lookups. rewrite Hs. by repeat split_and!. }
    intros x. apply triple_pure. intros ->. by intros w Hw. }
  intros x. apply triple_pure. intros ->. cbn [negb].
  eapply triple_bind; [by apply tr_answer|]. intros u. apply triple_ex. intros bs'. apply triple_ex. intros ds.
  apply triple_pure. intros Hl. eapply triple_bind; [by apply tr_spawn_store|].
  intros x. apply triple_pure. intros ->. cbn [negb]. intros w Hw. by exists bs', ds.
Qed.

(** The task of the request. *)
Lemma tr_store_task i q ds bs' :
  (0 ≤ i < 2 ^ 32)%Z → letter i false Received b a bs' ds →
  let m := Store me key value in
  triple (seen (at_work vb {[(a, q)]} 1 []) ds b) (store_task handler a q i m : M unit)
    (λ _ w, ∃ bs'' ds', letter i false (StoreResult (store_status_from (insertion vb))) b a bs'' ds' ∧
      seen (<[b := stored vb]> V) ds' b w).
Proof using Hset HV Hva Hvb Hme Hidle Hempty Hroom H2 H6 H8.
  intros Hi Hl m. set (req := (a, q)). set (V1 := at_work vb {[req]} 1 []). set (v1 := working {[req]} 1 [] vb).
  unfold store_task, answer_request. cbn [message msg_id dispatch_request].
  assert (open_node v1) as Hopen by (destruct Hidle as [[[] _ _] _ _]; by split).
  assert (free_node v1) as Hfree by (destruct Hidle as [[] _ _]; by split).
  assert (network V1) as HV1 by (eapply network_insert; [done..|by apply (nw_agrees _ HV b vb)]).
  assert (V1 !! b = Some v1) as Hv1 by apply at_work_self.
  assert (∃ x, V1 !! a = Some x ∧ open_node x) as (va1 & Hva1 & Hopen1).
  { destruct (nw_members _ HV1 a me Hme) as [x Hx]. exists x. split; [done|]. by apply (nw_open _ HV1 a). }
  set (Vs := <[b := stored v1]> V1).
  assert (Vs = at_work (stored vb) {[req]} 1 []) as EVs by apply (at_work_again vb {[req]} 1 [] (stored vb)).
  eapply (triple_bind _ _ (λ _ w, ∃ bs'' ds', letter i false (StoreResult (store_status_from (insertion vb))) b a bs'' ds' ∧
    seen Vs ds' b w)).
  { eapply (triple_bind _ _ (λ r w, r = Some (StoreResult (store_status_from (insertion vb))) ∧ seen Vs [] b w)).
    - eapply triple_bind; [eapply (tr_rpc_store n V1 b v1 HV1 Hv1 Hfree (seen V1 ds b))|].
      + eapply tr_pause_receipt; eauto.
      + intros w Hw. by exists ds.
      + exact Hempty.
      + exact Hroom.
      + exact Hme.
      + intros st. apply triple_pure. intros ->. by intros w Hw.
    - intros r. apply triple_pure. intros ->. apply tr_answer; [done| |done]. by split. }
  intros u. apply triple_ex. intros bs''. apply triple_ex. intros ds'. apply triple_pure. intros Hl'. rewrite EVs.
  eapply triple_bind; [apply (tr_modify_at_work (stored vb) {[req]} 1 [] ds' _ ∅ 1)|].
  { intros t Hq Hs. simpl. rewrite Hq. repeat split_and!; try done. set_solver+. }
  intros u'. eapply triple_weaken; [apply (tr_modify_at_work (stored vb) ∅ 1 [] ds' _ ∅ 0)|done|].
  { intros t Hq Hs. simpl. rewrite Hs. by repeat split_and!. }
  intros u2 w Hw. exists bs'', ds'. split; [done|]. unfold at_work in Hw.
  assert (working ∅ 0 [] (stored vb) = stored vb) as <-; [|done].
  change (stored (working ∅ 0 [] vb) = stored vb). by rewrite <-idle_working.
Qed.

Lemma tr_take_store v q s fl t :
  is_store_task t = true →
  triple (seen (at_work v q s [t]) fl b) (update take_store_tasks : M (list Task))
    (λ x w, x = [t] ∧ seen (at_work v q s []) fl b w).
Proof using.
  intros Ht. eapply triple_weaken; [apply (tr_update handler now unix who value (S n) (at_work v q s [t]) fl b _ (working q s [] v))|done|].
  - intros p [? Hrun ? ? ? ?] HVp. rewrite at_work_self in HVp. apply (inj Some) in HVp.
    unfold take_store_tasks. simpl. destruct (tasks p) as [ts|] eqn:E; [|done]. split; [by split|].
    unfold view, store_tasks in *. simpl. rewrite E in HVp. simpl in HVp.
    rewrite (no_store_task ts). destruct v. unfold working in *. simpl in *. by injection HVp as -> -> -> -> -> -> _.
  - intros x w (Hw & p & _ & HVp & ->). rewrite at_work_again in Hw. split; [|done].
    rewrite at_work_self in HVp. apply (inj Some) in HVp. by apply (f_equal v_tasks) in HVp.
Qed.

(** What [b] does when the request arrives. *)
Lemma tr_store_request i bs :
  (0 ≤ i < 2 ^ 32)%Z → deserialize bs = Some (mkFrame i true (Store me key value)) →
  triple (seen V [] b) (react handler (S n) bs a ≫= λ _, run_stores handler (S n))
    (λ _ w, ∃ bs' ds, letter i false (StoreResult (store_status_from (insertion vb))) b a bs' ds ∧
      seen (<[b := stored vb]> V) ds b w).
Proof using Hset HV Hva Hvb Hme Hidle Hempty Hroom H2 H6 H8.
  intros Hi Hd. unfold react. rewrite Hd. cbn [negb is_request message carried_record].
  eapply triple_bind; [by apply tr_accept_store|]. intros u. apply triple_ex. intros bs'. apply triple_ex. intros ds.
  apply triple_pure. intros Hl. unfold run_stores. eapply triple_bind; [by apply tr_take_store|].
  intros ts. apply triple_pure. intros ->. apply triple_one. by eapply tr_store_task.
Qed.

End serving.


End cluster.
