(* ===== verification/ClusterSet.v ===== *)
(** * SET and GET on a network of nodes

    The operations of a server (src/src/network/publish.rs, read.rs) on the
    network of Cluster: what a SET stores and where, and what a GET finds. *)

From S2P Require Import Prelude Utils Node Routing BucketProps RoutingProps RoutingSpec Storage.
From S2P Require Import Fragmentation FragmentationProps Messages Retransmit Crypto AuthHandler Crawling.
From S2P Require Import CrawlProps SearchProps GoodLookups Effects Protocol Transport Client Handlers.
From S2P Require Import ContactsProps NodeExample Publish Network NetworkProps Wire Cluster ClusterCalls ClusterProps.

(** ** Total runs of lookups *)

(** From [Pre], [m] ends, in [Post]. *)
Definition ends {P E A} (Pre : World P E → Prop) (m : F P E A) (Post : A → World P E → Prop) : Prop :=
  ∀ w, Pre w → ∃ w' r, m w = Some (w', r) ∧ Post r w'.

Lemma ends_lift {P E A} Pre (m : M P E A) Post : triple Pre m Post → ends Pre (lift m) Post.
Proof. intros Hm w Hw. exists (m w).1, (m w).2. split; [unfold lift; by rewrite <-surjective_pairing|]. by apply Hm. Qed.

Lemma ends_ret {P E A} (Pre : World P E → Prop) (a : A) Post : (∀ w, Pre w → Post a w) → ends Pre (mret a) Post.
Proof. intros Ha w Hw. exists w, a. split; [done|]. by apply Ha. Qed.

Lemma ends_bind {P E A B} Pre (m : F P E A) (f : A → F P E B) Mid Post :
  ends Pre m Mid → (∀ a, ends (Mid a) (f a) Post) → ends Pre (m ≫= f) Post.
Proof.
  intros Hm Hf w Hw. destruct (Hm w Hw) as (w1 & a & Em & Ha). unfold mbind, F_bind. rewrite Em. by apply Hf.
Qed.

Lemma ends_pure {P E A} (Q : Prop) Pre (m : F P E A) Post :
  (Q → ends Pre m Post) → ends (λ w, Q ∧ Pre w) m Post.
Proof. intros Hm w [HQ Hw]. by apply Hm. Qed.

(** ** The stores of a publication *)

Section cluster.
Context {St C : Type} `{Sha1, Sha256, BincodeLaws, Ipv6Syntax, HashOrder}.
Context `{IStorageLaws St, MokaCacheLaws C} (handler : SignatureVerifierHandler) `{Rounds}.
Abbreviation P := (KademliaProtocol St C).
Abbreviation W := (World P (Net P)).
Context (now unix : Z) (who : gmap SocketAddr ident) (key : ident) (value : bytes).
Abbreviation View := (ClusterCalls.View (St := St)).
Abbreviation seen := (seen now unix who value).
Abbreviation node_ok := (node_ok now who value).
Abbreviation network := (network now who key value).
Abbreviation stored := (stored now key value).
Abbreviation insertion := (insertion now key value).
Context (Hset : setting handler who key value).

(** A replica for the record: it does nothing else, and its store is empty at
    the key and has room. *)
Record vacant (v : View) : Prop := {
  vc_idle : idle_node v;
  vc_empty : get now (v_store v) (ident_bytes key) = None;
  vc_room : insertion v ≠ CapacityExceeded
}.

Lemma stored_idle v : idle_node v → idle_node (stored v).
Proof using. intros [[[? ?] ? ?] ? ?]. done. Qed.

Lemma stored_agrees v : vacant v → agrees now key value (stored v).
Proof using H6. intros [_ He Hr]. right. by apply (insertion_stored now key value v He Hr). Qed.

(** An answer that acknowledges the record. *)
Definition acknowledged (st : option StoreStatus) : Prop := st = Some SStored ∨ st = Some SAlreadyStored.

Lemma vacant_status v : vacant v → acknowledged (Some (store_status_from (insertion v))).
Proof using H6.
  intros [_ He Hr]. destruct (insertion_stored now key value v He Hr) as [[-> | ->] _]; [by left|by right].
Qed.

(** The views after the addresses [bs] have stored the record. *)
Definition store_at (bs : list SocketAddr) (V : gmap SocketAddr View) : gmap SocketAddr View :=
  foldl (λ V b, alter stored b V) V bs.

Lemma store_at_lookup bs V x : NoDup bs → store_at bs V !! x = (if decide (x ∈ bs) then stored <$> V !! x else V !! x).
Proof using.
  intros Hnd. revert V. induction Hnd as [|b bs Hb _ IH]; intros V; [done|]. cbn [store_at foldl].
  fold (store_at bs (alter stored b V)). rewrite IH. destruct (decide (x = b)) as [->|Hne].
  - rewrite decide_False, decide_True by (done || by left). by rewrite lookup_alter_eq.
  - rewrite lookup_alter_ne by done. apply decide_ext. rewrite elem_of_cons. naive_solver.
Qed.

Lemma insert_stored (V : gmap SocketAddr View) b v : V !! b = Some v → <[b := stored v]> V = alter stored b V.
Proof using.
  intros Hb. apply map_eq. intros x. destruct (decide (x = b)) as [->|Hne].
  - by rewrite lookup_insert_eq, lookup_alter_eq, Hb.
  - by rewrite lookup_insert_ne, lookup_alter_ne by done.
Qed.

(** A contact and its address. *)
Definition lives_at (c : Node) (b : SocketAddr) : Prop := who !! b = Some (id c) ∧ c = member b (id c).

Section storing.
Context (n : nat) (a : SocketAddr) (va : View) (me : ident).
Context (Hme : who !! a = Some me) (Hfree : free_node va).
Abbreviation M := (M P (NetAt P handler (S (S n)))).

Lemma serves_store V b vb :
  network V → a ≠ b → V !! a = Some va → V !! b = Some vb → vacant vb →
  serves handler now unix who value (S n) V a b va (stored vb) (Store me key value)
    (λ ans, ans = StoreResult (store_status_from (insertion vb))).
Proof using Hset Hme Hfree H2 H6 H8.
  intros HV Hab Hva Hvb Hvac i ch bs Hi Hbs. set (V1 := <[a := calling b va (Store me key value) i ch]> V).
  assert (network V1) as HV1.
  { eapply network_insert; [done|done|destruct Hfree as [[] _ _]; by split|]. by apply (nw_agrees _ _ _ _ _ HV a va). }
  destruct Hvac as [Hidle He Hr].
  eapply triple_weaken; [eapply (tr_store_request handler now unix who key value Hset n V1 a b _ vb me HV1); eauto|done|].
  - unfold V1. by rewrite lookup_insert_eq.
  - unfold V1. by rewrite lookup_insert_ne.
  - intros u w (bs' & ds & Hl & Hw). exists (StoreResult (store_status_from (insertion vb)), bs', ds). done.
Qed.

Lemma tr_call_store V b i vb :
  network V → a ≠ b → V !! a = Some va → V !! b = Some vb → who !! b = Some i → vacant vb →
  triple (seen V [] a) (call_store_rpc (member b i) key value : M (option StoreStatus))
    (λ r w, r = Some (store_status_from (insertion vb)) ∧ seen (<[b := stored vb]> V) [] a w).
Proof using Hset Hme Hfree H2 H6 H8.
  intros HV Hab Hva Hvb Hb Hvac. unfold call_store_rpc.
  rewrite (member_addr who (st_members _ _ _ _ Hset)) by done.
  eapply triple_bind; [by apply (tr_source_id handler now unix who value (S n) V a me)|]. intros x. apply triple_pure. intros ->.
  eapply triple_bind; [eapply (tr_call handler now unix who value (S n) V a b va vb (stored vb)); try done|].
  - by apply (nw_open _ _ _ _ _ HV b).
  - split; [done|]. apply Hset.
  - by apply serves_store.
  - intros r. apply triple_ex. intros ans. apply triple_pure. intros ->. apply triple_pure. intros ->.
    eapply triple_bind; [by apply tr_note_alive|]. intros o. apply triple_pure. intros ->. by intros w Hw.
Qed.

(** The STOREs of a publication, one after the other. *)
Lemma tr_store_all ns bs V :
  network V → V !! a = Some va → Forall2 lives_at ns bs → NoDup bs → a ∉ bs →
  (∀ b, b ∈ bs → ∃ v, V !! b = Some v ∧ vacant v) →
  triple (seen V [] a) (for_each (λ c, call_store_rpc c key value) ns : M (list (option StoreStatus)))
    (λ sts w, (Forall acknowledged sts ∧ length sts = length bs) ∧ seen (store_at bs V) [] a w).
Proof using Hset Hme Hfree H2 H6 H8.
  intros HV Hva Hns. revert V HV Hva. induction Hns as [|c b ns bs [Hb Ec] Hns IH]; intros V HV Hva Hnd Ha Hvac.
  { by intros w Hw. }
  apply NoDup_cons in Hnd as [Hbs Hnd]. apply not_elem_of_cons in Ha as [Hab Ha].
  destruct (Hvac b ltac:(by left)) as (vb & Hvb & Hv). cbn [for_each]. rewrite Ec.
  eapply triple_bind; [by apply tr_call_store|]. intros st. apply triple_pure. intros ->.
  eapply triple_bind.
  - apply (IH (<[b := stored vb]> V)).
    + eapply network_insert; [done..|apply stored_idle, Hv|by apply stored_agrees].
    + by rewrite lookup_insert_ne.
    + done.
    + done.
    + intros x Hx. destruct (Hvac x ltac:(by right)) as (v & Hv' & Hvx). exists v. split; [|done].
      rewrite lookup_insert_ne; [done|]. intros <-. done.
  - intros sts w [[Hall Hlen] Hw]. split; [split; [|by simpl; rewrite Hlen]|].
    + constructor; [by apply vacant_status|done].
    + cbn [store_at foldl]. by rewrite <-(insert_stored V b vb Hvb).
Qed.

End storing.

(** ** The report of acknowledged stores *)

Lemma record_acknowledged e s p sts :
  Forall acknowledged sts →
  ∃ s' p', foldl record_status (mkReport e s p 0 0 0 0) sts = mkReport e s' p' 0 0 0 0 ∧ s' + p' = s + p + length sts.
Proof using.
  intros Hall. revert s p. induction Hall as [|st sts [-> | ->] _ IH]; intros s p; simpl.
  - exists s, p. split; [done|lia].
  - destruct (IH (S s) p) as (s' & p' & E & El). exists s', p'. split; [done|lia].
  - destruct (IH s (S p)) as (s' & p' & E & El). exists s', p'. split; [done|lia].
Qed.

Lemma all_acknowledged e sts :
  Forall acknowledged sts → length sts = e → 0 < e →
  ∃ r, classify_set_report (foldl record_status (mkReport e 0 0 0 0 0 0) sts) = Complete r ∧ expected_replicas r = e.
Proof using.
  intros Hall Hlen Hpos. destruct (record_acknowledged e 0 0 sts Hall) as (s & p & -> & E).
  unfold classify_set_report, acknowledged_replicas. simpl. destruct e as [|e]; [lia|].
  rewrite (proj2 (Nat.eqb_eq (s + p) (S e))) by lia. eauto.
Qed.

(** ** SET *)

(** Addresses of members. *)
Definition members_all (bs : list SocketAddr) : Prop := ∀ b, b ∈ bs → is_Some (who !! b).

Section publication.
Context (n : nat) (V : gmap SocketAddr View) (a : SocketAddr) (va : View) (me : ident).
Context (HV : network V) (Hva : V !! a = Some va) (Hme : who !! a = Some me).
Context (Hvacant : ∀ b v, V !! b = Some v → vacant v).
Abbreviation E := (NetAt P handler (S (S n))).

Lemma free_at b v : V !! b = Some v → free_node v.
Proof using Hvacant. intros Hb. apply (vc_idle _ (Hvacant b v Hb)). Qed.

(** The addresses of the nodes chosen. *)
Lemma peers_addresses ns :
  Forall (peer who a) ns → NoDup (id <$> ns) → ∃ bs, Forall2 lives_at ns bs ∧ NoDup bs ∧ a ∉ bs ∧ members_all bs.
Proof using.
  induction 1 as [|c ns (b & i & Hb & -> & Hab) _ IH]; intros Hnd.
  { exists []. split; [constructor|]. split; [constructor|].
    split; [apply not_elem_of_nil|]. by intros b []%not_elem_of_nil. }
  csimpl in Hnd. apply NoDup_cons in Hnd as [Hi Hnd]. destruct (IH Hnd) as (bs & Hbs & Hnd' & Ha & Hall).
  exists (b :: bs). split; [by constructor|].
  split; [|split; [by apply not_elem_of_cons|]; intros x [->|Hx]%elem_of_cons; [by eexists|by apply Hall]].
  constructor; [|done]. intros Hin. apply list_elem_of_lookup in Hin as [j Hj].
  destruct (Forall2_lookup_r _ _ _ _ _ Hbs Hj) as (c & Hc & [Hb' _]). apply Hi.
  simpl. assert (i = id c) as -> by congruence. by eapply list_elem_of_fmap_2, list_elem_of_lookup_2.
Qed.

Lemma network_stored : network (<[a := stored va]> V).
Proof using HV Hva Hvacant H6.
  eapply network_insert; [done..|apply stored_idle, (Hvacant a va Hva)|]. by apply stored_agrees, (Hvacant a va).
Qed.

(** The stores: the local one, then the remote ones. *)
Lemma tr_store_on local remote :
  Forall (peer who a) remote → NoDup (id <$> remote) → remote ≠ [] →
  triple (seen V [] a) (store_on key value local remote (mkReport (length remote + usize_from local) 0 0 0 0 0 0)
      : M P E SetOutcome)
    (λ o w, ∃ r bs, (o = Complete r ∧ NoDup bs ∧ expected_replicas r = length bs ∧ 0 < length bs ∧ members_all bs) ∧
      seen (store_at bs V) [] a w).
Proof using Hset HV Hva Hme Hvacant H2 H6 H8.
  intros Hp Hnd Hne. destruct (peers_addresses remote Hp Hnd) as (bs & Hbs & Hndb & Ha & Hall).
  pose proof (Forall2_length _ _ _ Hbs) as Hlen. assert (0 < length remote) as Hpos by (by destruct remote; [|simpl; lia]).
  assert (∀ b, b ∈ bs → ∃ v, V !! b = Some v ∧ vacant v) as Hvac.
  { intros b Hin. apply list_elem_of_lookup in Hin as [j Hj].
    destruct (Forall2_lookup_r _ _ _ _ _ Hbs Hj) as (c & _ & [Hb _]).
    destruct (nw_members _ _ _ _ _ HV b _ Hb) as [v Hv]. exists v. split; [done|]. by apply (Hvacant b). }
  unfold store_on. destruct local; cbn [usize_from].
  - eapply (triple_bind _ _ (λ rep w, rep = record_status (mkReport (length remote + 1) 0 0 0 0 0 0) (Some (store_status_from (insertion va))) ∧
      seen (<[a := stored va]> V) [] a w)).
    { eapply triple_bind; [by apply (tr_insert handler now unix who key value)|]. intros st. apply triple_pure. intros ->. by intros w Hw. }
    intros rep. apply triple_pure. intros ->. eapply triple_bind.
    + apply (tr_store_all n a (stored va) me Hme ltac:(destruct (free_at a va Hva) as [[] ? ?]; done) remote bs); [apply network_stored|by rewrite lookup_insert_eq|done|done|done|].
      intros b Hb. destruct (Hvac b Hb) as (v & Hv & Hvv). exists v. split; [|done].
      rewrite lookup_insert_ne; [done|]. by intros <-.
    + intros sts w [[Hack Hlen'] Hw].
      destruct (all_acknowledged (length remote + 1) (Some (store_status_from (insertion va)) :: sts)) as (r & Hr & He).
      { constructor; [by apply vacant_status, (Hvacant a)|done]. }
      { simpl. lia. }
      { lia. }
      exists r, (a :: bs). split; [|by cbn [store_at foldl]; rewrite <-(insert_stored V a va Hva)].
      split; [exact Hr|]. split; [by constructor|]. split; [simpl; lia|]. split; [simpl; lia|].
      intros x [->|Hx]%elem_of_cons; [by eexists|by apply Hall].
  - rewrite Nat.add_0_r. eapply (triple_bind _ _ (λ rep w, rep = mkReport (length remote) 0 0 0 0 0 0 ∧ seen V [] a w)).
    { by intros w Hw. }
    intros rep. apply triple_pure. intros ->. eapply triple_bind.
    + apply (tr_store_all n a va me Hme (free_at a va Hva) remote bs); done.
    + intros sts w [[Hack Hlen'] Hw]. destruct (all_acknowledged (length remote) sts Hack) as (r & Hr & He); [lia|lia|].
      exists r, bs. split; [|done]. split; [exact Hr|]. split; [done|]. split; [lia|]. split; [lia|done].
Qed.

Context (fuel : nat) (srv : Server).
Context (Hlistening : listening srv = true) (Hsrv : id (srv_node srv) = me) (Hksize : 1 < srv_ksize srv).
Context (Hfuel : 2 * size who + 1 < fuel).

Lemma rpc_only_contacts (w : World P E) p :
  seen V [] a w → peer who a p →
  seen V [] a (call_find_value w p (Node_from_id key)).1 ∧
  only_contacts (peer who a) (call_find_value w p (Node_from_id key)).2.
Proof using Hset HV Hva Hvacant H2.
  intros Hw Hp.
  destruct (rpc_find_value handler now unix who key value Hset (S n) V a va HV Hva (free_at a va Hva) w p (Node_from_id key) eq_refl Hw Hp)
    as [Hw' (b & i & v & _ & _ & Hv & Hh & Hns & Hr)]. split; [done|]. split; [done|]. split; [|done].
  destruct Hr as [[Hhold _]|[_ E]]; [|done]. pose proof (vc_empty _ (Hvacant b v Hv)) as He.
  unfold holder in Hhold. congruence.
Qed.

Lemma ends_find nearest :
  Forall (peer who a) nearest → nearest ≠ [] →
  ends (seen V [] a) (find_value fuel srv key nearest : F P E _)
    (λ r w, (r.1 = None ∧ unresponsive r.2 = 0 ∧ Forall (peer who a) (nodes r.2) ∧ nodes r.2 ≠ []) ∧ seen V [] a w).
Proof using Hset HV Hva Hvacant Hksize Hfuel H2.
  intros Hp Hne w Hw. unfold find_value, value_crawl.
  destruct (find_nothing (W := World P E) (seen V [] a) (peer who a) (λ w ns Hw _, failing_none handler now unix who value (S n) V a w ns Hw)
    (Node_from_id key) rpc_only_contacts (member_ids who) fuel w (ValueSpiderCrawl.new (Node_from_id key) nearest (srv_ksize srv) (srv_alpha srv)) ∅)
    as (w' & r & Hf & Hw' & Hr); try done.
  - apply peer_member_id.
  - apply crawl_good_new; [lia|done|done].
  - apply crawl_ok_new. rewrite Forall_forall in Hp. intros c Hc. by eapply peer_member_id, Hp.
  - pose proof (member_ids_size who). unfold measure. case_bool_decide; lia.
  - exists w', r. done.
Qed.

(** The lookup before the stores: nobody holds the record. *)
Context (k : bytes) (Hkey : digest k = key).

Lemma ends_check :
  ends (seen V [] a) (check_publish_state handler fuel srv k value : F P E _)
    (λ r w, (∃ l, r = Missing l ∧ unresponsive l = 0 ∧ Forall (peer who a) (nodes l) ∧ nodes l ≠ []) ∧ seen V [] a w).
Proof using Hset HV Hva Hvacant Hksize Hfuel Hlistening Hkey H2.
  unfold check_publish_state. rewrite Hkey.
  eapply ends_bind; [apply ends_lift; by apply (tr_storage_get handler now unix who value (S (S n)) V a va key)|].
  intros o. apply ends_pure. intros ->. rewrite (vc_empty _ (Hvacant a va Hva)), Hlistening. cbn [negb].
  eapply ends_bind; [apply ends_lift; apply (tr_find_neighbors handler now unix who value); [done|apply Hset]|].
  intros nearest. apply ends_pure. intros (Hp & Hne & _). rewrite bool_decide_eq_false_2 by done.
  eapply ends_bind; [apply ends_find; [by apply peers_Forall|done]|].
  intros [found l]. cbn [fst snd]. apply ends_pure. intros (-> & Hl). apply ends_ret. intros w Hw. split; [|done]. by exists l.
Qed.

(** Every replica that the SET chooses stores the record. *)
Lemma ends_set :
  ends (seen V [] a) (set_detailed handler fuel srv k value : F P E SetOutcome)
    (λ o w, ∃ r bs, (o = Complete r ∧ NoDup bs ∧ expected_replicas r = length bs ∧ 0 < length bs ∧ members_all bs) ∧
      seen (store_at bs V) [] a w).
Proof using Hset HV Hva Hme Hvacant Hksize Hfuel Hlistening Hkey Hsrv H2 H6 H8.
  unfold set_detailed, verify_value. rewrite Hkey.
  eapply ends_bind; [apply ends_lift; by apply (tr_verify handler now unix who key value Hset (S n))|].
  intros ok. apply ends_pure. intros ->. rewrite Hlistening. cbn [negb].
  eapply ends_bind; [apply ends_check|]. intros state. apply ends_pure. intros (l & -> & Hun & Hp & Hne).
  apply ends_lift. unfold set_digest_detailed. rewrite Hlistening. cbn [negb].
  pose proof (select_remote_incl (srv_node srv) (Node_from_id key) (nodes l) (srv_ksize srv)) as Hincl.
  pose proof (select_remote_nodup (srv_node srv) (Node_from_id key) (nodes l) (srv_ksize srv)) as Hnd.
  pose proof (select_remote_some (srv_node srv) (Node_from_id key) (nodes l) (srv_ksize srv) Hksize) as Hsome.
  destruct (select_responsible_nodes _ _ _ _) as [local remote]. cbn [fst snd] in *.
  rewrite Forall_forall in Hp.
  assert (remote ≠ []) as Hrem.
  { apply Hsome. destruct (nodes l) as [|c ns] eqn:El; [done|]. exists c. split; [by left|]. rewrite Hsrv.
    destruct (Hp c ltac:(by left)) as (b & i & Hb & -> & Hab). simpl. intros ->.
    apply Hab. by apply (mo_inj _ (st_members _ _ _ _ Hset) a b me). }
  rewrite (bool_decide_eq_false_2 (remote = [])) by done.
  eapply (triple_bind _ _ (λ cut w, cut = false ∧ seen V [] a w)); [by intros w Hw|].
  intros cut. apply triple_pure. intros ->. cbn [usize_from]. rewrite Hun, Nat.add_0_r. apply tr_store_on; [|done|done].
  apply Forall_forall. intros c Hc. by apply Hp, Hincl.
Qed.

End publication.

(** ** GET *)

Section reading.
Context (n : nat) (V : gmap SocketAddr View) (a : SocketAddr) (va : View).
Context (HV : network V) (Hva : V !! a = Some va) (Hfree : free_node va).
Context (Hempty : get now (v_store va) (ident_bytes key) = None).
Context (fuel : nat) (srv : Server) (k : bytes) (Hkey : digest k = key).
Context (Hlistening : listening srv = true) (Hksize : 0 < srv_ksize srv).
Abbreviation E := (NetAt P handler (S n)).

(** The contacts that a GET asks in its first round. *)
Definition asked_first (p : P) : list Node :=
  let nearest := (RoutingTable.find_neighbors unix (router_of p) (Node_from_id key) None).1 in
  (SpiderCrawl.next_peers (SpiderCrawl.new (Node_from_id key) nearest (srv_ksize srv) (srv_alpha srv)) USIZE_MAX).1.

Lemma pause_still (w : World P E) : seen V [] a w → pause w = (w, tt).
Proof using.
  intros Hw. unfold pause. simpl. destruct w as [p e]. simpl.
  assert (∀ wait, settle handler wait (mkW p e) = mkW p e) as Es.
  { intros wait. unfold settle. simpl. by rewrite (s_flight _ _ _ _ _ _ _ _ Hw : net_flight e = []). }
  by rewrite !Es.
Qed.

Lemma neighbors_of_table (w : World P E) target :
  seen V [] a w →
  (find_neighbors target None w).2 = (RoutingTable.find_neighbors unix (router_of (proto w)) target None).1.
Proof using.
  intros Hw. unfold find_neighbors, mbind, M_bind. rewrite pause_still by done.
  assert (unix_time (env w) = unix) as Eu by apply Hw. unfold asks. rewrite Eu. unfold update.
  by destruct (RoutingTable.find_neighbors unix (router_of (proto w)) target None).
Qed.

Lemma verified_seen :
  triple (seen V [] a) (verified handler k value : M P E (option bytes)) (λ r w, r = Some value ∧ seen V [] a w).
Proof using Hset Hkey H8.
  unfold verified, verify_value. rewrite Hkey.
  eapply triple_bind; [by apply (tr_verify handler now unix who key value Hset n)|]. intros ok.
  apply triple_pure. intros ->. by intros w Hw.
Qed.

Lemma rpc_reply (w : World P E) p :
  seen V [] a w → peer who a p →
  seen V [] a (call_find_value w p (Node_from_id key)).1 ∧
  reply now who key value V a (λ x, x) p (call_find_value w p (Node_from_id key)).2.
Proof using Hset HV Hva Hfree H2.
  intros Hw Hp. by apply (rpc_find_value handler now unix who key value Hset n V a va HV Hva Hfree).
Qed.

Lemma get_found (w : World P E) b i v :
  seen V [] a w → who !! b = Some i → V !! b = Some v → holder now key value v →
  member b i ∈ asked_first (proto w) →
  ∃ w', server_get handler (S fuel) srv k w = Some (w', Some value) ∧ seen V [] a w'.
Proof using Hset HV Hva Hfree Hempty Hkey Hlistening Hksize H2 H8.
  intros Hw Hb Hv Hhold Hin. unfold server_get. rewrite Hkey.
  rewrite (bool_decide_eq_false_2 (k = STATUS_LIST_KEY)) by (intros ->; by apply (st_key _ _ _ _ Hset)).
  cbn zeta iota.
  assert (storage_get key w = (w, None)) as Eg.
  { destruct (seen_self _ _ _ _ _ _ _ _ Hw) as [HVp _]. rewrite Hva in HVp. apply (inj Some) in HVp.
    rewrite HVp in Hempty. unfold storage_get, mbind, M_bind, asks, gets. f_equal.
    assert (instant (env w) = now) as Ei by apply Hw. by rewrite Ei. }
  unfold mbind at 1, F_bind. unfold lift. rewrite Eg. rewrite Hlistening. cbn [negb].
  destruct (tr_find_neighbors handler now unix who value (S n) V [] a eq_refl (Node_from_id key) (st_id _ _ _ _ Hset) w Hw)
    as [(Hp & Hne & _) Hw1].
  pose proof (neighbors_of_table w (Node_from_id key) Hw) as En.
  unfold mbind, F_bind. destruct (find_neighbors (Node_from_id key) None w) as [w1 nearest]. cbn [fst snd] in *.
  rewrite (bool_decide_eq_false_2 (nearest = [])) by done. unfold first_valid, ValueSpiderCrawl.find_first_valid. rewrite Hkey.
  apply peers_Forall in Hp.
  destruct (search_found (W := World P E) (seen V [] a) (peer who a) (λ w ns Hw _, failing_none handler now unix who value n V a w ns Hw)
    call_find_value (λ w v, verified handler k v w) (Node_from_id key) (reply now who key value V a (λ x, x)) rpc_reply
    value (round_env (env w1)) fuel w1 (SpiderCrawl.new (Node_from_id key) nearest (srv_ksize srv) (srv_alpha srv)) (member b i))
    as (w2 & s2 & Hs & Hw2); try done.
  - intros p r (b' & i' & v' & _ & _ & _ & Hh & Hns & Hr). split; [done|]. split; [done|].
    destruct Hr as [[_ E]|[_ E]]; [by left|by right].
  - intros r (b' & i' & v' & Hb' & E & Hv' & _ & _ & Hr). injection E as Ei Eip Eport.
    assert (b' = b) as -> by (destruct b, b'; simpl in *; congruence). assert (v' = v) as -> by congruence.
    destruct Hr as [[_ E]|[Hno _]]; done.
  - intros w0 Hw0. destruct (verified_seen w0 Hw0). done.
  - by apply crawl_good_new.
  - by rewrite En.
  - exists w2. cbn [value_crawl ValueSpiderCrawl.base ValueSpiderCrawl.new]. by rewrite Hs.
Qed.

End reading.

(** ** The network at rest *)

Record at_rest (w : W) : Prop := {
  ar_instant : net_instant (env w) = now;
  ar_unix : net_unix (env w) = unix;
  ar_flight : net_flight (env w) = [];
  ar_members b i : who !! b = Some i → is_Some (net_nodes w !! b);
  ar_nodes b p : net_nodes w !! b = Some p → node_ok b p ∧ idle_node (view p)
}.

Lemma at_rest_seen w : at_rest w → seen (view <$> net_nodes w) [] (net_self (env w)) w.
Proof using. intros [? ? ? ? Hn]. split; try done. intros x p Hp. by apply Hn. Qed.

Lemma at_rest_network w :
  at_rest w → (∀ b p, net_nodes w !! b = Some p → agrees now key value (view p)) → network (view <$> net_nodes w).
Proof using.
  intros Hr Ha. split.
  - intros b i Hb. rewrite lookup_fmap. by apply fmap_is_Some, (ar_members _ Hr b i).
  - intros b v Hv. rewrite lookup_fmap in Hv. apply fmap_Some in Hv as (p & Hp & ->). apply (ar_nodes _ Hr b p Hp).
  - intros b v Hv. rewrite lookup_fmap in Hv. apply fmap_Some in Hv as (p & Hp & ->). by apply (Ha b).
Qed.

Lemma seen_at_rest V a w : seen V [] a w → network V → (∀ b v, V !! b = Some v → idle_node v) → at_rest w.
Proof using.
  intros [? ? ? HV Hn ?] Hnet Hidle. split; try done.
  - intros b i Hb. destruct (nw_members _ _ _ _ _ Hnet b i Hb) as [v Hv]. rewrite <-HV, lookup_fmap in Hv.
    by destruct (net_nodes w !! b).
  - intros b p Hp. split; [by apply Hn|]. apply (Hidle b). by rewrite <-HV, lookup_fmap, Hp.
Qed.

End cluster.

(** ** Publication and lookup *)

(** C5: on a network of nodes at rest, a SET of a valid record that nobody holds
    ends with [Complete]: every replica it counts is a member, and after the
    SET its store returns the record, by its own STORE check, while the store of
    every other node is as it was. The network is at rest again. *)
Theorem set_publishes {St C} `{Sha1, Sha256, BincodeLaws, Ipv6Syntax, HashOrder, IStorageLaws St, MokaCacheLaws C, Rounds}
    (handler : SignatureVerifierHandler) (now unix : Z) (who : gmap SocketAddr ident) (k value : bytes)
    (n fuel : nat) (srv : Server) (w : World (KademliaProtocol St C) (NetAt (KademliaProtocol St C) handler (2 + n)))
    (Hset : setting handler who (digest k) value) (Hrest : at_rest now unix who value w)
    (Hself : who !! net_self (env w) = Some (id (srv_node srv)))
    (Hnew : ∀ b p, net_nodes w !! b = Some p →
      get now (storage p) (ident_bytes (digest k)) = None ∧
      (insert_if_absent now (storage p) (ident_bytes (digest k)) value).2 ≠ CapacityExceeded)
    (Hlistening : listening srv = true) (Hksize : 1 < srv_ksize srv) (Hfuel : 2 * size who + 1 < fuel) :
  ∃ w' r replicas, set_detailed handler fuel srv k value w = Some (w', Complete r) ∧
    at_rest now unix who value w' ∧ NoDup replicas ∧ expected_replicas r = length replicas ∧ 0 < length replicas ∧
    (∀ b, b ∈ replicas → is_Some (who !! b)) ∧
    ∀ b p, net_nodes w !! b = Some p → ∃ p', net_nodes w' !! b = Some p' ∧
      (b ∈ replicas → get now (storage p') (ident_bytes (digest k)) = Some value) ∧
      (b ∉ replicas → storage p' = storage p).
Proof.
  set (V := view <$> net_nodes w). set (a := net_self (env w)).
  assert (∀ b v, V !! b = Some v → vacant now (digest k) value v) as Hvac.
  { intros b v Hv. unfold V in Hv. rewrite lookup_fmap in Hv. apply fmap_Some in Hv as (p & Hp & ->).
    destruct (Hnew b p Hp) as [He Hr]. split; [apply (ar_nodes _ _ _ _ _ Hrest b p Hp)|done|done]. }
  assert (network now who (digest k) value V) as HV.
  { apply (at_rest_network _ _ _ _ _ _ Hrest). intros b p Hp. left. by apply (Hnew b p). }
  assert (V !! a = Some (view (proto w))) as Hva.
  { unfold V, net_nodes. by rewrite lookup_fmap, lookup_insert_eq. }
  destruct (ends_set handler now unix who (digest k) value Hset n V a _ _ HV Hva Hself Hvac fuel srv Hlistening eq_refl Hksize Hfuel
    k eq_refl w (at_rest_seen _ _ _ _ _ Hrest)) as (w' & o & Hs & r & bs & (-> & Hnd & He & Hpos & Hall) & Hw').
  exists w', r, bs. split; [exact Hs|].
  assert (∀ b v', store_at now (digest k) value bs V !! b = Some v' → ∃ v, V !! b = Some v ∧
    (b ∈ bs ∧ v' = stored now (digest k) value v ∨ b ∉ bs ∧ v' = v)) as Hb.
  { intros b v'. rewrite store_at_lookup by done. case_decide as Hb; [|eauto].
    intros (v & Hv & ->)%fmap_Some. eauto 6. }
  split.
  { eapply (seen_at_rest _ _ _ (digest k)); [exact Hw'|split|].
    - intros b i Hbi. rewrite store_at_lookup by done. destruct (nw_members _ _ _ _ _ HV b i Hbi) as [v Hv].
      rewrite Hv. case_decide; by eexists.
    - intros b v' (v & Hv & [[_ ->]|[_ ->]])%Hb; [apply stored_idle, (Hvac b v Hv)|by apply (nw_open _ _ _ _ _ HV b)].
    - intros b v' (v & Hv & [[_ ->]|[_ ->]])%Hb; [by eapply stored_agrees, Hvac|by apply (nw_agrees _ _ _ _ _ HV b)].
    - intros b v' (v & Hv & [[_ ->]|[_ ->]])%Hb; [apply stored_idle|]; apply (Hvac b v Hv). }
  split; [done|]. split; [done|]. split; [done|]. split; [done|]. intros b p Hp.
  assert (V !! b = Some (view p)) as HVb by (unfold V; by rewrite lookup_fmap, Hp).
  pose proof (s_views _ _ _ _ _ _ _ _ Hw') as Hviews. apply (f_equal (.!! b)) in Hviews.
  rewrite lookup_fmap, store_at_lookup, HVb in Hviews by done.
  destruct (net_nodes w' !! b) as [p'|]; [|by case_decide]. exists p'. split; [done|]. split; intros Hin.
  - rewrite decide_True in Hviews by done. simpl in Hviews. apply (inj Some), (f_equal v_store) in Hviews.
    destruct (Hvac b _ HVb) as [_ Hempty Hroom].
    destruct (insertion_stored now (digest k) value (view p) Hempty Hroom) as [_ Hget]. by rewrite <-Hviews in Hget.
  - rewrite decide_False in Hviews by done. simpl in Hviews. by apply (inj Some), (f_equal v_store) in Hviews.
Qed.

(** C6: on a network of nodes at rest, where nobody holds another record for the
    key, a GET at a node without the record returns it, verified, if one of the
    contacts asked in the first round holds it. *)
Theorem get_finds {St C} `{Sha1, Sha256, BincodeLaws, Ipv6Syntax, HashOrder, IStorageLaws St, MokaCacheLaws C, Rounds}
    (handler : SignatureVerifierHandler) (now unix : Z) (who : gmap SocketAddr ident) (k value : bytes)
    (n fuel : nat) (srv : Server) (w : World (KademliaProtocol St C) (NetAt (KademliaProtocol St C) handler (1 + n)))
    (Hset : setting handler who (digest k) value) (Hrest : at_rest now unix who value w)
    (Hagrees : ∀ b p, net_nodes w !! b = Some p → agrees now (digest k) value (view p))
    (Hempty : get now (storage (proto w)) (ident_bytes (digest k)) = None)
    (b : SocketAddr) (i : ident) (p : KademliaProtocol St C)
    (Hb : who !! b = Some i) (Hp : net_nodes w !! b = Some p)
    (Hholds : get now (storage p) (ident_bytes (digest k)) = Some value)
    (Hasked : member b i ∈ asked_first unix (digest k) srv (proto w))
    (Hlistening : listening srv = true) (Hksize : 0 < srv_ksize srv) (Hfuel : 0 < fuel) :
  ∃ w', server_get handler fuel srv k w = Some (w', Some value) ∧ at_rest now unix who value w' ∧
    storage <$> net_nodes w' = storage <$> net_nodes w.
Proof.
  set (V := view <$> net_nodes w). pose proof (at_rest_network _ _ _ _ _ _ Hrest Hagrees) as HV.
  assert (V !! net_self (env w) = Some (view (proto w))) as Hva.
  { unfold V, net_nodes. by rewrite lookup_fmap, lookup_insert_eq. }
  assert (∀ b v, V !! b = Some v → idle_node v) as Hidle.
  { intros b' v Hv. unfold V in Hv. rewrite lookup_fmap in Hv. apply fmap_Some in Hv as (q & Hq & ->).
    apply (ar_nodes _ _ _ _ _ Hrest b' q Hq). }
  destruct fuel as [|fuel]; [lia|].
  destruct (get_found handler now unix who (digest k) value Hset n V _ _ HV Hva (in_free _ (Hidle _ _ Hva)) Hempty fuel srv k
    eq_refl Hlistening Hksize w b i (view p) (at_rest_seen _ _ _ _ _ Hrest) Hb) as (w' & Hs & Hw'); [|done|done|].
  - unfold V. by rewrite lookup_fmap, Hp.
  - exists w'. split; [exact Hs|]. split; [by eapply seen_at_rest|].
    pose proof (s_views _ _ _ _ _ _ _ _ Hw') as Hviews. unfold V in Hviews.
    assert (∀ m : gmap SocketAddr (KademliaProtocol St C), storage <$> m = v_store <$> (view <$> m)) as Em
      by (intros m; by rewrite <-map_fmap_compose).
    by rewrite !Em, Hviews.
Qed.

(** ** A network of three nodes *)

Module ClusterExample.
Import NodeExample.

#[local] Existing Instance Codec.bincode.
#[local] Instance digest32 : Sha256 := λ l, take 32 (l ++ replicate 32 x00).
#[local] Instance time : Rounds := 20.

Definition addr (port : Z) : SocketAddr := mkAddr "10.0.0.1" port.
Definition ids_of : list (SocketAddr * ident) :=
  [(addr 1, ident_ends x10 x01); (addr 2, ident_ends x20 x01); (addr 3, ident_ends x30 x01)].
Definition who : gmap SocketAddr ident := list_to_map ids_of.

(** A node with the contacts [ns] and the store [st]. *)
Definition node (i : ident) (ns : list Node) (st : ForgetfulStorage.t) : ExP :=
  foldl (λ p n, (add_to_table 0 n p).1) (Protocol.new 0 0 (Node_from_id i) st 4 2 (Some ∅)) ns.

Definition contact (port : Z) (b : byte) : Node := member (addr port) (ident_ends b x01).

(** A DID key, and a record of it. *)
Definition did : bytes := x24 :: replicate 35 x00.
Definition record : bytes := [x24; x07].
Definition no_records : ForgetfulStorage.t := ForgetfulStorage.new DEFAULT_TTL.
Definition one_record : ForgetfulStorage.t :=
  (insert_if_absent 0 no_records (ident_bytes (digest did)) record).1.

(** The first node knows the second, which knows the others; [st] is what the
    second node holds. *)
Definition nodes (st : ForgetfulStorage.t) : list (SocketAddr * ExP) :=
  [(addr 1, node (ident_ends x10 x01) [contact 2 x20] no_records);
   (addr 2, node (ident_ends x20 x01) [contact 1 x10; contact 3 x30] st);
   (addr 3, node (ident_ends x30 x01) [contact 2 x20] no_records)].

Definition at_first {n} (st : ForgetfulStorage.t) : World ExP (NetAt ExP ex_handler n) :=
  mkW (node (ident_ends x10 x01) [contact 2 x20] no_records)
    (mkNet (addr 1) 0 0 (list_to_map (nodes st)) []).

Definition server : Server := mkServer 4 2 (Node_from_id (ident_ends x10 x01)) true.

Lemma who_cases a i : who !! a = Some i → (a, i) ∈ ids_of.
Proof. apply elem_of_list_to_map_2. Qed.

Lemma ids_cases (Q : SocketAddr → ident → Prop) :
  Forall (λ x, Q x.1 x.2) ids_of → ∀ a i, who !! a = Some i → Q a i.
Proof. intros Hall a i Hi%who_cases. rewrite Forall_forall in Hall. by apply (Hall (a, i)). Qed.

Lemma who_ok : members_ok who.
Proof.
  split.
  - apply ids_cases. repeat constructor.
  - apply (ids_cases (λ a _, (0 ≤ addr_port a < 65536)%Z)). repeat constructor; simpl; lia.
  - apply (ids_cases (λ a _, String.length (addr_ip a) ≤ 60)). repeat constructor; simpl; lia.
  - intros a b i Ha%who_cases Hb%who_cases.
    unfold ids_of in *. rewrite !elem_of_cons, elem_of_nil in Ha, Hb. destruct_or!; by simplify_eq.
Qed.

Lemma setting_ok : setting ex_handler who (digest did) record.
Proof.
  split; try done; [apply who_ok|..].
  - intros x. unfold record_hash, sha256, digest32. rewrite length_take, length_app, length_replicate. unfold RECORD_HASH_LEN. lia.
  - intros x. revert x. assert (∀ x i, who !! x = Some i → i ≠ digest did) as Hne
      by (apply (ids_cases (λ _ i, i ≠ digest did)); repeat (constructor; [done|]); constructor).
    intros x Hx. by apply (Hne x _ Hx).
  - vm_compute. lia.
Qed.

(** Its nodes. *)
Definition bare (i : ident) (rt : RoutingTable.t) : Prop :=
  wf rt ∧ RoutingTable.node rt = Node_from_id i ∧ RoutingTable.ksize rt = 4 ∧ RoutingTable.health rt = ∅ ∧
  ∀ d, known_node (RoutingTable.buckets rt) d → is_member who d.

Lemma bare_add (i : ident) (c : Node) (p : ExP) : bare i (router_of p) → is_member who c → bare i (router_of (add_to_table 0 c p).1).
Proof.
  intros (Hwf & Hn & Hk & Hh & Hm) Hc. unfold add_to_table.
  destruct (RoutingTable.add_contact 0 (router_of p) c) as [[rt r]|] eqn:Ha; [|done].
  destruct (add_member 0 who (router_of p) c rt r Hwf Hh Hm Hc Ha) as ([Hwf' Hn' Hk' _ _ _ _] & Hh' & Hm').
  change (bare i rt). split; [done|]. split; [congruence|]. split; [congruence|]. done.
Qed.

Lemma node_is_bare (i : ident) (ns : list Node) st : Forall (is_member who) ns → bare i (router_of (node i ns st)).
Proof.
  intros Hns. unfold node.
  assert (∀ p : ExP, bare i (router_of p) → bare i (router_of (foldl (λ p n, (add_to_table 0 n p).1) p ns))) as Hfold.
  { induction Hns as [|c ns Hc _ IH]; [done|]. intros p Hp. simpl. by apply IH, bare_add. }
  apply Hfold. split; [apply table_wf_new|]. split; [done|]. split; [done|]. split; [done|].
  intros d (b & Hb & Hd). apply list_elem_of_singleton in Hb as ->. by apply not_elem_of_nil in Hd.
Qed.

Lemma node_frame (i : ident) (ns : list Node) st :
  let p := node i ns st in
  source_node p = Node_from_id i ∧ tasks p = Some [] ∧ Protocol.ksize p = 4 ∧ storage p = st ∧ sig_cache p = Some ∅ ∧
  transport p = transport (Protocol.new (C := Cache) 0 0 (Node_from_id i) st 4 2 (Some ∅)).
Proof.
  unfold node. assert (∀ p : ExP, let q := foldl (λ p n, (add_to_table 0 n p).1) p ns in
    source_node q = source_node p ∧ tasks q = tasks p ∧ Protocol.ksize q = Protocol.ksize p ∧ storage q = storage p ∧
    sig_cache q = sig_cache p ∧ transport q = transport p) as Hfold; [|apply Hfold].
  induction ns as [|c ns IH]; [done|]. intros p. simpl. destruct (IH (add_to_table 0 c p).1) as (-> & -> & -> & -> & -> & ->).
  unfold add_to_table. by destruct (RoutingTable.add_contact _ _ _) as [[]|].
Qed.

Lemma node_rests a (i : ident) (ns : list Node) st :
  who !! a = Some i → Forall (is_member who) ns → RoutingTable.primaries (router_of (node i ns st)) ≠ [] →
  node_ok 0 who record a (node i ns st) ∧ idle_node (view (node i ns st)).
Proof.
  intros Ha Hns Hp. destruct (node_is_bare i ns st Hns) as (Hwf & Hn & Hk & Hh & Hm).
  destruct (node_frame i ns st) as (Es & Et & Ek & _ & Ec & Etr). set (p := node i ns st) in *. clearbody p. split.
  - split; [by rewrite Es|by rewrite Et|rewrite Etr; simpl; lia| |rewrite Ek; lia|rewrite Ec; by intros c [= <-]].
    split; try done; [by rewrite Hn|rewrite Hk; lia].
  - unfold view, store_tasks. rewrite Et, Etr. done.
Qed.

Lemma contact_member a i : who !! a = Some i → is_member who (member a i).
Proof. by exists a, i. Qed.

Lemma nodes_at st b p : net_nodes (at_first (n := 0) st) !! b = Some p → (b, p) ∈ nodes st.
Proof.
  unfold net_nodes, at_first. cbn [env net_self proto net_others]. intros Hb. apply (elem_of_list_to_map_2 (M := gmap SocketAddr)).
  rewrite insert_id in Hb; [done|]. unfold nodes. by rewrite list_to_map_cons, lookup_insert_eq.
Qed.

Lemma has_contact (i : ident) (ns : list Node) st :
  0 < length (RoutingTable.primaries (router_of (node i ns st))) →
  RoutingTable.primaries (router_of (node i ns st)) ≠ [].
Proof. intros Hl E. rewrite E in Hl. simpl in Hl. lia. Qed.

Lemma nodes_rest st : Forall (λ x, node_ok 0 who record x.1 x.2 ∧ idle_node (view x.2)) (nodes st).
Proof.
  repeat (constructor;
    [cbn [fst snd]; apply node_rests;
     [vm_compute; reflexivity|repeat (constructor; [apply contact_member; vm_compute; reflexivity|]); constructor|
      apply has_contact; vm_compute; lia]|]).
  constructor.
Qed.

Lemma example_rests st : at_rest 0 0 who record (at_first (n := 0) st).
Proof.
  split; [done..| |].
  - intros b i Hb%who_cases. unfold net_nodes, at_first. cbn [env net_self proto net_others]. unfold ids_of in Hb.
    rewrite !elem_of_cons, elem_of_nil in Hb. unfold nodes. destruct_or!; simplify_eq; by eexists.
  - intros b p Hp%nodes_at. pose proof (nodes_rest st) as Hall. rewrite Forall_forall in Hall. by apply (Hall (b, p)).
Qed.

Lemma stores_at st b p :
  net_nodes (at_first (n := 0) st) !! b = Some p → storage p = no_records ∨ b = addr 2 ∧ storage p = st.
Proof.
  intros Hp%nodes_at.
  assert (Forall (λ x, storage x.2 = no_records ∨ x.1 = addr 2 ∧ storage x.2 = st) (nodes st)) as Hall.
  { repeat (constructor; [cbn [fst snd]; rewrite (proj1 (proj2 (proj2 (proj2 (node_frame _ _ _))))); auto|]). constructor. }
  rewrite Forall_forall in Hall. by apply (Hall (b, p)).
Qed.

(** The first node publishes the record. *)
Lemma set_publishes_witness :
  ∃ w' r replicas, set_detailed ex_handler 20 server did record (at_first (n := 2) no_records) = Some (w', Complete r) ∧
    at_rest 0 0 who record w' ∧ NoDup replicas ∧ expected_replicas r = length replicas ∧ 0 < length replicas ∧
    (∀ b, b ∈ replicas → is_Some (who !! b)) ∧
    ∀ b p, net_nodes (at_first (n := 2) no_records) !! b = Some p → ∃ p', net_nodes w' !! b = Some p' ∧
      (b ∈ replicas → get 0 (storage p') (ident_bytes (digest did)) = Some record) ∧
      (b ∉ replicas → storage p' = storage p).
Proof.
  apply (set_publishes ex_handler 0 0 who did record 0 20 server (at_first (n := 2) no_records)).
  - apply setting_ok.
  - apply example_rests.
  - vm_compute. reflexivity.
  - intros b p Hp. assert (storage p = no_records) as -> by (by destruct (stores_at no_records b p Hp) as [|[_ ?]]).
    split; [vm_compute; reflexivity|]. vm_compute. discriminate.
  - reflexivity.
  - simpl. lia.
  - vm_compute. lia.
Defined.

(** The second node holds the record, and the first one asks it. *)
Lemma get_finds_witness :
  ∃ w', server_get ex_handler 20 server did (at_first (n := 1) one_record) = Some (w', Some record) ∧
    at_rest 0 0 who record w' ∧ storage <$> net_nodes w' = storage <$> net_nodes (at_first (n := 1) one_record).
Proof.
  apply (get_finds ex_handler 0 0 who did record 0 20 server (at_first (n := 1) one_record)) with
    (b := addr 2) (i := ident_ends x20 x01) (p := node (ident_ends x20 x01) [contact 1 x10; contact 3 x30] one_record).
  - apply setting_ok.
  - apply example_rests.
  - intros b p Hp. unfold agrees, view. cbn [v_store].
    destruct (stores_at one_record b p Hp) as [-> |[_ ->]]; [left|right]; vm_compute; reflexivity.
  - vm_compute. reflexivity.
  - vm_compute. reflexivity.
  - unfold net_nodes, at_first. cbn [env net_self proto net_others]. unfold nodes.
    rewrite lookup_insert_ne, !list_to_map_cons, lookup_insert_ne, lookup_insert_eq by done. reflexivity.
  - vm_compute. reflexivity.
  - apply (bool_decide_unpack _). vm_compute. exact I.
  - reflexivity.
  - simpl. lia.
  - lia.
Defined.

(** With room for one replica, and the publisher the closest node to the key, no
    remote node is chosen. The publisher counts itself as cut off, though every
    node answered: the outcome is [Degraded], with an unavailable node. *)
Example single_replica_degraded :
  let srv := mkServer 1 2 (Node_from_id (ident_ends x10 x01)) true in
  snd <$> set_detailed ex_handler 20 srv did record (at_first (n := 2) no_records) =
    Some (Degraded (mkReport 2 1 0 0 1 0 0)).
Proof. vm_compute. reflexivity. Qed.

End ClusterExample.
