(* ===== verification/Hashes.v ===== *)
(** * SHA-1

    The sources call SHA-1 of a library; it is a parameter of the model ([Sha1]).
    Here it is as FIPS 180-4 defines it, for the tests, whose ids are digests. *)

From S2P Require Import Prelude Utils Fragmentation.

#[local] Open Scope Z_scope.

(** ** Words of 32 bits *)

Definition w32 (x : Z) : Z := x mod 2 ^ 32.
Definition rotl (n x : Z) : Z := Z.lor (w32 (Z.shiftl x n)) (Z.shiftr x (32 - n)).
Definition ch (x y z : Z) : Z := Z.lxor (Z.land x y) (Z.land (w32 (Z.lnot x)) z).
Definition maj (x y z : Z) : Z := Z.lxor (Z.land x y) (Z.lxor (Z.land x z) (Z.land y z)).
Definition parity (x y z : Z) : Z := Z.lxor x (Z.lxor y z).

(** The message, a one, zeroes, and the length in bits: blocks of 64 bytes. *)
Definition padded (m : bytes) : bytes :=
  let l := length m in
  m ++ [x80] ++ replicate ((119 - l mod 64) mod 64)%nat x00 ++ be_bytes 8 (8 * Z.of_nat l).

Fixpoint words (fuel : nat) (l : bytes) : list Z :=
  match fuel, l with
  | S fuel', _ :: _ => be_value (take 4 l) :: words fuel' (drop 4 l)
  | _, _ => []
  end.

Fixpoint blocks (fuel : nat) (l : list Z) : list (list Z) :=
  match fuel, l with
  | S fuel', _ :: _ => take 16 l :: blocks fuel' (drop 16 l)
  | _, _ => []
  end.

Definition message_blocks (m : bytes) : list (list Z) :=
  let p := padded m in blocks (length p) (words (length p) p).

Definition word_bytes (l : list Z) : bytes := mjoin (be_bytes 4 <$> l).

(** ** SHA-1 *)

Definition sha1_f (t : nat) (x y z : Z) : Z :=
  if (t <? 20)%nat then ch x y z else if (t <? 40)%nat then parity x y z
  else if (t <? 60)%nat then maj x y z else parity x y z.

Definition sha1_k (t : nat) : Z :=
  if (t <? 20)%nat then 0x5a827999 else if (t <? 40)%nat then 0x6ed9eba1
  else if (t <? 60)%nat then 0x8f1bbcdc else 0xca62c1d6.

(** The rounds from [t] on. [ws] is the schedule of the next sixteen of them. *)
Fixpoint sha1_rounds (n t : nat) (ws : list Z) (s : Z * Z * Z * Z * Z) : Z * Z * Z * Z * Z :=
  match n, ws with
  | S n', w :: ws' =>
      let '(a, b, c, d, e) := s in
      let next := rotl 1 (Z.lxor (Z.lxor (nth 13 ws 0) (nth 8 ws 0)) (Z.lxor (nth 2 ws 0) w)) in
      let temp := w32 (rotl 5 a + sha1_f t b c d + e + sha1_k t + w) in
      sha1_rounds n' (S t) (ws' ++ [next]) (temp, a, rotl 30 b, c, d)
  | _, _ => s
  end.

Definition sha1_block (h : Z * Z * Z * Z * Z) (block : list Z) : Z * Z * Z * Z * Z :=
  let '(a, b, c, d, e) := h in
  let '(a', b', c', d', e') := sha1_rounds 80 0 block h in
  (w32 (a + a'), w32 (b + b'), w32 (c + c'), w32 (d + d'), w32 (e + e')).

Definition sha1_bytes (m : bytes) : bytes :=
  let '(a, b, c, d, e) :=
    foldl sha1_block (0x67452301, 0xefcdab89, 0x98badcfe, 0x10325476, 0xc3d2e1f0) (message_blocks m) in
  word_bytes [a; b; c; d; e].

Lemma sha1_length m : length (sha1_bytes m) = ID_LEN.
Proof. unfold sha1_bytes. by destruct (foldl _ _ _) as [[[[a b] c] d] e]. Qed.

#[global] Instance fips_sha1 : Sha1 := λ m, sha1_bytes m ↾ sha1_length m.

(** ** The vectors of the standard *)

Definition hex (n : nat) (x : Z) : bytes := be_bytes n x.

Example sha1_abc :
  sha1_bytes (str_bytes "abc") = hex 20 0xa9993e364706816aba3e25717850c26c9cd0d89d.
Proof. vm_compute. reflexivity. Qed.

Example sha1_two_blocks :
  sha1_bytes (str_bytes "abcdbcdecdefdefgefghfghighijhijkijkljklmklmnlmnomnopnopq") =
  hex 20 0x84983e441c3bd26ebaae4aa1f95129e5e54670f1.
Proof. vm_compute. reflexivity. Qed.
