(* ===== verification/UnitTests.v ===== *)
(** * Unit tests of the data structures

    The unit tests of utils.rs, node.rs, routing.rs, storage.rs,
    fragmentation.rs, retransmit.rs, counters.rs, network/publish.rs,
    protocol/messages.rs, auth_handler.rs and crypto/signature_verifier.rs, run on
    the model: a test is a definition that is [true] when its assertions hold.
    SHA-1 is that of Hashes, a sleep is a later instant. *)

From S2P Require Import Prelude Utils Node Routing Storage Fragmentation Messages Retransmit.
From S2P Require Import Crypto AuthHandler Counters Publish Hashes.

(** [assert_eq!], [is_none] and [iter().any(|n| n.id == id)]. *)
Definition assert_eq {A} `{EqDecision A} (x y : A) : bool := bool_decide (x = y).
Definition is_none {A} (o : option A) : bool := match o with None => true | Some _ => false end.
Definition any_id (ns : list Node) (i : ident) : bool := existsb (λ n, bool_decide (id n = i)) ns.

(** [b"..."] and [format!("peer{}", i)]. *)
Definition b (s : string) : bytes := str_bytes s.
Definition digit (i : nat) : bytes := [byte_of_Z (48 + Z.of_nat i)].
Definition decimal (i : nat) : bytes := if i <? 10 then digit i else digit (i / 10) ++ digit (i mod 10).
Definition make_node (key : bytes) : Node := Node_from_id (digest key).

(** [[byte; ID_LEN]] with the byte at [i] replaced. *)
Definition id_with (i : nat) (x : byte) (l : bytes) : bytes := <[i := x]> l.
Definition zero_id : bytes := replicate ID_LEN x00.
Definition to_id (l : bytes) : ident := default (ident_repeat x00) (ident_of_bytes l).

(** ** utils.rs *)

Module UtilsTests.

Definition test_digest_is_20_bytes : bool := assert_eq (length (ident_bytes (digest (b "hello")))) ID_LEN.

End UtilsTests.

(** ** node.rs *)

Module NodeTests.
Import NodeHeap.

Definition heap_respects_maxsize : bool :=
  let pivot := make_node (b "pivot") in
  let heap := foldl (λ h i, push_one h (make_node (decimal i))) (new pivot 3) (seq 0 10) in
  length (entries heap) <=? 3.

Definition heap_no_duplicates : bool :=
  let pivot := make_node (b "pivot") in
  let node := make_node (b "a") in
  let heap := push_one (push_one (new pivot 10) node) node in
  assert_eq (length (entries heap)) 1.

Definition contacted_tracking : bool :=
  let pivot := make_node (b "pivot") in
  let node := make_node (b "peer") in
  let heap := push_one (new pivot 10) node in
  negb (have_contacted_all heap) && have_contacted_all (mark_contacted heap node).

Definition xor_metric_respects_full_160bit_order : bool :=
  let pivot := Node_from_id (to_id zero_id) in
  let a := Node_from_id (to_id (id_with 16 x80 zero_id)) in
  let c := Node_from_id (to_id (id_with 0 x01 zero_id)) in
  (distance_to pivot a <? distance_to pivot c)%Z.

Definition distinct_ids_keep_distinct_long_id : bool :=
  let c1 := id_with 16 x55 (id_with 0 xaa zero_id) in
  let c2 := id_with 0 (byte_of_Z (Z.lxor 0xAA 0x55)) zero_id in
  negb (assert_eq (long_id (Node_from_id (to_id c1))) (long_id (Node_from_id (to_id c2)))).

Definition all : list bool :=
  [heap_respects_maxsize; heap_no_duplicates; contacted_tracking; xor_metric_respects_full_160bit_order;
   distinct_ids_keep_distinct_long_id].

End NodeTests.

(** ** routing.rs *)

Module RoutingTests.
Import RoutingTable.

(** The tests run at second 0; a failure is at nanosecond 0 and waits for the
    backoff that the random [jit] gives. *)
Definition jit (delay : Z) : Z := (delay / 8)%Z.
Definition add (rt : t) (n : Node) : t := match add_contact 0 rt n with Some (rt', _) => rt' | None => rt end.
Definition record_failure (rt : t) (n : Node) : t := record_failure_at jit rt n 0.
Definition neighbors (rt : t) (target : Node) : list Node := (find_neighbors 0 rt target None).1.

Definition node_with_first_byte (first : byte) : Node := Node_from_id (to_id (id_with 0 first zero_id)).

Definition table_with_replacement : option (t * Node * Node) :=
  let rt := new 0 (Node_from_id (to_id zero_id)) 2 in
  let oldest := node_with_first_byte x80 in
  let other := node_with_first_byte x84 in
  let rt := add (add rt oldest) other in
  let waiting := node_with_first_byte x86 in
  match add_contact 0 rt waiting with
  | Some (rt', Some _) => Some (rt', oldest, waiting)
  | _ => None
  end.

Definition fail_until_stale (rt : t) (n : Node) : t :=
  (foldl (λ s _, (record_failure_at jit s.1 n s.2, s.2 + 10000 * SECOND)%Z) (rt, 0%Z)
    (seq 0 (Z.to_nat STALE_AFTER_FAILURES))).1.

Definition local : Node := make_node (b "local").
Definition peer : Node := make_node (b "peer").
Definition target : Node := make_node (b "target").

Definition one_failure_keeps_the_contact : bool :=
  let rt := record_failure (add (new 0 local 20) peer) peer in
  negb (is_new_node rt peer) && has_failures rt (id peer).

Definition failures_inside_the_backoff_window_count_once : bool :=
  let rt := foldl (λ rt _, record_failure rt peer) (add (new 0 local 20) peer) (seq 0 100) in
  assert_eq (failures <$> health rt !! id peer) (Some 1%Z) && negb (is_stale rt (id peer)).

Definition stale_contact_without_replacement_is_kept_and_not_advertised : bool :=
  let other := make_node (b "other") in
  let rt := fail_until_stale (add (add (new 0 local 20) peer) other) peer in
  let advertised := (find_neighbors_to_advertise 0 rt target None).1 in
  is_stale rt (id peer) && negb (is_new_node rt peer) && negb (any_id advertised (id peer)) &&
  any_id advertised (id other).

Definition stale_contact_with_replacement_is_replaced : bool :=
  match table_with_replacement with
  | None => false
  | Some (rt, oldest, waiting) =>
      let rt := fail_until_stale rt oldest in
      is_new_node rt oldest && negb (is_new_node rt waiting) && negb (has_failures rt (id oldest))
  end.

Definition response_clears_the_failures : bool :=
  let rt := record_failure (add (new 0 local 20) peer) peer in
  let '(rt1, first) := record_success rt (id peer) 0 in
  let '(_, second) := record_success rt1 (id peer) 0 in
  bool_decide (is_Some first) && negb (has_failures rt1 (id peer)) && assert_eq second None.

Definition na : Node := make_node (b "a").
Definition nb : Node := make_node (b "b").
Definition nc : Node := make_node (b "c").

Definition lookups_skip_failing_contacts_while_two_healthy_ones_remain : bool :=
  let rt := foldl add (new 0 local 20) [na; nb; nc] in
  let rt := record_failure rt na in
  let '(found, rt) := find_neighbors 0 rt target None in
  let first := assert_eq (length found) 2 && negb (any_id found (id na)) && assert_eq (live_contacts rt) 2 in
  let rt := record_failure rt nb in
  first && assert_eq (length (neighbors rt target)) 3 && assert_eq (live_contacts rt) 1.

Definition min_lookup_contacts_follows_the_configured_quorum : bool :=
  let rt := set_min_lookup_contacts (new 0 local 20) 3 in
  let rt := record_failure (foldl add rt [na; nb; nc]) na in
  assert_eq (length (neighbors rt target)) 3.

Definition stale_contacts_are_the_last_resort_for_lookups : bool :=
  let stale := make_node (b "stale") in
  let healthy := make_node (b "healthy") in
  let rt := fail_until_stale (add (add (new 0 local 20) stale) healthy) stale in
  let '(found, rt) := find_neighbors 0 rt target None in
  let rt' := remove_contact rt healthy in
  assert_eq (id <$> found) [id healthy] && assert_eq (id <$> neighbors rt' target) [id stale].

Definition add_and_find : bool :=
  let found := neighbors (add (new 0 local 3) peer) target in
  negb (bool_decide (found = [])) && any_id found (id peer).

Definition ignores_self : bool :=
  let found := neighbors (add (new 0 local 3) local) local in negb (any_id found (id local)).

Definition removes_contact : bool :=
  let rt := remove_contact (add (new 0 local 20) peer) peer in bool_decide (neighbors rt peer = []).

Definition replacement_node_promoted_on_eviction : bool :=
  let peer_a := make_node (b "peer_a") in
  let peer_b := make_node (b "peer_b") in
  let rt := remove_contact (add (add (new 0 local 1) peer_a) peer_b) peer_a in
  any_id (neighbors rt target) (id peer_b).

Definition numbered_peers (n : nat) : list Node := (λ i, make_node (b "peer" ++ decimal i)) <$> seq 0 n.

Definition bucket_splits_on_overflow : bool :=
  let rt := foldl add (new 0 local 2) (numbered_peers 20) in length (neighbors rt target) <=? 2.

Definition find_neighbors_excludes_target : bool :=
  let rt := foldl add (add (new 0 local 20) target) (numbered_peers 5) in
  negb (any_id (neighbors rt target) (id target)).

Definition touch_last_updated_prevents_lonely : bool :=
  bool_decide (length (lonely_buckets 0 (new 0 local 3)) = 0).

Definition add_node_does_not_reset_lonely_timer : bool :=
  let bucket := KBucket.new 0 full_keyspace 20 in
  let after := (KBucket.add_node bucket (make_node (b "x"))).1 in
  assert_eq (KBucket.last_updated bucket) (KBucket.last_updated after).

Definition touch_last_updated_resets_timer : bool :=
  let bucket := KBucket.new 0 full_keyspace 20 in
  (KBucket.last_updated bucket <? KBucket.last_updated (KBucket.touch_last_updated 1 bucket))%Z.

Definition find_neighbors_visits_all_buckets : bool :=
  let found := neighbors (foldl add (new 0 local 20) (numbered_peers 15)) target in
  negb (bool_decide (found = [])) && (length found <=? 20).

Definition all : list bool :=
  [one_failure_keeps_the_contact; failures_inside_the_backoff_window_count_once;
   stale_contact_without_replacement_is_kept_and_not_advertised; stale_contact_with_replacement_is_replaced;
   response_clears_the_failures; lookups_skip_failing_contacts_while_two_healthy_ones_remain;
   min_lookup_contacts_follows_the_configured_quorum; stale_contacts_are_the_last_resort_for_lookups;
   add_and_find; ignores_self; removes_contact; replacement_node_promoted_on_eviction; bucket_splits_on_overflow;
   find_neighbors_excludes_target; touch_last_updated_prevents_lonely; add_node_does_not_reset_lonely_timer;
   touch_last_updated_resets_timer; find_neighbors_visits_all_buckets].

End RoutingTests.

Lemma routing_tests_pass : forallb (λ x, x) (UtilsTests.test_digest_is_20_bytes :: NodeTests.all ++ RoutingTests.all) = true.
Proof. vm_compute. reflexivity. Qed.

(** ** storage.rs

    The test with threads is not here: [concurrent_accounting] is for all
    interleavings. *)

Module StorageTests.
Import ForgetfulStorage.

Definition ms (n : Z) : Z := from_millis n.

Definition set_and_get : bool :=
  let s := (set 0 (new (-1)) (b "key") (b "value")).1 in assert_eq (get 0 s (b "key")) (Some (b "value")).

Definition ttl_expiry : bool :=
  let s := (set 0 (new 1) (b "k") (b "v")).1 in assert_eq (get (ms 1100) s (b "k")) None.

Definition no_ttl_never_expires : bool :=
  let s := (set 0 (new (-1)) (b "k") (b "v")).1 in assert_eq (get (ms 10) s (b "k")) (Some (b "v")).

Definition iter_older_than_a_second : bool :=
  let s := (set 0 (new (-1)) (b "a") (b "1")).1 in
  let s := (set (ms 1100) s (b "b") (b "2")).1 in
  assert_eq (fst <$> iter_older_than (ms 1100) s 1) [b "a"].

Definition insert_if_absent_new_key : bool :=
  let '(s, status) := insert_if_absent 0 (new (-1)) (b "k") (b "v1") in
  assert_eq status Stored && assert_eq (get 0 s (b "k")) (Some (b "v1")).

Definition insert_if_absent_existing_key : bool :=
  let s := (set 0 (new (-1)) (b "k") (b "v1")).1 in
  let '(s, status) := insert_if_absent 0 s (b "k") (b "v2") in
  assert_eq status Conflict && assert_eq (get 0 s (b "k")) (Some (b "v1")).

Definition insert_if_absent_replaces_expired : bool :=
  let s := (set 0 (new 1) (b "k") (b "old")).1 in
  let '(s, status) := insert_if_absent (ms 1100) s (b "k") (b "new") in
  assert_eq status Stored && assert_eq (get (ms 1100) s (b "k")) (Some (b "new")).

Definition prune_expired_reclaims_memory : bool :=
  let s := (set 0 (new 1) (b "expired") (b "value")).1 in
  let '(s, pruned) := prune_expired (ms 1100) s in
  assert_eq pruned 1%Z && bool_decide (data s = ∅).

Definition default_storage_budget_is_512_mib : bool :=
  let s := new (-1) in
  assert_eq (max_storage_bytes s) (512 * 1024 * 1024)%Z && assert_eq (max_storage_bytes s) DEFAULT_MAX_STORAGE_BYTES.

Definition capacity_is_atomic_and_exact : bool :=
  let '(s, first) := insert_if_absent 0 (with_max_storage_bytes (-1) 8) (b "key") (b "value") in
  let '(s', second) := insert_if_absent 0 s (b "x") [] in
  assert_eq first Stored && assert_eq (current_storage_bytes s) 8%Z && assert_eq second CapacityExceeded &&
  assert_eq (current_storage_bytes s') 8%Z && assert_eq (get 0 s' (b "x")) None.

Definition identical_insert_is_idempotent_but_different_value_conflicts : bool :=
  let '(s1, first) := insert_if_absent 0 (with_max_storage_bytes (-1) 16) (b "k") (b "value") in
  let '(s2, second) := insert_if_absent 0 s1 (b "k") (b "value") in
  let '(s3, third) := insert_if_absent 0 s2 (b "k") (b "other") in
  assert_eq first Stored && assert_eq second AlreadyStored && assert_eq (current_storage_bytes s2) 6%Z &&
  assert_eq third Conflict && assert_eq (get 0 s3 (b "k")) (Some (b "value")) &&
  assert_eq (current_storage_bytes s3) 6%Z.

Definition rejected_growth_preserves_the_existing_value_and_accounting : bool :=
  let '(s1, first) := set 0 (with_max_storage_bytes (-1) 6) (b "k") (b "value") in
  let '(s2, second) := set 0 s1 (b "k") (b "larger") in
  assert_eq first Stored && assert_eq second CapacityExceeded &&
  assert_eq (get 0 s2 (b "k")) (Some (b "value")) && assert_eq (current_storage_bytes s2) 6%Z.

Definition prune_expired_releases_capacity : bool :=
  let '(s, first) := set 0 (with_max_storage_bytes 0 4) (b "k") (b "123") in
  let '(s, pruned) := prune_expired (ms 1) s in
  assert_eq first Stored && assert_eq pruned 1%Z && assert_eq (current_storage_bytes s) 0%Z.

Definition all : list bool :=
  [set_and_get; ttl_expiry; no_ttl_never_expires; iter_older_than_a_second; insert_if_absent_new_key;
   insert_if_absent_existing_key; insert_if_absent_replaces_expired; prune_expired_reclaims_memory;
   default_storage_budget_is_512_mib; capacity_is_atomic_and_exact;
   identical_insert_is_idempotent_but_different_value_conflicts;
   rejected_growth_preserves_the_existing_value_and_accounting; prune_expired_releases_capacity].

End StorageTests.

Lemma storage_tests_pass : forallb (λ x, x) StorageTests.all = true.
Proof. vm_compute. reflexivity. Qed.

(** ** fragmentation.rs *)

Module FragmentationTests.

(** [reassemble], with the state of its loop: the buffer, and whether it is
    complete. *)
Fixpoint reassemble_loop (datagrams : list bytes) (entry : option ReassemblyEntry.t) (complete : bool)
    : option bytes :=
  match datagrams with
  | [] => if negb complete then None else e ← entry; ReassemblyEntry.assemble e
  | dg :: rest =>
      '(header, chunk) ← parse_fragment dg;
      let e := default (ReassemblyEntry.new 0 (total header)) entry in
      if negb (ReassemblyEntry.total e =? total header)%Z then None
      else let '(e', done) := ReassemblyEntry.insert e (index header) chunk in reassemble_loop rest (Some e') done
  end.

Definition reassemble (datagrams : list bytes) : option bytes := reassemble_loop datagrams None false.

Definition dilithium2_sized_payload : bytes := (λ i, byte_of_Z (Z.of_nat i mod 251)) <$> seq 0 (Z.to_nat 6000).

Definition single_fragment_round_trip : bool :=
  let payload := b "small payload" in
  let dgs := encode_fragments 7 payload in
  assert_eq (length dgs) 1 && assert_eq (reassemble dgs) (Some payload).

Definition dilithium2_record_round_trip_byte_identical : bool :=
  let payload := dilithium2_sized_payload in
  let dgs := encode_fragments 42 payload in
  (1 <? length dgs) &&
  assert_eq (Z.of_nat (length dgs)) (div_ceil (Z.of_nat (length payload)) (Z.of_nat FRAG_CHUNK_SIZE)) &&
  assert_eq (reassemble dgs) (Some payload).

Definition reassembles_out_of_order : bool :=
  let payload := dilithium2_sized_payload in
  assert_eq (reassemble (rev (encode_fragments 1 payload))) (Some payload).

Definition duplicate_fragments_are_tolerated : bool :=
  let payload := dilithium2_sized_payload in
  let dgs := encode_fragments 9 payload in
  assert_eq (reassemble (take 1 dgs ++ dgs)) (Some payload).

Definition inconsistent_total_fails_clean : bool :=
  let payload := dilithium2_sized_payload in
  let dg_a := encode_fragments 5 payload in
  let dg_b := encode_fragments 5 (take (Z.to_nat 1000) payload) in
  assert_eq (reassemble (take 1 dg_a ++ take 1 dg_b)) None.

Definition entry_rejects_out_of_bounds_index : bool :=
  let '(e, complete) := ReassemblyEntry.insert (ReassemblyEntry.new 0 3) 5 (replicate 10 x00) in
  negb complete && assert_eq (ReassemblyEntry.received e) 0%Z.

Definition parse_rejects_bad_magic : bool :=
  is_none (parse_fragment ([xde; xad; xbe; xef] ++ replicate 8 x00)).

Definition parse_rejects_truncated_header : bool := is_none (parse_fragment [x4b; x41; x44]).

Definition parse_rejects_index_ge_total : bool :=
  let dg := be_bytes 4 FRAG_MAGIC ++ be_bytes 4 0 ++ be_bytes 2 2 ++ be_bytes 2 2 in
  is_none (parse_fragment dg).

Definition parse_enforces_chunk_size_for_single_and_multi_fragment_messages : bool :=
  match encode_fragments 11 (replicate FRAG_CHUNK_SIZE x00), encode_fragments 12 (replicate (FRAG_CHUNK_SIZE + 1) x00) with
  | single :: _, multi :: _ =>
      negb (is_none (parse_fragment single)) && is_none (parse_fragment (single ++ [x00])) &&
      negb (is_none (parse_fragment multi)) && is_none (parse_fragment (multi ++ [x00]))
  | _, _ => false
  end.

Definition all : list bool :=
  [single_fragment_round_trip; dilithium2_record_round_trip_byte_identical; reassembles_out_of_order;
   duplicate_fragments_are_tolerated; inconsistent_total_fails_clean; entry_rejects_out_of_bounds_index;
   parse_rejects_bad_magic; parse_rejects_truncated_header; parse_rejects_index_ge_total;
   parse_enforces_chunk_size_for_single_and_multi_fragment_messages].

End FragmentationTests.

Lemma fragmentation_tests_pass : forallb (λ x, x) FragmentationTests.all = true.
Proof. vm_compute. reflexivity. Qed.

(** ** retransmit.rs *)

Module RetransmitTests.
Import RoundTrips.

Definition peer (port : Z) : SocketAddr := mkAddr "127.0.0.1" port.
Definition ms (value : Z) : Z := from_millis value.

Definition a_peer_never_measured_gets_the_initial_wait : bool :=
  assert_eq (resend_after default_ (peer 1)) INITIAL_RESEND_AFTER.

Definition the_wait_is_three_round_trips : bool :=
  let r := record 0 default_ (peer 1) (ms 15) in
  assert_eq (resend_after r (peer 1)) (ms 45) && assert_eq (resend_after r (peer 2)) INITIAL_RESEND_AFTER.

Definition the_wait_stays_within_its_bounds : bool :=
  let r := record 0 (record 0 default_ (peer 1) 100000) (peer 2) (ms 800) in
  assert_eq (resend_after r (peer 1)) MIN_RESEND_AFTER && assert_eq (resend_after r (peer 2)) MAX_RESEND_AFTER.

Definition one_fast_answer_does_not_erase_a_slow_history : bool :=
  let r := record 0 (record 0 default_ (peer 1) (ms 100)) (peer 1) (ms 10) in
  (ms 266 <=? resend_after r (peer 1))%Z.

Definition round_trips_that_vary_widen_the_wait : bool :=
  let steady := foldl (λ r _, record 0 r (peer 1) (ms 30)) default_ (seq 0 20) in
  let varying := foldl (λ r _, record 0 (record 0 r (peer 1) (ms 10)) (peer 1) (ms 50)) default_ (seq 0 20) in
  (resend_after steady (peer 1) <? resend_after varying (peer 1))%Z.

Definition the_table_stays_bounded : bool :=
  let r := foldl (λ r i, record 0 r (peer (Z.of_nat i)) (ms 15)) (with_capacity 4) (seq 1 10) in
  let r' := record 0 r (peer 1) (ms 100) in
  assert_eq (size (peers r)) 4 && (ms 45 <? resend_after r' (peer 1))%Z.

Definition all : list bool :=
  [a_peer_never_measured_gets_the_initial_wait; the_wait_is_three_round_trips; the_wait_stays_within_its_bounds;
   one_fast_answer_does_not_erase_a_slow_history; round_trips_that_vary_widen_the_wait; the_table_stays_bounded].

End RetransmitTests.

(** ** counters.rs *)

Module CounterTests.

Definition every_message_type_has_a_counter : bool :=
  let counters := foldl (λ c name, inner_sent name 10 c) default_inner MESSAGE_TYPES in
  let sent := sent (snapshot counters) in
  assert_eq (size sent) (length MESSAGE_TYPES) &&
  forallb (λ e, assert_eq (sent_datagrams e.2) 1%Z && assert_eq (sent_bytes e.2) 10%Z) (map_to_list sent).

Definition a_check_is_counted_by_outcome_rounds_and_duration : bool :=
  let c := inner_check EndUnbound 0 0 default_inner in
  let c := inner_check EndNoneOrSame 1 (from_millis 40) c in
  let c := inner_check EndNoAnswer 7 (from_millis 2001) c in
  let k := checks (snapshot c) in
  assert_eq (unbound k, none_or_same k, no_answer k) (1, 1, 1)%Z &&
  assert_eq (rounds k) [1; 0; 0; 0; 1]%Z && assert_eq (duration_ms k) [0; 0; 1; 0; 0; 0; 0; 0; 1]%Z &&
  assert_eq (duration_total_us k) 2041000%Z.

Definition all : list bool :=
  [every_message_type_has_a_counter; a_check_is_counted_by_outcome_rounds_and_duration].

End CounterTests.

(** ** protocol/messages.rs *)

Module MessageTests.

(** One message of each variant, with the fields that zero bytes decode to. *)
Definition one_message_of_each_type : list RpcMessage :=
  let i := ident_repeat x00 in
  [Ping i; Pong i; Messages.Store i i []; StoreResult SStored; Update i i [] []; UpdateResult false;
   UpdateStatusList i i []; UpdateStatusListResult false; FindNode i i; FindNodeResult [];
   FindValue i i; FindValueHit []; FindValueNodes []; Leave i; FindHash i i; FindHashHit []; Received].

Definition every_message_type_is_counted : bool :=
  let names := rpc_message_name <$> one_message_of_each_type in
  bool_decide (names ≡ₚ MESSAGE_TYPES).

Definition all : list bool := [every_message_type_is_counted].

End MessageTests.

(** ** network/publish.rs *)

Module PublishTests.

Definition node_with_last_byte (last : byte) : Node := Node_from_id (to_id (id_with (ID_LEN - 1) last zero_id)).

Definition responsible_replica_selection_is_xor_sorted_and_never_exceeds_k : bool :=
  let target := Node_from_id (ident_repeat x00) in
  let remotes := [node_with_last_byte x03; node_with_last_byte x01; node_with_last_byte x02] in
  let '(local1, selected1) := select_responsible_nodes (Node_from_id (ident_repeat xff)) target remotes 2 in
  let local := node_with_last_byte x01 in
  let remotes := [node_with_last_byte x04; node_with_last_byte x02; node_with_last_byte x03] in
  let '(local2, selected2) := select_responsible_nodes local target remotes 3 in
  negb local1 && assert_eq (id <$> selected1) (id <$> [node_with_last_byte x01; node_with_last_byte x02]) &&
  local2 && assert_eq (length selected2 + (if local2 then 1 else 0)) 3 &&
  assert_eq (id <$> selected2) (id <$> [node_with_last_byte x02; node_with_last_byte x03]).

Definition set_report_classification_is_explicit : bool :=
  match classify_set_report (mkReport 2 1 1 0 0 0 0) with Complete _ => true | _ => false end &&
  match classify_set_report (mkReport 2 1 0 1 0 0 0) with Degraded _ => true | _ => false end &&
  match classify_set_report (mkReport 2 0 0 2 0 0 0) with Rejected RCapacityExceeded _ => true | _ => false end &&
  match classify_set_report (mkReport 2 1 0 0 0 1 0) with Rejected ReplicaConflict _ => true | _ => false end.

Definition all : list bool :=
  [responsible_replica_selection_is_xor_sorted_and_never_exceeds_k; set_report_classification_is_explicit].

End PublishTests.

(** ** auth_handler.rs and crypto/signature_verifier.rs *)

Module RecordTests.

Definition is_err {E A} (r : Result E A) : bool := match r with Err _ => true | Ok _ => false end.
Definition is_ok_with {E A} `{EqDecision A} (r : Result E A) (a : A) : bool :=
  match r with Ok x => assert_eq x a | Err _ => false end.

Definition algorithm_header_requires_null_only_right_padding : bool :=
  let canonical := b "RSA" ++ replicate 9 x00 in
  let embedded_data := <[4 := x58]> canonical in
  is_ok_with (get_alg_string canonical) (b "RSA") &&
  match get_alg_string embedded_data with Err EInvalidFormat => true | _ => false end.

Definition resolve_rsa : bool := is_ok_with (resolve_alg_and_length (b "RSA")) (b "RSA", 256).
Definition resolve_ed25519 : bool := is_ok_with (resolve_alg_and_length (b "Ed25519")) (b "Ed25519", 64).

Definition resolve_dilithium_levels : bool :=
  is_ok_with (resolve_alg_and_length (b "Dilithium-2")) (b "Dilithium", 2420) &&
  is_ok_with (resolve_alg_and_length (b "Dilithium-3")) (b "Dilithium", 3293) &&
  is_ok_with (resolve_alg_and_length (b "Dilithium-5")) (b "Dilithium", 4595).

Definition resolve_dilithium_no_level_errors : bool := is_err (resolve_alg_and_length (b "Dilithium")).
Definition resolve_unknown_errors : bool := is_err (resolve_alg_and_length (b "ECDSA")).

Definition resolve_noncanonical_aliases_errors : bool :=
  forallb (λ alias, is_err (resolve_alg_and_length alias))
    [b "RSA "; b " RSA"; b "Ed25519" ++ [x0a]; b "Dilithium-02"; b "Dilithium-2" ++ [x00]].

Definition pubkey_level_inference : bool :=
  assert_eq (dilithium_level_from_pubkey_len 1312) (Some 2) && assert_eq (dilithium_level_from_pubkey_len 1952) (Some 3) &&
  assert_eq (dilithium_level_from_pubkey_len 2592) (Some 5) && assert_eq (dilithium_level_from_pubkey_len 999) None.

Definition all : list bool :=
  [algorithm_header_requires_null_only_right_padding; resolve_rsa; resolve_ed25519; resolve_dilithium_levels;
   resolve_dilithium_no_level_errors; resolve_unknown_errors; resolve_noncanonical_aliases_errors;
   pubkey_level_inference].

End RecordTests.

Lemma other_tests_pass :
  forallb (λ x, x) (RetransmitTests.all ++ CounterTests.all ++ MessageTests.all ++ PublishTests.all ++ RecordTests.all) = true.
Proof. vm_compute. reflexivity. Qed.
