(* ===== verification/LookupTests.v ===== *)
(** * Unit tests of the lookups (src/src/crawling.rs)

    The tests with scripted protocols, run on the model. The two tests of
    requests that wait for the lock of the routing table are not here: an await
    of the model always ends. *)

From S2P Require Import Prelude Utils Node Crawling NodeExample UnitTests.

(** What the scripted protocols record: the peers asked, in order. *)
Abbreviation Contacted := (list ident).

(** [ScriptedProtocol]: peers answer FIND_NODE with a fixed list; peers in
    [dead] never answer. *)
Record ScriptedProtocol := mkScripted {
  reports : gmap ident (list Node);
  dead : gset ident;
  known_failing : gset ident
}.

Definition tuple_of (n : Node) : bytes * option string * option Z := (ident_bytes (id n), ip n, port n).

Definition scripted (p : ScriptedProtocol) : SpiderProtocol Contacted := {|
  call_find_node w peer _ :=
    let w := w ++ [id peer] in
    if bool_decide (id peer ∈ dead p) then (w, mkRaw false PEmpty)
    else (w, mkRaw true (PNodes (tuple_of <$> default [] (reports p !! id peer))));
  call_find_value w _ _ := (w, mkRaw true PEmpty);
  call_store w _ _ _ := (w, false);
  failing_among _ ns := list_to_set (filter (λ i, i ∈ known_failing p) (id <$> ns));
  note_no_answer w _ := w
|}.

(** [RecordingProtocol]. *)
#[local] Instance recording : SpiderProtocol Contacted := {|
  call_find_node w peer _ := (w ++ [id peer], mkRaw true PEmpty);
  call_find_value w peer _ := (w ++ [id peer], mkRaw true PEmpty);
  call_store w _ _ _ := (w, false);
  failing_among _ _ := ∅;
  note_no_answer w _ := w
|}.

(** [HashMap]s iterate in the order of insertion here. *)
#[local] Existing Instance NodeExample.ex_order.

Module CrawlingTests.

Definition contact (marker : byte) : Node := Node_new (ident_repeat marker) (Some "127.0.0.1"%string) (Some 7000%Z).
Definition target : Node := Node_from_id (ident_repeat x00).

(** [NodeSpiderCrawl::find_lookup_nodes] on a scripted protocol. *)
Definition lookup (p : ScriptedProtocol) (peers : list Node) (alpha : nat) : option (Contacted * LookupNodes) :=
  @NodeSpiderCrawl.find_lookup_nodes _ (scripted p) _ 20 [] (SpiderCrawl.new target peers 20 alpha).

Definition peer_reported_after_failing_stays_out_of_the_lookup : bool :=
  let dead := contact x01 in
  let alive := contact x02 in
  let protocol := mkScripted {[id alive := [dead]]} {[id dead]} ∅ in
  match lookup protocol [dead; alive] 1 with
  | None => false
  | Some (contacted, found) =>
      assert_eq (id <$> nodes found) [id alive] && assert_eq (unresponsive found) 1 &&
      assert_eq (length (filter (λ i, i = id dead) contacted)) 1
  end.

Definition reported_peer_known_to_be_failing_is_not_queried : bool :=
  let failing := contact x01 in
  let alive := contact x02 in
  let protocol := mkScripted {[id alive := [failing]]} ∅ {[id failing]} in
  match lookup protocol [alive] 3 with
  | None => false
  | Some (contacted, found) =>
      assert_eq (length (nodes found)) 1 && assert_eq (unresponsive found) 1 && assert_eq contacted [id alive]
  end.

Definition known_failing_peer_is_still_queried_as_a_last_resort : bool :=
  let failing := contact x01 in
  let protocol := mkScripted ∅ ∅ {[id failing]} in
  match lookup protocol [failing] 3 with
  | None => false
  | Some (contacted, found) => assert_eq contacted [id failing] && assert_eq (length (nodes found)) 1
  end.

Definition two_of_three_selects_the_majority : bool :=
  assert_eq (strict_quorum_value [b "v1"; b "v2"; b "v2"] 2) (Some (b "v2")).

Definition three_distinct_values_have_no_quorum : bool :=
  assert_eq (strict_quorum_value [b "v1"; b "v2"; b "v3"] 2) None.

Definition one_response_cannot_satisfy_two_vote_quorum : bool := assert_eq (strict_quorum_value [b "v1"] 2) None.

Definition tied_groups_are_not_selected : bool :=
  assert_eq (strict_quorum_value [b "v1"; b "v1"; b "v2"; b "v2"] 2) None.

Definition converged_standard_crawl_contacts_all_remaining_peers : bool :=
  let peers := (λ marker, Node_from_id (ident_repeat marker)) <$> [x01; x02; x03; x04; x05] in
  let crawl := SpiderCrawl.new target peers 20 2 in
  let '(contacted1, crawl, _) := SpiderCrawl.find_round [] crawl call_find_node in
  let '(contacted2, _, _) := SpiderCrawl.find_round contacted1 crawl call_find_node in
  assert_eq (length contacted1) 2 && assert_eq (length contacted2) 5.

Definition all : list bool :=
  [peer_reported_after_failing_stays_out_of_the_lookup; reported_peer_known_to_be_failing_is_not_queried;
   known_failing_peer_is_still_queried_as_a_last_resort; two_of_three_selects_the_majority;
   three_distinct_values_have_no_quorum; one_response_cannot_satisfy_two_vote_quorum; tied_groups_are_not_selected;
   converged_standard_crawl_contacts_all_remaining_peers].

End CrawlingTests.

Lemma lookup_tests_pass : forallb (λ x, x) CrawlingTests.all = true.
Proof. vm_compute. reflexivity. Qed.
