(* ===== verification/ProtocolTests.v ===== *)
(** * Unit tests of the protocol

    The unit tests of contacts.rs, handlers.rs, transport.rs, store_check.rs and
    welcome.rs under src/src/protocol/, run on the model with a laboratory in the
    place of loopback sockets (test_support.rs): the node under test sends
    datagrams to scripted peers, whose answers reach it through
    [handle_datagram] while it waits, and the clock moves at each await.

    How often the verification handler is called is not observed (it is a
    function), nor what is sent at the same time (requests of a round are sent
    one after the other); tests about that, and tests that cancel a call, are
    not here. *)

From S2P Require Import Prelude Utils Node Routing Storage Fragmentation Messages Retransmit.
From S2P Require Import Crypto AuthHandler Crawling Effects Protocol Transport Client Handlers.
From S2P Require Import NodeExample Hashes Wire UnitTests.

#[local] Existing Instance Codec.bincode.
#[local] Existing Instance NodeExample.ex_ipv6.
#[local] Existing Instance NodeExample.ex_order.
#[local] Existing Instance NodeExample.ex_cache.

(** A hash of the size of SHA-256, which tells the records of the tests apart. *)
#[local] Instance short_hash : Sha256 := λ l,
  take 16 (l ++ replicate 16 x00) ++ take 16 (reverse l ++ replicate 16 x00).

(** ** The laboratory *)

Abbreviation P := (KademliaProtocol ForgetfulStorage.t (gmap bytes bool)).

(** What the peer at an address answers to the request it gets after [n]
    others. *)
Abbreviation Script := (SocketAddr → nat → Frame → list RpcMessage).

(** The clock, the datagrams the node sent, how many of them have arrived, the
    peers, and the requests that reach the node at some instant. *)
Record Lab := mkLab {
  lab_clock : Z;
  lab_mail : list (SocketAddr * bytes);
  lab_arrived : nat;
  lab_script : Script;
  lab_requests : list (Z * SocketAddr * Frame)
}.

Definition lab_sends (e : Lab) (a : SocketAddr) (d : bytes) : Lab :=
  mkLab (lab_clock e) (lab_mail e ++ [(a, d)]) (lab_arrived e) (lab_script e) (lab_requests e).

(** A frame, as [send_raw] sends it and as [try_read_frame] reads it. *)
Definition datagrams_of (f : Frame) : list bytes :=
  match serialize f with Some bs => encode_fragments (msg_id f) bs | None => [] end.

Definition frame_of (d : bytes) : option Frame :=
  '(h, chunk) ← parse_fragment d; if (total h =? 1)%Z then deserialize chunk else None.

(** The node with nothing else running. *)
Definition alone : Environment Lab P := {|
  instant := lab_clock;
  unix_time e := (lab_clock e `div` 1000000000)%Z;
  jitter _ _ := 0%Z;
  random_id e := (e, ident_repeat x00);
  others e p := (e, p);
  send_to e a d := (lab_sends e a d, true);
  wakeups _ := []
|}.

(** Lookups of the STORE check have time for eight rounds. *)
#[local] Program Instance lab_schedule : LookupSchedule Lab := {|
  round_env _ _ := ValueSpiderCrawl.mkEnv false (λ l, l) None false;
  rounds_in_time _ := 8
|}.
Next Obligation. done. Qed.

Section lab.
Context (handler : SignatureVerifierHandler).

Definition receive (from : SocketAddr) (f : Frame) (w : World P Lab) : World P Lab :=
  foldl (λ w d, (@handle_datagram _ _ _ _ _ _ _ _ _ _ handler alone _ d from w).1) w (datagrams_of f).

(** The requests among the datagrams sent to [a]. *)
Definition requests_to (a : SocketAddr) (mail : list (SocketAddr * bytes)) : list Frame :=
  omap (λ m, if bool_decide (m.1 = a) then f ← frame_of m.2; if is_request f then Some f else None else None) mail.

(** A datagram arrives at its peer, which answers. *)
Definition deliver_to_peer (w : World P Lab) (i : nat) : World P Lab :=
  match lab_mail (env w) !! i with
  | None => w
  | Some (a, d) =>
      match frame_of d with
      | Some f =>
          if is_request f then
            let before := length (requests_to a (take i (lab_mail (env w)))) in
            foldl (λ w m, receive a (mkFrame (msg_id f) false m) w) w (lab_script (env w) a before f)
          else w
      | None => w
      end
  end.

(** An await takes five milliseconds: what was sent arrives and is answered,
    and the requests of that time reach the node. *)
Definition lab_others (e : Lab) (p : P) : Lab * P :=
  let n := length (lab_mail e) in
  let clock := (lab_clock e + from_millis 5)%Z in
  let due := filter (λ r, (r.1.1 ≤ clock)%Z) (lab_requests e) in
  let later := filter (λ r, ¬ (r.1.1 ≤ clock)%Z) (lab_requests e) in
  let w := mkW p (mkLab clock (lab_mail e) n (lab_script e) later) in
  let w := foldl deliver_to_peer w (seq (lab_arrived e) (n - lab_arrived e)) in
  let w := foldl (λ w r, receive r.1.2 r.2 w) w due in
  (env w, proto w).

(** A call looks at its answer, at its receipt and at its timer in turn. *)
#[local] Instance lab : Environment Lab P := {|
  instant := lab_clock;
  unix_time e := (lab_clock e `div` 1000000000)%Z;
  jitter _ _ := 0%Z;
  random_id e := (e, ident_repeat x00);
  others := lab_others;
  send_to e a d := (lab_sends e a d, true);
  wakeups _ := mjoin (replicate 180 [OnAnswer; OnReceipt; OnTimer])
|}.

(** A method of the node, run in the laboratory. *)
Definition run {A} (m : M P Lab A) (w : World P Lab) : World P Lab * A := m w.

End lab.

(** [TestHandler], without its counters. *)
Definition TestHandler (key_binding self_signed issuer_signed : bool) : SignatureVerifierHandler := {|
  handle_key_binding_verification _ _ := Ok key_binding;
  handle_signature_verification _ := Ok self_signed;
  handle_update_verification _ _ _ := Ok true;
  handle_issuer_node_signature_verification _ := Ok issuer_signed
|}.

Definition trusting : SignatureVerifierHandler := TestHandler true true true.

(** [test_protocol_with_storage] and [test_protocol]. *)
Definition test_protocol_with_storage (use_cache : bool) (st : ForgetfulStorage.t) : P :=
  Protocol.new 0 0 (Node_from_id (ident_repeat x01)) st 20 3 (if use_cache then Some ∅ else None).

Definition test_protocol (use_cache : bool) : P :=
  test_protocol_with_storage use_cache (ForgetfulStorage.new (-1)).

Definition silence : Script := λ _ _ _, [].

Definition in_lab (script : Script) (p : P) : World P Lab := mkW p (mkLab 0 [] 0 script []).

(** [contact_at], and the address of the raw peer at a port. *)
Definition contact_at (i : ident) (port : Z) : Node := Node_new i (Some "127.0.0.1"%string) (Some port).
Definition local_addr (port : Z) : SocketAddr := mkAddr "127.0.0.1" port.
Definition host (port : Z) : string * Z := ("127.0.0.1"%string, port).

(** [[byte; ID_LEN]]. *)
Definition ids (x : byte) : ident := ident_repeat x.

(** [protocol.router.write().await.add_contact(contact)]. *)
Definition knows (p : P) (c : Node) : P := (add_to_table 0 c p).1.

Definition held (w : World P Lab) (key : ident) : option bytes := get (lab_clock (env w)) (storage (proto w)) (ident_bytes key).

(** ** contacts.rs *)

Module ContactsTests.

Definition jit (delay : Z) : Z := 0%Z.

Definition forged_endpoint_cannot_clear_a_failing_contact : bool :=
  let registered := contact_at (ids x09) 7000 in
  let p := knows (test_protocol false) registered in
  let p := set_router (RoutingTable.record_failure_at jit (router_of p) registered 0) p in
  let forged := contact_at (ids x09) 7001 in
  let '(w1, first) := run (note_alive (H := lab trusting) forged) (in_lab silence p) in
  let '(w2, second) := run (note_alive (H := lab trusting) registered) w1 in
  assert_eq first None && RoutingTable.has_failures (router_of (proto w1)) (id registered) &&
  negb (is_none second) && negb (RoutingTable.has_failures (router_of (proto w2)) (id registered)).

Definition stale_contact_accepts_a_new_endpoint : bool :=
  let registered := contact_at (ids x09) 7000 in
  let p := knows (test_protocol false) registered in
  let rt := (foldl (λ s _, (RoutingTable.record_failure_at jit s.1 registered s.2, s.2 + from_secs 10000)%Z)
    (router_of p, 0%Z) (seq 0 (Z.to_nat STALE_AFTER_FAILURES))).1 in
  let moved := contact_at (ids x09) 7001 in
  let '(w, r) := run (note_alive (H := lab trusting) moved) (in_lab silence (set_router rt p)) in
  RoutingTable.is_stale rt (id registered) && negb (is_none r) &&
  negb (RoutingTable.has_failures (router_of (proto w)) (id registered)).

Definition all : list bool :=
  [forged_endpoint_cannot_clear_a_failing_contact; stale_contact_accepts_a_new_endpoint].

End ContactsTests.

Lemma contacts_tests_pass : forallb (λ x, x) ContactsTests.all = true.
Proof. vm_compute. reflexivity. Qed.

(** ** Methods of a node in the laboratory *)

Section methods.
Context (handler : SignatureVerifierHandler).
#[local] Instance here : Environment Lab P := lab handler.

Definition lab_update (sender : ident) (addr : string * Z) (key : ident) (value sig : bytes) : M P Lab bool :=
  rpc_update handler sender addr key value sig.
Definition lab_update_status_list (sender : ident) (addr : string * Z) (key : ident) (value : bytes) : M P Lab bool :=
  rpc_update_status_list handler sender addr key value.
Definition lab_find_value (sender : ident) (addr : string * Z) (key : ident) : M P Lab FindValueResult :=
  rpc_find_value handler sender addr key.
Definition lab_leave (sender : ident) (addr : string * Z) : M P Lab unit := rpc_leave sender addr.
Definition lab_store (sender : ident) (addr : string * Z) (key : ident) (value : bytes) : M P Lab (option StoreStatus) :=
  rpc_store handler sender addr key value.
Definition lab_dispatch (m : RpcMessage) (peer : SocketAddr) : M P Lab (option RpcMessage) :=
  dispatch_request handler m peer.
Definition lab_datagram (d : bytes) (peer : SocketAddr) : M P Lab unit := handle_datagram handler d peer.
Definition lab_verify (key : ident) (value : bytes) : M P Lab bool := verify_for_key handler key value.
Definition lab_ping (addr : string * Z) : M P Lab (bool * bytes) := call_ping_addr addr.
Definition lab_call_store (peer : Node) (key : ident) (value : bytes) : M P Lab (option StoreStatus) :=
  call_store_rpc peer key value.
Definition lab_ping_task (n : Node) : M P Lab unit := ping_task n.
Definition lab_welcome (n : Node) (w : World P Lab) : World P Lab := default w (welcome_task n w).

(** The datagrams of [send_raw], handled as they arrive. *)
Definition lab_send (from : SocketAddr) (f : Frame) (w : World P Lab) : World P Lab :=
  foldl (λ w d, (lab_datagram d from w).1) w (datagrams_of f).

End methods.

Definition put (key : ident) (value : bytes) (p : P) : P :=
  with_storage (set 0 (storage p) (ident_bytes key) value).1 p.

(** ** handlers.rs *)

Module HandlersTests.

Definition update_status_list_cannot_overwrite_a_did_record : bool :=
  let did_key := ids x07 in
  let old_record := b "legitimate did record" in
  let issuer_record := b "issuer-signed status list" in
  let w0 := in_lab silence (put did_key old_record (test_protocol false)) in
  let '(w1, first) := lab_update_status_list trusting (ids x02) (host 9000) did_key issuer_record w0 in
  let status_key := digest STATUS_LIST_KEY in
  let w1' := mkW (put status_key (b "old status list") (proto w1)) (env w1) in
  let '(w2, second) := lab_update_status_list trusting (ids x03) (host 9001) status_key issuer_record w1' in
  let '(w3, third) := lab_update trusting (ids x04) (host 9002) status_key (b "wrong update path") [] w2 in
  negb first && assert_eq (held w1 did_key) (Some old_record) && second &&
  assert_eq (held w2 status_key) (Some issuer_record) && negb third.

Definition find_hash_answers_with_the_record_hash_in_one_datagram : bool :=
  let key := ids x07 in
  let record := replicate (Z.to_nat 6000) xab in
  let peer := local_addr 9014 in
  let w0 := in_lab silence (put key record (test_protocol false)) in
  let '(w1, first) := lab_dispatch trusting (FindHash (ids x02) key) peer w0 in
  let '(_, second) := lab_dispatch trusting (FindHash (ids x02) (ids x08)) peer w1 in
  match first with
  | Some (FindHashHit hash) =>
      assert_eq hash (record_hash record) &&
      match serialize (mkFrame 1 false (FindHashHit hash)) with
      | Some bs => length bs <=? FRAG_CHUNK_SIZE
      | None => false
      end
  | _ => false
  end && match second with Some (FindValueNodes _) => true | _ => false end.

Definition rpc_update_preserves_old_value_when_capacity_is_exceeded : bool :=
  let key := ids x0a in
  let old_value := b "old" in
  let '(st, stored) :=
    set 0 (ForgetfulStorage.with_max_storage_bytes (-1) (Z.of_nat (ID_LEN + length old_value))) (ident_bytes key) old_value in
  let w0 := in_lab silence (test_protocol_with_storage false st) in
  let '(w1, ok) := lab_update trusting (ids x04) (host 9012) key (b "larger") [] w0 in
  assert_eq stored Stored && negb ok && assert_eq (held w1 key) (Some old_value).

Definition rpc_update_rejects_a_record_bound_to_a_different_key : bool :=
  let key := ids x10 in
  let old_value := b "old" in
  let w0 := in_lab silence (put key old_value (test_protocol false)) in
  let handler := TestHandler false true true in
  let '(w1, ok) := lab_update handler (ids x11) (host 9014) key (b "valid but mismatched") [] w0 in
  negb ok && assert_eq (held w1 key) (Some old_value).

(** Without the two counts of calls. *)
Definition signature_cache_keeps_issuer_and_self_signed_domains_separate : bool :=
  let handler := TestHandler true true false in
  let value := b "same bytes under different trust roots" in
  let '(w1, first) := lab_verify handler (ids x08) value (in_lab silence (test_protocol true)) in
  let '(_, second) := lab_verify handler (digest STATUS_LIST_KEY) value w1 in
  first && negb second &&
  negb (assert_eq (compute_key SelfSigned value) (compute_key IssuerSigned value)).

(** Without the two counts of calls. *)
Definition rpc_find_value_does_not_serve_a_record_bound_to_a_different_key : bool :=
  let key := ids x13 in
  let w0 := in_lab silence (put key (b "record for another DID") (test_protocol false)) in
  let '(_, response) := lab_find_value (TestHandler false true true) (ids x14) (host 9015) key w0 in
  match response with FNodes _ => true | FValue _ => false end.

Definition leave_requires_the_registered_endpoint : bool :=
  let contact := Node_new (ids x09) (Some "127.0.0.1"%string) (Some 9300%Z) in
  let w0 := in_lab silence (knows (test_protocol false) contact) in
  let w1 := (lab_leave trusting (id contact) (host 9301) w0).1 in
  let w2 := (lab_leave trusting (id contact) (host 9300) w1).1 in
  negb (is_none (RoutingTable.get_contact (router_of (proto w1)) (id contact))) &&
  is_none (RoutingTable.get_contact (router_of (proto w2)) (id contact)).

Definition all : list bool :=
  [update_status_list_cannot_overwrite_a_did_record; find_hash_answers_with_the_record_hash_in_one_datagram;
   rpc_update_preserves_old_value_when_capacity_is_exceeded; rpc_update_rejects_a_record_bound_to_a_different_key;
   signature_cache_keeps_issuer_and_self_signed_domains_separate;
   rpc_find_value_does_not_serve_a_record_bound_to_a_different_key; leave_requires_the_registered_endpoint].

End HandlersTests.

Lemma handlers_tests_pass : forallb (λ x, x) HandlersTests.all = true.
Proof. vm_compute. reflexivity. Qed.

(** ** transport.rs *)

Module TransportTests.

Definition p0 : P := test_protocol false.
Definition requests (w : World P Lab) (a : SocketAddr) : list Frame := requests_to a (lab_mail (env w)).
Definition is_store (f : Frame) : bool := match message f with Messages.Store _ _ _ => true | _ => false end.
Definition elapsed (w : World P Lab) : Z := lab_clock (env w).

(** What [try_recv] finds on the channel [ch], and whether the call [i] waits. *)
Definition received (w : World P Lab) (ch : N) : option RpcMessage := delivered (Protocol.transport (proto w)) !! ch.
Definition waits (w : World P Lab) (i : Z) : bool := bool_decide (is_Some (pending (Protocol.transport (proto w)) !! i)).

(** [protocol.pending.lock().await.insert(i, PendingCall::new(peer, expected, tx))],
    on the channel 0. *)
Definition pending_call (i : Z) (peer : SocketAddr) (e : ExpectedResponse) : World P Lab :=
  in_lab silence (on_transport (λ t, with_pending (<[i := mkPending peer e 0%N]> (pending t)) t) p0).

Definition first_datagram (frag : Z) (bs : bytes) : bytes := default [] (encode_fragments frag bs !! 0).

(** [encode_response] and [encode_pong] of the tests. *)
Definition encode_response (i : Z) (m : RpcMessage) : bytes :=
  match serialize (mkFrame i false m) with Some bs => first_datagram 1 bs | None => [] end.

Definition arrives (d : bytes) (peer : SocketAddr) (w : World P Lab) : World P Lab := (lab_datagram trusting d peer w).1.

Definition a_store_whose_first_copy_is_lost_is_sent_again : bool :=
  let contact := contact_at (ids x09) 7000 in
  let script := λ _ n _, if n =? 0 then [] else [StoreResult SStored] in
  let '(w, status) := lab_call_store trusting contact (ids x07) (b "one") (in_lab script p0) in
  match requests w (local_addr 7000) with
  | [first; second] => assert_eq (msg_id second) (msg_id first) && is_store second
  | _ => false
  end && assert_eq status (Some SStored) && (elapsed w <? from_millis 1500)%Z.

Definition a_measured_peer_is_asked_again_after_a_few_round_trips : bool :=
  let script := λ _ n _, if n =? 1 then [] else [Pong (ids x09)] in
  let '(w1, first_call) := lab_ping trusting (host 7000) (in_lab script p0) in
  let '(w2, second_call) := lab_ping trusting (host 7000) w1 in
  match requests w2 (local_addr 7000) with
  | [_; lost; again] => assert_eq (msg_id again) (msg_id lost)
  | _ => false
  end && first_call.1 && second_call.1 && (elapsed w2 - elapsed w1 <? from_millis 300)%Z.

Definition a_silent_peer_gets_the_request_at_most_three_times : bool :=
  let '(w, r) := lab_ping trusting (host 7000) (in_lab silence p0) in
  negb r.1 && assert_eq (Z.of_nat (length (requests w (local_addr 7000)))) (1 + MAX_RESENDS)%Z &&
  (RPC_TIMEOUT <=? elapsed w)%Z.

Definition a_lost_answer_after_a_receipt_is_asked_again : bool :=
  let contact := contact_at (ids x09) 7000 in
  let script := λ _ n _, if n =? 0 then [Received] else [StoreResult SAlreadyStored] in
  let '(w, status) := lab_call_store trusting contact (ids x07) (b "one") (in_lab script p0) in
  match requests w (local_addr 7000) with
  | [store; again] => assert_eq (msg_id again) (msg_id store)
  | _ => false
  end && assert_eq status (Some SAlreadyStored) && (elapsed w <? from_millis 1500)%Z.

(** The frames that answer the client, and the lookups under way. The task of
    the check has not run yet. *)
Definition answers_to (a : SocketAddr) (w : World P Lab) : list Frame :=
  omap (λ m, if bool_decide (m.1 = a) then f ← frame_of m.2; if is_request f then None else Some f else None)
    (lab_mail (env w)).
Definition lookups (w : World P Lab) : Z := store_lookups (Protocol.transport (proto w)).

Definition a_store_is_acknowledged_at_once_and_its_copy_is_not_checked_twice : bool :=
  let client := local_addr 7001 in
  let store value := mkFrame 5 true (Messages.Store (ids x09) (ids x07) value) in
  let w0 := in_lab silence (knows p0 (contact_at (ids x05) 7000)) in
  let w1 := lab_send trusting client (store (b "one")) w0 in
  let w2 := lab_send trusting client (store (b "one")) w1 in
  let w3 := lab_send trusting client (store (b "two")) w2 in
  let is_receipt (f : Frame) := match message f with Received => true | _ => false end in
  match answers_to client w1 with
  | [receipt] => assert_eq (msg_id receipt) 5%Z && is_receipt receipt
  | _ => false
  end && (elapsed w1 <? from_millis 200)%Z && assert_eq (lookups w1) 1%Z &&
  match answers_to client w2 with [_; receipt] => is_receipt receipt | _ => false end &&
  (elapsed w2 - elapsed w1 <? from_millis 200)%Z && assert_eq (lookups w2) 1%Z &&
  assert_eq (length (answers_to client w3)) 3 && (elapsed w3 - elapsed w2 <? from_millis 200)%Z &&
  assert_eq (lookups w3) 2%Z.

Definition is_stored (m : option RpcMessage) : bool := match m with Some (StoreResult SStored) => true | _ => false end.

Definition response_from_an_unexpected_endpoint_is_ignored : bool :=
  let expected_peer := local_addr 9200 in
  let unexpected_peer := local_addr 9201 in
  let w0 := pending_call 42 expected_peer EStoreResult in
  let response := encode_response 42 (StoreResult SStored) in
  let w1 := arrives response unexpected_peer w0 in
  let w2 := arrives response expected_peer w1 in
  is_none (received w1 0) && waits w1 42 && is_stored (received w2 0).

Definition has_contact (w : World P Lab) (i : ident) : bool :=
  negb (is_none (RoutingTable.get_contact (router_of (proto w)) i)).

Definition pong_from_unexpected_endpoint_does_not_update_routing_table : bool :=
  let expected_peer := local_addr 9210 in
  let unexpected_peer := local_addr 9211 in
  let expected_id := ids x0a in
  let unexpected_id := ids x0b in
  let w0 := pending_call 43 expected_peer EPong in
  let w1 := arrives (encode_response 43 (Pong unexpected_id)) unexpected_peer w0 in
  let w2 := arrives (encode_response 43 (Pong expected_id)) expected_peer w1 in
  negb (has_contact w1 unexpected_id) && is_none (received w1 0) && waits w1 43 &&
  match received w2 0 with Some (Pong sender_id) => assert_eq sender_id expected_id | _ => false end &&
  has_contact w2 expected_id.

Definition pong_for_pending_store_response_does_not_update_routing_table : bool :=
  let expected_peer := local_addr 9220 in
  let pong_id := ids x0c in
  let w0 := pending_call 44 expected_peer EStoreResult in
  let w1 := arrives (encode_response 44 (Pong pong_id)) expected_peer w0 in
  let w2 := arrives (encode_response 44 (StoreResult SStored)) expected_peer w1 in
  negb (has_contact w1 pong_id) && is_none (received w1 0) && waits w1 44 && is_stored (received w2 0).

Definition in_flight (w : World P Lab) : ReassemblyMap := reassembly (reassembler (Protocol.transport (proto w))).

Definition oversized_fragment_never_enters_reassembly : bool :=
  let fragment := first_datagram 100 (replicate (FRAG_CHUNK_SIZE + 1) x00) ++ [x00] in
  bool_decide (in_flight (arrives fragment (local_addr 9600) (in_lab silence p0)) = ∅).

Definition reassembly_limits_entries_and_discards_inconsistent_totals : bool :=
  let incomplete := first_datagram 0 (replicate (FRAG_CHUNK_SIZE + 1) x00) in
  let w := foldl (λ w i, arrives incomplete (local_addr (9400 + Z.of_nat i)) w) (in_lab silence p0)
             (seq 0 (MAX_REASSEMBLY_ENTRIES + 1)) in
  let peer := local_addr 9500 in
  let two_fragments := first_datagram 99 (replicate (FRAG_CHUNK_SIZE + 1) x00) in
  let three_fragments := first_datagram 99 (replicate (FRAG_CHUNK_SIZE * 2 + 1) x00) in
  let fresh := arrives three_fragments peer (arrives two_fragments peer (in_lab silence p0)) in
  assert_eq (size (in_flight w)) MAX_REASSEMBLY_ENTRIES && bool_decide (in_flight fresh = ∅).

Definition all : list bool :=
  [a_store_whose_first_copy_is_lost_is_sent_again; a_measured_peer_is_asked_again_after_a_few_round_trips;
   a_silent_peer_gets_the_request_at_most_three_times; a_lost_answer_after_a_receipt_is_asked_again;
   a_store_is_acknowledged_at_once_and_its_copy_is_not_checked_twice;
   response_from_an_unexpected_endpoint_is_ignored; pong_from_unexpected_endpoint_does_not_update_routing_table;
   pong_for_pending_store_response_does_not_update_routing_table; oversized_fragment_never_enters_reassembly;
   reassembly_limits_entries_and_discards_inconsistent_totals].

End TransportTests.

Lemma transport_tests_pass : forallb (λ x, x) TransportTests.all = true.
Proof. vm_compute. reflexivity. Qed.

(** ** store_check.rs *)

Module StoreCheckTests.
Import TransportTests.

Definition nothing_here : RpcMessage := FindValueNodes [].

Definition the_store_check_survives_a_lost_question : bool :=
  let peer := local_addr 7000 in
  let script := λ _ n _, if n =? 0 then [] else [nothing_here] in
  let w0 := in_lab script (knows (test_protocol false) (contact_at (ids x05) 7000)) in
  let '(w, status) := lab_store trusting (ids x02) (host 9015) (ids x07) (b "one") w0 in
  match requests w peer with
  | [lost; again] =>
      match message lost with FindHash _ _ => true | _ => false end && assert_eq (msg_id again) (msg_id lost)
  | _ => false
  end && assert_eq status (Some SStored) && (elapsed w <? from_millis 1500)%Z.

(** [give_answering_contact]: a node that holds nothing and knows nobody else
    answers with no node. *)
Definition answering : Script := λ _ _ _, [nothing_here].
Definition give_answering_contact (p : P) (i : ident) : World P Lab := in_lab answering (knows p (contact_at i 7000)).

Definition rpc_store_reports_idempotence_conflict_capacity_and_invalid_records : bool :=
  let st := ForgetfulStorage.with_max_storage_bytes (-1) (Z.of_nat (ID_LEN + 3)) in
  let w0 := give_answering_contact (test_protocol_with_storage false st) (ids x05) in
  let sender := ids x02 in
  let address := host 9010 in
  let key := ids x07 in
  let '(w1, first) := lab_store trusting sender address key (b "one") w0 in
  let '(w2, second) := lab_store trusting sender address key (b "one") w1 in
  let '(w3, third) := lab_store trusting sender address key (b "two") w2 in
  let contact := Node_new sender (Some address.1) (Some address.2) in
  let w3' := mkW (set_router (RoutingTable.remove_contact (router_of (proto w3)) contact) (proto w3)) (env w3) in
  let '(_, fourth) := lab_store trusting sender address (ids x08) (b "new") w3' in
  let invalid := give_answering_contact (test_protocol false) (ids x06) in
  let '(_, fifth) := lab_store (TestHandler true false false) (ids x03) (host 9011) (ids x09) (b "bad") invalid in
  assert_eq first (Some SStored) && assert_eq second (Some SAlreadyStored) && assert_eq third (Some SConflict) &&
  assert_eq fourth (Some SCapacityExceeded) && assert_eq fifth (Some SInvalidRecord).

(** Without the counters of the feature [counters]. *)
Definition store_to_a_node_that_knows_nobody_gets_no_answer : bool :=
  let '(w, status) := lab_store trusting (ids x02) (host 9012) (ids x07) (b "one") (in_lab silence (test_protocol false)) in
  assert_eq status None && assert_eq (held w (ids x07)) None.

(** Without the count of calls and the counters. *)
Definition a_record_bound_to_another_key_is_refused_before_the_network_check : bool :=
  let w0 := in_lab silence (knows (test_protocol false) (contact_at (ids x05) 7000)) in
  let '(w, status) :=
    lab_store (TestHandler false true true) (ids x02) (host 9016) (ids x07) (b "bound to another key") w0 in
  assert_eq status (Some SInvalidRecord) && (elapsed w <? from_millis 500)%Z &&
  assert_eq (length (lab_mail (env w))) 0 && assert_eq (held w (ids x07)) None.

(** Without the count of calls. *)
Definition a_neighbour_cannot_push_a_known_holder_out_of_the_store_check : bool :=
  let key := ids x07 in
  let liar_contact := contact_at (ids x05) 7005 in
  let holder_contact := contact_at (ids x03) 7003 in
  let empty := [contact_at (ids x06) 7006; contact_at (ids x04) 7004; contact_at (ids x00) 7000] in
  let made_up := (λ n,
    let last := byte_of_Z (Z.lxor 7 (Z.of_nat n)) in
    wire_from_node (Node_new (to_id (id_with (ID_LEN - 1) last (ident_bytes key))) (ip liar_contact) (port liar_contact)))
    <$> seq 1 20 in
  let script := λ a _ _,
    if bool_decide (a = local_addr 7005) then [FindValueNodes made_up]
    else if bool_decide (a = local_addr 7003) then [FindHashHit (record_hash (b "the owner's record"))]
    else [nothing_here] in
  let w0 := in_lab script (foldl knows (test_protocol false) (liar_contact :: holder_contact :: empty)) in
  let '(w, status) := lab_store trusting (ids x02) (host 9018) key (b "a forged record") w0 in
  assert_eq status (Some SConflict) && assert_eq (held w key) None.

Definition invalid_store_does_not_remove_spoofed_sender_from_routing_table : bool :=
  let sender_id := ids x0e in
  let registered := Node_new sender_id (Some "127.0.0.1"%string) (Some 9013%Z) in
  let key := ids x0f in
  let w0 := in_lab silence (put key (b "stored") (knows (test_protocol false) registered)) in
  let store (s : World P Lab * bool) :=
    let '(w, status) := lab_store (TestHandler true false false) sender_id (host 9999) key (b "invalid") s.1 in
    (w, s.2 && assert_eq status (Some SInvalidRecord)) in
  let '(w, all_invalid) := Nat.iter 3 store (w0, true) in
  all_invalid && assert_eq (RoutingTable.get_contact (router_of (proto w)) sender_id) (Some registered).

Definition all : list bool :=
  [the_store_check_survives_a_lost_question; rpc_store_reports_idempotence_conflict_capacity_and_invalid_records;
   store_to_a_node_that_knows_nobody_gets_no_answer;
   a_record_bound_to_another_key_is_refused_before_the_network_check;
   a_neighbour_cannot_push_a_known_holder_out_of_the_store_check;
   invalid_store_does_not_remove_spoofed_sender_from_routing_table].

End StoreCheckTests.

Lemma store_check_tests_pass : forallb (λ x, x) StoreCheckTests.all = true.
Proof. vm_compute. reflexivity. Qed.

(** ** welcome.rs

    A replication is under way from the moment its task has the permit of the
    semaphore ([busy]). *)

Module WelcomeTests.
Import TransportTests.

Definition welcome_key : ident := to_id (id_with (ID_LEN - 1) x00 (replicate ID_LEN x01)).
Definition id_at_distance (distance : byte) : ident := to_id (id_with (ID_LEN - 1) distance (ident_bytes welcome_key)).

Definition node_with_record : World P Lab := in_lab silence (put welcome_key (b "record") (test_protocol false)).

(** The raw peer at [distance], on a port of its own. *)
Definition peer_at (distance : byte) : Node := contact_at (id_at_distance distance) (7000 + byte_val distance).
Definition port_of (n : Node) : SocketAddr := local_addr (default 0%Z (port n)).

Definition ping_from (n : Node) : Frame := mkFrame 1 true (Ping (id n)).

(** [meet]: the peer pings, and gets its Pong. *)
Definition meet (w : World P Lab) (n : Node) : World P Lab * bool :=
  let w' := lab_send trusting (port_of n) (ping_from n) w in
  (w', match answers_to (port_of n) w' with
       | pong :: _ => match message pong with Pong _ => true | _ => false end
       | [] => false
       end).

Definition busy (w : World P Lab) : World P Lab := mkW (on_contacts (with_permits 0) (proto w)) (env w).

Definition slow : Node := peer_at x40.

Definition nodes_met_during_a_replication_enter_the_table_at_once : bool :=
  let w0 := busy (meet node_with_record slow).1 in
  let met := peer_at <$> [x10; x20; x30; x50] in
  let '(w, pongs) := foldl (λ s n, let '(w, pong) := meet s.1 n in (w, s.2 && pong)) (w0, true) met in
  pongs && forallb (λ n, has_contact w (id n)) met.

(** The peer pings while the record is on its way to the slow one, which never
    acknowledges it. *)
Definition a_node_met_during_a_replication_still_receives_its_records : bool :=
  let peer := peer_at x10 in
  let w0 := (meet node_with_record slow).1 in
  let e := env w0 in
  let later := (lab_clock e + from_millis 500, port_of peer, ping_from peer)%Z in
  let w1 := mkW (proto w0) (mkLab (lab_clock e) (lab_mail e) (lab_arrived e) (lab_script e) [later]) in
  let w2 := lab_welcome trusting slow w1 in
  let w3 := lab_welcome trusting peer w2 in
  existsb is_store (requests w2 (port_of slow)) && assert_eq (length (requests w2 (port_of peer))) 0 &&
  match requests w3 (port_of peer) with
  | store :: _ =>
      match message store with
      | Messages.Store _ key value => assert_eq key welcome_key && assert_eq value (b "record")
      | _ => false
      end
  | [] => false
  end.

Definition flood_id (i : nat) : ident := to_id (be_bytes 4 (Z.of_nat i) ++ replicate (ID_LEN - 4) xaa).

Definition nodes_met_in_a_flood_wait_in_a_bounded_queue : bool :=
  let w0 := busy (meet node_with_record slow).1 in
  let w := foldl (λ w i, lab_send trusting (local_addr 6999) (mkFrame (Z.of_nat i) true (Ping (flood_id i))) w) w0
             (seq 0 (MAX_WELCOME_QUEUE + 50)) in
  assert_eq (size (welcome_in_flight (contacts (proto w)))) MAX_WELCOME_QUEUE.

(** The tasks that ping an oldest contact, run after all the newcomers. *)
Definition run_pings (w : World P Lab) : World P Lab :=
  foldl (λ w t, match t with PingOldest n => (lab_ping_task trusting n w).1 | _ => w end) w
    (default [] (tasks (proto w))).

Definition a_full_bucket_pings_its_oldest_contact_once_at_a_time : bool :=
  let p := Protocol.new 0 0 (Node_from_id (ids x01)) (ForgetfulStorage.new (-1)) 1 3 None in
  let w0 := in_lab silence (knows p (contact_at (ids xf0) 7000)) in
  let newcomer i := to_id (id_with (ID_LEN - 1) (byte_of_Z (Z.of_nat i)) (replicate ID_LEN xf0)) in
  let w1 := foldl (λ w i, lab_send trusting (local_addr 6999) (mkFrame (Z.of_nat i) true (Ping (newcomer i))) w) w0
              (seq 1 10) in
  let w2 := run_pings w1 in
  let pings := List.filter (λ f, match message f with Ping _ => true | _ => false end) (requests w2 (local_addr 7000)) in
  assert_eq (length (answers_to (local_addr 6999) w1)) 10 &&
  assert_eq (size (list_to_set (msg_id <$> pings) : gset Z)) 1.

Definition all : list bool :=
  [nodes_met_during_a_replication_enter_the_table_at_once;
   a_node_met_during_a_replication_still_receives_its_records; nodes_met_in_a_flood_wait_in_a_bounded_queue;
   a_full_bucket_pings_its_oldest_contact_once_at_a_time].

End WelcomeTests.

Lemma welcome_tests_pass : forallb (λ x, x) WelcomeTests.all = true.
Proof. vm_compute. reflexivity. Qed.
